(* ===== verification/_CoqProject ===== *)
-Q . S2P
Prelude.v
SipHash.v
FrameAuth.v
TimeFrame.v
CreditsBlob.v
Aggregation.v
Storage.v
Access.v
ChargeProtocol.v
Quota.v
QuotaLaws.v
Admission.v
AdmissionSafe.v
Flush.v
RowMoves.v
FlushSteps.v
FlushConcurrent.v
LockRegistry.v
LockSafety.v
Sequence.v
SequenceLaws.v
Wire.v
ReqLog.v
ReqLogLaws.v
Server.v
ServerLaws.v
Backpressure.v
Client.v
ClientLaws.v
LinkLaws.v
Operations.v
OperationLaws.v
LockService.v
LockServiceLaws.v
Listener.v
Process.v
ProcessLaws.v
BridgeToken.v
BridgeTokenLaws.v
BridgeAuth.v
BridgeAuthLaws.v
BridgeChannel.v
BridgeChannelLaws.v
BridgeReplies.v
BridgeTermination.v
BridgeHttp.v
Config.v
ConfigLaws.v
ConfigFiles.v
Statements.v
Float64.v
SysMetrics.v
SysMetricsLaws.v
MetricsWriter.v
MetricsWriterLaws.v
