(* ===== verification/Prelude.v ===== *)
(** * fareward: a verification library of the daemon

    fareward is one Rust process (src/src) that a backend talks to over a framed TCP
    connection and that browsers reach over HTTP. It serves a rate limiter with its tenants'
    credit budgets, named locks, number sequences and a request log behind one authenticated
    connection; beside them it runs an HTTP bridge between the backend and browser tabs, and a
    writer of host metrics. This library models its components as executable definitions and
    proves what makes each of them correct.

    ** Parts and files

    The connection (src/src/service, with the client end of the wire in src/go/connection.go):
    - [SipHash]: src/src/siphash.rs, the incremental hasher against the one-shot function and the
      reference vectors. [FrameAuth]: service/auth.rs, the tag of a frame.
    - [Wire]: service/protocol.rs, opcodes, shapes, the encoding of replies, and the client's
      reader of them.
    - [Server], [ServerLaws]: service/server.rs, [handle_connection] as a machine of reader turns
      and handler steps over all eight opcodes; it calls into the limiter, the locks, the
      sequences and the request log through what they answer.
    - [Backpressure]: the same connection with its bounded channels and its writer task, where
      sends wait.
    - [Listener]: the socket file and [run] of server.rs, the accept loop with its slots, its
      back-off and its drain. [LockService], [LockServiceLaws]: the connections of [Server] and
      the registry of [LockRegistry] as one machine, and the lock service it refines.

    The Go client (src/go):
    - [Client], [ClientLaws], [LinkLaws]: connection.go and locks.go, one connection shared by
      goroutines: slots, the write under its lock, the read loop, the locks; and the link of that
      machine to [Server]'s, with the bytes in between.
    - [Operations], [OperationLaws]: credits.go, budgets.go, sequences.go, locks.go,
      access_invalidation.go, request_log.go: the calls with their checks, payloads, answers and
      retries.

    The rate limiter (src/src/limiter):
    - [TimeFrame], [CreditsBlob], [Aggregation], [Access]: time_frame.rs, credits_blob.rs,
      aggregation.rs, access.rs. [ChargeProtocol]: protocol.rs and budget.rs.
    - [Storage]: storage.rs, the trait [LimiterStore] as a class with its laws, and the Scylla
      implementation that refines it.
    - [Quota]: quota.rs, the state of a shard and the operations admit, mutate_budget,
      invalidate_access and flush_dirty in a state-and-error monad over any store;
      [QuotaLaws], [Admission], [AdmissionSafe] and [Flush] hold what is proved of them.
    - [RowMoves], [FlushSteps], [FlushConcurrent]: the flush as the steps it takes between its
      locks, with calls of other tasks between any two of them.

    The process (src/src/main.rs): [Process], [ProcessLaws], the start-up, the flush task and
    the stop, over the limiter and the calls of its connections.

    Locks and sequences:
    - [LockRegistry], [LockSafety]: src/src/lock, acquire and release as tasks whose atomic
      operations interleave; tokio's semaphore is a class.
    - [Sequence], [SequenceLaws]: src/src/sequence, reservations and sets over a durable counter
      that may fail after it was applied, with crashes in between.

    The request log: [ReqLog], [ReqLogLaws]: src/src/reqlog, the record, the gate on repeated
    errors, the bounded queue and the writer's loop.

    The bridge (src/src/bridge):
    - [BridgeToken], [BridgeTokenLaws]: token.rs. [BridgeAuth], [BridgeAuthLaws]: auth.rs and the
      checks of http.rs.
    - [BridgeChannel]: channel.rs and the handlers of http.rs over it, one atomic operation of one
      task per step. [BridgeChannelLaws], [BridgeReplies] and [BridgeTermination] are its
      invariants: routes and arrivals, replies, and that calls end.
    - [BridgeHttp]: the endpoints' gates, and the whole bridge as requests that arrive and tasks
      that run.

    Configuration: [Config], [ConfigLaws], [ConfigFiles]: src/src/config.rs, the files that are
    read, the override, the lookup of a setting, the loader and its validation. [Statements]:
    what the stores of storage.rs, sequence/store.rs and reqlog/writer.rs prepare, and what the
    driver may execute again.

    Host metrics (src/src/sysmetrics): [Float64], binary64 as the source uses it;
    [SysMetrics], [SysMetricsLaws]: mod.rs and collector.rs; [MetricsWriter],
    [MetricsWriterLaws]: writer.rs.

    ** How the components meet

    A call of [Operations] builds a payload that [Client]'s [exchange_write] frames and signs; the
    frame that [FrameAuth] accepts is dispatched by [Server] to the payload parsers of
    [ChargeProtocol], [Sequence], [LockRegistry] and [ReqLog], and answered in [Wire]'s encoding,
    which [Client]'s read loop hands back to the call. [LinkLaws] states this for any interleaving
    of the two ends, and [Backpressure] refines the daemon's end by one whose sends wait.
    [Quota] runs over the class [LimiterStore], and its theorems over that class's laws, which
    [Storage] discharges for the Scylla implementation.
    [ConfigLaws.load_valid] establishes the bounds the others assume: the policy that
    [AdmissionSafe] needs, the limits of the locks and the sequences, and the row width under
    which [MetricsWriterLaws.row_key_exact] holds. [LockService] puts [LockRegistry]'s guards
    where [Server]'s connections keep them; [Process] runs [FlushSteps]' flush, the periodic and
    the final one, among the calls [Server]'s handlers make. [BridgeHttp] joins [BridgeAuth]'s gates to the
    invariants of [BridgeChannel].

    ** What is shown

    Safety under interleaving: mutual exclusion of the locks, between tasks and between
    connections, and their queue's accounting; every
    request of a connection answered once, under authenticated frames, and the answer handed to
    the goroutine whose frame it answers; an access check that fails closed; replies of the bridge
    correlated, routed to the channel's own tab and never across tenants; no number issued twice.
    Conservation: no charge is lost to a flush, alone or among calls, nor to a clean exit of the
    process; the request log loses and doubles nothing it accepted,
    every sub-sample is in one row. Functional behaviour: one charge on every path, a budget
    mutation, a reservation, a verdict, the override of a configuration. Bounds: what is admitted
    is within its limits, a bucket's rate, a loaded configuration, the columns of a metrics row.
    Round trips: credit blobs, channel tokens, replies, frames, and from the client's arguments to
    what the daemon parses and from its decision to what the backend acts on. Equivalence with a reference:
    SipHash, the calendar, the windows of the metrics, the flush and its steps. Refinement: the
    store by its Scylla implementation, an abstract lock service by registry and connections, the connection by its bounded channels.
    Termination and liveness: answers that are waited for, the writer of a client that reads,
    calls of the bridge, the drain of the listener, the stop of the
    process, the locks of a connection that ended. Failures: what ends the listener, which
    files a configuration comes from, what a retried statement does. Several
    theorems exhibit behaviour that the source's comments do not promise; they say so.

    ** Conventions

    Integers are [Z] with their width written out: [wrap w] and [swrap w] are unsigned and signed
    wrap-around at [w] bits, the release build's arithmetic, and [in_u64] and the like say what
    fits. Bytes are a [Z] each; text is UTF-8 bytes or, in the bridge and the configuration, its
    characters. A Rust [Result] is [result], [?] is the monad's bind; state behind a mutex is
    passed by [SE], and stays written when a step fails. Concurrent components are step
    functions over explicit tasks, so that an interleaving is a list of events.

    Fuel: the loops of [CreditsBlob] and [Access] run on the length of what remains, which
    [decode_loop_fuel] and the search lemmas show to be enough; a varint and a decimal take ten
    and nineteen digits, all that 64 bits need; the cgroup search is bounded by the depth the
    source gives it. Everything else is structural.

    ** Not modelled

    Argument and log set-up, the timers (when one fires is the environment's choice), the
    sockets themselves, axum's routing and response headers. Of the Go client: dialing, deadlines
    and contexts beyond the way they end a wait, error texts, logging. The colbin codec, the toml
    and serde_json parsers, base64, SHA-256, BLAKE2s, constant-time comparison, tokio's semaphore
    and the database sessions are not in this repository: they are parameters or classes, each
    with an instance that the concrete runs use.

    This file holds what the others share: results and the state-and-error monad with what
    its steps keep, machine integers, bytes, list lemmas, and the tactics. *)

From stdpp Require Export prelude gmap sorting.
From Stdlib Require Export ZArith Lia Zwf.

#[export] Set Default Goal Selector "!".

Declare Scope fareward_scope.
Delimit Scope fareward_scope with fw.

(** ** Results: the [Result<A, E>] of the source *)

Inductive result (E A : Type) : Type :=
| Ok (a : A)
| Err (e : E).
Arguments Ok {E A} a.
Arguments Err {E A} e.

#[export] Instance result_ret E : MRet (result E) := fun A a => Ok a.
#[export] Instance result_bind E : MBind (result E) :=
  fun A B f m => match m with Ok a => f a | Err e => Err e end.

#[export] Instance result_eq_dec E A `{EqDecision E, EqDecision A} :
  EqDecision (result E A).
Proof. solve_decision. Defined.

#[export] Instance Ok_inj E A : Inj (=) (=) (@Ok E A).
Proof. by intros x y [= ->]. Qed.

(** [ok_or e o]: Rust's [Option::ok_or]. *)
Definition ok_or {E A} (e : E) (o : option A) : result E A :=
  match o with Some a => Ok a | None => Err e end.

(** [map_err f r]: Rust's [Result::map_err], and the [From] conversion [?] applies. *)
Definition map_err {E F A} (f : E -> F) (r : result E A) : result F A :=
  match r with Ok a => Ok a | Err e => Err (f e) end.

(** ** State and errors

    [SE S E A] is a computation over a mutable state [S] that may fail: the state written
    before a failure stays written, exactly as fields behind a Rust mutex do when a
    handler returns early with [?]. *)

Definition SE (S E A : Type) : Type := S -> result E A * S.

#[export] Instance SE_ret S E : MRet (SE S E) := fun A a s => (Ok a, s).
#[export] Instance SE_bind S E : MBind (SE S E) :=
  fun A B f m s =>
    match m s with
    | (Ok a, s') => f a s'
    | (Err e, s') => (Err e, s')
    end.

Definition se_get {S E} : SE S E S := fun s => (Ok s, s).
Definition se_put {S E} (s : S) : SE S E unit := fun _ => (Ok tt, s).
Definition se_modify {S E} (f : S -> S) : SE S E unit := fun s => (Ok tt, f s).
Definition se_fail {S E A} (e : E) : SE S E A := fun s => (Err e, s).
Definition se_lift {S E A} (r : result E A) : SE S E A := fun s => (r, s).

Lemma se_bind_ok {S E A B} (m : SE S E A) (f : A -> SE S E B) s b s' :
  (m ≫= f) s = (Ok b, s') ->
  exists a s1, m s = (Ok a, s1) /\ f a s1 = (Ok b, s').
Proof.
  unfold mbind, SE_bind. destruct (m s) as [[a|e] s1]; [eauto|done].
Qed.

Lemma se_bind_err {S E A B} (m : SE S E A) (f : A -> SE S E B) s e s' :
  (m ≫= f) s = (Err e, s') ->
  m s = (Err e, s') \/
  exists a s1, m s = (Ok a, s1) /\ f a s1 = (Err e, s').
Proof.
  unfold mbind, SE_bind. destruct (m s) as [[a|e'] s1]; [eauto|].
  intros [= -> ->]. by left.
Qed.

Lemma se_bind_run {S E A B} (m : SE S E A) (f : A -> SE S E B) s r s' :
  (m ≫= f) s = (r, s') ->
  (exists a s1, m s = (Ok a, s1) /\ f a s1 = (r, s')) \/
  (exists e, m s = (Err e, s') /\ r = Err e).
Proof.
  unfold mbind, SE_bind. destruct (m s) as [[a|e] s1]; [eauto|]. intros [= <- <-]. eauto.
Qed.

(** [se_keeps R m]: whatever [m] returns, the state it leaves is related to the one it
    found. Over a preorder it is compositional: see the lemmas below and [keeps]. *)
Definition se_keeps {S E A} (R : S -> S -> Prop) (m : SE S E A) : Prop :=
  forall s, R s (m s).2.

Section Keeps.
Context {S E : Type} (R : S -> S -> Prop) `{!PreOrder R}.

Lemma keeps_ret {A} (a : A) : se_keeps R (mret a : SE S E A).
Proof. intros s. simpl. reflexivity. Qed.
Lemma keeps_lift {A} (r : result E A) : se_keeps R (se_lift r : SE S E A).
Proof. intros s. simpl. reflexivity. Qed.
Lemma keeps_fail {A} (e : E) : se_keeps R (se_fail e : SE S E A).
Proof. intros s. simpl. reflexivity. Qed.
Lemma keeps_get : se_keeps R (se_get : SE S E S).
Proof. intros s. simpl. reflexivity. Qed.
Lemma keeps_bind {A B} (m : SE S E A) (f : A -> SE S E B) :
  se_keeps R m -> (forall a, se_keeps R (f a)) -> se_keeps R (m ≫= f).
Proof.
  intros Hm Hf s. unfold mbind, SE_bind. specialize (Hm s).
  destruct (m s) as [[a|e] s1]; simpl in *; [|done]. etrans; [exact Hm|apply Hf].
Qed.
(** A state-dependent continuation, after reading the state. *)
Lemma keeps_get_bind {B} (f : S -> SE S E B) :
  (forall s, R s (f s s).2) -> se_keeps R (se_get ≫= f).
Proof. intros Hf s. apply Hf. Qed.

End Keeps.

(** The same from states where [P] holds; [F] is what the earlier steps are known to keep. *)
Definition se_keeps_if {S E A} (P : S -> Prop) (R : S -> S -> Prop) (m : SE S E A) : Prop :=
  forall s, P s -> R s (m s).2.

Lemma keeps_if_bind {S E A B} (P : S -> Prop) (F R : S -> S -> Prop) `{!Transitive R}
    (m : SE S E A) (f : A -> SE S E B) :
  se_keeps F m -> (forall s s', F s s' -> R s s') -> (forall s s', P s -> F s s' -> P s') ->
  (forall a, se_keeps_if P R (f a)) -> se_keeps_if P R (m ≫= f).
Proof.
  intros Hm HFR HP Hf s Hs. unfold mbind, SE_bind. specialize (Hm s).
  destruct (m s) as [[a|e] s1]; simpl in *; [|by apply HFR].
  etrans; [by apply HFR|]. apply Hf. by eapply HP.
Qed.

Lemma keeps_if {S E A} (P : S -> Prop) (R : S -> S -> Prop) (m : SE S E A) :
  se_keeps R m -> se_keeps_if P R m.
Proof. intros Hm s _. apply Hm. Qed.

(** ** Machine integers

    A w-bit unsigned integer is a [Z] in [0, 2^w); the source's checked operations return
    an option, its [as] casts and [wrapping_] operations reduce modulo [2^w]. *)

Open Scope Z_scope.

Definition U8_MAX : Z := 255.
Definition U16_MAX : Z := 65535.
Definition U32_MAX : Z := 4294967295.
Definition U64_MAX : Z := 18446744073709551615.
Definition U128_MAX : Z := 340282366920938463463374607431768211455.
Definition I8_MIN : Z := -128.
Definition I8_MAX : Z := 127.
Definition I16_MIN : Z := -32768.
Definition I16_MAX : Z := 32767.
Definition I32_MIN : Z := -2147483648.
Definition I32_MAX : Z := 2147483647.
Definition I64_MIN : Z := -9223372036854775808.
Definition I64_MAX : Z := 9223372036854775807.

Definition in_u8 (z : Z) : Prop := 0 <= z <= U8_MAX.
Definition in_u16 (z : Z) : Prop := 0 <= z <= U16_MAX.
Definition in_u32 (z : Z) : Prop := 0 <= z <= U32_MAX.
Definition in_u64 (z : Z) : Prop := 0 <= z <= U64_MAX.
Definition in_i8 (z : Z) : Prop := I8_MIN <= z <= I8_MAX.
Definition in_i16 (z : Z) : Prop := I16_MIN <= z <= I16_MAX.
Definition in_i32 (z : Z) : Prop := I32_MIN <= z <= I32_MAX.
Definition in_i64 (z : Z) : Prop := I64_MIN <= z <= I64_MAX.

(** [try_from]-style conversions: the value when it fits. *)
Definition fits (lo hi z : Z) : option Z :=
  if (lo <=? z) && (z <=? hi) then Some z else None.
Definition try_i16 : Z -> option Z := fits I16_MIN I16_MAX.
Definition try_i32 : Z -> option Z := fits I32_MIN I32_MAX.
Definition try_i64 : Z -> option Z := fits I64_MIN I64_MAX.

Definition checked_add_u64 (a b : Z) : option Z := fits 0 U64_MAX (a + b).
Definition checked_add_i64 (a b : Z) : option Z := fits I64_MIN I64_MAX (a + b).
Definition checked_sub_i64 (a b : Z) : option Z := fits I64_MIN I64_MAX (a - b).
Definition checked_mul_u64 (a b : Z) : option Z := fits 0 U64_MAX (a * b).
Definition saturating_sub (a b : Z) : Z := Z.max 0 (a - b).

(** [wrap w z]: the low [w] bits, as an unsigned [w]-bit integer. *)
Definition wrap (w z : Z) : Z := z mod 2 ^ w.
(** [swrap w z]: the low [w] bits, as a signed [w]-bit integer. *)
Definition swrap (w z : Z) : Z :=
  let u := z mod 2 ^ w in if u <? 2 ^ (w - 1) then u else u - 2 ^ w.

(** ** Bytes *)

Abbreviation bytes := (list Z).

(** Rust's [len()] as a number. *)
Abbreviation zlen l := (Z.of_nat (length l)).

Definition is_byte (b : Z) : bool := (0 <=? b) && (b <=? 255).
Definition bytes_ok (bs : bytes) : Prop := Forall in_u8 bs.

(** [be_bytes n z]: the [n] low bytes of [z], most significant first ([to_be_bytes]). *)
Fixpoint be_bytes (n : nat) (z : Z) : bytes :=
  match n with
  | O => []
  | S k => Z.shiftr z (8 * Z.of_nat k) mod 256 :: be_bytes k z
  end.

(** [le_bytes n z]: the same bytes, least significant first. *)
Fixpoint le_bytes (n : nat) (z : Z) : bytes :=
  match n with
  | O => []
  | S k => z mod 256 :: le_bytes k (z / 256)
  end.

(** [of_be]: [from_be_bytes]; [of_le]: [from_le_bytes]. *)
Definition of_be (bs : bytes) : Z := foldl (fun acc b => acc * 256 + b) 0 bs.
Fixpoint of_le (bs : bytes) : Z :=
  match bs with [] => 0 | b :: r => b + 256 * of_le r end.

(** ** Automation

    [fareward] holds the range lemmas that close the bound side conditions; [fw_bool]
    turns the source's boolean tests into propositions; [fw_split] opens the branches of a
    definition one test at a time. *)

Create HintDb fareward.
Create Rewrite HintDb fareward.

Ltac fw_bool :=
  repeat match goal with
  | H : (_ && _) = true |- _ => apply andb_prop in H as [? ?]
  | H : (_ || _) = false |- _ => apply orb_false_elim in H as [? ?]
  | H : (_ && _) = false |- _ => apply andb_false_iff in H
  | H : (_ || _) = true |- _ => apply orb_true_iff in H
  | H : negb _ = true |- _ => apply negb_true_iff in H
  | H : negb _ = false |- _ => apply negb_false_iff in H
  | H : (_ <=? _) = true |- _ => apply Z.leb_le in H
  | H : (_ <=? _) = false |- _ => apply Z.leb_gt in H
  | H : (_ <? _) = true |- _ => apply Z.ltb_lt in H
  | H : (_ <? _) = false |- _ => apply Z.ltb_ge in H
  | H : (_ >? _) = true |- _ => rewrite Z.gtb_ltb in H; apply Z.ltb_lt in H
  | H : (_ >? _) = false |- _ => rewrite Z.gtb_ltb in H; apply Z.ltb_ge in H
  | H : (_ =? _) = true |- _ => apply Z.eqb_eq in H
  | H : (_ =? _) = false |- _ => apply Z.eqb_neq in H
  | H : bool_decide _ = true |- _ => apply bool_decide_eq_true in H
  | H : bool_decide _ = false |- _ => apply bool_decide_eq_false in H
  end.

(** One branch of the definition under scrutiny at a time. *)
Ltac fw_split :=
  match goal with
  | |- context [match ?x with _ => _ end] => destruct x eqn:?
  | H : context [match ?x with _ => _ end] |- _ => destruct x eqn:?
  end.

Ltac fw_cases := repeat (fw_split; simplify_eq/=).

(** Unfold the width predicates and hand the goal to [lia]. *)
Ltac widths :=
  unfold in_u8, in_u16, in_u32, in_u64, in_i8, in_i16, in_i32, in_i64,
    U8_MAX, U16_MAX, U32_MAX, U64_MAX, U128_MAX, I8_MIN, I8_MAX,
    I16_MIN, I16_MAX, I32_MIN, I32_MAX, I64_MIN, I64_MAX in *.
Ltac bounds := solve [widths; lia].

#[export] Hint Extern 1 (se_keeps _ (mret _)) => apply keeps_ret; apply _ : fareward.

(** One node of a monadic definition whose steps are known to keep a relation. *)
Ltac keeps :=
  repeat first
    [ progress intros
    | apply keeps_ret; apply _ | apply keeps_lift; apply _ | apply keeps_fail; apply _
    | apply keeps_get; apply _ | solve [eauto with fareward]
    | apply keeps_bind; [apply _| |]
    | progress cbv zeta
    | match goal with |- se_keeps _ (match ?x with _ => _ end) => destruct x end ].

(** Literal byte strings. *)
Ltac solve_bytes :=
  unfold bytes_ok;
  repeat match goal with
  | |- Forall _ (_ :: _) => apply Forall_cons_2
  | |- Forall _ [] => apply Forall_nil_2
  end; try done; try bounds.

(** ** Generic lemmas *)

Lemma fits_Some lo hi z z' : fits lo hi z = Some z' <-> z' = z /\ lo <= z <= hi.
Proof.
  unfold fits. destruct (Z.leb_spec lo z), (Z.leb_spec z hi); simpl; split;
    try intros [= <-]; try intros (-> & ? & ?); done || lia.
Qed.

Lemma fits_None lo hi z : fits lo hi z = None <-> ~ (lo <= z <= hi).
Proof.
  unfold fits. destruct (Z.leb_spec lo z), (Z.leb_spec z hi); simpl; split;
    intros; done || lia.
Qed.

Lemma checked_add_u64_Some a b c :
  checked_add_u64 a b = Some c <-> c = a + b /\ in_u64 (a + b).
Proof. apply fits_Some. Qed.

Lemma checked_add_u64_None a b :
  0 <= a + b -> checked_add_u64 a b = None <-> U64_MAX < a + b.
Proof. intros ?. unfold checked_add_u64. rewrite fits_None. lia. Qed.

Lemma ok_or_Ok {E A} (e : E) (o : option A) a : ok_or e o = Ok a <-> o = Some a.
Proof. destruct o; simpl; split; try intros [? ?]; congruence || by intros [= ->]. Qed.

Lemma ok_or_Err {E A} (e e' : E) (o : option A) :
  ok_or e o = Err e' <-> o = None /\ e = e'.
Proof. destruct o; simpl; split; try intros [? ?]; congruence || by intros [= ->]. Qed.

Lemma result_bind_ok {E A B} (r : result E A) (f : A -> result E B) b :
  (r ≫= f) = Ok b <-> exists a, r = Ok a /\ f a = Ok b.
Proof.
  destruct r as [a|e]; unfold mbind, result_bind; split;
    [by eauto|by intros (? & [= ->] & ?)|done|by intros (? & ? & ?)].
Qed.

Lemma wrap_bound w z : 0 <= w -> 0 <= wrap w z < 2 ^ w.
Proof. intros. apply Z.mod_pos_bound. by apply Z.pow_pos_nonneg. Qed.

Lemma wrap_small w z : 0 <= z < 2 ^ w -> wrap w z = z.
Proof. intros. by apply Z.mod_small. Qed.

Lemma pow2_half w : 0 < w -> 2 ^ w = 2 ^ (w - 1) * 2.
Proof. intros. replace w with (w - 1 + 1) at 1 by lia. by rewrite Z.pow_add_r by lia. Qed.

Lemma swrap_bound w z : 0 < w -> - 2 ^ (w - 1) <= swrap w z < 2 ^ (w - 1).
Proof.
  intros Hw. unfold swrap. rewrite (pow2_half w) by done. pose proof (Z.pow_pos_nonneg 2 (w - 1)).
  pose proof (Z.mod_pos_bound z (2 ^ (w - 1) * 2)). destruct (_ <? _) eqn:E; fw_bool; lia.
Qed.

Lemma swrap_small w z : 0 < w -> - 2 ^ (w - 1) <= z < 2 ^ (w - 1) -> swrap w z = z.
Proof.
  intros Hw Hz. unfold swrap. rewrite (pow2_half w) by done. destruct (decide (0 <= z)).
  - rewrite Z.mod_small by lia. destruct (z <? _) eqn:E; fw_bool; lia.
  - rewrite <- (Z.mod_unique z (2 ^ (w - 1) * 2) (-1) (z + 2 ^ (w - 1) * 2)) by lia.
    destruct (_ <? _) eqn:E; fw_bool; lia.
Qed.

Lemma swrap_shift w z : exists q, swrap w z = z + q * 2 ^ w.
Proof.
  unfold swrap. assert (z mod 2 ^ w = z - 2 ^ w * (z / 2 ^ w)) as ->.
  { destruct (decide (2 ^ w = 0)) as [->|]; [by rewrite Zmod_0_r, Z.mul_0_l, Z.sub_0_r|]. by apply Z.mod_eq. }
  destruct (_ <? _); [exists (- (z / 2 ^ w))|exists (- (z / 2 ^ w) - 1)]; lia.
Qed.

Lemma swrap_i64 z : in_i64 (swrap 64 z).
Proof. pose proof (swrap_bound 64 z). widths. lia. Qed.

Lemma swrap_i64_small z : in_i64 z -> swrap 64 z = z.
Proof. intros. apply swrap_small; widths; lia. Qed.

Lemma shiftr_8 z k : Z.shiftr z (8 * Z.of_nat k) = z / 256 ^ Z.of_nat k.
Proof. rewrite Z.shiftr_div_pow2 by lia. rewrite Z.pow_mul_r by lia. done. Qed.

Lemma length_be_bytes n z : length (be_bytes n z) = n.
Proof. induction n; simpl; auto. Qed.

Lemma length_le_bytes n z : length (le_bytes n z) = n.
Proof. revert z. induction n; intros; simpl; auto. Qed.

Lemma be_bytes_ok n z : bytes_ok (be_bytes n z).
Proof.
  unfold bytes_ok. induction n; simpl; constructor; [|done].
  pose proof (Z.mod_pos_bound (z ≫ (8 * Z.of_nat n)) 256). bounds.
Qed.

Lemma le_bytes_ok n z : bytes_ok (le_bytes n z).
Proof.
  unfold bytes_ok. revert z. induction n; intros; simpl; constructor; [|done].
  pose proof (Z.mod_pos_bound z 256). bounds.
Qed.

Lemma bytes_ok_app a b : bytes_ok (a ++ b) <-> bytes_ok a /\ bytes_ok b.
Proof. apply Forall_app. Qed.

Lemma of_be_acc bs acc :
  foldl (fun acc b => acc * 256 + b) acc bs = acc * 256 ^ zlen bs + of_be bs.
Proof.
  unfold of_be. revert acc. induction bs as [|b r IH]; intros acc; simpl; [lia|].
  rewrite (IH (acc * 256 + b)), (IH (0 * 256 + b)).
  rewrite Nat2Z.inj_succ, Z.pow_succ_r by lia. ring.
Qed.

Lemma of_be_cons b r : of_be (b :: r) = b * 256 ^ zlen r + of_be r.
Proof. unfold of_be at 1. simpl. rewrite of_be_acc. ring. Qed.

Lemma of_be_app a b : of_be (a ++ b) = of_be a * 256 ^ zlen b + of_be b.
Proof. unfold of_be at 1. rewrite foldl_app. apply of_be_acc. Qed.

Lemma of_be_bound bs : bytes_ok bs -> 0 <= of_be bs < 256 ^ zlen bs.
Proof.
  induction 1 as [|b r Hb Hr IH]; [done|].
  rewrite of_be_cons. simpl length. rewrite Nat2Z.inj_succ, Z.pow_succ_r by lia. bounds || (widths; nia).
Qed.

Lemma of_be_be_bytes n z : of_be (be_bytes n z) = z mod 256 ^ Z.of_nat n.
Proof.
  induction n as [|n IH]; [by rewrite Z.mod_1_r|].
  simpl be_bytes. rewrite of_be_cons, length_be_bytes, IH, shiftr_8.
  rewrite Nat2Z.inj_succ, Z.pow_succ_r by lia.
  rewrite (Z.mul_comm 256), Z.rem_mul_r by lia. lia.
Qed.

Lemma of_be_be_bytes_small n z :
  0 <= z < 256 ^ Z.of_nat n -> of_be (be_bytes n z) = z.
Proof. intros. rewrite of_be_be_bytes. by apply Z.mod_small. Qed.

Lemma be_bytes_of_be bs : bytes_ok bs -> be_bytes (length bs) (of_be bs) = bs.
Proof.
  enough (forall k, bytes_ok bs ->
    be_bytes (length bs) (k * 256 ^ zlen bs + of_be bs) = bs) as H.
  { intros. rewrite <- (H 0) at 3 by done. f_equal. }
  induction bs as [|b r IH]; intros k Hok; [done|].
  apply Forall_cons in Hok as [Hb Hr]. simpl length. simpl be_bytes.
  pose proof (of_be_bound r Hr). rewrite of_be_cons. f_equal.
  - rewrite shiftr_8, Nat2Z.inj_succ, Z.pow_succ_r by lia.
    replace (k * (256 * 256 ^ zlen r) + (b * 256 ^ zlen r + of_be r))
      with (of_be r + (k * 256 + b) * 256 ^ zlen r) by ring.
    rewrite Z.div_add by lia. rewrite (Z.div_small (of_be r)) by lia.
    rewrite Z.add_0_l, Z.add_comm, Z.mod_add by lia. apply Z.mod_small. bounds.
  - rewrite Nat2Z.inj_succ, Z.pow_succ_r by lia.
    etrans; [|apply (IH (k * 256 + b) Hr)]. f_equal. ring.
Qed.

Lemma be_bytes_inj n x y :
  0 <= x < 256 ^ Z.of_nat n -> 0 <= y < 256 ^ Z.of_nat n ->
  be_bytes n x = be_bytes n y -> x = y.
Proof.
  intros Hx Hy E. rewrite <- (of_be_be_bytes_small n x Hx), E.
  by apply of_be_be_bytes_small.
Qed.

Lemma of_le_bound bs : bytes_ok bs -> 0 <= of_le bs < 256 ^ zlen bs.
Proof.
  induction 1 as [|b r Hb Hr IH]; [done|].
  simpl length. rewrite Nat2Z.inj_succ, Z.pow_succ_r by lia. simpl. bounds.
Qed.

Lemma of_le_le_bytes n z : of_le (le_bytes n z) = z mod 256 ^ Z.of_nat n.
Proof.
  revert z. induction n as [|n IH]; intros z; [by rewrite Z.mod_1_r|].
  simpl le_bytes. simpl of_le. rewrite IH.
  rewrite Nat2Z.inj_succ, Z.pow_succ_r by lia. by rewrite Z.rem_mul_r by lia.
Qed.

(** Bitwise assembly: an OR of non-overlapping fields is a sum. *)
Lemma land_shifted a b k :
  0 <= k -> 0 <= a < 2 ^ k -> Z.land a (Z.shiftl b k) = 0.
Proof.
  intros Hk Ha. apply Z.bits_inj'. intros n Hn. rewrite Z.bits_0, Z.land_spec.
  destruct (Z.lt_ge_cases n k).
  - by rewrite Z.shiftl_spec_low, andb_false_r.
  - rewrite <- (Z.mod_small a (2 ^ k)) by done. by rewrite Z.mod_pow2_bits_high.
Qed.

Lemma lor_shifted a b k :
  0 <= k -> 0 <= a < 2 ^ k -> Z.lor a (Z.shiftl b k) = a + b * 2 ^ k.
Proof.
  intros Hk Ha. pose proof (Z.add_lor_land a (Z.shiftl b k)) as E.
  rewrite land_shifted, Z.add_0_r in E by done.
  rewrite E, Z.shiftl_mul_pow2 by done. done.
Qed.

Lemma u64_log2 a : 0 <= a -> in_u64 a <-> Z.log2 a < 64.
Proof.
  intros Ha. destruct (decide (a = 0)) as [->|]; [simpl; widths; lia|].
  rewrite <- Z.log2_lt_pow2 by lia. widths. lia.
Qed.

Lemma lxor_u64 a b : in_u64 a -> in_u64 b -> in_u64 (Z.lxor a b).
Proof.
  intros Ha Hb. assert (0 <= a) by bounds. assert (0 <= b) by bounds.
  apply u64_log2 in Ha, Hb; [|done..]. apply u64_log2; [by apply Z.lxor_nonneg|].
  pose proof (Z.log2_lxor a b). lia.
Qed.

Lemma lor_u64 a b : in_u64 a -> in_u64 b -> in_u64 (Z.lor a b).
Proof.
  intros Ha Hb. assert (0 <= a) by bounds. assert (0 <= b) by bounds.
  apply u64_log2 in Ha, Hb; [|done..]. apply u64_log2; [by apply Z.lor_nonneg|].
  rewrite Z.log2_lor by done. lia.
Qed.

Lemma wrap_u64 z : in_u64 (wrap 64 z).
Proof. pose proof (wrap_bound 64 z). widths. lia. Qed.

#[export] Hint Resolve lxor_u64 lor_u64 wrap_u64 : fareward.
#[export] Hint Resolve be_bytes_ok le_bytes_ok : fareward.
#[export] Hint Rewrite length_be_bytes length_le_bytes length_app : fareward.

(** Sorted lists, by index. *)
Lemma sorted_lookup {A} (R : A -> A -> Prop) (l : list A) i j x y :
  StronglySorted R l -> l !! i = Some x -> l !! j = Some y -> (i < j)%nat -> R x y.
Proof.
  intros Hs. revert i j. induction Hs as [|a l Hs IH Ha]; intros [|i] [|j] Hi Hj Hij;
    try done; try lia; simpl in *.
  - injection Hi as <-. rewrite Forall_lookup in Ha. by eapply Ha.
  - eapply IH; try done. lia.
Qed.
