(* ===== verification/SipHash.v ===== *)
(** * SipHash: the keyed tag function of src/src/siphash.rs

    The incremental SipHash-2-4 hasher ([SipHasher24], [new], [write], [finish],
    [compress], [round]) and the key derivation. The four lanes [v0..v3] of the source's
    struct are grouped in [Lanes]; everything else is field for field. SHA-256 comes from
    the [sha2] crate and is a parameter of [derive_key].

    Theorems: the hasher is a streaming implementation of the one-shot function
    [siphash24] (written from the algorithm's description: pad, cut into words, absorb,
    finalize), splitting the input over several [write] calls never changes the tag, and
    the 64 reference vectors of the unit tests evaluate to the listed values. Two hashers
    that differ only in stale tail bytes are indistinguishable: [hasher_equiv] is a setoid
    and [write] and [finish] respect it. *)

From S2P Require Import Prelude.

(** ** The algorithm's state *)

Definition INIT_0 : Z := 0x736f6d6570736575.
Definition INIT_1 : Z := 0x646f72616e646f6d.
Definition INIT_2 : Z := 0x6c7967656e657261.
Definition INIT_3 : Z := 0x7465646279746573.

Record Key := mkKey { k0 : Z; k1 : Z }.

Record Lanes := mkLanes { v0 : Z; v1 : Z; v2 : Z; v3 : Z }.

Record SipHasher24 := mkHasher {
  lanes : Lanes;
  tail : bytes;       (* [u8; 8] *)
  tail_len : nat;
  total_len : Z;
}.

Definition wrapping_add (a b : Z) : Z := wrap 64 (a + b).
Definition rotate_left (x n : Z) : Z :=
  Z.lor (wrap 64 (Z.shiftl x n)) (Z.shiftr x (64 - n)).

Definition round (s : Lanes) : Lanes :=
  let a0 := wrapping_add (v0 s) (v1 s) in
  let a1 := Z.lxor (rotate_left (v1 s) 13) a0 in
  let a0 := rotate_left a0 32 in
  let a2 := wrapping_add (v2 s) (v3 s) in
  let a3 := Z.lxor (rotate_left (v3 s) 16) a2 in
  let a0 := wrapping_add a0 a3 in
  let a3 := Z.lxor (rotate_left a3 21) a0 in
  let a2 := wrapping_add a2 a1 in
  let a1 := Z.lxor (rotate_left a1 17) a2 in
  let a2 := rotate_left a2 32 in
  mkLanes a0 a1 a2 a3.

Definition compress (s : Lanes) (word : Z) : Lanes :=
  let s := mkLanes (v0 s) (v1 s) (v2 s) (Z.lxor (v3 s) word) in
  let s := round (round s) in
  mkLanes (Z.lxor (v0 s) word) (v1 s) (v2 s) (v3 s).

(** [chunks_exact(8)]: absorb every whole word, return the remainder. *)
Fixpoint absorb (s : Lanes) (bs : bytes) : Lanes * bytes :=
  match bs with
  | b0 :: b1 :: b2 :: b3 :: b4 :: b5 :: b6 :: b7 :: rest =>
      absorb (compress s (of_le [b0; b1; b2; b3; b4; b5; b6; b7])) rest
  | _ => (s, bs)
  end.

Definition new (key : Key) : SipHasher24 :=
  mkHasher
    (mkLanes (Z.lxor (k0 key) INIT_0) (Z.lxor (k1 key) INIT_1)
             (Z.lxor (k0 key) INIT_2) (Z.lxor (k1 key) INIT_3))
    (replicate 8 0) 0 0.

(** [dst[at..at + src.len()].copy_from_slice(src)]. *)
Definition copy_at (dst : bytes) (at_ : nat) (src : bytes) : bytes :=
  take at_ dst ++ src ++ drop (at_ + length src) dst.

Definition write_words (h : SipHasher24) (bs : bytes) : SipHasher24 :=
  let '(s, leftover) := absorb (lanes h) bs in
  mkHasher s (copy_at (tail h) 0 leftover) (length leftover) (total_len h).

Definition write (h : SipHasher24) (bs : bytes) : SipHasher24 :=
  let total := wrap 64 (total_len h + zlen bs) in
  if (0 <? tail_len h)%nat then
    let taken := min (length bs) (8 - tail_len h) in
    let tl := copy_at (tail h) (tail_len h) (take taken bs) in
    let n := (tail_len h + taken)%nat in
    if (n <? 8)%nat then mkHasher (lanes h) tl n total
    else write_words (mkHasher (compress (lanes h) (of_le tl)) tl 0 total) (drop taken bs)
  else write_words (mkHasher (lanes h) (tail h) (tail_len h) total) bs.

Definition finish (h : SipHasher24) : Z :=
  let last_word :=
    foldl Z.lor (Z.shiftl (Z.land (total_len h) 0xff) 56)
      (imap (fun index byte => Z.shiftl byte (8 * Z.of_nat index))
            (take (tail_len h) (tail h))) in
  let s := compress (lanes h) last_word in
  let s := mkLanes (v0 s) (v1 s) (Z.lxor (v2 s) 0xff) (v3 s) in
  let s := round (round (round (round s))) in
  Z.lxor (Z.lxor (Z.lxor (v0 s) (v1 s)) (v2 s)) (v3 s).

(** [siphash_of]: one [write], as the unit tests call it. *)
Definition siphash_of (key : Key) (message : bytes) : Z :=
  finish (write (new key) message).

(** The key is the first sixteen bytes of the secret's SHA-256 digest. *)
Definition derive_key (sha256 : bytes -> bytes) (secret : bytes) : Key :=
  let digest := sha256 secret in
  mkKey (of_le (take 8 digest)) (of_le (take 8 (drop 8 digest))).

(** ** The specification: SipHash-2-4 in one shot *)

(** The message, zero padding, and the length's low byte: a whole number of words. *)
Definition pad (message : bytes) : bytes :=
  message ++ replicate (7 - length message mod 8) 0 ++ [zlen message mod 256].

Fixpoint words (bs : bytes) : list Z :=
  match bs with
  | b0 :: b1 :: b2 :: b3 :: b4 :: b5 :: b6 :: b7 :: rest =>
      of_le [b0; b1; b2; b3; b4; b5; b6; b7] :: words rest
  | _ => []
  end.

Definition finalize (s : Lanes) : Z :=
  let s := round (round (round (round
    (mkLanes (v0 s) (v1 s) (Z.lxor (v2 s) 0xff) (v3 s))))) in
  Z.lxor (Z.lxor (Z.lxor (v0 s) (v1 s)) (v2 s)) (v3 s).

Definition siphash24 (key : Key) (message : bytes) : Z :=
  finalize (foldl compress (lanes (new key)) (words (pad message))).

(** ** What a hasher means: its lanes, the pending bytes, the length so far *)

Definition hasher_wf (h : SipHasher24) : Prop :=
  length (tail h) = 8%nat /\ (tail_len h < 8)%nat /\ in_u64 (total_len h).

Definition meaning (h : SipHasher24) : Lanes * bytes * Z :=
  (lanes h, take (tail_len h) (tail h), total_len h).

Definition hasher_equiv (a b : SipHasher24) : Prop :=
  hasher_wf a /\ hasher_wf b /\ meaning a = meaning b.

Definition lanes_ok (s : Lanes) : Prop :=
  in_u64 (v0 s) /\ in_u64 (v1 s) /\ in_u64 (v2 s) /\ in_u64 (v3 s).

Definition key_ok (k : Key) : Prop := in_u64 (k0 k) /\ in_u64 (k1 k).

(** The 64 vectors of [REFERENCE_VECTORS]. *)
Definition REFERENCE_VECTORS : list Z := [
  0x726fdb47dd0e0e31;
  0x74f839c593dc67fd;
  0x0d6c8009d9a94f5a;
  0x85676696d7fb7e2d;
  0xcf2794e0277187b7;
  0x18765564cd99a68d;
  0xcbc9466e58fee3ce;
  0xab0200f58b01d137;
  0x93f5f5799a932462;
  0x9e0082df0ba9e4b0;
  0x7a5dbbc594ddb9f3;
  0xf4b32f46226bada7;
  0x751e8fbc860ee5fb;
  0x14ea5627c0843d90;
  0xf723ca908e7af2ee;
  0xa129ca6149be45e5;
  0x3f2acc7f57c29bdb;
  0x699ae9f52cbe4794;
  0x4bc1b3f0968dd39c;
  0xbb6dc91da77961bd;
  0xbed65cf21aa2ee98;
  0xd0f2cbb02e3b67c7;
  0x93536795e3a33e88;
  0xa80c038ccd5ccec8;
  0xb8ad50c6f649af94;
  0xbce192de8a85b8ea;
  0x17d835b85bbb15f3;
  0x2f2e6163076bcfad;
  0xde4daaaca71dc9a5;
  0xa6a2506687956571;
  0xad87a3535c49ef28;
  0x32d892fad841c342;
  0x7127512f72f27cce;
  0xa7f32346f95978e3;
  0x12e0b01abb051238;
  0x15e034d40fa197ae;
  0x314dffbe0815a3b4;
  0x027990f029623981;
  0xcadcd4e59ef40c4d;
  0x9abfd8766a33735c;
  0x0e3ea96b5304a7d0;
  0xad0c42d6fc585992;
  0x187306c89bc215a9;
  0xd4a60abcf3792b95;
  0xf935451de4f21df2;
  0xa9538f0419755787;
  0xdb9acddff56ca510;
  0xd06c98cd5c0975eb;
  0xe612a3cb9ecba951;
  0xc766e62cfcadaf96;
  0xee64435a9752fe72;
  0xa192d576b245165a;
  0x0a8787bf8ecb74b2;
  0x81b3e73d20b49b6f;
  0x7fa8220ba3b2ecea;
  0x245731c13ca42499;
  0xb78dbfaf3a8d83bd;
  0xea1ad565322a1a0b;
  0x60e61c23a3795013;
  0x6606d7e446282b93;
  0x6ca4ecb15c5f91e1;
  0x9f626da15c9625f3;
  0xe51b38608ef25f57;
  0x958a324ceb064572
].

Definition reference_key : Key :=
  mkKey (of_le [0; 1; 2; 3; 4; 5; 6; 7]) (of_le [8; 9; 10; 11; 12; 13; 14; 15]).

(** ** Absorbing whole words *)

Lemma absorb_short s bs : (length bs < 8)%nat -> absorb s bs = (s, bs).
Proof. do 8 (destruct bs as [|? bs]; [done|]). simpl. lia. Qed.

(** Every list of eight bytes or more starts with a word. *)
Lemma word_split (bs : bytes) :
  (8 <= length bs)%nat ->
  exists b0 b1 b2 b3 b4 b5 b6 b7 rest,
    bs = b0 :: b1 :: b2 :: b3 :: b4 :: b5 :: b6 :: b7 :: rest.
Proof.
  do 8 (destruct bs as [|? bs]; [simpl; lia|]). intros _. by repeat eexists.
Qed.

(** Induction eight bytes at a time. *)
Lemma word_ind (P : bytes -> Prop) :
  (forall bs, (length bs < 8)%nat -> P bs) ->
  (forall b0 b1 b2 b3 b4 b5 b6 b7 rest,
     P rest -> P (b0 :: b1 :: b2 :: b3 :: b4 :: b5 :: b6 :: b7 :: rest)) ->
  forall bs, P bs.
Proof.
  intros Hs Hw bs. remember (length bs) as n eqn:E. revert bs E.
  induction (lt_wf n) as [n _ IH]. intros bs ->.
  destruct (decide (length bs < 8)%nat); [by apply Hs|].
  destruct (word_split bs) as (b0&b1&b2&b3&b4&b5&b6&b7&rest&->); [lia|].
  apply Hw, (IH (length rest)); [simpl; lia|done].
Qed.

Lemma absorb_app s a b :
  absorb s (a ++ b) = absorb (absorb s a).1 ((absorb s a).2 ++ b).
Proof.
  revert s. induction a as [a Ha|b0 b1 b2 b3 b4 b5 b6 b7 rest IH] using word_ind; intros s.
  - by rewrite (absorb_short s a).
  - apply IH.
Qed.

Lemma absorb_rest_length s bs : (length (absorb s bs).2 < 8)%nat.
Proof.
  revert s. induction bs as [bs Ha|b0 b1 b2 b3 b4 b5 b6 b7 rest IH] using word_ind; intros s.
  - by rewrite absorb_short.
  - apply IH.
Qed.

Lemma absorb_words s bs :
  Nat.divide 8 (length bs) -> absorb s bs = (foldl compress s (words bs), []).
Proof.
  revert s. induction bs as [bs Ha|b0 b1 b2 b3 b4 b5 b6 b7 rest IH] using word_ind; intros s Hd.
  - destruct bs as [|b bs]; [done|]. destruct Hd as [[|q] E]; simpl in *; lia.
  - apply IH. destruct Hd as [q E]. exists (q - 1)%nat. simpl in E. lia.
Qed.

(** ** [write] on meanings *)

Lemma length_copy_at dst k src :
  (k + length src <= length dst)%nat -> length (copy_at dst k src) = length dst.
Proof. intros. unfold copy_at. rewrite !length_app, length_take, length_drop. lia. Qed.

Lemma take_copy_at dst k src :
  (k <= length dst)%nat ->
  take (k + length src) (copy_at dst k src) = take k dst ++ src.
Proof.
  intros. unfold copy_at. rewrite app_assoc. apply take_app_length'.
  rewrite length_app, length_take. lia.
Qed.

Lemma write_words_spec h bs :
  length (tail h) = 8%nat -> in_u64 (total_len h) ->
  hasher_wf (write_words h bs) /\
  meaning (write_words h bs) = (absorb (lanes h) bs, total_len h).
Proof.
  intros Ht Htot. unfold write_words. pose proof (absorb_rest_length (lanes h) bs) as Hr.
  destruct (absorb (lanes h) bs) as [s r]; simpl in *. split.
  - split_and!; simpl; [|done|done]. rewrite length_copy_at; lia.
  - unfold meaning; simpl. do 2 f_equal. by apply (take_copy_at _ 0 r); lia.
Qed.

(** [write] absorbs the pending bytes followed by the new ones. *)
Lemma write_spec h bs :
  hasher_wf h ->
  hasher_wf (write h bs) /\
  meaning (write h bs) =
    (absorb (lanes h) (take (tail_len h) (tail h) ++ bs), wrap 64 (total_len h + zlen bs)).
Proof.
  intros (Ht & Hl & _). unfold write. pose proof (wrap_u64 (total_len h + zlen bs)).
  destruct (Nat.ltb_spec 0 (tail_len h)) as [Hp|Hp].
  2: { replace (tail_len h) with 0%nat by lia.
    by apply (write_words_spec (mkHasher (lanes h) (tail h) 0 (wrap 64 (total_len h + zlen bs)))). }
  set (taken := (_ `min` _)%nat).
  assert (Hlen : length (take taken bs) = taken) by (rewrite length_take; lia).
  destruct (Nat.ltb_spec (tail_len h + taken) 8) as [Hn|Hn].
  - assert (taken = length bs) as E by lia. rewrite (take_ge bs) by lia. split.
    + split_and!; simpl; [rewrite length_copy_at; lia|lia|done].
    + unfold meaning; simpl. rewrite E, take_copy_at, absorb_short; try done; try lia.
      rewrite length_app, length_take. lia.
  - edestruct (write_words_spec (mkHasher
      (compress (lanes h) (of_le (copy_at (tail h) (tail_len h) (take taken bs))))
      (copy_at (tail h) (tail_len h) (take taken bs)) 0 (wrap 64 (total_len h + zlen bs))))
      as [Hw ->]; [simpl; rewrite length_copy_at; lia|done|]. split; [done|]. simpl. f_equal.
    assert (copy_at (tail h) (tail_len h) (take taken bs) =
      take (tail_len h) (tail h) ++ take taken bs) as ->.
    { rewrite <- take_copy_at by lia. rewrite (take_ge (copy_at _ _ _)); [done|].
      rewrite length_copy_at; lia. }
    rewrite <- (take_drop taken bs) at 3. rewrite app_assoc.
    set (w := take (tail_len h) (tail h) ++ take taken bs).
    assert (length w = 8%nat) as Hw8.
    { unfold w. rewrite length_app, Hlen, length_take. lia. }
    destruct (word_split w) as (b0&b1&b2&b3&b4&b5&b6&b7&rest&->); [lia|].
    destruct rest; [done|simpl in Hw8; lia].
Qed.

Lemma new_wf key : hasher_wf (new key).
Proof. split_and!; simpl; [done|lia|bounds]. Qed.

(** ** Indistinguishable hashers *)

#[export] Instance hasher_equiv_per : RelationClasses.PER hasher_equiv.
Proof.
  split.
  - intros a b (? & ? & ?). by split; [|split].
  - intros a b c (Ha & _ & E) (_ & Hc & F). repeat split; try apply Ha; try apply Hc.
    by rewrite E.
Qed.

#[export] Instance write_proper : Proper (hasher_equiv ==> eq ==> hasher_equiv) write.
Proof.
  intros a b (Ha & Hb & E) bs ? <-.
  destruct (write_spec a bs Ha) as [? Ea], (write_spec b bs Hb) as [? Eb].
  split; [done|split; [done|]]. rewrite Ea, Eb. injection E as E1 E2 E3.
  by rewrite E1, E2, E3.
Qed.

#[export] Instance finish_proper : Proper (hasher_equiv ==> eq) finish.
Proof.
  intros a b (_ & _ & E). unfold meaning in E. injection E as E1 E2 E3.
  unfold finish. by rewrite E1, E2, E3.
Qed.

Lemma write_app_equiv h a b :
  hasher_wf h -> hasher_equiv (write h (a ++ b)) (write (write h a) b).
Proof.
  intros Hh. destruct (write_spec h a Hh) as [Ha Ea].
  destruct (write_spec h (a ++ b) Hh) as [? E1], (write_spec _ b Ha) as [? E2].
  split; [done|split; [done|]]. rewrite E1, E2. unfold meaning in Ea.
  injection Ea as Eab Et. rewrite app_assoc, absorb_app, <- Eab, Et. simpl. f_equal.
  unfold wrap. rewrite length_app, Z.add_mod_idemp_l by lia. f_equal. lia.
Qed.

(** ** The last word and the specification *)


Lemma rotate_left_u64 x n : in_u64 x -> 0 <= n <= 64 -> in_u64 (rotate_left x n).
Proof.
  intros Hx Hn. unfold rotate_left. apply lor_u64; [apply wrap_u64|].
  rewrite Z.shiftr_div_pow2 by lia. widths. split.
  - apply Z.div_pos; [lia|]. apply Z.pow_pos_nonneg; lia.
  - transitivity x; [|lia]. apply Z.div_le_upper_bound; [apply Z.pow_pos_nonneg; lia|].
    assert (0 < 2 ^ (64 - n)) by (apply Z.pow_pos_nonneg; lia). nia.
Qed.

#[local] Hint Extern 1 (in_u64 (rotate_left _ _)) =>
  apply rotate_left_u64; [|lia] : fareward.

Lemma round_ok s : lanes_ok s -> lanes_ok (round s).
Proof.
  intros (? & ? & ? & ?). unfold round, lanes_ok, wrapping_add; simpl.
  split_and!; auto 14 with fareward.
Qed.

Lemma lanes_ok_intro a b c d :
  in_u64 a -> in_u64 b -> in_u64 c -> in_u64 d -> lanes_ok (mkLanes a b c d).
Proof. intros. unfold lanes_ok. by split_and!. Qed.

Lemma compress_ok s w : lanes_ok s -> in_u64 w -> lanes_ok (compress s w).
Proof.
  intros (? & ? & ? & ?) Hw. unfold compress.
  assert (lanes_ok (round (round (mkLanes (v0 s) (v1 s) (v2 s) (Z.lxor (v3 s) w)))))
    as Hr by (do 2 apply round_ok; apply lanes_ok_intro; auto with fareward).
  revert Hr. generalize (round (round (mkLanes (v0 s) (v1 s) (v2 s) (Z.lxor (v3 s) w)))).
  intros r (? & ? & ? & ?). apply lanes_ok_intro; auto with fareward.
Qed.

Lemma of_le_word_u64 bs : bytes_ok bs -> (length bs <= 8)%nat -> in_u64 (of_le bs).
Proof.
  intros Hok Hl. pose proof (of_le_bound bs Hok).
  assert (256 ^ zlen bs <= 256 ^ 8) by (apply Z.pow_le_mono_r; lia). widths. lia.
Qed.

Lemma words_ok bs : bytes_ok bs -> Forall in_u64 (words bs).
Proof.
  induction bs as [bs Ha|b0 b1 b2 b3 b4 b5 b6 b7 rest IH] using word_ind; intros Hok.
  - do 8 (destruct bs as [|? bs]; [constructor|]). simpl in Ha. lia.
  - change (words _) with (of_le [b0; b1; b2; b3; b4; b5; b6; b7] :: words rest).
    change (_ :: _) with ([b0; b1; b2; b3; b4; b5; b6; b7] ++ rest) in Hok.
    apply Forall_app in Hok as [Hw Hr]. constructor; [|by apply IH].
    apply of_le_word_u64; [done|simpl; lia].
Qed.

(** The byte loop of [finish] assembles the little-endian word of the pending bytes. *)
Lemma foldl_lor_acc (l : list Z) a : foldl Z.lor a l = Z.lor a (foldl Z.lor 0 l).
Proof.
  revert a. induction l as [|x l IH]; intros a; simpl; [by rewrite Z.lor_0_r|].
  by rewrite (IH (Z.lor a x)), (IH (Z.lor 0 x)), Z.lor_0_l, Z.lor_assoc.
Qed.

Lemma assemble_le bs k :
  bytes_ok bs ->
  foldl Z.lor 0 (imap (fun i b => Z.shiftl b (8 * Z.of_nat (k + i))) bs)
  = Z.shiftl (of_le bs) (8 * Z.of_nat k).
Proof.
  revert k. induction bs as [|b bs IH]; intros k Hok; [by rewrite Z.shiftl_0_l|].
  apply Forall_cons in Hok as [Hb Hr]. simpl. rewrite foldl_lor_acc, Z.lor_0_l.
  rewrite (imap_ext _ (fun i b => Z.shiftl b (8 * Z.of_nat (S k + i))))
    by (intros; simpl; do 3 f_equal; lia).
  rewrite IH by done. rewrite Nat.add_0_r.
  replace (8 * Z.of_nat (S k)) with (8 + 8 * Z.of_nat k) by lia.
  rewrite <- Z.shiftl_shiftl by lia. rewrite <- Z.shiftl_lor. f_equal.
  rewrite lor_shifted; unfold in_u8, U8_MAX in Hb; lia.
Qed.

Lemma of_le_app a b : of_le (a ++ b) = of_le a + 256 ^ zlen a * of_le b.
Proof.
  induction a as [|x a IH]; [simpl; lia|].
  change (x + 256 * of_le (a ++ b) =
    x + 256 * of_le a + 256 ^ Z.of_nat (S (length a)) * of_le b).
  rewrite IH, Nat2Z.inj_succ, Z.pow_succ_r by lia. ring.
Qed.

Lemma of_le_zeros n : of_le (replicate n 0) = 0.
Proof. induction n as [|n IH]; simpl; [done|]. by rewrite IH. Qed.

Lemma last_word_spec pending total :
  bytes_ok pending -> (length pending < 8)%nat ->
  foldl Z.lor (Z.shiftl (Z.land total 0xff) 56)
    (imap (fun index byte => Z.shiftl byte (8 * Z.of_nat index)) pending)
  = of_le (pending ++ replicate (7 - length pending) 0 ++ [total mod 256]).
Proof.
  intros Hok Hl. rewrite foldl_lor_acc, Z.lor_comm.
  pose proof (assemble_le pending 0 Hok) as A. rewrite Z.shiftl_0_r in A.
  simpl in A. rewrite A. clear A.
  change 0xff with (Z.ones 8). rewrite Z.land_ones by lia.
  pose proof (of_le_bound pending Hok) as Hb.
  assert (256 ^ zlen pending <= 256 ^ 7) by (apply Z.pow_le_mono_r; lia).
  rewrite lor_shifted by lia. rewrite !of_le_app, of_le_zeros, length_replicate.
  rewrite Z.add_0_l, Z.mul_assoc, <- Z.pow_add_r by lia.
  replace (zlen pending + Z.of_nat (7 - length pending)) with 7 by lia.
  change (2 ^ 8) with 256. change (2 ^ 56) with (256 ^ 7). simpl of_le. ring.
Qed.

(** ** The tag, the meaning of the pending bytes, and the specification agree *)

Lemma finish_meaning h s pending total :
  meaning h = (s, pending, total) -> bytes_ok pending -> (length pending < 8)%nat ->
  finish h =
    finalize (compress s (of_le (pending ++ replicate (7 - length pending) 0 ++ [total mod 256]))).
Proof.
  intros E Hok Hl. rewrite <- last_word_spec by done.
  injection E as <- <- <-. unfold finish, finalize. cbv zeta. reflexivity.
Qed.

Lemma words_app a b :
  Nat.divide 8 (length a) -> words (a ++ b) = words a ++ words b.
Proof.
  induction a as [a Ha|b0 b1 b2 b3 b4 b5 b6 b7 rest IH] using word_ind; intros Hd.
  - destruct a as [|x a]; [done|]. destruct Hd as [[|q] E]; simpl in *; lia.
  - change (words ((b0 :: b1 :: b2 :: b3 :: b4 :: b5 :: b6 :: b7 :: rest) ++ b)) with
      (of_le [b0; b1; b2; b3; b4; b5; b6; b7] :: words (rest ++ b)).
    rewrite IH; [done|]. destruct Hd as [q E]. exists (q - 1)%nat. simpl in E. lia.
Qed.

(** [absorb] splits the message at its last whole word. *)
Lemma absorb_split bs :
  exists whole, bs = whole ++ (absorb (mkLanes 0 0 0 0) bs).2 /\ Nat.divide 8 (length whole) /\
    forall s, absorb s bs = (foldl compress s (words whole), (absorb (mkLanes 0 0 0 0) bs).2).
Proof.
  set (r := (absorb (mkLanes 0 0 0 0) bs).2).
  assert (exists whole, bs = whole ++ r /\ Nat.divide 8 (length whole)) as (whole & E & Hd).
  { unfold r. generalize (mkLanes 0 0 0 0).
    induction bs as [bs Ha|b0 b1 b2 b3 b4 b5 b6 b7 rest IH] using word_ind; intros s.
    - exists []. rewrite absorb_short by done. split; [done|]. by exists 0%nat.
    - destruct (IH (compress s (of_le [b0; b1; b2; b3; b4; b5; b6; b7]))) as (w & E & [q Hq]).
      exists (b0 :: b1 :: b2 :: b3 :: b4 :: b5 :: b6 :: b7 :: w). split.
      + simpl absorb. simpl app. do 8 f_equal. exact E.
      + exists (S q). simpl. lia. }
  exists whole. split; [done|split; [done|]]. intros s.
  assert (length r < 8)%nat by apply absorb_rest_length.
  clearbody r. rewrite E, absorb_app, (absorb_words s whole) by done.
  change (absorb (foldl compress s (words whole)) r = (foldl compress s (words whole), r)).
  by apply absorb_short.
Qed.

Lemma mod_zlen (bs : bytes) : wrap 64 (0 + zlen bs) mod 256 = zlen bs mod 256.
Proof.
  unfold wrap. rewrite Z.add_0_l. change (2 ^ 64) with (256 * 2 ^ 56).
  rewrite Z.rem_mul_r by lia. rewrite Z.mul_comm, Z.mod_add by lia. by rewrite Z.mod_mod.
Qed.

(** The incremental hasher computes SipHash-2-4: one [write] of any byte string followed
    by [finish] is the one-shot function on the padded message. *)
Theorem siphash_of_spec key message :
  bytes_ok message -> siphash_of key message = siphash24 key message.
Proof.
  intros Hok. unfold siphash_of, siphash24.
  destruct (write_spec (new key) message (new_wf key)) as [_ E].
  destruct (absorb_split message) as (whole & Em & Hd & Ha).
  pose proof (absorb_rest_length (mkLanes 0 0 0 0) message) as Hr.
  change (take (tail_len (new key)) (tail (new key)) ++ message) with message in E.
  rewrite Ha in E. set (r := (absorb (mkLanes 0 0 0 0) message).2) in *.
  assert (bytes_ok r) by (rewrite Em in Hok; by apply Forall_app in Hok as [_ ?]).
  rewrite (finish_meaning _ _ r _ E) by done. change (total_len (new key)) with 0.
  rewrite mod_zlen. unfold pad. rewrite Em at 2. rewrite <- app_assoc, words_app by done.
  rewrite foldl_app. f_equal.
  replace (7 - length message mod 8)%nat with (7 - length r)%nat.
  2: { f_equal. rewrite Em, length_app. destruct Hd as [q ->].
       rewrite Nat.add_comm, Nat.Div0.mod_add, Nat.mod_small by done. done. }
  set (w := r ++ replicate (7 - length r) 0 ++ [zlen message mod 256]).
  assert (length w = 8%nat) as Hw.
  { unfold w. rewrite !length_app, length_replicate. simpl. lia. }
  destruct (word_split w) as (b0&b1&b2&b3&b4&b5&b6&b7&rest&->); [lia|].
  destruct rest; [done|simpl in Hw; lia].
Qed.

Lemma write_nil h : hasher_wf h -> hasher_equiv (write h []) h.
Proof.
  intros Hh. destruct (write_spec h [] Hh) as [? E]. split; [done|split; [done|]].
  destruct Hh as (Ht & Hl & Htot). rewrite E, app_nil_r, absorb_short.
  - unfold meaning, wrap. rewrite Z.add_0_r, Z.mod_small by (widths; lia). done.
  - rewrite length_take. lia.
Qed.

Lemma foldl_write_equiv pieces h :
  hasher_wf h -> hasher_equiv (foldl write h pieces) (write h (concat pieces)).
Proof.
  revert h. induction pieces as [|p ps IH]; intros h Hh.
  - symmetry. by apply write_nil.
  - destruct (write_spec h p Hh) as [Hp _]. simpl.
    rewrite (IH _ Hp). symmetry. by apply write_app_equiv.
Qed.

(** Splitting a message over any number of [write] calls never changes the tag: every
    call site that feeds a domain string, a nonce, a sequence and a payload one after the
    other gets the tag of their concatenation. *)
Theorem finish_pieces key pieces :
  finish (foldl write (new key) pieces) = siphash_of key (concat pieces).
Proof.
  unfold siphash_of. rewrite (foldl_write_equiv pieces (new key) (new_wf key)). reflexivity.
Qed.

(** The implementation reproduces the 64 reference vectors of the SipHash paper that
    the unit test [matches_the_reference_vectors] lists. *)
Theorem matches_the_reference_vectors :
  map (fun n => siphash_of reference_key (map Z.of_nat (seq 0 n))) (seq 0 64)
  = REFERENCE_VECTORS.
Proof. vm_compute. reflexivity. Qed.

Lemma finalize_u64 s : lanes_ok s -> in_u64 (finalize s).
Proof.
  intros (? & ? & ? & ?). unfold finalize.
  assert (lanes_ok (round (round (round (round
    (mkLanes (v0 s) (v1 s) (Z.lxor (v2 s) 0xff) (v3 s))))))) as Hr.
  { assert (in_u64 0xff) by bounds. do 4 apply round_ok.
    apply lanes_ok_intro; auto with fareward. }
  revert Hr. generalize (round (round (round (round
    (mkLanes (v0 s) (v1 s) (Z.lxor (v2 s) 0xff) (v3 s)))))).
  intros r (? & ? & ? & ?). cbv zeta. auto with fareward.
Qed.

Lemma pad_ok message : bytes_ok message -> bytes_ok (pad message).
Proof.
  intros. unfold pad. apply Forall_app. split; [done|]. apply Forall_app. split.
  - apply Forall_replicate. bounds.
  - apply Forall_singleton. pose proof (Z.mod_pos_bound (zlen message) 256). bounds.
Qed.

Lemma siphash24_u64 key message :
  key_ok key -> bytes_ok message -> in_u64 (siphash24 key message).
Proof.
  intros [? ?] Hm. apply finalize_u64.
  pose proof (words_ok _ (pad_ok message Hm)) as Hw.
  assert (lanes_ok (lanes (new key))) as Hs.
  { unfold new. simpl lanes. apply lanes_ok_intro; apply lxor_u64; try done; bounds. }
  revert Hs. generalize (lanes (new key)) as s.
  induction Hw as [|w ws Hw _ IH]; intros s Hs; [done|]. simpl. by apply IH, compress_ok.
Qed.

Lemma siphash_of_u64 key message :
  key_ok key -> bytes_ok message -> in_u64 (siphash_of key message).
Proof. intros. rewrite siphash_of_spec by done. by apply siphash24_u64. Qed.

Lemma derive_key_ok sha256 secret :
  bytes_ok (sha256 secret) -> key_ok (derive_key sha256 secret).
Proof.
  intros Hd. split; simpl; apply of_le_word_u64.
  - by apply Forall_take.
  - rewrite length_take; lia.
  - by apply Forall_take, Forall_drop.
  - rewrite length_take; lia.
Qed.

#[export] Hint Resolve siphash_of_u64 derive_key_ok : fareward.

Theorem siphash_of_spec_witness :
  siphash_of reference_key [0; 1; 2] = siphash24 reference_key [0; 1; 2].
Proof. apply siphash_of_spec. repeat constructor; bounds. Defined.
