(* ===== verification/FrameAuth.v ===== *)
(** * FrameAuth: the frame tag of src/src/service/auth.rs

    [compute_hash] and [verify_hash] over the incremental hasher of [SipHash]. SHA-256 (the
    [sha2] crate) and the constant-time comparison (the [subtle] crate) are parameters; the
    only thing the theorems use of them is that a digest is made of bytes and that the
    comparison decides equality. [new_nonce] reads the operating system's random source and
    is not modelled: a nonce is an arbitrary 8-byte string. *)

From S2P Require Import Prelude SipHash.

(** [DOMAIN]: the bytes of "fareward:v12". *)
Definition DOMAIN : bytes := [102; 97; 114; 101; 119; 97; 114; 100; 58; 118; 49; 50].

(** The four pieces [compute_hash] feeds to the hasher, in its order. *)
Definition tagged_pieces (nonce : bytes) (sequence : Z) (payload : bytes) : list bytes :=
  [DOMAIN; nonce; be_bytes 8 sequence; payload].

Section FrameAuth.
Context (sha256 : bytes -> bytes) (ct_eq : bytes -> bytes -> bool).

Definition compute_hash (secret nonce : bytes) (sequence : Z) (payload : bytes) : bytes :=
  let hasher := new (derive_key sha256 secret) in
  let hasher := write hasher DOMAIN in
  let hasher := write hasher nonce in
  let hasher := write hasher (be_bytes 8 sequence) in
  let hasher := write hasher payload in
  be_bytes 8 (finish hasher).

Definition verify_hash (secret nonce : bytes) (sequence : Z) (payload received : bytes) : bool :=
  let expected := compute_hash secret nonce sequence payload in
  ct_eq expected received.

Lemma compute_hash_pieces secret nonce sequence payload :
  compute_hash secret nonce sequence payload =
    be_bytes 8 (siphash_of (derive_key sha256 secret)
                  (concat (tagged_pieces nonce sequence payload))).
Proof. unfold siphash_of. rewrite <- (foldl_write_equiv _ (new _) (new_wf _)). reflexivity. Qed.

Lemma length_compute_hash secret nonce sequence payload :
  length (compute_hash secret nonce sequence payload) = 8%nat.
Proof. apply length_be_bytes. Qed.
End FrameAuth.

Lemma tagged_concat nonce sequence payload :
  concat (tagged_pieces nonce sequence payload) =
    DOMAIN ++ nonce ++ be_bytes 8 sequence ++ payload.
Proof. unfold tagged_pieces. cbn [concat]. by rewrite app_nil_r. Qed.

Lemma tagged_pieces_ok nonce sequence payload :
  bytes_ok nonce -> bytes_ok payload ->
  bytes_ok (concat (tagged_pieces nonce sequence payload)).
Proof.
  intros Hn Hp. rewrite tagged_concat, !bytes_ok_app. split_and!; auto with fareward.
  unfold DOMAIN. repeat constructor; bounds.
Qed.

(** A frame is accepted exactly when its eight tag bytes are the big-endian SipHash-2-4
    of the domain, the connection's nonce, the frame sequence and the opcode-to-payload
    bytes, under the key derived from the shared secret. *)
Theorem verify_hash_spec sha256 ct_eq secret nonce sequence payload received :
  (forall s, bytes_ok (sha256 s)) ->
  (forall a b, ct_eq a b = true <-> a = b) ->
  bytes_ok nonce -> bytes_ok payload -> bytes_ok received ->
  verify_hash sha256 ct_eq secret nonce sequence payload received = true <->
  length received = 8%nat /\
  of_be received =
    siphash24 (derive_key sha256 secret) (DOMAIN ++ nonce ++ be_bytes 8 sequence ++ payload).
Proof.
  intros Hsha Hct Hn Hp Hr. unfold verify_hash. rewrite Hct, compute_hash_pieces.
  pose proof (tagged_pieces_ok nonce sequence payload Hn Hp) as Hok.
  rewrite tagged_concat in *.
  rewrite siphash_of_spec by done.
  pose proof (siphash24_u64 (derive_key sha256 secret) _ (derive_key_ok _ secret (Hsha _)) Hok)
    as Hu.
  revert Hu. generalize (siphash24 (derive_key sha256 secret)
    (DOMAIN ++ nonce ++ be_bytes 8 sequence ++ payload)). intros t Hu. split.
  - intros <-. split; [apply length_be_bytes|]. apply of_be_be_bytes_small. widths. lia.
  - intros [El <-]. rewrite <- El. by apply be_bytes_of_be.
Qed.

(** What is tagged determines the frame: two frames with the same tagged bytes carry the
    same nonce, the same sequence and the same opcode, length and payload, so a tag cannot be
    moved to another connection, to another position in the stream or to another operation
    without the tagged string changing. *)
Theorem tagged_bytes_inj n1 s1 p1 n2 s2 p2 :
  length n1 = 8%nat -> length n2 = 8%nat -> in_u64 s1 -> in_u64 s2 ->
  concat (tagged_pieces n1 s1 p1) = concat (tagged_pieces n2 s2 p2) ->
  n1 = n2 /\ s1 = s2 /\ p1 = p2.
Proof.
  intros L1 L2 H1 H2 E. rewrite !tagged_concat in E. apply (inj (app DOMAIN)) in E.
  apply app_inj_1 in E as [-> E]; [|congruence].
  apply app_inj_1 in E as [E ->]; [|by rewrite !length_be_bytes].
  apply be_bytes_inj in E; [done|widths; lia..].
Qed.

(** A stand-in digest and comparison for the witnesses: the hash of every secret is the
    byte string 0..31, and the comparison is equality of lists. *)
Definition sample_digest (secret : bytes) : bytes := map Z.of_nat (seq 0 32).
Definition list_eq (a b : bytes) : bool := bool_decide (a = b).

Lemma sample_digest_ok s : bytes_ok (sample_digest s).
Proof.
  unfold sample_digest, bytes_ok. apply Forall_map, Forall_seq. intros. simpl. bounds.
Qed.

Lemma list_eq_spec a b : list_eq a b = true <-> a = b.
Proof. apply bool_decide_eq_true. Qed.

Theorem verify_hash_spec_witness :
  let nonce := [1; 2; 3; 4; 5; 6; 7; 8] in
  let frame := [1; 0; 0] in
  let tag := compute_hash sample_digest [7; 7] nonce 0 frame in
  verify_hash sample_digest list_eq [7; 7] nonce 0 frame tag = true <->
  length tag = 8%nat /\
  of_be tag = siphash24 (derive_key sample_digest [7; 7]) (DOMAIN ++ nonce ++ be_bytes 8 0 ++ frame).
Proof.
  apply verify_hash_spec.
  - apply sample_digest_ok.
  - apply list_eq_spec.
  - repeat constructor; bounds.
  - repeat constructor; bounds.
  - apply be_bytes_ok.
Defined.

Theorem tagged_bytes_inj_witness :
  [1; 2; 3; 4; 5; 6; 7; 8] = [1; 2; 3; 4; 5; 6; 7; 8] /\ 5 = 5 /\ [3; 0; 0] = [3; 0; 0].
Proof. apply tagged_bytes_inj; try done; bounds. Defined.
