(* ===== verification/TimeFrame.v ===== *)
(** * TimeFrame: the period keys of src/src/limiter/time_frame.rs

    Every function of the file: the five-minute and daily frames, the local business day,
    the civil-calendar arithmetic that finds the first day of a month, and the range of
    frames that covers an hour. [/] on [i64] is [Z.quot]; [div_euclid] by a positive
    constant is [Z.div].

    The calendar theorem compares the source's closed formula with a calendar that is
    stepped one day at a time from 1 January 1970; the finite part (every day the [i16]
    result can name) is checked by evaluation. *)

From S2P Require Import Prelude.

Definition FIVE_MINUTE_PREFIX : Z := 100000000.
Definition DAILY_PREFIX : Z := 200000000.
Definition FIVE_MINUTE_SECONDS : Z := 300.
Definition DAY_SECONDS : Z := 86400.
Definition DAY_ZONE_OFFSET_SECONDS : Z := -5 * 60 * 60.

Inductive TimeFrameError :=
| NegativeUnixTime
| OutOfRange (value : Z).

#[export] Instance TimeFrameError_eq_dec : EqDecision TimeFrameError.
Proof. solve_decision. Defined.

Definition encode (prefix unix_seconds divisor : Z) : result TimeFrameError Z :=
  if unix_seconds <? 0 then Err NegativeUnixTime
  else
    let encoded := prefix + Z.quot unix_seconds divisor in
    if (prefix + 100000000 <=? encoded) || (I32_MAX <? encoded)
    then Err (OutOfRange encoded)
    else Ok encoded.

Definition five_minute (unix_seconds : Z) : result TimeFrameError Z :=
  encode FIVE_MINUTE_PREFIX unix_seconds FIVE_MINUTE_SECONDS.

Definition local_day_seconds (unix_seconds : Z) : result TimeFrameError Z :=
  ok_or NegativeUnixTime
    (shifted ← checked_add_i64 unix_seconds DAY_ZONE_OFFSET_SECONDS;
     if 0 <=? shifted then Some shifted else None).

Definition daily (unix_seconds : Z) : result TimeFrameError Z :=
  seconds ← local_day_seconds unix_seconds;
  encode DAILY_PREFIX seconds DAY_SECONDS.

Definition local_unix_day (unix_seconds : Z) : result TimeFrameError Z :=
  seconds ← local_day_seconds unix_seconds;
  Ok (Z.quot seconds DAY_SECONDS).

(** The civil-date conversion inside [month_start_day]. *)
Definition day_of_month (unix_day : Z) : Z :=
  let shifted_day := unix_day + 719468 in
  let era := shifted_day / 146097 in
  let day_of_era := shifted_day - era * 146097 in
  let year_of_era :=
    Z.quot (day_of_era - Z.quot day_of_era 1460 + Z.quot day_of_era 36524
            - Z.quot day_of_era 146096) 365 in
  let day_of_year :=
    day_of_era - (365 * year_of_era + Z.quot year_of_era 4 - Z.quot year_of_era 100) in
  let month_part := Z.quot (5 * day_of_year + 2) 153 in
  day_of_year - Z.quot (153 * month_part + 2) 5 + 1.

Definition month_start_day (unix_seconds : Z) : result TimeFrameError Z :=
  if unix_seconds <? 0 then Err NegativeUnixTime
  else
    unix_day ← local_unix_day unix_seconds;
    ok_or (OutOfRange unix_day) (try_i16 (unix_day - day_of_month unix_day + 1)).

Definition hour_five_minute_range (unix_seconds : Z) : result TimeFrameError (Z * Z) :=
  if unix_seconds <? 0 then Err NegativeUnixTime
  else
    let hour_start := Z.quot unix_seconds 3600 * 3600 in
    first ← five_minute hour_start;
    last ← five_minute (hour_start + 3599);
    Ok (first, last).

Definition is_five_minute (value : Z) : bool :=
  (100000000 <=? value) && (value <? 200000000).
Definition is_daily (value : Z) : bool :=
  (200000000 <=? value) && (value <? 300000000).

(** ** The calendar, one day at a time *)

Record Civil := mkCivil { year : Z; month : Z; day : Z }.

Definition leap (y : Z) : bool :=
  ((y mod 4 =? 0) && negb (y mod 100 =? 0)) || (y mod 400 =? 0).

Definition days_in_month (y m : Z) : Z :=
  if m =? 2 then (if leap y then 29 else 28)
  else if (m =? 4) || (m =? 6) || (m =? 9) || (m =? 11) then 30 else 31.

Definition next_day (c : Civil) : Civil :=
  if day c <? days_in_month (year c) (month c) then mkCivil (year c) (month c) (day c + 1)
  else if month c <? 12 then mkCivil (year c) (month c + 1) 1
  else mkCivil (year c + 1) 1 1.

(** The date [n] days after 1 January 1970. *)
Definition civil_of_day (n : nat) : Civil := Nat.iter n next_day (mkCivil 1970 1 1).

(** The formula agrees with the calendar on [fuel] days from day [n], date [c]. *)
Fixpoint calendar_agrees (fuel : nat) (n : Z) (c : Civil) : bool :=
  match fuel with
  | O => true
  | S k => (day_of_month n =? day c) && calendar_agrees k (n + 1) (next_day c)
  end.

(** ** Frames *)

Lemma local_day_seconds_Ok t s :
  in_i64 t -> local_day_seconds t = Ok s <-> s = t - 18000 /\ 18000 <= t.
Proof.
  intros Ht. unfold local_day_seconds. rewrite ok_or_Ok, bind_Some.
  unfold checked_add_i64, DAY_ZONE_OFFSET_SECONDS. split.
  - intros (x & [-> ?]%fits_Some & Hx).
    destruct (Z.leb_spec 0 (t + -5 * 60 * 60)) in Hx; simplify_eq. lia.
  - intros [-> ?]. exists (t - 18000). rewrite fits_Some. split; [widths; lia|].
    rewrite (proj2 (Z.leb_le 0 (t - 18000))) by lia. done.
Qed.

Lemma local_unix_day_Ok t n :
  in_i64 t -> local_unix_day t = Ok n <-> n = (t - 18000) / 86400 /\ 18000 <= t.
Proof.
  intros Ht. unfold local_unix_day. rewrite result_bind_ok. split.
  - intros (s & E & [= <-]). apply local_day_seconds_Ok in E as [-> ?]; [|done].
    unfold DAY_SECONDS. rewrite Z.quot_div_nonneg by lia. done.
  - intros [-> ?]. exists (t - 18000). rewrite local_day_seconds_Ok by done.
    unfold DAY_SECONDS. rewrite Z.quot_div_nonneg by lia. done.
Qed.

Lemma encode_Ok prefix t d f :
  0 < d -> 0 <= prefix -> prefix + 100000000 <= I32_MAX ->
  encode prefix t d = Ok f <-> 0 <= t /\ f = prefix + t / d /\ t / d < 100000000.
Proof.
  intros Hd Hp HI. unfold encode. destruct (Z.ltb_spec t 0); [split; [done|lia]|].
  rewrite Z.quot_div_nonneg by lia.
  destruct (Z.leb_spec (prefix + 100000000) (prefix + t / d)); simpl; [split; [done|lia]|].
  destruct (Z.ltb_spec I32_MAX (prefix + t / d)); [split; [done|lia]|].
  split; [intros [= <-]; lia|by intros (? & -> & ?)].
Qed.

Lemma five_minute_Ok t f :
  five_minute t = Ok f <-> 0 <= t /\ f = 100000000 + t / 300 /\ t / 300 < 100000000.
Proof. apply encode_Ok; bounds. Qed.

Lemma daily_Ok t f :
  in_i64 t ->
  daily t = Ok f <->
    18000 <= t /\ f = 200000000 + (t - 18000) / 86400 /\ (t - 18000) / 86400 < 100000000.
Proof.
  intros Ht. unfold daily, DAILY_PREFIX, DAY_SECONDS. rewrite result_bind_ok. split.
  - intros (s & E & (? & -> & ?)%encode_Ok); [|bounds..].
    apply local_day_seconds_Ok in E as [-> ?]; done.
  - intros (? & -> & ?). exists (t - 18000). rewrite local_day_seconds_Ok by done.
    rewrite encode_Ok by bounds. lia.
Qed.

(** The two key spaces are disjoint and each frame names its period: a five-minute frame
    always satisfies [is_five_minute], a daily one [is_daily], no key is both, and two
    instants share a daily frame exactly when they fall on the same local business day. *)
Theorem frames_partition t t' f g g' :
  in_i64 t -> in_i64 t' -> five_minute t = Ok f -> daily t = Ok g -> daily t' = Ok g' ->
  is_five_minute f = true /\ is_daily g = true /\ is_daily f = false /\
  is_five_minute g = false /\ (g = g' <-> local_unix_day t = local_unix_day t').
Proof.
  intros Ht Ht' (? & -> & ?)%five_minute_Ok (? & -> & ?)%daily_Ok (? & -> & ?)%daily_Ok; [|done..].
  assert (0 <= t / 300) by (apply Z.div_pos; lia).
  assert (0 <= (t - 18000) / 86400) by (apply Z.div_pos; lia).
  assert (local_unix_day t = Ok ((t - 18000) / 86400)) as -> by (by apply local_unix_day_Ok).
  assert (local_unix_day t' = Ok ((t' - 18000) / 86400)) as -> by (by apply local_unix_day_Ok).
  unfold is_five_minute, is_daily. split_and!; try lia.
  split; [intros; f_equal; lia|intros [= ?]; lia].
Qed.

(** The twelve five-minute frames of [hour_five_minute_range] cover exactly the UTC hour:
    an instant's frame lies in the range when and only when the instant lies in that hour. *)
Theorem hour_range_exact t a b t' f :
  hour_five_minute_range t = Ok (a, b) -> five_minute t' = Ok f ->
  b = a + 11 /\ (a <= f <= b <-> t' / 3600 = t / 3600).
Proof.
  unfold hour_five_minute_range. destruct (Z.ltb_spec t 0); [done|].
  rewrite Z.quot_div_nonneg by lia. rewrite result_bind_ok.
  intros (a' & (? & Ea & ?)%five_minute_Ok & E) (? & -> & ?)%five_minute_Ok.
  apply result_bind_ok in E as (b' & (? & Eb & ?)%five_minute_Ok & [= -> ->]).
  subst a b. clear -H H0. Z.div_mod_to_equations. lia.
Qed.

(** ** The month *)

Lemma civil_day_pos n : 1 <= day (civil_of_day n).
Proof.
  unfold civil_of_day. induction n as [|n IH]; simpl; [done|].
  unfold next_day at 1. repeat case_match; simpl; lia.
Qed.

(** Going back [day - 1] days from any date reaches the first of its month. *)
Lemma civil_month_start n :
  let c := civil_of_day n in
  day c - 1 <= Z.of_nat n /\
  civil_of_day (n - Z.to_nat (day c - 1)) = mkCivil (year c) (month c) 1.
Proof.
  induction n as [|n IH]; [done|]. simpl in IH. destruct IH as [Hle IH].
  pose proof (civil_day_pos n) as Hpos.
  change (civil_of_day (S n)) with (next_day (civil_of_day n)). unfold next_day.
  repeat case_match; simpl.
  - split; [lia|]. rewrite <- IH. f_equal. lia.
  - split; [lia|]. change (civil_of_day (S n)) with (next_day (civil_of_day n)).
    unfold next_day. by rewrite H, H0.
  - split; [lia|]. change (civil_of_day (S n)) with (next_day (civil_of_day n)).
    unfold next_day. by rewrite H, H0.
Qed.

Lemma calendar_agrees_sound fuel n c k :
  calendar_agrees fuel n c = true -> (k < fuel)%nat ->
  day_of_month (n + Z.of_nat k) = day (Nat.iter k next_day c).
Proof.
  revert n c k. induction fuel as [|fuel IH]; intros n c k E Hk; [lia|].
  simpl in E. apply andb_prop in E as [E1 E2]. destruct k as [|k].
  - change (day_of_month (n + 0) = day c). rewrite Z.add_0_r. lia.
  - rewrite Nat.iter_succ_r. rewrite <- (IH (n + 1)); [|done|lia]. f_equal. lia.
Qed.

(** Every day the [i16] result can name, and the days around the ceiling. *)
Lemma calendar_checked : calendar_agrees (Z.to_nat 32800) 0 (mkCivil 1970 1 1) = true.
Proof. vm_compute. reflexivity. Qed.

(** The two halves of the conversion stay inside a year and inside a month. *)
Lemma day_of_year_range doe :
  0 <= doe <= 146096 ->
  let yoe := (doe - doe / 1460 + doe / 36524 - doe / 146096) / 365 in
  0 <= yoe /\ 0 <= doe - (365 * yoe + yoe / 4 - yoe / 100) <= 365.
Proof. intros. subst yoe. Z.div_mod_to_equations. lia. Qed.

Lemma month_day_range doy :
  0 <= doy <= 365 ->
  let mp := (5 * doy + 2) / 153 in 0 <= mp /\ 1 <= doy - (153 * mp + 2) / 5 + 1 <= 31.
Proof. intros. subst mp. Z.div_mod_to_equations. lia. Qed.

Lemma day_of_month_range n : 0 <= n -> 1 <= day_of_month n <= 31.
Proof.
  intros Hn. unfold day_of_month.
  pose proof (Z.mod_pos_bound (n + 719468) 146097) as Hm.
  rewrite (Z.mod_eq (n + 719468) 146097) in Hm by lia.
  replace (n + 719468 - (n + 719468) / 146097 * 146097)
    with (n + 719468 - 146097 * ((n + 719468) / 146097)) by lia.
  set (doe := n + 719468 - 146097 * ((n + 719468) / 146097)) in *. clearbody doe.
  destruct (day_of_year_range doe) as [Hy Hd]; [lia|].
  rewrite !(Z.quot_div_nonneg doe) by lia.
  rewrite (Z.quot_div_nonneg _ 365) by (Z.div_mod_to_equations; lia).
  set (yoe := (doe - doe / 1460 + doe / 36524 - doe / 146096) / 365) in *. clearbody yoe.
  rewrite !(Z.quot_div_nonneg yoe) by lia.
  set (doy := doe - (365 * yoe + yoe / 4 - yoe / 100)) in *. clearbody doy.
  destruct (month_day_range doy Hd) as [Hmp Hr].
  rewrite (Z.quot_div_nonneg _ 153) by lia.
  by rewrite (Z.quot_div_nonneg _ 5) by lia.
Qed.

Lemma day_of_month_calendar n :
  0 <= n < 32800 -> day_of_month n = day (civil_of_day (Z.to_nat n)).
Proof.
  intros Hn. pose proof (calendar_agrees_sound _ 0 _ (Z.to_nat n) calendar_checked) as E.
  rewrite Z2Nat.id, Z.add_0_l in E by lia. apply E. lia.
Qed.

(** [month_start_day] returns the first day of the current local month: the day it names
    is the first of the month that the stepped calendar shows for the current local day,
    the current day is not before it, and no other month start lies between them. *)
Theorem month_start_day_calendar t d :
  in_i64 t -> month_start_day t = Ok d ->
  exists n, local_unix_day t = Ok (Z.of_nat n) /\
    let today := civil_of_day n in
    0 <= d <= Z.of_nat n /\
    civil_of_day (Z.to_nat d) = mkCivil (year today) (month today) 1 /\
    day today = Z.of_nat n - d + 1.
Proof.
  intros Ht E. unfold month_start_day in E. destruct (Z.ltb_spec t 0); [done|].
  apply result_bind_ok in E as (n & En & [Ed Hd]%ok_or_Ok%fits_Some).
  pose proof En as [Hn ?]%local_unix_day_Ok; [|done].
  assert (0 <= n) as Hn0 by (subst n; apply Z.div_pos; lia).
  pose proof (day_of_month_range n Hn0). clear Hn.
  assert (n < 32800) by (revert Hd; widths; lia).
  exists (Z.to_nat n). rewrite Z2Nat.id by done. split; [done|]. simpl.
  destruct (civil_month_start (Z.to_nat n)) as [Hle Hc].
  rewrite <- day_of_month_calendar in Hle, Hc |- * by lia.
  split_and!; try lia. rewrite <- Hc. f_equal. lia.
Qed.

(** [month_start_day] fails exactly before the local epoch and from October 2059, when
    the first of the month no longer fits the [i16] column. *)
Theorem month_start_day_total t :
  in_i64 t ->
  (exists d, month_start_day t = Ok d) <-> 18000 <= t < 18000 + 32780 * 86400.
Proof.
  intros Ht. split.
  - intros [d E]. unfold month_start_day in E. destruct (Z.ltb_spec t 0); [done|].
    apply result_bind_ok in E as (n & [Hn ?]%local_unix_day_Ok & [Ed Hd]%ok_or_Ok%fits_Some);
      [|done].
    assert (0 <= n) as Hn0 by (subst n; apply Z.div_pos; lia).
    pose proof (day_of_month_range n Hn0).
    enough (n < 32780) by (subst n; Z.div_mod_to_equations; lia).
    destruct (Z.lt_ge_cases n 32780); [done|].
    assert (n < 32800) by (revert Hd; widths; lia).
    assert (forallb (fun k => day_of_month (32780 + Z.of_nat k) <? Z.of_nat k + 14) (seq 0 20) = true)
      as F by (vm_compute; reflexivity).
    rewrite forallb_forall in F. specialize (F (Z.to_nat (n - 32780))).
    rewrite Z2Nat.id, in_seq in F by lia.
    replace (32780 + (n - 32780)) with n in F by lia. revert Hd. widths. lia.
  - intros [? ?]. assert (0 <= (t - 18000) / 86400 < 32780) as Hn.
    { Z.div_mod_to_equations. lia. }
    unfold month_start_day. rewrite (proj2 (Z.ltb_ge t 0)) by lia.
    rewrite (proj2 (local_unix_day_Ok t ((t - 18000) / 86400) Ht)) by done.
    revert Hn. generalize ((t - 18000) / 86400). intros n Hn. unfold mbind, result_bind.
    assert (forallb (fun k => Z.of_nat k - 16 <=? day_of_month (32750 + Z.of_nat k)) (seq 0 30) = true)
      as F by (vm_compute; reflexivity).
    rewrite forallb_forall in F. specialize (F (Z.to_nat (n - 32750))).
    exists (n - day_of_month n + 1). rewrite ok_or_Ok. apply fits_Some. split; [done|].
    pose proof (day_of_month_range n). destruct (Z.lt_ge_cases n 32750); [widths; lia|].
    rewrite Z2Nat.id, in_seq in F by lia.
    replace (32750 + (n - 32750)) with n in F by lia. widths. lia.
Qed.

(** ** Witnesses *)

Theorem frames_partition_witness :
  is_five_minute 105890000 = true /\ is_daily 200020451 = true /\ is_daily 105890000 = false /\
  is_five_minute 200020451 = false /\
  (200020451 = 200020451 <-> local_unix_day 1767000000 = local_unix_day 1767000000).
Proof.
  apply (frames_partition 1767000000 1767000000);
    first [reflexivity | bounds].
Defined.

Theorem hour_range_exact_witness :
  105890007 = 105889996 + 11 /\
  (105889996 <= 105890000 <= 105890007 <-> 1767000000 / 3600 = 1766998801 / 3600).
Proof. apply (hour_range_exact 1766998801 _ _ 1767000000); reflexivity. Defined.

Theorem month_start_day_calendar_witness :
  exists n, local_unix_day 1767000000 = Ok (Z.of_nat n) /\
    let today := civil_of_day n in
    0 <= 20423 <= Z.of_nat n /\
    civil_of_day (Z.to_nat 20423) = mkCivil (year today) (month today) 1 /\
    day today = Z.of_nat n - 20423 + 1.
Proof. apply month_start_day_calendar; [bounds|reflexivity]. Defined.

Theorem month_start_day_total_witness :
  (exists d, month_start_day 17999 = Ok d) <-> 18000 <= 17999 < 18000 + 32780 * 86400.
Proof. apply month_start_day_total. bounds. Defined.
