(* ===== verification/CreditsBlob.v ===== *)
(** * CreditsBlob: the persisted credit totals of src/src/limiter/credits_blob.rs

    [Credits], the ordered map [RoutedCredits] (a [BTreeMap]: an association list in
    ascending route order), and the codec: [encode], [decode], [sum], [width_for],
    [write_uint], [read_uint].

    The format promises to be canonical. The two round-trip theorems are that promise: every
    encodable map decodes back to itself less its all-zero routes, and every blob [decode]
    accepts is the unique encoding of the map it returns. [decode]'s loop runs on the
    remaining bytes with fuel; [decode_loop_fuel] shows the length of the input is enough. *)

From S2P Require Import Prelude.

Definition MAX_ROUTE_ID : Z := 16383.

Record Credits := mkCredits { cpu : Z; inference : Z }.

#[export] Instance Credits_eq_dec : EqDecision Credits.
Proof. solve_decision. Defined.

(** [Credits::default()]. *)
Definition credits_default : Credits := mkCredits 0 0.

Definition checked_add (self increment : Credits) : option Credits :=
  c ← checked_add_u64 (cpu self) (cpu increment);
  i ← checked_add_u64 (inference self) (inference increment);
  Some (mkCredits c i).

(** [BTreeMap<u16, Credits>]: entries in ascending key order. *)
Abbreviation RoutedCredits := (list (Z * Credits)).

Fixpoint bt_get (route : Z) (m : RoutedCredits) : option Credits :=
  match m with
  | [] => None
  | (k, v) :: r => if k =? route then Some v else bt_get route r
  end.

Fixpoint bt_insert (route : Z) (c : Credits) (m : RoutedCredits) : RoutedCredits :=
  match m with
  | [] => [(route, c)]
  | (k, v) :: r =>
      if route <? k then (route, c) :: (k, v) :: r
      else if route =? k then (route, c) :: r
      else (k, v) :: bt_insert route c r
  end.

Inductive CreditsBlobError :=
| InvalidRouteID (route_id : Z)
| CreditsOverflow
| Truncated
| NonCanonicalOrder
| NonCanonicalWidth
| NonCanonicalZero.

#[export] Instance CreditsBlobError_eq_dec : EqDecision CreditsBlobError.
Proof. solve_decision. Defined.

Definition width_for (value : Z) : result CreditsBlobError nat :=
  if value <=? U8_MAX then Ok 1%nat
  else if value <=? U16_MAX then Ok 2%nat
  else if value <=? 0xFFFFFF then Ok 3%nat
  else if value <=? U32_MAX then Ok 4%nat
  else Err CreditsOverflow.

Definition write_uint (value : Z) (width : nat) : bytes :=
  drop (4 - width) (be_bytes 4 (wrap 32 value)).

Definition read_uint (bs : bytes) : Z :=
  foldl (fun value byte => Z.lor (wrap 64 (Z.shiftl value 8)) byte) 0 bs.

Definition is_zero (c : Credits) : bool := (cpu c =? 0) && (inference c =? 0).

(** One iteration of [encode]'s loop: the bytes it appends. *)
Definition encode_entry (route_id : Z) (credits : Credits) : result CreditsBlobError bytes :=
  if MAX_ROUTE_ID <? route_id then Err (InvalidRouteID route_id)
  else if is_zero credits then Ok []
  else
    width ← width_for (Z.max (cpu credits) (inference credits));
    let width_code := Z.of_nat width - 1 in
    Ok (be_bytes 2 (Z.lor (wrap 16 (Z.shiftl route_id 2)) width_code)
        ++ write_uint (cpu credits) width ++ write_uint (inference credits) width).

Fixpoint encode (routes : RoutedCredits) : result CreditsBlobError bytes :=
  match routes with
  | [] => Ok []
  | (route_id, credits) :: rest =>
      entry ← encode_entry route_id credits;
      encoded ← encode rest;
      Ok (entry ++ encoded)
  end.

Fixpoint decode_loop (fuel : nat) (encoded : bytes) (routes : RoutedCredits)
    (previous_route : option Z) : result CreditsBlobError RoutedCredits :=
  match fuel with
  | O => Err Truncated
  | S fuel =>
      match encoded with
      | [] => Ok routes
      | [_] => Err Truncated
      | h0 :: h1 :: rest =>
          let header := of_be [h0; h1] in
          let route_id := Z.shiftr header 2 in
          let width := Z.to_nat (Z.land header 3 + 1) in
          if match previous_route with Some previous => route_id <=? previous | None => false end
          then Err NonCanonicalOrder
          else if (length rest <? width * 2)%nat then Err Truncated
          else
            let c := read_uint (take width rest) in
            let i := read_uint (take width (drop width rest)) in
            if (c =? 0) && (i =? 0) then Err NonCanonicalZero
            else
              w ← width_for (Z.max c i);
              if negb (w =? width)%nat then Err NonCanonicalWidth
              else decode_loop fuel (drop (width * 2) rest)
                     (bt_insert route_id (mkCredits c i) routes) (Some route_id)
      end
  end.

Definition decode (encoded : bytes) : result CreditsBlobError RoutedCredits :=
  decode_loop (S (length encoded)) encoded [] None.

(** [try_fold] over the values. *)
Fixpoint sum_from (total : Credits) (routes : RoutedCredits) : result CreditsBlobError Credits :=
  match routes with
  | [] => Ok total
  | (_, value) :: rest =>
      total ← ok_or CreditsOverflow (checked_add total value);
      sum_from total rest
  end.

Definition sum (routes : RoutedCredits) : result CreditsBlobError Credits :=
  sum_from credits_default routes.

(** ** What a map of credits is *)

Definition credits_ok (c : Credits) : Prop := in_u64 (cpu c) /\ in_u64 (inference c).

(** The persisted range: both totals fit 32 bits. *)
Definition persistable (c : Credits) : Prop :=
  0 <= cpu c <= U32_MAX /\ 0 <= inference c <= U32_MAX.

Definition routes_ok (m : RoutedCredits) : Prop :=
  StronglySorted Z.lt m.*1 /\ Forall in_u16 m.*1 /\ Forall credits_ok m.*2.

(** A map with nothing [encode] would refuse. *)
Definition encodable (m : RoutedCredits) : Prop :=
  StronglySorted Z.lt m.*1 /\ Forall (fun k => 0 <= k <= MAX_ROUTE_ID) m.*1 /\
  Forall persistable m.*2.

(** The routes that spent something. *)
Definition nonzero (m : RoutedCredits) : RoutedCredits :=
  filter (fun kv => is_zero kv.2 = false) m.

Definition total (field : Credits -> Z) (m : RoutedCredits) : Z :=
  foldr (fun kv acc => field kv.2 + acc) 0 m.

(** ** The ordered map *)

Lemma bt_get_insert_eq k c m : bt_get k (bt_insert k c m) = Some c.
Proof.
  induction m as [|[k' v] r IH]; simpl; [by rewrite Z.eqb_refl|].
  destruct (Z.ltb_spec k k'); simpl; [by rewrite Z.eqb_refl|].
  destruct (Z.eqb_spec k k') as [->|]; simpl; [by rewrite Z.eqb_refl|].
  by rewrite (proj2 (Z.eqb_neq k' k)).
Qed.

Lemma bt_get_insert_ne k k' c m :
  StronglySorted Z.lt m.*1 -> k <> k' -> bt_get k' (bt_insert k c m) = bt_get k' m.
Proof.
  intros _ Hne. induction m as [|[k1 v] r IH]; simpl.
  - by rewrite (proj2 (Z.eqb_neq k k')).
  - destruct (Z.ltb_spec k k1); simpl; [by rewrite (proj2 (Z.eqb_neq k k'))|].
    destruct (Z.eqb_spec k k1) as [->|]; simpl; [by rewrite (proj2 (Z.eqb_neq k1 k'))|].
    by rewrite IH.
Qed.

Lemma bt_get_elem_of k c m : bt_get k m = Some c -> c ∈ m.*2.
Proof.
  induction m as [|[k' v] r IH]; simpl; [done|].
  destruct (k' =? k); [intros [= ->]|]; set_solver.
Qed.

Lemma bt_insert_keys k c m k' :
  k' ∈ (bt_insert k c m).*1 -> k' = k \/ k' ∈ m.*1.
Proof.
  induction m as [|[k1 v] r IH]; simpl; [set_solver|].
  destruct (k <? k1); simpl; [set_solver|].
  destruct (Z.eqb_spec k k1); simpl; set_solver.
Qed.

Lemma bt_insert_sorted k c m :
  StronglySorted Z.lt m.*1 -> StronglySorted Z.lt (bt_insert k c m).*1.
Proof.
  induction m as [|[k1 v] r IH]; simpl; intros Hs; [repeat constructor|].
  apply StronglySorted_inv in Hs as [Hr Hlt].
  destruct (Z.ltb_spec k k1); simpl.
  { repeat constructor; try done. apply (Forall_impl _ _ _ Hlt). lia. }
  destruct (Z.eqb_spec k k1) as [->|]; simpl; [by constructor|].
  constructor; [by apply IH|]. apply Forall_forall. intros x [->|Hx]%bt_insert_keys; [lia|].
  by rewrite Forall_forall in Hlt; apply Hlt.
Qed.

Lemma bt_insert_last k c m :
  Forall (fun k' => k' < k) m.*1 -> bt_insert k c m = m ++ [(k, c)].
Proof.
  induction m as [|[k1 v] r IH]; simpl; intros Hk; [done|].
  apply Forall_cons in Hk as [Hk1 Hr].
  rewrite (proj2 (Z.ltb_ge k k1)) by lia. rewrite (proj2 (Z.eqb_neq k k1)) by lia.
  by rewrite IH.
Qed.

(** ** Widths and fixed-width integers *)

Lemma width_for_Ok v w :
  0 <= v ->
  width_for v = Ok w <->
    (1 <= w <= 4)%nat /\ v < 256 ^ Z.of_nat w /\
    (forall w', (1 <= w')%nat -> v < 256 ^ Z.of_nat w' -> (w <= w')%nat).
Proof.
  intros Hv. unfold width_for. widths.
  assert (forall a b : nat, (a <= b)%nat -> 256 ^ Z.of_nat a <= 256 ^ Z.of_nat b) as Hmono.
  { intros. apply Z.pow_le_mono_r; lia. }
  assert (forall k : nat, (1 <= k <= 4)%nat -> v < 256 ^ Z.of_nat k ->
    (forall w', (1 <= w')%nat -> v < 256 ^ Z.of_nat w' -> (k <= w')%nat) ->
    Ok (E:=CreditsBlobError) k = Ok w <->
    (1 <= w <= 4)%nat /\ v < 256 ^ Z.of_nat w /\
    (forall w', (1 <= w')%nat -> v < 256 ^ Z.of_nat w' -> (w <= w')%nat)) as Hk.
  { intros k Hk Hv' Hmin. split; [by intros [= <-]|]. intros (Hw & Hvw & Hm). f_equal.
    apply Nat.le_antisymm; [apply Hmin; [lia|done]|apply Hm; [lia|done]]. }
  assert (forall k : nat, 256 ^ Z.of_nat k <= v ->
    forall w', (1 <= w')%nat -> v < 256 ^ Z.of_nat w' -> (S k <= w')%nat) as Hlow.
  { intros k Hge w' _ Hlt. destruct (decide (w' <= k)%nat) as [Hle|]; [|lia].
    specialize (Hmono _ _ Hle). lia. }
  destruct (Z.leb_spec v 255); [apply Hk; [lia|simpl; lia|lia]|].
  destruct (Z.leb_spec v 65535); [apply Hk; [lia|simpl; lia|apply (Hlow 1%nat); simpl; lia]|].
  destruct (Z.leb_spec v 16777215); [apply Hk; [lia|simpl; lia|apply (Hlow 2%nat); simpl; lia]|].
  destruct (Z.leb_spec v 4294967295); [apply Hk; [lia|simpl; lia|apply (Hlow 3%nat); simpl; lia]|].
  split; [done|]. intros (Hw & Hvw & _). assert (w <= 4)%nat as Hle by lia.
  specialize (Hmono _ _ Hle). simpl in Hmono. lia.
Qed.

Lemma width_for_total v : 0 <= v <= U32_MAX -> exists w, width_for v = Ok w.
Proof.
  intros Hv. unfold width_for. repeat case_match; eauto. fw_bool. widths. lia.
Qed.

Lemma width_for_Err v e : width_for v = Err e -> e = CreditsOverflow /\ U32_MAX < v.
Proof. unfold width_for. intros H. repeat case_match; simplify_eq. fw_bool. done. Qed.

Lemma drop_be_bytes k n z : drop k (be_bytes (k + n) z) = be_bytes n z.
Proof. induction k as [|k IH]; [done|]. exact IH. Qed.

Lemma write_uint_be v w :
  (w <= 4)%nat -> 0 <= v < 256 ^ Z.of_nat w -> write_uint v w = be_bytes w v.
Proof.
  intros Hw Hv. unfold write_uint.
  assert (256 ^ Z.of_nat w <= 256 ^ Z.of_nat 4) by (apply Z.pow_le_mono_r; lia).
  rewrite wrap_small by (change (2 ^ 32) with (256 ^ Z.of_nat 4); lia).
  rewrite <- (drop_be_bytes (4 - w) w v). do 2 f_equal. lia.
Qed.

Lemma read_uint_acc bs acc :
  bytes_ok bs -> 0 <= acc -> (acc + 1) * 256 ^ zlen bs <= 2 ^ 64 ->
  foldl (fun value byte => Z.lor (wrap 64 (Z.shiftl value 8)) byte) acc bs =
  foldl (fun acc b => acc * 256 + b) acc bs.
Proof.
  intros Hok. revert acc. induction Hok as [|b r Hb Hr IH]; intros acc Ha Hlt; [done|].
  simpl length in Hlt. rewrite Nat2Z.inj_succ, Z.pow_succ_r in Hlt by lia.
  assert (1 <= 256 ^ zlen r) by (change 1 with (256 ^ 0); apply Z.pow_le_mono_r; lia).
  simpl. rewrite Z.shiftl_mul_pow2, wrap_small by nia.
  rewrite <- (Z.shiftl_mul_pow2 acc), Z.lor_comm, lor_shifted by (widths; lia).
  change (2 ^ 8) with 256. rewrite (Z.add_comm b). apply IH; widths; nia.
Qed.

Lemma read_uint_of_be bs : bytes_ok bs -> (length bs <= 8)%nat -> read_uint bs = of_be bs.
Proof.
  intros Hok Hl. apply read_uint_acc; [done|lia|].
  change (2 ^ 64) with (256 ^ Z.of_nat 8). rewrite Z.mul_1_l. apply Z.pow_le_mono_r; lia.
Qed.

(** ** One entry *)

(** The header of a route and a width: fourteen bits and two. *)
Lemma header_fields r w :
  0 <= r <= MAX_ROUTE_ID -> (1 <= w <= 4)%nat ->
  let h := Z.lor (wrap 16 (Z.shiftl r 2)) (Z.of_nat w - 1) in
  h = r * 4 + (Z.of_nat w - 1) /\ Z.shiftr h 2 = r /\ Z.to_nat (Z.land h 3 + 1) = w.
Proof.
  intros Hr Hw. unfold MAX_ROUTE_ID in Hr.
  assert (Z.lor (wrap 16 (Z.shiftl r 2)) (Z.of_nat w - 1) = r * 4 + (Z.of_nat w - 1)) as E.
  { rewrite Z.shiftl_mul_pow2, wrap_small by lia.
    rewrite <- Z.shiftl_mul_pow2, Z.lor_comm, lor_shifted by lia. lia. }
  simpl. rewrite E. split; [done|]. rewrite Z.shiftr_div_pow2 by lia.
  change 3 with (Z.ones 2). rewrite Z.land_ones by lia.
  change (2 ^ 2) with 4. split; [Z.div_mod_to_equations; lia|].
  Z.div_mod_to_equations. lia.
Qed.

Lemma encode_entry_Ok r c :
  0 <= r <= MAX_ROUTE_ID -> persistable c -> is_zero c = false ->
  exists w, (1 <= w <= 4)%nat /\ width_for (Z.max (cpu c) (inference c)) = Ok w /\
    0 <= cpu c < 256 ^ Z.of_nat w /\ 0 <= inference c < 256 ^ Z.of_nat w /\
    encode_entry r c =
      Ok (be_bytes 2 (r * 4 + (Z.of_nat w - 1)) ++ be_bytes w (cpu c) ++ be_bytes w (inference c)).
Proof.
  intros Hr [Hc Hi] Hz. unfold encode_entry. rewrite (proj2 (Z.ltb_ge _ _)), Hz by lia.
  destruct (width_for_total (Z.max (cpu c) (inference c))) as [w Ew]; [lia|].
  pose proof Ew as (Hw & Hlt & _)%width_for_Ok; [|lia].
  exists w. rewrite Ew. unfold mbind, result_bind.
  destruct (header_fields r w Hr Hw) as [-> _]. rewrite !write_uint_be by lia.
  split_and!; done || lia.
Qed.

(** What [decode_loop] does with the bytes of one entry. *)
Lemma decode_entry fuel r c w rest routes prev :
  0 <= r <= MAX_ROUTE_ID -> (1 <= w <= 4)%nat -> is_zero c = false ->
  0 <= cpu c < 256 ^ Z.of_nat w -> 0 <= inference c < 256 ^ Z.of_nat w ->
  width_for (Z.max (cpu c) (inference c)) = Ok w ->
  match prev with Some p => p < r | None => True end ->
  decode_loop (S fuel) ((be_bytes 2 (r * 4 + (Z.of_nat w - 1)) ++
      be_bytes w (cpu c) ++ be_bytes w (inference c)) ++ rest) routes prev =
  decode_loop fuel rest (bt_insert r c routes) (Some r).
Proof.
  intros Hr Hw Hz Hc Hi Ew Hp. rewrite <- !app_assoc.
  assert (0 <= r * 4 + (Z.of_nat w - 1) < 256 ^ Z.of_nat 2) as Hh.
  { unfold MAX_ROUTE_ID in Hr. simpl. lia. }
  pose proof (length_be_bytes 2 (r * 4 + (Z.of_nat w - 1))) as Hl.
  pose proof (of_be_be_bytes_small 2 _ Hh) as Ho.
  destruct (be_bytes 2 (r * 4 + (Z.of_nat w - 1))) as [|h0 [|h1 [|]]]; try done. clear Hl.
  cbn [app decode_loop]. rewrite Ho.
  destruct (header_fields r w Hr Hw) as (Eh & E1 & E2). cbv zeta in Eh, E1, E2.
  rewrite Eh in E1, E2. rewrite E1, E2.
  replace (match prev with Some previous => r <=? previous | None => false end) with false.
  2: { destruct prev; [|done]. symmetry. apply Z.leb_gt. lia. }
  destruct (Nat.ltb_spec (length (be_bytes w (cpu c) ++ be_bytes w (inference c) ++ rest)) (w * 2))
    as [Hlt|_].
  { rewrite !length_app, !length_be_bytes in Hlt. lia. }
  rewrite take_app_length' by (by rewrite length_be_bytes).
  rewrite drop_app_length' by (by rewrite length_be_bytes).
  rewrite take_app_length' by (by rewrite length_be_bytes).
  rewrite !read_uint_of_be by (auto with fareward; rewrite length_be_bytes; lia).
  rewrite !of_be_be_bytes_small by done.
  replace ((cpu c =? 0) && (inference c =? 0)) with false by (symmetry; exact Hz).
  rewrite Ew. unfold mbind, result_bind. rewrite Nat.eqb_refl. simpl.
  rewrite app_assoc, drop_app_length' by (rewrite length_app, !length_be_bytes; lia).
  by destruct c.
Qed.

(** ** Round trips *)

Lemma encode_cons r c m bs :
  encode ((r, c) :: m) = Ok bs <->
  exists e es, encode_entry r c = Ok e /\ encode m = Ok es /\ bs = e ++ es.
Proof.
  simpl. rewrite result_bind_ok. split.
  - intros (e & He & (es & Hes & [= <-])%result_bind_ok). eauto.
  - intros (e & es & He & Hes & ->). exists e. by rewrite Hes.
Qed.

Lemma decode_encode_loop m bs fuel routes prev :
  encodable m -> encode m = Ok bs -> (length bs < fuel)%nat ->
  Forall (fun k' => forall k, k ∈ m.*1 -> k' < k) routes.*1 ->
  (forall k p, k ∈ m.*1 -> prev = Some p -> p < k) ->
  decode_loop fuel bs routes prev = Ok (routes ++ nonzero m).
Proof.
  intros (Hs & Hk & Hv). revert bs fuel routes prev.
  induction m as [|[r c] m IH]; intros bs fuel routes prev He Hf Hr Hp.
  { simpl in He. simplify_eq. destruct fuel; [simpl in Hf; lia|]. simpl. by rewrite app_nil_r. }
  apply encode_cons in He as (e & es & He & Hes & ->).
  csimpl in *. apply StronglySorted_inv in Hs as [Hs Hlt].
  apply Forall_cons in Hk as [Hk0 Hk], Hv as [Hv0 Hv].
  unfold nonzero. rewrite filter_cons. simpl.
  destruct (is_zero c) eqn:Hz.
  - rewrite decide_False by done. unfold encode_entry in He.
    rewrite (proj2 (Z.ltb_ge _ _)), Hz in He by lia. simplify_eq. simpl.
    apply IH; try done; [|intros k p Hin; apply Hp; set_solver].
    apply (Forall_impl _ _ _ Hr). intros k' Hk' k Hin. apply Hk'. set_solver.
  - rewrite decide_True by done.
    destruct (encode_entry_Ok r c Hk0 Hv0 Hz) as (w & Hw & Ew & Hc & Hi & E).
    rewrite E in He. apply (inj Ok) in He. subst e. destruct fuel as [|fuel]; [lia|].
    rewrite decode_entry; try done.
    2: { destruct prev as [p|]; [|done]. apply (Hp r p); [set_solver|done]. }
    rewrite bt_insert_last.
    2: { apply (Forall_impl _ _ _ Hr). intros k' Hk'. apply Hk'. set_solver. }
    rewrite (IH Hs Hk Hv es); [by rewrite <- app_assoc|done| |..].
    + rewrite length_app in Hf. simpl in Hf. lia.
    + rewrite fmap_app. apply Forall_app. split.
      * apply (Forall_impl _ _ _ Hr). intros k' Hk' k Hin. apply Hk'. set_solver.
      * apply Forall_singleton. intros k Hin. rewrite Forall_forall in Hlt. by apply Hlt.
    + intros k p Hin [= <-]. rewrite Forall_forall in Hlt. by apply Hlt.
Qed.

Lemma encode_total m : encodable m -> exists bs, encode m = Ok bs.
Proof.
  intros (Hs & Hk & Hv). induction m as [|[r c] m IH]; [by eexists|].
  csimpl in *. apply StronglySorted_inv in Hs as [Hs Hlt].
  apply Forall_cons in Hk as [Hk0 Hk], Hv as [Hv0 Hv].
  destruct (IH Hs Hk Hv) as [es Hes].
  destruct (is_zero c) eqn:Hz.
  - exists es. apply encode_cons. exists [], es. split; [|done]. unfold encode_entry.
    by rewrite (proj2 (Z.ltb_ge _ _)), Hz by lia.
  - destruct (encode_entry_Ok r c Hk0 Hv0 Hz) as (w & _ & _ & _ & _ & E).
    eexists. apply encode_cons. by repeat eexists.
Qed.

Lemma decode_of_encode m bs : encodable m -> encode m = Ok bs -> decode bs = Ok (nonzero m).
Proof. intros Hm E. apply (decode_encode_loop m bs _ [] None Hm E); [lia|constructor|done]. Qed.

Lemma encode_bytes_ok m bs : encode m = Ok bs -> bytes_ok bs.
Proof.
  assert (forall v w, bytes_ok (write_uint v w)) as Hw by (intros v w; apply Forall_drop, be_bytes_ok).
  revert bs. induction m as [|[r c] m IH]; intros bs E; [injection E as <-; constructor|].
  apply encode_cons in E as (x & y & E1 & E2 & ->). apply bytes_ok_app. split; [|by apply IH].
  unfold encode_entry in E1. destruct (_ <? r); [done|]. destruct (is_zero c); [injection E1 as <-; constructor|].
  destruct (width_for _) as [w|]; [|done]. unfold mbind, result_bind in E1.
  match type of E1 with Ok ?t = _ => assert (x = t) as -> by congruence end.
  apply bytes_ok_app. split; [apply be_bytes_ok|]. by apply bytes_ok_app.
Qed.

(** Nothing outside the limits is ever encoded. *)
Lemma encode_Ok_encodable m bs : routes_ok m -> encode m = Ok bs -> encodable m.
Proof.
  intros (Hs & Hk & Hv) E. split; [done|]. clear Hs. revert bs E.
  induction m as [|[r c] m IH]; intros bs E; [by split|].
  csimpl in *. apply Forall_cons in Hk as [Hk0 Hk], Hv as [[Hc Hi] Hv].
  apply encode_cons in E as (x & y & E1 & E2 & _).
  destruct (IH Hk Hv _ E2) as [IHk IHv]. unfold encode_entry in E1.
  destruct (Z.ltb_spec MAX_ROUTE_ID r); [done|]. split; (constructor; [|done]); [bounds|].
  unfold is_zero in E1. destruct (Z.eqb_spec (cpu c) 0), (Z.eqb_spec (inference c) 0);
    [split; bounds|..]; simpl in E1; apply result_bind_ok in E1 as (w & (Hw & Hlt & _)%width_for_Ok & _);
    try (widths; lia);
    (assert (256 ^ Z.of_nat w <= 256 ^ 4) by (apply Z.pow_le_mono_r; lia));
    split; widths; lia.
Qed.

(** Every set of totals within the format's limits (fourteen-bit routes, 32-bit
    totals) is encoded, and decoding the blob gives back exactly those totals, less the
    routes that spent nothing. *)
Theorem decode_encode m :
  encodable m -> exists bs, encode m = Ok bs /\ decode bs = Ok (nonzero m).
Proof.
  intros Hm. destruct (encode_total m Hm) as [bs E]. exists bs. split; [done|].
  apply (decode_encode_loop m bs _ [] None Hm E); [lia|constructor|done].
Qed.

(** A blob [decode_loop] accepts starts with one entry's canonical bytes. *)
Lemma decode_step_inv fuel bs routes prev m :
  decode_loop (S fuel) bs routes prev = Ok m -> bytes_ok bs ->
  bs = [] /\ m = routes \/
  exists r c w rest,
    bs = (be_bytes 2 (r * 4 + (Z.of_nat w - 1)) ++
          be_bytes w (cpu c) ++ be_bytes w (inference c)) ++ rest /\
    0 <= r <= MAX_ROUTE_ID /\ (1 <= w <= 4)%nat /\ is_zero c = false /\
    0 <= cpu c < 256 ^ Z.of_nat w /\ 0 <= inference c < 256 ^ Z.of_nat w /\
    width_for (Z.max (cpu c) (inference c)) = Ok w /\
    match prev with Some p => p < r | None => True end /\
    bytes_ok rest /\ decode_loop fuel rest (bt_insert r c routes) (Some r) = Ok m.
Proof.
  intros E Hok. destruct bs as [|h0 [|h1 bs]]; simpl in E; [by left; simplify_eq|done|right].
  apply Forall_cons in Hok as [H0 Hok]. apply Forall_cons in Hok as [H1 Hok].
  assert (of_be [h0; h1] = h0 * 256 + h1) as Eh by (unfold of_be; simpl; lia).
  rewrite Eh in E. set (h := h0 * 256 + h1) in *.
  assert (0 <= h < 65536) as Hh by (subst h; widths; lia).
  rewrite Z.shiftr_div_pow2 in E by lia. change 3 with (Z.ones 2) in E.
  rewrite Z.land_ones in E by lia. change (2 ^ 2) with 4 in E.
  set (r := h / 4) in *. set (w := Z.to_nat (h mod 4 + 1)) in *.
  assert (h = r * 4 + (Z.of_nat w - 1) /\ 0 <= r <= MAX_ROUTE_ID /\ (1 <= w <= 4)%nat)
    as (Ehr & Hr & Hw).
  { unfold MAX_ROUTE_ID. subst r w. Z.div_mod_to_equations. lia. }
  destruct (match prev with Some p => r <=? p | None => false end) eqn:Ep; [done|].
  destruct (Nat.ltb_spec (length bs) (w * 2)) as [|Hlen]; [done|].
  pose proof (Forall_take _ w bs Hok) as Hct. pose proof (Forall_drop _ w bs Hok) as Hd.
  pose proof (Forall_take _ w _ Hd) as Hit.
  assert (length (take w bs) = w) as Lc by (rewrite length_take; lia).
  assert (length (take w (drop w bs)) = w) as Li by (rewrite length_take, length_drop; lia).
  rewrite !read_uint_of_be in E by (done || lia).
  pose proof (of_be_bound _ Hct) as Bc. pose proof (of_be_bound _ Hit) as Bi.
  rewrite Lc in Bc. rewrite Li in Bi.
  set (c := mkCredits (of_be (take w bs)) (of_be (take w (drop w bs)))) in *.
  destruct ((of_be (take w bs) =? 0) && (of_be (take w (drop w bs)) =? 0)) eqn:Hz; [done|].
  apply result_bind_ok in E as (w' & Ew & E).
  destruct (Nat.eqb_spec w' w) as [->|]; simpl in E; [|done].
  exists r, c, w, (drop (w * 2) bs).
  split_and!; try done; try lia; try (unfold c; cbn [cpu inference]; lia).
  - rewrite <- Ehr. assert (be_bytes 2 h = [h0; h1]) as ->.
    { rewrite <- Eh. apply (be_bytes_of_be [h0; h1]). solve_bytes. }
    assert (forall l, bytes_ok l -> length l = w -> be_bytes w (of_be l) = l) as Hbe.
    { intros l Hl <-. by apply be_bytes_of_be. }
    unfold c; cbn [cpu inference]. rewrite !Hbe by done. rewrite <- !app_assoc.
    replace (drop (w * 2) bs) with (drop w (drop w bs)) by (rewrite drop_drop; f_equal; lia).
    by rewrite !take_drop.
  - destruct prev; [|done]. lia.
  - by apply Forall_drop.
Qed.

Lemma decode_loop_sound fuel bs routes prev m :
  decode_loop fuel bs routes prev = Ok m -> bytes_ok bs ->
  match prev with Some p => Forall (fun k => k <= p) routes.*1 | None => routes = [] end ->
  exists m', m = routes ++ m' /\ encode m' = Ok bs /\ encodable m' /\ nonzero m' = m' /\
    match prev with Some p => Forall (fun k => p < k) m'.*1 | None => True end.
Proof.
  revert bs routes prev. induction fuel as [|fuel IH]; intros bs routes prev E Hok Hp; [done|].
  apply decode_step_inv in E as [[-> ->]|(r & c & w & rest & -> & Hr & Hw & Hz & Hc & Hi & Ew & Hpr & Hrest & E)];
    [| |done].
  { exists []. rewrite app_nil_r. split_and!; try done; [by repeat constructor|by destruct prev]. }
  assert (Forall (fun k => k < r) routes.*1) as Hlt.
  { destruct prev; [|by subst]. apply (Forall_impl _ _ _ Hp). lia. }
  rewrite bt_insert_last in E by done.
  destruct (IH _ _ _ E Hrest) as (m' & -> & He & (Hs & Hk & Hv) & Hn & Hgt).
  { rewrite fmap_app. apply Forall_app. split; [|by repeat constructor].
    apply (Forall_impl _ _ _ Hlt). lia. }
  assert (256 ^ Z.of_nat w <= 256 ^ Z.of_nat 4) by (apply Z.pow_le_mono_r; lia).
  assert (persistable c) as Hpc by (unfold persistable, U32_MAX; lia).
  exists ((r, c) :: m'). rewrite <- app_assoc. split_and!; try done.
  - apply encode_cons. destruct (encode_entry_Ok r c Hr Hpc Hz) as (w' & _ & Ew' & _ & _ & Ee).
    rewrite Ew in Ew'. apply (inj Ok) in Ew'. subst w'. by repeat eexists.
  - unfold encodable; csimpl. split_and!; by constructor.
  - unfold nonzero. rewrite filter_cons. csimpl. rewrite decide_True by done.
    f_equal. exact Hn.
  - destruct prev; [|done]. csimpl. constructor; [done|].
    apply (Forall_impl _ _ _ Hgt). lia.
Qed.

(** A blob that decodes is the encoding of what it decodes to: the representation is
    unique, [decode] refuses every other byte string, and the totals it returns are within
    the format's limits, in ascending route order and never all zero. *)
Theorem encode_decode bs m :
  bytes_ok bs -> decode bs = Ok m ->
  encode m = Ok bs /\ encodable m /\ nonzero m = m.
Proof.
  intros Hok E. by destruct (decode_loop_sound _ _ _ None _ E Hok) as (m' & -> & ? & ? & ? & _).
Qed.

(** The loop never runs out: any fuel beyond the length gives the same answer. *)
Lemma decode_loop_fuel f1 f2 bs routes prev :
  (length bs < f1)%nat -> (length bs < f2)%nat ->
  decode_loop f1 bs routes prev = decode_loop f2 bs routes prev.
Proof.
  revert f2 bs routes prev. induction f1 as [|f1 IH]; intros [|f2] bs routes prev H1 H2; try lia.
  destruct bs as [|h0 [|h1 bs]]; [done..|]. cbn [decode_loop]. cbv zeta. simpl in H1, H2.
  unfold mbind, result_bind. repeat (case_match; try done).
  all: apply IH; rewrite length_drop; lia.
Qed.

(** ** Sums *)

Lemma total_cons field k c m : total field ((k, c) :: m) = field c + total field m.
Proof. done. Qed.

Lemma total_nonneg field m :
  (forall c, credits_ok c -> 0 <= field c) -> Forall credits_ok m.*2 -> 0 <= total field m.
Proof.
  intros Hf. induction m as [|[k c] m IH]; [done|].
  intros [Hc Hm]%Forall_cons. rewrite total_cons. specialize (Hf c Hc). specialize (IH Hm). lia.
Qed.

Lemma checked_add_Some a b c :
  checked_add a b = Some c <->
  c = mkCredits (cpu a + cpu b) (inference a + inference b) /\
  in_u64 (cpu a + cpu b) /\ in_u64 (inference a + inference b).
Proof.
  unfold checked_add. rewrite bind_Some. split.
  - intros (x & [-> ?]%checked_add_u64_Some & (y & [-> ?]%checked_add_u64_Some & [= <-])%bind_Some).
    done.
  - intros (-> & ? & ?). exists (cpu a + cpu b). rewrite checked_add_u64_Some. split; [done|].
    rewrite bind_Some. exists (inference a + inference b). by rewrite checked_add_u64_Some.
Qed.

Lemma sum_from_Ok t m s :
  credits_ok t -> Forall credits_ok m.*2 ->
  sum_from t m = Ok s <->
    s = mkCredits (cpu t + total cpu m) (inference t + total inference m) /\ credits_ok s.
Proof.
  intros Ht Hm. revert t Ht. induction m as [|[k c] m IH]; intros t Ht.
  - simpl. rewrite !Z.add_0_r. destruct t. split; [by intros [= <-]|by intros [-> _]].
  - apply Forall_cons in Hm as [Hc Hm]. simpl sum_from. rewrite result_bind_ok.
    rewrite !total_cons. split.
    + intros (t' & (-> & ? & ?)%ok_or_Ok%checked_add_Some & E). apply IH in E; [|done..].
      by rewrite !Z.add_assoc.
    + intros [-> Hs]. change (credits_ok c) in Hc.
      unfold credits_ok in Hs, Ht, Hc; cbn [cpu inference] in Hs.
      pose proof (total_nonneg cpu m (fun c H => proj1 (proj1 H)) Hm).
      pose proof (total_nonneg inference m (fun c H => proj1 (proj2 H)) Hm).
      exists (mkCredits (cpu t + cpu c) (inference t + inference c)). split.
      * apply ok_or_Ok, checked_add_Some. split; [done|]. widths. lia.
      * apply IH; [done|unfold credits_ok; cbn [cpu inference]; widths; lia|].
        cbn [cpu inference]. rewrite <- !Z.add_assoc. split; [done|]. exact Hs.
Qed.

(** [sum] is the exact total of both counters, and fails only when one of the two
    totals does not fit 64 bits: it never wraps and never saturates. *)
Theorem sum_exact m s :
  routes_ok m ->
  sum m = Ok s <->
    s = mkCredits (total cpu m) (total inference m) /\
    total cpu m <= U64_MAX /\ total inference m <= U64_MAX.
Proof.
  intros (_ & _ & Hm). unfold sum.
  rewrite sum_from_Ok by first [done | split; cbn; bounds].
  pose proof (total_nonneg cpu m (fun c H => proj1 (proj1 H)) Hm).
  pose proof (total_nonneg inference m (fun c H => proj1 (proj2 H)) Hm).
  cbn [cpu inference credits_default]. rewrite !Z.add_0_l. split.
  - intros [-> [? ?]]. cbn [cpu inference] in *. split; [done|]. widths. lia.
  - intros (-> & ? & ?). split; [done|]. split; cbn [cpu inference]; widths; lia.
Qed.

(** ** Witnesses *)

Definition sample_routes : RoutedCredits :=
  [(0, mkCredits 3 0); (7, mkCredits 0 0); (300, mkCredits 70000 1)].

Lemma sample_encodable : encodable sample_routes.
Proof.
  unfold encodable, sample_routes, MAX_ROUTE_ID, persistable. csimpl.
  split_and!; repeat constructor; simpl; bounds.
Qed.

Theorem decode_encode_witness :
  exists bs, encode sample_routes = Ok bs /\ decode bs = Ok (nonzero sample_routes).
Proof. apply decode_encode, sample_encodable. Defined.

Theorem encode_decode_witness :
  let bs := [0; 0; 3; 0; 4; 178; 1; 17; 112; 0; 0; 1] in
  let m := [(0, mkCredits 3 0); (300, mkCredits 70000 1)] in
  encode m = Ok bs /\ encodable m /\ nonzero m = m.
Proof. apply encode_decode; [solve_bytes|reflexivity]. Defined.

Theorem sum_exact_witness :
  sum sample_routes = Ok (mkCredits 70003 1) <->
    mkCredits 70003 1 = mkCredits (total cpu sample_routes) (total inference sample_routes) /\
    total cpu sample_routes <= U64_MAX /\ total inference sample_routes <= U64_MAX.
Proof.
  apply sum_exact. split; [apply sample_encodable|].
  split; unfold sample_routes, credits_ok; csimpl; repeat constructor; simpl; bounds.
Defined.
