(* ===== verification/Aggregation.v ===== *)
(** * Aggregation: the usage rows of src/src/limiter/aggregation.rs

    [UsageKey], [UsageRecord] with its two mutation versions, [UsageSnapshot], and the four
    operations on a record plus [merge_loaded] on the map of them.

    The versions exist so that a flush loses nothing: a snapshot is written to the store
    while charges keep arriving, and only the version that was written may be marked clean.
    [flush_step] is that interleaving for one row, one atomic step of the limiter or of the
    flush at a time, with writes that may fail before or after they reach the table;
    [flush_lossless] is the guarantee. *)

From stdpp Require Import countable.
From S2P Require Import Prelude CreditsBlob.

Definition COMPANY_AGGREGATE_USER_ID : Z := -1.

Record UsageKey := mkUsageKey { company_id : Z; user_id : Z; time_frame : Z }.

#[export] Instance UsageKey_eq_dec : EqDecision UsageKey.
Proof. solve_decision. Defined.

#[export] Instance UsageKey_countable : Countable UsageKey.
Proof.
  refine (inj_countable' (fun k => (company_id k, user_id k, time_frame k))
    (fun t => mkUsageKey t.1.1 t.1.2 t.2) _).
  by intros [].
Defined.

Definition is_company_aggregate (self : UsageKey) : bool :=
  user_id self =? COMPANY_AGGREGATE_USER_ID.

Record UsageSnapshot := mkUsageSnapshot {
  snap_key : UsageKey;
  snap_routes : RoutedCredits;
  snap_version : Z;
}.

Record UsageRecord := mkUsageRecord {
  routes : RoutedCredits;
  version : Z;
  flushed_version : Z;
}.

#[export] Instance UsageRecord_eq_dec : EqDecision UsageRecord.
Proof. solve_decision. Defined.

Inductive AggregationError := UsageOverflow | VersionOverflow.

#[export] Instance AggregationError_eq_dec : EqDecision AggregationError.
Proof. solve_decision. Defined.

Definition loaded (r : RoutedCredits) : UsageRecord := mkUsageRecord r 0 0.

(** The routes are written before the version is checked. *)
Definition increment (route_id : Z) (credits : Credits) : SE UsageRecord AggregationError unit :=
  self ← se_get;
  let current := default credits_default (bt_get route_id (routes self)) in
  updated ← se_lift (ok_or UsageOverflow (CreditsBlob.checked_add current credits));
  let self := mkUsageRecord (bt_insert route_id updated (routes self))
                (version self) (flushed_version self) in
  _ ← se_put self;
  next ← se_lift (ok_or VersionOverflow (checked_add_u64 (version self) 1));
  se_put (mkUsageRecord (routes self) next (flushed_version self)).

Definition snapshot (self : UsageRecord) (key : UsageKey) : option UsageSnapshot :=
  if version self =? flushed_version self then None
  else Some (mkUsageSnapshot key (routes self) (version self)).

Definition mark_flushed (v : Z) (self : UsageRecord) : UsageRecord :=
  if version self =? v then mkUsageRecord (routes self) (version self) v else self.

Definition is_clean (self : UsageRecord) : bool := version self =? flushed_version self.

(** [HashMap<UsageKey, UsageRecord>]. *)
Abbreviation UsageMap := (gmap UsageKey UsageRecord).

Definition merge_loaded (key : UsageKey) (r : RoutedCredits) (records : UsageMap) : UsageMap :=
  match records !! key with
  | Some _ => records
  | None => <[key := loaded r]> records
  end.

(** ** One operation at a time *)

Definition record_ok (r : UsageRecord) : Prop :=
  routes_ok (routes r) /\ in_u64 (version r) /\ 0 <= flushed_version r <= version r.

(** What a route has been charged; a route without an entry has been charged nothing. *)
Definition spent (route : Z) (m : RoutedCredits) : Credits :=
  default credits_default (bt_get route m).

Lemma increment_Ok route c r r' u :
  increment route c r = (Ok u, r') <->
  exists updated,
    CreditsBlob.checked_add (spent route (routes r)) c = Some updated /\
    version r < U64_MAX /\ 0 <= version r + 1 /\
    r' = mkUsageRecord (bt_insert route updated (routes r)) (version r + 1) (flushed_version r).
Proof.
  destruct u. unfold increment, spent, mbind, SE_bind, se_get, se_lift, se_put, ok_or.
  destruct (CreditsBlob.checked_add _ c) as [w|]; simpl; [|split; [done|by intros (? & ? & ?)]].
  destruct (checked_add_u64 (version r) 1) as [n|] eqn:E; simpl.
  - apply checked_add_u64_Some in E as [-> ?]. split.
    + intros [= <-]. exists w. split_and!; try done; bounds.
    + by intros (? & [= ->] & ? & ? & ->).
  - apply fits_None in E. split; [done|]. intros (? & _ & ? & ? & _). lia.
Qed.

Lemma increment_refused route c r :
  CreditsBlob.checked_add (spent route (routes r)) c = None ->
  increment route c r = (Err UsageOverflow, r).
Proof.
  intros E. unfold increment, mbind, SE_bind, se_get, se_lift, ok_or. simpl.
  unfold spent in E. by rewrite E.
Qed.

(** A charge to a usage row adds exactly its credits to its own route, leaves every
    other route alone, moves the version by one and makes the row dirty; it is refused, with
    the row unchanged, exactly when the route's total would leave 64 bits. *)
Theorem increment_exact route c r :
  routes_ok (routes r) -> credits_ok c -> in_u16 route ->
  0 <= flushed_version r <= version r -> version r < U64_MAX ->
  let t := spent route (routes r) in
  let sum := mkCredits (cpu t + cpu c) (inference t + inference c) in
  if bool_decide (cpu sum <= U64_MAX /\ inference sum <= U64_MAX) then
    exists r',
      increment route c r = (Ok tt, r') /\
      spent route (routes r') = sum /\
      (forall k, k <> route -> spent k (routes r') = spent k (routes r)) /\
      version r' = version r + 1 /\ is_clean r' = false
  else increment route c r = (Err UsageOverflow, r).
Proof.
  intros (Hs & Hr & Hc) Hcc Hroute Hv Hmax t sum.
  assert (credits_ok t) as [Ht1 Ht2].
  { subst t. unfold spent. destruct (bt_get route (routes r)) eqn:E; simpl.
    - by eapply Forall_forall in Hc; [|eapply bt_get_elem_of].
    - split; cbn; bounds. }
  destruct Hcc as [Hc1 Hc2]. subst sum. cbn [cpu inference]. case_bool_decide as Hfit.
  - eexists. split.
    { apply increment_Ok. eexists. split; [|split; [done|split; [lia|done]]].
      apply checked_add_Some. split; [done|]. subst t. widths. lia. }
    cbn [routes version flushed_version]. unfold spent at 1. rewrite bt_get_insert_eq.
    split_and!; try done.
    + intros k Hk. unfold spent. by rewrite bt_get_insert_ne.
    + unfold is_clean. cbn. apply Z.eqb_neq. lia.
  - apply increment_refused. destruct (CreditsBlob.checked_add _ c) eqn:E; [|done].
    apply checked_add_Some in E as (_ & ? & ?). destruct Hfit. subst t. widths. lia.
Qed.

(** ** Charges and a flush, interleaved

    One row of the map, the row the usage table holds for it, and where the flush is. The
    limiter runs one flush at a time (a single task, joined before the final one). *)

Inductive FlushPhase :=
| Idle
| Writing (s : UsageSnapshot)
| Written (s : UsageSnapshot).

Record RowState := mkRowState {
  live : UsageRecord;
  durable : RoutedCredits;
  phase : FlushPhase;
}.

Inductive flush_step (key : UsageKey) : RowState -> RowState -> Prop :=
| step_charge route c res r r' d p :
    version r < U64_MAX ->
    increment route c r = (res, r') ->
    flush_step key (mkRowState r d p) (mkRowState r' d p)
| step_snapshot r d s :
    snapshot r key = Some s ->
    flush_step key (mkRowState r d Idle) (mkRowState r d (Writing s))
| step_upsert r d s :
    flush_step key (mkRowState r d (Writing s)) (mkRowState r (snap_routes s) (Written s))
| step_upsert_failed r d d' s :
    d' = d \/ d' = snap_routes s ->
    flush_step key (mkRowState r d (Writing s)) (mkRowState r d' Idle)
| step_mark r d s :
    flush_step key (mkRowState r d (Written s))
      (mkRowState (mark_flushed (snap_version s) r) d Idle).

(** What the flush knows of the row it is writing. *)
Definition phase_ok (st : RowState) : Prop :=
  match phase st with
  | Idle => True
  | Writing s | Written s =>
      snap_version s <= version (live st) /\
      flushed_version (live st) < snap_version s /\
      (snap_version s = version (live st) -> snap_routes s = routes (live st))
  end.

Definition written_ok (st : RowState) : Prop :=
  match phase st with Written s => durable st = snap_routes s | _ => True end.

Definition flush_inv (st : RowState) : Prop :=
  flushed_version (live st) <= version (live st) /\
  (is_clean (live st) = true -> durable st = routes (live st)) /\
  phase_ok st /\ written_ok st.

Lemma increment_versions route c r res r' :
  version r < U64_MAX -> 0 <= version r -> increment route c r = (res, r') ->
  (r' = r) \/ (version r' = version r + 1 /\ flushed_version r' = flushed_version r).
Proof.
  intros Hv H0 E. destruct res as [u|e].
  - apply increment_Ok in E as (w & _ & _ & _ & ->). by right.
  - left. unfold increment, mbind, SE_bind, se_get, se_lift, se_put, ok_or in E.
    destruct (CreditsBlob.checked_add _ c); simpl in E; [|congruence].
    destruct (checked_add_u64 (version r) 1) eqn:Ev; [done|].
    apply checked_add_u64_None in Ev; lia.
Qed.

Lemma flush_step_inv key st st' :
  flush_inv st -> 0 <= flushed_version (live st) -> flush_step key st st' ->
  flush_inv st' /\ 0 <= flushed_version (live st').
Proof.
  intros (Hle & Hclean & Hphase & Hwritten) H0 Hstep.
  unfold flush_inv, phase_ok, written_ok, is_clean in *.
  destruct Hstep as [route c res r r' d p Hv E | r d s E | r d s | r d d' s Hd | r d s];
    cbn [live durable phase] in *.
  - destruct (increment_versions _ _ _ _ _ Hv ltac:(lia) E) as [->|[Ev Ef]]; [done|].
    rewrite Ev, Ef. split; [|done]. split; [lia|]. split; [intros ?%Z.eqb_eq; lia|].
    split; [|done]. destruct p; [done|..]; destruct Hphase as (? & ? & ?); split_and!; lia.
  - unfold snapshot in E. destruct (Z.eqb_spec (version r) (flushed_version r)); [done|].
    injection E as <-. cbn. split_and!; try done; lia.
  - split; [|done]. split; [lia|]. split; [intros ?%Z.eqb_eq; lia|]. done.
  - split; [|done]. split; [lia|]. split; [intros ?%Z.eqb_eq; lia|]. done.
  - unfold mark_flushed. destruct (Z.eqb_spec (version r) (snap_version s)) as [Es|];
      cbn [version flushed_version routes]; destruct Hphase as (? & ? & Heq).
    + split; [|lia]. split; [lia|]. split; [|done]. intros _. rewrite Hwritten. by apply Heq.
    + split; [|done]. split; [lia|]. split; [intros ?%Z.eqb_eq; lia|]. done.
Qed.

(** No charge is lost to a flush. However charges, snapshots, writes (failing before or
    after they reach the table) and completions interleave, a row that reads as clean is the
    row the table holds: a charge that lands during a write keeps the row dirty. *)
Theorem flush_lossless key d r st :
  rtc (flush_step key) (mkRowState (loaded d) d Idle) st ->
  live st = r -> is_clean r = true ->
  durable st = routes r /\ snapshot r key = None.
Proof.
  intros Hsteps <- Hc.
  enough (flush_inv st /\ 0 <= flushed_version (live st)) as [(_ & Hinv & _) _].
  { split; [by apply Hinv|]. unfold snapshot. unfold is_clean in Hc. by rewrite Hc. }
  clear Hc. revert Hsteps.
  apply (rtc_ind_r (fun x => flush_inv x /\ 0 <= flushed_version (live x))).
  - split; [|done]. unfold flush_inv. cbn. done.
  - intros y z _ Hstep [Hy H0]. by eapply flush_step_inv.
Qed.

(** ** Witnesses *)

Definition sample_row : UsageRecord := mkUsageRecord [(7, mkCredits 5 1)] 3 2.

Theorem increment_exact_witness :
  exists r',
    increment 7 (mkCredits 2 3) sample_row = (Ok tt, r') /\
    spent 7 (routes r') = mkCredits 7 4 /\
    (forall k, k <> 7 -> spent k (routes r') = spent k (routes sample_row)) /\
    version r' = version sample_row + 1 /\ is_clean r' = false.
Proof.
  apply (increment_exact 7 (mkCredits 2 3) sample_row).
  - unfold routes_ok, credits_ok; csimpl. repeat constructor; cbn; bounds.
  - split; cbn; bounds.
  - bounds.
  - cbn. lia.
  - cbn. bounds.
Defined.

(** A charge arrives while the first write is in flight; the second write covers it. *)
Theorem flush_lossless_witness :
  let key := mkUsageKey 1 2 300000000 in
  exists st, rtc (flush_step key) (mkRowState (loaded []) [] Idle) st /\
    durable st = routes (live st) /\ routes (live st) = [(7, mkCredits 3 1)].
Proof.
  intros key.
  set (r1 := mkUsageRecord [(7, mkCredits 2 0)] 1 0).
  set (r2 := mkUsageRecord [(7, mkCredits 3 1)] 2 0).
  set (s1 := mkUsageSnapshot key (routes r1) 1).
  set (s2 := mkUsageSnapshot key (routes r2) 2).
  set (final := mkRowState (mark_flushed 2 r2) (routes r2) Idle).
  assert (rtc (flush_step key) (mkRowState (loaded []) [] Idle) final) as Hrun.
  { eapply rtc_l; [by apply (step_charge key 7 (mkCredits 2 0) (Ok tt) _ r1)|].
    eapply rtc_l; [by apply (step_snapshot key r1 [] s1)|].
    eapply rtc_l; [by apply (step_charge key 7 (mkCredits 1 1) (Ok tt) _ r2)|].
    eapply rtc_l; [apply (step_upsert key r2 [] s1)|].
    eapply rtc_l; [apply (step_mark key r2 (snap_routes s1) s1)|].
    eapply rtc_l; [by apply (step_snapshot key r2 _ s2)|].
    eapply rtc_l; [apply (step_upsert key r2 _ s2)|].
    apply rtc_once. apply (step_mark key r2 (snap_routes s2) s2). }
  exists final. split; [exact Hrun|]. split; [|done].
  by apply (flush_lossless key [] (live final) final Hrun).
Defined.
