(* ===== verification/Storage.v ===== *)
(** * Storage: the durable rows of src/src/limiter/storage.rs

    The stored records, the [LimiterStore] trait as a type class over the store's state, and
    [ScyllaLimiterStore], its implementation: what each method binds, how it decodes rows
    with empty cells, and which values it refuses. The database session is a parameter: one
    function per prepared statement.

    [StoreLaws] is what the limiter's theorems need of a store; [scylla_laws] shows that
    [ScyllaLimiterStore] has it over any session whose statements act on rows as their CQL
    text says ([SessionLaws]), and [Tables] is one such session, kept in finite maps. *)

From stdpp Require Import strings.
From S2P Require Import Prelude CreditsBlob TimeFrame Aggregation.

Record StoredUsage := mkStoredUsage {
  su_time_frame : Z;
  used_credits : bytes;
}.

Record StoredUserAccess := mkStoredUserAccess {
  grants_blob : bytes;
  sub_grants_blob : bytes;
  sua_status : Z;
}.

Record StoredBudget := mkStoredBudget {
  sb_company_id : Z;
  daily : Credits;
  budget_month_start_day : Z;
  monthly_ceiling : Credits;
  last_set : Credits;
  sb_updated : Z;
}.

Record StoredExtraUsage := mkStoredExtraUsage {
  se_day_period : Z;
  day_cpu : Z;
  se_month_start_day : Z;
  month_cpu : Z;
}.

Record StoredBudgetRow := mkStoredBudgetRow {
  budget : StoredBudget;
  extra : StoredExtraUsage;
}.

Record StoredBudgetUsage := mkStoredBudgetUsage {
  bu_company_id : Z;
  bu_day_period : Z;
  bu_day_used : Credits;
  bu_month_start_day : Z;
  bu_month_used : Credits;
  day_extra_cpu : Z;
  month_extra_cpu : Z;
  bu_updated : Z;
}.

#[export] Instance StoredUsage_eq_dec : EqDecision StoredUsage.
Proof. solve_decision. Defined.
#[export] Instance StoredUserAccess_eq_dec : EqDecision StoredUserAccess.
Proof. solve_decision. Defined.
#[export] Instance StoredBudget_eq_dec : EqDecision StoredBudget.
Proof. solve_decision. Defined.

(** [Default::default()] of the two rows [ensure_budget] falls back to. *)
Definition stored_budget_default : StoredBudget :=
  mkStoredBudget 0 credits_default 0 credits_default credits_default 0.
Definition stored_budget_row_default : StoredBudgetRow :=
  mkStoredBudgetRow stored_budget_default (mkStoredExtraUsage 0 0 0 0).

(** [anyhow::Error]: the outermost context, or the error [?] converted. [Panicked] is not an
    error value of the source: it is where a definition would abort ([expect] on a missing
    entry), so that absence of panics is a theorem and not an assumption. *)
Inductive anyhow :=
| Msg (message : string)
| FromTimeFrame (e : TimeFrameError)
| FromCreditsBlob (e : CreditsBlobError)
| FromAggregation (e : AggregationError)
| Panicked (message : string).

#[export] Instance anyhow_eq_dec : EqDecision anyhow.
Proof. solve_decision. Defined.

Definition is_panic (e : anyhow) : bool :=
  match e with Panicked _ => true | _ => false end.

(** [context msg r]: [anyhow::Context::context]. *)
Definition context {S A} (message : string) (m : SE S anyhow A) : SE S anyhow A :=
  fun s => match m s with
           | (Ok a, s') => (Ok a, s')
           | (Err e, s') => (Err (if is_panic e then e else Msg message), s')
           end.

(** ** The trait *)

Class LimiterStore (St : Type) := {
  load_exact : UsageKey -> SE St anyhow (option StoredUsage);
  load_range : Z -> Z -> Z -> Z -> SE St anyhow (list StoredUsage);
  upsert : UsageKey -> bytes -> SE St anyhow unit;
  load_budget : Z -> SE St anyhow (option StoredBudgetRow);
  upsert_budget : StoredBudget -> SE St anyhow unit;
  upsert_budget_usage : StoredBudgetUsage -> SE St anyhow unit;
  load_user_access : Z -> Z -> SE St anyhow (option StoredUserAccess);
}.

(** ** The session, and the implementation over it *)

(** The row [SELECT ... FROM company_credit_budget] returns. A cell that was never written is
    empty: an [INSERT] writes only the columns it names. *)
Record BudgetCells := mkBudgetCells {
  c_daily_cpu : option Z;
  c_daily_inference : option Z;
  c_month_start : option Z;
  c_monthly_cpu : option Z;
  c_monthly_inference : option Z;
  c_last_set_cpu : option Z;
  c_last_set_inference : option Z;
  c_updated : option Z;
  c_extra_day_period : option Z;
  c_extra_day_cpu : option Z;
  c_extra_month_start_day : option Z;
  c_extra_month_cpu : option Z;
}.

(** The values bound by the entitlement statement, and by the usage statement. *)
Record BudgetBind := mkBudgetBind {
  b_company_id : Z;
  b_daily_cpu : Z;
  b_daily_inference : Z;
  b_month_start : Z;
  b_monthly_cpu : Z;
  b_monthly_inference : Z;
  b_last_set_cpu : Z;
  b_last_set_inference : Z;
  b_updated : Z;
}.

Record UsageBind := mkUsageBind {
  u_company_id : Z;
  u_day_period : Z;
  u_day_cpu : Z;
  u_day_inference : Z;
  u_month_start_day : Z;
  u_month_cpu : Z;
  u_month_inference : Z;
  u_day_extra_cpu : Z;
  u_month_extra_cpu : Z;
  u_updated : Z;
}.

(** One operation per prepared statement. *)
Class Session (St : Type) := {
  select_company_range : Z * Z * Z -> SE St anyhow (list (Z * bytes));
  select_user_range : Z * Z * Z * Z -> SE St anyhow (list (Z * bytes));
  exec_upsert_company : Z * Z * bytes -> SE St anyhow unit;
  exec_upsert_user : Z * Z * Z * bytes -> SE St anyhow unit;
  select_budget : Z -> SE St anyhow (list BudgetCells);
  exec_upsert_budget : BudgetBind -> SE St anyhow unit;
  exec_upsert_budget_usage : UsageBind -> SE St anyhow unit;
  select_user_access : Z * Z ->
    SE St anyhow (list (option bytes * option bytes * option Z));
}.

Section Scylla.
Context {St : Type} `{!Session St}.

Definition scylla_load_range (company_id user_id start_time_frame end_time_frame : Z) :
    SE St anyhow (list StoredUsage) :=
  rows ← context "credit usage range read failed"
    (if user_id =? COMPANY_AGGREGATE_USER_ID
     then select_company_range (company_id, start_time_frame, end_time_frame)
     else select_user_range (company_id, user_id, start_time_frame, end_time_frame));
  mret ((fun row => mkStoredUsage row.1 row.2) <$> rows).

Definition scylla_load_exact (key : UsageKey) : SE St anyhow (option StoredUsage) :=
  rows ← scylla_load_range (company_id key) (user_id key) (time_frame key) (time_frame key);
  mret (head rows).

Definition scylla_upsert (key : UsageKey) (used_credits : bytes) : SE St anyhow unit :=
  if is_company_aggregate key
  then context "credit_usage_company absolute upsert failed"
         (exec_upsert_company (company_id key, time_frame key, used_credits))
  else context "credit_usage_user absolute upsert failed"
         (exec_upsert_user (company_id key, user_id key, time_frame key, used_credits)).

(** One row of the budget read. The six entitlement cells are read as plain integers, which
    an empty cell is not; the other cells are options, zero when empty. A negative credit is
    refused, so the [as u64] casts act on nonnegative values. *)
Definition budget_row (company_id : Z) (row : BudgetCells) : result anyhow StoredBudgetRow :=
  let int cell := ok_or (Msg "company_credit_budget row decode failed") cell in
  daily_cpu ← int (c_daily_cpu row);
  daily_inference ← int (c_daily_inference row);
  month_start ← int (c_month_start row);
  monthly_cpu ← int (c_monthly_cpu row);
  monthly_inference ← int (c_monthly_inference row);
  updated ← int (c_updated row);
  let last_set_cpu := default 0 (c_last_set_cpu row) in
  let last_set_inference := default 0 (c_last_set_inference row) in
  let extra_day_cpu := default 0 (c_extra_day_cpu row) in
  let extra_month_cpu := default 0 (c_extra_month_cpu row) in
  if existsb (fun value => value <? 0)
       [daily_cpu; daily_inference; monthly_cpu; monthly_inference;
        last_set_cpu; last_set_inference; extra_day_cpu; extra_month_cpu]
  then Err (Msg "company_credit_budget contains negative credits")
  else Ok (mkStoredBudgetRow
    (mkStoredBudget company_id
       (mkCredits (wrap 64 daily_cpu) (wrap 64 daily_inference))
       month_start
       (mkCredits (wrap 64 monthly_cpu) (wrap 64 monthly_inference))
       (mkCredits (wrap 64 last_set_cpu) (wrap 64 last_set_inference))
       updated)
    (mkStoredExtraUsage (default 0 (c_extra_day_period row)) (wrap 64 extra_day_cpu)
       (default 0 (c_extra_month_start_day row)) (wrap 64 extra_month_cpu))).

Definition scylla_load_budget (company_id : Z) : SE St anyhow (option StoredBudgetRow) :=
  rows ← context "company_credit_budget read failed" (select_budget company_id);
  match rows with
  | [] => mret None
  | row :: _ => r ← se_lift (budget_row company_id row); mret (Some r)
  end.

Definition int64 (message : string) (value : Z) : SE St anyhow Z :=
  se_lift (ok_or (Msg message) (try_i64 value)).

Definition scylla_upsert_budget (b : StoredBudget) : SE St anyhow unit :=
  daily_cpu ← int64 "daily CPU budget exceeds int64" (cpu (daily b));
  daily_inference ← int64 "daily inference budget exceeds int64" (inference (daily b));
  monthly_cpu ← int64 "monthly CPU ceiling exceeds int64" (cpu (monthly_ceiling b));
  monthly_inference ←
    int64 "monthly inference ceiling exceeds int64" (inference (monthly_ceiling b));
  last_set_cpu ← int64 "last set CPU credits exceed int64" (cpu (last_set b));
  last_set_inference ←
    int64 "last set inference credits exceed int64" (inference (last_set b));
  context "company_credit_budget upsert failed"
    (exec_upsert_budget
       (mkBudgetBind (sb_company_id b) daily_cpu daily_inference (budget_month_start_day b)
          monthly_cpu monthly_inference last_set_cpu last_set_inference (sb_updated b))).

Definition scylla_upsert_budget_usage (u : StoredBudgetUsage) : SE St anyhow unit :=
  day_cpu ← int64 "daily CPU usage exceeds int64" (cpu (bu_day_used u));
  day_inference ← int64 "daily inference usage exceeds int64" (inference (bu_day_used u));
  month_cpu ← int64 "monthly CPU usage exceeds int64" (cpu (bu_month_used u));
  month_inference ←
    int64 "monthly inference usage exceeds int64" (inference (bu_month_used u));
  extra_day ← int64 "daily extra CPU usage exceeds int64" (day_extra_cpu u);
  extra_month ← int64 "monthly extra CPU usage exceeds int64" (month_extra_cpu u);
  context "company_credit_budget usage upsert failed"
    (exec_upsert_budget_usage
       (mkUsageBind (bu_company_id u) (bu_day_period u) day_cpu day_inference
          (bu_month_start_day u) month_cpu month_inference extra_day extra_month
          (bu_updated u))).

Definition scylla_load_user_access (company_id user_id : Z) :
    SE St anyhow (option StoredUserAccess) :=
  rows ← context "users access read failed" (select_user_access (company_id, user_id));
  match rows with
  | [] => mret None
  | (grants, sub_grants, status) :: _ =>
      mret (Some (mkStoredUserAccess (default [] grants) (default [] sub_grants)
                    (default 0 status)))
  end.

#[export] Instance ScyllaLimiterStore : LimiterStore St := {
  load_exact := scylla_load_exact;
  load_range := scylla_load_range;
  upsert := scylla_upsert;
  load_budget := scylla_load_budget;
  upsert_budget := scylla_upsert_budget;
  upsert_budget_usage := scylla_upsert_budget_usage;
  load_user_access := scylla_load_user_access;
}.

End Scylla.

(** ** What the limiter relies on

    Two views of the durable state: the blob of each usage row, and the budget row of each
    company as [load_budget] would decode it. A failed write may or may not have reached the
    table; a read changes neither view. *)

Class StoreView (St : Type) := {
  usage_view : St -> UsageKey -> option bytes;
  budget_view : St -> Z -> option StoredBudgetRow;
}.

Definition same_view {St} `{StoreView St} (s s' : St) : Prop :=
  (forall k, usage_view s' k = usage_view s k) /\
  (forall c, budget_view s' c = budget_view s c).

#[export] Instance same_view_equiv {St} `{StoreView St} : Equivalence same_view.
Proof.
  split.
  - by intros ?.
  - intros ?? [? ?]. by split.
  - intros x y z [H1 H2] [H3 H4]. split; intros; [by rewrite H3|by rewrite H4].
Qed.

(** The two halves of a budget row a company may hold. *)
Definition budget_fits (b : StoredBudget) : Prop :=
  0 <= cpu (daily b) <= I64_MAX /\ 0 <= inference (daily b) <= I64_MAX /\
  0 <= cpu (monthly_ceiling b) <= I64_MAX /\ 0 <= inference (monthly_ceiling b) <= I64_MAX /\
  0 <= cpu (last_set b) <= I64_MAX /\ 0 <= inference (last_set b) <= I64_MAX.

Class StoreLaws (St : Type) `{LimiterStore St, StoreView St} : Prop := {
  load_exact_law k s r s' :
    load_exact k s = (r, s') -> same_view s s' /\
    forall o, r = Ok o -> o = mkStoredUsage (time_frame k) <$> usage_view s k;
  load_range_law c u a b s r s' :
    load_range c u a b s = (r, s') -> same_view s s' /\
    forall rows, r = Ok rows ->
      NoDup (su_time_frame <$> rows) /\
      forall t bs, mkStoredUsage t bs ∈ rows <->
        a <= t <= b /\ usage_view s (mkUsageKey c u t) = Some bs;
  upsert_law k bs s r s' :
    upsert k bs s = (r, s') ->
    (forall c, budget_view s' c = budget_view s c) /\
    (forall k', k' <> k -> usage_view s' k' = usage_view s k') /\
    (usage_view s' k = Some bs \/ (r <> Ok tt /\ usage_view s' k = usage_view s k));
  load_budget_law c s r s' :
    load_budget c s = (r, s') -> same_view s s' /\
    forall o, r = Ok o -> o = budget_view s c;
  upsert_budget_law b s r s' :
    upsert_budget b s = (r, s') ->
    (forall k, usage_view s' k = usage_view s k) /\
    (forall c, c <> sb_company_id b -> budget_view s' c = budget_view s c) /\
    (r = Ok tt -> budget_fits b -> forall row row',
       budget_view s (sb_company_id b) = Some row ->
       budget_view s' (sb_company_id b) = Some row' ->
       budget row' = b /\ extra row' = extra row);
  upsert_budget_usage_law u s r s' :
    upsert_budget_usage u s = (r, s') ->
    (forall k, usage_view s' k = usage_view s k) /\
    (forall c, c <> bu_company_id u -> budget_view s' c = budget_view s c) /\
    (forall row row',
       budget_view s (bu_company_id u) = Some row ->
       budget_view s' (bu_company_id u) = Some row' -> budget row' = budget row);
  load_user_access_law c u s r s' :
    load_user_access c u s = (r, s') -> same_view s s';
}.

(** ** The tables behind a session *)

Record Tables := mkTables {
  t_company : gmap (Z * Z) bytes;
  t_user : gmap (Z * Z * Z) bytes;
  t_budget : gmap Z BudgetCells;
  t_users : gmap (Z * Z) (option bytes * option bytes * option Z);
}.

Definition no_cells : BudgetCells :=
  mkBudgetCells None None None None None None None None None None None None.

(** What the two budget statements write: each its own columns. *)
Definition with_entitlement (b : BudgetBind) (c : BudgetCells) : BudgetCells :=
  mkBudgetCells (Some (b_daily_cpu b)) (Some (b_daily_inference b)) (Some (b_month_start b))
    (Some (b_monthly_cpu b)) (Some (b_monthly_inference b)) (Some (b_last_set_cpu b))
    (Some (b_last_set_inference b)) (Some (b_updated b)) (c_extra_day_period c)
    (c_extra_day_cpu c) (c_extra_month_start_day c) (c_extra_month_cpu c).

Definition with_usage (u : UsageBind) (c : BudgetCells) : BudgetCells :=
  mkBudgetCells (c_daily_cpu c) (c_daily_inference c) (c_month_start c) (c_monthly_cpu c)
    (c_monthly_inference c) (c_last_set_cpu c) (c_last_set_inference c) (c_updated c)
    (Some (u_day_period u)) (Some (u_day_extra_cpu u)) (Some (u_month_start_day u))
    (Some (u_month_extra_cpu u)).

Definition put_company (c t : Z) (bs : bytes) (ts : Tables) : Tables :=
  mkTables (<[(c, t) := bs]> (t_company ts)) (t_user ts) (t_budget ts) (t_users ts).
Definition put_user (c u t : Z) (bs : bytes) (ts : Tables) : Tables :=
  mkTables (t_company ts) (<[(c, u, t) := bs]> (t_user ts)) (t_budget ts) (t_users ts).
Definition put_budget (c : Z) (f : BudgetCells -> BudgetCells) (ts : Tables) : Tables :=
  mkTables (t_company ts) (t_user ts)
    (<[c := f (default no_cells (t_budget ts !! c))]> (t_budget ts)) (t_users ts).

(** A write either happened, or failed and may have happened all the same. *)
Definition writes {E} (r : result E unit) (old new after : Tables) : Prop :=
  after = new \/ (r <> Ok tt /\ after = old).

(** The rows of a range read: one per row of the table, in any order. *)
Definition ranges (lookup : Z -> option bytes) (a b : Z) (rows : list (Z * bytes)) : Prop :=
  NoDup rows.*1 /\ forall t bs, (t, bs) ∈ rows <-> a <= t <= b /\ lookup t = Some bs.

Class SessionLaws (St : Type) `{Session St} := {
  tables : St -> Tables;
  select_company_range_law c a b s r s' :
    select_company_range (c, a, b) s = (r, s') -> tables s' = tables s /\
    forall rows, r = Ok rows -> ranges (fun t => t_company (tables s) !! (c, t)) a b rows;
  select_user_range_law c u a b s r s' :
    select_user_range (c, u, a, b) s = (r, s') -> tables s' = tables s /\
    forall rows, r = Ok rows -> ranges (fun t => t_user (tables s) !! (c, u, t)) a b rows;
  exec_upsert_company_law c t bs s r s' :
    exec_upsert_company (c, t, bs) s = (r, s') ->
    writes r (tables s) (put_company c t bs (tables s)) (tables s');
  exec_upsert_user_law c u t bs s r s' :
    exec_upsert_user (c, u, t, bs) s = (r, s') ->
    writes r (tables s) (put_user c u t bs (tables s)) (tables s');
  select_budget_law c s r s' :
    select_budget c s = (r, s') -> tables s' = tables s /\
    forall rows, r = Ok rows -> rows = option_list (t_budget (tables s) !! c);
  exec_upsert_budget_law b s r s' :
    exec_upsert_budget b s = (r, s') ->
    writes r (tables s) (put_budget (b_company_id b) (with_entitlement b) (tables s)) (tables s');
  exec_upsert_budget_usage_law u s r s' :
    exec_upsert_budget_usage u s = (r, s') ->
    writes r (tables s) (put_budget (u_company_id u) (with_usage u) (tables s)) (tables s');
  select_user_access_law k s r s' :
    select_user_access k s = (r, s') -> tables s' = tables s;
}.

Definition table_usage (ts : Tables) (k : UsageKey) : option bytes :=
  if is_company_aggregate k then t_company ts !! (company_id k, time_frame k)
  else t_user ts !! (company_id k, user_id k, time_frame k).

Definition table_budget (ts : Tables) (c : Z) : option StoredBudgetRow :=
  cells ← t_budget ts !! c;
  match budget_row c cells with Ok row => Some row | Err _ => None end.

(** ** The implementation has the laws *)

Lemma context_inv {S A} message (m : SE S anyhow A) s r s' :
  context message m s = (r, s') ->
  exists r0, m s = (r0, s') /\ (forall a, r = Ok a <-> r0 = Ok a).
Proof.
  unfold context. destruct (m s) as [[a|e] s1]; intros [= <- <-]; eexists; split; try done.
Qed.

Lemma int64_run {S} message v (s : S) r s' :
  int64 message v s = (r, s') ->
  s' = s /\ ((r = Ok v /\ I64_MIN <= v <= I64_MAX) \/ exists e, r = Err e).
Proof.
  unfold int64, se_lift, ok_or. destruct (try_i64 v) eqn:E; intros [= <- <-]; [|eauto].
  apply fits_Some in E as [-> ?]. eauto.
Qed.

(** Peel one range check off a bind. *)
Ltac int64_step H :=
  let v := fresh "v" in let s1 := fresh "s1" in let E := fresh "E" in
  apply se_bind_run in H as [(v & s1 & E & H)|(v & E & ->)];
  apply int64_run in E as [-> E];
  destruct E as [[E ?]|[? E]]; try done; [apply (inj Ok) in E; subst v|].

Section Refinement.
Context {St : Type} `{SessionLaws St}.

#[export] Instance scylla_view : StoreView St := {
  usage_view s := table_usage (tables s);
  budget_view s := table_budget (tables s);
}.

Lemma same_tables s s' : tables s' = tables s -> same_view s s'.
Proof. intros E. split; intros; simpl; by rewrite E. Qed.

Lemma scylla_load_range_run c u a b s r s' :
  scylla_load_range c u a b s = (r, s') ->
  tables s' = tables s /\
  forall rows, r = Ok rows ->
    NoDup (su_time_frame <$> rows) /\
    forall t bs, mkStoredUsage t bs ∈ rows <->
      a <= t <= b /\ table_usage (tables s) (mkUsageKey c u t) = Some bs.
Proof.
  unfold scylla_load_range. intros R. set (look := fun t => table_usage (tables s) (mkUsageKey c u t)).
  assert (forall q r0 s1, context "credit usage range read failed" q s = (r0, s1) ->
    q = (if u =? COMPANY_AGGREGATE_USER_ID then select_company_range (c, a, b)
         else select_user_range (c, u, a, b)) ->
    tables s1 = tables s /\ forall rows, r0 = Ok rows -> ranges look a b rows) as Hq.
  { intros q r0 s1 (r1 & Hr & Hok)%context_inv ->. subst look.
    unfold table_usage, is_company_aggregate. cbn [user_id company_id time_frame].
    destruct (u =? COMPANY_AGGREGATE_USER_ID).
    - apply select_company_range_law in Hr as [? Hr]. split; [done|].
      intros rows E. by apply Hr, Hok.
    - apply select_user_range_law in Hr as [? Hr]. split; [done|].
      intros rows E. by apply Hr, Hok. }
  apply se_bind_run in R as [(rows & s1 & R & [= <- <-])|(e & R & ->)];
    destruct (Hq _ _ _ R eq_refl) as [Et Hr]; split; try done.
  intros ? [= <-]. destruct (Hr _ eq_refl) as [Hnd Hin]. split.
  - rewrite <- list_fmap_compose. exact Hnd.
  - intros t bs. etrans; [|apply Hin]. rewrite list_elem_of_fmap. split.
    + by intros ([t0 bs0] & [= -> ->] & ?).
    + intros ?. by exists (t, bs).
Qed.

Lemma scylla_load_exact_run k s r s' :
  scylla_load_exact k s = (r, s') ->
  tables s' = tables s /\
  forall o, r = Ok o -> o = mkStoredUsage (time_frame k) <$> table_usage (tables s) k.
Proof.
  unfold scylla_load_exact. intros R.
  apply se_bind_run in R as [(rows & s1 & R & [= <- <-])|(e & R & ->)];
    apply scylla_load_range_run in R as [Et Hr]; split; try done.
  intros ? [= <-]. destruct (Hr _ eq_refl) as [Hnd Hin]. destruct k as [c u t]. simpl in *.
  destruct rows as [|[t0 bs0] rest]; simpl.
  - destruct (table_usage _ _) as [bs|] eqn:E; [|done].
    assert (mkStoredUsage t bs ∈ []) as Habs by (apply Hin; split; [lia|done]).
    by apply elem_of_nil in Habs.
  - destruct (proj1 (Hin t0 bs0)) as [Ht Hl]; [by left|].
    replace t0 with t in * by lia. by rewrite Hl.
Qed.

Lemma table_usage_company ts c t bs k' :
  table_usage (put_company c t bs ts) k' =
    if bool_decide (k' = mkUsageKey c COMPANY_AGGREGATE_USER_ID t) then Some bs
    else table_usage ts k'.
Proof.
  unfold table_usage, is_company_aggregate. destruct k' as [c' u' t']. simpl.
  destruct (Z.eqb_spec u' COMPANY_AGGREGATE_USER_ID) as [->|Hu].
  - case_bool_decide as E; [injection E as -> ->; by rewrite lookup_insert_eq|].
    rewrite lookup_insert_ne; [done|]. intros [= -> ->]. done.
  - rewrite bool_decide_eq_false_2; [done|]. by intros [= -> -> ->].
Qed.

Lemma table_usage_user ts c u t bs k' :
  u <> COMPANY_AGGREGATE_USER_ID ->
  table_usage (put_user c u t bs ts) k' =
    if bool_decide (k' = mkUsageKey c u t) then Some bs else table_usage ts k'.
Proof.
  intros Hu. unfold table_usage, is_company_aggregate. destruct k' as [c' u' t']. simpl.
  destruct (Z.eqb_spec u' COMPANY_AGGREGATE_USER_ID) as [->|Hu'].
  - rewrite bool_decide_eq_false_2; [done|]. intros [= ? ? ?]. congruence.
  - case_bool_decide as E; [injection E as -> -> ->; by rewrite lookup_insert_eq|].
    rewrite lookup_insert_ne; [done|]. intros [= -> -> ->]. done.
Qed.

Lemma scylla_upsert_run k bs s r s' :
  scylla_upsert k bs s = (r, s') ->
  t_budget (tables s') = t_budget (tables s) /\
  (forall k', k' <> k -> table_usage (tables s') k' = table_usage (tables s) k') /\
  (table_usage (tables s') k = Some bs \/
   (r <> Ok tt /\ table_usage (tables s') k = table_usage (tables s) k)).
Proof.
  unfold scylla_upsert. destruct k as [c u t]. unfold is_company_aggregate.
  cbn [company_id user_id time_frame].
  destruct (Z.eqb_spec u COMPANY_AGGREGATE_USER_ID) as [->|Hu]; intros (r0 & Hr & Hok)%context_inv;
    [apply exec_upsert_company_law in Hr as [->|[Hne ->]]
    |apply exec_upsert_user_law in Hr as [->|[Hne ->]]].
  2,4: split; [done|]; split; [done|right; by rewrite Hok].
  all: split; [done|]; split; [intros k' Hk'|left].
  all: rewrite ?table_usage_company, ?(table_usage_user _ _ _ _ _ _ Hu).
  all: first [done | by rewrite bool_decide_eq_false_2 | by rewrite bool_decide_eq_true_2].
Qed.

(** A write of one half of a budget row, as it shows in the table. *)
Lemma table_budget_put c f ts c' :
  table_budget (put_budget c f ts) c' =
    if bool_decide (c' = c) then
      match budget_row c (f (default no_cells (t_budget ts !! c))) with
      | Ok row => Some row | Err _ => None
      end
    else table_budget ts c'.
Proof.
  unfold table_budget. simpl. case_bool_decide as E.
  - subst. by rewrite lookup_insert_eq.
  - by rewrite lookup_insert_ne by done.
Qed.

Lemma budget_row_Ok c cells row :
  budget_row c cells = Ok row ->
  extra row = mkStoredExtraUsage (default 0 (c_extra_day_period cells))
    (wrap 64 (default 0 (c_extra_day_cpu cells)))
    (default 0 (c_extra_month_start_day cells))
    (wrap 64 (default 0 (c_extra_month_cpu cells))) /\
  exists daily_cpu daily_inference month_start monthly_cpu monthly_inference updated,
    c_daily_cpu cells = Some daily_cpu /\ c_daily_inference cells = Some daily_inference /\
    c_month_start cells = Some month_start /\ c_monthly_cpu cells = Some monthly_cpu /\
    c_monthly_inference cells = Some monthly_inference /\ c_updated cells = Some updated /\
    budget row = mkStoredBudget c
      (mkCredits (wrap 64 daily_cpu) (wrap 64 daily_inference)) month_start
      (mkCredits (wrap 64 monthly_cpu) (wrap 64 monthly_inference))
      (mkCredits (wrap 64 (default 0 (c_last_set_cpu cells)))
         (wrap 64 (default 0 (c_last_set_inference cells)))) updated.
Proof.
  unfold budget_row. destruct cells as [[dc|] [di|] [ms|] [mc|] [mi|] lc li [up|] p1 p2 p3 p4];
    cbn; try done.
  match goal with |- (if ?t then _ else _) = _ -> _ => destruct t end; [done|].
  intros [= <-]. split; [done|]. by eexists _, _, _, _, _, _.
Qed.

Lemma scylla_upsert_budget_run b s r s' :
  scylla_upsert_budget b s = (r, s') ->
  writes r (tables s)
    (put_budget (sb_company_id b)
       (with_entitlement (mkBudgetBind (sb_company_id b) (cpu (daily b)) (inference (daily b))
          (budget_month_start_day b) (cpu (monthly_ceiling b)) (inference (monthly_ceiling b))
          (cpu (last_set b)) (inference (last_set b)) (sb_updated b))) (tables s))
    (tables s').
Proof.
  unfold scylla_upsert_budget. intros R.
  do 6 (int64_step R; [|by right]).
  apply context_inv in R as (r0 & R & Hok). apply exec_upsert_budget_law in R.
  destruct R as [R|[Hne R]]; [by left|right]. split; [|done]. by rewrite Hok.
Qed.

Lemma scylla_upsert_budget_usage_run u s r s' :
  scylla_upsert_budget_usage u s = (r, s') ->
  writes r (tables s)
    (put_budget (bu_company_id u)
       (with_usage (mkUsageBind (bu_company_id u) (bu_day_period u) (cpu (bu_day_used u))
          (inference (bu_day_used u)) (bu_month_start_day u) (cpu (bu_month_used u))
          (inference (bu_month_used u)) (day_extra_cpu u) (month_extra_cpu u) (bu_updated u)))
       (tables s))
    (tables s').
Proof.
  unfold scylla_upsert_budget_usage. intros R.
  do 6 (int64_step R; [|by right]).
  apply context_inv in R as (r0 & R & Hok). apply exec_upsert_budget_usage_law in R.
  destruct R as [R|[Hne R]]; [by left|right]. split; [|done]. by rewrite Hok.
Qed.

Lemma wrap_i64 z : 0 <= z <= I64_MAX -> wrap 64 z = z.
Proof. intros. apply wrap_small. widths. lia. Qed.

Lemma table_budget_Some ts c row :
  table_budget ts c = Some row <->
  exists cells, t_budget ts !! c = Some cells /\ budget_row c cells = Ok row.
Proof.
  unfold table_budget. rewrite bind_Some. split; intros (cells & E & Hr); exists cells;
    (split; [done|]); destruct (budget_row c cells); congruence.
Qed.

Lemma scylla_store_laws : StoreLaws St.
Proof.
  split.
  - intros k s r s' R. apply scylla_load_exact_run in R as [Et Hr].
    split; [by apply same_tables|done].
  - intros c u a b s r s' R. apply scylla_load_range_run in R as [Et Hr].
    split; [by apply same_tables|done].
  - intros k bs s r s' (Eb & Hne & Hk)%scylla_upsert_run. simpl. split; [|done].
    intros c. unfold table_budget. by rewrite Eb.
  - intros c s r s' R. simpl in *. unfold scylla_load_budget in R.
    assert (forall r0 s1, context "company_credit_budget read failed" (select_budget c) s = (r0, s1) ->
      tables s1 = tables s /\ forall rows, r0 = Ok rows -> rows = option_list (t_budget (tables s) !! c)) as Hq.
    { intros r0 s1 (r1 & Hr & Hok)%context_inv. apply select_budget_law in Hr as [? Hr].
      split; [done|]. intros rows E. by apply Hr, Hok. }
    apply se_bind_run in R as [(rows & s1 & R & E)|(e & R & ->)];
      destruct (Hq _ _ R) as [Et Hr]; [|by split; [apply same_tables|]].
    specialize (Hr _ eq_refl). unfold table_budget.
    destruct (t_budget (tables s) !! c) as [cells|]; simpl in Hr; subst rows.
    + unfold mbind, SE_bind, se_lift, mret, SE_ret in E. simpl.
      destruct (budget_row c cells); injection E as <- <-;
        (split; [by apply same_tables|by intros ? [= <-]]).
    + injection E as <- <-. split; [by apply same_tables|by intros ? [= <-]].
  - intros b s r s' R%scylla_upsert_budget_run. simpl.
    destruct R as [->|[Hne ->]]; [|by split_and!; try done; intros ->].
    split; [done|]. split.
    { intros c Hc. rewrite table_budget_put. by rewrite bool_decide_eq_false_2. }
    intros _ (?&?&?&?&?&?) row row' (cells & Ec & Hrow)%table_budget_Some.
    rewrite table_budget_put, bool_decide_eq_true_2, Ec by done. simpl.
    destruct (budget_row _ (with_entitlement _ _)) eqn:Hrow'; [|done]. intros [= <-].
    apply budget_row_Ok in Hrow as [-> _].
    apply budget_row_Ok in Hrow' as [-> (?&?&?&?&?&?&[= <-]&[= <-]&[= <-]&[= <-]&[= <-]&[= <-]&->)].
    simpl. rewrite !wrap_i64 by done. split; [|done].
    destruct b as [? [] ? [] [] ?]. done.
  - intros u s r s' R%scylla_upsert_budget_usage_run. simpl.
    destruct R as [->|[Hne ->]].
    2: { split_and!; try done. congruence. }
    split; [done|]. split.
    { intros c Hc. rewrite table_budget_put. by rewrite bool_decide_eq_false_2. }
    intros row row' (cells & Ec & Hrow)%table_budget_Some.
    rewrite table_budget_put, bool_decide_eq_true_2, Ec by done. simpl.
    destruct (budget_row _ (with_usage _ _)) eqn:Hrow'; [|done]. intros [= <-].
    apply budget_row_Ok in Hrow as [_ (?&?&?&?&?&?&?&?&?&?&?&?&->)].
    apply budget_row_Ok in Hrow' as [_ (?&?&?&?&?&?&?&?&?&?&?&?&->)]. simpl in *. congruence.
  - intros c u s r s' R. simpl in *. unfold scylla_load_user_access in R.
    apply se_bind_run in R as [(rows & s1 & R & E)|(e & R & ->)];
      apply context_inv in R as (r1 & R & _); apply select_user_access_law in R.
    + destruct rows as [|[[??]?] ?]; injection E as <- <-; by apply same_tables.
    + by apply same_tables.
Qed.


End Refinement.

#[export] Hint Resolve scylla_store_laws : typeclass_instances.

(** ** A session in memory *)

Definition ok_unit {St E} (f : St -> St) : SE St E unit := fun s => (Ok tt, f s).

Definition range_of {K} `{Countable K} (m : gmap K bytes) (keep : K -> option Z)
    (a b : Z) : list (Z * bytes) :=
  omap (fun kv => t ← keep kv.1; if (a <=? t) && (t <=? b) then Some (t, kv.2) else None)
    (map_to_list m).

#[export] Instance tables_session : Session Tables := {
  select_company_range k s :=
    let '(c, a, b) := k in
    (Ok (range_of (t_company s) (fun k => if k.1 =? c then Some k.2 else None) a b), s);
  select_user_range k s :=
    let '(c, u, a, b) := k in
    (Ok (range_of (t_user s)
           (fun k => if (k.1.1 =? c) && (k.1.2 =? u) then Some k.2 else None) a b), s);
  exec_upsert_company k := let '(c, t, bs) := k in ok_unit (put_company c t bs);
  exec_upsert_user k := let '(c, u, t, bs) := k in ok_unit (put_user c u t bs);
  select_budget c s := (Ok (option_list (t_budget s !! c)), s);
  exec_upsert_budget b := ok_unit (put_budget (b_company_id b) (with_entitlement b));
  exec_upsert_budget_usage u := ok_unit (put_budget (u_company_id u) (with_usage u));
  select_user_access k s := (Ok (option_list (t_users s !! k)), s);
}.

Lemma range_of_ranges {K} `{Countable K} (m : gmap K bytes) keep (key : Z -> K) a b :
  (forall k t, keep k = Some t <-> k = key t) ->
  ranges (fun t => m !! key t) a b (range_of m keep a b).
Proof.
  intros Hkeep. unfold range_of, ranges. split.
  - pose proof (NoDup_fst_map_to_list m) as Hnd. induction (map_to_list m) as [|[k bs] l IH];
      [constructor|]. csimpl in *. apply NoDup_cons in Hnd as [Hk Hnd]. specialize (IH Hnd).
    destruct (keep k) as [t|] eqn:Et; simpl; [|done].
    destruct ((a <=? t) && (t <=? b)); [|done]. csimpl. constructor; [|done].
    intros ([t' bs'] & Ht & Hin)%list_elem_of_fmap. simpl in Ht. subst t'.
    apply list_elem_of_omap in Hin as ([k' bs''] & Hin & Hx). simpl in Hx.
    apply bind_Some in Hx as (t' & Et' & Hx). destruct ((a <=? t') && (t' <=? b)); [|done].
    injection Hx as -> ->. apply Hkeep in Et, Et'. subst. apply Hk.
    apply list_elem_of_fmap. by exists (key t, bs').
  - intros t bs. rewrite list_elem_of_omap. split.
    + intros ([k bs'] & Hin & Hx). simpl in Hx. apply bind_Some in Hx as (t' & Et & Hx).
      destruct ((a <=? t') && (t' <=? b)) eqn:Hr; [|done]. fw_bool. injection Hx as -> ->.
      apply Hkeep in Et as ->. by apply elem_of_map_to_list in Hin.
    + intros [Hr Hl]. exists (key t, bs). rewrite elem_of_map_to_list. split; [done|]. simpl.
      rewrite (proj2 (Hkeep _ t)) by done. simpl.
      by rewrite !(proj2 (Z.leb_le _ _)) by lia.
Qed.

#[export] Instance tables_laws : SessionLaws Tables.
Proof.
  refine {| tables := id |}.
  - intros c a b s r s' [= <- <-]. split; [done|]. intros ? [= <-].
    apply (range_of_ranges _ _ (fun t => (c, t))). intros [c' t'] t. simpl.
    destruct (Z.eqb_spec c' c); naive_solver.
  - intros c u a b s r s' [= <- <-]. split; [done|]. intros ? [= <-].
    apply (range_of_ranges _ _ (fun t => (c, u, t))). intros [[c' u'] t'] t. simpl.
    destruct (Z.eqb_spec c' c), (Z.eqb_spec u' u); naive_solver.
  - intros c t bs s r s' [= <- <-]. by left.
  - intros c u t bs s r s' [= <- <-]. by left.
  - intros c s r s' [= <- <-]. split; [done|]. by intros ? [= <-].
  - intros b s r s' [= <- <-]. by left.
  - intros u s r s' [= <- <-]. by left.
  - by intros k s r s' [= <- <-].
Defined.


Definition empty_tables : Tables := mkTables ∅ ∅ ∅ ∅.

(** A company whose usage counters were flushed before any entitlement was set has a row
    the daemon itself cannot read: the entitlement cells are empty and [load_budget] reads
    them as plain integers. Setting the entitlement afterwards repairs the row. *)
Theorem usage_before_entitlement_unreadable u b ts :
  t_budget ts !! bu_company_id u = None -> sb_company_id b = bu_company_id u ->
  budget_fits b -> 0 <= day_extra_cpu u <= I64_MAX -> 0 <= month_extra_cpu u <= I64_MAX ->
  forall ts1, upsert_budget_usage u ts = (Ok tt, ts1) ->
  load_budget (bu_company_id u) ts = (Ok None, ts) /\
  load_budget (bu_company_id u) ts1 =
    (Err (Msg "company_credit_budget row decode failed"), ts1) /\
  forall ts2, upsert_budget b ts1 = (Ok tt, ts2) ->
    load_budget (bu_company_id u) ts2 =
      (Ok (Some (mkStoredBudgetRow b (mkStoredExtraUsage (bu_day_period u) (day_extra_cpu u)
                                        (bu_month_start_day u) (month_extra_cpu u)))), ts2).
Proof.
  intros Hnone Hc (?&?&?&?&?&?) ?? ts1 R1.
  assert (forall r ts', writes (E:=anyhow) r ts ts' ts1 -> r = Ok tt -> ts1 = ts') as Hw.
  { intros r ts' [E|[Hne _]] Hr; [done|]. by destruct Hne. }
  apply scylla_upsert_budget_usage_run in R1. apply Hw in R1; [|done]. simpl in R1. subst ts1.
  clear Hw. simpl. unfold scylla_load_budget, mbind, SE_bind, context. simpl. split.
  { by rewrite Hnone. }
  rewrite Hnone, lookup_insert_eq. simpl. split; [done|]. intros ts2 R2.
  apply scylla_upsert_budget_run in R2 as [E|[Hne _]]; [|done]. simpl in E. subst ts2. simpl.
  rewrite Hc, !lookup_insert_eq. simpl. unfold se_lift, budget_row, mbind, result_bind. simpl.
  rewrite !(proj2 (Z.ltb_ge _ 0)) by lia. simpl. unfold SE_ret, mret. rewrite !wrap_i64 by done.
  rewrite <- Hc. by destruct b as [? [] ? [] [] ?].
Qed.

Theorem usage_before_entitlement_unreadable_witness :
  let u := mkStoredBudgetUsage 9 20300 credits_default 20290 credits_default 0 0 0 in
  let b := mkStoredBudget 9 (mkCredits 100 0) 20290 (mkCredits 1000 0) (mkCredits 1000 0) 5 in
  load_budget 9 (upsert_budget_usage u empty_tables).2 =
    (Err (Msg "company_credit_budget row decode failed"), (upsert_budget_usage u empty_tables).2).
Proof.
  intros u b. apply (usage_before_entitlement_unreadable u b empty_tables); try done;
    unfold budget_fits; cbn; try split_and!; bounds.
Defined.
