(* ===== verification/Access.v ===== *)
(** * Access: the cached grants of src/src/limiter/access.rs

    One user's two grant blobs, held as the database returned them and searched in place:
    a binary search over the fixed-stride blob, a linear scan over the blob whose entries
    carry sub-access bytes. Both are validated once, on load, and the searches rely on it.

    [words] and [encode_subs] say what a blob means; the theorems show that the validators
    accept exactly the blobs with that meaning, that both searches answer it, and what
    [verdict] replies for each required slot. An index out of range would panic in the
    source; it is [None] here and the theorems show it does not happen. *)

From stdpp Require Import strings.
From S2P Require Import Prelude Storage.

Definition MAX_REQUIRED_ACCESS : nat := 4.
Definition ACTIVE_USER_STATUS : Z := 1.
Definition GRANT_WORD_SIZE : nat := 2.
Definition SUB_MORE_BIT : Z := 0x80.

Record AccessInvalidation := mkAccessInvalidation {
  ai_company_id : Z;
  ai_user_id : Z;
}.

(** The [bail!]s of the module, by message. *)
Inductive AccessError :=
| Malformed
| InvalidCompany
| NotWholeGrantWords (len : nat)
| NotAscending (granted_id : Z)
| EndsMidGrantWord
| SubNotAscending (granted_id : Z)
| NoSubBytes (granted_id : Z)
| OverflowsMask (granted_id : Z)
| NoSubAccesses (granted_id : Z).

#[export] Instance AccessError_eq_dec : EqDecision AccessError.
Proof. solve_decision. Defined.

(** [decode] is the colbin codec, which is not part of this repository. *)
Definition parse_access_invalidation (decode : bytes -> option AccessInvalidation)
    (payload : bytes) : result AccessError AccessInvalidation :=
  invalidation ← ok_or Malformed (decode payload);
  if ai_company_id invalidation <=? 0 then Err InvalidCompany else Ok invalidation.

Inductive AccessDenial := NoAccess | UnknownUser | InactiveUser.

#[export] Instance AccessDenial_eq_dec : EqDecision AccessDenial.
Proof. solve_decision. Defined.

Definition detail_code (self : AccessDenial) : Z :=
  match self with NoAccess => 2 | UnknownUser => 3 | InactiveUser => 4 end.

Record AccessVerdict := mkAccessVerdict {
  granted_mask : Z;
  has_subs_mask : Z;
  sub_bytes : bytes;
}.

#[export] Instance AccessVerdict_eq_dec : EqDecision AccessVerdict.
Proof. solve_decision. Defined.

Definition verdict_default : AccessVerdict := mkAccessVerdict 0 0 [].

Definition is_granted (self : AccessVerdict) : bool := negb (granted_mask self =? 0).

Record UserAccessState := mkUserAccessState {
  grants : bytes;
  sub_grants : bytes;
  status : Z;
  found : bool;
  loaded_at : Z;
}.

Definition unpack_grant (grant_word : Z) : Z * Z :=
  (Z.shiftr grant_word 2, Z.land grant_word 3 + 1).

(** ** The two searches *)

(** The grant word at a byte offset; [None] is an index out of range. *)
Definition word_at (bs : bytes) (offset : nat) : option (Z * Z) :=
  b0 ← bs !! offset;
  b1 ← bs !! (offset + 1)%nat;
  Some (unpack_grant (of_be [b0; b1])).

Fixpoint search (fuel : nat) (bs : bytes) (required_id required_nivel : Z)
    (low high : nat) : option bool :=
  match fuel with
  | O => None
  | S fuel =>
      if (low <? high)%nat then
        let middle := ((low + high) / 2)%nat in
        '(granted_id, granted_nivel) ← word_at bs (middle * GRANT_WORD_SIZE)%nat;
        match granted_id ?= required_id with
        | Lt => search fuel bs required_id required_nivel (middle + 1)%nat high
        | Gt => search fuel bs required_id required_nivel low middle
        | Eq => Some (required_nivel <=? granted_nivel)
        end
      else Some false
  end.

Definition holds_in_grants (bs : bytes) (required_grant : Z) : option bool :=
  let '(required_id, required_nivel) := unpack_grant required_grant in
  let grant_count := (length bs / GRANT_WORD_SIZE)%nat in
  search (S grant_count) bs required_id required_nivel 0%nat grant_count.

(** The run of sub bytes at the front: up to and including the first without [MORE]. *)
Fixpoint sub_run (bs : bytes) : bytes * bytes :=
  match bs with
  | [] => ([], [])
  | b :: r =>
      if Z.land b SUB_MORE_BIT =? 0 then ([b], r)
      else let '(run, rest) := sub_run r in (b :: run, rest)
  end.

Fixpoint find_loop (fuel : nat) (bs : bytes) (required_id required_nivel : Z) : option bytes :=
  match fuel, bs with
  | S fuel, b0 :: b1 :: rest =>
      let '(granted_id, granted_nivel) := unpack_grant (of_be [b0; b1]) in
      let '(subs, rest) := sub_run rest in
      if granted_id =? required_id
      then if required_nivel <=? granted_nivel then Some subs else None
      else if required_id <? granted_id then None
      else find_loop fuel rest required_id required_nivel
  | _, _ => None
  end.

Definition find_in_sub_grants (bs : bytes) (required_grant : Z) : option bytes :=
  let '(required_id, required_nivel) := unpack_grant required_grant in
  find_loop (length bs) bs required_id required_nivel.

(** ** Validation on load *)

Fixpoint grants_ascending (bs : bytes) (previous_id : Z) : result AccessError unit :=
  match bs with
  | b0 :: b1 :: rest =>
      let granted_id := (unpack_grant (of_be [b0; b1])).1 in
      if granted_id <=? previous_id then Err (NotAscending granted_id)
      else grants_ascending rest granted_id
  | _ => Ok tt
  end.

Definition validate_grants (bs : bytes) : result AccessError unit :=
  if negb (length bs mod GRANT_WORD_SIZE =? 0)%nat then Err (NotWholeGrantWords (length bs))
  else grants_ascending bs 0.

(** The inner loop: one entry's sub bytes, and what follows them. *)
Fixpoint sub_mask_loop (granted_id : Z) (bs : bytes) (sub_byte_index sub_mask : Z) :
    result AccessError (Z * bytes) :=
  match bs with
  | [] => Err (NoSubBytes granted_id)
  | sub_byte :: rest =>
      if 16 <=? sub_byte_index * 7 then Err (OverflowsMask granted_id)
      else
        let sub_mask :=
          Z.lor sub_mask (wrap 16 (Z.shiftl (Z.land sub_byte 127) (sub_byte_index * 7))) in
        if Z.land sub_byte SUB_MORE_BIT =? 0 then Ok (sub_mask, rest)
        else sub_mask_loop granted_id rest (sub_byte_index + 1) sub_mask
  end.

Fixpoint validate_sub_loop (fuel : nat) (bs : bytes) (previous_id : Z) :
    result AccessError unit :=
  match fuel with
  | O => Err EndsMidGrantWord
  | S fuel =>
      match bs with
      | [] => Ok tt
      | [_] => Err EndsMidGrantWord
      | b0 :: b1 :: rest =>
          let granted_id := (unpack_grant (of_be [b0; b1])).1 in
          if granted_id <=? previous_id then Err (SubNotAscending granted_id)
          else
            '(sub_mask, rest) ← sub_mask_loop granted_id rest 0 0;
            if sub_mask =? 0 then Err (NoSubAccesses granted_id)
            else validate_sub_loop fuel rest granted_id
      end
  end.

Definition validate_sub_grants (bs : bytes) : result AccessError unit :=
  validate_sub_loop (S (length bs)) bs 0.

(** ** The cached state *)

Definition from_row (row : option StoredUserAccess) (loaded_at : Z) :
    result AccessError UserAccessState :=
  match row with
  | None => Ok (mkUserAccessState [] [] 0 false loaded_at)
  | Some row =>
      _ ← validate_grants (grants_blob row);
      _ ← validate_sub_grants (sub_grants_blob row);
      Ok (mkUserAccessState (grants_blob row) (sub_grants_blob row) (sua_status row)
            true loaded_at)
  end.

Definition is_fresh (self : UserAccessState) (unix_seconds ttl_seconds : Z) : bool :=
  (loaded_at self <=? unix_seconds) && (unix_seconds - loaded_at self <=? ttl_seconds).

(** The loop over the required slots, up to the first zero. *)
Fixpoint verdict_loop (self : UserAccessState) (required : list Z) (slot_index : Z)
    (verdict : AccessVerdict) : option AccessVerdict :=
  match required with
  | [] => Some verdict
  | required_grant :: rest =>
      if required_grant =? 0 then Some verdict
      else
        let bit := Z.shiftl 1 slot_index in
        held ← holds_in_grants (grants self) required_grant;
        if (held : bool) then
          verdict_loop self rest (slot_index + 1)
            (mkAccessVerdict (Z.lor (granted_mask verdict) bit) (has_subs_mask verdict)
               (sub_bytes verdict))
        else
          match find_in_sub_grants (sub_grants self) required_grant with
          | Some subs =>
              verdict_loop self rest (slot_index + 1)
                (mkAccessVerdict (Z.lor (granted_mask verdict) bit)
                   (Z.lor (has_subs_mask verdict) bit) (sub_bytes verdict ++ subs))
          | None => verdict_loop self rest (slot_index + 1) verdict
          end
  end.

(** [None] is a panic. *)
Definition verdict (self : UserAccessState) (required : list Z) :
    option (result AccessDenial AccessVerdict) :=
  if negb (found self) then Some (Err UnknownUser)
  else if negb (status self =? ACTIVE_USER_STATUS) then Some (Err InactiveUser)
  else
    v ← verdict_loop self required 0 verdict_default;
    Some (if is_granted v then Ok v else Err NoAccess).

(** ** What the blobs mean *)

(** The fixed-stride blob: its grant words in order. *)
Fixpoint words (bs : bytes) : list (Z * Z) :=
  match bs with
  | b0 :: b1 :: rest => unpack_grant (of_be [b0; b1]) :: words rest
  | _ => []
  end.

(** The other blob: access id, level and sub bytes of each entry. *)
Abbreviation entry := (Z * Z * bytes)%type.

Definition entry_bytes (e : entry) : bytes :=
  be_bytes 2 (e.1.1 * 4 + (e.1.2 - 1)) ++ e.2.

Definition encode_subs (es : list entry) : bytes := flat_map entry_bytes es.

Fixpoint terminated (subs : bytes) : bool :=
  match subs with
  | [] => false
  | b :: r =>
      if Z.land b SUB_MORE_BIT =? 0 then bool_decide (r = []) else terminated r
  end.

(** Some sub-access bit of the run is set, in the sixteen bits a mask has. *)
Fixpoint carries (subs : bytes) (sub_byte_index : Z) : bool :=
  match subs with
  | [] => false
  | b :: r =>
      negb (wrap 16 (Z.shiftl (Z.land b 127) (sub_byte_index * 7)) =? 0)
      || carries r (sub_byte_index + 1)
  end.

Definition entry_ok (e : entry) : Prop :=
  1 <= e.1.1 <= 16383 /\ 1 <= e.1.2 <= 4 /\ bytes_ok e.2 /\
  terminated e.2 = true /\ carries e.2 0 = true /\ (length e.2 <= 3)%nat.

Definition entries_ok (es : list entry) : Prop :=
  Forall entry_ok es /\ StronglySorted Z.lt (es.*1).*1.

(** Whether the word list grants [required_grant], and the sub bytes the entries grant it. *)
Definition granted_by (ws : list (Z * Z)) (required_grant : Z) : bool :=
  let '(id, nivel) := unpack_grant required_grant in
  existsb (fun w => (w.1 =? id) && (nivel <=? w.2)) ws.

Definition subs_of (es : list entry) (required_grant : Z) : option bytes :=
  let '(id, nivel) := unpack_grant required_grant in
  snd <$> find (fun e => (e.1.1 =? id) && (nivel <=? e.1.2)) es.

(** ** The binary search *)

Lemma pair_ind (P : bytes -> Prop) :
  P [] -> (forall b, P [b]) -> (forall b0 b1 r, P r -> P (b0 :: b1 :: r)) -> forall bs, P bs.
Proof.
  intros H0 H1 H2. fix IH 1. intros [|b0 [|b1 r]]; [done|done|]. apply H2, IH.
Qed.

Lemma length_words bs : length (words bs) = (length bs / 2)%nat.
Proof.
  induction bs as [|b|b0 b1 r IH] using pair_ind; [done..|]. simpl words. simpl length.
  rewrite IH. replace (S (S (length r))) with (length r + 1 * 2)%nat by lia.
  rewrite Nat.div_add by done. lia.
Qed.

Lemma word_at_words bs i : word_at bs (i * 2) = words bs !! i.
Proof.
  revert bs. induction i as [|i IH]; intros [|b0 [|b1 r]]; try done.
  simpl words. change (S i * 2)%nat with (S (S (i * 2))).
  unfold word_at. simpl. apply (IH r).
Qed.

Lemma search_spec fuel bs id nivel low high :
  StronglySorted Z.lt (words bs).*1 ->
  (low <= high <= length (words bs))%nat -> (high - low < fuel)%nat ->
  (forall i w, words bs !! i = Some w -> (i < low)%nat -> w.1 < id) ->
  (forall i w, words bs !! i = Some w -> (high <= i)%nat -> id < w.1) ->
  search fuel bs id nivel low high =
    Some (existsb (fun w => (w.1 =? id) && (nivel <=? w.2)) (words bs)).
Proof.
  intros Hs. revert low high. induction fuel as [|fuel IH]; intros low high Hr Hf Hlo Hhi; [lia|].
  cbn [search]. unfold GRANT_WORD_SIZE. destruct (Nat.ltb_spec low high) as [Hlt|Hge].
  - set (m := ((low + high) / 2)%nat).
    assert (low <= m < high)%nat as Hm.
    { subst m. split; [apply Nat.div_le_lower_bound|apply Nat.Div0.div_lt_upper_bound]; lia. }
    rewrite word_at_words. destruct (words bs !! m) as [[gid gn]|] eqn:Em.
    2: { apply lookup_ge_None in Em. lia. }
    simpl. assert (forall i j u v, words bs !! i = Some u -> words bs !! j = Some v ->
      (i < j)%nat -> u.1 < v.1) as Hord.
    { intros i j u v Hi Hj Hij.
      apply (sorted_lookup Z.lt (words bs).*1 i j); try done;
        by rewrite list_lookup_fmap, ?Hi, ?Hj. }
    destruct (Z.compare_spec gid id) as [->|Hc|Hc].
    + f_equal. destruct (nivel <=? gn) eqn:En.
      * symmetry. apply existsb_exists. exists (id, gn). split.
        { by apply list_elem_of_In, list_elem_of_lookup_2 with m. }
        simpl. by rewrite Z.eqb_refl, En.
      * symmetry. apply not_true_is_false. intros (w & Hin & Hw)%existsb_exists. fw_bool.
        apply list_elem_of_In, list_elem_of_lookup_1 in Hin as [j Hj].
        destruct (lt_eq_lt_dec j m) as [[?| ->]|?].
        -- specialize (Hord _ _ _ _ Hj Em). simpl in Hord. lia.
        -- rewrite Em in Hj. injection Hj as <-. simpl in *. lia.
        -- specialize (Hord _ _ _ _ Em Hj). simpl in Hord. lia.
    + apply IH; [lia|lia| |done]. intros i w Hi Hlt'.
      destruct (decide (i = m)) as [->|]; [by rewrite Em in Hi; injection Hi as <-|].
      specialize (Hord i m w _ Hi Em). simpl in Hord. lia.
    + apply IH; [lia|lia|done|]. intros i w Hi Hle.
      destruct (decide (i = m)) as [->|]; [by rewrite Em in Hi; injection Hi as <-|].
      specialize (Hord m i _ w Em Hi). simpl in Hord. lia.
  - f_equal. symmetry. apply not_true_is_false. intros (w & Hin & Hw)%existsb_exists. fw_bool.
    apply list_elem_of_In, list_elem_of_lookup_1 in Hin as [j Hj].
    destruct (decide (j < low)%nat) as [Hj'|Hj'].
    + specialize (Hlo _ _ Hj Hj'). lia.
    + specialize (Hhi _ _ Hj ltac:(lia)). lia.
Qed.

Lemma holds_in_grants_spec bs g :
  StronglySorted Z.lt (words bs).*1 ->
  holds_in_grants bs g = Some (granted_by (words bs) g).
Proof.
  intros Hs. unfold holds_in_grants, granted_by. destruct (unpack_grant g) as [id nivel].
  unfold GRANT_WORD_SIZE. rewrite <- length_words. apply search_spec; try done; try lia.
  intros i w Hi%lookup_lt_Some Hge. lia.
Qed.

Lemma grants_ascending_Ok bs previous :
  grants_ascending bs previous = Ok tt <->
  Forall (fun id => previous < id) (words bs).*1 /\ StronglySorted Z.lt (words bs).*1.
Proof.
  revert previous. induction bs as [|b|b0 b1 r IH] using pair_ind; intros previous;
    [split; [intros _; repeat constructor|done]..|].
  cbn [grants_ascending words]. set (w := unpack_grant (of_be [b0; b1])). cbv zeta.
  clearbody w. rewrite fmap_cons. destruct (Z.leb_spec w.1 previous) as [Hle|Hlt].
  - split; [done|]. intros [[? _]%Forall_cons _]. lia.
  - rewrite IH. split.
    + intros [Hf Hs]. split; [constructor; [lia|]|by constructor].
      eapply Forall_impl; [exact Hf|]. intros x Hx. cbv beta in *. lia.
    + intros [_ [? ?]%StronglySorted_inv]. done.
Qed.

Lemma validate_grants_Ok bs :
  validate_grants bs = Ok tt <->
  (length bs mod 2 = 0)%nat /\
  Forall (fun id => 0 < id) (words bs).*1 /\ StronglySorted Z.lt (words bs).*1.
Proof.
  unfold validate_grants, GRANT_WORD_SIZE.
  destruct (Nat.eqb_spec (length bs mod 2) 0) as [Hev|Hodd]; simpl.
  - rewrite grants_ascending_Ok. naive_solver.
  - split; [done|]. by intros [? _].
Qed.

(** The grant blob the daemon accepts is exactly a whole number of words with strictly
    ascending positive ids, and on such a blob the binary search answers what a scan of
    every word would: whether the access is held at or above the level asked for. It never
    indexes outside the blob and its loop ends. *)
Theorem grants_search_correct bs :
  validate_grants bs = Ok tt <->
    (length bs mod 2 = 0)%nat /\
    Forall (fun id => 0 < id) (words bs).*1 /\ StronglySorted Z.lt (words bs).*1 /\
    forall g, holds_in_grants bs g = Some (granted_by (words bs) g).
Proof.
  rewrite validate_grants_Ok. split; [|naive_solver]. intros (? & ? & ?).
  split_and!; try done. intros g. by apply holds_in_grants_spec.
Qed.

(** ** The variable-width blob *)

Lemma unpack_grant_eq w : unpack_grant w = (w / 4, w mod 4 + 1).
Proof.
  unfold unpack_grant. rewrite Z.shiftr_div_pow2 by lia.
  change 3 with (Z.ones 2). by rewrite Z.land_ones by lia.
Qed.

Lemma unpack_packed id nivel :
  0 <= id <= 16383 -> 1 <= nivel <= 4 ->
  unpack_grant (of_be (be_bytes 2 (id * 4 + (nivel - 1)))) = (id, nivel).
Proof.
  intros. rewrite of_be_be_bytes_small by (simpl; lia). rewrite unpack_grant_eq.
  f_equal; Z.div_mod_to_equations; lia.
Qed.

Lemma packed_unpack b0 b1 :
  in_u8 b0 -> in_u8 b1 ->
  let u := unpack_grant (of_be [b0; b1]) in
  be_bytes 2 (u.1 * 4 + (u.2 - 1)) = [b0; b1] /\ 0 <= u.1 <= 16383 /\ 1 <= u.2 <= 4.
Proof.
  intros H0 H1 u. assert (bytes_ok [b0; b1]) as Hok by by constructor; [|constructor].
  pose proof (of_be_bound _ Hok) as Hb. simpl in Hb. subst u. rewrite unpack_grant_eq.
  set (w := of_be [b0; b1]) in *. cbn [fst snd].
  split; [|Z.div_mod_to_equations; lia].
  replace (w / 4 * 4 + (w mod 4 + 1 - 1)) with w by (Z.div_mod_to_equations; lia).
  subst w. apply (be_bytes_of_be [b0; b1] Hok).
Qed.

Lemma sub_run_app subs rest :
  terminated subs = true -> sub_run (subs ++ rest) = (subs, rest).
Proof.
  induction subs as [|b r IH]; [done|]. cbn [terminated sub_run app].
  destruct (Z.land b SUB_MORE_BIT =? 0); [intros ->%bool_decide_eq_true; done|].
  intros Ht. by rewrite IH.
Qed.

Lemma sub_mask_loop_app id subs rest i mask :
  terminated subs = true -> 0 <= i -> i + zlen subs <= 3 ->
  exists m, sub_mask_loop id (subs ++ rest) i mask = Ok (m, rest) /\
    (m = 0 <-> mask = 0 /\ carries subs i = false).
Proof.
  revert i mask. induction subs as [|b r IH]; intros i mask Ht Hi Hlen; [done|].
  cbn [terminated sub_mask_loop carries app length] in *.
  destruct (Z.leb_spec 16 (i * 7)); [lia|]. cbv zeta.
  set (part := wrap 16 (Z.shiftl (Z.land b 127) (i * 7))).
  destruct (Z.land b SUB_MORE_BIT =? 0).
  - apply bool_decide_eq_true in Ht as ->. eexists. split; [done|]. simpl.
    rewrite orb_false_r, Z.lor_eq_0_iff, negb_false_iff, Z.eqb_eq. done.
  - destruct (IH (i + 1) (Z.lor mask part) Ht) as (m & -> & Hm); [lia..|].
    exists m. split; [done|].
    rewrite Hm, Z.lor_eq_0_iff, orb_false_iff, negb_false_iff, Z.eqb_eq. tauto.
Qed.

Lemma sub_mask_loop_sound id bs i mask m rest :
  0 <= i -> sub_mask_loop id bs i mask = Ok (m, rest) ->
  exists subs, bs = subs ++ rest /\ terminated subs = true /\ i + zlen subs <= 3.
Proof.
  revert i mask. induction bs as [|b r IH]; intros i mask Hi E; [done|].
  cbn [sub_mask_loop] in E. destruct (Z.leb_spec 16 (i * 7)); [done|]. cbv zeta in E.
  destruct (Z.land b SUB_MORE_BIT =? 0) eqn:Eb.
  - injection E as _ <-. exists [b]. simpl. rewrite Eb. split_and!; try done. lia.
  - apply IH in E as (subs & -> & Ht & Hl); [|lia]. exists (b :: subs). simpl.
    rewrite Eb. split_and!; try done. lia.
Qed.

Lemma validate_sub_loop_sound fuel bs previous :
  bytes_ok bs -> 0 <= previous -> validate_sub_loop fuel bs previous = Ok tt ->
  exists es, bs = encode_subs es /\ entries_ok es /\
    Forall (fun id => previous < id) (es.*1).*1.
Proof.
  revert bs previous. induction fuel as [|fuel IH]; intros bs previous Hok Hp E; [done|].
  destruct bs as [|b0 [|b1 r]]; cbn [validate_sub_loop] in E; try done.
  { exists []. by repeat constructor. }
  apply Forall_cons in Hok as [H0 [H1 Hr]%Forall_cons].
  destruct (packed_unpack b0 b1 H0 H1) as (Epack & Hid & Hn).
  set (u := unpack_grant (of_be [b0; b1])) in *. cbv zeta in E. clearbody u.
  destruct (Z.leb_spec u.1 previous) as [|Hlt]; [done|].
  apply result_bind_ok in E as ([m rest] & Em & E).
  destruct (Z.eqb_spec m 0) as [|Hm]; [done|].
  destruct (sub_mask_loop_sound _ _ _ _ _ _ (Z.le_refl 0) Em) as (subs & -> & Ht & Hl).
  destruct (sub_mask_loop_app u.1 subs rest 0 0 Ht (Z.le_refl 0) Hl) as (m' & Em' & Hm').
  rewrite Em' in Em. injection Em as ->.
  apply bytes_ok_app in Hr as [Hsubs Hrest].
  apply IH in E as (es & -> & [Hes Hs] & Hgt); [|done|lia].
  exists ((u.1, u.2, subs) :: es). split_and!.
  - unfold encode_subs. cbn [flat_map].
    change (entry_bytes (u.1, u.2, subs)) with (be_bytes 2 (u.1 * 4 + (u.2 - 1)) ++ subs).
    by rewrite Epack, <- app_assoc.
  - split; [constructor; [|done]|].
    + unfold entry_ok. cbn [fst snd]. split_and!; try done; try lia.
      destruct (carries subs 0); [done|]. by destruct Hm; apply Hm'.
    + csimpl. by constructor.
  - csimpl. constructor; [done|]. eapply Forall_impl; [exact Hgt|]. intros x Hx. cbv beta in *. lia.
Qed.

Lemma validate_sub_loop_complete fuel es previous :
  entries_ok es -> Forall (fun id => previous < id) (es.*1).*1 ->
  (length (encode_subs es) < fuel)%nat ->
  validate_sub_loop fuel (encode_subs es) previous = Ok tt.
Proof.
  revert fuel previous. induction es as [|[[id n] subs] es IH]; intros [|fuel] previous Hok Hgt Hf;
    [lia|done|simpl in Hf; lia|].
  destruct Hok as [[(Hid & Hn & Hbs & Ht & Hc & Hl) Hes]%Forall_cons Hs].
  change (encode_subs ((id, n, subs) :: es))
    with ((be_bytes 2 (id * 4 + (n - 1)) ++ subs) ++ encode_subs es) in *.
  rewrite !fmap_cons in *. cbn [fst snd] in *.
  apply StronglySorted_inv in Hs as [Hs Hlt]. apply Forall_cons in Hgt as [Hgt _].
  pose proof (unpack_packed id n ltac:(lia) Hn) as Eu.
  destruct (be_bytes 2 (id * 4 + (n - 1))) as [|b0 [|b1 [|? ?]]] eqn:Eb; try done.
  rewrite <- app_assoc in *. cbn [app length] in *.
  cbn [validate_sub_loop]. rewrite Eu. cbn [fst]. cbv zeta.
  destruct (Z.leb_spec id previous); [lia|].
  destruct (sub_mask_loop_app id subs (encode_subs es) 0 0 Ht) as (m & Em & Hm); [lia..|].
  rewrite Em. unfold mbind, result_bind.
  destruct (Z.eqb_spec m 0) as [E|]; [apply Hm in E as [_ E]; congruence|].
  apply IH; [done|done|]. rewrite length_app in Hf. lia.
Qed.

Lemma find_loop_spec fuel es id nivel :
  entries_ok es -> (length (encode_subs es) <= fuel)%nat ->
  find_loop fuel (encode_subs es) id nivel =
    snd <$> find (fun e => (e.1.1 =? id) && (nivel <=? e.1.2)) es.
Proof.
  revert fuel. induction es as [|[[gid n] subs] es IH]; intros fuel Hok Hf.
  { by destruct fuel. }
  destruct Hok as [[(Hid & Hn & _ & Ht & _) Hes]%Forall_cons Hs].
  change (encode_subs ((gid, n, subs) :: es))
    with ((be_bytes 2 (gid * 4 + (n - 1)) ++ subs) ++ encode_subs es) in *.
  rewrite !fmap_cons in *. cbn [fst snd] in *. apply StronglySorted_inv in Hs as [Hs Hlt].
  pose proof (unpack_packed gid n ltac:(lia) Hn) as Eu.
  destruct (be_bytes 2 (gid * 4 + (n - 1))) as [|b0 [|b1 [|? ?]]] eqn:Eb; try done.
  rewrite <- app_assoc in *. destruct fuel as [|fuel]; [simpl in Hf; lia|].
  cbn [app find_loop find fst snd]. rewrite Eu, sub_run_app by done.
  assert (forall P, (forall e, P e = true -> e.1.1 <= gid) -> find P es = None) as Hnone.
  { intros P HP. destruct (find P es) as [e|] eqn:E; [|done]. apply find_some in E as [Hin HPe].
    apply HP in HPe. apply list_elem_of_In in Hin. rewrite Forall_forall in Hlt.
    specialize (Hlt e.1.1). ospecialize (Hlt _); [|lia]. by do 2 apply list_elem_of_fmap_2. }
  destruct (Z.eqb_spec gid id) as [->|Hne]; simpl.
  - destruct (nivel <=? n); [done|]. rewrite Hnone; [done|]. intros e ?. fw_bool. lia.
  - destruct (Z.ltb_spec id gid); [rewrite Hnone; [done|]; intros e ?; fw_bool; lia|].
    apply IH; [done|]. simpl in Hf. rewrite length_app in Hf. lia.
Qed.

(** The sub-grant blob the daemon accepts is exactly an ascending sequence of well-formed
    entries, each with a terminated, in-range, nonempty run of sub bytes; and on such a blob
    the scan returns the run of the entry that grants the access at the level asked for, byte
    for byte, and nothing when there is none. *)
Theorem sub_grants_search_correct bs :
  bytes_ok bs ->
  validate_sub_grants bs = Ok tt <->
    exists es, bs = encode_subs es /\ entries_ok es /\
      forall g, find_in_sub_grants bs g = subs_of es g.
Proof.
  intros Hok. unfold validate_sub_grants. split.
  - intros (es & -> & Hes & _)%validate_sub_loop_sound; [|done|lia].
    exists es. split_and!; try done. intros g. unfold find_in_sub_grants, subs_of.
    destruct (unpack_grant g). by apply find_loop_spec.
  - intros (es & -> & Hes & _). apply validate_sub_loop_complete; [done| |lia].
    destruct Hes as [Hes _]. rewrite !Forall_fmap. apply (Forall_impl _ _ _ Hes).
    intros e (? & _). simpl. lia.
Qed.

(** ** Verdicts *)

(** The slots the caller filled: up to the first zero. *)
Fixpoint filled (required : list Z) : list Z :=
  match required with
  | [] => []
  | g :: rest => if g =? 0 then [] else g :: filled rest
  end.

(** What a cached state means: its words and its entries. *)
Definition state_reads (st : UserAccessState) (ws : list (Z * Z)) (es : list entry) : Prop :=
  ws = words (grants st) /\ StronglySorted Z.lt ws.*1 /\
  sub_grants st = encode_subs es /\ entries_ok es.

Section Verdict.
Variables (ws : list (Z * Z)) (es : list entry).

Definition holds (g : Z) : bool := granted_by ws g || bool_decide (is_Some (subs_of es g)).
Definition run_of (g : Z) : bytes :=
  if granted_by ws g then [] else default [] (subs_of es g).

Lemma subs_of_ok g subs :
  entries_ok es -> subs_of es g = Some subs -> subs <> [] /\ (length subs <= 3)%nat.
Proof.
  intros [Hes _]. unfold subs_of. destruct (unpack_grant g). intros (e & E & ->)%fmap_Some.
  apply find_some in E as [Hin%list_elem_of_In _]. rewrite Forall_forall in Hes.
  destruct (Hes e Hin) as (_ & _ & _ & Ht & _ & Hl). split; [|done].
  intros En. by rewrite En in Ht.
Qed.

Lemma run_of_length g : entries_ok es -> (length (run_of g) <= 3)%nat.
Proof.
  intros Hok. unfold run_of. destruct (granted_by ws g); [simpl; lia|].
  destruct (subs_of es g) eqn:E; [|simpl; lia]. by destruct (subs_of_ok g l Hok E).
Qed.

Lemma set_bit m i k :
  0 <= i -> 0 <= k -> Z.testbit (Z.lor m (Z.shiftl 1 i)) k = Z.testbit m k || (i =? k).
Proof. intros. by rewrite Z.lor_spec, Z.shiftl_1_l, Z.pow2_bits_eqb by done. Qed.

Lemma set_bit_bound m i : 0 <= i -> 0 <= m < 2 ^ i -> 0 <= Z.lor m (Z.shiftl 1 i) < 2 ^ (i + 1).
Proof. intros Hi Hm. rewrite lor_shifted by done. rewrite Z.pow_add_r by lia. lia. Qed.

(** The bits a run of slots sets in a mask that ends at bit [i]. *)
Definition bits_added (P : Z -> bool) (slots : list Z) (i : Z) (m m' : Z) : Prop :=
  0 <= m' < 2 ^ (i + zlen slots) /\
  forall k, 0 <= k ->
    Z.testbit m' k = Z.testbit m k ||
      ((i <=? k) && from_option P false (slots !! Z.to_nat (k - i))).

Lemma bits_added_nil P i m : 0 <= m < 2 ^ i -> bits_added P [] i m m.
Proof. intros. split; [by rewrite Z.add_0_r|]. intros. simpl. by rewrite andb_false_r, orb_false_r. Qed.

Lemma bits_added_cons (P : Z -> bool) g slots i m m1 m' :
  0 <= i -> 0 <= m < 2 ^ i ->
  m1 = (if P g then Z.lor m (Z.shiftl 1 i) else m) ->
  bits_added P slots (i + 1) m1 m' -> bits_added P (g :: slots) i m m'.
Proof.
  intros Hi Hm -> [Hb Hk]. split.
  { replace (i + zlen (g :: slots)) with (i + 1 + zlen slots) by (simpl; lia). done. }
  intros k H0. rewrite Hk by done. clear Hk Hb.
  destruct (Z.leb_spec i k) as [Hik|Hik]; destruct (Z.leb_spec (i + 1) k); try lia; cbn [andb].
  - replace (Z.to_nat (k - i)) with (S (Z.to_nat (k - (i + 1)))) by lia. simpl. f_equal.
    destruct (P g); [|done]. rewrite set_bit by done.
    rewrite (proj2 (Z.eqb_neq i k)) by lia. by rewrite orb_false_r.
  - replace k with i by lia. rewrite Z.sub_diag. simpl.
    destruct (P g); [|done]. by rewrite set_bit, Z.eqb_refl, !orb_false_r by done.
  - destruct (P g); [|done]. rewrite set_bit by done.
    rewrite (proj2 (Z.eqb_neq i k)) by lia. by rewrite !orb_false_r.
Qed.

Lemma verdict_loop_spec st required i v :
  state_reads st ws es -> 0 <= i ->
  0 <= granted_mask v < 2 ^ i -> 0 <= has_subs_mask v < 2 ^ i ->
  exists v', verdict_loop st required i v = Some v' /\
    bits_added holds (filled required) i (granted_mask v) (granted_mask v') /\
    bits_added (fun g => negb (bool_decide (run_of g = []))) (filled required) i
      (has_subs_mask v) (has_subs_mask v') /\
    sub_bytes v' = sub_bytes v ++ flat_map run_of (filled required).
Proof.
  intros (Hws & Hs & Hsub & Hes). revert i v.
  assert (forall g, holds_in_grants (grants st) g = Some (granted_by ws g)) as Hg
    by (intros; rewrite Hws in *; by apply holds_in_grants_spec).
  assert (forall g, find_in_sub_grants (sub_grants st) g = subs_of es g) as Hf.
  { intros g. rewrite Hsub. unfold find_in_sub_grants, subs_of.
    destruct (unpack_grant g). by apply find_loop_spec. }
  induction required as [|g rest IH]; intros i v Hi Hm1 Hm2; cbn [verdict_loop filled].
  { exists v. split_and!; [done|by apply bits_added_nil..|simpl; by rewrite app_nil_r]. }
  destruct (g =? 0).
  { exists v. split_and!; [done|by apply bits_added_nil..|simpl; by rewrite app_nil_r]. }
  cbv zeta. rewrite Hg, Hf. cbn [mbind option_bind flat_map].
  assert (forall m, 0 <= m < 2 ^ i -> 0 <= m < 2 ^ (i + 1)) as Hup.
  { intros m ?. rewrite Z.pow_add_r by lia. lia. }
  pose proof (set_bit_bound (granted_mask v) i Hi Hm1).
  pose proof (set_bit_bound (has_subs_mask v) i Hi Hm2).
  destruct (granted_by ws g) eqn:Egr; [|destruct (subs_of es g) as [subs|] eqn:Esub].
  - edestruct (IH (i + 1)) as (v' & -> & Hb1 & Hb2 & Hb3); [lia| | |exists v']; cbn [granted_mask has_subs_mask]; auto.
    split_and!; [done| | |].
    + eapply bits_added_cons; [done|done| |exact Hb1]. unfold holds. by rewrite Egr.
    + eapply bits_added_cons; [done|done| |exact Hb2]. unfold run_of. by rewrite Egr.
    + rewrite Hb3. unfold run_of at 2. by rewrite Egr.
  - edestruct (IH (i + 1)) as (v' & -> & Hb1 & Hb2 & Hb3); [lia| | |exists v']; cbn [granted_mask has_subs_mask]; auto.
    split_and!; [done| | |].
    + eapply bits_added_cons; [done|done| |exact Hb1]. unfold holds. by rewrite Egr, Esub.
    + eapply bits_added_cons; [done|done| |exact Hb2]. unfold run_of. rewrite Egr, Esub. simpl.
      rewrite bool_decide_eq_false_2; [done|]. by apply (subs_of_ok g).
    + rewrite Hb3. unfold run_of at 2. rewrite Egr, Esub. cbn. by rewrite <- app_assoc.
  - edestruct (IH (i + 1)) as (v' & -> & Hb1 & Hb2 & Hb3); [lia| | |exists v']; auto.
    split_and!; [done| | |].
    + eapply bits_added_cons; [done|done| |exact Hb1]. unfold holds. by rewrite Egr, Esub.
    + eapply bits_added_cons; [done|done| |exact Hb2]. unfold run_of. by rewrite Egr, Esub.
    + rewrite Hb3. unfold run_of at 2. by rewrite Egr, Esub.
Qed.

Lemma bits_added_lookup (P : Z -> bool) slots m :
  bits_added P slots 0 0 m ->
  forall k : nat, Z.testbit m (Z.of_nat k) = true <->
    exists g, slots !! k = Some g /\ P g = true.
Proof.
  intros [_ H] k. rewrite H by lia. rewrite Z.bits_0, Z.sub_0_r, Nat2Z.id.
  rewrite (proj2 (Z.leb_le 0 _)) by lia. simpl. destruct (slots !! k); naive_solver.
Qed.

Lemma bits_added_bound P slots m m' :
  (length slots <= 4)%nat -> bits_added P slots 0 m m' -> 0 <= m' < 16.
Proof.
  intros Hl [[? Hb] _]. split; [done|]. eapply Z.lt_le_trans; [done|].
  change 16 with (2 ^ 4). apply Z.pow_le_mono_r; lia.
Qed.

Lemma flat_map_runs_length slots :
  entries_ok es -> (length (flat_map run_of slots) <= 3 * length slots)%nat.
Proof.
  intros Hes. induction slots as [|g r IH]; simpl; [done|].
  rewrite length_app. pose proof (run_of_length g Hes). lia.
Qed.

End Verdict.

Lemma filled_length required : (length (filled required) <= length required)%nat.
Proof. induction required as [|g r IH]; simpl; [done|]. destruct (g =? 0); simpl; lia. Qed.

(** A row that loads reads as some words and entries; an absent row reads as none. *)
Lemma from_row_reads row t st :
  from_option (fun r => bytes_ok (sub_grants_blob r)) True row ->
  from_row row t = Ok st ->
  (exists ws es, state_reads st ws es) /\ found st = bool_decide (is_Some row) /\
  status st = from_option sua_status 0 row.
Proof.
  destruct row as [row|]; simpl; intros Hok E.
  - apply result_bind_ok in E as ([] & Eg & E). apply result_bind_ok in E as ([] & Es & E).
    injection E as <-. split; [|done].
    apply validate_grants_Ok in Eg as (_ & _ & Hs).
    apply validate_sub_loop_sound in Es as (es & E & Hes & _); [|done|lia].
    exists (words (grants_blob row)), es. by split_and!.
  - injection E as <-. split; [|done]. exists [], []. by repeat constructor.
Qed.

Lemma verdict_some st required ws es :
  state_reads st ws es -> is_Some (verdict st required).
Proof.
  intros Hr. unfold verdict. repeat (case_match; [done|]).
  destruct (verdict_loop_spec ws es st required 0 verdict_default Hr) as (v & -> & _); done.
Qed.

(** [verdict] answers identity before permission, and permission exactly. For a state
    built from a row, an absent user is [UnknownUser] and an inactive one [InactiveUser]
    whatever they hold; otherwise bit [k] of the mask is set exactly when slot [k], counted
    up to the first empty slot, is held in either blob at the level asked for, the sub bytes
    are the runs of the slots that have one, in slot order and verbatim, and the denial is
    [NoAccess] exactly when no slot is held. No index goes out of range. *)
Theorem verdict_correct row t st required :
  from_option (fun r => bytes_ok (sub_grants_blob r)) True row ->
  from_row row t = Ok st -> (length required <= MAX_REQUIRED_ACCESS)%nat ->
  exists ws es, state_reads st ws es /\
  match verdict st required with
  | None => False
  | Some (Err UnknownUser) => row = None
  | Some (Err InactiveUser) => exists r, row = Some r /\ sua_status r <> ACTIVE_USER_STATUS
  | Some (Err NoAccess) =>
      (exists r, row = Some r /\ sua_status r = ACTIVE_USER_STATUS) /\
      Forall (fun g => holds ws es g = false) (filled required)
  | Some (Ok v) =>
      (exists r, row = Some r /\ sua_status r = ACTIVE_USER_STATUS) /\
      0 < granted_mask v < 16 /\ 0 <= has_subs_mask v < 16 /\
      (forall k : nat, Z.testbit (granted_mask v) (Z.of_nat k) = true <->
         exists g, filled required !! k = Some g /\ holds ws es g = true) /\
      (forall k : nat, Z.testbit (has_subs_mask v) (Z.of_nat k) = true <->
         exists g, filled required !! k = Some g /\ run_of ws es g <> []) /\
      sub_bytes v = flat_map (run_of ws es) (filled required) /\ (length (sub_bytes v) <= 12)%nat
  end.
Proof.
  intros Hok E Hlen. destruct (from_row_reads _ _ _ Hok E) as ((ws & es & Hr) & Ef & Es).
  exists ws, es. split; [done|]. unfold verdict. rewrite Ef, Es.
  destruct row as [row|]; [|done]. rewrite bool_decide_eq_true_2 by done. simpl.
  destruct (Z.eqb_spec (sua_status row) ACTIVE_USER_STATUS) as [Ea|Ea]; simpl; [|by eauto].
  destruct (verdict_loop_spec ws es st required 0 verdict_default Hr) as (v & -> & Hg & Hs & Hb);
    [done..|]. simpl in Hb. cbn [mbind option_bind]. unfold is_granted.
  assert (filled_short : (length (filled required) <= 4)%nat) by (etrans; [apply filled_length|done]).
  destruct (Z.eqb_spec (granted_mask v) 0) as [E0|E0]; simpl.
  - split; [by eauto|]. apply Forall_lookup. intros k g Hk. destruct Hg as [_ Hg].
    specialize (Hg (Z.of_nat k)). rewrite E0, !Z.bits_0, Z.sub_0_r, Nat2Z.id, Hk in Hg.
    rewrite (proj2 (Z.leb_le 0 _)) in Hg by lia. by rewrite Hg by lia.
  - split; [by eauto|].
    pose proof (bits_added_bound _ _ _ _ filled_short Hg).
    pose proof (bits_added_bound _ _ _ _ filled_short Hs).
    split; [lia|]. split; [lia|]. split_and!.
    + by apply bits_added_lookup.
    + intros k. rewrite (bits_added_lookup _ _ _ Hs k). f_equiv. intros g.
      by rewrite negb_true_iff, bool_decide_eq_false.
    + done.
    + rewrite Hb. etrans; [by apply flat_map_runs_length, Hr|]. lia.
Qed.

(** ** Witnesses *)

(** The blobs of the module's own test: accesses 7, 8, 14 and 15 without sub-accesses,
    10 and 16 with. *)
Definition sample_grants : bytes := [0x00; 0x1F; 0x00; 0x23; 0x00; 0x38; 0x00; 0x3C].
Definition sample_subs : bytes := [0x00; 0x29; 0x06; 0x00; 0x43; 0x81; 0x20].
Definition sample_row : StoredUserAccess := mkStoredUserAccess sample_grants sample_subs 1.
Definition sample_state : UserAccessState :=
  mkUserAccessState sample_grants sample_subs 1 true 1000.

Theorem sub_grants_search_correct_witness :
  exists es, sample_subs = encode_subs es /\ entries_ok es /\
    forall g, find_in_sub_grants sample_subs g = subs_of es g.
Proof. apply (sub_grants_search_correct sample_subs); [unfold sample_subs; solve_bytes|reflexivity]. Defined.

(** Slots: access 7 at level 1, access 14 at level 2 (held at 1), access 16 at level 1. *)
Theorem verdict_correct_witness :
  verdict sample_state [28; 57; 64; 0] = Some (Ok (mkAccessVerdict 5 4 [0x81; 0x20])) /\
  exists ws es, state_reads sample_state ws es /\
    sub_bytes (mkAccessVerdict 5 4 [0x81; 0x20]) = flat_map (run_of ws es) [28; 57; 64].
Proof.
  split; [reflexivity|].
  destruct (verdict_correct (Some sample_row) 1000 sample_state [28; 57; 64; 0])
    as (ws & es & Hr & H); [simpl; unfold sample_subs; solve_bytes|reflexivity|unfold MAX_REQUIRED_ACCESS; simpl; lia|].
  exists ws, es. split; [done|].
  change (verdict sample_state [28; 57; 64; 0])
    with (Some (Ok (E:=AccessDenial) (mkAccessVerdict 5 4 [0x81; 0x20]))) in H.
  apply H.
Defined.
