(* ===== verification/ChargeProtocol.v ===== *)
(** * ChargeProtocol: the charge and budget payloads

    src/src/limiter/protocol.rs (the charge frame, its checks, and the one-byte violation
    code) and src/src/limiter/budget.rs (the budget mutation). The colbin codec both decode
    with is not in this repository: it is a parameter, and what is modelled is everything
    the source does with the frame it returns. *)

From stdpp Require Import strings.
From S2P Require Import Prelude CreditsBlob Access.

(** ** Charges (protocol.rs) *)

Record ChargeFrame := mkChargeFrame {
  cf_company_id : Z;
  cf_user_id : Z;
  cf_route_id : Z;
  cf_cpu : Z;
  cf_inference : Z;
  extra_allowed : bool;
  access1 : Z;
  access2 : Z;
  access3 : Z;
  access4 : Z;
}.

Record Request := mkRequest {
  company_id : Z;
  user_id : Z;
  route_id : Z;
  credits : Credits;
  required_access : list Z;
  extra_credits_allowed : bool;
}.

#[export] Instance Request_eq_dec : EqDecision Request.
Proof. solve_decision. Defined.

Definition requests_authorization (self : Request) : bool :=
  match required_access self with g :: _ => negb (g =? 0) | [] => false end.

Inductive Scope := Company | User.
Inductive Window := TenSeconds | Hour | Day | Month.

#[export] Instance Scope_eq_dec : EqDecision Scope.
Proof. solve_decision. Defined.
#[export] Instance Window_eq_dec : EqDecision Window.
Proof. solve_decision. Defined.

Record LimitViolation := mkLimitViolation {
  lv_scope : Scope;
  lv_window : Window;
  lv_cpu : bool;
  lv_inference : bool;
}.

#[export] Instance LimitViolation_eq_dec : EqDecision LimitViolation.
Proof. solve_decision. Defined.

(** [self.scope as u8], [self.window as u8]. *)
Definition scope_code (s : Scope) : Z := match s with Company => 0 | User => 1 end.
Definition window_code (w : Window) : Z :=
  match w with TenSeconds => 0 | Hour => 1 | Day => 2 | Month => 3 end.

Definition response_byte (self : LimitViolation) : Z :=
  Z.lor (scope_code (lv_scope self))
    (Z.lor (Z.shiftl (window_code (lv_window self)) 1)
       (Z.lor (Z.shiftl (Z.b2z (lv_inference self)) 3) (Z.shiftl (Z.b2z (lv_cpu self)) 4))).

Inductive ProtocolError :=
| ChargeMalformed
| InvalidCompany
| InvalidUser
| InvalidRouteID (route : Z)
| EmptyCharge
| SparseRequiredAccess.

#[export] Instance ProtocolError_eq_dec : EqDecision ProtocolError.
Proof. solve_decision. Defined.

Definition parse_charge (decode : bytes -> option ChargeFrame) (payload : bytes) :
    result ProtocolError Request :=
  frame ← ok_or ChargeMalformed (decode payload);
  let required_access := [access1 frame; access2 frame; access3 frame; access4 frame] in
  if cf_company_id frame <=? 0 then Err InvalidCompany
  else if cf_user_id frame <=? 0 then Err InvalidUser
  else if MAX_ROUTE_ID <? cf_route_id frame then Err (InvalidRouteID (cf_route_id frame))
  else
    let filled := length (filled required_access) in
    if existsb (fun slot => negb (slot =? 0)) (drop filled required_access)
    then Err SparseRequiredAccess
    else if (cf_cpu frame =? 0) && (cf_inference frame =? 0) && (filled =? 0)%nat
    then Err EmptyCharge
    else Ok (mkRequest (cf_company_id frame) (cf_user_id frame) (cf_route_id frame)
               (mkCredits (cf_cpu frame) (cf_inference frame)) required_access
               (extra_allowed frame)).

(** ** Budget mutations (budget.rs) *)

Inductive BudgetOperation := SetDaily | SetCurrent | IncreaseCurrent.

Record BudgetMutation := mkBudgetMutation {
  bm_company_id : Z;
  operation : BudgetOperation;
  bm_credits : Credits;
}.

Inductive BudgetMutationReply := BudgetOk | CurrentMonthNotConfigured | Overflow.

#[export] Instance BudgetMutationReply_eq_dec : EqDecision BudgetMutationReply.
Proof. solve_decision. Defined.

Record BudgetMutationFrame := mkBudgetMutationFrame {
  bf_company_id : Z;
  bf_operation : Z;
  bf_cpu : Z;
  bf_inference : Z;
}.

Inductive BudgetProtocolError :=
| BudgetMalformed
| BudgetInvalidCompany
| InvalidOperation (value : Z)
| CreditOverflow.

Definition parse_budget_mutation (decode : bytes -> option BudgetMutationFrame)
    (payload : bytes) : result BudgetProtocolError BudgetMutation :=
  frame ← ok_or BudgetMalformed (decode payload);
  if bf_company_id frame <=? 0 then Err BudgetInvalidCompany
  else
    operation ←
      (if bf_operation frame =? 1 then Ok SetDaily
       else if bf_operation frame =? 2 then Ok SetCurrent
       else if bf_operation frame =? 3 then Ok IncreaseCurrent
       else Err (InvalidOperation (bf_operation frame)));
    if (I64_MAX <? bf_cpu frame) || (I64_MAX <? bf_inference frame) then Err CreditOverflow
    else Ok (mkBudgetMutation (bf_company_id frame) operation
               (mkCredits (bf_cpu frame) (bf_inference frame))).

(** ** Properties *)

(** A violation names a resource; the limiter never builds one that does not. *)
Definition names_resource (v : LimitViolation) : bool := lv_cpu v || lv_inference v.

(** The one-byte code of a refusal says everything about it: it is a byte, no two
    violations share one, and one that names a resource is at least 8, so it is never the
    zero that means allowed. *)
Theorem response_byte_faithful v w :
  0 <= response_byte v < 32 /\
  (names_resource v = true <-> 8 <= response_byte v) /\
  (response_byte v = response_byte w -> v = w).
Proof.
  destruct v as [[] [] [] []], w as [[] [] [] []]; cbv -[Z.le Z.lt]; split_and!; try done; lia.
Qed.

Lemma all_zero_iff l :
  existsb (fun slot => negb (slot =? 0)) l = false <-> l = replicate (length l) 0.
Proof.
  induction l as [|g r IH]; simpl; [done|].
  rewrite orb_false_iff, IH, negb_false_iff, Z.eqb_eq.
  split; [intros [-> E]; by rewrite <- E|intros [= -> E]; by rewrite <- E].
Qed.

Lemma dense_iff l :
  existsb (fun slot => negb (slot =? 0)) (drop (length (filled l)) l) = false <->
  l = filled l ++ replicate (length l - length (filled l)) 0.
Proof.
  induction l as [|g r IH]; [done|]. cbn [filled]. destruct (g =? 0).
  - rewrite drop_0, all_zero_iff. by rewrite Nat.sub_0_r.
  - simpl. rewrite IH. split; [intros E; by rewrite <- E|intros [= E]; by rewrite <- E].
Qed.

(** [parse_charge] accepts a decoded frame exactly when company and user are positive,
    the route fits the encoding, the access slots fill from the front without a gap, and the
    frame asks for something (credits or an access); it then carries every field over
    unchanged, so the slots [verdict] walks are all the slots the client sent. *)
Theorem parse_charge_accepts decode payload f r :
  decode payload = Some f ->
  parse_charge decode payload = Ok r <->
    let slots := [access1 f; access2 f; access3 f; access4 f] in
    r = mkRequest (cf_company_id f) (cf_user_id f) (cf_route_id f)
          (mkCredits (cf_cpu f) (cf_inference f)) slots (extra_allowed f) /\
    0 < cf_company_id f /\ 0 < cf_user_id f /\ cf_route_id f <= MAX_ROUTE_ID /\
    slots = filled slots ++ replicate (4 - length (filled slots)) 0 /\
    (cf_cpu f <> 0 \/ cf_inference f <> 0 \/ requests_authorization r = true).
Proof.
  intros E. unfold parse_charge. rewrite E. simpl ok_or. cbn [mbind result_bind].
  set (slots := [access1 f; access2 f; access3 f; access4 f]).
  destruct (Z.leb_spec (cf_company_id f) 0); [split; [done|lia]|].
  destruct (Z.leb_spec (cf_user_id f) 0); [split; [done|lia]|].
  destruct (Z.ltb_spec MAX_ROUTE_ID (cf_route_id f)); [split; [done|lia]|]. cbv zeta.
  assert (Hsparse : existsb (fun slot => negb (slot =? 0)) (drop (length (filled slots)) slots) = false
    <-> slots = filled slots ++ replicate (4 - length (filled slots)) 0).
  { apply (dense_iff slots). }
  assert (Hfirst : (length (filled slots) =? 0)%nat = (access1 f =? 0)).
  { subst slots. cbn [filled]. by destruct (access1 f =? 0). }
  destruct (existsb _ _) eqn:Ex.
  { split; [done|]. intros (_ & _ & _ & _ & H' & _). apply Hsparse in H'. congruence. }
  rewrite Hfirst.
  assert (Hauth : forall r, required_access r = slots ->
    requests_authorization r = true <-> access1 f <> 0).
  { intros r' Er. unfold requests_authorization. rewrite Er. simpl.
    by rewrite negb_true_iff, Z.eqb_neq. }
  destruct ((cf_cpu f =? 0) && (cf_inference f =? 0) && (access1 f =? 0)) eqn:Ec.
  - fw_bool. split; [done|]. intros (-> & _ & _ & _ & _ & Hor).
    rewrite Hauth in Hor by done. lia.
  - rewrite !andb_false_iff, !Z.eqb_neq in Ec. split.
    + intros [= <-]. rewrite Hauth by done. split_and!; try done; [by apply Hsparse|tauto].
    + by intros [-> _].
Qed.

(** A decoded budget mutation is accepted exactly when it names a company, one of the
    three operations, and amounts that fit the signed 64-bit columns they are stored in. *)
Theorem parse_budget_mutation_accepts decode payload f m :
  decode payload = Some f ->
  parse_budget_mutation decode payload = Ok m <->
    bm_company_id m = bf_company_id f /\ bm_credits m = mkCredits (bf_cpu f) (bf_inference f) /\
    0 < bf_company_id f /\ bf_cpu f <= I64_MAX /\ bf_inference f <= I64_MAX /\
    bf_operation f =
      match operation m with SetDaily => 1 | SetCurrent => 2 | IncreaseCurrent => 3 end.
Proof.
  intros E. unfold parse_budget_mutation. rewrite E. simpl ok_or. cbn [mbind result_bind].
  destruct m as [mc mo mcr]; simpl.
  destruct (Z.leb_spec (bf_company_id f) 0); [split; [done|lia]|].
  rewrite result_bind_ok.
  destruct (Z.ltb_spec I64_MAX (bf_cpu f)); simpl.
  { split; [by intros (? & _ & ?)|lia]. }
  destruct (Z.ltb_spec I64_MAX (bf_inference f)).
  { split; [by intros (? & _ & ?)|lia]. }
  split.
  - intros (op & Eop & [= <- <- <-]). split_and!; try done.
    destruct (Z.eqb_spec (bf_operation f) 1); [by injection Eop as <-|].
    destruct (Z.eqb_spec (bf_operation f) 2); [by injection Eop as <-|].
    destruct (Z.eqb_spec (bf_operation f) 3); [by injection Eop as <-|done].
  - intros (-> & -> & _ & _ & _ & ->). exists mo. by destruct mo.
Qed.

(** ** Witnesses *)

Definition sample_frame : ChargeFrame := mkChargeFrame 7 42 103 300 0 true 28 57 0 0.

Theorem parse_charge_accepts_witness :
  parse_charge (fun _ => Some sample_frame) [1; 2; 3] =
    Ok (mkRequest 7 42 103 (mkCredits 300 0) [28; 57; 0; 0] true).
Proof.
  apply (parse_charge_accepts (fun _ => Some sample_frame) [1; 2; 3] sample_frame); [done|].
  cbn. unfold MAX_ROUTE_ID. split_and!; try done; try lia.
Defined.

Theorem parse_budget_mutation_accepts_witness :
  parse_budget_mutation (fun _ => Some (mkBudgetMutationFrame 7 2 300 25)) [] =
    Ok (mkBudgetMutation 7 SetCurrent (mkCredits 300 25)).
Proof.
  apply (parse_budget_mutation_accepts (fun _ => Some (mkBudgetMutationFrame 7 2 300 25)) []
           (mkBudgetMutationFrame 7 2 300 25)); [done|].
  cbn. unfold I64_MAX. split_and!; try done; try lia.
Defined.

Theorem response_byte_faithful_witness :
  let v := mkLimitViolation User Month true true in
  0 <= response_byte v < 32 /\ (names_resource v = true <-> 8 <= response_byte v) /\
  (response_byte v = response_byte v -> v = v).
Proof. intros v. apply (response_byte_faithful v v). Defined.
