(* ===== verification/Quota.v ===== *)
(** * Quota: the rate limiter of src/src/limiter/quota.rs

    The whole of quota.rs: token buckets, a subject's periods, a company's budget state,
    admission ([admit_at], from authorization to the usage rows), budget mutations, access
    invalidation, and the flush. Time is given: [now] is an [Instant] in nanoseconds,
    [unix_seconds] the wall clock the source reads once per call.

    Admission holds the company's shard lock from start to end and the platform lock around
    the last part, so a call is one transition of its shard: [M], a state-and-error monad over
    the shard, the platform rows and the store. A [?] that returns early leaves the state as
    it stands, as the source does. [expect] on a missing entry and arithmetic that would
    overflow are [Panicked]; theorems in Admission.v show neither happens. *)

From stdpp Require Import strings.
From S2P Require Import Prelude CreditsBlob TimeFrame Aggregation Storage Access ChargeProtocol.

Definition PLATFORM_AGGREGATE_COMPANY_ID : Z := 0.
(** [TOKEN_PERIOD.as_nanos()]. *)
Definition TOKEN_PERIOD : Z := 10000000000.

Inductive Decision :=
| Allowed (v : AccessVerdict)
| CreditViolation (v : LimitViolation)
| AccessDenied (d : AccessDenial).

#[export] Instance Decision_eq_dec : EqDecision Decision.
Proof. solve_decision. Defined.

Record CreditLimits := mkCreditLimits { ten_seconds : Z; hour : Z }.
Record ScopeLimits := mkScopeLimits { lim_cpu : CreditLimits; lim_inference : CreditLimits }.
Record LimitPolicy := mkLimitPolicy {
  pol_company : ScopeLimits;
  pol_user : ScopeLimits;
  company_extra_daily_cpu : Z;
  user_daily_share_pct : Z;
}.

Definition daily_share (company_daily percent : Z) : Z :=
  let share := Z.quot (company_daily * percent) 100 in
  if share <=? U64_MAX then share else U64_MAX.

Definition user_daily (self : LimitPolicy) (company_daily : Credits) : Credits :=
  mkCredits (daily_share (cpu company_daily) (user_daily_share_pct self))
    (daily_share (inference company_daily) (user_daily_share_pct self)).

(** ** Token buckets *)

Record TokenBucket := mkTokenBucket { scaled_tokens : Z; last_refill : Z }.

Definition capacity (limit : Z) : Z := limit * TOKEN_PERIOD.

Definition full (limit now : Z) : TokenBucket := mkTokenBucket (capacity limit) now.

(** [duration_since] of an earlier instant is zero; the instant is stored all the same. *)
Definition refill (limit now : Z) (self : TokenBucket) : TokenBucket :=
  let elapsed_nanos := Z.max 0 (now - last_refill self) in
  let refill := Z.min U128_MAX (elapsed_nanos * limit) in
  mkTokenBucket
    (Z.min (Z.min U128_MAX (scaled_tokens self + refill)) (capacity limit)) now.

Definition can_charge (self : TokenBucket) (credits : Z) : bool :=
  credits * TOKEN_PERIOD <=? scaled_tokens self.

Definition bucket_charge (credits : Z) (self : TokenBucket) : result anyhow TokenBucket :=
  let left := scaled_tokens self - credits * TOKEN_PERIOD in
  if left <? 0 then Err (Panicked "attempt to subtract with overflow")
  else Ok (mkTokenBucket left (last_refill self)).

(** ** Subjects *)

Record SubjectState := mkSubjectState {
  cpu_bucket : TokenBucket;
  inference_bucket : TokenBucket;
  hour_period : Z;
  day_period : Z;
  hour_used : Credits;
  day_used : Credits;
}.

Definition recovered (limits : ScopeLimits) (unix_seconds day_period now : Z)
    (hour_used day_used : Credits) : SubjectState :=
  mkSubjectState (full (ten_seconds (lim_cpu limits)) now)
    (full (ten_seconds (lim_inference limits)) now)
    (Z.quot unix_seconds 3600) day_period hour_used day_used.

Definition refresh_periods (limits : ScopeLimits) (unix_seconds day now : Z)
    (self : SubjectState) : SubjectState :=
  let hour := Z.quot unix_seconds 3600 in
  mkSubjectState
    (refill (ten_seconds (lim_cpu limits)) now (cpu_bucket self))
    (refill (ten_seconds (lim_inference limits)) now (inference_bucket self))
    hour day
    (if hour_period self =? hour then hour_used self else credits_default)
    (if day_period self =? day then day_used self else credits_default).

Definition exceeds (current requested limit : Z) : bool :=
  match checked_add_u64 current requested with
  | None => true
  | Some total => limit <? total
  end.

(** [(cpu || inference).then_some(LimitViolation { .. })]. *)
Definition violation_if (scope : Scope) (window : Window) (cpu inference : bool) :
    option LimitViolation :=
  if cpu || inference then Some (mkLimitViolation scope window cpu inference) else None.

Definition violation (self : SubjectState) (scope : Scope) (window : Window)
    (limits : ScopeLimits) (requested : Credits) : option LimitViolation :=
  let '(c, i) :=
    match window with
    | TenSeconds => (negb (can_charge (cpu_bucket self) (cpu requested)),
                     negb (can_charge (inference_bucket self) (inference requested)))
    | Hour => (exceeds (cpu (hour_used self)) (cpu requested) (hour (lim_cpu limits)),
               exceeds (inference (hour_used self)) (inference requested)
                 (hour (lim_inference limits)))
    | Day | Month => (false, false)
    end in
  violation_if scope window c i.

Definition set_hour_used (u : Credits) (self : SubjectState) : SubjectState :=
  mkSubjectState (cpu_bucket self) (inference_bucket self) (hour_period self)
    (day_period self) u (day_used self).
Definition set_day_used (u : Credits) (self : SubjectState) : SubjectState :=
  mkSubjectState (cpu_bucket self) (inference_bucket self) (hour_period self)
    (day_period self) (hour_used self) u.

Definition subject_charge (requested : Credits) (count_daily : bool) :
    SE SubjectState anyhow unit :=
  self ← se_get;
  c ← se_lift (bucket_charge (cpu requested) (cpu_bucket self));
  i ← se_lift (bucket_charge (inference requested) (inference_bucket self));
  _ ← se_put (mkSubjectState c i (hour_period self) (day_period self)
                (hour_used self) (day_used self));
  hour ← se_lift (ok_or (Msg "hour usage overflowed uint64")
                    (checked_add (hour_used self) requested));
  _ ← se_modify (set_hour_used hour);
  if count_daily then
    day ← se_lift (ok_or (Msg "daily usage overflowed uint64")
                     (checked_add (day_used self) requested));
    se_modify (set_day_used day)
  else mret tt.

Definition fixed_limit_violation (scope : Scope) (window : Window)
    (current requested limit : Credits) : option LimitViolation :=
  violation_if scope window (exceeds (cpu current) (cpu requested) (cpu limit))
    (exceeds (inference current) (inference requested) (inference limit)).

(** ** A company's budget *)

Record CompanyBudgetState := mkCompanyBudgetState {
  stored : StoredBudget;
  usage_month_start_day : Z;
  month_used : Credits;
  extra_day_period : Z;
  day_extra_used : Z;
  month_extra_used : Z;
  cb_version : Z;
  cb_flushed_version : Z;
}.

Definition refresh_month (current_month_start_day : Z) (self : CompanyBudgetState) :
    CompanyBudgetState :=
  if usage_month_start_day self =? current_month_start_day then self
  else mkCompanyBudgetState (stored self) current_month_start_day credits_default
         (extra_day_period self) (day_extra_used self) 0
         (cb_version self) (cb_flushed_version self).

Definition refresh_day (current_day_period : Z) (self : CompanyBudgetState) :
    CompanyBudgetState :=
  if extra_day_period self =? current_day_period then self
  else mkCompanyBudgetState (stored self) (usage_month_start_day self) (month_used self)
         current_day_period 0 (month_extra_used self)
         (cb_version self) (cb_flushed_version self).

Definition extra_grant (self : CompanyBudgetState) (requested : Credits) (pool : Z) : option Z :=
  if (pool =? 0) || (0 <? inference requested) || (cpu requested =? 0) then None
  else
    total ← checked_add_u64 (day_extra_used self) (cpu requested);
    if total <=? pool then Some (cpu requested) else None.

Definition bump_version : SE CompanyBudgetState anyhow unit :=
  self ← se_get;
  next ← se_lift (ok_or (Msg "budget usage mutation version overflowed uint64")
                    (checked_add_u64 (cb_version self) 1));
  se_put (mkCompanyBudgetState (stored self) (usage_month_start_day self) (month_used self)
            (extra_day_period self) (day_extra_used self) (month_extra_used self)
            next (cb_flushed_version self)).

Definition set_extra_used (day month : Z) (self : CompanyBudgetState) : CompanyBudgetState :=
  mkCompanyBudgetState (stored self) (usage_month_start_day self) (month_used self)
    (extra_day_period self) day month (cb_version self) (cb_flushed_version self).

Definition set_month_used (u : Credits) (self : CompanyBudgetState) : CompanyBudgetState :=
  mkCompanyBudgetState (stored self) (usage_month_start_day self) u
    (extra_day_period self) (day_extra_used self) (month_extra_used self)
    (cb_version self) (cb_flushed_version self).

Definition add_extra_used (cpu : Z) : SE CompanyBudgetState anyhow unit :=
  self ← se_get;
  day ← se_lift (ok_or (Msg "daily extra usage overflowed uint64")
                   (checked_add_u64 (day_extra_used self) cpu));
  _ ← se_modify (set_extra_used day (month_extra_used self));
  month ← se_lift (ok_or (Msg "monthly extra usage overflowed uint64")
                     (checked_add_u64 (month_extra_used self) cpu));
  _ ← se_modify (set_extra_used day month);
  bump_version.

Definition add_month_used (credits : Credits) : SE CompanyBudgetState anyhow unit :=
  self ← se_get;
  month ← se_lift (ok_or (Msg "monthly usage overflowed uint64")
                     (checked_add (month_used self) credits));
  _ ← se_modify (set_month_used month);
  bump_version.

Definition sunix_time (unix_seconds : Z) : result anyhow Z :=
  ok_or (Msg "SUnix timestamp does not fit in int32")
    (try_i32 (Z.quot (unix_seconds - 1000000000) 2)).

Definition usage_snapshot (self : CompanyBudgetState) (company_id : Z) (day_used : Credits)
    (day_period unix_seconds : Z) : result anyhow (option (StoredBudgetUsage * Z)) :=
  if cb_version self =? cb_flushed_version self then Ok None
  else
    day ← ok_or (Msg "local business day does not fit int16") (try_i16 day_period);
    updated ← sunix_time unix_seconds;
    Ok (Some (mkStoredBudgetUsage company_id day day_used (usage_month_start_day self)
                (month_used self) (day_extra_used self) (month_extra_used self) updated,
              cb_version self)).

Definition mark_usage_flushed (v : Z) (self : CompanyBudgetState) : CompanyBudgetState :=
  if cb_version self =? v then
    mkCompanyBudgetState (stored self) (usage_month_start_day self) (month_used self)
      (extra_day_period self) (day_extra_used self) (month_extra_used self)
      (cb_version self) v
  else self.

Definition monthly_violation (self : CompanyBudgetState) (requested : Credits) :
    option LimitViolation :=
  let active := budget_month_start_day (stored self) =? usage_month_start_day self in
  let c := (0 <? cpu requested) &&
    (negb active ||
     exceeds (cpu (month_used self)) (cpu requested) (cpu (monthly_ceiling (stored self)))) in
  let i := (0 <? inference requested) &&
    (negb active ||
     exceeds (inference (month_used self)) (inference requested)
       (inference (monthly_ceiling (stored self)))) in
  violation_if Company Month c i.

(** ** A shard, and what a call can touch *)

Record ShardState := mkShardState {
  subjects : gmap (Z * Z) SubjectState;
  budgets : gmap Z CompanyBudgetState;
  usage : UsageMap;
  access : gmap (Z * Z) UserAccessState;
}.

Definition shard_default : ShardState := mkShardState ∅ ∅ ∅ ∅.

Definition set_subjects m (s : ShardState) := mkShardState m (budgets s) (usage s) (access s).
Definition set_budgets m (s : ShardState) := mkShardState (subjects s) m (usage s) (access s).
Definition set_usage m (s : ShardState) := mkShardState (subjects s) (budgets s) m (access s).
Definition set_access m (s : ShardState) := mkShardState (subjects s) (budgets s) (usage s) m.

(** The locked shard, the platform rows and the store. *)
Record Env (St : Type) := mkEnv { shard : ShardState; platform : UsageMap; store : St }.
Arguments mkEnv {St}.
Arguments shard {St}.
Arguments platform {St}.
Arguments store {St}.

Record RateLimiter (St : Type) := mkRateLimiter {
  shards : list ShardState;
  platform_usage : UsageMap;
  limiter_store : St;
}.
Arguments mkRateLimiter {St}.
Arguments shards {St}.
Arguments platform_usage {St}.
Arguments limiter_store {St}.

(** [time_frame::...(..)?] and [credits_blob::...(..)?]. *)
Definition time {A} (r : result TimeFrameError A) : result anyhow A := map_err FromTimeFrame r.
Definition blob {A} (r : result CreditsBlobError A) : result anyhow A := map_err FromCreditsBlob r.

Definition decode_optional (encoded : option bytes) : result anyhow RoutedCredits :=
  match encoded with
  | None => Ok []
  | Some bs => blob (decode bs)
  end.

Definition platform_usage_key (unix_seconds : Z) : result anyhow UsageKey :=
  tf ← time (five_minute unix_seconds);
  Ok (mkUsageKey PLATFORM_AGGREGATE_COMPANY_ID COMPANY_AGGREGATE_USER_ID tf).

(** One [records.entry(key).or_insert_with(empty).increment(..)?]. *)
Definition increment_row (key : UsageKey) (route : Z) (c : Credits) : SE UsageMap anyhow unit :=
  fun records =>
    let row := default (loaded []) (records !! key) in
    let '(r, row') := increment route c row in
    (map_err FromAggregation r, <[key := row']> records).

Definition increment_usage (request : Request) (unix_seconds : Z) : SE UsageMap anyhow unit :=
  five ← se_lift (time (five_minute unix_seconds));
  day ← se_lift (time (TimeFrame.daily unix_seconds));
  let row user tf :=
    increment_row (mkUsageKey (ChargeProtocol.company_id request) user tf)
      (route_id request) (credits request) in
  _ ← row (ChargeProtocol.user_id request) five;
  _ ← row (ChargeProtocol.user_id request) day;
  _ ← row COMPANY_AGGREGATE_USER_ID five;
  row COMPANY_AGGREGATE_USER_ID day.

Definition increment_platform_usage (request : Request) (unix_seconds : Z) :
    SE UsageMap anyhow unit :=
  key ← se_lift (platform_usage_key unix_seconds);
  records ← se_get;
  match records !! key with
  | None => se_fail (Panicked "platform usage initialized")
  | Some _ => increment_row key (route_id request) (credits request)
  end.

(** The rows a recovery sums: [sum(&decode(row)?)] added up, handing each row to [f]. *)
Fixpoint sum_rows {S} (overflow : string) (f : StoredUsage -> RoutedCredits -> SE S anyhow unit)
    (rows : list StoredUsage) (total : Credits) : SE S anyhow Credits :=
  match rows with
  | [] => mret total
  | row :: rest =>
      routes ← se_lift (ok_or (Msg "corrupt usage blob")
                          (match decode (used_credits row) with Ok r => Some r | Err _ => None end));
      s ← se_lift (blob (sum routes));
      total ← se_lift (ok_or (Msg overflow) (checked_add total s));
      _ ← f row routes;
      sum_rows overflow f rest total
  end.

Section Limiter.
Context {St : Type} `{!LimiterStore St}.
Variables (policy : LimitPolicy) (access_cache_seconds : Z).

Abbreviation M := (SE (Env St) anyhow).

(** Running a step on one part of the environment. *)
Definition on_store {A} (m : SE St anyhow A) : M A :=
  fun e => let '(r, s) := m (store e) in (r, mkEnv (shard e) (platform e) s).
Definition on_usage {A} (m : SE UsageMap anyhow A) : M A :=
  fun e => let '(r, u) := m (usage (shard e)) in
           (r, mkEnv (set_usage u (shard e)) (platform e) (store e)).
Definition on_platform {A} (m : SE UsageMap anyhow A) : M A :=
  fun e => let '(r, p) := m (platform e) in (r, mkEnv (shard e) p (store e)).
Definition modify_shard (f : ShardState -> ShardState) : M unit :=
  fun e => (Ok tt, mkEnv (f (shard e)) (platform e) (store e)).

(** [.get(..).expect(msg)] and [.get_mut(..).expect(msg)]. *)
Definition expect {A} (message : string) (o : option A) : M A :=
  se_lift (ok_or (Panicked message) o).
Definition on_subject {A} (message : string) (key : Z * Z) (m : SE SubjectState anyhow A) : M A :=
  fun e => match subjects (shard e) !! key with
           | None => (Err (Panicked message), e)
           | Some s =>
               let '(r, s') := m s in
               (r, mkEnv (set_subjects (<[key := s']> (subjects (shard e))) (shard e))
                     (platform e) (store e))
           end.
Definition on_budget {A} (company : Z) (m : SE CompanyBudgetState anyhow A) : M A :=
  fun e => match budgets (shard e) !! company with
           | None => (Err (Panicked "company budget initialized"), e)
           | Some b =>
               let '(r, b') := m b in
               (r, mkEnv (set_budgets (<[company := b']> (budgets (shard e))) (shard e))
                     (platform e) (store e))
           end.

Definition ensure_access (company user unix_seconds : Z) : M unit :=
  e ← se_get;
  if match access (shard e) !! (company, user) with
     | Some cached => is_fresh cached unix_seconds access_cache_seconds
     | None => false
     end
  then mret tt
  else
    row ← on_store (context "failed to load user access grants" (load_user_access company user));
    state ← se_lift (map_err (fun _ => Msg "invalid access blob") (from_row row unix_seconds));
    modify_shard (fun s => set_access (<[(company, user) := state]> (access s)) s).

Definition ensure_budget (company unix_seconds : Z) : M unit :=
  e ← se_get;
  if bool_decide (is_Some (budgets (shard e) !! company)) then mret tt
  else
    current_month_start_day ← se_lift (time (month_start_day unix_seconds));
    current_day_period ← se_lift (time (local_unix_day unix_seconds));
    row ← on_store (context "failed to initialize company credit budget" (load_budget company));
    let row := default stored_budget_row_default row in
    let b := budget row in
    let stored := mkStoredBudget company (daily b) (budget_month_start_day b)
                    (monthly_ceiling b) (last_set b) (sb_updated b) in
    let day_extra :=
      if se_day_period (extra row) =? current_day_period then day_cpu (extra row) else 0 in
    let month_extra :=
      if se_month_start_day (extra row) =? current_month_start_day
      then month_cpu (extra row) else 0 in
    first_daily ← se_lift (ok_or (Msg "monthly daily time frame does not fit int32")
                             (try_i32 (DAILY_PREFIX + current_month_start_day)));
    current_daily ← se_lift (time (TimeFrame.daily unix_seconds));
    rows ← on_store (context "failed to initialize monthly company usage"
             (load_range company COMPANY_AGGREGATE_USER_ID first_daily current_daily));
    used ← sum_rows "recovered monthly usage overflowed uint64" (fun _ _ => mret tt)
             rows credits_default;
    let used := mkCredits (saturating_sub (cpu used) month_extra) (inference used) in
    modify_shard (fun s => set_budgets
      (<[company := mkCompanyBudgetState stored current_month_start_day used
           current_day_period day_extra month_extra 0 0]> (budgets s)) s).

Definition ensure_subject (company user : Z) (limits : ScopeLimits)
    (unix_seconds now day_extra_cpu_from_pool : Z) : M unit :=
  e ← se_get;
  if bool_decide (is_Some (subjects (shard e) !! (company, user))) then mret tt
  else
    day ← se_lift (time (TimeFrame.daily unix_seconds));
    let daily_key := mkUsageKey company user day in
    daily_row ← on_store (context "failed to initialize daily usage" (load_exact daily_key));
    daily_routes ← se_lift (decode_optional (used_credits <$> daily_row));
    _ ← modify_shard (fun s => set_usage (merge_loaded daily_key daily_routes (usage s)) s);
    '(hour_start, hour_end) ← se_lift (time (hour_five_minute_range unix_seconds));
    hour_rows ← on_store (context "failed to initialize hourly usage"
                  (load_range company user hour_start hour_end));
    hour_used ← sum_rows "recovered hour usage overflowed uint64"
      (fun row routes => modify_shard (fun s =>
         set_usage (merge_loaded (mkUsageKey company user (su_time_frame row)) routes (usage s)) s))
      hour_rows credits_default;
    day_used ← se_lift (blob (sum daily_routes));
    let day_used :=
      mkCredits (saturating_sub (cpu day_used) day_extra_cpu_from_pool) (inference day_used) in
    day_period ← se_lift (time (local_unix_day unix_seconds));
    modify_shard (fun s => set_subjects
      (<[(company, user) := recovered limits unix_seconds day_period now hour_used day_used]>
         (subjects s)) s).

Definition ensure_platform_usage (unix_seconds : Z) : M unit :=
  key ← se_lift (platform_usage_key unix_seconds);
  e ← se_get;
  if bool_decide (is_Some (platform e !! key)) then mret tt
  else
    row ← on_store (context "failed to initialize platform usage" (load_exact key));
    routes ← se_lift (decode_optional (used_credits <$> row));
    on_platform (se_modify (merge_loaded key routes)).

(** ** Admission *)

(** The authorization question: [Ok] carries the verdict, default when nothing was asked. *)
Definition authorize (request : Request) (unix_seconds : Z) :
    M (result AccessDenial AccessVerdict) :=
  let company := ChargeProtocol.company_id request in
  let user := ChargeProtocol.user_id request in
  if requests_authorization request then
    _ ← ensure_access company user unix_seconds;
    e ← se_get;
    state ← expect "user access initialized" (access (shard e) !! (company, user));
    expect "index out of bounds" (verdict state (required_access request))
  else mret (Ok verdict_default).

(** The burst gates: shortest window first, company before user. *)
Definition burst_violation (company user : SubjectState) (requested : Credits) :
    option LimitViolation :=
  let gate window :=
    match violation company Company window (pol_company policy) requested with
    | Some v => Some v
    | None => violation user User window (pol_user policy) requested
    end in
  match gate TenSeconds with
  | Some v => Some v
  | None => gate Hour
  end.

(** The three entitlement gates. *)
Definition quota_violation (company user : SubjectState) (b : CompanyBudgetState)
    (requested : Credits) : option LimitViolation :=
  let entitled := daily (stored b) in
  match fixed_limit_violation Company Day (day_used company) requested entitled with
  | Some v => Some v
  | None =>
      match fixed_limit_violation User Day (day_used user) requested
              (user_daily policy entitled) with
      | Some v => Some v
      | None => monthly_violation b requested
      end
  end.

(** [Ok extra_cpu]: what the pool pays, zero for a charge the entitlement covers. *)
Definition entitlement (company user : SubjectState) (b : CompanyBudgetState)
    (request : Request) : result LimitViolation Z :=
  match quota_violation company user b (credits request) with
  | None => Ok 0
  | Some v =>
      ok_or v (if extra_credits_allowed request
               then extra_grant b (credits request) (company_extra_daily_cpu policy)
               else None)
  end.

(** Everything written once the request is admitted. *)
Definition apply_charge (request : Request) (unix_seconds extra_cpu : Z) : M unit :=
  let company := ChargeProtocol.company_id request in
  let user := ChargeProtocol.user_id request in
  let paid_from_extra := 0 <? extra_cpu in
  _ ← ensure_platform_usage unix_seconds;
  _ ← on_subject "company state initialized" (company, COMPANY_AGGREGATE_USER_ID)
        (subject_charge (credits request) (negb paid_from_extra));
  _ ← on_subject "user state initialized" (company, user)
        (subject_charge (credits request) (negb paid_from_extra));
  _ ← on_budget company
        (if paid_from_extra then add_extra_used extra_cpu else add_month_used (credits request));
  _ ← on_usage (increment_usage request unix_seconds);
  on_platform (increment_platform_usage request unix_seconds).

(** The states the gates are judged on: loaded if missing, rolled over to the current
    periods. *)
Definition prepare (request : Request) (unix_seconds now : Z) : M unit :=
  let company := ChargeProtocol.company_id request in
  let user := ChargeProtocol.user_id request in
  _ ← ensure_budget company unix_seconds;
  e ← se_get;
  b ← expect "company budget initialized" (budgets (shard e) !! company);
  let day_extra := day_extra_used b in
  _ ← ensure_subject company COMPANY_AGGREGATE_USER_ID (pol_company policy)
        unix_seconds now day_extra;
  _ ← ensure_subject company user (pol_user policy) unix_seconds now day_extra;
  current_day_period ← se_lift (time (local_unix_day unix_seconds));
  _ ← on_subject "company state initialized" (company, COMPANY_AGGREGATE_USER_ID)
        (se_modify (refresh_periods (pol_company policy) unix_seconds current_day_period now));
  _ ← on_subject "user state initialized" (company, user)
        (se_modify (refresh_periods (pol_user policy) unix_seconds current_day_period now));
  current_month_start_day ← se_lift (time (month_start_day unix_seconds));
  on_budget company
    (se_modify (fun b => refresh_day current_day_period (refresh_month current_month_start_day b))).

Definition admit_core (request : Request) (unix_seconds now : Z) : M Decision :=
  let company := ChargeProtocol.company_id request in
  authorization ← authorize request unix_seconds;
  match authorization with
  | Err denial => mret (AccessDenied denial)
  | Ok access_verdict =>
      _ ← prepare request unix_seconds now;
      e ← se_get;
      company_state ← expect "company state initialized"
        (subjects (shard e) !! (company, COMPANY_AGGREGATE_USER_ID));
      user_state ← expect "user state initialized"
        (subjects (shard e) !! (company, ChargeProtocol.user_id request));
      b ← expect "company budget initialized" (budgets (shard e) !! company);
      match burst_violation company_state user_state (credits request) with
      | Some v => mret (CreditViolation v)
      | None =>
          match entitlement company_state user_state b request with
          | Err v => mret (CreditViolation v)
          | Ok extra_cpu =>
              _ ← apply_charge request unix_seconds extra_cpu;
              mret (Allowed access_verdict)
          end
      end
  end.

(** A call takes the lock of its company's shard: [company_id as usize % shards.len()]. *)
Definition on_shard {A} (company : Z) (m : M A) : SE (RateLimiter St) anyhow A :=
  fun l =>
    let idx := Z.to_nat (wrap 64 company mod zlen (shards l)) in
    match shards l !! idx with
    | None => (Err (Panicked "index out of bounds"), l)
    | Some sh =>
        let '(r, e) := m (mkEnv sh (platform_usage l) (limiter_store l)) in
        (r, mkRateLimiter (<[idx := shard e]> (shards l)) (platform e) (store e))
    end.

Definition new (shard_count : nat) (s : St) : RateLimiter St :=
  mkRateLimiter (replicate (Nat.max shard_count 1) shard_default) ∅ s.

Definition admit_at (request : Request) (unix_seconds now : Z) :
    SE (RateLimiter St) anyhow Decision :=
  on_shard (ChargeProtocol.company_id request) (admit_core request unix_seconds now).

(** ** Budget mutations *)

(** The new stored budget, or the reply that refuses the mutation. *)
Definition mutated (m : BudgetMutation) (b : CompanyBudgetState)
    (current_month_start_day : Z) : result BudgetMutationReply StoredBudget :=
  let s := stored b in
  let c := bm_credits m in
  match operation m with
  | SetDaily =>
      Ok (mkStoredBudget (sb_company_id s) c (budget_month_start_day s)
            (monthly_ceiling s) (last_set s) (sb_updated s))
  | SetCurrent =>
      ceiling_cpu ← ok_or Overflow (checked_add_u64 (cpu (month_used b)) (cpu c));
      ceiling_inference ←
        ok_or Overflow (checked_add_u64 (inference (month_used b)) (inference c));
      if (I64_MAX <? ceiling_cpu) || (I64_MAX <? ceiling_inference) then Err Overflow
      else Ok (mkStoredBudget (sb_company_id s) (daily s) current_month_start_day
                 (mkCredits ceiling_cpu ceiling_inference) c (sb_updated s))
  | IncreaseCurrent =>
      if negb (budget_month_start_day s =? current_month_start_day)
      then Err CurrentMonthNotConfigured
      else
        ceiling ← ok_or Overflow (checked_add (monthly_ceiling s) c);
        last ← ok_or Overflow (checked_add (last_set s) c);
        if (I64_MAX <? cpu ceiling) || (I64_MAX <? inference ceiling)
           || (I64_MAX <? cpu last) || (I64_MAX <? inference last)
        then Err Overflow
        else Ok (mkStoredBudget (sb_company_id s) (daily s) (budget_month_start_day s)
                   ceiling last (sb_updated s))
  end.

Definition set_stored (s : StoredBudget) (b : CompanyBudgetState) : CompanyBudgetState :=
  mkCompanyBudgetState s (usage_month_start_day b) (month_used b) (extra_day_period b)
    (day_extra_used b) (month_extra_used b) (cb_version b) (cb_flushed_version b).

Definition mutate_core (m : BudgetMutation) (unix_seconds : Z) : M BudgetMutationReply :=
  let company := bm_company_id m in
  _ ← ensure_budget company unix_seconds;
  current_month_start_day ← se_lift (time (month_start_day unix_seconds));
  _ ← on_budget company (se_modify (refresh_month current_month_start_day));
  e ← se_get;
  b ← expect "company budget initialized" (budgets (shard e) !! company);
  match mutated m b current_month_start_day with
  | Err reply => mret reply
  | Ok s =>
      updated ← se_lift (sunix_time unix_seconds);
      let s := mkStoredBudget (sb_company_id s) (daily s) (budget_month_start_day s)
                 (monthly_ceiling s) (last_set s) updated in
      _ ← on_store (context "failed to persist company credit budget" (upsert_budget s));
      _ ← on_budget company (se_modify (set_stored s));
      mret BudgetOk
  end.

Definition mutate_budget_at (m : BudgetMutation) (unix_seconds : Z) :
    SE (RateLimiter St) anyhow BudgetMutationReply :=
  on_shard (bm_company_id m) (mutate_core m unix_seconds).

(** ** Invalidation *)

Definition invalidate_core (company user : Z) (s : ShardState) : ShardState :=
  if user =? 0
  then set_access (filter (fun kv => kv.1.1 <> company) (access s)) s
  else set_access (delete (company, user) (access s)) s.

Definition invalidate_access (company user : Z) : SE (RateLimiter St) anyhow unit :=
  on_shard company (modify_shard (invalidate_core company user)).

(** ** The flush *)

Definition map_snapshots (m : UsageMap) : list UsageSnapshot :=
  omap (fun kv => snapshot kv.2 kv.1) (map_to_list m).

Definition collect_snapshots (l : RateLimiter St) : list UsageSnapshot :=
  flat_map (fun s => map_snapshots (usage s)) (shards l) ++ map_snapshots (platform_usage l).

Definition flush_snapshot (s : UsageSnapshot) : SE St anyhow unit :=
  encoded ← se_lift (ok_or (Msg "failed to encode usage snapshot")
              (match CreditsBlob.encode (snap_routes s) with Ok bs => Some bs | Err _ => None end));
  upsert (snap_key s) encoded.

Definition mark_row (s : UsageSnapshot) (m : UsageMap) : UsageMap :=
  alter (Aggregation.mark_flushed (snap_version s)) (snap_key s) m.

Definition limiter_mark_flushed (s : UsageSnapshot) (l : RateLimiter St) : RateLimiter St :=
  if Aggregation.company_id (snap_key s) =? PLATFORM_AGGREGATE_COMPANY_ID
  then mkRateLimiter (shards l) (mark_row s (platform_usage l)) (limiter_store l)
  else
    let idx := Z.to_nat (wrap 64 (Aggregation.company_id (snap_key s)) mod zlen (shards l)) in
    mkRateLimiter (alter (fun sh => set_usage (mark_row s (usage sh)) sh) idx (shards l))
      (platform_usage l) (limiter_store l).

Fixpoint flush_rows (snapshots : list UsageSnapshot) (l : RateLimiter St) : nat * RateLimiter St :=
  match snapshots with
  | [] => (0%nat, l)
  | s :: rest =>
      let '(r, st) := flush_snapshot s (limiter_store l) in
      let l := mkRateLimiter (shards l) (platform_usage l) st in
      match r with
      | Ok _ =>
          let '(written, l) := flush_rows rest (limiter_mark_flushed s l) in
          (S written, l)
      | Err _ => flush_rows rest l
      end
  end.

(** [retain]: dirty rows and the rows of the current frames stay. *)
Definition keep_usage (current_five_minute current_day : Z) (kv : UsageKey * UsageRecord) : bool :=
  negb (is_clean kv.2) || (time_frame kv.1 =? current_five_minute)
  || (time_frame kv.1 =? current_day).
Definition keep_platform (current_five_minute : Z) (kv : UsageKey * UsageRecord) : bool :=
  negb (is_clean kv.2) || (time_frame kv.1 =? current_five_minute).

Definition prune_clean_usage (unix_seconds : Z) : SE (RateLimiter St) anyhow unit :=
  five ← se_lift (time (five_minute unix_seconds));
  day ← se_lift (time (TimeFrame.daily unix_seconds));
  se_modify (fun l => mkRateLimiter
    ((fun s => set_usage (filter (fun kv => keep_usage five day kv = true) (usage s)) s)
       <$> shards l)
    (filter (fun kv => keep_platform five kv = true) (platform_usage l)) (limiter_store l)).

(** One company's budget row, labelled with the day of its aggregate subject. *)
Definition budget_snapshot (s : ShardState) (wall_day unix_seconds : Z)
    (kv : Z * CompanyBudgetState) : option (StoredBudgetUsage * Z) :=
  let '(used, day) :=
    match subjects s !! (kv.1, COMPANY_AGGREGATE_USER_ID) with
    | Some subject => (day_used subject, day_period subject)
    | None => (credits_default, wall_day)
    end in
  match usage_snapshot kv.2 kv.1 used day unix_seconds with
  | Ok o => o
  | Err _ => None
  end.

Definition budget_snapshots (l : RateLimiter St) (wall_day unix_seconds : Z) :
    list (StoredBudgetUsage * Z) :=
  flat_map (fun s => omap (budget_snapshot s wall_day unix_seconds) (map_to_list (budgets s)))
    (shards l).

Definition mark_budget (u : StoredBudgetUsage) (version : Z) (l : RateLimiter St) : RateLimiter St :=
  let idx := Z.to_nat (wrap 64 (bu_company_id u) mod zlen (shards l)) in
  mkRateLimiter
    (alter (fun sh => set_budgets (alter (mark_usage_flushed version) (bu_company_id u)
                                     (budgets sh)) sh) idx (shards l))
    (platform_usage l) (limiter_store l).

Fixpoint flush_budgets (snapshots : list (StoredBudgetUsage * Z)) (l : RateLimiter St) :
    nat * RateLimiter St :=
  match snapshots with
  | [] => (0%nat, l)
  | (u, version) :: rest =>
      let '(r, st) := upsert_budget_usage u (limiter_store l) in
      let l := mkRateLimiter (shards l) (platform_usage l) st in
      match r with
      | Err _ => flush_budgets rest l
      | Ok _ => let '(written, l) := flush_budgets rest (mark_budget u version l) in
                (S written, l)
      end
  end.

(** [clock]: what reading the wall clock returned. *)
Definition flush_dirty_budget_usage (clock : result anyhow Z) (l : RateLimiter St) :
    nat * RateLimiter St :=
  match clock with
  | Err _ => (0%nat, l)
  | Ok unix_seconds =>
      match local_unix_day unix_seconds with
      | Err _ => (0%nat, l)
      | Ok wall_day => flush_budgets (budget_snapshots l wall_day unix_seconds) l
      end
  end.

Definition flush_dirty (prune_clock budget_clock : result anyhow Z) (l : RateLimiter St) :
    nat * RateLimiter St :=
  match collect_snapshots l with
  | [] => (0%nat, l)
  | snapshots =>
      let '(written, l) := flush_rows snapshots l in
      let l := ((unix_seconds ← se_lift prune_clock; prune_clean_usage unix_seconds) l).2 in
      let '(budgets_written, l) := flush_dirty_budget_usage budget_clock l in
      ((written + budgets_written)%nat, l)
  end.

End Limiter.
