(* ===== verification/QuotaLaws.v ===== *)
(** * QuotaLaws: the limiter's arithmetic, one operation at a time

    What the pieces of Quota.v promise on their own: the rate a token bucket enforces and
    what a clock that steps back does to it, the user's share of the daily entitlement, the
    gates, the extra pool's grant, and the three budget mutations. *)

From stdpp Require Import strings.
From S2P Require Import Prelude CreditsBlob TimeFrame Aggregation Storage Access ChargeProtocol.
From S2P Require Import Quota.

(** ** Token buckets *)

Definition bucket_ok (limit : Z) (b : TokenBucket) : Prop :=
  0 <= scaled_tokens b <= capacity limit.

Lemma full_ok limit now : 0 <= limit -> bucket_ok limit (full limit now).
Proof. unfold bucket_ok, full, capacity, TOKEN_PERIOD. simpl. lia. Qed.

Lemma refill_tokens limit now b :
  in_u64 limit -> bucket_ok limit b ->
  bucket_ok limit (refill limit now b) /\
  scaled_tokens b <= scaled_tokens (refill limit now b)
    <= scaled_tokens b + Z.max 0 (now - last_refill b) * limit.
Proof.
  unfold bucket_ok, refill, capacity, TOKEN_PERIOD. cbn [scaled_tokens last_refill]. intros ? [? ?].
  assert (0 <= Z.max 0 (now - last_refill b) * limit) by (apply Z.mul_nonneg_nonneg; widths; lia).
  widths. lia.
Qed.

Lemma bucket_charge_Ok limit b c b' :
  0 <= c -> bucket_ok limit b ->
  bucket_charge c b = Ok b' <->
    can_charge b c = true /\
    b' = mkTokenBucket (scaled_tokens b - c * TOKEN_PERIOD) (last_refill b).
Proof.
  intros Hc [H0 H1]. unfold bucket_charge, can_charge.
  destruct (Z.ltb_spec (scaled_tokens b - c * TOKEN_PERIOD) 0), (Z.leb_spec (c * TOKEN_PERIOD) (scaled_tokens b));
    split; try done; try lia; by intros [_ ->] || by intros [= <-].
Qed.

Lemma bucket_charge_ok limit b c b' :
  0 <= c -> bucket_ok limit b -> bucket_charge c b = Ok b' -> bucket_ok limit b'.
Proof.
  intros Hc Hb E. apply (bucket_charge_Ok limit) in E as [Hcan ->]; [|done..].
  unfold can_charge in Hcan. fw_bool. destruct Hb. unfold bucket_ok, TOKEN_PERIOD in *.
  simpl in *. lia.
Qed.

(** One request at an instant: refill, then charge if the bucket can pay. *)
Definition bucket_step (limit : Z) (b : TokenBucket) (now c : Z) : TokenBucket * Z :=
  let b := refill limit now b in
  if can_charge b c then
    match bucket_charge c b with Ok b' => (b', c) | Err _ => (b, 0) end
  else (b, 0).

(** A run of requests, and the credits it charged. *)
Fixpoint bucket_run (limit : Z) (b : TokenBucket) (requests : list (Z * Z)) : TokenBucket * Z :=
  match requests with
  | [] => (b, 0)
  | (now, c) :: rest =>
      let '(b, charged) := bucket_step limit b now c in
      let '(b, total) := bucket_run limit b rest in
      (b, charged + total)
  end.

(** Every instant is at or after the one before. *)
Fixpoint monotone (t : Z) (requests : list (Z * Z)) : Prop :=
  match requests with
  | [] => True
  | (now, _) :: rest => t <= now /\ monotone now rest
  end.

Lemma bucket_step_spec limit b now c b' charged :
  in_u64 limit -> bucket_ok limit b -> 0 <= c -> last_refill b <= now ->
  bucket_step limit b now c = (b', charged) ->
  bucket_ok limit b' /\ last_refill b' = now /\
  charged * TOKEN_PERIOD + scaled_tokens b' <=
    scaled_tokens b + (now - last_refill b) * limit.
Proof.
  intros Hl Hb Hc Hnow. unfold bucket_step.
  destruct (refill_tokens limit now b Hl Hb) as [Hr [_ Hle]].
  rewrite Z.max_r in Hle by lia. set (b1 := refill limit now b) in *.
  destruct (can_charge b1 c) eqn:Ecan.
  - destruct (bucket_charge c b1) as [b2|e] eqn:E; intros [= <- <-].
    + split; [by eapply bucket_charge_ok|].
      apply (bucket_charge_Ok limit) in E as [_ ->]; [|done..].
      cbn [scaled_tokens last_refill]. split; [done|]. lia.
    + split; [done|]. split; [done|]. lia.
  - intros [= <- <-]. split; [done|]. split; [done|]. lia.
Qed.

Lemma bucket_run_spec limit b requests b' total :
  in_u64 limit -> bucket_ok limit b -> Forall (fun r => 0 <= r.2) requests ->
  monotone (last_refill b) requests ->
  bucket_run limit b requests = (b', total) ->
  bucket_ok limit b' /\ last_refill b <= last_refill b' /\
  total * TOKEN_PERIOD + scaled_tokens b' <=
    scaled_tokens b + (last_refill b' - last_refill b) * limit.
Proof.
  intros Hl. revert b b' total. induction requests as [|[now c] rest IH]; intros b b' total Hb Hc Hm E.
  { injection E as <- <-. split; [done|]. lia. }
  apply Forall_cons in Hc as [Hc Hcs]. destruct Hm as [Hm Hms]. simpl in E, Hc.
  destruct (bucket_step limit b now c) as [b1 charged] eqn:E1.
  destruct (bucket_run limit b1 rest) as [b2 rest_total] eqn:E2. injection E as <- <-.
  apply bucket_step_spec in E1 as (Hb1 & El & Hle); [|done..].
  rewrite <- El in Hms. apply IH in E2 as (? & ? & ?); [|done..].
  split; [done|]. split; [lia|]. rewrite El in *. nia.
Qed.

(** On a clock that does not step back, a bucket enforces its rate: however requests are
    spaced, the credits charged over any span from a full bucket are at most the burst limit
    plus the limit once more for every ten seconds, and the tokens stay within capacity. *)
Theorem bucket_rate_bound limit t0 requests b total :
  in_u64 limit -> Forall (fun r => 0 <= r.2) requests -> monotone t0 requests ->
  bucket_run limit (full limit t0) requests = (b, total) ->
  total * TOKEN_PERIOD <= limit * TOKEN_PERIOD + (last_refill b - t0) * limit /\
  bucket_ok limit b.
Proof.
  intros Hl Hc Hm E.
  apply bucket_run_spec in E as (Hb & _ & Hle);
    [|done|apply full_ok; bounds|done|done].
  split; [|done]. destruct Hb as [Hb _]. unfold full, capacity in Hle. simpl in Hle. lia.
Qed.

(** Without that condition the bound fails. [admit] reads the clock before it waits for
    the shard, so requests can be judged out of order; a request judged with an earlier
    instant moves [last_refill] back, and the same ten seconds are refilled twice. *)
Theorem bucket_rate_exceeded_on_regress :
  let requests := [(0, 10); (TOKEN_PERIOD, 10); (0, 0); (TOKEN_PERIOD, 10)] in
  exists b total,
    bucket_run 10 (full 10 0) requests = (b, total) /\ total = 30 /\
    total * TOKEN_PERIOD > 10 * TOKEN_PERIOD + (last_refill b - 0) * 10.
Proof. eexists _, _. split; [by vm_compute|]. split; [done|]. by vm_compute. Qed.

(** ** The gates *)

Lemma exceeds_false current requested limit :
  0 <= current -> 0 <= requested -> limit <= U64_MAX ->
  exceeds current requested limit = false <-> current + requested <= limit.
Proof.
  intros. unfold exceeds. destruct (checked_add_u64 current requested) eqn:E.
  - apply checked_add_u64_Some in E as [-> ?]. by rewrite Z.ltb_ge.
  - apply checked_add_u64_None in E; [|lia]. split; [done|lia].
Qed.

Lemma violation_if_None scope window c i :
  violation_if scope window c i = None <-> c = false /\ i = false.
Proof. unfold violation_if. destruct c, i; simpl; naive_solver. Qed.

Lemma violation_if_Some scope window c i v :
  violation_if scope window c i = Some v ->
  lv_scope v = scope /\ lv_window v = window /\ names_resource v = true.
Proof. unfold violation_if. destruct c, i; simpl; intros [= <-]; done. Qed.

(** The user's share is the percentage of the entitlement rounded down, computed without
    overflow for every 64-bit entitlement; up to 100 percent it never exceeds the
    entitlement itself, and at 100 it is the entitlement. *)
Theorem daily_share_exact company_daily percent :
  in_u64 company_daily -> 0 <= percent <= 100 ->
  daily_share company_daily percent = company_daily * percent / 100 /\
  daily_share company_daily percent <= company_daily /\
  company_daily * percent <= U128_MAX /\
  (percent = 100 -> daily_share company_daily percent = company_daily).
Proof.
  intros Hd Hp. unfold daily_share. rewrite Z.quot_div_nonneg by (widths; nia).
  assert (company_daily * percent / 100 <= company_daily) as Hle.
  { apply Z.div_le_upper_bound; widths; nia. }
  rewrite (proj2 (Z.leb_le _ U64_MAX)) by bounds.
  split_and!; [done|done|widths; nia|]. intros ->. by apply Z.div_mul.
Qed.

Lemma extra_grant_Some b requested pool g :
  credits_ok requested -> in_u64 (day_extra_used b) -> in_u64 pool ->
  extra_grant b requested pool = Some g <->
    g = cpu requested /\ 0 < cpu requested /\ inference requested = 0 /\
    0 < pool /\ day_extra_used b + cpu requested <= pool.
Proof.
  intros [Hc Hi] Hd Hp. unfold extra_grant.
  destruct (Z.eqb_spec pool 0); simpl; [split; [done|lia]|].
  destruct (Z.ltb_spec 0 (inference requested)); simpl; [split; [done|lia]|].
  destruct (Z.eqb_spec (cpu requested) 0); simpl; [split; [done|lia]|].
  rewrite bind_Some. split.
  - intros (t & [-> ?]%checked_add_u64_Some & E).
    destruct (Z.leb_spec (day_extra_used b + cpu requested) pool); simplify_eq. widths. lia.
  - intros (-> & ? & ? & ? & ?). exists (day_extra_used b + cpu requested).
    rewrite checked_add_u64_Some. split; [widths; lia|]. by rewrite (proj2 (Z.leb_le _ _)).
Qed.

(** The pool pays for a charge exactly when it is enabled, the charge is CPU only and
    not empty, and the day's pool spending stays within the pool; it then pays all of it. *)
Theorem extra_grant_exact b requested pool g :
  credits_ok requested -> in_u64 (day_extra_used b) -> in_u64 pool ->
  extra_grant b requested pool = Some g <->
    g = cpu requested /\ 0 < cpu requested /\ inference requested = 0 /\
    0 < pool /\ day_extra_used b + cpu requested <= pool.
Proof. apply extra_grant_Some. Qed.

(** ** Budget mutations *)

(** Both resources of the sum fit the signed columns. *)
Definition sum_fits (a b : Credits) : bool :=
  (cpu a + cpu b <=? I64_MAX) && (inference a + inference b <=? I64_MAX).

Definition credits_add (a b : Credits) : Credits :=
  mkCredits (cpu a + cpu b) (inference a + inference b).

Definition with_ceiling (s : StoredBudget) (month : Z) (ceiling last : Credits) : StoredBudget :=
  mkStoredBudget (sb_company_id s) (daily s) month ceiling last (sb_updated s).

Lemma checked_add_u64_fits a b :
  0 <= a -> 0 <= b -> a + b <= I64_MAX -> checked_add_u64 a b = Some (a + b).
Proof. intros. apply checked_add_u64_Some. split; [done|]. widths. lia. Qed.

(** A checked sum tested against the column limit afterwards is one test. *)
Lemma checked_then_fits {E A} (over : E) (a b : Z) (f : Z -> result E A) :
  0 <= a -> 0 <= b -> (I64_MAX < a + b -> f (a + b) = Err over) ->
  (x ← ok_or over (checked_add_u64 a b); f x) =
    if a + b <=? I64_MAX then f (a + b) else Err over.
Proof.
  intros Ha Hb Hf. destruct (checked_add_u64 a b) eqn:Ec; simpl.
  - apply checked_add_u64_Some in Ec as [-> _]. destruct (Z.leb_spec (a + b) I64_MAX); [done|].
    by apply Hf.
  - apply checked_add_u64_None in Ec; [|lia].
    rewrite (proj2 (Z.leb_gt _ _)); [done|]. widths. lia.
Qed.

Lemma checked_add_then_fits {E A} (over : E) (a b : Credits) (f : Credits -> result E A) :
  credits_ok a -> credits_ok b -> (sum_fits a b = false -> f (credits_add a b) = Err over) ->
  (x ← ok_or over (checked_add a b); f x) =
    if sum_fits a b then f (credits_add a b) else Err over.
Proof.
  intros [Ha1 Ha2] [Hb1 Hb2] Hf. destruct (checked_add a b) eqn:Ec; simpl.
  - apply checked_add_Some in Ec as (-> & _). fold (credits_add a b).
    destruct (sum_fits a b) eqn:Ef; [done|by apply Hf].
  - destruct (sum_fits a b) eqn:Ef; [|done]. unfold sum_fits in Ef. fw_bool.
    assert (checked_add a b = Some (credits_add a b)) as E'.
    { apply checked_add_Some. split; [done|]. widths. lia. }
    congruence.
Qed.

Lemma sum_fits_false a b :
  sum_fits a b = false ->
  (I64_MAX <? cpu (credits_add a b)) || (I64_MAX <? inference (credits_add a b)) = true.
Proof.
  unfold sum_fits, credits_add. cbn [cpu inference]. rewrite !Z.ltb_antisym.
  by intros [-> | ->]%andb_false_iff; rewrite ?orb_true_r.
Qed.

Lemma sum_fits_over {E A} a b x y (r : result E A) e :
  sum_fits a b = false ->
  (if (I64_MAX <? cpu (credits_add a b)) || (I64_MAX <? inference (credits_add a b)) || x || y
   then Err e else r) = Err e.
Proof. intros H. by rewrite (sum_fits_false a b H). Qed.

Lemma sum_fits_over' {E A} a b x y (r : result E A) e :
  sum_fits a b = false ->
  (if x || y || (I64_MAX <? cpu (credits_add a b)) || (I64_MAX <? inference (credits_add a b))
   then Err e else r) = Err e.
Proof.
  intros H. rewrite <- orb_assoc, (sum_fits_false a b H). by rewrite orb_true_r.
Qed.

Lemma sum_fits_ok a b :
  credits_ok a -> credits_ok b -> sum_fits a b = true -> credits_ok (credits_add a b).
Proof.
  intros [? ?] [? ?] Hfit. unfold sum_fits in Hfit. fw_bool. split; simpl; widths; lia.
Qed.

Lemma mutated_set m b month :
  operation m = SetCurrent -> credits_ok (month_used b) -> credits_ok (bm_credits m) ->
  mutated m b month =
    if sum_fits (month_used b) (bm_credits m)
    then Ok (with_ceiling (stored b) month (credits_add (month_used b) (bm_credits m))
               (bm_credits m))
    else Err Overflow.
Proof.
  intros Eop [Hm1 Hm2] [Hc1 Hc2]. unfold mutated. rewrite Eop.
  set (s := stored b). set (c := bm_credits m) in *. clearbody s c.
  rewrite checked_then_fits; [|bounds|bounds|].
  2: { intros Hover. rewrite checked_then_fits; [|bounds|bounds|].
       - rewrite (proj2 (Z.ltb_lt _ _)) by done. simpl. by destruct (_ <=? _).
       - intros _. by rewrite (proj2 (Z.ltb_lt I64_MAX _)) by done. }
  unfold sum_fits. destruct (Z.leb_spec (cpu (month_used b) + cpu c) I64_MAX); simpl; [|done].
  rewrite checked_then_fits; [|bounds|bounds|].
  2: { intros Hover. by rewrite (proj2 (Z.ltb_lt I64_MAX (_ + inference c))), orb_true_r by done. }
  destruct (Z.leb_spec (inference (month_used b) + inference c) I64_MAX); [|done].
  by rewrite !(proj2 (Z.ltb_ge I64_MAX _)) by done.
Qed.

Lemma mutated_increase m b month :
  operation m = IncreaseCurrent -> credits_ok (monthly_ceiling (stored b)) ->
  credits_ok (last_set (stored b)) -> credits_ok (bm_credits m) ->
  mutated m b month =
    if negb (budget_month_start_day (stored b) =? month) then Err CurrentMonthNotConfigured
    else if sum_fits (monthly_ceiling (stored b)) (bm_credits m) &&
            sum_fits (last_set (stored b)) (bm_credits m)
    then Ok (with_ceiling (stored b) month
               (credits_add (monthly_ceiling (stored b)) (bm_credits m))
               (credits_add (last_set (stored b)) (bm_credits m)))
    else Err Overflow.
Proof.
  intros Eop Hceil Hlast Hc. unfold mutated. rewrite Eop.
  set (s := stored b) in *. set (c := bm_credits m) in *. clearbody s c.
  destruct (Z.eqb_spec (budget_month_start_day s) month) as [<-|]; simpl; [|done].
  rewrite checked_add_then_fits; [|done|done|].
  2: { intros Hover. rewrite checked_add_then_fits; [|done|done|].
       - destruct (sum_fits (last_set s) c); [|done].
         by rewrite (sum_fits_over (monthly_ceiling s) c) by done.
       - intros _. by rewrite (sum_fits_over (monthly_ceiling s) c) by done. }
  destruct (sum_fits (monthly_ceiling s) c) eqn:E1; [|done].
  rewrite checked_add_then_fits; [|done|done|].
  2: { intros Hover. by rewrite (sum_fits_over' (last_set s) c) by done. }
  destruct (sum_fits (last_set s) c) eqn:E2; [|done]. simpl.
  unfold sum_fits in E1, E2. fw_bool. unfold credits_add. cbn [cpu inference].
  by rewrite !(proj2 (Z.ltb_ge I64_MAX _)) by done.
Qed.

(** A mutation changes exactly what it names. [SetDaily] restates the daily figure;
    [SetCurrent] makes the ceiling the month's usage plus the grant and opens the month;
    [IncreaseCurrent] moves ceiling and grant by the same amount, and is refused in a month
    that was not opened. Each is refused, with nothing changed, exactly when a figure would
    not fit its signed 64-bit column. *)
Theorem mutated_exact m b month :
  credits_ok (month_used b) -> credits_ok (monthly_ceiling (stored b)) ->
  credits_ok (last_set (stored b)) ->
  credits_ok (bm_credits m) ->
  let s := stored b in
  let c := bm_credits m in
  mutated m b month =
    match operation m with
    | SetDaily =>
        Ok (mkStoredBudget (sb_company_id s) c (budget_month_start_day s) (monthly_ceiling s)
              (last_set s) (sb_updated s))
    | SetCurrent =>
        if sum_fits (month_used b) c
        then Ok (with_ceiling s month (credits_add (month_used b) c) c)
        else Err Overflow
    | IncreaseCurrent =>
        if negb (budget_month_start_day s =? month) then Err CurrentMonthNotConfigured
        else if sum_fits (monthly_ceiling s) c && sum_fits (last_set s) c
        then Ok (with_ceiling s month (credits_add (monthly_ceiling s) c)
                   (credits_add (last_set s) c))
        else Err Overflow
    end.
Proof.
  intros Hm Hceil Hlast Hc s c. destruct (operation m) eqn:Eop.
  - unfold mutated. by rewrite Eop.
  - by apply mutated_set.
  - by apply mutated_increase.
Qed.

Lemma monthly_violation_None b requested :
  budget_month_start_day (stored b) = usage_month_start_day b ->
  credits_ok (month_used b) -> credits_ok requested -> credits_ok (monthly_ceiling (stored b)) ->
  monthly_violation b requested = None <->
    (0 < cpu requested ->
       cpu (month_used b) + cpu requested <= cpu (monthly_ceiling (stored b))) /\
    (0 < inference requested ->
       inference (month_used b) + inference requested <= inference (monthly_ceiling (stored b))).
Proof.
  intros Hopen [Hm1 Hm2] [Hr1 Hr2] [Hc1 Hc2]. unfold monthly_violation.
  rewrite (proj2 (Z.eqb_eq _ _) Hopen), violation_if_None. simpl negb. rewrite !orb_false_l.
  rewrite !andb_false_iff, !Z.ltb_ge, !exceeds_false by bounds.
  widths. lia.
Qed.

(** "set current" grants what it says: with the month open, what the monthly gate then
    admits is exactly the granted credits, whatever had been used before, and the next
    "increase current" adds exactly its own amount to that. *)
Theorem set_current_grants m b month s requested :
  operation m = SetCurrent -> usage_month_start_day b = month ->
  credits_ok (month_used b) -> credits_ok (monthly_ceiling (stored b)) ->
  credits_ok (last_set (stored b)) -> credits_ok (bm_credits m) -> credits_ok requested ->
  mutated m b month = Ok s ->
  (monthly_violation (set_stored s b) requested = None <->
     cpu requested <= cpu (bm_credits m) /\ inference requested <= inference (bm_credits m)) /\
  forall m' s', operation m' = IncreaseCurrent -> credits_ok (bm_credits m') ->
    mutated m' (set_stored s b) month = Ok s' ->
    monthly_violation (set_stored s' b) requested = None <->
      cpu requested <= cpu (bm_credits m) + cpu (bm_credits m') /\
      inference requested <= inference (bm_credits m) + inference (bm_credits m').
Proof.
  intros Eop Hmonth Hm Hceil Hlast Hc Hr. rewrite mutated_set by done.
  destruct (sum_fits (month_used b) (bm_credits m)) eqn:Ef; [|done]. intros [= <-].
  pose proof (sum_fits_ok _ _ Hm Hc Ef) as Hceil1.
  destruct Hm as [? ?], Hc as [? ?], Hr as [? ?]. split.
  - rewrite monthly_violation_None; [|done..]. simpl. widths. lia.
  - intros m' s' Eop' Hc'. rewrite mutated_increase by done.
    destruct (negb _); [done|]. simpl stored. simpl monthly_ceiling.
    destruct (sum_fits _ (bm_credits m')) eqn:Ef'; simpl; [|done].
    destruct (sum_fits (bm_credits m) (bm_credits m')); [|done]. intros [= <-].
    pose proof (sum_fits_ok _ _ Hceil1 Hc' Ef') as Hceil2. destruct Hc'.
    rewrite monthly_violation_None; [|done..]. simpl. widths. lia.
Qed.

(** ** Witnesses *)

Theorem bucket_rate_bound_witness :
  let requests := [(0, 10); (5000000000, 5); (TOKEN_PERIOD, 6)] in
  exists b total, bucket_run 10 (full 10 0) requests = (b, total) /\
    total * TOKEN_PERIOD <= 10 * TOKEN_PERIOD + (last_refill b - 0) * 10 /\ bucket_ok 10 b.
Proof.
  intros requests. eexists _, _. split; [by vm_compute|].
  apply (bucket_rate_bound 10 0 requests); [bounds| |simpl; unfold TOKEN_PERIOD; lia|by vm_compute].
  repeat constructor; simpl; lia.
Defined.

Theorem daily_share_exact_witness :
  daily_share 1001 50 = 1001 * 50 / 100 /\ daily_share 1001 50 <= 1001 /\
  1001 * 50 <= U128_MAX /\ (50 = 100 -> daily_share 1001 50 = 1001).
Proof. apply daily_share_exact; [bounds|lia]. Defined.

Definition sample_budget (pool_used : Z) : CompanyBudgetState :=
  mkCompanyBudgetState
    (mkStoredBudget 9 (mkCredits 100 10) 20290 (mkCredits 1000 50) (mkCredits 900 50) 5)
    20290 (mkCredits 400 3) 20300 pool_used 0 0 0.

Theorem extra_grant_exact_witness :
  extra_grant (sample_budget 30) (mkCredits 5 0) 40 = Some 5 <->
    5 = 5 /\ 0 < 5 /\ 0 = 0 /\ 0 < 40 /\ 30 + 5 <= 40.
Proof.
  apply (extra_grant_exact (sample_budget 30) (mkCredits 5 0) 40 5);
    [split; simpl; bounds|simpl; bounds|bounds].
Defined.

Theorem mutated_exact_witness :
  mutated (mkBudgetMutation 9 IncreaseCurrent (mkCredits 100 0)) (sample_budget 0) 20290 =
    Ok (mkStoredBudget 9 (mkCredits 100 10) 20290 (mkCredits 1100 50) (mkCredits 1000 50) 5).
Proof.
  etrans; [apply (mutated_exact (mkBudgetMutation 9 IncreaseCurrent (mkCredits 100 0))
                    (sample_budget 0) 20290)|reflexivity];
    split; simpl; bounds.
Defined.

Theorem set_current_grants_witness :
  let m := mkBudgetMutation 9 SetCurrent (mkCredits 50 7) in
  exists s, mutated m (sample_budget 0) 20290 = Ok s /\
    (monthly_violation (set_stored s (sample_budget 0)) (mkCredits 50 7) = None <->
       50 <= 50 /\ 7 <= 7).
Proof.
  intros m. eexists. split; [by vm_compute|].
  apply (set_current_grants m (sample_budget 0) 20290 _ (mkCredits 50 7));
    try done; try (split; simpl; bounds).
Defined.
