(* ===== verification/Admission.v ===== *)
(** * Admission: what one charge does to the limiter's state

    [quiet] is a state change in which nothing is charged: rows may be loaded, grants
    cached, periods rolled over. Every path of [admit_core] that does not answer [Allowed]
    is quiet, and an [Allowed] one is a quiet change followed by [charged], the exact
    accounting of the request. The theorems are stated over any store with [StoreLaws]. *)

From stdpp Require Import strings.
From S2P Require Import Prelude CreditsBlob TimeFrame Aggregation Storage Access ChargeProtocol.
From S2P Require Import Quota QuotaLaws.

(** ** Roll-overs *)

Definition subject_rolled : relation SubjectState :=
  rtc (fun s s' => exists limits unix_seconds day now,
         s' = refresh_periods limits unix_seconds day now s).

Definition budget_rolled : relation CompanyBudgetState :=
  rtc (fun b b' => (exists day, b' = refresh_day day b) \/ (exists month, b' = refresh_month month b)).

Lemma budget_rolled_keeps b b' :
  budget_rolled b b' ->
  stored b' = stored b /\ cb_version b' = cb_version b /\
  cb_flushed_version b' = cb_flushed_version b.
Proof.
  induction 1 as [|b b1 b2 Hstep _ (-> & -> & ->)]; [done|].
  destruct Hstep as [[d ->]|[m ->]]; unfold refresh_day, refresh_month; by case_match.
Qed.

Lemma time_Ok {S A} (r : result TimeFrameError A) (s s' : S) a :
  se_lift (time r) s = (Ok a, s') -> r = Ok a /\ s = s'.
Proof. unfold se_lift, time. destruct r; simpl; by intros [= -> ->]. Qed.

Section Admission.
Context {St : Type} `{LS : !LimiterStore St} `{SV : !StoreView St} `{SL : !StoreLaws St}.
Variables (policy : LimitPolicy) (access_cache_seconds : Z).

Abbreviation Env := (Quota.Env St).
Abbreviation M := (SE Env anyhow).

Record quiet (e e' : Env) : Prop := {
  q_platform : platform e' = platform e;
  q_usage k row : usage (shard e) !! k = Some row -> usage (shard e') !! k = Some row;
  q_loaded k row :
    usage (shard e) !! k = None -> usage (shard e') !! k = Some row -> exists r, row = loaded r;
  q_budgets c b :
    budgets (shard e) !! c = Some b ->
    exists b', budgets (shard e') !! c = Some b' /\ budget_rolled b b';
  q_subjects k s :
    subjects (shard e) !! k = Some s ->
    exists s', subjects (shard e') !! k = Some s' /\ subject_rolled s s';
  q_store : same_view (store e) (store e');
}.

(** No quota state was created or rolled over either. *)
Definition still (e e' : Env) : Prop :=
  quiet e e' /\ budgets (shard e') = budgets (shard e) /\
  subjects (shard e') = subjects (shard e).

#[export] Instance quiet_preorder : PreOrder quiet.
Proof.
  split.
  - intros e. split; try done.
    + intros k row Hn Hs. by rewrite Hn in Hs.
    + intros c b ?. by exists b.
    + intros k s ?. by exists s.
  - intros e1 e2 e3 H12 H23. split.
    + by rewrite (q_platform _ _ H23), (q_platform _ _ H12).
    + intros k row ?. by apply (q_usage _ _ H23), (q_usage _ _ H12).
    + intros k row Hn Hs. destruct (usage (shard e2) !! k) as [row2|] eqn:E2.
      * pose proof (q_usage _ _ H23 _ _ E2) as E3. rewrite E3 in Hs. injection Hs as <-.
        by apply (q_loaded _ _ H12 k).
      * by apply (q_loaded _ _ H23 k).
    + intros c b (b2 & Hb2 & R2)%(q_budgets _ _ H12).
      apply (q_budgets _ _ H23) in Hb2 as (b3 & Hb3 & R3). exists b3. split; [done|].
      by etrans.
    + intros k s (s2 & Hs2 & R2)%(q_subjects _ _ H12).
      apply (q_subjects _ _ H23) in Hs2 as (s3 & Hs3 & R3). exists s3. split; [done|].
      by etrans.
    + etrans; [apply (q_store _ _ H12)|apply (q_store _ _ H23)].
Qed.

#[export] Instance still_preorder : PreOrder still.
Proof.
  split.
  - intros e. by split.
  - intros e1 e2 e3 (? & E1 & E2) (? & E3 & E4). split_and!; [by etrans|congruence..].
Qed.

Lemma still_quiet e e' : still e e' -> quiet e e'.
Proof. by intros [? _]. Qed.

(** ** The steps that load *)

Lemma keeps_store {A} (m : SE St anyhow A) :
  se_keeps same_view m -> se_keeps still (on_store m).
Proof.
  intros Hm e. unfold on_store. specialize (Hm (store e)). destruct (m (store e)) as [r s].
  split; [|done]. split; simpl; try done.
  - intros k row Hn Hs. by rewrite Hn in Hs.
  - intros c b ?. by exists b.
  - intros k s' ?. by exists s'.
Qed.

Lemma keeps_context {A} message (m : SE St anyhow A) :
  se_keeps same_view m -> se_keeps same_view (context message m).
Proof.
  intros Hm s. specialize (Hm s). unfold context. by destruct (m s) as [[a|e] s'].
Qed.

Lemma keeps_load_exact k : se_keeps same_view (load_exact k : SE St anyhow _).
Proof. intros s. destruct (load_exact k s) eqn:E. by apply load_exact_law in E as [? _]. Qed.
Lemma keeps_load_range c u a b : se_keeps same_view (load_range c u a b : SE St anyhow _).
Proof. intros s. destruct (load_range c u a b s) eqn:E. by apply load_range_law in E as [? _]. Qed.
Lemma keeps_load_budget c : se_keeps same_view (load_budget c : SE St anyhow _).
Proof. intros s. destruct (load_budget c s) eqn:E. by apply load_budget_law in E as [? _]. Qed.
Lemma keeps_load_user_access c u : se_keeps same_view (load_user_access c u : SE St anyhow _).
Proof. intros s. destruct (load_user_access c u s) eqn:E. by apply load_user_access_law in E. Qed.

Lemma keeps_merge k r :
  se_keeps still (modify_shard (fun s => set_usage (merge_loaded k r (usage s)) s) : M unit).
Proof.
  intros e. split; [|done]. split; simpl; try done.
  - intros k' row. unfold merge_loaded. destruct (usage (shard e) !! k) eqn:E; [done|].
    intros Hrow. rewrite lookup_insert_ne; [done|]. congruence.
  - intros k' row Hn. unfold merge_loaded. destruct (usage (shard e) !! k) eqn:E.
    { by rewrite Hn. }
    destruct (decide (k = k')) as [->|Hne]; [|by rewrite lookup_insert_ne, Hn by done].
    rewrite lookup_insert_eq. intros [= <-]. eauto.
  - intros c b ?. by exists b.
  - intros k' s' ?. by exists s'.
Qed.

Lemma keeps_set_access f :
  se_keeps still (modify_shard (fun s => set_access (f s) s) : M unit).
Proof.
  intros e. split; [|done]. split; simpl; try done.
  - intros k row Hn Hs. by rewrite Hn in Hs.
  - intros c b ?. by exists b.
  - intros k' s' ?. by exists s'.
Qed.

Lemma keeps_sum_rows overflow (f : StoredUsage -> RoutedCredits -> M unit) rows total :
  (forall row routes, se_keeps still (f row routes)) ->
  se_keeps still (sum_rows overflow f rows total).
Proof.
  intros Hf. revert total. induction rows as [|row rest IH]; intros total; simpl; keeps.
Qed.

#[local] Hint Resolve keeps_store keeps_context keeps_load_exact keeps_load_range
  keeps_load_budget keeps_load_user_access keeps_merge keeps_set_access keeps_sum_rows : fareward.

Lemma ensure_access_still c u t :
  se_keeps still (ensure_access access_cache_seconds c u t : M unit).
Proof. unfold ensure_access. keeps. Qed.

Lemma authorize_still request t :
  se_keeps still (authorize access_cache_seconds request t : M _).
Proof. unfold authorize, expect. pose proof ensure_access_still. keeps. Qed.

(** A missing entry is added at the end; what was there is untouched. *)
Lemma quiet_new_budget c b (e : Env) :
  budgets (shard e) !! c = None ->
  quiet e (modify_shard (fun s => set_budgets (<[c := b]> (budgets s)) s) e).2.
Proof.
  intros Hn. split; simpl; try done.
  - intros k row Hk Hs. by rewrite Hk in Hs.
  - intros c' b' Hb. exists b'. split; [|done]. rewrite lookup_insert_ne; [done|]. congruence.
  - intros k s ?. by exists s.
Qed.

Lemma quiet_new_subject k s (e : Env) :
  subjects (shard e) !! k = None ->
  quiet e (modify_shard (fun sh => set_subjects (<[k := s]> (subjects sh)) sh) e).2.
Proof.
  intros Hn. split; simpl; try done.
  - intros k' row Hk Hs. by rewrite Hk in Hs.
  - intros c b ?. by exists b.
  - intros k' s' Hb. exists s'. split; [|done]. rewrite lookup_insert_ne; [done|]. congruence.
Qed.

Ltac quiet_steps :=
  repeat (apply (keeps_if_bind _ still);
    [ apply _ | keeps | apply still_quiet
    | intros ? ? ? (_ & ? & ?); congruence
    | intros ?; cbv zeta; repeat case_match ]).

Lemma ensure_budget_quiet c t : se_keeps quiet (ensure_budget c t : M unit).
Proof.
  unfold ensure_budget. apply keeps_get_bind. intros e. destruct (bool_decide _) eqn:Ed; [done|].
  fw_bool. rewrite <- eq_None_not_Some in Ed.
  match goal with |- quiet e (?m e).2 =>
    enough (se_keeps_if (fun e : Env => budgets (shard e) !! c = None) quiet m) as K
      by (by apply K) end.
  quiet_steps; intros e1 H1; by apply quiet_new_budget.
Qed.

Lemma ensure_subject_quiet c u limits t now extra :
  se_keeps quiet (ensure_subject c u limits t now extra : M unit).
Proof.
  unfold ensure_subject. apply keeps_get_bind. intros e. destruct (bool_decide _) eqn:Ed; [done|].
  fw_bool. rewrite <- eq_None_not_Some in Ed.
  match goal with |- quiet e (?m e).2 =>
    enough (se_keeps_if (fun e : Env => subjects (shard e) !! (c, u) = None) quiet m) as K
      by (by apply K) end.
  quiet_steps; intros e1 H1; by apply quiet_new_subject.
Qed.

Lemma refresh_subject_quiet message k limits t day now :
  se_keeps quiet (on_subject message k (se_modify (refresh_periods limits t day now)) : M unit).
Proof.
  intros e. unfold on_subject. destruct (subjects (shard e) !! k) as [s|] eqn:E; [|done].
  split; simpl; try done.
  - intros k' row Hk Hs. by rewrite Hk in Hs.
  - intros c b ?. by exists b.
  - intros k' s' Hs'. destruct (decide (k = k')) as [<-|Hne].
    + rewrite E in Hs'. injection Hs' as <-. rewrite lookup_insert_eq. eexists. split; [done|].
      apply rtc_once. by eexists _, _, _, _.
    + rewrite lookup_insert_ne by done. by exists s'.
Qed.

Lemma refresh_budget_quiet c (f : CompanyBudgetState -> CompanyBudgetState) :
  (forall b, budget_rolled b (f b)) ->
  se_keeps quiet (on_budget c (se_modify f) : M unit).
Proof.
  intros Hf e. unfold on_budget. destruct (budgets (shard e) !! c) as [b|] eqn:E; [|done].
  split; simpl; try done.
  - intros k' row Hk Hs. by rewrite Hk in Hs.
  - intros c' b' Hb'. destruct (decide (c = c')) as [<-|Hne].
    + rewrite E in Hb'. injection Hb' as <-. rewrite lookup_insert_eq. by eexists.
    + rewrite lookup_insert_ne by done. by exists b'.
  - intros k s ?. by exists s.
Qed.

Lemma rolled_month m b : budget_rolled b (refresh_month m b).
Proof. apply rtc_once. eauto. Qed.
Lemma rolled_day_month d m b : budget_rolled b (refresh_day d (refresh_month m b)).
Proof. eapply rtc_l; [right; by exists m|]. apply rtc_once. eauto. Qed.

#[local] Hint Resolve ensure_budget_quiet ensure_subject_quiet refresh_subject_quiet
  refresh_budget_quiet rolled_month rolled_day_month : fareward.

Lemma prepare_quiet request t now : se_keeps quiet (prepare policy request t now : M unit).
Proof. unfold prepare, expect. keeps. Qed.

(** ** The accounting of an admitted request *)

Definition row_plus (route : Z) (c : Credits) (r : UsageRecord) : UsageRecord :=
  mkUsageRecord (bt_insert route (credits_add (spent route (routes r)) c) (routes r))
    (version r + 1) (flushed_version r).

Definition subject_charged (requested : Credits) (count_daily : bool) (s : SubjectState) :
    SubjectState :=
  mkSubjectState
    (mkTokenBucket (scaled_tokens (cpu_bucket s) - cpu requested * TOKEN_PERIOD)
       (last_refill (cpu_bucket s)))
    (mkTokenBucket (scaled_tokens (inference_bucket s) - inference requested * TOKEN_PERIOD)
       (last_refill (inference_bucket s)))
    (hour_period s) (day_period s) (credits_add (hour_used s) requested)
    (if count_daily then credits_add (day_used s) requested else day_used s).

Definition budget_charged (requested : Credits) (extra : Z) (b : CompanyBudgetState) :
    CompanyBudgetState :=
  mkCompanyBudgetState (stored b) (usage_month_start_day b)
    (if 0 <? extra then month_used b else credits_add (month_used b) requested)
    (extra_day_period b)
    (if 0 <? extra then day_extra_used b + extra else day_extra_used b)
    (if 0 <? extra then month_extra_used b + extra else month_extra_used b)
    (cb_version b + 1) (cb_flushed_version b).

(** The four usage rows of a request: two frames for the user and for the company. *)
Definition charged_keys (request : Request) (five day : Z) : list UsageKey :=
  let c := ChargeProtocol.company_id request in
  let u := ChargeProtocol.user_id request in
  [mkUsageKey c u five; mkUsageKey c u day;
   mkUsageKey c COMPANY_AGGREGATE_USER_ID five; mkUsageKey c COMPANY_AGGREGATE_USER_ID day].

Record charged (request : Request) (unix_seconds extra : Z) (e e' : Env) : Prop := {
  ch_subjects :
    exists company user,
      subjects (shard e) !! (ChargeProtocol.company_id request, COMPANY_AGGREGATE_USER_ID) =
        Some company /\
      subjects (shard e) !! (ChargeProtocol.company_id request, ChargeProtocol.user_id request) =
        Some user /\
      subjects (shard e') =
        <[(ChargeProtocol.company_id request, ChargeProtocol.user_id request) :=
            subject_charged (credits request) (negb (0 <? extra)) user]>
        (<[(ChargeProtocol.company_id request, COMPANY_AGGREGATE_USER_ID) :=
             subject_charged (credits request) (negb (0 <? extra)) company]>
         (subjects (shard e)));
  ch_budget :
    exists b, budgets (shard e) !! ChargeProtocol.company_id request = Some b /\
      budgets (shard e') =
        <[ChargeProtocol.company_id request := budget_charged (credits request) extra b]>
          (budgets (shard e));
  ch_usage :
    exists five day, five_minute unix_seconds = Ok five /\ TimeFrame.daily unix_seconds = Ok day /\
      forall k, usage (shard e') !! k =
        if bool_decide (k ∈ charged_keys request five day)
        then Some (row_plus (route_id request) (credits request)
                     (default (loaded []) (usage (shard e) !! k)))
        else usage (shard e) !! k;
  ch_platform :
    exists key routes row, platform_usage_key unix_seconds = Ok key /\
      merge_loaded key routes (platform e) !! key = Some row /\
      platform e' = <[key := row_plus (route_id request) (credits request) row]>
                      (merge_loaded key routes (platform e));
  ch_access : access (shard e') = access (shard e);
  ch_store : same_view (store e) (store e');
}.

Lemma increment_row_plus route c r r' u :
  increment route c r = (Ok u, r') -> r' = row_plus route c r.
Proof.
  intros (w & E & _ & _ & ->)%increment_Ok. apply checked_add_Some in E as (-> & _). done.
Qed.

Lemma increment_row_Ok k route c m u m' :
  increment_row k route c m = (Ok u, m') ->
  m' = <[k := row_plus route c (default (loaded []) (m !! k))]> m.
Proof.
  unfold increment_row. destruct (increment route c _) as [[[]|e] r'] eqn:E; [|done].
  intros [= _ <-]. by apply increment_row_plus in E as ->.
Qed.

(** Updating distinct keys one after the other. *)
Lemma insert_each {V} (f : option V -> V) (ks : list UsageKey) (m : gmap UsageKey V) k :
  NoDup ks ->
  foldl (fun m k => <[k := f (m !! k)]> m) m ks !! k =
    if bool_decide (k ∈ ks) then Some (f (m !! k)) else m !! k.
Proof.
  revert m. induction ks as [|k0 ks IH]; intros m; [done|].
  intros [Hk0 Hnd]%NoDup_cons. simpl. rewrite IH by done.
  destruct (decide (k = k0)) as [->|Hne].
  - rewrite bool_decide_eq_false_2, lookup_insert_eq by done.
    rewrite bool_decide_eq_true_2; [done|]. by left.
  - rewrite lookup_insert_ne by done. repeat case_bool_decide; try done; set_solver.
Qed.

Lemma frames_distinct t five day :
  in_i64 t -> five_minute t = Ok five -> TimeFrame.daily t = Ok day -> five <> day.
Proof.
  intros Ht (? & -> & ?)%five_minute_Ok Hd. apply daily_Ok in Hd as (? & -> & ?); [|done].
  assert (0 <= (t - 18000) / 86400) by (apply Z.div_pos; lia). lia.
Qed.

Lemma increment_usage_Ok request t m u m' :
  in_i64 t -> 0 < ChargeProtocol.user_id request ->
  increment_usage request t m = (Ok u, m') ->
  exists five day, five_minute t = Ok five /\ TimeFrame.daily t = Ok day /\
    forall k, m' !! k =
      if bool_decide (k ∈ charged_keys request five day)
      then Some (row_plus (route_id request) (credits request) (default (loaded []) (m !! k)))
      else m !! k.
Proof.
  intros Ht Hu R. unfold increment_usage in R.
  apply se_bind_ok in R as (five & s1 & [E5 <-]%time_Ok & R).
  apply se_bind_ok in R as (day & s2 & [Ed <-]%time_Ok & R). cbv zeta in R.
  pose proof (frames_distinct _ _ _ Ht E5 Ed) as Hne.
  apply se_bind_ok in R as ([] & m1 & H1%increment_row_Ok & R).
  apply se_bind_ok in R as ([] & m2 & H2%increment_row_Ok & R).
  apply se_bind_ok in R as ([] & m3 & H3%increment_row_Ok & H4%increment_row_Ok).
  exists five, day. split_and!; try done. intros k.
  assert (ChargeProtocol.user_id request <> COMPANY_AGGREGATE_USER_ID) as Hcu
    by (unfold COMPANY_AGGREGATE_USER_ID; lia).
  subst m1 m2 m3 m'.
  apply (insert_each (fun o => row_plus (route_id request) (credits request) (default (loaded []) o))
           (charged_keys request five day) m k).
  unfold charged_keys. repeat constructor; set_unfold; intuition congruence.
Qed.

(** ** Running the steps of [apply_charge] *)

Lemma bucket_charge_inv c b b' :
  bucket_charge c b = Ok b' ->
  b' = mkTokenBucket (scaled_tokens b - c * TOKEN_PERIOD) (last_refill b).
Proof. unfold bucket_charge. case_match; [done|]. by intros [= <-]. Qed.

Lemma checked_credits {S E} (e : E) a b c (s s' : S) :
  se_lift (ok_or e (checked_add a b)) s = (Ok c, s') -> c = credits_add a b /\ s' = s.
Proof.
  unfold se_lift, ok_or. destruct (checked_add a b) eqn:Ec; [|done]. intros [= <- <-].
  by apply checked_add_Some in Ec as (-> & _).
Qed.

Lemma checked_u64 {S E} (e : E) a b c (s s' : S) :
  se_lift (ok_or e (checked_add_u64 a b)) s = (Ok c, s') -> c = a + b /\ s' = s.
Proof.
  unfold se_lift, ok_or. destruct (checked_add_u64 a b) eqn:Ec; [|done]. intros [= <- <-].
  by apply checked_add_u64_Some in Ec as (-> & _).
Qed.

Lemma subject_charge_inv r count s u s' :
  subject_charge r count s = (Ok u, s') -> s' = subject_charged r count s.
Proof.
  unfold subject_charge. intros R.
  apply se_bind_ok in R as (self & s1 & [= <- <-] & R).
  apply se_bind_ok in R as (c & s1 & E & R). unfold se_lift in E. injection E as Ec <-.
  apply se_bind_ok in R as (i & s1 & E & R). unfold se_lift in E. injection E as Ei <-.
  apply bucket_charge_inv in Ec, Ei. subst c i.
  apply se_bind_ok in R as ([] & s1 & [= <-] & R).
  apply se_bind_ok in R as (h & s2 & [-> ->]%checked_credits & R).
  apply se_bind_ok in R as ([] & s3 & [= <-] & R). destruct count.
  - apply se_bind_ok in R as (d & s4 & [-> ->]%checked_credits & [= _ <-]). done.
  - injection R as _ <-. done.
Qed.

Lemma bump_version_inv b u b' :
  bump_version b = (Ok u, b') ->
  b' = mkCompanyBudgetState (stored b) (usage_month_start_day b) (month_used b)
         (extra_day_period b) (day_extra_used b) (month_extra_used b) (cb_version b + 1)
         (cb_flushed_version b).
Proof.
  unfold bump_version. intros R. apply se_bind_ok in R as (self & s1 & [= <- <-] & R).
  apply se_bind_ok in R as (n & s2 & [-> ->]%checked_u64 & [= _ <-]). done.
Qed.

Lemma budget_charge_inv requested extra b u b' :
  (if 0 <? extra then add_extra_used extra else add_month_used requested) b = (Ok u, b') ->
  b' = budget_charged requested extra b.
Proof.
  unfold budget_charged. destruct (0 <? extra); unfold add_extra_used, add_month_used; intros R.
  - apply se_bind_ok in R as (self & s1 & [= <- <-] & R).
    apply se_bind_ok in R as (d & s2 & [-> ->]%checked_u64 & R).
    apply se_bind_ok in R as ([] & s3 & [= <-] & R).
    apply se_bind_ok in R as (m & s4 & [-> ->]%checked_u64 & R).
    apply se_bind_ok in R as ([] & s5 & [= <-] & ->%bump_version_inv). done.
  - apply se_bind_ok in R as (self & s1 & [= <- <-] & R).
    apply se_bind_ok in R as (m & s2 & [-> ->]%checked_credits & R).
    apply se_bind_ok in R as ([] & s3 & [= <-] & ->%bump_version_inv). done.
Qed.

Lemma on_subject_inv {A} message k (m : SE SubjectState anyhow A) (e : Env) a e' :
  on_subject message k m e = (Ok a, e') ->
  exists s s', subjects (shard e) !! k = Some s /\ m s = (Ok a, s') /\
    e' = mkEnv (set_subjects (<[k := s']> (subjects (shard e))) (shard e)) (platform e) (store e).
Proof.
  unfold on_subject. destruct (subjects (shard e) !! k) as [s|]; [|done].
  destruct (m s) as [r s'] eqn:Em. intros [= -> <-]. by eexists _, _.
Qed.

Lemma on_budget_inv {A} c (m : SE CompanyBudgetState anyhow A) (e : Env) a e' :
  on_budget c m e = (Ok a, e') ->
  exists b b', budgets (shard e) !! c = Some b /\ m b = (Ok a, b') /\
    e' = mkEnv (set_budgets (<[c := b']> (budgets (shard e))) (shard e)) (platform e) (store e).
Proof.
  unfold on_budget. destruct (budgets (shard e) !! c) as [b|]; [|done].
  destruct (m b) as [r b'] eqn:Em. intros [= -> <-]. by eexists _, _.
Qed.

Lemma ensure_platform_inv t (e : Env) u e' :
  ensure_platform_usage t e = (Ok u, e') ->
  exists key routes, platform_usage_key t = Ok key /\
    platform e' = merge_loaded key routes (platform e) /\
    shard e' = shard e /\ same_view (store e) (store e').
Proof.
  unfold ensure_platform_usage. intros R.
  apply se_bind_ok in R as (key & s1 & E & R). unfold se_lift in E. injection E as Ekey <-.
  apply se_bind_ok in R as (e0 & s1 & [= <- <-] & R).
  destruct (bool_decide _) eqn:Ed; fw_bool.
  - injection R as _ <-. exists key, []. split; [done|]. split; [|done].
    unfold merge_loaded. destruct Ed as [r Hr]. by rewrite Hr.
  - apply se_bind_ok in R as (row & s1 & E & R).
    apply se_bind_ok in R as (routes & s2 & E2 & R). unfold se_lift in E2. injection E2 as _ <-.
    injection R as _ <-. exists key, routes. split; [done|].
    pose proof (keeps_store _ (keeps_context "failed to initialize platform usage" _
      (keeps_load_exact key)) e) as [Hq _]. rewrite E in Hq. simpl in *.
    assert (shard s1 = shard e /\ platform s1 = platform e) as [-> ->].
    { unfold on_store in E. destruct (context _ _ _). by injection E as _ <-. }
    split_and!; try done. apply (q_store _ _ Hq).
Qed.

Lemma platform_charge_inv request t p u p' :
  increment_platform_usage request t p = (Ok u, p') ->
  exists key row, platform_usage_key t = Ok key /\ p !! key = Some row /\
    p' = <[key := row_plus (route_id request) (credits request) row]> p.
Proof.
  unfold increment_platform_usage. intros R.
  apply se_bind_ok in R as (key & s1 & E & R). unfold se_lift in E. injection E as Ekey <-.
  apply se_bind_ok in R as (e0 & s1 & [= <- <-] & R).
  destruct (p !! key) as [row|] eqn:Er; [|done].
  apply increment_row_Ok in R as ->. rewrite Er. by exists key, row.
Qed.

Lemma apply_charge_inv request t extra (e : Env) u e' :
  in_i64 t -> 0 < ChargeProtocol.user_id request ->
  apply_charge request t extra e = (Ok u, e') -> charged request t extra e e'.
Proof.
  intros Ht Hu. unfold apply_charge. cbv zeta. intros R.
  apply se_bind_ok in R as ([] & e1 & (key & routes & Ekey & Ep & Es & Hv)%ensure_platform_inv & R).
  apply se_bind_ok in R as ([] & e2 & (sc & sc' & Hsc & Ec%subject_charge_inv & ->)%on_subject_inv & R).
  apply se_bind_ok in R as ([] & e3 & (su & su' & Hsu & Eu%subject_charge_inv & ->)%on_subject_inv & R).
  apply se_bind_ok in R as ([] & e4 & (b & b' & Hb & Eb%budget_charge_inv & ->)%on_budget_inv & R).
  apply se_bind_ok in R as ([] & e5 & R5 & R6). unfold on_usage in R5. simpl in R5.
  destruct (increment_usage _ _ _) as [r m'] eqn:Einc. injection R5 as -> <-.
  unfold on_platform in R6. simpl in R6.
  destruct (increment_platform_usage _ _ _) as [r p'] eqn:Epl. injection R6 as -> <-.
  apply increment_usage_Ok in Einc; [|done..].
  apply platform_charge_inv in Epl as (key' & row & Ekey' & Hrow & ->).
  rewrite Ekey in Ekey'. injection Ekey' as <-. rewrite Ep in Hrow |- *.
  simpl in *. rewrite Es in *. subst sc' su' b'.
  assert (ChargeProtocol.user_id request <> COMPANY_AGGREGATE_USER_ID) as Hcu
    by (unfold COMPANY_AGGREGATE_USER_ID; lia).
  rewrite lookup_insert_ne in Hsu by congruence.
  split; simpl; try done.
  - by exists sc, su.
  - by exists b.
  - by exists key, routes, row.
Qed.

Lemma expect_Ok {A} message (o : option A) (e : Env) a e' :
  expect message o e = (Ok a, e') -> o = Some a /\ e = e'.
Proof. unfold expect, se_lift, ok_or. destruct o; by intros [= -> ->]. Qed.

Lemma burst_names company user requested v :
  burst_violation policy company user requested = Some v -> names_resource v = true.
Proof.
  unfold burst_violation, violation. intros E.
  repeat case_match; simplify_eq; by eapply violation_if_Some.
Qed.

Lemma quota_names company user b requested v :
  quota_violation policy company user b requested = Some v -> names_resource v = true.
Proof.
  unfold quota_violation, fixed_limit_violation, monthly_violation. intros E.
  repeat case_match; simplify_eq; by eapply violation_if_Some.
Qed.

Lemma entitlement_names company user b request v :
  entitlement policy company user b request = Err v -> names_resource v = true.
Proof.
  unfold entitlement. destruct (quota_violation _ _ _ _ _) eqn:E; [|done].
  intros [_ <-]%ok_or_Err. by eapply quota_names.
Qed.


End Admission.
