(* ===== verification/AdmissionSafe.v ===== *)
(** * AdmissionSafe: no panic, and no charge beyond a limit

    [shard_ok] is the invariant of a shard: buckets within capacity, counters that fit 64
    bits, cached grants that were validated. [T P m Q] is a Hoare triple for the limiter's
    monad in which an error must not be a panic and must leave the invariant standing. With
    it: [admit_core] keeps the invariant on every path, never panics, and what it admits is
    within every limit afterwards. *)

From stdpp Require Import strings.
From S2P Require Import Prelude CreditsBlob TimeFrame Aggregation Storage Access ChargeProtocol.
From S2P Require Import Quota QuotaLaws Admission.

(** What the store hands back is typed: byte strings of bytes, credits of 64 bits. *)
Class StoreTyped (St : Type) `{LimiterStore St} : Prop := {
  load_exact_typed k s r s' : load_exact k s = (r, s') ->
    match r with
    | Ok o => from_option (fun u => bytes_ok (used_credits u)) True o
    | Err e => is_panic e = false
    end;
  load_range_typed c u a b s r s' : load_range c u a b s = (r, s') ->
    match r with
    | Ok rows => Forall (fun u => bytes_ok (used_credits u)) rows
    | Err e => is_panic e = false
    end;
  load_budget_typed c s r s' : load_budget c s = (r, s') ->
    match r with
    | Ok o => from_option (fun row =>
        credits_ok (daily (budget row)) /\ credits_ok (monthly_ceiling (budget row)) /\
        credits_ok (last_set (budget row)) /\
        in_u64 (day_cpu (extra row)) /\ in_u64 (month_cpu (extra row))) True o
    | Err e => is_panic e = false
    end;
  upsert_budget_typed b s r s' : upsert_budget b s = (r, s') ->
    match r with Ok _ => True | Err e => is_panic e = false end;
  load_user_access_typed c u s r s' : load_user_access c u s = (r, s') ->
    match r with
    | Ok o => from_option (fun r => bytes_ok (sub_grants_blob r)) True o
    | Err e => is_panic e = false
    end;
}.

Definition limits_ok (l : ScopeLimits) : Prop :=
  in_u64 (ten_seconds (lim_cpu l)) /\ in_u64 (ten_seconds (lim_inference l)) /\
  in_u64 (hour (lim_cpu l)) /\ in_u64 (hour (lim_inference l)).

Definition policy_ok (p : LimitPolicy) : Prop :=
  limits_ok (pol_company p) /\ limits_ok (pol_user p) /\
  in_u64 (company_extra_daily_cpu p) /\ in_u64 (user_daily_share_pct p).

Definition subject_ok (l : ScopeLimits) (s : SubjectState) : Prop :=
  bucket_ok (ten_seconds (lim_cpu l)) (cpu_bucket s) /\
  bucket_ok (ten_seconds (lim_inference l)) (inference_bucket s) /\
  credits_ok (hour_used s) /\ credits_ok (day_used s).

Definition budget_ok (b : CompanyBudgetState) : Prop :=
  credits_ok (month_used b) /\ credits_ok (daily (stored b)) /\
  credits_ok (monthly_ceiling (stored b)) /\ credits_ok (last_set (stored b)) /\
  in_u64 (day_extra_used b) /\ in_u64 (month_extra_used b).

Definition access_ok (a : UserAccessState) : Prop := exists ws es, state_reads a ws es.

Definition request_ok (r : Request) : Prop :=
  0 < ChargeProtocol.user_id r /\ credits_ok (credits r) /\
  (length (required_access r) <= MAX_REQUIRED_ACCESS)%nat.

Lemma credits_default_ok : credits_ok credits_default.
Proof. split; simpl; bounds. Qed.

(** ** The parts *)

Lemma recovered_ok l t day now hour_used day_used :
  limits_ok l -> credits_ok hour_used -> credits_ok day_used ->
  subject_ok l (recovered l t day now hour_used day_used).
Proof.
  intros (? & ? & ? & ?) ? ?. split_and!; try done; apply full_ok; bounds.
Qed.

Lemma refresh_periods_ok l t day now s :
  limits_ok l -> subject_ok l s -> subject_ok l (refresh_periods l t day now s).
Proof.
  intros (? & ? & ? & ?) (? & ? & ? & ?). unfold refresh_periods. split_and!; simpl.
  - by apply refill_tokens.
  - by apply refill_tokens.
  - case_match; [done|apply credits_default_ok].
  - case_match; [done|apply credits_default_ok].
Qed.

Lemma refresh_month_ok m b : budget_ok b -> budget_ok (refresh_month m b).
Proof.
  intros Hb. unfold refresh_month. case_match; [done|].
  destruct Hb as (? & ? & ? & ? & ? & ?). split_and!; simpl; try done; try bounds.
Qed.

Lemma refresh_day_ok d b : budget_ok b -> budget_ok (refresh_day d b).
Proof.
  intros Hb. unfold refresh_day. case_match; [done|].
  destruct Hb as (? & ? & ? & ? & ? & ?). split_and!; simpl; try done; try bounds.
Qed.

Lemma checked_add_ok a b c :
  credits_ok a -> credits_ok b -> checked_add a b = Some c -> credits_ok c.
Proof. intros [] [] (-> & ? & ?)%checked_add_Some. by split. Qed.

(** [subject_charge] from a state that can pay: never a panic, whatever overflows. *)
Lemma subject_charge_ok l requested count s :
  credits_ok requested -> subject_ok l s ->
  can_charge (cpu_bucket s) (cpu requested) = true ->
  can_charge (inference_bucket s) (inference requested) = true ->
  subject_ok l (subject_charge requested count s).2 /\
  match (subject_charge requested count s).1 with Ok _ => True | Err e => is_panic e = false end.
Proof.
  intros Hr (Hb1 & Hb2 & Hh & Hd) Hc1 Hc2. pose proof Hr as [Hr1 Hr2].
  unfold subject_charge, mbind, SE_bind, se_get, se_lift, se_put, se_modify.
  destruct (bucket_charge (cpu requested) (cpu_bucket s)) as [b1|e] eqn:E1.
  2: { assert (bucket_charge (cpu requested) (cpu_bucket s) =
         Ok (mkTokenBucket (scaled_tokens (cpu_bucket s) - cpu requested * TOKEN_PERIOD)
               (last_refill (cpu_bucket s)))) as E.
       { apply (bucket_charge_Ok _ _ _ _ (proj1 Hr1) Hb1). done. } congruence. }
  destruct (bucket_charge (inference requested) (inference_bucket s)) as [b2|e] eqn:E2.
  2: { assert (bucket_charge (inference requested) (inference_bucket s) =
         Ok (mkTokenBucket (scaled_tokens (inference_bucket s) - inference requested * TOKEN_PERIOD)
               (last_refill (inference_bucket s)))) as E.
       { apply (bucket_charge_Ok _ _ _ _ (proj1 Hr2) Hb2). done. } congruence. }
  apply (bucket_charge_ok (ten_seconds (lim_cpu l))) in E1; [|by apply Hr1|done].
  apply (bucket_charge_ok (ten_seconds (lim_inference l))) in E2; [|by apply Hr2|done].
  unfold ok_or. simpl. destruct (checked_add (hour_used s) requested) as [h|] eqn:Eh; simpl.
  2: { by split_and!. }
  apply checked_add_ok in Eh; [|done..]. destruct count; simpl; [|by split_and!].
  destruct (checked_add (day_used s) requested) as [d|] eqn:Edd; simpl; [|by split_and!].
  apply checked_add_ok in Edd; [|done..]. by split_and!.
Qed.

Lemma bump_version_ok b :
  budget_ok b -> budget_ok (bump_version b).2 /\
  match (bump_version b).1 with Ok _ => True | Err e => is_panic e = false end.
Proof.
  intros Hb. unfold bump_version, mbind, SE_bind, se_get, se_lift, se_put, ok_or. simpl.
  by destruct (checked_add_u64 _ _).
Qed.

Lemma budget_charge_ok requested extra b :
  credits_ok requested -> 0 <= extra -> budget_ok b ->
  let m := if 0 <? extra then add_extra_used extra else add_month_used requested in
  budget_ok (m b).2 /\ match (m b).1 with Ok _ => True | Err e => is_panic e = false end.
Proof.
  intros Hr He (Hm & Hd & Hc & Hl & H1 & H2) m. subst m. destruct (0 <? extra).
  - unfold add_extra_used, mbind, SE_bind, se_get, se_lift, se_modify, ok_or. simpl.
    destruct (checked_add_u64 (day_extra_used b) extra) as [d|] eqn:E1; simpl; [|by split_and!].
    apply checked_add_u64_Some in E1 as [-> ?].
    destruct (checked_add_u64 (month_extra_used b) extra) as [mo|] eqn:E2; simpl; [|by split_and!].
    apply checked_add_u64_Some in E2 as [-> ?].
    apply bump_version_ok. by split_and!.
  - unfold add_month_used, mbind, SE_bind, se_get, se_lift, se_modify, ok_or. simpl.
    destruct (checked_add (month_used b) requested) as [mo|] eqn:E1; simpl; [|by split_and!].
    apply checked_add_ok in E1; [|done..].
    apply bump_version_ok. by split_and!.
Qed.

(** ** What a request may leave behind *)

(** Every limit, after the charge. *)
Record within_limits (policy : LimitPolicy) (request : Request) (extra : Z)
    (company user : SubjectState) (b : CompanyBudgetState) : Prop := {
  wl_hour_company :
    cpu (hour_used company) <= hour (lim_cpu (pol_company policy)) /\
    inference (hour_used company) <= hour (lim_inference (pol_company policy));
  wl_hour_user :
    cpu (hour_used user) <= hour (lim_cpu (pol_user policy)) /\
    inference (hour_used user) <= hour (lim_inference (pol_user policy));
  wl_daily : extra = 0 ->
    cpu (day_used company) <= cpu (daily (stored b)) /\
    inference (day_used company) <= inference (daily (stored b)) /\
    cpu (day_used user) <= daily_share (cpu (daily (stored b))) (user_daily_share_pct policy) /\
    inference (day_used user) <=
      daily_share (inference (daily (stored b))) (user_daily_share_pct policy);
  wl_monthly : extra = 0 ->
    (0 < cpu (credits request) ->
       budget_month_start_day (stored b) = usage_month_start_day b /\
       cpu (month_used b) <= cpu (monthly_ceiling (stored b))) /\
    (0 < inference (credits request) ->
       budget_month_start_day (stored b) = usage_month_start_day b /\
       inference (month_used b) <= inference (monthly_ceiling (stored b)));
  wl_extra : extra <> 0 ->
    extra_credits_allowed request = true /\ inference (credits request) = 0 /\
    extra = cpu (credits request) /\ 0 < extra /\
    day_extra_used b <= company_extra_daily_cpu policy;
}.

Lemma burst_None policy company user requested :
  burst_violation policy company user requested = None ->
  can_charge (cpu_bucket company) (cpu requested) = true /\
  can_charge (inference_bucket company) (inference requested) = true /\
  can_charge (cpu_bucket user) (cpu requested) = true /\
  can_charge (inference_bucket user) (inference requested) = true /\
  exceeds (cpu (hour_used company)) (cpu requested) (hour (lim_cpu (pol_company policy))) = false /\
  exceeds (inference (hour_used company)) (inference requested)
    (hour (lim_inference (pol_company policy))) = false /\
  exceeds (cpu (hour_used user)) (cpu requested) (hour (lim_cpu (pol_user policy))) = false /\
  exceeds (inference (hour_used user)) (inference requested)
    (hour (lim_inference (pol_user policy))) = false.
Proof.
  unfold burst_violation.
  destruct (violation company Company TenSeconds _ _) eqn:E1; [done|].
  destruct (violation user User TenSeconds _ _) eqn:E2; [done|].
  destruct (violation company Company Hour _ _) eqn:E3; [done|]. intros E4.
  unfold violation in *. rewrite violation_if_None in *. rewrite !negb_false_iff in *. tauto.
Qed.

Lemma gates_bound policy request extra company user b :
  policy_ok policy -> credits_ok (credits request) ->
  subject_ok (pol_company policy) company -> subject_ok (pol_user policy) user -> budget_ok b ->
  burst_violation policy company user (credits request) = None ->
  entitlement policy company user b request = Ok extra ->
  0 <= extra /\
  within_limits policy request extra
    (subject_charged (credits request) (negb (0 <? extra)) company)
    (subject_charged (credits request) (negb (0 <? extra)) user)
    (budget_charged (credits request) extra b).
Proof.
  intros ((?&?&?&?) & (?&?&?&?) & Hpool & Hpct) [Hr1 Hr2] (Hb1 & Hb2 & [Hh1 Hh2] & [Hd1 Hd2])
    (Hb3 & Hb4 & [Hh3 Hh4] & [Hd3 Hd4]) ([Hm1 Hm2] & [Hdl1 Hdl2] & [Hc1 Hc2] & _ & Hx1 & Hx2)
    (_ & _ & _ & _ & X1 & X2 & X3 & X4)%burst_None Hent.
  rewrite !exceeds_false in X1, X2, X3, X4 by bounds.
  assert (forall c p, in_u64 (daily_share c p) \/ c < 0 \/ p < 0) as Hshare.
  { intros c p. destruct (Z.ltb_spec c 0); [by right; left|]. destruct (Z.ltb_spec p 0); [by right; right|].
    left. unfold daily_share. rewrite Z.quot_div_nonneg by nia.
    assert (0 <= c * p / 100) by (apply Z.div_pos; nia).
    destruct (Z.leb_spec (c * p / 100) U64_MAX); [done|bounds]. }
  assert (in_u64 (daily_share (cpu (daily (stored b))) (user_daily_share_pct policy))).
  { destruct (Hshare (cpu (daily (stored b))) (user_daily_share_pct policy)); [done|]. bounds. }
  assert (in_u64 (daily_share (inference (daily (stored b))) (user_daily_share_pct policy))).
  { destruct (Hshare (inference (daily (stored b))) (user_daily_share_pct policy)); [done|]. bounds. }
  clear Hshare.
  unfold entitlement in Hent. destruct (quota_violation _ _ _ _ _) as [v|] eqn:Eq.
  - apply ok_or_Ok in Hent. destruct (extra_credits_allowed request) eqn:Ea; [|done].
    apply extra_grant_Some in Hent as (-> & ? & ? & ? & ?); [|by split|done|done].
    split; [lia|]. rewrite (proj2 (Z.ltb_lt 0 _)) by done.
    split; simpl; rewrite ?(proj2 (Z.ltb_lt 0 _)) by done; try lia; done.
  - injection Hent as <-. split; [done|].
    unfold quota_violation, fixed_limit_violation in Eq.
    destruct (violation_if Company Day _ _) eqn:V1; [done|].
    destruct (violation_if User Day _ _) eqn:V2; [done|].
    unfold monthly_violation in Eq. rewrite violation_if_None in *.
    destruct V1 as [V1 V1'], V2 as [V2 V2'], Eq as [V3 V3']. unfold user_daily in *. simpl in *.
    rewrite !exceeds_false in V1, V1', V2, V2' by bounds.
    split; simpl; try done; try lia. intros _.
    split; intros Hpos.
    + rewrite (proj2 (Z.ltb_lt 0 _)) in V3 by done. simpl in V3.
      apply orb_false_iff in V3 as [Vm V3]. rewrite exceeds_false in V3 by bounds.
      apply negb_false_iff, Z.eqb_eq in Vm. done.
    + rewrite (proj2 (Z.ltb_lt 0 _)) in V3' by done. simpl in V3'.
      apply orb_false_iff in V3' as [Vm V3']. rewrite exceeds_false in V3' by bounds.
      apply negb_false_iff, Z.eqb_eq in Vm. done.
Qed.

(** ** Triples *)

Section Safe.
Context {St : Type} `{LS : !LimiterStore St} `{ST : !StoreTyped St}.
Variables (policy : LimitPolicy) (access_cache_seconds : Z).
Hypothesis Hpolicy : policy_ok policy.

Abbreviation Env := (Quota.Env St).
Abbreviation M := (SE Env anyhow).

Definition limits_of (user : Z) : ScopeLimits :=
  if user =? COMPANY_AGGREGATE_USER_ID then pol_company policy else pol_user policy.

Lemma limits_of_ok user : limits_ok (limits_of user).
Proof. unfold limits_of. case_match; apply Hpolicy. Qed.

Record shard_ok (s : ShardState) : Prop := {
  ok_subjects k x : subjects s !! k = Some x -> subject_ok (limits_of k.2) x;
  ok_budgets c b : budgets s !! c = Some b -> budget_ok b;
  ok_access k a : access s !! k = Some a -> access_ok a;
}.

(** The precondition speaks of the shard and the platform rows: the store is whatever the
    environment made of it. *)
Definition T {A} (P : ShardState -> UsageMap -> Prop) (m : M A)
    (Q : A -> ShardState -> UsageMap -> Prop) : Prop :=
  forall e, P (shard e) (platform e) ->
    match m e with
    | (Ok a, e') => Q a (shard e') (platform e')
    | (Err x, e') => is_panic x = false /\ shard_ok (shard e')
    end.

Lemma T_ret {A} (a : A) P : T P (mret a) (fun x s p => x = a /\ P s p).
Proof. by intros e HP. Qed.

Lemma T_bind {A B} (m : M A) (f : A -> M B) P Q R :
  T P m Q -> (forall a, T (Q a) (f a) R) -> T P (m ≫= f) R.
Proof.
  intros Hm Hf e HP. specialize (Hm e HP). unfold mbind, SE_bind.
  destruct (m e) as [[a|x] e1]; [|done]. by apply Hf.
Qed.

Lemma T_conseq {A} (m : M A) P P' (Q Q' : A -> ShardState -> UsageMap -> Prop) :
  T P' m Q' -> (forall s p, P s p -> P' s p) -> (forall a s p, Q' a s p -> Q a s p) -> T P m Q.
Proof.
  intros Hm HP HQ e He. specialize (Hm e (HP _ _ He)).
  destruct (m e) as [[a|x] e1]; [by apply HQ|done].
Qed.

Lemma T_lift {A} (r : result anyhow A) (P : ShardState -> UsageMap -> Prop) :
  (forall s p, P s p -> shard_ok s) ->
  match r with Ok _ => True | Err x => is_panic x = false end ->
  T P (se_lift r) (fun a s p => r = Ok a /\ P s p).
Proof. intros HP Hr e He. unfold se_lift. destruct r; simpl; eauto. Qed.

Lemma T_get (P : ShardState -> UsageMap -> Prop) :
  T P se_get (fun e s p => shard e = s /\ platform e = p /\ P s p).
Proof. by intros e He. Qed.

Lemma T_expect {A} message (o : option A) (P : ShardState -> UsageMap -> Prop) :
  (forall s p, P s p -> is_Some o) ->
  T P (expect message o) (fun a s p => o = Some a /\ P s p).
Proof. intros Ho e He. unfold expect, se_lift. by destruct (Ho _ _ He) as [a ->]. Qed.

Lemma T_store {A} (m : SE St anyhow A) (Q : A -> Prop) message P :
  (forall s p, P s p -> shard_ok s) ->
  (forall s r s', m s = (r, s') -> match r with Ok a => Q a | Err x => is_panic x = false end) ->
  T P (on_store (context message m)) (fun a s p => Q a /\ P s p).
Proof.
  intros HP Hm e He. unfold on_store, context. destruct (m (store e)) as [[a|x] s'] eqn:E;
    apply Hm in E; simpl; [done|]. rewrite E. split; [done|]. by eapply HP.
Qed.

Lemma T_modify (f : ShardState -> ShardState) P (Q : ShardState -> UsageMap -> Prop) :
  (forall s p, P s p -> Q (f s) p) -> T P (modify_shard f) (fun _ => Q).
Proof. intros Hf e He. simpl. by apply Hf. Qed.

Lemma T_subject {A} message k (m : SE SubjectState anyhow A) (P : ShardState -> UsageMap -> Prop)
    (Q : SubjectState -> result anyhow A -> SubjectState -> Prop) :
  (forall s p, P s p -> shard_ok s /\ is_Some (subjects s !! k)) ->
  (forall s p x, P s p -> subjects s !! k = Some x -> subject_ok (limits_of k.2) x ->
     subject_ok (limits_of k.2) (m x).2 /\
     match (m x).1 with Ok _ => True | Err e => is_panic e = false end) ->
  T P (on_subject message k m) (fun _ s' p =>
    exists s x x', P s p /\ subjects s !! k = Some x /\ x' = (m x).2 /\
      s' = set_subjects (<[k := x']> (subjects s)) s /\ shard_ok s').
Proof.
  intros HP Hm e He. unfold on_subject. destruct (HP _ _ He) as [Hok [x Hx]]. rewrite Hx.
  destruct (Hm _ _ _ He Hx (ok_subjects _ Hok _ _ Hx)) as [Hx' Hr].
  assert (shard_ok (set_subjects (<[k := (m x).2]> (subjects (shard e))) (shard e))) as Hok'.
  { split; simpl; [|apply Hok|apply Hok]. intros k' y. destruct (decide (k = k')) as [<-|].
    - rewrite lookup_insert_eq. by intros [= <-].
    - rewrite lookup_insert_ne by done. apply Hok. }
  destruct (m x) as [[a|err] x'] eqn:Em; simpl in *; [|done].
  exists (shard e), x, x'. rewrite Em. done.
Qed.

Lemma T_budget {A} c (m : SE CompanyBudgetState anyhow A) (P : ShardState -> UsageMap -> Prop) :
  (forall s p, P s p -> shard_ok s /\ is_Some (budgets s !! c)) ->
  (forall b, budget_ok b -> budget_ok (m b).2 /\
     match (m b).1 with Ok _ => True | Err e => is_panic e = false end) ->
  T P (on_budget c m) (fun _ s' p =>
    exists s b, P s p /\ budgets s !! c = Some b /\
      s' = set_budgets (<[c := (m b).2]> (budgets s)) s /\ shard_ok s').
Proof.
  intros HP Hm e He. unfold on_budget. destruct (HP _ _ He) as [Hok [b Hb]]. rewrite Hb.
  destruct (Hm _ (ok_budgets _ Hok _ _ Hb)) as [Hb' Hr].
  assert (shard_ok (set_budgets (<[c := (m b).2]> (budgets (shard e))) (shard e))) as Hok'.
  { split; simpl; [apply Hok| |apply Hok]. intros c' y. destruct (decide (c = c')) as [<-|].
    - rewrite lookup_insert_eq. by intros [= <-].
    - rewrite lookup_insert_ne by done. apply Hok. }
  destruct (m b) as [[a|err] b'] eqn:Em; simpl in *; [|done].
  exists (shard e), b. rewrite Em. done.
Qed.

(** ** Loading *)

Lemma decode_credits_ok bs routes : bytes_ok bs -> decode bs = Ok routes -> Forall credits_ok routes.*2.
Proof.
  intros Hok E. destruct (decode_loop_sound _ _ _ None _ E Hok) as (m & -> & _ & (_ & _ & Hm) & _); [done|].
  apply (Forall_impl _ _ _ Hm). intros c [[? ?] [? ?]]. split; bounds.
Qed.

Lemma sum_ok routes s : Forall credits_ok routes.*2 -> sum routes = Ok s -> credits_ok s.
Proof. intros Hr E. apply sum_from_Ok in E as [_ ?]; [done|apply credits_default_ok|done]. Qed.

Lemma T_sum_rows overflow (f : StoredUsage -> RoutedCredits -> M unit) P rows total :
  (forall s p, P s p -> shard_ok s) ->
  (forall row routes, T P (f row routes) (fun _ => P)) ->
  Forall (fun u => bytes_ok (used_credits u)) rows -> credits_ok total ->
  T P (sum_rows overflow f rows total) (fun c s p => credits_ok c /\ P s p).
Proof.
  intros HP Hf Hrows. revert total. induction rows as [|row rest IH]; intros total Ht.
  { by intros e He. }
  apply Forall_cons in Hrows as [Hrow Hrest]. cbn [sum_rows].
  eapply T_bind; [apply T_lift; [done|by destruct (decode _)]|]. intros routes. simpl.
  eapply T_bind; [apply T_lift; [by intros s p [_ ?]; eapply HP|by destruct (sum _)]|]. intros c. simpl.
  eapply T_bind; [apply T_lift; [by intros s p (_ & _ & ?); eapply HP|by destruct (checked_add _ _)]|].
  intros total'. simpl. intros e (E1 & E2 & E3 & He).
  assert (credits_ok total') as Htot'.
  { apply ok_or_Ok in E1, E3. destruct (decode (used_credits row)) eqn:Ed; simplify_eq.
    apply decode_credits_ok in Ed; [|done]. unfold blob in E2. destruct (sum routes) eqn:Es; simplify_eq/=.
    apply sum_ok in Es; [|done]. by apply (checked_add_ok total c). }
  revert e He. change (T P (_ ← f row routes; sum_rows overflow f rest total')
    (fun c s p => credits_ok c /\ P s p)).
  eapply T_bind; [apply Hf|]. intros []. by apply IH.
Qed.

(** The invariant, with the entries known to be there. *)
Definition inv (cs : list Z) (ks : list (Z * Z)) (s : ShardState) (_ : UsageMap) : Prop :=
  shard_ok s /\ Forall (fun c => is_Some (budgets s !! c)) cs /\
  Forall (fun k => is_Some (subjects s !! k)) ks.

Lemma inv_ok cs ks s p : inv cs ks s p -> shard_ok s.
Proof. by intros [? _]. Qed.

Lemma inv_set_usage cs ks s p m : inv cs ks s p -> inv cs ks (set_usage m s) p.
Proof. intros ([? ? ?] & ? & ?). by split_and!. Qed.

Lemma inv_set_access cs ks s p k a :
  access_ok a -> inv cs ks s p -> inv cs ks (set_access (<[k := a]> (access s)) s) p.
Proof.
  intros Ha (Hok & ? & ?). split_and!; try done. split; simpl; try apply Hok.
  intros k' a'. destruct (decide (k = k')) as [<-|].
  - rewrite lookup_insert_eq. by intros [= <-].
  - rewrite lookup_insert_ne by done. apply Hok.
Qed.

Lemma inv_new_budget cs ks s p c b :
  budget_ok b -> inv cs ks s p -> inv (c :: cs) ks (set_budgets (<[c := b]> (budgets s)) s) p.
Proof.
  intros Hb (Hok & Hcs & ?). split_and!; try done.
  - split; simpl; try apply Hok. intros c' b'. destruct (decide (c = c')) as [<-|].
    + rewrite lookup_insert_eq. by intros [= <-].
    + rewrite lookup_insert_ne by done. apply Hok.
  - simpl. constructor; [by rewrite lookup_insert_eq|]. apply (Forall_impl _ _ _ Hcs).
    intros c' ?. by rewrite lookup_insert_is_Some'; right.
Qed.

Lemma inv_new_subject cs ks s p k x :
  subject_ok (limits_of k.2) x -> inv cs ks s p ->
  inv cs (k :: ks) (set_subjects (<[k := x]> (subjects s)) s) p.
Proof.
  intros Hx (Hok & ? & Hks). split_and!; try done.
  - split; simpl; try apply Hok. intros k' x'. destruct (decide (k = k')) as [<-|].
    + rewrite lookup_insert_eq. by intros [= <-].
    + rewrite lookup_insert_ne by done. apply Hok.
  - simpl. constructor; [by rewrite lookup_insert_eq|]. apply (Forall_impl _ _ _ Hks).
    intros k' ?. by rewrite lookup_insert_is_Some'; right.
Qed.

(** A step that returns early when the entry is already there. *)
Lemma T_ensure (present : Env -> bool) (body : M unit) P Q :
  (forall e, P (shard e) (platform e) -> present e = true -> Q (shard e) (platform e)) ->
  T P body (fun _ => Q) ->
  T P (e ← se_get; if present e then mret tt else body) (fun _ => Q).
Proof.
  intros Hp Hb e He. unfold mbind, SE_bind, se_get. destruct (present e) eqn:E.
  - by apply Hp.
  - by apply Hb.
Qed.

Lemma time_no_panic {A} (r : result TimeFrameError A) :
  match time r with Ok _ => True | Err x => is_panic x = false end.
Proof. by destruct r. Qed.
Lemma blob_no_panic {A} (r : result CreditsBlobError A) :
  match blob r with Ok _ => True | Err x => is_panic x = false end.
Proof. by destruct r. Qed.
Lemma ok_or_no_panic {A} message (o : option A) :
  match ok_or (Msg message) o with Ok _ => True | Err x => is_panic x = false end.
Proof. by destruct o. Qed.

(** A pure step whose value is not constrained. *)
Lemma T_bind_pure {A B} (r : result anyhow A) (f : A -> M B) P R :
  (forall s p, P s p -> shard_ok s) ->
  match r with Ok _ => True | Err x => is_panic x = false end ->
  (forall a, r = Ok a -> T P (f a) R) -> T P (se_lift r ≫= f) R.
Proof.
  intros HP Hr Hf e He. unfold mbind, SE_bind, se_lift. destruct r as [a|x]; simpl in *.
  - by apply Hf.
  - split; [done|]. by eapply HP.
Qed.

(** A store read whose value satisfies [V]. *)
Lemma T_bind_store {A B} (V : A -> Prop) message (m : SE St anyhow A) (f : A -> M B) P R :
  (forall s p, P s p -> shard_ok s) ->
  (forall s r s', m s = (r, s') -> match r with Ok a => V a | Err x => is_panic x = false end) ->
  (forall a, V a -> T P (f a) R) -> T P (on_store (context message m) ≫= f) R.
Proof.
  intros HP Hm Hf. eapply T_bind; [by apply (T_store m V)|].
  intros a e [HV He]. by apply Hf.
Qed.

Lemma T_ensure_budget cs ks c t :
  T (inv cs ks) (ensure_budget c t) (fun _ => inv (c :: cs) ks).
Proof.
  apply (T_ensure (fun e => bool_decide (is_Some (budgets (shard e) !! c)))).
  { intros e (? & ? & ?) Hb%bool_decide_eq_true. split_and!; try done. by constructor. }
  apply T_bind_pure; [apply inv_ok|apply time_no_panic|]. intros month _.
  apply T_bind_pure; [apply inv_ok|apply time_no_panic|]. intros day _.
  eapply T_bind_store; [apply inv_ok|apply load_budget_typed|]. intros row Hrow. cbv zeta.
  apply T_bind_pure; [apply inv_ok|apply ok_or_no_panic|]. intros first _.
  apply T_bind_pure; [apply inv_ok|apply time_no_panic|]. intros current _.
  eapply T_bind_store; [apply inv_ok|apply load_range_typed|]. intros rows Hrows.
  eapply T_bind.
  { apply (T_sum_rows _ _ (inv cs ks)); [apply inv_ok| |done|apply credits_default_ok].
    intros _ _. by intros e He. }
  intros used. apply T_modify. intros s p [[Hu1 Hu2] Hinv]. apply inv_new_budget; [|done].
  assert (Hx : let r := default stored_budget_row_default row in
    credits_ok (daily (budget r)) /\ credits_ok (monthly_ceiling (budget r)) /\
    credits_ok (last_set (budget r)) /\ in_u64 (day_cpu (extra r)) /\ in_u64 (month_cpu (extra r))).
  { destruct row as [r|]; [done|]. split_and!; try apply credits_default_ok; simpl; bounds. }
  destruct Hx as (? & ? & ? & ? & ?).
  assert (in_u64 (if se_day_period (extra (default stored_budget_row_default row)) =? day
    then day_cpu (extra (default stored_budget_row_default row)) else 0))
    by (match goal with |- context [if ?b then _ else _] => destruct b end; [done|bounds]).
  assert (in_u64 (if se_month_start_day (extra (default stored_budget_row_default row)) =? month
    then month_cpu (extra (default stored_budget_row_default row)) else 0))
    by (match goal with |- context [if ?b then _ else _] => destruct b end; [done|bounds]).
  split_and!; try done. split; simpl; [|done]. unfold saturating_sub. widths. lia.
Qed.

Lemma T_ensure_subject cs ks c u t now extra :
  in_u64 extra ->
  T (inv cs ks) (ensure_subject c u (limits_of u) t now extra) (fun _ => inv cs ((c, u) :: ks)).
Proof.
  intros Hextra. apply (T_ensure (fun e => bool_decide (is_Some (subjects (shard e) !! (c, u))))).
  { intros e (? & ? & ?) Hb%bool_decide_eq_true. split_and!; try done. by constructor. }
  apply T_bind_pure; [apply inv_ok|apply time_no_panic|]. intros day _. cbv zeta.
  eapply T_bind_store; [apply inv_ok|apply load_exact_typed|]. intros row Hrow.
  apply T_bind_pure; [apply inv_ok| |].
  { destruct row; [apply blob_no_panic|done]. }
  intros routes Eroutes.
  assert (Forall credits_ok routes.*2) as Hroutes.
  { unfold decode_optional in Eroutes. destruct row as [row|]; simpl in *.
    - unfold blob in Eroutes. destruct (decode (used_credits row)) eqn:Ed; simplify_eq/=.
      by eapply decode_credits_ok.
    - injection Eroutes as <-. constructor. }
  eapply T_bind; [apply T_modify; intros s p; apply inv_set_usage|]. intros [].
  apply T_bind_pure; [apply inv_ok|apply time_no_panic|]. intros [hour_start hour_end] _.
  eapply T_bind_store; [apply inv_ok|apply load_range_typed|]. intros rows Hrows.
  eapply T_bind.
  { apply (T_sum_rows _ _ (inv cs ks)); [apply inv_ok| |done|apply credits_default_ok].
    intros r rs. apply T_modify. intros s p. apply inv_set_usage. }
  intros hour_used. apply T_bind_pure; [by intros s p [_ ?%inv_ok]|apply blob_no_panic|].
  intros day_used Eday. unfold blob in Eday. destruct (sum routes) eqn:Es; simplify_eq/=.
  apply sum_ok in Es as [Hd1 Hd2]; [|done].
  apply T_bind_pure; [by intros s p [_ ?%inv_ok]|apply time_no_panic|]. intros dp _.
  apply T_modify. intros s p [Hh Hinv]. apply inv_new_subject; [|done].
  apply recovered_ok; [apply limits_of_ok|done|]. split; simpl; [|done].
  unfold saturating_sub. widths. lia.
Qed.

Lemma T_authorize cs ks request t :
  request_ok request ->
  T (inv cs ks) (authorize access_cache_seconds request t) (fun _ => inv cs ks).
Proof.
  intros (_ & _ & Hlen). unfold authorize. cbv zeta.
  destruct (requests_authorization request); [|by intros e He].
  set (k := (ChargeProtocol.company_id request, ChargeProtocol.user_id request)).
  eapply T_bind.
  { apply (T_ensure (fun e => match access (shard e) !! k with
                              | Some cached => is_fresh cached t access_cache_seconds
                              | None => false end) _ _
             (fun s p => inv cs ks s p /\ is_Some (access s !! k))).
    { intros e He Hf. split; [done|]. by destruct (access (shard e) !! k). }
    eapply T_bind_store; [apply inv_ok|apply load_user_access_typed|]. intros row Hrow.
    apply T_bind_pure; [apply inv_ok|by destruct (from_row _ _)|]. intros st Est.
    apply T_modify. intros s p Hinv. split; [|simpl; by rewrite lookup_insert_eq].
    apply inv_set_access; [|done]. destruct (from_row row t) eqn:Efr; [|done]. injection Est as <-.
    by eapply from_row_reads. }
  intros []. intros e [He [a Ha]]. unfold mbind, SE_bind, se_get, expect, se_lift. rewrite Ha. simpl.
  destruct He as (Hok & ? & ?). destruct (ok_access _ Hok _ _ Ha) as (ws & es & Hr).
  destruct (verdict_some a (required_access request) ws es Hr) as [v ->]. by split_and!.
Qed.

Lemma T_intro {A} (phi : Prop) (m : M A) P Q :
  (forall s p, P s p -> phi) -> (phi -> T P m Q) -> T P m Q.
Proof. intros Hphi Hm e He. exact (Hm (Hphi _ _ He) e He). Qed.

Lemma T_and {A} (m : M A) P (Q R : A -> ShardState -> UsageMap -> Prop) :
  T P m Q ->
  (forall e a e', P (shard e) (platform e) -> m e = (Ok a, e') -> R a (shard e') (platform e')) ->
  T P m (fun a s p => Q a s p /\ R a s p).
Proof.
  intros Hm HR e He. specialize (Hm e He). destruct (m e) as [[a|x] e'] eqn:E; [|done].
  split; [done|]. by eapply HR.
Qed.

Lemma inv_replace_subject cs ks s p k x :
  shard_ok (set_subjects (<[k := x]> (subjects s)) s) -> inv cs ks s p ->
  inv cs ks (set_subjects (<[k := x]> (subjects s)) s) p.
Proof.
  intros Hok (_ & ? & Hks). split_and!; try done. apply (Forall_impl _ _ _ Hks).
  intros k' ?. simpl. by rewrite lookup_insert_is_Some'; right.
Qed.

Lemma inv_replace_budget cs ks s p c b :
  shard_ok (set_budgets (<[c := b]> (budgets s)) s) -> inv cs ks s p ->
  inv cs ks (set_budgets (<[c := b]> (budgets s)) s) p.
Proof.
  intros Hok (_ & Hcs & ?). split_and!; try done. apply (Forall_impl _ _ _ Hcs).
  intros c' ?. simpl. by rewrite lookup_insert_is_Some'; right.
Qed.

Section Request.
Variables (request : Request) (t now : Z).
Hypothesis Hrequest : request_ok request.

Definition company_key := (ChargeProtocol.company_id request, COMPANY_AGGREGATE_USER_ID).
Definition user_key := (ChargeProtocol.company_id request, ChargeProtocol.user_id request).

(** Both subjects and the budget are loaded. *)
Definition loaded_inv : ShardState -> UsageMap -> Prop :=
  inv [ChargeProtocol.company_id request] [user_key; company_key].

Lemma user_not_company : ChargeProtocol.user_id request <> COMPANY_AGGREGATE_USER_ID.
Proof. destruct Hrequest as [? _]. unfold COMPANY_AGGREGATE_USER_ID. lia. Qed.

Lemma keys_differ : company_key <> user_key.
Proof.
  unfold company_key, user_key. intros E. apply user_not_company. by apply (f_equal snd) in E.
Qed.

Lemma limits_of_company : limits_of COMPANY_AGGREGATE_USER_ID = pol_company policy.
Proof. done. Qed.
Lemma limits_of_user : limits_of (ChargeProtocol.user_id request) = pol_user policy.
Proof.
  unfold limits_of. by rewrite (proj2 (Z.eqb_neq _ _)) by apply user_not_company.
Qed.

Lemma loaded_budget s p :
  loaded_inv s p -> is_Some (budgets s !! ChargeProtocol.company_id request).
Proof. by intros (_ & [? _]%Forall_cons & _). Qed.
Lemma loaded_user s p : loaded_inv s p -> is_Some (subjects s !! user_key).
Proof. by intros (_ & _ & [? _]%Forall_cons). Qed.
Lemma loaded_company s p : loaded_inv s p -> is_Some (subjects s !! company_key).
Proof. by intros (_ & _ & [_ [? _]%Forall_cons]%Forall_cons). Qed.

Lemma T_refresh message k l day :
  l = limits_of k.2 -> k = user_key \/ k = company_key ->
  T loaded_inv (on_subject message k (se_modify (refresh_periods l t day now)) : M unit)
    (fun _ => loaded_inv).
Proof.
  intros -> Hk. eapply T_conseq.
  - apply (T_subject message k _ loaded_inv (fun _ _ _ => True)).
    + intros s p H. split; [by apply H|]. destruct Hk as [-> | ->];
        [by eapply loaded_user|by eapply loaded_company].
    + intros s p x _ _ Hx. split; [|done]. apply refresh_periods_ok; [apply limits_of_ok|done].
  - done.
  - intros _ s' p (s & x & x' & H & _ & _ & -> & Hok). by apply inv_replace_subject.
Qed.

Lemma T_prepare :
  T (inv [] []) (prepare policy request t now) (fun _ => loaded_inv).
Proof.
  unfold prepare. cbv zeta. eapply T_bind; [apply T_ensure_budget|]. intros [].
  eapply T_bind; [apply T_get|]. intros e0.
  eapply T_bind; [apply T_expect|].
  { intros s p (-> & _ & _ & [? _]%Forall_cons & _). done. }
  intros b. apply (T_intro (in_u64 (day_extra_used b))).
  { intros s p (Hb & <- & _ & Hok & _). by apply (ok_budgets _ Hok _ _ Hb). }
  intros Hextra.
  eapply T_conseq; [|intros s p (_ & _ & _ & H); exact H|intros ? ? ? H; exact H].
  eapply T_bind; [by apply (T_ensure_subject _ _ _ COMPANY_AGGREGATE_USER_ID)|]. intros [].
  eapply T_bind; [rewrite <- limits_of_user; by apply T_ensure_subject|]. intros [].
  apply T_bind_pure; [apply inv_ok|apply time_no_panic|]. intros day _.
  eapply T_bind; [apply (T_refresh _ company_key); auto|]. intros [].
  eapply T_bind; [apply (T_refresh _ user_key); [symmetry; apply limits_of_user|auto]|]. intros [].
  apply T_bind_pure; [apply inv_ok|apply time_no_panic|]. intros month _.
  eapply T_conseq.
  - apply (T_budget _ _ loaded_inv).
    + intros s p H. split; [by apply H|by eapply loaded_budget].
    + intros b' Hb'. split; [|done]. by apply refresh_day_ok, refresh_month_ok.
  - done.
  - intros _ s' p (s & b' & H & _ & -> & Hok). by apply inv_replace_budget.
Qed.

(** The request can be paid by both subjects' buckets. *)
Definition payable (s : ShardState) (k : Z * Z) : Prop :=
  exists x, subjects s !! k = Some x /\
    can_charge (cpu_bucket x) (cpu (credits request)) = true /\
    can_charge (inference_bucket x) (inference (credits request)) = true.

Lemma T_pay message k count P :
  (forall s p, P s p -> loaded_inv s p /\ payable s k) ->
  T P (on_subject message k (subject_charge (credits request) count))
    (fun _ s' p => exists s x', P s p /\ loaded_inv s' p /\
       s' = set_subjects (<[k := x']> (subjects s)) s).
Proof.
  intros HP. eapply T_conseq.
  - apply (T_subject message k _ P (fun _ _ _ => True)).
    + intros s p H. destruct (HP _ _ H) as [[? _] (x & Hx & _)]. by split.
    + intros s p x H Hx Hok. destruct (HP _ _ H) as [_ (x' & Hx' & ? & ?)].
      rewrite Hx in Hx'. injection Hx' as <-. apply subject_charge_ok; try done. apply Hrequest.
  - done.
  - intros _ s' p (s & x & x' & H & _ & _ & -> & Hok). exists s, x'. split; [done|].
    split; [|done]. apply inv_replace_subject; [done|]. by apply HP.
Qed.

Lemma increment_no_panic r c u : 
  match (map_err FromAggregation (increment r c u).1 : result anyhow unit) with
  | Ok _ => True | Err x => is_panic x = false end.
Proof. by destruct (increment r c u) as [[[]|] ?]. Qed.

Lemma increment_row_no_panic k r c m :
  match (increment_row k r c m).1 with Ok _ => True | Err x => is_panic x = false end.
Proof.
  unfold increment_row. pose proof (increment_no_panic r c (default (loaded []) (m !! k))).
  by destruct (increment r c _).
Qed.

Lemma increment_usage_no_panic m :
  match (increment_usage request t m).1 with Ok _ => True | Err x => is_panic x = false end.
Proof.
  unfold increment_usage, mbind, SE_bind, se_lift.
  pose proof (time_no_panic (five_minute t)). destruct (time (five_minute t)) as [five|]; [|done].
  pose proof (time_no_panic (TimeFrame.daily t)). destruct (time (TimeFrame.daily t)) as [day|]; [|done].
  cbv zeta.
  repeat match goal with
  | |- match (match increment_row ?k ?r ?c ?m with _ => _ end).1 with _ => _ end =>
      let H := fresh in
      pose proof (increment_row_no_panic k r c m) as H;
      destruct (increment_row k r c m) as [[[]|] ?]; [|exact H]
  end. apply increment_row_no_panic.
Qed.

Lemma T_apply_charge extra :
  0 <= extra ->
  T (fun s p => loaded_inv s p /\ payable s company_key /\ payable s user_key)
    (apply_charge request t extra) (fun _ s _ => shard_ok s).
Proof.
  intros Hextra. unfold apply_charge. cbv zeta.
  eapply (T_bind _ _ _ (fun _ s p => (loaded_inv s p /\ payable s company_key /\ payable s user_key) /\
      exists key, platform_usage_key t = Ok key /\ is_Some (p !! key))).
  { unfold ensure_platform_usage. destruct (platform_usage_key t) as [key|x] eqn:Ek.
    2: { intros e He. unfold mbind, SE_bind, se_lift. split; [|by apply He].
         unfold platform_usage_key, time in Ek. destruct (five_minute t); [done|]. by injection Ek as <-. }
    apply T_bind_pure; [by intros s p [[? _] _]|done|]. intros ? [= <-].
    apply (T_ensure (fun e => bool_decide (is_Some (platform e !! key)))).
    { intros e He Hk%bool_decide_eq_true. split; [done|]. by exists key. }
    eapply T_bind_store; [by intros s p [[? _] _]|apply load_exact_typed|]. intros row Hrow.
    apply T_bind_pure; [by intros s p [[? _] _]| |].
    { destruct row; [apply blob_no_panic|done]. }
    intros routes _ e He. simpl. split; [done|]. exists key. split; [done|].
    unfold merge_loaded. destruct (platform e !! key) eqn:E; [by eexists|].
    rewrite lookup_insert_eq. by eexists. }
  intros []. eapply T_bind; [apply (T_pay _ company_key); by intros s p [(? & ? & ?) _]|]. intros [].
  eapply T_bind.
  { apply (T_pay _ user_key). intros s' p (s & x' & [(_ & _ & Hpay) _] & Hl & ->).
    split; [done|]. destruct Hpay as (x & Hx & ?). exists x. split; [|done]. simpl.
    by rewrite lookup_insert_ne by apply keys_differ. }
  intros [].
  set (P3 := fun (s : ShardState) (p : UsageMap) => loaded_inv s p /\
    exists key, platform_usage_key t = Ok key /\ is_Some (p !! key)).
  eapply (T_conseq _ _ P3 _ _); [|intros s'' p (s' & x'' & (s & x' & [_ ?] & _ & _) & ? & _); by split
    |intros ? ? ? H; exact H].
  eapply T_bind.
  { apply (T_budget _ _ P3).
    - intros s p [Hl _]. split; [by apply Hl|by eapply loaded_budget].
    - intros b Hb. by apply budget_charge_ok; [apply Hrequest| |]. }
  intros []. intros e (s & b & [Hl Hp] & _ & Es & Hok). unfold mbind, SE_bind, on_usage.
  pose proof (increment_usage_no_panic (usage (shard e))) as Hinc.
  destruct (increment_usage request t (usage (shard e))) as [[[]|x] u]; simpl in *.
  2: { split; [done|]. split; simpl; apply Hok. }
  unfold on_platform. simpl. destruct Hp as (key & Ekey & row & Hrow).
  unfold increment_platform_usage, mbind, SE_bind, se_lift, se_get. rewrite Ekey, Hrow.
  pose proof (increment_row_no_panic key (route_id request) (credits request) (platform e)) as Hi.
  destruct (increment_row _ _ _ _) as [[[]|x] p']; simpl in *; [|split; [done|]];
    split; simpl; apply Hok.
Qed.

Lemma T_admit :
  T (inv [] []) (admit_core policy access_cache_seconds request t now) (fun _ s _ => shard_ok s).
Proof.
  unfold admit_core. cbv zeta. eapply T_bind; [by apply T_authorize|]. intros [v|d].
  2: { intros e He. by apply He. }
  eapply T_bind; [apply T_prepare|]. intros [].
  eapply T_bind; [apply T_get|]. intros e0.
  apply (T_intro (loaded_inv (shard e0) (platform e0))).
  { by intros s p (<- & <- & ?). }
  intros Hl. destruct (loaded_company _ _ Hl) as [sc Hsc], (loaded_user _ _ Hl) as [su Hsu],
    (loaded_budget _ _ Hl) as [b Hb].
  fold company_key user_key. rewrite Hsc, Hsu, Hb.
  unfold expect, ok_or. intros e (Es & Ep & _). unfold mbind, SE_bind, se_lift.
  assert (shard_ok (shard e)) as Hok by (rewrite <- Es; apply Hl).
  destruct (burst_violation _ _ _ _) eqn:Eb; [done|].
  destruct (entitlement _ _ _ _ _) as [extra|] eqn:Ee; [|done].
  assert (0 <= extra) as Hextra.
  { eapply (gates_bound policy request); try done; [apply Hrequest| | |].
    - rewrite <- limits_of_company. by apply (ok_subjects _ Hok company_key); rewrite <- Es.
    - rewrite <- limits_of_user. by apply (ok_subjects _ Hok user_key); rewrite <- Es.
    - eapply (ok_budgets _ Hok); by rewrite <- Es. }
  apply burst_None in Eb as (? & ? & ? & ? & _).
  pose proof (T_apply_charge extra Hextra e) as Ha. simpl in Ha.
  destruct (apply_charge request t extra e) as [[[]|x] e'].
  - apply Ha. rewrite <- Es, <- Ep. split; [done|]. split; by eexists.
  - apply Ha. rewrite <- Es, <- Ep. split; [done|]. split; by eexists.
Qed.

End Request.
End Safe.

Section Theorems.
Context {St : Type} `{LS : !LimiterStore St} `{ST : !StoreTyped St}.
Context `{SV : !StoreView St} `{SL : !StoreLaws St}.
Variables (policy : LimitPolicy) (access_cache_seconds : Z).

(** C13: admission never panics and never corrupts its shard. From a shard in its invariant
    (every bucket within capacity, every counter a 64-bit number, every cached grant blob
    valid), a well-formed request ends in a decision or in an error value; no missing entry
    is expected, no token subtraction underflows, no grant index leaves its blob, and the
    invariant stands afterwards, errors included. *)
Theorem admit_safe request unix_seconds now (e : Quota.Env St) :
  policy_ok policy -> request_ok request -> shard_ok policy (shard e) ->
  match admit_core policy access_cache_seconds request unix_seconds now e with
  | (Ok _, e') => shard_ok policy (shard e')
  | (Err x, e') => is_panic x = false /\ shard_ok policy (shard e')
  end.
Proof.
  intros Hp Hr Hok.
  apply (T_admit policy access_cache_seconds Hp request unix_seconds now Hr e).
  by split_and!.
Qed.

(** C14: what is admitted is within every limit once it has been charged: the hourly limits
    of company and user; and either the company's daily entitlement, the user's share of it
    and the month's ceiling in an open month, for every resource the request spends, or, for
    a CPU-only request that asked for it, the extra pool of the day. *)
Theorem admit_within_limits request unix_seconds now (e : Quota.Env St) v e' :
  policy_ok policy -> request_ok request -> shard_ok policy (shard e) -> in_i64 unix_seconds ->
  admit_core policy access_cache_seconds request unix_seconds now e = (Ok (Allowed v), e') ->
  exists extra company user b,
    subjects (shard e') !! company_key request = Some company /\
    subjects (shard e') !! user_key request = Some user /\
    budgets (shard e') !! ChargeProtocol.company_id request = Some b /\
    within_limits policy request extra company user b.
Proof.
  intros Hp Hr Hok Ht. unfold admit_core. cbv zeta. intros R.
  apply se_bind_ok in R as (auth & e1 & Ea & R).
  pose proof (T_authorize policy access_cache_seconds [] [] request unix_seconds Hr e) as H1.
  rewrite Ea in H1. ospecialize (H1 _); [by split_and!|].
  destruct auth as [v0|d]; [|done].
  apply se_bind_ok in R as ([] & e2 & Ep & R).
  pose proof (T_prepare policy Hp request unix_seconds now Hr e1 H1) as Hl. rewrite Ep in Hl.
  apply se_bind_ok in R as (e0 & e2' & [= <- <-] & R).
  apply se_bind_ok in R as (sc & e2' & [Hsc <-]%expect_Ok & R).
  apply se_bind_ok in R as (su & e2' & [Hsu <-]%expect_Ok & R).
  apply se_bind_ok in R as (b & e2' & [Hb <-]%expect_Ok & R).
  destruct (burst_violation _ _ _ _) eqn:Eburst; [done|].
  destruct (entitlement _ _ _ _ _) as [extra|] eqn:Eent; [|done].
  apply se_bind_ok in R as ([] & e3 & Ech & [= _ <-]).
  apply apply_charge_inv in Ech; [|done|apply Hr].
  destruct Hl as [Hok2 _].
  destruct (gates_bound policy request extra sc su b Hp (proj1 (proj2 Hr))) as [_ Hw]; try done.
  { rewrite <- limits_of_company. by apply (ok_subjects _ _ Hok2 (company_key request)). }
  { rewrite <- (limits_of_user policy request Hr). by apply (ok_subjects _ _ Hok2 (user_key request)). }
  { by apply (ok_budgets _ _ Hok2 _ _ Hb). }
  destruct (ch_subjects _ _ _ _ _ Ech) as (sc' & su' & Hsc' & Hsu' & Es).
  destruct (ch_budget _ _ _ _ _ Ech) as (b' & Hb' & Ebu).
  rewrite Hsc in Hsc'. rewrite Hsu in Hsu'. rewrite Hb in Hb'. simplify_eq.
  eexists extra, _, _, _. split_and!; [| | |exact Hw].
  - rewrite Es. rewrite lookup_insert_ne by (symmetry; by apply keys_differ).
    by rewrite lookup_insert_eq.
  - rewrite Es. by rewrite lookup_insert_eq.
  - rewrite Ebu. by rewrite lookup_insert_eq.
Qed.

End Theorems.

(** ** A store for the witnesses: one budget for every company, nothing else, read-only *)

Definition frozen_row (c : Z) : StoredBudgetRow :=
  mkStoredBudgetRow
    (mkStoredBudget c (mkCredits 100 10) 20301 (mkCredits 1000 50) (mkCredits 1000 50) 5)
    (mkStoredExtraUsage 0 0 0 0).

#[export] Instance frozen_store : LimiterStore unit := {
  load_exact _ s := (Ok None, s);
  load_range _ _ _ _ s := (Ok [], s);
  upsert _ _ s := (Err (Msg "read-only"), s);
  load_budget c s := (Ok (Some (frozen_row c)), s);
  upsert_budget _ s := (Err (Msg "read-only"), s);
  upsert_budget_usage _ s := (Err (Msg "read-only"), s);
  load_user_access _ _ s := (Ok None, s);
}.

#[export] Instance frozen_view : StoreView unit := {
  usage_view _ _ := None;
  budget_view _ c := Some (frozen_row c);
}.

#[export] Instance frozen_typed : StoreTyped unit.
Proof.
  split; intros; simplify_eq/=; try done; try by constructor.
Qed.

#[export] Instance frozen_laws : StoreLaws unit.
Proof.
  split.
  - intros k s r s' [= <- <-]. split; [done|]. by intros ? [= <-].
  - intros c u a b s r s' [= <- <-]. split; [done|]. intros rows [= <-]. split; [constructor|].
    intros t bs. split; [by intros ?%elem_of_nil|by intros [_ ?]].
  - intros k bs s r s' [= <- <-]. split_and!; try done. by right.
  - intros c s r s' [= <- <-]. split; [done|]. by intros ? [= <-].
  - intros b s r s' [= <- <-]. by split_and!.
  - intros u s r s' [= <- <-]. split_and!; try done. by intros row row' [= <-] [= <-].
  - intros c u s r s' [= <- <-]. done.
Qed.

(** ** Witnesses *)

Definition sample_policy : LimitPolicy :=
  mkLimitPolicy (mkScopeLimits (mkCreditLimits 50 500) (mkCreditLimits 5 50))
    (mkScopeLimits (mkCreditLimits 20 200) (mkCreditLimits 5 50)) 30 50.
Definition sample_request : Request := mkRequest 7 42 103 (mkCredits 12 1) [0; 0; 0; 0] false.
Definition sample_env : Quota.Env unit := mkEnv shard_default ∅ tt.

Lemma sample_policy_ok : policy_ok sample_policy.
Proof. unfold policy_ok, limits_ok; simpl; split_and!; bounds. Qed.
Lemma sample_request_ok : request_ok sample_request.
Proof. unfold request_ok, MAX_REQUIRED_ACCESS, credits_ok; simpl; split_and!; try lia; bounds. Qed.
Lemma shard_default_ok p : shard_ok p shard_default.
Proof. split; simpl; intros ??; by rewrite lookup_empty. Qed.

Theorem admit_safe_witness :
  match admit_core sample_policy 60 sample_request 1755000000 0 sample_env with
  | (Ok _, e') => shard_ok sample_policy (shard e')
  | (Err x, e') => is_panic x = false /\ shard_ok sample_policy (shard e')
  end.
Proof.
  apply admit_safe; [apply sample_policy_ok|apply sample_request_ok|apply shard_default_ok].
Defined.

Theorem admit_within_limits_witness :
  let e' := (admit_core sample_policy 60 sample_request 1755000000 0 sample_env).2 in
  (admit_core sample_policy 60 sample_request 1755000000 0 sample_env).1 =
    Ok (Allowed verdict_default) /\
  exists extra company user b,
    subjects (shard e') !! company_key sample_request = Some company /\
    subjects (shard e') !! user_key sample_request = Some user /\
    budgets (shard e') !! 7 = Some b /\
    within_limits sample_policy sample_request extra company user b.
Proof.
  split; [by vm_compute|].
  eapply (admit_within_limits sample_policy 60 sample_request 1755000000 0 sample_env verdict_default);
    [apply sample_policy_ok|apply sample_request_ok|apply shard_default_ok|bounds|].
  by vm_compute.
Defined.

