(* ===== verification/Flush.v ===== *)
(** * Flush: durability, budget mutations and invalidation

    The limiter's operations other than admission, over any store with [StoreLaws]. The
    flush: a row leaves memory only when the usage table holds it, and a failed write leaves
    it dirty. Budget mutations: the enforced budget and the stored one change together or not
    at all. Invalidation: the next authorization reads the store. Two theorems at the end
    show where the flush falls short of what its comments say. *)

From stdpp Require Import strings.
From S2P Require Import Prelude CreditsBlob TimeFrame Aggregation Storage Access ChargeProtocol.
From S2P Require Import Quota QuotaLaws Admission.

(** ** Rows of the limiter *)

(** Where a row lives: platform rows apart, the others in their company's shard. *)
Definition shard_of {St} (l : RateLimiter St) (company : Z) : nat :=
  Z.to_nat (wrap 64 company mod zlen (shards l)).

Definition find_row {St} (l : RateLimiter St) (k : UsageKey) : option UsageRecord :=
  if Aggregation.company_id k =? PLATFORM_AGGREGATE_COMPANY_ID then platform_usage l !! k
  else sh ← shards l !! shard_of l (Aggregation.company_id k); usage sh !! k.

(** Every row is where [find_row] looks for it. *)
Record placed {St} (l : RateLimiter St) : Prop := {
  placed_shard i sh k :
    shards l !! i = Some sh -> is_Some (usage sh !! k) ->
    Aggregation.company_id k <> PLATFORM_AGGREGATE_COMPANY_ID /\
    shard_of l (Aggregation.company_id k) = i;
  placed_platform k :
    is_Some (platform_usage l !! k) ->
    Aggregation.company_id k = PLATFORM_AGGREGATE_COMPANY_ID;
}.

Lemma find_row_shard {St} (l : RateLimiter St) i sh k r :
  placed l -> shards l !! i = Some sh -> usage sh !! k = Some r -> find_row l k = Some r.
Proof.
  intros Hp Hi Hk. destruct (placed_shard _ Hp _ _ _ Hi ltac:(by eexists)) as [Hne <-].
  unfold find_row. rewrite (proj2 (Z.eqb_neq _ _)) by done. by rewrite Hi.
Qed.

Lemma find_row_platform {St} (l : RateLimiter St) k r :
  placed l -> platform_usage l !! k = Some r -> find_row l k = Some r.
Proof.
  intros Hp Hk. unfold find_row.
  rewrite (placed_platform _ Hp k) by (by eexists). by rewrite Z.eqb_refl.
Qed.

(** A snapshot is of the row that is there now. *)
Definition snapshots_row {St} (l : RateLimiter St) (s : UsageSnapshot) : Prop :=
  exists r, find_row l (snap_key s) = Some r /\ snap_routes s = routes r /\
    snap_version s = version r /\ is_clean r = false.

Lemma map_snapshots_elem m s :
  s ∈ map_snapshots m <->
  exists r, m !! snap_key s = Some r /\ snap_routes s = routes r /\
    snap_version s = version r /\ is_clean r = false.
Proof.
  unfold map_snapshots. rewrite list_elem_of_omap. split.
  - intros ([k r] & Hin%elem_of_map_to_list & E). unfold snapshot in E. simpl in E.
    destruct (version r =? flushed_version r) eqn:Ev; [done|]. injection E as <-. by exists r.
  - intros (r & Hr & E1 & E2 & Hc). exists (snap_key s, r). split; [by apply elem_of_map_to_list|].
    unfold snapshot, is_clean in *. simpl. rewrite Hc. destruct s. simpl in *. by subst.
Qed.

Lemma map_snapshots_NoDup m : NoDup (snap_key <$> map_snapshots m).
Proof.
  unfold map_snapshots. pose proof (NoDup_fst_map_to_list m) as Hnd.
  induction (map_to_list m) as [|[k r] l IH]; [constructor|].
  csimpl in *. apply NoDup_cons in Hnd as [Hk Hnd]. specialize (IH Hnd).
  unfold snapshot at 1. simpl. destruct (version r =? flushed_version r); [done|]. csimpl.
  constructor; [|done]. intros (s & E & Hs)%list_elem_of_fmap.
  apply list_elem_of_omap in Hs as ([k' r'] & Hin & Es). unfold snapshot in Es. simpl in Es.
  destruct (version r' =? flushed_version r'); [done|]. injection Es as <-. simpl in *. subst.
  apply Hk. apply list_elem_of_fmap. by exists (k', r').
Qed.

Lemma collect_snapshots_spec {St} (l : RateLimiter St) :
  placed l ->
  NoDup (snap_key <$> collect_snapshots l) /\
  forall s, s ∈ collect_snapshots l <-> snapshots_row l s.
Proof.
  intros Hp. unfold collect_snapshots.
  assert (Hshards : forall shs n,
    (forall i sh, shs !! i = Some sh -> shards l !! (n + i)%nat = Some sh) ->
    NoDup (snap_key <$> flat_map (fun s => map_snapshots (usage s)) shs) /\
    forall s, s ∈ flat_map (fun s => map_snapshots (usage s)) shs <->
      exists i sh, shs !! i = Some sh /\ s ∈ map_snapshots (usage sh)).
  { induction shs as [|sh shs IH]; intros n Hn; simpl.
    { split; [constructor|]. intros s. split; [by intros ?%elem_of_nil|]. by intros (i & sh & ? & _). }
    destruct (IH (S n)) as [Hnd Hel].
    { intros i sh' Hi. rewrite <- (Hn (S i) sh' Hi). f_equal. lia. }
    split.
    - rewrite fmap_app. apply NoDup_app. split; [apply map_snapshots_NoDup|]. split; [|done].
      intros k (s & -> & Hs)%list_elem_of_fmap (s' & E & Hs')%list_elem_of_fmap.
      apply map_snapshots_elem in Hs as (r & Hr & _).
      apply Hel in Hs' as (i & sh' & Hi & (r' & Hr' & _)%map_snapshots_elem).
      rewrite <- E in Hr'.
      pose proof (placed_shard _ Hp _ _ _ (Hn 0%nat sh eq_refl) ltac:(by eexists)) as [_ H1].
      pose proof (placed_shard _ Hp _ _ _ (Hn (S i) sh' Hi) ltac:(by eexists)) as [_ H2]. lia.
    - intros s. rewrite elem_of_app, Hel. split.
      + intros [Hs|(i & sh' & Hi & Hs)]; [by exists 0%nat, sh|by exists (S i), sh'].
      + intros ([|i] & sh' & Hi & Hs); [left; by injection Hi as ->|right; by exists i, sh']. }
  destruct (Hshards (shards l) 0%nat) as [Hnd Hel]; [done|]. split.
  - rewrite fmap_app. apply NoDup_app. split; [done|]. split; [|apply map_snapshots_NoDup].
    intros k (s & -> & Hs)%list_elem_of_fmap (s' & E & Hs')%list_elem_of_fmap.
    apply Hel in Hs as (i & sh & Hi & (r & Hr & _)%map_snapshots_elem).
    apply map_snapshots_elem in Hs' as (r' & Hr' & _). rewrite <- E in Hr'.
    destruct (placed_shard _ Hp _ _ _ Hi ltac:(by eexists)) as [Hne _].
    by destruct Hne; apply (placed_platform _ Hp); eexists.
  - intros s. rewrite elem_of_app, Hel. unfold snapshots_row. split.
    + intros [(i & sh & Hi & (r & Hr & ?)%map_snapshots_elem)|(r & Hr & ?)%map_snapshots_elem];
        exists r; (split; [|done]); [by eapply find_row_shard|by apply find_row_platform].
    + intros (r & Hr & ?). unfold find_row in Hr.
      destruct (Z.eqb_spec (Aggregation.company_id (snap_key s)) PLATFORM_AGGREGATE_COMPANY_ID).
      * right. apply map_snapshots_elem. by exists r.
      * left. apply bind_Some in Hr as (sh & Hi & Hr). eexists _, sh. split; [done|].
        apply map_snapshots_elem. by exists r.
Qed.

Section Flush.
Context {St : Type} `{LS : !LimiterStore St} `{SV : !StoreView St} `{SL : !StoreLaws St}.

Abbreviation L := (RateLimiter St).

(** ** Marking a row *)

Lemma find_row_mark (l : L) s k :
  find_row (limiter_mark_flushed s l) k =
    if decide (k = snap_key s) then Aggregation.mark_flushed (snap_version s) <$> find_row l k
    else find_row l k.
Proof.
  unfold limiter_mark_flushed, find_row, shard_of, mark_row.
  destruct (Z.eqb_spec (Aggregation.company_id (snap_key s)) PLATFORM_AGGREGATE_COMPANY_ID) as [E|E];
    simpl; rewrite ?length_alter.
  - destruct (Z.eqb_spec (Aggregation.company_id k) PLATFORM_AGGREGATE_COMPANY_ID) as [Ek|Ek].
    + case_decide as D; [subst; by rewrite lookup_alter_eq|by rewrite lookup_alter_ne].
    + rewrite decide_False; [done|]. congruence.
  - destruct (Z.eqb_spec (Aggregation.company_id k) PLATFORM_AGGREGATE_COMPANY_ID) as [Ek|Ek].
    + rewrite decide_False; [done|]. congruence.
    + rewrite list_lookup_alter.
      match goal with |- context [decide (?a = ?b)] => destruct (decide (a = b)) as [Ei|Ei] end.
      * rewrite Ei. destruct (shards l !! _) as [sh|] eqn:Esh; simpl.
        -- case_decide as D; [subst; by rewrite lookup_alter_eq|by rewrite lookup_alter_ne].
        -- by case_decide.
      * rewrite decide_False; [done|]. congruence.
Qed.

Lemma limiter_mark_store (l : L) s : limiter_store (limiter_mark_flushed s l) = limiter_store l.
Proof. unfold limiter_mark_flushed. by case_match. Qed.

Lemma limiter_mark_placed (l : L) s : placed l -> placed (limiter_mark_flushed s l).
Proof.
  intros Hp. unfold limiter_mark_flushed.
  destruct (Aggregation.company_id (snap_key s) =? PLATFORM_AGGREGATE_COMPANY_ID).
  - split; simpl; [apply (placed_shard _ Hp)|]. intros k. unfold mark_row.
    rewrite lookup_alter_is_Some. apply (placed_platform _ Hp).
  - split; simpl; [|apply (placed_platform _ Hp)]. intros i sh k Hi Hk.
    unfold shard_of in *. simpl. rewrite length_alter.
    rewrite list_lookup_alter in Hi. case_decide as D.
    + apply fmap_Some in Hi as (sh0 & Hi & ->). simpl in Hk. unfold mark_row in Hk.
      rewrite lookup_alter_is_Some in Hk. rewrite D in Hi.
      exact (placed_shard _ Hp i sh0 k Hi Hk).
    + exact (placed_shard _ Hp i sh k Hi Hk).
Qed.

(** ** Writing the dirty rows *)

(** What the pass did to one row: nothing, or it wrote the row and marked it clean. *)
Definition row_flushed (st : St) (k : UsageKey) (before after : option UsageRecord) : Prop :=
  after = before \/
  exists r bs, before = Some r /\ after = Some (Aggregation.mark_flushed (version r) r) /\
    CreditsBlob.encode (routes r) = Ok bs /\ usage_view st k = Some bs.

Lemma flush_snapshot_run s (st : St) r st' :
  flush_snapshot s st = (r, st') ->
  (forall k, k <> snap_key s -> usage_view st' k = usage_view st k) /\
  (r = Ok tt -> exists bs, CreditsBlob.encode (snap_routes s) = Ok bs /\ usage_view st' (snap_key s) = Some bs).
Proof.
  unfold flush_snapshot, mbind, SE_bind, se_lift, ok_or.
  destruct (CreditsBlob.encode (snap_routes s)) as [bs|e] eqn:E; [|by intros [= <- <-]].
  intros (Hb & Hne & Hk)%upsert_law. split; [done|]. intros ->.
  destruct Hk as [Hk|[? _]]; [by exists bs|done].
Qed.

Lemma flush_rows_spec ss (l : L) n l' :
  placed l -> NoDup (snap_key <$> ss) -> (forall s, s ∈ ss -> snapshots_row l s) ->
  flush_rows ss l = (n, l') ->
  placed l' /\
  forall k,
    row_flushed (limiter_store l') k (find_row l k) (find_row l' k) /\
    (k ∉ snap_key <$> ss ->
       find_row l' k = find_row l k /\
       usage_view (limiter_store l') k = usage_view (limiter_store l) k).
Proof.
  revert l n. induction ss as [|s ss IH]; intros l n Hp Hnd Hss E.
  { injection E as <- <-. split; [done|]. intros k. split; [by left|done]. }
  csimpl in Hnd. apply NoDup_cons in Hnd as [Hs Hnd]. cbn [flush_rows] in E.
  destruct (flush_snapshot s (limiter_store l)) as [r st] eqn:Ef.
  apply flush_snapshot_run in Ef as [Hne Hok].
  set (l1 := mkRateLimiter (shards l) (platform_usage l) st) in E.
  assert (Hp1 : placed l1) by (split; apply Hp).
  assert (Hrest : forall s', s' ∈ ss -> snap_key s' <> snap_key s).
  { intros s' Hs' E'. apply Hs. rewrite <- E'. by apply list_elem_of_fmap_2. }
  destruct r as [[]|x].
  - destruct (flush_rows ss (limiter_mark_flushed s l1)) as [w l2] eqn:E2. injection E as <- <-.
    apply IH in E2 as [Hp2 H2]; [|by apply limiter_mark_placed|done|].
    2: { intros s' Hs'. destruct (Hss s' ltac:(by right)) as (r & Hr & ?). exists r.
         split; [|done]. rewrite find_row_mark, decide_False; [exact Hr|by apply Hrest]. }
    split; [done|]. intros k. destruct (H2 k) as [Hrow Hsame]. rewrite find_row_mark in Hrow, Hsame.
    destruct (decide (k = snap_key s)) as [->|Hk].
    + destruct (Hsame Hs) as [Hr Hv]. split; [|set_solver]. right.
      destruct (Hok eq_refl) as (bs & Hbs & Hview).
      destruct (Hss s ltac:(by left)) as (r & Hr0 & Er & Ev & _). exists r, bs.
      rewrite Hr. change (find_row l1 (snap_key s)) with (find_row l (snap_key s)).
      rewrite Hr0, Hv, limiter_mark_store, <- Er, <- Ev. done.
    + split; [exact Hrow|]. intros Hk'. destruct Hsame as [Hr Hv]; [set_solver|].
      split; [done|]. rewrite Hv, limiter_mark_store. by apply Hne.
  - apply IH in E as [Hp2 H2]; [|done|done|by intros s' ?; apply Hss; right].
    split; [done|]. intros k. destruct (H2 k) as [Hrow Hsame]. split; [done|].
    intros Hk'. destruct Hsame as [Hr Hv]; [set_solver|]. split; [done|].
    rewrite Hv. simpl. apply Hne. set_solver.
Qed.

(** ** Pruning *)

Lemma prune_spec t (l : L) r l' :
  placed l -> prune_clean_usage t l = (r, l') ->
  placed l' /\ limiter_store l' = limiter_store l /\
  forall k, find_row l' k = find_row l k \/
    exists x, find_row l k = Some x /\ is_clean x = true /\ find_row l' k = None.
Proof.
  intros Hp R. unfold prune_clean_usage in R.
  apply se_bind_run in R as [(five & l1 & [_ <-]%time_Ok & R)|(e & R & _)].
  2: { injection R as _ <-. split_and!; auto. }
  apply se_bind_run in R as [(day & l2 & [_ <-]%time_Ok & R)|(e & R & _)].
  2: { injection R as _ <-. split_and!; auto. }
  injection R as _ <-. split; [|split; [done|]].
  - split; simpl.
    + intros i sh k Hi [x Hx]. rewrite list_lookup_fmap in Hi. apply fmap_Some in Hi as (sh0 & Hi & ->).
      simpl in Hx. apply map_lookup_filter_Some in Hx as [Hx _].
      unfold shard_of. simpl. rewrite length_fmap.
      apply (placed_shard _ Hp i sh0 k Hi). by eexists.
    + intros k [x Hx]. apply map_lookup_filter_Some in Hx as [Hx _]. by apply (placed_platform _ Hp).
  - assert (forall (m : UsageMap) keep, (forall kv, is_clean kv.2 = false -> keep kv = true) ->
      forall k, filter (fun kv => keep kv = true) m !! k = m !! k \/
        exists x, m !! k = Some x /\ is_clean x = true /\
          filter (fun kv => keep kv = true) m !! k = None) as Hf.
    { intros m keep Hkeep k. destruct (m !! k) as [x|] eqn:Ex.
      - destruct (decide (keep (k, x) = true)) as [Hk|Hk].
        + left. by apply map_lookup_filter_Some.
        + right. exists x. split; [done|]. split.
          * destruct (is_clean x) eqn:Ec; [done|]. by destruct Hk; apply Hkeep.
          * apply map_lookup_filter_None. right. intros y Hy. rewrite Ex in Hy. by injection Hy as <-.
      - left. apply map_lookup_filter_None. by left. }
    intros k. unfold find_row, shard_of. simpl. rewrite length_fmap, list_lookup_fmap.
    destruct (Aggregation.company_id k =? PLATFORM_AGGREGATE_COMPANY_ID).
    + apply Hf. intros kv Hc. unfold keep_platform. by rewrite Hc.
    + destruct (shards l !! _) as [sh|]; simpl; [|by left].
      apply Hf. intros kv Hc. unfold keep_usage. by rewrite Hc.
Qed.

(** ** The budget rows *)

Lemma mark_budget_rows u v (l : L) :
  (placed l -> placed (mark_budget u v l)) /\
  (forall k, find_row (mark_budget u v l) k = find_row l k) /\
  limiter_store (mark_budget u v l) = limiter_store l.
Proof.
  split; [|split; [|done]].
  - intros Hp. split; simpl; [|apply (placed_platform _ Hp)]. intros i sh k Hi Hk. unfold shard_of.
    simpl. rewrite length_alter. unfold mark_budget in Hi. simpl in Hi.
    rewrite list_lookup_alter in Hi. case_decide as D.
    + apply fmap_Some in Hi as (sh0 & Hi & ->). rewrite D in Hi. exact (placed_shard _ Hp i sh0 k Hi Hk).
    + exact (placed_shard _ Hp i sh k Hi Hk).
  - intros k. unfold find_row, mark_budget, shard_of. simpl. rewrite length_alter, list_lookup_alter.
    destruct (_ =? _); [done|]. case_decide as D; [|done]. rewrite D. by destruct (shards l !! _).
Qed.

Lemma flush_budgets_rows bs (l : L) n l' :
  placed l -> flush_budgets bs l = (n, l') ->
  placed l' /\ (forall k, find_row l' k = find_row l k) /\
  (forall k, usage_view (limiter_store l') k = usage_view (limiter_store l) k).
Proof.
  revert l n. induction bs as [|[u v] bs IH]; intros l n Hp E; cbn [flush_budgets] in E.
  { by injection E as <- <-. }
  destruct (upsert_budget_usage u (limiter_store l)) as [r st] eqn:Eu.
  apply upsert_budget_usage_law in Eu as (Hv & _).
  set (l1 := mkRateLimiter (shards l) (platform_usage l) st) in E.
  assert (Hp1 : placed l1) by (split; apply Hp).
  destruct (mark_budget_rows u v l1) as (Hmp & Hmf & Hms).
  destruct r as [w|x].
  - destruct (flush_budgets bs (mark_budget u v l1)) as [w' l2] eqn:E2. injection E as <- <-.
    apply IH in E2 as (Hp2 & Hf & Hv2); [|by apply Hmp]. split; [done|].
    split; intros k; [by rewrite Hf, Hmf|rewrite Hv2, Hms; apply Hv].
  - apply IH in E as (Hp2 & Hf & Hv2); [|done]. split; [done|].
    split; intros k; [by rewrite Hf|by rewrite Hv2; apply Hv].
Qed.

(** ** The flush as a whole *)

(** The table holds the row's totals: what a restart would read is what memory has. *)
Definition row_durable (st : St) (k : UsageKey) (r : UsageRecord) : Prop :=
  decode_optional (usage_view st k) = Ok (nonzero (routes r)).

Definition rows_durable (l : L) : Prop :=
  forall k r, find_row l k = Some r ->
    routes_ok (routes r) /\ (is_clean r = true -> row_durable (limiter_store l) k r).

Lemma routes_mark v r : routes (Aggregation.mark_flushed v r) = routes r.
Proof. unfold Aggregation.mark_flushed. by case_match. Qed.

Lemma flush_rows_durable (l : L) n l' :
  placed l -> rows_durable l -> flush_rows (collect_snapshots l) l = (n, l') ->
  placed l' /\ rows_durable l' /\
  forall k, routes <$> find_row l' k = routes <$> find_row l k.
Proof.
  intros Hp Hd E. destruct (collect_snapshots_spec l Hp) as [Hnd Hel].
  apply flush_rows_spec in E as [Hp' Hrows]; [|done|done|by intros s ?; apply Hel].
  split; [done|]. split.
  - intros k r' Hr'. destruct (Hrows k) as [[E|(r & bs & Hr & E & Hbs & Hv)] Hsame].
    + rewrite E in Hr'. destruct (Hd _ _ Hr') as [Hok Hclean]. split; [done|]. intros Hc.
      destruct Hsame as [_ Hview]; [|unfold row_durable; rewrite Hview; by apply Hclean].
      intros (s & -> & Hs)%list_elem_of_fmap. apply Hel in Hs as (r & Hr & _ & _ & Hdirty).
      rewrite Hr in Hr'. congruence.
    + rewrite E in Hr'. injection Hr' as <-. destruct (Hd _ _ Hr) as [Hok _].
      unfold row_durable. rewrite routes_mark, Hv. split; [done|]. intros _. simpl.
      rewrite (decode_of_encode (routes r) bs); [done|by eapply encode_Ok_encodable|done].
  - intros k. destruct (Hrows k) as [[->|(r & bs & -> & -> & _)] _]; [done|].
    simpl. by rewrite routes_mark.
Qed.

(** A flush loses nothing, whatever writes fail and whatever the clocks say. Every row
    in memory before it is afterwards either still in memory with the same totals, and in
    the table too if it now reads as clean, or it has left memory and the table holds its
    totals; so a charge is always in memory or durable. *)
Theorem flush_dirty_lossless prune_clock budget_clock (l : L) n l' :
  placed l -> rows_durable l -> flush_dirty prune_clock budget_clock l = (n, l') ->
  placed l' /\ rows_durable l' /\
  forall k r, find_row l k = Some r ->
    (exists r', find_row l' k = Some r' /\ routes r' = routes r) \/
    (find_row l' k = None /\ row_durable (limiter_store l') k r).
Proof.
  intros Hp Hd. unfold flush_dirty. destruct (collect_snapshots l) as [|s0 ss] eqn:Ec.
  { intros [= <- <-]. split; [done|]. split; [done|]. eauto. }
  rewrite <- Ec. clear Ec s0 ss. destruct (flush_rows _ l) as [w1 l1] eqn:E1.
  apply flush_rows_durable in E1 as (Hp1 & Hd1 & Hf1); [|done..].
  set (m := unix_seconds ← se_lift prune_clock; prune_clean_usage unix_seconds).
  destruct (m l1) as [r2 l2] eqn:E2. simpl.
  assert (placed l2 /\ limiter_store l2 = limiter_store l1 /\
    forall k, find_row l2 k = find_row l1 k \/
      exists x, find_row l1 k = Some x /\ is_clean x = true /\ find_row l2 k = None)
    as (Hp2 & Hs2 & Hf2).
  { apply se_bind_run in E2 as [(t & l1' & R & E2)|(e & R & _)].
    - assert (l1 = l1') as <- by by injection R. by eapply prune_spec.
    - injection R as _ <-. split_and!; auto. }
  destruct (flush_dirty_budget_usage budget_clock l2) as [w3 l3] eqn:E3. intros [= <- <-].
  assert (placed l3 /\ (forall k, find_row l3 k = find_row l2 k) /\
    forall k, usage_view (limiter_store l3) k = usage_view (limiter_store l2) k) as (Hp3 & Hf3 & Hv3).
  { unfold flush_dirty_budget_usage in E3. destruct budget_clock; [|by injection E3 as _ <-].
    destruct (local_unix_day a); [|by injection E3 as _ <-]. by eapply flush_budgets_rows. }
  assert (Hdur : forall k r, row_durable (limiter_store l1) k r -> row_durable (limiter_store l3) k r).
  { intros k r. unfold row_durable. by rewrite Hv3, Hs2. }
  split; [done|]. split.
  - intros k r Hr. rewrite Hf3 in Hr. destruct (Hf2 k) as [E|(x & _ & _ & E)]; [|congruence].
    rewrite E in Hr. destruct (Hd1 _ _ Hr) as [? Hc]. split; [done|]. eauto.
  - intros k r Hr. specialize (Hf1 k). rewrite Hr in Hf1. simpl in Hf1.
    apply fmap_Some in Hf1 as (r1 & Hr1 & Er). destruct (Hf2 k) as [E|(x & Hx & Hc & E)].
    + left. exists r1. by rewrite Hf3, E.
    + right. rewrite Hf3. split; [done|]. rewrite Hr1 in Hx. injection Hx as <-.
      apply Hdur. destruct (Hd1 _ _ Hr1) as [_ Hc1]. unfold row_durable in *.
      rewrite Er. by apply Hc1.
Qed.

(** ** Budget mutations *)

Lemma mutated_reply m b month : mutated m b month <> Err BudgetOk.
Proof.
  unfold mutated, mbind, result_bind, ok_or. repeat case_match; simplify_eq; done.
Qed.

Lemma on_store_context {A} message (m : SE St anyhow A) (e : Quota.Env St) r e' :
  on_store (context message m) e = (r, e') ->
  exists r0, m (store e) = (r0, store e') /\ shard e' = shard e /\ platform e' = platform e /\
    (forall a, r = Ok a <-> r0 = Ok a).
Proof.
  unfold on_store. destruct (context message m (store e)) as [r1 st] eqn:E.
  intros [= <- <-]. apply context_inv in E as (r0 & E & Hok). by exists r0.
Qed.

(** C16: a budget mutation is all or nothing. It answers [Ok] only after the store accepted
    the new row, and then the budget in memory is that row: what [mutated] computed from the
    rolled-over state, stamped with the time. Refused or failed, at whatever point, the
    budget the company is judged by is the one it had. *)
Theorem mutate_all_or_nothing m unix_seconds (e : Quota.Env St) r e' b :
  budgets (shard e) !! bm_company_id m = Some b ->
  mutate_core m unix_seconds e = (r, e') ->
  exists b', budgets (shard e') !! bm_company_id m = Some b' /\
  match r with
  | Ok BudgetOk => exists month updated s s0,
      month_start_day unix_seconds = Ok month /\ sunix_time unix_seconds = Ok updated /\
      mutated m (refresh_month month b) month = Ok s /\
      stored b' = mkStoredBudget (sb_company_id s) (daily s) (budget_month_start_day s)
                    (monthly_ceiling s) (last_set s) updated /\
      upsert_budget (stored b') s0 = (Ok tt, store e') /\
      set_stored (stored b) b' = refresh_month month b
  | _ => budget_rolled b b'
  end.
Proof.
  intros Hb. unfold mutate_core. cbv zeta. intros R.
  assert (ensure_budget (bm_company_id m) unix_seconds e = (Ok tt, e)) as Een.
  { unfold ensure_budget, mbind, SE_bind, se_get. rewrite bool_decide_eq_true_2 by (by eexists). done. }
  apply se_bind_run in R as [([] & e1 & E1 & R)|(x & E1 & ->)]; rewrite Een in E1; [|done].
  injection E1 as <-.
  apply se_bind_run in R as [(month & e1 & [Em <-]%time_Ok & R)|(x & [= _ <-] & ->)].
  2: { by exists b. }
  set (b1 := refresh_month month b).
  assert (on_budget (bm_company_id m) (se_modify (refresh_month month)) e =
    (Ok (E:=anyhow) tt, mkEnv (set_budgets (<[bm_company_id m := b1]> (budgets (shard e))) (shard e))
               (platform e) (store e))) as Eon.
  { unfold on_budget. by rewrite Hb. }
  set (e1 := mkEnv _ (platform e) (store e)) in Eon.
  apply se_bind_run in R as [([] & e2 & E2 & R)|(x & E2 & ->)]; rewrite Eon in E2; [|done].
  injection E2 as <-.
  apply se_bind_run in R as [(e0 & e2 & [= <- <-] & R)|(x & E2 & _)]; [|done].
  assert (budgets (shard e1) !! bm_company_id m = Some b1) as Hb1 by apply lookup_insert_eq.
  rewrite Hb1 in R.
  apply se_bind_run in R as [(b1' & e2 & [= <- <-] & R)|(x & E2 & _)]; [|done].
  assert (budget_rolled b b1) as Hroll by apply rolled_month.
  destruct (mutated m b1 month) as [s|reply] eqn:Emut.
  2: { injection R as <- <-. exists b1. split; [done|]. destruct reply; try done.
       exfalso. by apply (mutated_reply m b1 month). }
  apply se_bind_run in R as [(updated & e2 & E2 & R)|(x & E2 & ->)].
  2: { injection E2 as _ <-. by exists b1. }
  injection E2 as Eup <-. set (s' := mkStoredBudget _ _ _ _ _ updated) in R.
  apply se_bind_run in R as [([] & e2 & E2 & R)|(x & E2 & ->)];
    apply on_store_context in E2 as (r0 & Eup2 & Esh & _ & Hok).
  2: { exists b1. by rewrite Esh. }
  apply se_bind_run in R as [([] & e3 & E3 & R)|(x & E3 & ->)].
  2: { unfold on_budget in E3. rewrite Esh, Hb1 in E3. done. }
  injection R as <- <-. unfold on_budget in E3. rewrite Esh, Hb1 in E3. simpl in E3.
  injection E3 as <-. exists (set_stored s' b1). simpl. rewrite lookup_insert_eq. split; [done|].
  exists month, updated, s, (store e1). split_and!; try done.
  - rewrite Eup2. f_equal. by apply Hok.
  - subst b1. unfold set_stored. simpl. destruct (budget_rolled_keeps _ _ Hroll) as (<- & _).
    by destruct (refresh_month month b).
Qed.

(** ** Invalidation *)

(** A revocation takes effect at once. After [invalidate_access] for the user, or for
    every user of the company, the next frame that asks for authorization is answered from
    the row the store returns then, not from anything cached; other companies and, for a
    single user, other users keep their cached grants. *)
Theorem invalidate_immediate access_cache_seconds company user request unix_seconds
    (e : Quota.Env St) :
  let e1 := mkEnv (invalidate_core company user (shard e)) (platform e) (store e) in
  (forall c u, access (shard e1) !! (c, u) =
     if bool_decide (c = company /\ (user = 0 \/ u = user)) then None
     else access (shard e) !! (c, u)) /\
  (ChargeProtocol.company_id request = company ->
   user = 0 \/ user = ChargeProtocol.user_id request ->
   requests_authorization request = true ->
   forall row st state,
     load_user_access company (ChargeProtocol.user_id request) (store e) = (Ok row, st) ->
     from_row row unix_seconds = Ok state ->
     (authorize access_cache_seconds request unix_seconds e1).1 =
       ok_or (Panicked "index out of bounds") (verdict state (required_access request))).
Proof.
  intros e1.
  assert (Hacc : forall c u, access (shard e1) !! (c, u) =
     if bool_decide (c = company /\ (user = 0 \/ u = user)) then None
     else access (shard e) !! (c, u)).
  { intros c u. subst e1. simpl. unfold invalidate_core.
    destruct (Z.eqb_spec user 0) as [->|Hu]; simpl.
    - case_bool_decide as D.
      + apply map_lookup_filter_None. right. intros x _ Hx. simpl in Hx. by destruct D.
      + destruct (access (shard e) !! (c, u)) as [x|] eqn:Ex.
        * apply map_lookup_filter_Some. split; [done|]. simpl. intros ->. apply D. auto.
        * apply map_lookup_filter_None. by left.
    - case_bool_decide as D.
      + destruct D as [-> [?| ->]]; [done|]. apply lookup_delete_eq.
      + apply lookup_delete_ne. intros [= -> ->]. apply D. auto. }
  split; [done|]. intros Hc Hu Hreq row st state Hload Hrow.
  unfold authorize. cbv zeta. rewrite Hreq, Hc.
  assert (access (shard e1) !! (company, ChargeProtocol.user_id request) = None) as Hnone.
  { rewrite Hacc. rewrite bool_decide_eq_true_2; [done|]. split; [done|]. naive_solver. }
  unfold ensure_access, mbind, SE_bind, se_get. rewrite Hnone.
  unfold on_store, context. change (store e1) with (store e). rewrite Hload.
  unfold se_lift. rewrite Hrow. simpl. rewrite lookup_insert_eq. simpl.
  unfold expect, se_lift. done.
Qed.

End Flush.

(** ** Where the flush falls short *)

(** The budget counters of a company are published after the usage rows, and only by a
    flush that had usage rows to write. *)
Lemma flush_skipped {St} `{LimiterStore St} prune_clock budget_clock (l : RateLimiter St) :
  collect_snapshots l = [] -> flush_dirty prune_clock budget_clock l = (0%nat, l).
Proof. intros E. unfold flush_dirty. by rewrite E. Qed.

Definition dirty_budget : CompanyBudgetState :=
  mkCompanyBudgetState (stored (sample_budget 0)) 20290 (mkCredits 400 3) 20300 25 25 1 0.

Definition unpublished : RateLimiter Tables :=
  mkRateLimiter [mkShardState ∅ {[9 := dirty_budget]} ∅ ∅] ∅ empty_tables.

(** A failed budget write is not retried by the next flush. A company whose usage rows
    are all durable but whose budget counters are not (their write failed, as the log line
    "remains dirty" says) is skipped by every later flush, the final one at shutdown
    included, until a new charge dirties a usage row: the pool spending it recorded is then
    lost to a restart. *)
Theorem dirty_budget_not_retried prune_clock budget_clock :
  budget_snapshots unpublished 20300 1754000000 <> [] /\
  flush_dirty prune_clock budget_clock unpublished = (0%nat, unpublished).
Proof.
  split.
  - assert (length (budget_snapshots unpublished 20300 1754000000) = 1%nat) as E by by vm_compute.
    intros E'. by rewrite E' in E.
  - apply flush_skipped. by vm_compute.
Qed.

(** The scenario of the next theorem: a charge, a flush in the next five-minute frame, and a
    charge whose clock was read before that frame began. *)
Definition late_policy : LimitPolicy :=
  mkLimitPolicy (mkScopeLimits (mkCreditLimits 50 500) (mkCreditLimits 5 50))
    (mkScopeLimits (mkCreditLimits 20 200) (mkCreditLimits 5 50)) 0 100.
Definition late_request : Request := mkRequest 7 42 103 (mkCredits 3 0) [0; 0; 0; 0] false.
Definition late_time : Z := 1755000000.
Definition late_tables : Tables :=
  mkTables ∅ ∅
    {[7 := with_entitlement (mkBudgetBind 7 100 10 20301 1000 50 1000 50 5) no_cells]} ∅.

Definition late_step1 := admit_at late_policy 60 late_request late_time 0 (new 4 late_tables).
Definition late_flush1 :=
  (flush_dirty (Ok (late_time + 300)) (Ok (late_time + 300)) late_step1.2).2.
Definition late_step2 := admit_at late_policy 60 late_request late_time 0 late_flush1.
Definition late_flush2 :=
  (flush_dirty (Ok (late_time + 600)) (Ok (late_time + 600)) late_step2.2).2.

(** A charge judged with an earlier clock than the last flush erases its frame. The
    flush pruned the frame's clean row; the late charge starts it again from nothing, and
    the absolute write of the next flush replaces what the table held: two admitted charges
    of 3 leave 3 in the five-minute row. *)
Theorem late_charge_erases_row :
  let key := mkUsageKey 7 COMPANY_AGGREGATE_USER_ID 105850000 in
  five_minute late_time = Ok 105850000 /\
  late_step1.1 = Ok (Allowed verdict_default) /\
  late_step2.1 = Ok (Allowed verdict_default) /\
  decode_optional (usage_view (limiter_store late_flush1) key) = Ok [(103, mkCredits 3 0)] /\
  decode_optional (usage_view (limiter_store late_flush2) key) = Ok [(103, mkCredits 3 0)].
Proof. split_and!; by vm_compute. Qed.

(** ** Witnesses *)

(** One dirty row of company 7. *)
Definition dirty_key : UsageKey := mkUsageKey 7 COMPANY_AGGREGATE_USER_ID 105850000.
Definition dirty_row : UsageRecord := mkUsageRecord [(103, mkCredits 3 0)] 1 0.
Definition flush_start : RateLimiter Tables :=
  mkRateLimiter [mkShardState ∅ ∅ {[dirty_key := dirty_row]} ∅] ∅ empty_tables.

Lemma flush_start_placed : placed flush_start.
Proof.
  split; simpl; [|by intros k [x Hx]].
  intros [|i] sh k Hi [x Hx]; [|done]. simpl in Hi. injection Hi as <-. simpl in Hx.
  apply lookup_singleton_Some in Hx as [<- _]. by vm_compute.
Qed.

Lemma flush_start_durable : rows_durable flush_start.
Proof.
  intros k r Hr. unfold find_row in Hr. destruct (_ =? _).
  { simpl in Hr. by rewrite lookup_empty in Hr. }
  apply bind_Some in Hr as (sh & Hi & Hx). apply list_elem_of_lookup_2 in Hi.
  apply list_elem_of_singleton in Hi as ->. simpl in Hx.
  apply lookup_singleton_Some in Hx as [_ <-]. split; [|done].
  unfold routes_ok, credits_ok; csimpl. repeat constructor; cbn; bounds.
Qed.

Theorem flush_dirty_lossless_witness :
  let l' := (flush_dirty (Ok (late_time + 300)) (Ok late_time) flush_start).2 in
  find_row l' dirty_key = None /\
  usage_view (limiter_store l') dirty_key = Some [1; 156; 3; 0] /\
  placed l' /\ rows_durable l' /\
  forall k r, find_row flush_start k = Some r ->
    (exists r', find_row l' k = Some r' /\ routes r' = routes r) \/
    (find_row l' k = None /\ row_durable (limiter_store l') k r).
Proof.
  intros l'. split; [by vm_compute|]. split; [by vm_compute|].
  apply (flush_dirty_lossless (Ok (late_time + 300)) (Ok late_time) flush_start
           (flush_dirty (Ok (late_time + 300)) (Ok late_time) flush_start).1 l');
    [apply flush_start_placed|apply flush_start_durable|apply surjective_pairing].
Defined.

Definition mutate_env : Quota.Env Tables :=
  mkEnv (mkShardState ∅ {[9 := sample_budget 0]} ∅ ∅) ∅ empty_tables.
Definition sample_mutation : BudgetMutation :=
  mkBudgetMutation 9 SetDaily (mkCredits 70 7).

Theorem mutate_all_or_nothing_witness :
  let out := mutate_core sample_mutation late_time mutate_env in
  out.1 = Ok BudgetOk /\
  exists b', budgets (shard out.2) !! 9 = Some b' /\
    exists month updated s s0,
      month_start_day late_time = Ok month /\ sunix_time late_time = Ok updated /\
      mutated sample_mutation (refresh_month month (sample_budget 0)) month = Ok s /\
      stored b' = mkStoredBudget (sb_company_id s) (daily s) (budget_month_start_day s)
                    (monthly_ceiling s) (last_set s) updated /\
      upsert_budget (stored b') s0 = (Ok tt, store out.2) /\
      set_stored (stored (sample_budget 0)) b' = refresh_month month (sample_budget 0).
Proof.
  intros out. split; [by vm_compute|].
  apply (mutate_all_or_nothing sample_mutation late_time mutate_env (Ok BudgetOk) out.2
           (sample_budget 0)); by vm_compute.
Defined.

Definition cached_env : Quota.Env Tables :=
  mkEnv (mkShardState ∅ ∅ ∅ {[(7, 42) := sample_state]}) ∅
    (mkTables ∅ ∅ ∅ {[(7, 42) := (Some [0; 57], None, Some 1)]}).
Definition gated_request : Request := mkRequest 7 42 103 (mkCredits 0 0) [28; 0; 0; 0] false.

(** The cached grants hold access 7; the row in the table no longer does. *)
Theorem invalidate_immediate_witness :
  let e1 := mkEnv (invalidate_core 7 0 (shard cached_env)) ∅ (store cached_env) in
  (authorize 600 gated_request 1001 cached_env).1 = Ok (Ok (mkAccessVerdict 1 0 [])) /\
  (authorize 600 gated_request 1001 e1).1 = Ok (Err NoAccess).
Proof.
  intros e1. split; [by vm_compute|].
  apply (invalidate_immediate 600 7 0 gated_request 1001 cached_env) with
    (row := Some (mkStoredUserAccess [0; 57] [] 1)) (st := store cached_env)
    (state := mkUserAccessState [0; 57] [] 1 true 1001); try done; by left.
Defined.
