(* ===== verification/RowMoves.v ===== *)
(** * RowMoves: what one call of the limiter does to the usage rows

    [moves] relates the rows before and after a step of [admit], [mutate_budget] or
    [invalidate_access], on every path, errors included: no row leaves memory, a row changes
    only with its version, and a row that appears is the table's or has been charged. It is
    what the flush relies on while calls run between its steps. *)

From stdpp Require Import strings.
From S2P Require Import Prelude CreditsBlob TimeFrame Aggregation Storage Access ChargeProtocol.
From S2P Require Import Quota QuotaLaws Admission AdmissionSafe Flush.

(** A bind at one state, over a preorder: the continuation is seen with its value. *)
Lemma keeps_at {S E A B} (R : S -> S -> Prop) `{!PreOrder R} (m : SE S E A) (f : A -> SE S E B) s :
  R s (m s).2 -> (forall a s1, m s = (Ok a, s1) -> R s1 (f a s1).2) -> R s ((m ≫= f) s).2.
Proof.
  intros Hm Hf. unfold mbind, SE_bind. destruct (m s) as [[a|e] s1] eqn:E1; simpl in *; [|done].
  etrans; [exact Hm|by apply Hf].
Qed.

Lemma encodable_routes_ok m : encodable m -> routes_ok m.
Proof.
  intros (Hs & Hk & Hv). split; [done|]. split.
  - apply (Forall_impl _ _ _ Hk). intros x. unfold MAX_ROUTE_ID. intros ?. split; bounds.
  - apply (Forall_impl _ _ _ Hv). intros c [[? ?] [? ?]]. split; bounds.
Qed.

(** What the table holds decodes to a map it could have encoded. *)
Lemma decode_optional_ok o rs :
  from_option bytes_ok True o -> decode_optional o = Ok rs -> routes_ok rs /\ nonzero rs = rs.
Proof.
  destruct o as [bs|]; simpl.
  - unfold blob. destruct (decode bs) as [m|] eqn:Ed; [|done]. intros Hok [= <-].
    destruct (decode_loop_sound _ _ _ None _ Ed Hok) as (m' & -> & _ & He & Hn & _); [done|].
    split; [by apply encodable_routes_ok|done].
  - intros _ [= <-]. split; [|done]. repeat constructor.
Qed.

Lemma bt_insert_routes_ok r c m : in_u16 r -> credits_ok c -> routes_ok m -> routes_ok (bt_insert r c m).
Proof.
  intros Hr Hc (Hs & Hk & Hv). split; [by apply bt_insert_sorted|]. split.
  - apply Forall_forall. intros x [->|Hx]%bt_insert_keys; [done|]. by eapply Forall_forall in Hk.
  - clear Hs Hk. induction m as [|[k v] m IH]; cbn [bt_insert]; csimpl in *; [by apply Forall_singleton|].
    apply Forall_cons in Hv as [Hv0 Hv]. repeat case_match; csimpl; repeat apply Forall_cons_2; auto.
Qed.

Lemma routes_ok_nil : routes_ok [].
Proof. repeat constructor. Qed.

(** ** Rows *)

(** A row after a call: untouched, or charged, which moves its version. A version at the
    64-bit limit can not move; such a row is left out of what follows. *)
Record row_grows (r r' : UsageRecord) : Prop := {
  g_routes : routes_ok (routes r) -> routes_ok (routes r');
  g_flushed : flushed_version r' = flushed_version r;
  g_version : version r <= version r';
  g_same : 0 <= version r -> version r' = version r -> r' = r \/ U64_MAX <= version r;
}.

#[export] Instance row_grows_preorder : PreOrder row_grows.
Proof.
  split.
  - intros r. split; [done|done|lia|by left].
  - intros r1 r2 r3 [A1 A2 A3 A4] [B1 B2 B3 B4]. split; [auto|congruence|lia|].
    intros H0 E. destruct B4 as [->|?]; [lia|lia|by apply A4|]. right. lia.
Qed.

Section Moves.
Context {St : Type} `{LS : !LimiterStore St} `{SV : !StoreView St} `{SL : !StoreLaws St} `{ST : !StoreTyped St}.

(** A row that was not in memory: the table's, unless it has been charged since. *)
Record row_new (st : St) (k : UsageKey) (r : UsageRecord) : Prop := {
  n_routes : routes_ok (routes r);
  n_flushed : flushed_version r = 0;
  n_version : 0 <= version r;
  n_loaded : version r = 0 -> row_durable st k r;
}.

(** New rows are of the keys in [P]. *)
Definition rows_move (P : UsageKey -> Prop) (st : St) (m m' : UsageMap) : Prop :=
  forall k, match m !! k, m' !! k with
            | None, None => True
            | Some _, None => False
            | None, Some r' => P k /\ row_new st k r'
            | Some r, Some r' => row_grows r r'
            end.

Definition same_usage (s s' : St) : Prop := forall k, usage_view s' k = usage_view s k.

Lemma row_new_same s s' k r : same_usage s s' -> row_new s' k r -> row_new s k r.
Proof. intros Hs [? ? ? H4]. split; [done..|]. unfold row_durable in *. by rewrite <- Hs. Qed.

Lemma row_new_grows st k r r' : row_new st k r -> row_grows r r' -> row_new st k r'.
Proof.
  intros [N1 N2 N3 N4] [G1 G2 G3 G4]. split; [auto|congruence|lia|].
  intros E. destruct G4 as [->|?]; [lia|lia|by apply N4; lia|widths; lia].
Qed.

Lemma rows_move_refl P st m : rows_move P st m m.
Proof. intros k. by destruct (m !! k). Qed.

Lemma rows_move_trans P s s' m1 m2 m3 :
  same_usage s s' -> rows_move P s m1 m2 -> rows_move P s' m2 m3 -> rows_move P s m1 m3.
Proof.
  intros Hs H12 H23 k. specialize (H12 k). specialize (H23 k).
  destruct (m1 !! k), (m2 !! k), (m3 !! k); try done.
  - by etrans.
  - destruct H12. split; [done|by eapply row_new_grows].
  - destruct H23. split; [done|by eapply row_new_same].
Qed.

Definition of_company (c : Z) (k : UsageKey) : Prop := Aggregation.company_id k = c.

(** The same for the whole environment of a call of company [c]. *)
Variable c : Z.

Record moves (e e' : Quota.Env St) : Prop := {
  mv_store : same_usage (store e) (store e');
  mv_usage : rows_move (of_company c) (store e) (usage (shard e)) (usage (shard e'));
  mv_platform : rows_move (of_company PLATFORM_AGGREGATE_COMPANY_ID) (store e) (platform e) (platform e');
}.

#[export] Instance moves_preorder : PreOrder moves.
Proof.
  split.
  - intros e. split; [by intros k|apply rows_move_refl..].
  - intros e1 e2 e3 [A1 A2 A3] [B1 B2 B3]. split.
    + intros k. by rewrite B1, A1.
    + by eapply rows_move_trans.
    + by eapply rows_move_trans.
Qed.

Lemma move_insert (P : UsageKey -> Prop) st (m : UsageMap) k r' :
  match m !! k with Some r => row_grows r r' | None => P k /\ row_new st k r' end ->
  rows_move P st m (<[k := r']> m).
Proof.
  intros H k'. destruct (decide (k' = k)) as [->|Hne].
  - rewrite lookup_insert_eq. by destruct (m !! k).
  - rewrite lookup_insert_ne by done. by destruct (m !! k').
Qed.

Lemma move_merge (P : UsageKey -> Prop) st (m : UsageMap) k rs :
  P k -> routes_ok rs -> row_durable st k (loaded rs) -> rows_move P st m (merge_loaded k rs m).
Proof.
  intros HP Hr Hd. unfold merge_loaded. destruct (m !! k) eqn:E; [apply rows_move_refl|].
  apply move_insert. rewrite E. by split.
Qed.

(** ** Charging a row *)

Lemma increment_grows route cr r res r' :
  in_u16 route -> credits_ok cr -> increment route cr r = (res, r') -> row_grows r r'.
Proof.
  intros Hroute Hc. unfold increment, mbind, SE_bind, se_get, se_lift, se_put, ok_or. simpl.
  destruct (CreditsBlob.checked_add _ cr) as [w|] eqn:Ew; simpl; [|by intros [= _ <-]].
  apply checked_add_Some in Ew as (-> & Hw1 & Hw2).
  assert (forall v, routes_ok (routes r) -> routes_ok (routes (mkUsageRecord
    (bt_insert route (mkCredits (cpu (default credits_default (bt_get route (routes r))) + cpu cr)
      (inference (default credits_default (bt_get route (routes r))) + inference cr)) (routes r)) v (flushed_version r))))
    as Hok.
  { intros v Hr. simpl. by apply bt_insert_routes_ok. }
  destruct (checked_add_u64 (version r) 1) as [n|] eqn:En; simpl; intros [= _ <-].
  - apply checked_add_u64_Some in En as [-> _]. split; [apply Hok|done|simpl; lia|simpl; lia].
  - apply fits_None in En. split; [apply Hok|done|simpl; lia|]. intros ? _. right. bounds.
Qed.

(** A fresh row takes its first charge: nothing is too much for it. *)
Lemma increment_fresh route cr r res :
  in_u16 route -> credits_ok cr -> increment route cr (loaded []) = (res, r) ->
  routes_ok (routes r) /\ flushed_version r = 0 /\ version r = 1.
Proof.
  intros Hroute Hc E.
  assert (exists w, CreditsBlob.checked_add (spent route (routes (loaded []))) cr = Some w) as [w Hw].
  { destruct Hc as [Hc1 Hc2]. eexists. apply checked_add_Some. split; [done|]. by rewrite !Z.add_0_l. }
  pose proof (increment_grows route cr _ _ _ Hroute Hc E) as [Hg1 Hg2 _ _].
  split; [by apply Hg1, routes_ok_nil|]. split; [done|]. revert E.
  unfold increment, mbind, SE_bind, se_get, se_lift, se_put, ok_or. simpl.
  unfold spent in Hw. simpl in Hw. rewrite Hw. simpl. by intros [= _ <-].
Qed.

Lemma increment_row_moves (P : UsageKey -> Prop) st k route cr m :
  in_u16 route -> credits_ok cr -> P k \/ is_Some (m !! k) -> rows_move P st m (increment_row k route cr m).2.
Proof.
  intros Hroute Hc HP. unfold increment_row. destruct (increment route cr _) as [res r'] eqn:E. simpl.
  apply move_insert. destruct (m !! k) as [r|]; simpl in E.
  - by eapply increment_grows.
  - apply increment_fresh in E as (H1 & H2 & H3); [|done..].
    destruct HP as [HP|[? ?]]; [|done]. split; [done|]. split; [done|done|lia|lia].
Qed.

#[export] Instance rows_move_preorder P st : PreOrder (rows_move P st).
Proof. split; [intros m; apply rows_move_refl|intros m1 m2 m3; by apply rows_move_trans]. Qed.

Lemma increment_usage_moves st request t :
  in_u16 (route_id request) -> credits_ok (credits request) -> ChargeProtocol.company_id request = c ->
  se_keeps (rows_move (of_company c) st) (increment_usage request t).
Proof.
  intros Hr Hc <-. unfold increment_usage.
  assert (forall u tf, se_keeps (rows_move (of_company (ChargeProtocol.company_id request)) st)
    (increment_row (mkUsageKey (ChargeProtocol.company_id request) u tf) (route_id request) (credits request))) as K.
  { intros u tf m. apply increment_row_moves; [done|done|by left]. }
  keeps; by apply K.
Qed.

Lemma increment_platform_moves P st request t :
  in_u16 (route_id request) -> credits_ok (credits request) ->
  se_keeps (rows_move P st) (increment_platform_usage request t).
Proof.
  intros Hr Hc m. unfold increment_platform_usage.
  apply keeps_at; [apply _|done|]. intros key m1 E1. unfold se_lift in E1. injection E1 as _ <-.
  apply keeps_at; [apply _|done|]. intros m0 m1 [= <- <-].
  destruct (m !! key) eqn:E; [|done]. apply increment_row_moves; [done|done|by right].
Qed.

(** ** The steps of a call *)

Abbreviation M := (SE (Quota.Env St) anyhow).

(** A step that touches no usage row. *)
Lemma moves_neutral (e e' : Quota.Env St) :
  usage (shard e') = usage (shard e) -> platform e' = platform e ->
  same_usage (store e) (store e') -> moves e e'.
Proof. intros E1 E2 E3. split; [done|rewrite E1; apply rows_move_refl|rewrite E2; apply rows_move_refl]. Qed.

Lemma same_usage_refl (s : St) : same_usage s s.
Proof. by intros k. Qed.

Lemma on_store_moves {A} (m : SE St anyhow A) :
  (forall s r s', m s = (r, s') -> same_usage s s') -> se_keeps moves (on_store m : M A).
Proof.
  intros Hm e. unfold on_store. destruct (m (store e)) as [r s] eqn:E. simpl.
  apply moves_neutral; [done|done|by eapply Hm].
Qed.

Lemma context_run {A} message (m : SE St anyhow A) s r s' :
  context message m s = (r, s') -> exists r0, m s = (r0, s') /\ forall a, r = Ok a -> r0 = Ok a.
Proof.
  unfold context. destruct (m s) as [[a|x] s1]; intros [= <- <-]; eexists; (split; [done|]); [done|].
  by intros a [=].
Qed.

Lemma context_moves {A} message (m : SE St anyhow A) :
  (forall s r s', m s = (r, s') -> same_usage s s') -> se_keeps moves (on_store (context message m) : M A).
Proof. intros Hm. apply on_store_moves. intros s r s' (r0 & E & _)%context_run. by eapply Hm. Qed.

Lemma load_exact_same k (s : St) r s' : load_exact k s = (r, s') -> same_usage s s'.
Proof. by intros [[? _] _]%load_exact_law. Qed.
Lemma load_range_same co u a b (s : St) r s' : load_range co u a b s = (r, s') -> same_usage s s'.
Proof. by intros [[? _] _]%load_range_law. Qed.
Lemma load_budget_same co (s : St) r s' : load_budget co s = (r, s') -> same_usage s s'.
Proof. by intros [[? _] _]%load_budget_law. Qed.
Lemma load_access_same co u (s : St) r s' : load_user_access co u s = (r, s') -> same_usage s s'.
Proof. by intros [? _]%load_user_access_law. Qed.
Lemma upsert_budget_same b (s : St) r s' : upsert_budget b s = (r, s') -> same_usage s s'.
Proof. by intros [? _]%upsert_budget_law. Qed.

Lemma modify_moves (f : ShardState -> ShardState) :
  (forall s, usage (f s) = usage s) -> se_keeps moves (modify_shard f : M unit).
Proof. intros Hf e. apply moves_neutral; [apply Hf|done|apply same_usage_refl]. Qed.

Lemma on_subject_moves {A} message k (m : SE SubjectState anyhow A) :
  se_keeps moves (on_subject message k m : M A).
Proof.
  intros e. unfold on_subject. destruct (subjects (shard e) !! k); [|done].
  destruct (m _). apply moves_neutral; [done|done|apply same_usage_refl].
Qed.

Lemma on_budget_moves {A} co (m : SE CompanyBudgetState anyhow A) : se_keeps moves (on_budget co m : M A).
Proof.
  intros e. unfold on_budget. destruct (budgets (shard e) !! co); [|done].
  destruct (m _). apply moves_neutral; [done|done|apply same_usage_refl].
Qed.

Lemma on_usage_moves {A} (m : SE UsageMap anyhow A) :
  (forall st, se_keeps (rows_move (of_company c) st) m) -> se_keeps moves (on_usage m : M A).
Proof.
  intros Hm e. unfold on_usage. specialize (Hm (store e) (usage (shard e))). destruct (m _) as [r u].
  split; simpl; [apply same_usage_refl|done|apply rows_move_refl].
Qed.

Lemma on_platform_moves {A} (m : SE UsageMap anyhow A) :
  (forall st, se_keeps (rows_move (of_company PLATFORM_AGGREGATE_COMPANY_ID) st) m) ->
  se_keeps moves (on_platform m : M A).
Proof.
  intros Hm e. unfold on_platform. specialize (Hm (store e) (platform e)). destruct (m _) as [r u].
  split; simpl; [apply same_usage_refl|apply rows_move_refl|done].
Qed.

(** ** Loading *)

(** A row the table holds, merged into memory. *)
Lemma stored_moves k rs (e : Quota.Env St) :
  of_company c k ->
  from_option bytes_ok True (usage_view (store e) k) ->
  decode_optional (usage_view (store e) k) = Ok rs ->
  moves e (modify_shard (fun s => set_usage (merge_loaded k rs (usage s)) s) e).2.
Proof.
  intros Hk Hb Hd. destruct (decode_optional_ok _ _ Hb Hd) as [Hr Hn].
  split; simpl; [apply same_usage_refl| |apply rows_move_refl].
  apply move_merge; [done|done|]. unfold row_durable. simpl. by rewrite Hn.
Qed.

(** A point read, as the table has it. *)
Lemma load_exact_row k message (e : Quota.Env St) o e1 :
  on_store (context message (load_exact k)) e = (Ok o, e1) ->
  shard e1 = shard e /\ platform e1 = platform e /\ same_usage (store e) (store e1) /\
  used_credits <$> o = usage_view (store e1) k /\ from_option bytes_ok True (usage_view (store e1) k).
Proof.
  unfold on_store. destruct (context _ _ _) as [r s] eqn:E. intros [= -> <-]. simpl.
  apply context_run in E as (r0 & E & Hr). rewrite (Hr o eq_refl) in E.
  pose proof (load_exact_typed _ _ _ _ E) as Ht. pose proof E as [[Hu _] Ho]%load_exact_law.
  rewrite (Ho o eq_refl) in Ht |- *. split_and!; try done; rewrite Hu; by destruct (usage_view (store e) k).
Qed.

Lemma sum_rows_moves overflow u rows total (e : Quota.Env St) :
  (forall t bs, mkStoredUsage t bs ∈ rows -> bytes_ok bs /\ usage_view (store e) (mkUsageKey c u t) = Some bs) ->
  moves e (sum_rows overflow (fun row routes => modify_shard (fun s =>
    set_usage (merge_loaded (mkUsageKey c u (su_time_frame row)) routes (usage s)) s)) rows total e).2.
Proof.
  revert total e. induction rows as [|[t bs] rows IH]; intros total e Hrows; [done|]. cbn [sum_rows].
  destruct (Hrows t bs ltac:(by left)) as [Hb Hv].
  apply keeps_at; [apply _|done|]. intros routes e1 E1. unfold se_lift in E1. injection E1 as Ed <-.
  apply keeps_at; [apply _|done|]. intros s e1 E1. unfold se_lift in E1. injection E1 as _ <-.
  apply keeps_at; [apply _|done|]. intros total' e1 E1. unfold se_lift in E1. injection E1 as _ <-.
  apply keeps_at; [apply _| |].
  - apply stored_moves; simpl; [done|by rewrite Hv|rewrite Hv]. simpl in *. unfold blob.
    destruct (decode bs); simpl in *; congruence.
  - intros [] e1 [= <-]. apply IH. intros t' bs' Hin. simpl. apply Hrows. by right.
Qed.

Lemma ensure_subject_moves u limits t now extra :
  se_keeps moves (ensure_subject c u limits t now extra : M unit).
Proof.
  intros e. unfold ensure_subject. apply keeps_at; [apply _|done|]. intros e0 e1 [= <- <-].
  case_match; [done|].
  apply keeps_at; [apply _|done|]. intros day e1 E1. unfold se_lift in E1. injection E1 as _ <-. cbv zeta.
  apply keeps_at; [apply _|apply context_moves; exact (load_exact_same _)|].
  intros o e1 (_ & _ & _ & Ho & Hb)%load_exact_row.
  apply keeps_at; [apply _|done|]. intros rs e2 E2. unfold se_lift in E2. injection E2 as Ed <-.
  rewrite Ho in Ed.
  apply keeps_at; [apply _|by apply stored_moves|]. intros [] e2 [= <-].
  apply keeps_at; [apply _|done|]. intros [a b] e3 E3. unfold se_lift in E3. injection E3 as _ <-.
  apply keeps_at; [apply _|apply context_moves; exact (load_range_same _ _ _ _)|].
  intros rows e3 E3. unfold on_store in E3. destruct (context _ _ _) as [r s] eqn:Ec. injection E3 as -> <-.
  apply context_run in Ec as (r0 & Ec & Hr). rewrite (Hr rows eq_refl) in Ec.
  pose proof (load_range_typed _ _ _ _ _ _ _ Ec) as Ht. apply load_range_law in Ec as [[Hu _] Hrows].
  destruct (Hrows rows eq_refl) as [_ Hel].
  apply keeps_at; [apply _| |].
  - apply sum_rows_moves. intros t' bs Hin. split; [rewrite Forall_forall in Ht; exact (Ht _ Hin)|].
    simpl in *. rewrite Hu. by apply Hel in Hin as [_ ?].
  - intros used e4 _. apply keeps_at; [apply _|done|]. intros du e5 E5. unfold se_lift in E5. injection E5 as _ <-.
    cbv zeta. apply keeps_at; [apply _|done|]. intros dp e5 E5. unfold se_lift in E5. injection E5 as _ <-.
    by apply modify_moves.
Qed.

Lemma ensure_budget_moves co t : se_keeps moves (ensure_budget co t : M unit).
Proof.
  unfold ensure_budget.
  assert (forall rows total, se_keeps moves (sum_rows "recovered monthly usage overflowed uint64"
    (fun _ _ => mret tt) rows total : M Credits)) as Hsum.
  { induction rows as [|row rows IH]; intros total; simpl; keeps. }
  keeps; try (apply context_moves; eauto using load_budget_same, load_range_same); try done.
Qed.

Lemma ensure_access_moves ttl co u t : se_keeps moves (ensure_access ttl co u t : M unit).
Proof.
  unfold ensure_access. keeps; try (apply context_moves; eauto using load_access_same).
  by apply modify_moves.
Qed.

Lemma ensure_platform_moves t : se_keeps moves (ensure_platform_usage t : M unit).
Proof.
  intros e. unfold ensure_platform_usage. apply keeps_at; [apply _|done|].
  intros key e1 E1. unfold se_lift in E1. injection E1 as Ekey <-.
  assert (of_company PLATFORM_AGGREGATE_COMPANY_ID key) as Hkey.
  { unfold platform_usage_key in Ekey. destruct (time _); simplify_eq/=. done. }
  apply keeps_at; [apply _|done|]. intros e0 e1 [= <- <-]. case_match; [done|].
  apply keeps_at; [apply _|apply context_moves; exact (load_exact_same _)|].
  intros o e1 (_ & _ & _ & Ho & Hb)%load_exact_row.
  apply keeps_at; [apply _|done|]. intros rs e2 E2. unfold se_lift in E2. injection E2 as Ed <-.
  rewrite Ho in Ed. destruct (decode_optional_ok _ _ Hb Ed) as [Hr Hn].
  unfold on_platform. simpl. split; simpl; [apply same_usage_refl|apply rows_move_refl|].
  apply move_merge; [done|done|]. unfold row_durable. simpl. by rewrite Hn.
Qed.

(** ** The calls *)

Variables (policy : LimitPolicy) (access_cache_seconds : Z).

Definition request_typed (r : Request) : Prop := in_u16 (route_id r) /\ credits_ok (credits r).

Lemma admit_moves request t now :
  request_typed request -> ChargeProtocol.company_id request = c ->
  se_keeps moves (admit_core policy access_cache_seconds request t now : M Decision).
Proof.
  intros [Hr Hc] Hco. unfold admit_core, authorize, prepare, apply_charge, expect.
  pose proof ensure_access_moves as K1. pose proof ensure_budget_moves as K2.
  pose proof ensure_subject_moves as K3. pose proof ensure_platform_moves as K4.
  pose proof (@on_subject_moves) as K5. pose proof (@on_budget_moves) as K6.
  pose proof (fun st => increment_usage_moves st request t Hr Hc Hco) as K7.
  pose proof (fun P st => increment_platform_moves P st request t Hr Hc) as K8.
  rewrite Hco. keeps; eauto using on_usage_moves, on_platform_moves.
Qed.

Lemma mutate_moves m t : se_keeps moves (mutate_core m t : M BudgetMutationReply).
Proof.
  unfold mutate_core, expect. pose proof ensure_budget_moves as K2. pose proof (@on_budget_moves) as K6.
  keeps; eauto. apply context_moves. intros s r s'. apply upsert_budget_same.
Qed.

Lemma invalidate_moves company user : se_keeps moves (modify_shard (invalidate_core company user) : M unit).
Proof. apply modify_moves. intros s. unfold invalidate_core. by case_match. Qed.

End Moves.
