(* ===== verification/FlushSteps.v ===== *)
(** * FlushSteps: the flush while calls go on

    [flush_dirty] of src/src/limiter/quota.rs as the steps it takes between its locks: a
    shard's rows are collected under the shard's mutex, a snapshot is written with no lock
    held, its row is marked under the mutex again, pruning and the budget rows go shard by
    shard. Between any two steps other calls of the limiter run, each alone on its shard.
    One flush runs at a time: the flush task's, and the final one after that task is joined.
    A call dropped at an await, when its connection ends, leaves what an error of that call of
    the store leaves, which the store may answer at any of them; past its last await a call
    runs to its end. *)

From stdpp Require Import strings.
From S2P Require Import Prelude CreditsBlob TimeFrame Aggregation Storage Access ChargeProtocol.
From S2P Require Import Quota QuotaLaws Admission AdmissionSafe Flush RowMoves.

Inductive Flusher :=
| FCollect (i : nat) (acc : list UsageSnapshot)
| FWrite (todo : list UsageSnapshot) (written : nat)
| FMark (s : UsageSnapshot) (todo : list UsageSnapshot) (written : nat)
| FPrune (i : nat) (five day : Z) (written : nat)
| FBudget (written : nat)
| FBudgetCollect (i : nat) (wall_day unix_seconds : Z) (acc : list (StoredBudgetUsage * Z)) (written : nat)
| FBudgetWrite (todo : list (StoredBudgetUsage * Z)) (written : nat)
| FBudgetMark (u : StoredBudgetUsage) (version : Z) (todo : list (StoredBudgetUsage * Z)) (written : nat)
| FDone (written : nat).

Definition flush_begin : Flusher := FCollect 0 [].

(** What other tasks may do to the limiter. *)
Inductive Call :=
| CAdmit (request : Request) (unix_seconds now : Z)
| CMutate (m : BudgetMutation) (unix_seconds : Z)
| CInvalidate (company user : Z).

Definition call_company (c : Call) : Z :=
  match c with
  | CAdmit request _ _ => ChargeProtocol.company_id request
  | CMutate m _ => bm_company_id m
  | CInvalidate company _ => company
  end.

(** What [parse_charge] and the types of the wire guarantee. *)
Definition call_ok (c : Call) : Prop :=
  0 < call_company c /\ match c with CAdmit request _ _ => request_typed request | _ => True end.

Section Machine.
Context {St : Type} `{!LimiterStore St}.
Variables (policy : LimitPolicy) (access_cache_seconds : Z).

Abbreviation L := (RateLimiter St).

Definition run_call (c : Call) (l : L) : L :=
  match c with
  | CAdmit request t now => (admit_at policy access_cache_seconds request t now l).2
  | CMutate m t => (mutate_budget_at m t l).2
  | CInvalidate company user => (invalidate_access company user l).2
  end.

Definition with_store (st : St) (l : L) : L := mkRateLimiter (shards l) (platform_usage l) st.

Definition retain_shard (i : nat) (five day : Z) (l : L) : L :=
  mkRateLimiter
    (alter (fun s => set_usage (filter (fun kv => keep_usage five day kv = true) (usage s)) s) i (shards l))
    (platform_usage l) (limiter_store l).
Definition retain_platform (five : Z) (l : L) : L :=
  mkRateLimiter (shards l) (filter (fun kv => keep_platform five kv = true) (platform_usage l))
    (limiter_store l).

(** The two frames [prune_clean_usage] keeps, from the clock it read. *)
Definition prune_frames (clock : result anyhow Z) : result anyhow (Z * Z) :=
  unix_seconds ← clock;
  five ← time (five_minute unix_seconds);
  day ← time (TimeFrame.daily unix_seconds);
  Ok (five, day).

(** One step; the clocks are what the two readings return. *)
Definition fstep (prune_clock budget_clock : result anyhow Z) (l : L) (f : Flusher) : L * Flusher :=
  match f with
  | FCollect i acc =>
      match shards l !! i with
      | Some sh => (l, FCollect (S i) (acc ++ map_snapshots (usage sh)))
      | None =>
          match acc ++ map_snapshots (platform_usage l) with
          | [] => (l, FDone 0)
          | snapshots => (l, FWrite snapshots 0)
          end
      end
  | FWrite [] w =>
      match prune_frames prune_clock with
      | Ok (five, day) => (l, FPrune 0 five day w)
      | Err _ => (l, FBudget w)
      end
  | FWrite (s :: todo) w =>
      let '(r, st) := flush_snapshot s (limiter_store l) in
      (with_store st l, match r with Ok _ => FMark s todo w | Err _ => FWrite todo w end)
  | FMark s todo w => (limiter_mark_flushed s l, FWrite todo (S w))
  | FPrune i five day w =>
      match shards l !! i with
      | Some _ => (retain_shard i five day l, FPrune (S i) five day w)
      | None => (retain_platform five l, FBudget w)
      end
  | FBudget w =>
      match (unix_seconds ← budget_clock;
             wall_day ← time (local_unix_day unix_seconds);
             Ok (unix_seconds, wall_day)) with
      | Ok (unix_seconds, wall_day) => (l, FBudgetCollect 0 wall_day unix_seconds [] w)
      | Err _ => (l, FDone w)
      end
  | FBudgetCollect i wall_day unix_seconds acc w =>
      match shards l !! i with
      | Some sh =>
          (l, FBudgetCollect (S i) wall_day unix_seconds
                (acc ++ omap (budget_snapshot sh wall_day unix_seconds) (map_to_list (budgets sh))) w)
      | None => (l, FBudgetWrite acc w)
      end
  | FBudgetWrite [] w => (l, FDone w)
  | FBudgetWrite ((u, version) :: todo) w =>
      let '(r, st) := upsert_budget_usage u (limiter_store l) in
      (with_store st l, match r with Ok _ => FBudgetMark u version todo w | Err _ => FBudgetWrite todo w end)
  | FBudgetMark u version todo w => (mark_budget u version l, FBudgetWrite todo (S w))
  | FDone w => (l, FDone w)
  end.

(** The limiter with its flush, if one runs, and the calls of other tasks. *)
Record System := mkSystem { sys_limiter : L; sys_flush : option Flusher }.

Inductive sys_step : System -> System -> Prop :=
| sys_call c l f : call_ok c -> sys_step (mkSystem l f) (mkSystem (run_call c l) f)
| sys_begin l : sys_step (mkSystem l None) (mkSystem l (Some flush_begin))
| sys_flush_step pc bc l f l' f' :
    fstep pc bc l f = (l', f') -> sys_step (mkSystem l (Some f)) (mkSystem l' (Some f'))
| sys_end l w : sys_step (mkSystem l (Some (FDone w))) (mkSystem l None).

End Machine.
