(* ===== verification/FlushConcurrent.v ===== *)
(** * FlushConcurrent: no charge is lost to a flush, while calls go on

    The invariant of FlushSteps.v's machine over the limiter's rows: a row that reads as
    clean is in the table; a snapshot the flush has still to write or to mark is of a row
    that is there, dirty, and unchanged unless its version moved on. *)

From stdpp Require Import strings.
From S2P Require Import Prelude CreditsBlob TimeFrame Aggregation Storage Access ChargeProtocol.
From S2P Require Import Quota QuotaLaws Admission AdmissionSafe Flush RowMoves FlushSteps.

Section Concurrent.
Context {St : Type} `{LS : !LimiterStore St} `{SV : !StoreView St} `{SL : !StoreLaws St} `{ST : !StoreTyped St}.
Variables (policy : LimitPolicy) (access_cache_seconds : Z).

Abbreviation L := (RateLimiter St).

(** ** A call, row by row *)

Definition row_moved (st : St) (k : UsageKey) (o o' : option UsageRecord) : Prop :=
  match o, o' with
  | None, None => True
  | Some _, None => False
  | Some r, Some r' => row_grows r r'
  | None, Some r' => row_new st k r'
  end.

Lemma rows_moved P st (m m' : UsageMap) k : rows_move P st m m' -> row_moved st k (m !! k) (m' !! k).
Proof. intros Hm. specialize (Hm k). by destruct (m !! k), (m' !! k); try destruct Hm. Qed.

Lemma row_moved_refl st k o : row_moved st k o o.
Proof. destruct o; simpl; [reflexivity|done]. Qed.

(** The rows of two limiters over one store. *)
Record limiter_moved (l l' : L) : Prop := {
  lm_placed : placed l -> placed l';
  lm_store : same_usage (limiter_store l) (limiter_store l');
  lm_shards : length (shards l') = length (shards l);
  lm_rows : forall k, row_moved (limiter_store l) k (find_row l k) (find_row l' k);
}.

Lemma on_shard_moved {A} company (m : SE (Quota.Env St) anyhow A) (l : L) :
  company <> PLATFORM_AGGREGATE_COMPANY_ID -> se_keeps (moves company) m ->
  limiter_moved l (on_shard company m l).2.
Proof.
  intros Hc Hm. unfold on_shard. cbv zeta. set (i := Z.to_nat (wrap 64 company mod zlen (shards l))).
  destruct (shards l !! i) as [sh|] eqn:Hi.
  2: { split; [done|by intros k|done|]. intros k. apply row_moved_refl. }
  specialize (Hm (mkEnv sh (platform_usage l) (limiter_store l))).
  destruct (m _) as [r [sh' p' st']]. destruct Hm as [Hs Hu Hp]. simpl in *.
  assert (Hlen : length (<[i := sh']> (shards l)) = length (shards l)) by apply length_insert.
  split; simpl; [|done|done|].
  - intros [P1 P2]. split; simpl; unfold shard_of in *; simpl; rewrite ?Hlen.
    + intros j s k Hj Hk. destruct (decide (j = i)) as [->|Hne]; [|rewrite list_lookup_insert_ne in Hj by done; by eapply P1].
      rewrite list_lookup_insert_eq in Hj by (by eapply lookup_lt_Some). injection Hj as <-.
      specialize (Hu k). destruct (usage sh !! k) eqn:Ek; [by eapply P1|].
      destruct Hk as [x Hx]. rewrite Hx in Hu. destruct Hu as [Hk _]. unfold of_company in Hk. rewrite Hk.
      split; [done|reflexivity].
    + intros k Hk. specialize (Hp k). destruct (platform_usage l !! k) eqn:Ek; [by apply P2|].
      destruct Hk as [x Hx]. rewrite Hx in Hp. by destruct Hp.
  - intros k. unfold find_row, shard_of. simpl. rewrite Hlen.
    destruct (_ =? _); [by eapply rows_moved|]. set (j := Z.to_nat _).
    destruct (decide (j = i)) as [Hj|Hne].
    + rewrite Hj, list_lookup_insert_eq, Hi by (by eapply lookup_lt_Some). by eapply rows_moved.
    + rewrite list_lookup_insert_ne by done. apply row_moved_refl.
Qed.

Lemma call_moved c (l : L) : call_ok c -> limiter_moved l (run_call policy access_cache_seconds c l).
Proof.
  intros [Hco Hc]. assert (call_company c <> PLATFORM_AGGREGATE_COMPANY_ID) as Hne
    by (unfold PLATFORM_AGGREGATE_COMPANY_ID; lia).
  destruct c as [request t now|m t|company user]; simpl in *.
  - apply on_shard_moved; [done|]. by apply admit_moves.
  - apply on_shard_moved; [done|]. apply mutate_moves.
  - apply on_shard_moved; [done|]. apply invalidate_moves.
Qed.

(** ** The invariant *)

Definition row_ok (st : St) (k : UsageKey) (r : UsageRecord) : Prop :=
  routes_ok (routes r) /\ 0 <= flushed_version r <= version r /\
  (is_clean r = true -> version r < U64_MAX -> row_durable st k r).

(** The snapshots the flush has still to write or to mark. *)
Definition pending (f : option Flusher) : list UsageSnapshot :=
  match f with
  | Some (FCollect _ acc) => acc
  | Some (FWrite todo _) => todo
  | Some (FMark s todo _) => s :: todo
  | _ => []
  end.

(** A snapshot of a row that is there, dirty, and the same unless its version moved on. *)
Definition snapshot_ok (o : option UsageRecord) (s : UsageSnapshot) : Prop :=
  exists r, o = Some r /\ flushed_version r < snap_version s <= version r /\
    (version r = snap_version s -> version r < U64_MAX -> routes r = snap_routes s).

Record FInv (l : L) (f : option Flusher) : Prop := {
  fi_placed : placed l;
  fi_rows : forall k r, find_row l k = Some r -> row_ok (limiter_store l) k r;
  fi_pending : forall s, s ∈ pending f -> snapshot_ok (find_row l (snap_key s)) s;
  fi_nodup : NoDup (snap_key <$> pending f);
  fi_collected : match f with
    | Some (FCollect i acc) => (i <= length (shards l))%nat /\ forall s, s ∈ acc ->
        Aggregation.company_id (snap_key s) <> PLATFORM_AGGREGATE_COMPANY_ID /\
        (shard_of l (Aggregation.company_id (snap_key s)) < i)%nat
    | Some (FMark s _ _) => exists bs, CreditsBlob.encode (snap_routes s) = Ok bs /\
        usage_view (limiter_store l) (snap_key s) = Some bs
    | _ => True
    end;
}.

Lemma row_ok_same st st' k r : same_usage st st' -> row_ok st k r -> row_ok st' k r.
Proof. intros Hs (? & ? & ?). split; [done|]. split; [done|]. unfold row_durable in *. by rewrite Hs. Qed.

Lemma row_ok_moved st k o r' :
  match o with Some r => row_ok st k r | None => True end -> row_moved st k o (Some r') -> row_ok st k r'.
Proof.
  destruct o as [r|]; simpl.
  - intros (Hr & Hv & Hd) [G1 G2 G3 G4]. split; [auto|]. split; [lia|].
    unfold is_clean in *. intros Hc%Z.eqb_eq Hmax. destruct G4 as [->|?]; [lia|lia| |lia].
    apply Hd; [by apply Z.eqb_eq|lia].
  - intros _ [N1 N2 N3 N4]. split; [done|]. split; [lia|]. unfold is_clean. intros Hc%Z.eqb_eq _. apply N4. lia.
Qed.

Lemma snapshot_ok_moved st k o o' s :
  match o with Some r => 0 <= version r | None => True end ->
  row_moved st k o o' -> snapshot_ok o s -> snapshot_ok o' s.
Proof.
  intros Hv Hm (r & -> & Hs & Hr). destruct o' as [r'|]; [|done]. destruct Hm as [G1 G2 G3 G4].
  exists r'. split; [done|]. split; [lia|]. intros E Hmax. destruct G4 as [->|?]; [lia|lia|by apply Hr|lia].
Qed.

Lemma finv_call c (l : L) f :
  call_ok c -> FInv l f -> FInv (run_call policy access_cache_seconds c l) f.
Proof.
  intros Hc [I1 I2 I3 I4 I5]. destruct (call_moved c l Hc) as [Hp Hs Hl Hr].
  assert (Hok : forall k, match find_row l k with Some r => row_ok (limiter_store l) k r | None => True end).
  { intros k. destruct (find_row l k) eqn:E; [by apply I2|done]. }
  split; [auto| | |done|].
  - intros k r' Hk. apply (row_ok_same _ _ _ _ Hs). eapply row_ok_moved; [apply Hok|].
    specialize (Hr k). by rewrite Hk in Hr.
  - intros s Hin. eapply snapshot_ok_moved; [|apply Hr|by apply I3].
    specialize (Hok (snap_key s)). destruct (find_row l (snap_key s)); [|done]. destruct Hok as (_ & ? & _). lia.
  - destruct f as [[| | | | | | | |]|]; try done.
    + destruct I5 as [H1 H2]. rewrite Hl. split; [done|]. intros s Hin. unfold shard_of. rewrite Hl. by apply H2.
    + destruct I5 as (bs & He & Hv). exists bs. by rewrite Hs.
Qed.

(** ** The steps of the flush *)

Abbreviation fstep := (@fstep St LS).

Lemma snapshot_fresh (l : L) f k r s :
  FInv l f -> find_row l k = Some r -> snap_routes s = routes r -> snap_version s = version r ->
  is_clean r = false -> snapshot_ok (find_row l k) s.
Proof.
  intros I Hk E1 E2 Hc. destruct (fi_rows l f I k r Hk) as (_ & Hv & _). exists r. split; [done|].
  unfold is_clean in Hc. apply Z.eqb_neq in Hc. rewrite E2. split; [lia|]. by rewrite E1.
Qed.

Lemma finv_collect_shard (l : L) i acc sh :
  shards l !! i = Some sh -> FInv l (Some (FCollect i acc)) ->
  FInv l (Some (FCollect (S i) (acc ++ map_snapshots (usage sh)))).
Proof.
  intros Hi I. destruct I as [I1 I2 I3 I4 [I5 I6]] eqn:Ei.
  assert (Hnew : forall s, s ∈ map_snapshots (usage sh) ->
    Aggregation.company_id (snap_key s) <> PLATFORM_AGGREGATE_COMPANY_ID /\
    shard_of l (Aggregation.company_id (snap_key s)) = i).
  { intros s (r & Hr & _)%map_snapshots_elem. eapply (placed_shard _ I1); [done|by eexists]. }
  split; [done|done| | |].
  - simpl. intros s [Hs|Hs]%elem_of_app; [by apply I3|].
    apply map_snapshots_elem in Hs as (r & Hr & ? & ? & ?).
    eapply snapshot_fresh; [exact I|by eapply find_row_shard|done..].
  - simpl. rewrite fmap_app. apply NoDup_app. split; [done|]. split; [|apply map_snapshots_NoDup].
    intros k (s & -> & Hs)%list_elem_of_fmap (s' & E & Hs')%list_elem_of_fmap.
    destruct (I6 s Hs) as [_ Hlt]. destruct (Hnew s' Hs') as [_ He]. rewrite <- E in He. lia.
  - split; [by apply lookup_lt_Some in Hi|]. intros s [Hs|Hs]%elem_of_app.
    + destruct (I6 s Hs). split; [done|lia].
    + destruct (Hnew s Hs) as [? ->]. split; [done|lia].
Qed.

Lemma finv_collected (l : L) i acc w :
  FInv l (Some (FCollect i acc)) -> FInv l (Some (FWrite (acc ++ map_snapshots (platform_usage l)) w)).
Proof.
  intros I. destruct I as [I1 I2 I3 I4 [I5 I6]] eqn:Ei. split; [done|done| | |done].
  - simpl. intros s [Hs|Hs]%elem_of_app; [by apply I3|].
    apply map_snapshots_elem in Hs as (r & Hr & ? & ? & ?).
    eapply snapshot_fresh; [exact I|by apply find_row_platform|done..].
  - simpl. rewrite fmap_app. apply NoDup_app. split; [done|]. split; [|apply map_snapshots_NoDup].
    intros k (s & -> & Hs)%list_elem_of_fmap (s' & E & Hs')%list_elem_of_fmap.
    destruct (I6 s Hs) as [Hne _]. apply Hne. rewrite E.
    apply map_snapshots_elem in Hs' as (r & Hr & _). apply (placed_platform _ I1). by eexists.
Qed.

(** Leaving the rows and their table alone. *)
Lemma finv_quiet (l l' : L) f f' :
  FInv l f -> (placed l -> placed l') ->
  (forall k r, find_row l' k = Some r -> find_row l k = Some r) ->
  same_usage (limiter_store l) (limiter_store l') ->
  pending f' = [] -> match f' with Some (FCollect _ _) | Some (FMark _ _ _) => False | _ => True end ->
  FInv l' f'.
Proof.
  intros [I1 I2 _ _ _] Hp Hr Hs He Hf. split; [auto| |rewrite He; by intros s ?%not_elem_of_nil
    |rewrite He; apply NoDup_nil_2|by destruct f' as [[]|]].
  intros k r Hk. apply (row_ok_same _ _ _ _ Hs), I2. by apply Hr.
Qed.

Lemma finv_write (l : L) s todo w r st :
  FInv l (Some (FWrite (s :: todo) w)) -> flush_snapshot s (limiter_store l) = (r, st) ->
  FInv (with_store st l) (Some (match r with Ok _ => FMark s todo w | Err _ => FWrite todo w end)).
Proof.
  intros [I1 I2 I3 I4 _] E. apply flush_snapshot_run in E as [Hne Hok].
  assert (Hrows : forall k r, find_row l k = Some r -> row_ok st k r).
  { intros k r0 Hk. destruct (I2 k r0 Hk) as (Hr & Hv & Hd). split; [done|]. split; [done|].
    destruct (decide (k = snap_key s)) as [->|Hk'].
    - intros Hc. destruct (I3 s ltac:(by left)) as (r1 & Hr1 & Hlt & _). unfold is_clean in Hc.
      apply Z.eqb_eq in Hc. rewrite Hk in Hr1. injection Hr1 as <-. lia.
    - unfold row_durable. by rewrite Hne. }
  csimpl in I4. apply NoDup_cons in I4 as [I4 I4'].
  destruct r as [[]|e]; (split; [by split; apply I1|done|simpl; intros s' Hs'| |]).
  - by apply I3.
  - simpl. csimpl. by apply NoDup_cons.
  - by apply Hok.
  - apply I3. by right.
  - done.
  - done.
Qed.

Lemma finv_mark (l : L) s todo w :
  FInv l (Some (FMark s todo w)) -> FInv (limiter_mark_flushed s l) (Some (FWrite todo (S w))).
Proof.
  intros [I1 I2 I3 I4 (bs & He & Hv)]. simpl in I3, I4. csimpl in I4. apply NoDup_cons in I4 as [I4 I4'].
  split; [by apply limiter_mark_placed| | |done|done].
  - intros k r'. rewrite find_row_mark, limiter_mark_store. case_decide as D; [subst k|by apply I2].
    intros (r & Hr & ->)%fmap_Some. destruct (I2 _ _ Hr) as (Hok & Hver & Hd).
    destruct (I3 s ltac:(by left)) as (r0 & Hr0 & Hlt & Heq). rewrite Hr in Hr0. injection Hr0 as <-.
    unfold row_ok. rewrite routes_mark. split; [done|]. unfold Aggregation.mark_flushed.
    destruct (Z.eqb_spec (version r) (snap_version s)) as [Ev|Ev]; [|done]. simpl. split; [lia|].
    intros _ Hmax. unfold row_durable. rewrite Hv. simpl. rewrite (Heq Ev Hmax).
    rewrite (Heq Ev Hmax) in Hok. unfold blob.
    by rewrite (decode_of_encode (snap_routes s) bs) by (done || by eapply encode_Ok_encodable).
  - intros s' Hs'. rewrite find_row_mark, decide_False; [by apply I3; right|].
    intros E. apply I4. rewrite <- E. by apply list_elem_of_fmap_2.
Qed.

Lemma retain_shard_rows i five day (l : L) :
  (placed l -> placed (retain_shard i five day l)) /\
  forall k r, find_row (retain_shard i five day l) k = Some r -> find_row l k = Some r.
Proof.
  split.
  - intros [P1 P2]. split; simpl; [|done]. intros j s k Hj Hk. unfold shard_of. simpl. rewrite length_alter.
    rewrite list_lookup_alter in Hj. case_decide as D.
    + apply fmap_Some in Hj as (s0 & Hj & ->). destruct Hk as [x Hx]. simpl in Hx.
      apply map_lookup_filter_Some in Hx as [Hx _]. eapply P1; [by rewrite D in Hj|by eexists].
    + by eapply P1.
  - intros k r. unfold find_row, shard_of. simpl. rewrite length_alter, list_lookup_alter.
    destruct (_ =? _); [done|]. case_decide as D; [|done]. rewrite D.
    destruct (shards l !! _) as [sh|]; [|done]. simpl. by intros [? _]%map_lookup_filter_Some.
Qed.

Lemma retain_platform_rows five (l : L) :
  (placed l -> placed (retain_platform five l)) /\
  forall k r, find_row (retain_platform five l) k = Some r -> find_row l k = Some r.
Proof.
  split.
  - intros [P1 P2]. split; simpl; [done|]. intros k [x [Hx _]%map_lookup_filter_Some]. apply P2. by eexists.
  - intros k r. unfold find_row. simpl. destruct (_ =? _); [|done]. by intros [? _]%map_lookup_filter_Some.
Qed.

Lemma finv_fstep pc bc (l : L) f l' f' :
  FInv l (Some f) -> fstep pc bc l f = (l', f') -> FInv l' (Some f').
Proof.
  intros I E.
  assert (Hstay : forall g, pending (Some g) = [] ->
    match g with FCollect _ _ | FMark _ _ _ => False | _ => True end -> FInv l (Some g)).
  { intros g Hg Hm. eapply finv_quiet; [exact I|done|done|by intros k|done|by destruct g]. }
  destruct f as [i acc|[|s todo] w|s todo w|i five day w|w|i wall u acc w|[|[u v] todo] w|u v todo w|w];
    simpl in E.
  - destruct (shards l !! i) as [sh|] eqn:Hi; [injection E as <- <-; by apply finv_collect_shard|].
    pose proof (finv_collected l i acc 0 I) as I'.
    destruct (acc ++ map_snapshots (platform_usage l)); injection E as <- <-; [by apply Hstay|done].
  - destruct (prune_frames pc) as [[five day]|]; injection E as <- <-; by apply Hstay.
  - destruct (flush_snapshot s (limiter_store l)) as [r st] eqn:Ef. injection E as <- <-. by apply finv_write.
  - injection E as <- <-. by apply finv_mark.
  - destruct (shards l !! i); injection E as <- <-.
    + destruct (retain_shard_rows i five day l). eapply finv_quiet; [exact I|done|done|by intros k|done|done].
    + destruct (retain_platform_rows five l). eapply finv_quiet; [exact I|done|done|by intros k|done|done].
  - destruct (mbind _ bc) as [[u wall]|]; injection E as <- <-; by apply Hstay.
  - destruct (shards l !! i); injection E as <- <-; by apply Hstay.
  - injection E as <- <-. by apply Hstay.
  - destruct (upsert_budget_usage u (limiter_store l)) as [r st] eqn:Eu. injection E as <- <-.
    apply upsert_budget_usage_law in Eu as (Hv & _).
    eapply finv_quiet; [exact I|intros P; split; apply P|done|done|by destruct r|by destruct r].
  - injection E as <- <-. destruct (mark_budget_rows u v l) as (Hmp & Hmf & Hms).
    eapply finv_quiet; [exact I|done|intros k r; by rewrite Hmf|by intros k|done|done].
  - injection E as <- <-. done.
Qed.

(** ** Every run *)

Abbreviation System := (System (St := St)).
Abbreviation sys_step := (@sys_step St LS policy access_cache_seconds).

Definition sys_new (shard_count : nat) (st : St) : System := mkSystem (new shard_count st) None.

Lemma find_row_new shard_count (st : St) k : find_row (new shard_count st) k = None.
Proof.
  unfold find_row, new. simpl. destruct (_ =? _); [done|]. unfold shard_of. simpl.
  set (i := Z.to_nat _). destruct (replicate _ _ !! i) as [sh|] eqn:Hi; [|done].
  apply lookup_replicate in Hi as [-> _]. done.
Qed.

Lemma placed_new shard_count (st : St) : placed (new shard_count st).
Proof.
  split; simpl.
  - intros i sh k [-> _]%lookup_replicate [x Hx]. simpl in Hx. by rewrite lookup_empty in Hx.
  - intros k [x Hx]. by rewrite lookup_empty in Hx.
Qed.

Lemma finv_new shard_count (st : St) : FInv (new shard_count st) None.
Proof.
  split; [apply placed_new| | |apply NoDup_nil_2|done].
  - intros k r. by rewrite find_row_new.
  - by intros s ?%not_elem_of_nil.
Qed.

Lemma finv_sys_step (s s' : System) :
  FInv (sys_limiter s) (sys_flush s) -> sys_step s s' -> FInv (sys_limiter s') (sys_flush s').
Proof.
  intros I Hs. destruct Hs as [c l f Hc|l|pc bc l f l' f' E|l w]; simpl in *.
  - by apply finv_call.
  - destruct I as [I1 I2 _ _ _]. split; [done|done|by intros s ?%not_elem_of_nil|apply NoDup_nil_2|].
    split; [lia|]. by intros s ?%not_elem_of_nil.
  - by eapply finv_fstep.
  - eapply finv_quiet; [exact I|done|done|by intros k|done|done].
Qed.

Lemma finv_run (s s' : System) :
  FInv (sys_limiter s) (sys_flush s) -> rtc sys_step s s' -> FInv (sys_limiter s') (sys_flush s').
Proof. intros I Hr. induction Hr as [|s1 s2 s3 Hs _ IH]; [done|]. by apply IH, (finv_sys_step s1). Qed.

(** What one step of the flush does to a row. *)
Lemma retain_shard_row i five day (l : L) k :
  find_row (retain_shard i five day l) k = find_row l k \/
  exists r, find_row l k = Some r /\ is_clean r = true /\ find_row (retain_shard i five day l) k = None.
Proof.
  unfold find_row, shard_of. simpl. rewrite length_alter, list_lookup_alter.
  destruct (_ =? _); [by left|]. case_decide as D; [|by left]. rewrite D.
  destruct (shards l !! _) as [sh|]; simpl; [|by left].
  destruct (usage sh !! k) as [r|] eqn:Hr.
  - destruct (keep_usage five day (k, r)) eqn:Ek; [left; by apply map_lookup_filter_Some|right].
    exists r. split; [done|]. split; [unfold keep_usage in Ek; simpl in Ek; by destruct (is_clean r)|].
    apply map_lookup_filter_None. right. intros x Hx. rewrite Hr in Hx. injection Hx as <-. by rewrite Ek.
  - left. apply map_lookup_filter_None. by left.
Qed.

Lemma retain_platform_row five (l : L) k :
  find_row (retain_platform five l) k = find_row l k \/
  exists r, find_row l k = Some r /\ is_clean r = true /\ find_row (retain_platform five l) k = None.
Proof.
  unfold find_row. simpl. destruct (_ =? _); [|by left].
  destruct (platform_usage l !! k) as [r|] eqn:Hr.
  - destruct (keep_platform five (k, r)) eqn:Ek; [left; by apply map_lookup_filter_Some|right].
    exists r. split; [done|]. split; [unfold keep_platform in Ek; simpl in Ek; by destruct (is_clean r)|].
    apply map_lookup_filter_None. right. intros x Hx. rewrite Hr in Hx. injection Hx as <-. by rewrite Ek.
  - left. apply map_lookup_filter_None. by left.
Qed.

Lemma fstep_row pc bc (l : L) f l' f' k r :
  fstep pc bc l f = (l', f') -> find_row l k = Some r ->
  (exists r', find_row l' k = Some r' /\ routes r' = routes r) \/
  (find_row l' k = None /\ is_clean r = true /\ limiter_store l' = limiter_store l).
Proof.
  intros E Hr.
  assert (Hsame : forall l0 : L, find_row l0 k = find_row l k ->
    (exists r', find_row l0 k = Some r' /\ routes r' = routes r) \/
    (find_row l0 k = None /\ is_clean r = true /\ limiter_store l0 = limiter_store l)).
  { intros l0 E0. left. exists r. by rewrite E0. }
  destruct f as [i acc|[|s todo] w|s todo w|i five day w|w|i wall u acc w|[|[u v] todo] w|u v todo w|w];
    simpl in E.
  - destruct (shards l !! i); [|destruct (acc ++ _)]; injection E as <- <-; by apply Hsame.
  - destruct (prune_frames pc) as [[five day]|]; injection E as <- <-; by apply Hsame.
  - destruct (flush_snapshot s (limiter_store l)). injection E as <- <-. by apply Hsame.
  - injection E as <- <-. left. rewrite find_row_mark, Hr. case_decide; [|by exists r].
    exists (Aggregation.mark_flushed (snap_version s) r). by rewrite routes_mark.
  - destruct (shards l !! i); injection E as <- <-.
    + destruct (retain_shard_row i five day l k) as [E|(x & Hx & Hc & Hn)]; [by apply Hsame|right].
      rewrite Hr in Hx. by injection Hx as <-.
    + destruct (retain_platform_row five l k) as [E|(x & Hx & Hc & Hn)]; [by apply Hsame|right].
      rewrite Hr in Hx. by injection Hx as <-.
  - destruct (mbind _ bc) as [[u wall]|]; injection E as <- <-; by apply Hsame.
  - destruct (shards l !! i); injection E as <- <-; by apply Hsame.
  - injection E as <- <-. by apply Hsame.
  - destruct (upsert_budget_usage u (limiter_store l)). injection E as <- <-. by apply Hsame.
  - injection E as <- <-. destruct (mark_budget_rows u v l) as (_ & Hmf & _). by apply Hsame.
  - injection E as <- <-. by apply Hsame.
Qed.


(** ** Alone, the steps are [flush_dirty] *)

Definition alone (pc bc : result anyhow Z) : relation (L * Flusher) :=
  rtc (fun x y => fstep pc bc x.1 x.2 = y).

Lemma alone_step pc bc (l : L) f y : alone pc bc (fstep pc bc l f) y -> alone pc bc (l, f) y.
Proof. intros H. by eapply rtc_l. Qed.

Lemma collect_alone pc bc (l : L) n i acc y :
  (n = length (shards l) - i)%nat -> (i <= length (shards l))%nat ->
  alone pc bc (l, FCollect (length (shards l))
    (acc ++ flat_map (fun s => map_snapshots (usage s)) (drop i (shards l)))) y ->
  alone pc bc (l, FCollect i acc) y.
Proof.
  revert i acc. induction n as [|n IH]; intros i acc Hn Hi Hy.
  - assert (i = length (shards l)) as -> by lia. by rewrite drop_all, app_nil_r in Hy.
  - destruct (lookup_lt_is_Some_2 (shards l) i ltac:(lia)) as [sh Hsh].
    apply alone_step. simpl. rewrite Hsh. apply IH; [lia|lia|].
    rewrite (drop_S _ _ _ Hsh) in Hy. simpl in Hy. by rewrite <- app_assoc.
Qed.

Lemma write_alone pc bc ss (l : L) w n l1 y :
  flush_rows ss l = (n, l1) -> alone pc bc (l1, FWrite [] (w + n)) y -> alone pc bc (l, FWrite ss w) y.
Proof.
  revert l w n. induction ss as [|s ss IH]; intros l w n E Hy; cbn [flush_rows] in E.
  { injection E as <- <-. by rewrite Nat.add_0_r in Hy. }
  apply alone_step. simpl. destruct (flush_snapshot s (limiter_store l)) as [r st].
  fold (with_store st l) in E. destruct r as [[]|e].
  - destruct (flush_rows ss (limiter_mark_flushed s (with_store st l))) as [n1 l2] eqn:E1.
    injection E as <- <-. apply alone_step. simpl. eapply IH; [exact E1|].
    by replace (S w + n1)%nat with (w + S n1)%nat by lia.
  - by eapply IH.
Qed.

(** The shards before [i] are pruned. *)
Definition pruned_to (five day : Z) (i : nat) (l : L) : L :=
  mkRateLimiter
    (((fun s => set_usage (filter (fun kv => keep_usage five day kv = true) (usage s)) s) <$> take i (shards l))
       ++ drop i (shards l)) (platform_usage l) (limiter_store l).

Lemma pruned_step five day i (l : L) sh :
  shards l !! i = Some sh -> retain_shard i five day (pruned_to five day i l) = pruned_to five day (S i) l.
Proof.
  intros Hi. unfold retain_shard, pruned_to. simpl. f_equal.
  assert (length (take i (shards l)) = i) as Hlen.
  { rewrite length_take. apply lookup_lt_Some in Hi. lia. }
  set (g := fun s => set_usage (filter (fun kv => keep_usage five day kv = true) (usage s)) s).
  rewrite (take_S_r _ _ _ Hi), fmap_app, (drop_S _ _ _ Hi), <- app_assoc. simpl.
  replace i with (length (g <$> take i (shards l)) + 0)%nat at 1 by (rewrite length_fmap; lia).
  by rewrite alter_app_r.
Qed.

Lemma prune_alone pc bc five day n i (l : L) w y :
  (n = length (shards l) - i)%nat -> (i <= length (shards l))%nat ->
  alone pc bc (retain_platform five (pruned_to five day (length (shards l)) l), FBudget w) y ->
  alone pc bc (pruned_to five day i l, FPrune i five day w) y.
Proof.
  revert i. induction n as [|n IH]; intros i Hn Hi Hy; apply alone_step; simpl.
  - assert (i = length (shards l)) as -> by lia. rewrite lookup_ge_None_2; [done|].
    rewrite length_app, length_fmap, length_take, length_drop. lia.
  - destruct (lookup_lt_is_Some_2 (shards l) i ltac:(lia)) as [sh Hsh].
    rewrite lookup_app_r by (rewrite length_fmap, length_take; lia).
    rewrite length_fmap, length_take, lookup_drop.
    replace (i + (i - i `min` length (shards l)))%nat with i by lia. rewrite Hsh.
    rewrite (pruned_step five day i l sh Hsh). apply IH; [lia|lia|done].
Qed.

Lemma budget_write_alone pc bc bs (l : L) w n l1 y :
  flush_budgets bs l = (n, l1) -> alone pc bc (l1, FDone (w + n)) y -> alone pc bc (l, FBudgetWrite bs w) y.
Proof.
  revert l w n. induction bs as [|[u v] bs IH]; intros l w n E Hy; cbn [flush_budgets] in E; apply alone_step; simpl.
  { injection E as <- <-. by rewrite Nat.add_0_r in Hy. }
  destruct (upsert_budget_usage u (limiter_store l)) as [r st]. fold (with_store st l) in E. destruct r as [[]|e].
  - destruct (flush_budgets bs (mark_budget u v (with_store st l))) as [n1 l2] eqn:E1.
    injection E as <- <-. apply alone_step. simpl. eapply IH; [exact E1|].
    by replace (S w + n1)%nat with (w + S n1)%nat by lia.
  - by eapply IH.
Qed.

Lemma budget_collect_alone pc bc (l : L) n i wall u acc w y :
  (n = length (shards l) - i)%nat -> (i <= length (shards l))%nat ->
  alone pc bc (l, FBudgetWrite (acc ++ flat_map (fun s =>
    omap (budget_snapshot s wall u) (map_to_list (budgets s))) (drop i (shards l))) w) y ->
  alone pc bc (l, FBudgetCollect i wall u acc w) y.
Proof.
  revert i acc. induction n as [|n IH]; intros i acc Hn Hi Hy; apply alone_step; simpl.
  - assert (i = length (shards l)) as -> by lia. rewrite lookup_ge_None_2 by lia.
    by rewrite drop_all, app_nil_r in Hy.
  - destruct (lookup_lt_is_Some_2 (shards l) i ltac:(lia)) as [sh Hsh]. rewrite Hsh. apply IH; [lia|lia|].
    rewrite (drop_S _ _ _ Hsh) in Hy. simpl in Hy. by rewrite <- app_assoc.
Qed.

Lemma budget_alone pc bc (l : L) w n l1 y :
  flush_dirty_budget_usage bc l = (n, l1) -> alone pc bc (l1, FDone (w + n)) y -> alone pc bc (l, FBudget w) y.
Proof.
  intros E Hy. apply alone_step. simpl. unfold flush_dirty_budget_usage in E.
  destruct bc as [u|e]; simpl; [|injection E as <- <-; by rewrite Nat.add_0_r in Hy].
  destruct (local_unix_day u) as [wall|e]; simpl; [|injection E as <- <-; by rewrite Nat.add_0_r in Hy].
  eapply budget_collect_alone; [done|lia|]. rewrite drop_0. simpl.
  by eapply budget_write_alone.
Qed.

(** What the two forms of the prune make of the limiter. *)
Lemma prune_frames_spec pc (l : L) :
  ((unix_seconds ← se_lift pc; prune_clean_usage unix_seconds) l).2 =
  match prune_frames pc with
  | Ok (five, day) => retain_platform five (pruned_to five day (length (shards l)) l)
  | Err _ => l
  end.
Proof.
  unfold prune_frames, prune_clean_usage, mbind, SE_bind, se_lift, result_bind.
  destruct pc as [u|e]; simpl; [|done]. destruct (time (five_minute u)) as [five|e]; simpl; [|done].
  destruct (time (TimeFrame.daily u)) as [day|e]; simpl; [|done].
  unfold retain_platform, pruned_to, se_modify. simpl. by rewrite firstn_all, drop_all, app_nil_r.
Qed.

Lemma flush_alone pc bc (l : L) :
  let '(n, l') := flush_dirty pc bc l in alone pc bc (l, flush_begin) (l', FDone n).
Proof.
  destruct (flush_dirty pc bc l) as [n l'] eqn:E. unfold flush_begin. eapply collect_alone; [done|lia|]. rewrite drop_0. simpl.
  apply alone_step. simpl. rewrite lookup_ge_None_2 by lia. unfold flush_dirty in E.
  fold (collect_snapshots l). destruct (collect_snapshots l) as [|s0 ss] eqn:Ec.
  { injection E as <- <-. apply rtc_refl. }
  destruct (flush_rows (s0 :: ss) l) as [w l1] eqn:E1.
  eapply write_alone; [exact E1|]. apply alone_step. simpl.
  pose proof (prune_frames_spec pc l1) as Hp.
  destruct ((unix_seconds ← se_lift pc; prune_clean_usage unix_seconds) l1) as [r l2]. simpl in *.
  destruct (flush_dirty_budget_usage bc l2) as [w2 l3] eqn:E3. injection E as <- <-.
  destruct (prune_frames pc) as [[five day]|e]; subst l2.
  - assert (pruned_to five day 0 l1 = l1) as E0 by (unfold pruned_to; rewrite drop_0; by destruct l1).
    rewrite <- E0 at 1. eapply prune_alone; [done|lia|]. eapply budget_alone; [exact E3|]. apply rtc_refl.
  - eapply budget_alone; [exact E3|]. apply rtc_refl.
Qed.

(** The flush as a sequence of steps is the flush. With no call in between, the steps from
    [flush_begin] reach [FDone] with exactly the limiter and the count [flush_dirty] returns:
    on every limiter, for every answer of the store and of the two clocks. *)
Theorem flush_steps_alone pc bc (l : L) :
  let '(n, l') := flush_dirty pc bc l in alone pc bc (l, flush_begin) (l', FDone n).
Proof. exact (flush_alone pc bc l). Qed.

End Concurrent.

(** ** A store that keeps what is written, for the witnesses *)

Module Kept.

Abbreviation T := (gmap UsageKey (dsig bytes_ok)).

Definition stored_usage (k : UsageKey) (bs : dsig bytes_ok) : StoredUsage := mkStoredUsage (time_frame k) (`bs).

Definition in_range (c u a b : Z) (kv : UsageKey * dsig bytes_ok) : Prop :=
  Aggregation.company_id kv.1 = c /\ Aggregation.user_id kv.1 = u /\ a <= time_frame kv.1 <= b.

#[global] Instance in_range_dec c u a b kv : base.Decision (in_range c u a b kv).
Proof. unfold in_range. apply _. Defined.

#[global] Instance kept_store : LimiterStore T := {
  load_exact k s := (Ok (stored_usage k <$> s !! k), s);
  load_range c u a b s :=
    (Ok ((fun kv => stored_usage kv.1 kv.2) <$> filter (in_range c u a b) (map_to_list s)), s);
  upsert k bs s :=
    match decide (bytes_ok bs) with
    | left H => (Ok tt, <[k := dexist bs H]> s)
    | right _ => (Err (Msg "not bytes"), s)
    end;
  load_budget c s := (Ok (Some (frozen_row c)), s);
  upsert_budget _ s := (Err (Msg "read-only"), s);
  upsert_budget_usage _ s := (Ok tt, s);
  load_user_access _ _ s := (Ok None, s);
}.

#[global] Instance kept_view : StoreView T := {
  usage_view s k := proj1_sig <$> s !! k;
  budget_view _ c := Some (frozen_row c);
}.

#[global] Instance kept_typed : StoreTyped T.
Proof.
  split; intros; simplify_eq/=; try done.
  - destruct (s' !! k) as [bs|]; simpl; [by apply (proj2_dsig bs)|done].
  - apply Forall_forall. intros x ([k' bs] & -> & _)%list_elem_of_fmap. simpl. apply (proj2_dsig bs).
Qed.

Lemma range_elem c u a b (s : T) t bs :
  mkStoredUsage t bs ∈ (fun kv => stored_usage kv.1 kv.2) <$> filter (in_range c u a b) (map_to_list s) <->
  a <= t <= b /\ proj1_sig <$> s !! mkUsageKey c u t = Some bs.
Proof.
  rewrite list_elem_of_fmap. split.
  - intros ([k x] & E & [(Hc & Hu & Ht) Hin%elem_of_map_to_list]%list_elem_of_filter). simpl in *.
    unfold stored_usage in E. injection E as -> ->. split; [done|].
    destruct k as [c' u' t']. simpl in *. subst. apply fmap_Some. by exists x.
  - intros [Ht (x & Hx & ->)%fmap_Some]. exists (mkUsageKey c u t, x). split; [done|].
    apply list_elem_of_filter. split; [done|]. by apply elem_of_map_to_list.
Qed.

Lemma range_nodup c u a b (s : T) :
  NoDup (su_time_frame <$> ((fun kv => stored_usage kv.1 kv.2) <$> filter (in_range c u a b) (map_to_list s))).
Proof.
  rewrite <- list_fmap_compose. pose proof (NoDup_map_to_list s) as Hn.
  assert (Hk : NoDup ((map_to_list s).*1)) by apply NoDup_fst_map_to_list. clear Hn. revert Hk.
  induction (map_to_list s) as [|[k x] l IH]; intros Hk; [constructor|].
  csimpl in Hk. apply NoDup_cons in Hk as [Hk Hl]. rewrite filter_cons. case_decide as D; [|by apply IH].
  csimpl. apply NoDup_cons. split; [|by apply IH].
  intros ([k' x'] & E & [D' Hin]%list_elem_of_filter)%list_elem_of_fmap. apply Hk. apply list_elem_of_fmap.
  exists (k', x'). split; [|done]. simpl in *. destruct D as (? & ? & _), D' as (? & ? & _).
  destruct k, k'. simpl in *. congruence.
Qed.

#[global] Instance kept_laws : StoreLaws T.
Proof.
  split.
  - intros k s r s' [= <- <-]. split; [done|]. intros o [= <-]. simpl. by destruct (s !! k).
  - intros c u a b s r s' [= <- <-]. split; [done|]. intros rows [= <-].
    split; [apply range_nodup|]. intros t bs. apply range_elem.
  - intros k bs s r s'. simpl. destruct (decide (bytes_ok bs)) as [Hb|Hb]; intros [= <- <-].
    + split; [done|]. split; [intros k' Hne; by rewrite lookup_insert_ne|]. left. by rewrite lookup_insert_eq.
    + split_and!; try done. by right.
  - intros c s r s' [= <- <-]. split; [done|]. by intros o [= <-].
  - intros b s r s' [= <- <-]. by split_and!.
  - intros u s r s' [= <- <-]. split_and!; try done. by intros row row' [= <-] [= <-].
  - intros c u s r s' [= <- <-]. done.
Qed.

Abbreviation kept_system := (System (St := T)).

Definition charge : Call := CAdmit late_request late_time 0.

(** One charge, the flush up to its first accepted write, and a second charge before that
    write is marked. *)
Definition steps (n : nat) (l : RateLimiter T) (f : Flusher) : RateLimiter T * Flusher :=
  Nat.iter n (fun x => fstep (Ok late_time) (Ok late_time) x.1 x.2) (l, f).

Definition charged : RateLimiter T := run_call late_policy 60 charge (new 4 ∅).
Definition written : RateLimiter T * Flusher := steps 6 charged flush_begin.
Definition raced : RateLimiter T := run_call late_policy 60 charge written.1.
Definition marked : RateLimiter T * Flusher := steps 1 raced written.2.

Definition before : System := mkSystem raced (Some written.2).
Definition after : System := mkSystem marked.1 (Some marked.2).
Definition raced_row : UsageRecord := mkUsageRecord [(103, mkCredits 6 0)] 2 0.
Definition raced_key : UsageKey := mkUsageKey 7 COMPANY_AGGREGATE_USER_ID 200020312.

Lemma steps_run n (l : RateLimiter T) f :
  rtc (@sys_step T _ late_policy 60) (mkSystem l (Some f))
    (mkSystem (steps n l f).1 (Some (steps n l f).2)).
Proof.
  induction n as [|n IH]; [apply rtc_refl|]. eapply rtc_r; [exact IH|].
  unfold steps. rewrite Nat.iter_succ. apply (sys_flush_step late_policy 60 (Ok late_time) (Ok late_time)).
  apply surjective_pairing.
Qed.

Lemma step_one (l : RateLimiter T) f :
  fstep (Ok late_time) (Ok late_time) l f = ((steps 1 l f).1, (steps 1 l f).2).
Proof. apply surjective_pairing. Qed.

Lemma charge_ok : call_ok charge.
Proof. split; [done|]. unfold request_typed, credits_ok. simpl. split_and!; bounds. Qed.

Lemma raced_reachable :
  rtc (@sys_step T _ late_policy 60) (sys_new 4 (∅ : T)) before.
Proof.
  apply (rtc_l _ _ (mkSystem charged None)).
  { exact (sys_call late_policy 60 charge (new 4 ∅) None charge_ok). }
  apply (rtc_l _ _ (mkSystem charged (Some flush_begin))); [exact (sys_begin late_policy 60 charged)|].
  apply (transitivity (y := mkSystem written.1 (Some written.2))); [exact (steps_run 6 charged flush_begin)|].
  exact (rtc_once _ _ (sys_call late_policy 60 charge written.1 (Some written.2) charge_ok)).
Qed.

Lemma race_step : @sys_step T _ late_policy 60 before after.
Proof.
  exact (sys_flush_step late_policy 60 (Ok late_time) (Ok late_time) raced written.2 marked.1 marked.2
    (step_one raced written.2)).
Qed.


End Kept.
