(* ===== verification/LockRegistry.v ===== *)
(** * LockRegistry: the key registry of src/src/lock/registry.rs

    The registry as a transition system over its shared state, one atomic operation per
    step: [acquire] and the drop of a [LockGuard] are programs ([Pc]) whose steps other tasks
    may interleave with, including being cancelled while they wait. An entry is a heap cell
    found through the key map; [strong_count] is the number of [Arc] handles to it.

    Tokio's semaphore is not in this repository: it is the class [Semaphore], with the
    documented behaviour the registry relies on in [SemaphoreLaws] (one permit, granted to
    one task at a time, back in the pool when its task drops it or gives up waiting).
    [Fifo] is an implementation of it for the witnesses. Also here: the two payloads of
    src/src/lock/protocol.rs. *)

From S2P Require Import Prelude.

(** ** Payloads (protocol.rs) *)

Record AcquireRequest := mkAcquireRequest {
  action : Z;
  identifier : Z;
  max_waiters : Z;
  wait_ms : Z;
  lease_ms : Z;
}.

Record ReleaseRequest := mkReleaseRequest {
  rel_action : Z;
  rel_identifier : Z;
  rel_generation : Z;
}.

Inductive LockProtocolError := LockMalformed | EmptyLease.

Definition parse_acquire (decode : bytes -> option AcquireRequest) (payload : bytes) :
    result LockProtocolError AcquireRequest :=
  request ← ok_or LockMalformed (decode payload);
  if lease_ms request =? 0 then Err EmptyLease else Ok request.

Definition parse_release (decode : bytes -> option ReleaseRequest) (payload : bytes) :
    result LockProtocolError ReleaseRequest :=
  ok_or LockMalformed (decode payload).

(** ** State *)

Abbreviation LockKey := (Z * Z)%type.
Abbreviation Task := nat.

Record LockLimits := mkLockLimits {
  max_keys : Z;
  max_total_waiters : Z;
  max_lease : Z;
}.

Definition clamp_lease (limits : LockLimits) (lease : Z) : Z := Z.min lease (max_lease limits).

(** The shard of a key; identifiers are [i64], the product wraps at 64 bits. *)
Definition shard_index (shard_count : Z) (key : LockKey) : Z :=
  let mixed :=
    wrap 64 (Z.lxor (wrap 64 key.2) (wrap 64 (Z.shiftl key.1 48)) * 0x9E3779B97F4A7C15) in
  Z.shiftr mixed 32 mod shard_count.

(** Tokio's semaphore, for one permit. *)
Class Semaphore (Sem : Type) := {
  sem_new : Sem;
  try_acquire : Task -> Sem -> option Sem;
  enqueue : Task -> Sem -> Sem;
  owner : Sem -> option Task;
  release : Task -> Sem -> Sem;
  cancel : Task -> Sem -> Sem;
  waiting : Sem -> list Task;
}.

Class SemaphoreLaws (Sem : Type) `{Semaphore Sem} : Prop := {
  new_owner : owner sem_new = None;
  new_waiting : waiting sem_new = [];
  try_acquire_owner t s s' :
    try_acquire t s = Some s' -> owner s = None /\ owner s' = Some t /\ waiting s' = waiting s;
  enqueue_owner t s :
    (owner (enqueue t s) = owner s /\ forall x, x ∈ waiting (enqueue t s) <-> x ∈ waiting s \/ x = t) \/
    (owner s = None /\ owner (enqueue t s) = Some t /\ waiting (enqueue t s) = waiting s);
  release_owner t s :
    owner s = Some t ->
    (owner (release t s) = None /\ waiting (release t s) = waiting s) \/
    exists u, u ∈ waiting s /\ owner (release t s) = Some u /\
      forall x, x ∈ waiting (release t s) -> x ∈ waiting s /\ x <> u;
  cancel_waiting t s x : x ∈ waiting (cancel t s) -> x ∈ waiting s /\ x <> t;
  cancel_owner t s :
    (owner s <> Some t /\ owner (cancel t s) = owner s) \/
    (owner s = Some t /\ (owner (cancel t s) = None \/
       exists u, u ∈ waiting s /\ u <> t /\ owner (cancel t s) = Some u /\
         u ∉ waiting (cancel t s)));
}.

Record LockEntry (Sem : Type) := mkLockEntry { semaphore : Sem; queued : Z }.
Arguments mkLockEntry {Sem}.
Arguments semaphore {Sem}.
Arguments queued {Sem}.

Inductive LockOutcome := Acquired (generation : Z) | Busy | WaitTimeout | Capacity.

#[export] Instance LockOutcome_eq_dec : EqDecision LockOutcome.
Proof. solve_decision. Defined.

(** Where a task is in [acquire], in the life of its guard, or in the guard's drop. Each
    constructor names the next atomic operation. *)
Inductive Pc :=
| PStart (r : AcquireRequest)                      (* entry_for *)
| PTry (r : AcquireRequest) (e : nat)              (* try_acquire_owned *)
| PQueue (r : AcquireRequest) (e : nat)            (* entry.queued.fetch_add *)
| PTotal (r : AcquireRequest) (e : nat) (queued_before : Z) (* total_queued.fetch_add *)
| PAdmit (r : AcquireRequest) (e : nat) (queued_before total_before : Z)
| PWait (r : AcquireRequest) (e : nat)             (* timeout(acquire_owned).await *)
| PLeave (r : AcquireRequest) (e : nat) (granted : bool) (o : LockOutcome)
| PLeaveTotal (r : AcquireRequest) (e : nat) (granted : bool) (o : LockOutcome)
| PGuard (key : LockKey) (e : nat)                 (* make_guard *)
| PHold (key : LockKey) (e : nat) (generation : Z) (* the guard lives *)
| PPrune (key : LockKey) (e : nat) (o : LockOutcome)
| PHandle (key : LockKey) (e : nat) (o : LockOutcome) (* the entry handle is dropped *)
| PDone (o : LockOutcome)
| PCancelled (r : AcquireRequest) (e : nat).       (* aborted at its await *)

Definition request_key (r : AcquireRequest) : LockKey := (action r, identifier r).

(** The entry a task has a handle to, and the key it reached it by. *)
Definition handle (p : Pc) : option (LockKey * nat) :=
  match p with
  | PStart _ | PDone _ | PCancelled _ _ => None
  | PTry r e | PQueue r e | PTotal r e _ | PAdmit r e _ _ | PWait r e
  | PLeave r e _ _ | PLeaveTotal r e _ _ => Some (request_key r, e)
  | PGuard key e | PHold key e _ | PPrune key e _ | PHandle key e _ => Some (key, e)
  end.

Definition has_handle (e : nat) (p : Pc) : bool :=
  match handle p with Some (_, e') => (e' =? e)%nat | None => false end.

Record Registry (Sem : Type) := mkRegistry {
  shards : gmap LockKey nat;
  heap : gmap nat (LockEntry Sem);
  total_queued : Z;
  key_count : Z;
  next_generation : Z;
  tasks : gmap Task Pc;
}.
Arguments mkRegistry {Sem}.
Arguments shards {Sem}.
Arguments heap {Sem}.
Arguments total_queued {Sem}.
Arguments key_count {Sem}.
Arguments next_generation {Sem}.
Arguments tasks {Sem}.

(** How many tasks are at a place. *)
Definition count (P : Pc -> bool) (ts : gmap Task Pc) : Z :=
  Z.of_nat (size (filter (fun kv => P kv.2 = true) ts)).

(** [Arc::strong_count]: the map's handle and the tasks'. *)
Definition strong_count {Sem} (s : Registry Sem) (key : LockKey) (e : nat) : Z :=
  (if bool_decide (shards s !! key = Some e) then 1 else 0) + count (has_handle e) (tasks s).

Section Ops.
Context {Sem : Type} `{!Semaphore Sem}.
Variable limits : LockLimits.

Abbreviation R := (Registry Sem).

Definition set_pc (t : Task) (p : Pc) (s : R) : R :=
  mkRegistry (shards s) (heap s) (total_queued s) (key_count s) (next_generation s)
    (<[t := p]> (tasks s)).
Definition set_total (n : Z) (s : R) : R :=
  mkRegistry (shards s) (heap s) n (key_count s) (next_generation s) (tasks s).
Definition set_entry (e : nat) (x : LockEntry Sem) (s : R) : R :=
  mkRegistry (shards s) (<[e := x]> (heap s)) (total_queued s) (key_count s)
    (next_generation s) (tasks s).
Definition with_entry (e : nat) (f : LockEntry Sem -> LockEntry Sem) (s : R) : R :=
  match heap s !! e with Some x => set_entry e (f x) s | None => s end.

(** [entry_for]: the entry of the key, made at need; [None] over the key ceiling. [e] is the
    address a new entry gets. *)
Definition entry_for (key : LockKey) (e : nat) (s : R) : option nat * R :=
  match shards s !! key with
  | Some e0 => (Some e0, s)
  | None =>
      if max_keys limits <=? key_count s then (None, s)
      else (Some e, mkRegistry (<[key := e]> (shards s))
                      (<[e := mkLockEntry sem_new 0]> (heap s))
                      (total_queued s) (key_count s + 1) (next_generation s) (tasks s))
  end.

Definition prune (key : LockKey) (e : nat) (s : R) : R :=
  if (strong_count s key e =? 2) && bool_decide (is_Some (shards s !! key)) then
    mkRegistry (delete key (shards s)) (heap s) (total_queued s) (key_count s - 1)
      (next_generation s) (tasks s)
  else s.

(** The generation of a new guard and the counter it leaves: zero is skipped. *)
Definition make_generation (counter : Z) : Z * Z :=
  let g := wrap 16 (counter + 1) in
  if g =? 0 then (wrap 16 (g + 1), wrap 16 (g + 1)) else (g, g).

Definition refusal (r : AcquireRequest) (queued_before total_before : Z) : option LockOutcome :=
  if max_waiters r <=? queued_before then Some Busy
  else if max_total_waiters limits <=? total_before then Some Capacity
  else None.

Definition add_queued (n : Z) (x : LockEntry Sem) : LockEntry Sem :=
  mkLockEntry (semaphore x) (wrap 32 (queued x + n)).
Definition on_sem (f : Sem -> Sem) (x : LockEntry Sem) : LockEntry Sem :=
  mkLockEntry (f (semaphore x)) (queued x).

(** One atomic step of task [t]. Two steps are the environment's choice: whether a wait that
    has not been granted has timed out, and the cancellation of a waiting task. *)
Inductive step (t : Task) : R -> R -> Prop :=
| s_entry s r e s1 res :
    tasks s !! t = Some (PStart r) -> heap s !! e = None ->
    entry_for (request_key r) e s = (res, s1) ->
    step t s (set_pc t (match res with Some e' => PTry r e' | None => PDone Capacity end) s1)
| s_try s r e x :
    tasks s !! t = Some (PTry r e) -> heap s !! e = Some x ->
    step t s (match try_acquire t (semaphore x) with
              | Some sem => set_pc t (PGuard (request_key r) e) (set_entry e (mkLockEntry sem (queued x)) s)
              | None => set_pc t (PQueue r e) s
              end)
| s_queue s r e x :
    tasks s !! t = Some (PQueue r e) -> heap s !! e = Some x ->
    step t s (set_pc t (PTotal r e (queued x)) (set_entry e (add_queued 1 x) s))
| s_total s r e q :
    tasks s !! t = Some (PTotal r e q) ->
    step t s (set_pc t (PAdmit r e q (total_queued s)) (set_total (wrap 32 (total_queued s + 1)) s))
| s_refuse s r e q n o :
    tasks s !! t = Some (PAdmit r e q n) -> refusal r q n = Some o ->
    step t s (set_pc t (PLeave r e false o) s)
| s_admit s r e q n :
    tasks s !! t = Some (PAdmit r e q n) -> refusal r q n = None ->
    step t s (set_pc t (PWait r e) (with_entry e (on_sem (enqueue t)) s))
| s_granted s r e x :
    tasks s !! t = Some (PWait r e) -> heap s !! e = Some x -> owner (semaphore x) = Some t ->
    step t s (set_pc t (PLeave r e true (Acquired 0)) s)
| s_timeout s r e :
    tasks s !! t = Some (PWait r e) ->
    step t s (set_pc t (PLeave r e false WaitTimeout) (with_entry e (on_sem (cancel t)) s))
| s_leave s r e g o :
    tasks s !! t = Some (PLeave r e g o) ->
    step t s (set_pc t (PLeaveTotal r e g o) (with_entry e (add_queued (-1)) s))
| s_leave_total s r e (g : bool) o :
    tasks s !! t = Some (PLeaveTotal r e g o) ->
    step t s (set_pc t (if g then PGuard (request_key r) e else PPrune (request_key r) e o)
                (set_total (wrap 32 (total_queued s - 1)) s))
| s_guard s key e :
    tasks s !! t = Some (PGuard key e) ->
    step t s (set_pc t (PHold key e (make_generation (next_generation s)).1)
                (mkRegistry (shards s) (heap s) (total_queued s) (key_count s)
                   (make_generation (next_generation s)).2 (tasks s)))
| s_drop s key e g :
    tasks s !! t = Some (PHold key e g) ->
    step t s (set_pc t (PPrune key e (Acquired g)) (with_entry e (on_sem (release t)) s))
| s_prune s key e o :
    tasks s !! t = Some (PPrune key e o) ->
    step t s (set_pc t (PHandle key e o) (prune key e s))
| s_handle s key e o :
    tasks s !! t = Some (PHandle key e o) -> step t s (set_pc t (PDone o) s)
| s_cancel s r e :
    tasks s !! t = Some (PWait r e) ->
    step t s (set_pc t (PCancelled r e) (with_entry e (on_sem (cancel t)) s)).

(** The step of a task whose next step is not a choice, and of a guard that is dropped. *)
Definition do_step (t : Task) (s : R) : option R :=
  p ← tasks s !! t;
  match p with
  | PStart r =>
      let e := size (heap s) in
      if bool_decide (heap s !! e = None) then
        let '(res, s1) := entry_for (request_key r) e s in
        Some (set_pc t (match res with Some e' => PTry r e' | None => PDone Capacity end) s1)
      else None
  | PTry r e =>
      x ← heap s !! e;
      Some (match try_acquire t (semaphore x) with
            | Some sem => set_pc t (PGuard (request_key r) e) (set_entry e (mkLockEntry sem (queued x)) s)
            | None => set_pc t (PQueue r e) s
            end)
  | PQueue r e =>
      x ← heap s !! e; Some (set_pc t (PTotal r e (queued x)) (set_entry e (add_queued 1 x) s))
  | PTotal r e q =>
      Some (set_pc t (PAdmit r e q (total_queued s)) (set_total (wrap 32 (total_queued s + 1)) s))
  | PAdmit r e q n =>
      Some (match refusal r q n with
            | Some o => set_pc t (PLeave r e false o) s
            | None => set_pc t (PWait r e) (with_entry e (on_sem (enqueue t)) s)
            end)
  | PWait r e =>
      x ← heap s !! e;
      if bool_decide (owner (semaphore x) = Some t)
      then Some (set_pc t (PLeave r e true (Acquired 0)) s) else None
  | PLeave r e g o => Some (set_pc t (PLeaveTotal r e g o) (with_entry e (add_queued (-1)) s))
  | PLeaveTotal r e g o =>
      Some (set_pc t (if g then PGuard (request_key r) e else PPrune (request_key r) e o)
              (set_total (wrap 32 (total_queued s - 1)) s))
  | PGuard key e =>
      Some (set_pc t (PHold key e (make_generation (next_generation s)).1)
              (mkRegistry (shards s) (heap s) (total_queued s) (key_count s)
                 (make_generation (next_generation s)).2 (tasks s)))
  | PHold key e g => Some (set_pc t (PPrune key e (Acquired g)) (with_entry e (on_sem (release t)) s))
  | PPrune key e o => Some (set_pc t (PHandle key e o) (prune key e s))
  | PHandle key e o => Some (set_pc t (PDone o) s)
  | PDone _ | PCancelled _ _ => None
  end.

(** A fresh call of [acquire]. *)
Inductive spawn (t : Task) : R -> R -> Prop :=
| s_spawn s r : tasks s !! t = None -> spawn t s (set_pc t (PStart r) s).

Definition registry_step (s s' : R) : Prop := exists t, step t s s' \/ spawn t s s'.

Definition registry_new : R := mkRegistry ∅ ∅ 0 0 0 ∅.

Definition reachable : R -> Prop := rtc registry_step registry_new.

(** Schedules, for concrete runs. *)
Inductive Action := Spawn (t : Task) (r : AcquireRequest) | Do (t : Task) | TimeOut (t : Task) | Cancel (t : Task).

Definition act (a : Action) (s : R) : option R :=
  match a with
  | Spawn t r => if bool_decide (tasks s !! t = None) then Some (set_pc t (PStart r) s) else None
  | Do t => do_step t s
  | TimeOut t =>
      match tasks s !! t with
      | Some (PWait r e) =>
          Some (set_pc t (PLeave r e false WaitTimeout) (with_entry e (on_sem (cancel t)) s))
      | _ => None
      end
  | Cancel t =>
      match tasks s !! t with
      | Some (PWait r e) => Some (set_pc t (PCancelled r e) (with_entry e (on_sem (cancel t)) s))
      | _ => None
      end
  end.

Fixpoint run (actions : list Action) (s : R) : option R :=
  match actions with
  | [] => Some s
  | a :: rest => s' ← act a s; run rest s'
  end.

End Ops.

(** ** A first-in first-out semaphore *)

Module Fifo.

Record T := mk { holder : option Task; line : list Task }.

(** The permit goes to the head of the line. *)
Definition next (w : list Task) : T :=
  match w with
  | [] => mk None []
  | u :: w' => mk (Some u) (filter (fun x => x <> u) w')
  end.

#[global] Instance semaphore : Semaphore T := {
  sem_new := mk None [];
  try_acquire t s := match holder s with None => Some (mk (Some t) (line s)) | Some _ => None end;
  enqueue t s := match holder s with
                 | None => mk (Some t) (line s)
                 | Some u => mk (Some u) (line s ++ [t])
                 end;
  owner := holder;
  release t s := next (line s);
  cancel t s :=
    let w := filter (fun x => x <> t) (line s) in
    if bool_decide (holder s = Some t) then next w else mk (holder s) w;
  waiting := line;
}.

#[global] Instance laws : SemaphoreLaws T.
Proof.
  split; simpl.
  - done.
  - done.
  - intros t [[u|] w] s' [= <-]; done.
  - intros t [[u|] w]; simpl; [left|right; done]. split; [done|]. intros x.
    rewrite elem_of_app, list_elem_of_singleton. done.
  - intros t [h w] _. simpl. destruct w as [|u w]; simpl; [by left|right].
    exists u. split; [left|]. split; [done|]. intros x [? ?]%list_elem_of_filter. by split; [right|].
  - intros t [h w] x. simpl. destruct (bool_decide _); simpl.
    + destruct (filter _ w) as [|u w'] eqn:E; simpl; [by intros ?%not_elem_of_nil|].
      intros [_ Hx]%list_elem_of_filter.
      assert (x ∈ filter (fun x => x <> t) w) as [? ?]%list_elem_of_filter by (rewrite E; by right).
      done.
    + by intros [? ?]%list_elem_of_filter.
  - intros t [h w]. simpl. destruct (bool_decide _) eqn:Eb; fw_bool; simpl; [right|by left].
    split; [done|]. destruct (filter _ w) as [|u w'] eqn:E; simpl; [by left|right].
    assert (u ∈ filter (fun x => x <> t) w) as [? ?]%list_elem_of_filter by (rewrite E; left).
    exists u. split; [done|]. split; [done|]. split; [done|].
    by intros [? _]%list_elem_of_filter.
Qed.

End Fifo.

(** ** Runs are reachable *)

Section Invariants.
Context {Sem : Type} `{SL : SemaphoreLaws Sem}.
Variable limits : LockLimits.

Abbreviation R := (Registry Sem).

Lemma do_step_sound t (s s' : R) : do_step limits t s = Some s' -> step limits t s s'.
Proof.
  unfold do_step. intros (p & Hp & E)%bind_Some. destruct p; try done.
  - destruct (bool_decide _) eqn:Eb; [|done]. fw_bool.
    destruct (entry_for _ _ _ _) as [res s1] eqn:Ee. injection E as <-. by eapply s_entry.
  - apply bind_Some in E as (x & Hx & [= <-]). by eapply s_try.
  - apply bind_Some in E as (x & Hx & [= <-]). by eapply s_queue.
  - injection E as <-. by apply s_total.
  - injection E as <-. destruct (refusal _ _ _ _) eqn:Er; [by eapply s_refuse|by eapply s_admit].
  - apply bind_Some in E as (x & Hx & E). destruct (bool_decide _) eqn:Eb; [|done]. fw_bool.
    injection E as <-. by eapply s_granted.
  - injection E as <-. by apply s_leave.
  - injection E as <-. by eapply s_leave_total.
  - injection E as <-. by eapply s_guard.
  - injection E as <-. by eapply s_drop.
  - injection E as <-. by eapply s_prune.
  - injection E as <-. by eapply s_handle.
Qed.

Lemma act_sound a (s s' : R) : act limits a s = Some s' -> registry_step limits s s'.
Proof.
  destruct a as [t r|t|t|t]; simpl.
  - destruct (bool_decide _) eqn:Eb; [|done]. fw_bool. intros [= <-]. exists t. right. by constructor.
  - intros ?. exists t. left. by apply do_step_sound.
  - destruct (tasks s !! t) as [[]|] eqn:E; try done. intros [= <-]. exists t. left. by apply s_timeout.
  - destruct (tasks s !! t) as [[]|] eqn:E; try done. intros [= <-]. exists t. left. by apply s_cancel.
Qed.

Lemma run_sound actions (s s' : R) : run limits actions s = Some s' -> rtc (registry_step limits) s s'.
Proof.
  revert s. induction actions as [|a rest IH]; intros s; simpl; [by intros [= <-]|].
  intros (s1 & Ha & Hr)%bind_Some. eapply rtc_l; [by eapply act_sound|by apply IH].
Qed.

End Invariants.
