(* ===== verification/LockSafety.v ===== *)
(** * LockSafety: mutual exclusion and the queue's accounting

    Invariants of the transition system of LockRegistry.v, by induction over its steps,
    for any semaphore with [SemaphoreLaws]. The heart is [i_handle]: a task with a live
    handle reached it through the map entry that is still there, so pruning never lets a
    second entry appear for a key somebody holds or waits on. *)

From S2P Require Import Prelude LockRegistry.

(** Past its prune: the handle is about to go, whatever the map says. *)
Definition pruned (p : Pc) : bool := match p with PHandle _ _ _ => true | _ => false end.

(** The permit this place owns. *)
Definition owns (p : Pc) : option nat :=
  match p with
  | PLeave _ e true _ | PLeaveTotal _ e true _ | PGuard _ e | PHold _ e _ => Some e
  | _ => None
  end.

(** A place that may be the owner of a permit: the above, or a wait being granted. *)
Definition may_own (p : Pc) : option nat :=
  match p with PWait _ e => Some e | _ => owns p end.

Definition holding (key : LockKey) (p : Pc) : bool :=
  match p with PHold k _ _ => bool_decide (k = key) | _ => false end.

(** Counted in [total_queued], and in [queued] of entry [e]. *)
Definition in_total (p : Pc) : bool :=
  match p with
  | PAdmit _ _ _ _ | PWait _ _ | PLeave _ _ _ _ | PLeaveTotal _ _ _ _ | PCancelled _ _ => true
  | _ => false
  end.
Definition in_queue (e : nat) (p : Pc) : bool :=
  match p with
  | PTotal _ e' _ | PAdmit _ e' _ _ | PWait _ e' | PLeave _ e' _ _ | PCancelled _ e' => (e' =? e)%nat
  | _ => false
  end.
Definition is_cancelled (p : Pc) : bool := match p with PCancelled _ _ => true | _ => false end.
Definition is_waiting (p : Pc) : bool := match p with PWait _ _ => true | _ => false end.

(** ** Counting tasks *)

Lemma count_insert P (ts : gmap Task Pc) t p :
  count P (<[t := p]> ts) =
    count P ts - from_option (fun q => Z.b2z (P q)) 0 (ts !! t) + Z.b2z (P p).
Proof.
  unfold count. assert (Hnew : forall m : gmap Task Pc, m !! t = None ->
    Z.of_nat (size (filter (fun kv => P kv.2 = true) (<[t := p]> m))) =
    Z.of_nat (size (filter (fun kv => P kv.2 = true) m)) + Z.b2z (P p)).
  { intros m Hm. destruct (P p) eqn:Ep.
    - rewrite map_filter_insert_True by done. rewrite map_size_insert_None; [simpl; lia|].
      apply map_lookup_filter_None. by left.
    - rewrite map_filter_insert_not' by (simpl; try congruence; intros ? E; by rewrite Hm in E).
      simpl. lia. }
  destruct (ts !! t) as [q|] eqn:Et; simpl.
  - rewrite <- (insert_delete_eq ts t p), Hnew by apply lookup_delete_eq.
    assert (Z.of_nat (size (filter (fun kv => P kv.2 = true) ts)) =
      Z.of_nat (size (filter (fun kv => P kv.2 = true) (delete t ts))) + Z.b2z (P q)) as ->.
    { rewrite <- (insert_delete_id ts t q) at 1 by done. destruct (P q) eqn:Eq.
      - rewrite map_filter_insert_True by done. rewrite map_size_insert_None; [simpl; lia|].
        apply map_lookup_filter_None. left. apply lookup_delete_eq.
      - rewrite map_filter_insert_not' by (simpl; try congruence; intros ? E; by rewrite lookup_delete_eq in E).
        simpl. lia. }
    lia.
  - rewrite Hnew by done. lia.
Qed.

Lemma count_nonneg P ts : 0 <= count P ts.
Proof. unfold count. lia. Qed.

Lemma count_le P Q ts : (forall p, P p = true -> Q p = true) -> count P ts <= count Q ts.
Proof.
  intros HPQ. unfold count. apply inj_le. apply map_subseteq_size.
  apply map_subseteq_spec. intros t p [Hp HP]%map_lookup_filter_Some.
  apply map_lookup_filter_Some. split; [done|]. by apply HPQ.
Qed.

Lemma count_pos P ts t p : ts !! t = Some p -> P p = true -> 1 <= count P ts.
Proof.
  intros Ht HP. rewrite <- (insert_id ts t p Ht). rewrite count_insert, Ht. simpl.
  pose proof (count_nonneg P ts). destruct (decide (count P ts = 0)) as [E|]; [|lia].
  exfalso. unfold count in E.
  assert (size (filter (fun kv => P kv.2 = true) ts) = 0%nat) as E' by lia.
  apply map_size_empty_inv in E'. assert (filter (fun kv => P kv.2 = true) ts !! t = Some p) as Hf
    by by apply map_lookup_filter_Some.
  by rewrite E', lookup_empty in Hf.
Qed.

(** Two tasks at such a place count twice. *)
Lemma count_two P ts t1 t2 p1 p2 :
  t1 <> t2 -> ts !! t1 = Some p1 -> ts !! t2 = Some p2 -> P p1 = true -> P p2 = true ->
  2 <= count P ts.
Proof.
  intros Hne H1 H2 HP1 HP2.
  assert (count P ts = count P (<[t1 := PDone Busy]> ts) + 1 - Z.b2z (P (PDone Busy))) as ->.
  { rewrite count_insert, H1. simpl. rewrite HP1. simpl. lia. }
  destruct (P (PDone Busy)) eqn:Ed; simpl.
  - assert (1 <= count P (<[t1 := PDone Busy]> ts)).
    { eapply count_pos; [by apply lookup_insert_eq|done]. }
    rewrite count_insert, H1 in *. simpl in *. rewrite HP1, Ed in *. simpl in *.
    assert (count P ts = count P (<[t2 := PStart (mkAcquireRequest 0 0 0 0 0)]> ts) + 1 -
      Z.b2z (P (PStart (mkAcquireRequest 0 0 0 0 0)))).
    { rewrite count_insert, H2. simpl. rewrite HP2. simpl. lia. }
    assert (1 <= count P (delete t2 ts)).
    { eapply (count_pos _ _ t1); [by rewrite lookup_delete_ne|done]. }
    assert (count P ts = count P (delete t2 ts) + 1); [|lia].
    rewrite <- (insert_delete_id ts t2 p2 H2) at 1. rewrite count_insert, lookup_delete_eq.
    simpl. rewrite HP2. simpl. lia.
  - assert (1 <= count P (<[t1 := PDone Busy]> ts)); [|lia].
    eapply (count_pos _ _ t2); [by rewrite lookup_insert_ne|done].
Qed.

(** ** The invariant *)

(** The entry a place speaks of, cancelled waits included. *)
Definition mentions (p : Pc) : option nat :=
  match p with PCancelled _ e => Some e | _ => option_map snd (handle p) end.

Section Safety.
Context {Sem : Type} `{SL : SemaphoreLaws Sem}.
Variable limits : LockLimits.

Abbreviation R := (Registry Sem).
Abbreviation step := (step limits).
Abbreviation reachable := (reachable limits).

Record Inv (s : R) : Prop := {
  i_mention : forall t p e, tasks s !! t = Some p -> mentions p = Some e -> is_Some (heap s !! e);
  i_handle : forall t p k e, tasks s !! t = Some p -> handle p = Some (k, e) ->
    pruned p = false -> shards s !! k = Some e;
  i_shards : forall k e, shards s !! k = Some e -> is_Some (heap s !! e);
  i_inj : forall k1 k2 e, shards s !! k1 = Some e -> shards s !! k2 = Some e -> k1 = k2;
  i_owns : forall t p e, tasks s !! t = Some p -> owns p = Some e ->
    exists x, heap s !! e = Some x /\ owner (semaphore x) = Some t;
  i_owner : forall e x t, heap s !! e = Some x -> owner (semaphore x) = Some t ->
    exists p, tasks s !! t = Some p /\ may_own p = Some e;
  i_wait : forall e x t, heap s !! e = Some x -> t ∈ waiting (semaphore x) ->
    (exists r, tasks s !! t = Some (PWait r e)) /\ owner (semaphore x) <> Some t;
}.

Lemma may_own_mentions p e : may_own p = Some e -> mentions p = Some e.
Proof. destruct p as [| | | | | |? ? [] ?|? ? [] ?| | | | | |]; simpl; congruence. Qed.

Lemma owns_may_own p e : owns p = Some e -> may_own p = Some e.
Proof. destruct p as [| | | | | |? ? [] ?|? ? [] ?| | | | | |]; simpl; congruence. Qed.

(** Task [t] moves, and the semaphore of its entry with it. *)
Lemma inv_move (s : R) t p p' e x x' tq kc ng :
  Inv s -> tasks s !! t = Some p -> mentions p = Some e -> heap s !! e = Some x ->
  (mentions p' = Some e \/ mentions p' = None) ->
  (forall h, handle p' = Some h -> handle p = Some h /\ (pruned p' = false -> pruned p = false)) ->
  (forall e', owns p' = Some e' -> owner (semaphore x') = Some t) ->
  (forall u, u <> t -> owner (semaphore x) = Some u -> owner (semaphore x') = Some u) ->
  (owner (semaphore x') = Some t -> may_own p' = Some e /\ t ∉ waiting (semaphore x')) ->
  (forall u, u <> t -> owner (semaphore x') = Some u ->
     (owner (semaphore x) = Some u \/ u ∈ waiting (semaphore x)) /\ u ∉ waiting (semaphore x')) ->
  (forall u, u ∈ waiting (semaphore x') ->
     (u <> t /\ u ∈ waiting (semaphore x)) \/ (u = t /\ exists r, p' = PWait r e)) ->
  Inv (mkRegistry (shards s) (<[e := x']> (heap s)) tq kc ng (<[t := p']> (tasks s))).
Proof.
  intros I Ht Hm Hx Hm' Hh Ho Hkeep Ht' Hu Hw.
  assert (forall e', is_Some (heap s !! e') -> is_Some (<[e:=x']> (heap s) !! e')) as Hheap.
  { intros e' ?. destruct (decide (e' = e)) as [->|]; [by rewrite lookup_insert_eq|by rewrite lookup_insert_ne]. }
  split; simpl.
  - intros u q e' Hq Hme. destruct (decide (u = t)) as [->|Hne].
    + rewrite lookup_insert_eq in Hq. injection Hq as <-.
      destruct Hm' as [E|E]; rewrite E in Hme; [injection Hme as <-|done]. apply Hheap. by rewrite Hx.
    + rewrite lookup_insert_ne in Hq by done. apply Hheap. by eapply (i_mention s I).
  - intros u q k e' Hq Hhq Hp. destruct (decide (u = t)) as [->|Hne].
    + rewrite lookup_insert_eq in Hq. injection Hq as <-. apply Hh in Hhq as [Hhq Hp'].
      eapply (i_handle s I t p); auto.
    + rewrite lookup_insert_ne in Hq by done. by eapply (i_handle s I u q).
  - intros k e' Hk. apply Hheap. by eapply (i_shards s I).
  - apply (i_inj s I).
  - intros u q e' Hq Hown. destruct (decide (u = t)) as [->|Hne].
    + rewrite lookup_insert_eq in Hq. injection Hq as <-.
      assert (e' = e) as ->.
      { apply owns_may_own, may_own_mentions in Hown. destruct Hm' as [E|E]; congruence. }
      rewrite lookup_insert_eq. eexists; split; [done|]. by eapply Ho.
    + rewrite lookup_insert_ne in Hq by done. destruct (i_owns s I u q e' Hq Hown) as (y & Hy & Hoy).
      destruct (decide (e' = e)) as [->|]; [|by rewrite lookup_insert_ne; eauto].
      rewrite lookup_insert_eq. eexists; split; [done|]. apply Hkeep; [done|]. congruence.
  - intros e' y u Hy Hoy. destruct (decide (e' = e)) as [->|Hne].
    + rewrite lookup_insert_eq in Hy. injection Hy as <-. destruct (decide (u = t)) as [->|Hne].
      * rewrite lookup_insert_eq. destruct (Ht' Hoy). eauto.
      * rewrite lookup_insert_ne by done. destruct (Hu u Hne Hoy) as [[Hold|Hwait] _].
        -- by eapply (i_owner s I).
        -- destruct (i_wait s I e x u Hx Hwait) as [[r Hr] _]. eauto.
    + rewrite lookup_insert_ne in Hy by done.
      destruct (i_owner s I e' y u Hy Hoy) as (q & Hq & Hmq).
      destruct (decide (u = t)) as [->|]; [|rewrite lookup_insert_ne; eauto].
      apply may_own_mentions in Hmq. congruence.
  - intros e' y u Hy Hwy. destruct (decide (e' = e)) as [->|Hne].
    + rewrite lookup_insert_eq in Hy. injection Hy as <-.
      destruct (Hw u Hwy) as [[Hne Hold]|[-> [r ->]]].
      * rewrite lookup_insert_ne by done. destruct (i_wait s I e x u Hx Hold) as [? _].
        split; [done|]. intros Hoy. by destruct (Hu u Hne Hoy).
      * rewrite lookup_insert_eq. split; [eauto|]. intros Hoy. by destruct (Ht' Hoy).
    + rewrite lookup_insert_ne in Hy by done. destruct (i_wait s I e' y u Hy Hwy) as [[r Hr] ?].
      split; [|done]. exists r. destruct (decide (u = t)) as [->|]; [|by rewrite lookup_insert_ne].
      rewrite Ht in Hr. injection Hr as ->. simpl in Hm. congruence.
Qed.

(** The common case: the semaphore stays as it is. *)
Lemma inv_stay (s : R) t p p' e x x' tq kc ng :
  Inv s -> tasks s !! t = Some p -> mentions p = Some e -> heap s !! e = Some x ->
  semaphore x' = semaphore x ->
  (mentions p' = Some e \/ mentions p' = None) ->
  (forall h, handle p' = Some h -> handle p = Some h /\ (pruned p' = false -> pruned p = false)) ->
  (forall e', owns p' = Some e' -> owner (semaphore x) = Some t) ->
  (owner (semaphore x) = Some t -> may_own p' = Some e) ->
  (t ∈ waiting (semaphore x) -> exists r, p' = PWait r e) ->
  Inv (mkRegistry (shards s) (<[e := x']> (heap s)) tq kc ng (<[t := p']> (tasks s))).
Proof.
  intros I Ht Hm Hx Hsem Hm' Hh Ho Hto Htw.
  eapply inv_move; try done; rewrite Hsem; auto.
  - intros Hown. split; [auto|]. intros Hwait. by destruct (i_wait s I e x t Hx Hwait).
  - intros u Hne Hown. split; [by left|]. intros Hwait. by destruct (i_wait s I e x u Hx Hwait).
  - intros u Hu. destruct (decide (u = t)) as [->|]; [right; auto|by left].
Qed.

(** The same without a change of the heap. *)
Lemma inv_move_pc (s : R) t p p' e tq kc ng :
  Inv s -> tasks s !! t = Some p -> mentions p = Some e ->
  (mentions p' = Some e \/ mentions p' = None) ->
  (forall h, handle p' = Some h -> handle p = Some h /\ (pruned p' = false -> pruned p = false)) ->
  (forall e', owns p' = Some e' -> owns p = Some e' \/
     exists x, heap s !! e = Some x /\ owner (semaphore x) = Some t) ->
  (may_own p = Some e -> may_own p' = Some e) ->
  ((forall r, p <> PWait r e) \/ exists x, heap s !! e = Some x /\ owner (semaphore x) = Some t) ->
  Inv (mkRegistry (shards s) (heap s) tq kc ng (<[t := p']> (tasks s))).
Proof.
  intros I Ht Hm Hm' Hh Ho Hmo Hw. destruct (i_mention s I t p e Ht Hm) as [x Hx].
  rewrite <- (insert_id (heap s) e x Hx). eapply inv_stay; try done.
  - intros e' Hown. destruct (Ho e' Hown) as [Hold|(y & Hy & Hoy)]; [|congruence].
    destruct (i_owns s I t p e' Ht Hold) as (y & Hy & Hoy).
    apply owns_may_own, may_own_mentions in Hold. congruence.
  - intros Hown. destruct (i_owner s I e x t Hx Hown) as (q & Hq & Hmq).
    apply Hmo. congruence.
  - intros Hwait. exfalso. destruct (i_wait s I e x t Hx Hwait) as [[r Hr] Hno].
    destruct Hw as [Hw|(y & Hy & Hoy)]; [apply (Hw r)|]; congruence.
Qed.

Lemma not_owner (s : R) t p e x :
  Inv s -> tasks s !! t = Some p -> may_own p = None -> heap s !! e = Some x ->
  owner (semaphore x) <> Some t.
Proof. intros I Ht Hp Hx Ho. destruct (i_owner s I e x t Hx Ho) as (q & Hq & Hmq). congruence. Qed.

Lemma not_waiting (s : R) t p e x :
  Inv s -> tasks s !! t = Some p -> is_waiting p = false -> heap s !! e = Some x ->
  t ∉ waiting (semaphore x).
Proof.
  intros I Ht Hp Hx Hw. destruct (i_wait s I e x t Hx Hw) as [[r Hr] _].
  rewrite Ht in Hr. by injection Hr as ->.
Qed.

(** A task that mentions no entry appears, or forgets the one it had without owning it. *)
Lemma inv_fresh (s : R) t p' e sh' hp' tq kc ng :
  Inv s -> (tasks s !! t = None \/ exists r, tasks s !! t = Some (PStart r)) ->
  mentions p' = None \/
    (mentions p' = Some e /\ is_Some (hp' !! e) /\
     forall k e', handle p' = Some (k, e') -> sh' !! k = Some e') ->
  may_own p' = None ->
  (sh' = shards s /\ hp' = heap s \/
   exists k, shards s !! k = None /\ heap s !! e = None /\ sh' = <[k := e]> (shards s) /\
     hp' = <[e := mkLockEntry sem_new 0]> (heap s)) ->
  Inv (mkRegistry sh' hp' tq kc ng (<[t := p']> (tasks s))).
Proof.
  intros I Ht Hp' Hmo Hsh.
  assert (forall e' x, heap s !! e' = Some x -> hp' !! e' = Some x) as Hheap.
  { intros e' x Hx. destruct Hsh as [[_ ->]|(k & Hk & He & -> & ->)]; [done|].
    rewrite lookup_insert_ne by congruence. done. }
  assert (forall k e', shards s !! k = Some e' -> sh' !! k = Some e') as Hshards.
  { intros k' e' Hx. destruct Hsh as [[-> _]|(k & Hk & He & -> & ->)]; [done|].
    rewrite lookup_insert_ne by congruence. done. }
  assert (forall q, tasks s !! t = Some q -> may_own q = None /\ is_waiting q = false) as Htold.
  { intros q Hq. destruct Ht as [E|[r E]]; rewrite E in Hq; [done|]. by injection Hq as <-. }
  assert (forall e' x, hp' !! e' = Some x -> heap s !! e' = Some x \/
    (owner (semaphore x) = None /\ waiting (semaphore x) = [])) as Hback.
  { intros e' x Hx. destruct Hsh as [[_ ->]|(k & Hk & He & -> & ->)]; [by left|].
    destruct (decide (e' = e)) as [->|]; [|by rewrite lookup_insert_ne in Hx; auto].
    rewrite lookup_insert_eq in Hx. injection Hx as <-. right. simpl. by rewrite new_owner, new_waiting. }
  split; simpl.
  - intros u q e' Hq Hme. destruct (decide (u = t)) as [->|Hne].
    + rewrite lookup_insert_eq in Hq. injection Hq as <-. destruct Hp' as [E|(E & [x Hx] & _)]; [congruence|].
      rewrite E in Hme. injection Hme as <-. eauto.
    + rewrite lookup_insert_ne in Hq by done. destruct (i_mention s I u q e' Hq Hme) as [x Hx]. eauto.
  - intros u q k e' Hq Hh Hp. destruct (decide (u = t)) as [->|Hne].
    + rewrite lookup_insert_eq in Hq. injection Hq as <-. destruct Hp' as [E|(_ & _ & Hk)]; [|by apply Hk].
      destruct p'; simpl in *; congruence.
    + rewrite lookup_insert_ne in Hq by done. apply Hshards. by eapply (i_handle s I u q).
  - intros k e' Hk. destruct Hsh as [[-> ->]|(k0 & Hk0 & He & -> & ->)]; [by eapply (i_shards s I)|].
    destruct (decide (k = k0)) as [->|].
    + rewrite lookup_insert_eq in Hk. injection Hk as <-. rewrite lookup_insert_eq. eauto.
    + rewrite lookup_insert_ne in Hk by done. destruct (i_shards s I k e' Hk) as [x Hx]. eauto.
  - intros k1 k2 e' H1 H2. destruct Hsh as [[-> ->]|(k0 & Hk0 & He & -> & ->)]; [by eapply (i_inj s I)|].
    assert (forall k, shards s !! k = Some e -> False) as Hno.
    { intros k Hk. destruct (i_shards s I k e Hk). congruence. }
    rewrite !lookup_insert_Some in *.
    destruct H1 as [[<- <-]|[? H1]], H2 as [[<- ?]|[? H2]]; subst;
      solve [done|exfalso; eauto|by eapply (i_inj s I)].
  - intros u q e' Hq Hown. destruct (decide (u = t)) as [->|Hne].
    + rewrite lookup_insert_eq in Hq. injection Hq as <-. apply owns_may_own in Hown. congruence.
    + rewrite lookup_insert_ne in Hq by done. destruct (i_owns s I u q e' Hq Hown) as (x & Hx & ?). eauto.
  - intros e' x u Hx Ho. destruct (Hback e' x Hx) as [Hx'|[E _]]; [|congruence].
    destruct (i_owner s I e' x u Hx' Ho) as (q & Hq & Hmq). exists q. split; [|done].
    rewrite lookup_insert_ne; [done|]. intros <-. destruct (Htold q Hq). congruence.
  - intros e' x u Hx Hw. destruct (Hback e' x Hx) as [Hx'|[_ E]]; [|rewrite E in Hw; by apply not_elem_of_nil in Hw].
    destruct (i_wait s I e' x u Hx' Hw) as [[r Hr] ?]. split; [|done]. exists r.
    rewrite lookup_insert_ne; [done|]. intros <-. by destruct (Htold _ Hr).
Qed.

(** Pruning removes the entry of a key only when nobody else has a handle to it. *)
Lemma prune_shards (s : R) t key e o k e' :
  Inv s -> tasks s !! t = Some (PPrune key e o) -> shards s !! k = Some e' ->
  (exists u p, u <> t /\ tasks s !! u = Some p /\ handle p = Some (k, e')) ->
  shards (prune key e s) !! k = Some e'.
Proof.
  intros I Ht Hk (u & p & Hne & Hu & Hh). unfold prune.
  match goal with |- context[if ?b then _ else _] => destruct b eqn:E end; [|done].
  apply andb_true_iff in E as [E _]. apply Z.eqb_eq in E. unfold strong_count in E. simpl.
  assert (shards s !! key = Some e) as Hkey by by eapply (i_handle s I t).
  rewrite bool_decide_true in E by done.
  destruct (decide (k = key)) as [->|]; [exfalso|by rewrite lookup_delete_ne].
  rewrite Hkey in Hk. injection Hk as <-.
  assert (2 <= count (has_handle e) (tasks s)); [|lia].
  eapply (count_two _ _ t u); [done|done|done| |].
  - unfold has_handle. simpl. apply Nat.eqb_refl.
  - unfold has_handle. rewrite Hh. apply Nat.eqb_refl.
Qed.

Lemma inv_prune (s : R) t key e o :
  Inv s -> tasks s !! t = Some (PPrune key e o) ->
  Inv (set_pc t (PHandle key e o) (prune key e s)).
Proof.
  intros I Ht.
  assert (Inv (set_pc t (PHandle key e o) s)) as J.
  { eapply inv_move_pc; eauto; simpl; try done; naive_solver. }
  assert (tasks (prune key e s) = tasks s /\ heap (prune key e s) = heap s /\
    forall k e', shards (prune key e s) !! k = Some e' -> shards s !! k = Some e') as (Et & Eh & Hsub).
  { unfold prune. case_match; [|done]. simpl. split; [done|]. split; [done|].
    intros k e' ?%lookup_delete_Some. tauto. }
  unfold set_pc in *. rewrite Et, Eh. split; simpl.
  - apply (i_mention _ J).
  - intros u p k e' Hu Hh Hp. destruct (decide (u = t)) as [->|Hne].
    { rewrite lookup_insert_eq in Hu. by injection Hu as <-. }
    pose proof (i_handle _ J u p k e' Hu Hh Hp) as Hk. simpl in Hk.
    rewrite lookup_insert_ne in Hu by done. eapply prune_shards; eauto 10.
  - intros k e' Hk%Hsub. by apply (i_shards _ J) in Hk.
  - intros k1 k2 e' H1%Hsub H2%Hsub. by eapply (i_inj _ J).
  - apply (i_owns _ J).
  - apply (i_owner _ J).
  - apply (i_wait _ J).
Qed.

(** A wait given up: the place it goes to owns nothing, and waits no more. *)
Lemma inv_cancel (s : R) t r e y p' :
  Inv s -> tasks s !! t = Some (PWait r e) -> heap s !! e = Some y ->
  mentions p' = Some e -> may_own p' = None ->
  (forall h, handle p' = Some h -> h = (request_key r, e)) ->
  Inv (mkRegistry (shards s) (<[e := on_sem (cancel t) y]> (heap s)) (total_queued s) (key_count s)
         (next_generation s) (<[t := p']> (tasks s))).
Proof.
  intros I Ht Hy Hm Hmo Hh. eapply inv_move; eauto; simpl.
  - intros h Hh'. split; [by rewrite (Hh h Hh')|done].
  - intros e' Hown%owns_may_own. congruence.
  - intros u Hne Hu. destruct (cancel_owner t (semaphore y)) as [[_ ->]|[E _]]; [done|congruence].
  - intros Hown. exfalso. destruct (cancel_owner t (semaphore y)) as [[? E]|[_ [E|(v & _ & ? & E & _)]]]; congruence.
  - intros u Hne Hu. destruct (cancel_owner t (semaphore y)) as [[_ E]|[_ [E|(v & Hv & ? & E & ?)]]].
    + rewrite E in Hu. split; [by left|]. intros [Hin _]%cancel_waiting.
      by destruct (i_wait s I e y u Hy Hin).
    + congruence.
    + rewrite E in Hu. injection Hu as <-. by split; [right|].
  - intros u [? ?]%cancel_waiting. by left.
Qed.

(** The moves that touch the semaphore: a permit taken at once, a place in its queue, the permit
    given back. *)
Lemma inv_try (s : R) t r e x sem :
  Inv s -> tasks s !! t = Some (PTry r e) -> heap s !! e = Some x ->
  try_acquire t (semaphore x) = Some sem ->
  Inv (set_pc t (PGuard (request_key r) e) (set_entry e (mkLockEntry sem (queued x)) s)).
Proof.
  intros I Ht Hx Etry. destruct (try_acquire_owner t _ _ Etry) as (Hnone & Hown & Hwait).
  unfold set_pc, set_entry. simpl.
  eapply inv_move; eauto; simpl; try (rewrite ?Hnone, ?Hown, ?Hwait); try naive_solver.
  - intros _. split; [done|]. by eapply not_waiting.
  - intros u Hu. left. split; [|done]. intros ->. by eapply (not_waiting s t).
Qed.

Lemma inv_enqueue (s : R) t r e q n y :
  Inv s -> tasks s !! t = Some (PAdmit r e q n) -> heap s !! e = Some y ->
  Inv (set_pc t (PWait r e) (set_entry e (on_sem (enqueue t) y) s)).
Proof.
  intros I Ht Hy. unfold set_pc, set_entry. simpl.
  pose proof (not_owner s t _ e y I Ht eq_refl Hy) as Hno.
  pose proof (not_waiting s t _ e y I Ht eq_refl Hy) as Hnw.
  eapply inv_move; eauto; simpl; try naive_solver.
  - intros u Hne Hu. destruct (enqueue_owner t (semaphore y)) as [[-> _]|[? _]]; congruence.
  - intros Hown. split; [done|].
    destruct (enqueue_owner t (semaphore y)) as [[E _]|(_ & _ & ->)]; [congruence|done].
  - intros u Hne Hu. destruct (enqueue_owner t (semaphore y)) as [[E Hw]|(_ & E & _)]; [|congruence].
    rewrite E in Hu. split; [by left|]. rewrite Hw. intros [Hin|]; [|done].
    by destruct (i_wait s I e y u Hy Hin).
  - intros u Hu. destruct (decide (u = t)) as [->|]; [by right; eauto|left]. split; [done|].
    destruct (enqueue_owner t (semaphore y)) as [[_ Hw]|(_ & _ & E)]; [|congruence].
    apply Hw in Hu. naive_solver.
Qed.

Lemma inv_release (s : R) t key e g y :
  Inv s -> tasks s !! t = Some (PHold key e g) -> heap s !! e = Some y ->
  Inv (set_pc t (PPrune key e (Acquired g)) (set_entry e (on_sem (release t) y) s)).
Proof.
  intros I Ht Hy. unfold set_pc, set_entry. simpl.
  destruct (i_owns s I t _ e Ht eq_refl) as (z & Hz & Hown). assert (z = y) as -> by congruence.
  pose proof (not_waiting s t _ e y I Ht eq_refl Hy) as Hnw.
  destruct (release_owner t (semaphore y) Hown) as [[Eo Ew]|(v & Hv & Eo & Ew)];
    eapply inv_move; eauto; simpl; try (rewrite ?Eo, ?Ew); try naive_solver.
Qed.

Lemma inv_step t (s s' : R) : Inv s -> step t s s' -> Inv s'.
Proof.
  intros I Hs. destruct Hs as
    [s r e s1 res Ht He Hent|s r e x Ht Hx|s r e x Ht Hx|s r e q Ht|s r e q n o Ht Hr|s r e q n Ht Hr
    |s r e x Ht Hx Ho|s r e Ht|s r e g o Ht|s r e g o Ht|s key e Ht|s key e g Ht|s key e o Ht
    |s key e o Ht|s r e Ht];
  try (destruct (i_mention s I t _ e Ht eq_refl) as [y Hy]; unfold with_entry; rewrite ?Hy;
       unfold set_pc, set_entry, set_total; simpl;
       try (assert (y = x) as -> by congruence)).
  - (* entry_for *)
    unfold entry_for in Hent. destruct (shards s !! request_key r) as [e0|] eqn:Ek.
    + injection Hent as <- <-. apply (inv_fresh s t _ e0); eauto. right. simpl.
      split; [done|]. split; [by eapply (i_shards s I)|]. by intros k e' [= <- <-].
    + destruct (max_keys limits <=? key_count s); injection Hent as <- <-.
      * apply (inv_fresh s t _ e); eauto.
      * apply (inv_fresh s t _ e); eauto.
        -- right. simpl. split; [done|]. split; [by rewrite lookup_insert_eq; eauto|].
           intros k e' [= <- <-]. apply lookup_insert_eq.
        -- right. eauto 10.
  - (* try_acquire *)
    destruct (try_acquire t (semaphore x)) as [sem|] eqn:Etry.
    + by apply (inv_try s t r e x).
    + eapply inv_move_pc; eauto; simpl; naive_solver.
  - (* queued.fetch_add *)
    eapply inv_stay; eauto; simpl; try naive_solver.
    + intros Ho. by destruct (not_owner s t _ e x I Ht eq_refl Hx).
    + intros Hw. by destruct (not_waiting s t _ e x I Ht eq_refl Hx).
  - eapply inv_move_pc; eauto; simpl; naive_solver.
  - eapply inv_move_pc; eauto; simpl; naive_solver.
  - (* enqueue *) by apply (inv_enqueue s t r e q n).
  - (* granted *)
    eapply inv_move_pc; eauto; simpl; naive_solver.
  - (* timeout *) eapply inv_cancel; eauto; simpl; naive_solver.
  - (* leave_queue *)
    assert (t ∉ waiting (semaphore y)) as Hnw by by eapply not_waiting.
    assert (if g then owner (semaphore y) = Some t else owner (semaphore y) <> Some t) as Hown.
    { destruct g; [|by eapply not_owner].
      destruct (i_owns s I t _ e Ht eq_refl) as (z & Hz & ?). congruence. }
    destruct g; eapply inv_stay; eauto; simpl; naive_solver.
  - destruct g; eapply inv_move_pc; eauto; simpl; naive_solver.
  - eapply inv_move_pc; eauto; simpl; naive_solver.
  - (* the permit is dropped *) by apply (inv_release s t key e g).
  - by apply inv_prune.
  - eapply inv_move_pc; eauto; simpl; naive_solver.
  - (* cancelled *) eapply inv_cancel; eauto; simpl; naive_solver.
Qed.

Lemma inv_spawn t (s s' : R) : Inv s -> spawn t s s' -> Inv s'.
Proof.
  intros I Hs. destruct Hs as [s r Ht]. unfold set_pc.
  apply (inv_fresh s t (PStart r) O); simpl; auto.
Qed.

Lemma inv_reachable (s : R) : reachable s -> Inv s.
Proof.
  intros Hr. unfold reachable, LockRegistry.reachable in Hr.
  apply (rtc_ind_r (fun s => Inv s)) with (x := registry_new) in Hr; [done| |].
  - split; simpl; intros *; rewrite ?lookup_empty; done.
  - intros s1 s2 _ [t [Hs|Hs]] I; [by eapply inv_step|by eapply inv_spawn].
Qed.

(** ** The counters *)

Record Counted (s : R) : Prop := {
  c_total : total_queued s = wrap 32 (count in_total (tasks s));
  c_queued : forall e x, heap s !! e = Some x -> queued x = wrap 32 (count (in_queue e) (tasks s));
  c_keys : key_count s = Z.of_nat (size (shards s));
}.

Lemma in_queue_mentions e p : in_queue e p = true -> mentions p = Some e.
Proof. destruct p; simpl; try done; intros ->%Nat.eqb_eq; done. Qed.

Lemma count_none (P : Pc -> bool) ts : (forall t p, ts !! t = Some p -> P p = false) -> count P ts = 0.
Proof.
  intros HP. unfold count. apply (inj_iff Z.of_nat _ 0%nat), map_size_empty_iff, map_empty.
  intros t. apply map_lookup_filter_None. right. intros p Ht HP'. simpl in HP'.
  specialize (HP t p Ht). congruence.
Qed.

Lemma wrap_add_l w a b : wrap w (wrap w a + b) = wrap w (a + b).
Proof. unfold wrap. apply Zplus_mod_idemp_l. Qed.

(** The counts after a move, against the entry the move touches. *)
Lemma counted_move (s : R) t p p' e x x' n :
  Counted s -> tasks s !! t = Some p -> heap s !! e = Some x ->
  queued x' = wrap 32 (queued x + (Z.b2z (in_queue e p') - Z.b2z (in_queue e p))) ->
  (forall e', e' <> e -> in_queue e' p' = in_queue e' p) ->
  n = wrap 32 (total_queued s + (Z.b2z (in_total p') - Z.b2z (in_total p))) ->
  forall ng, Counted (mkRegistry (shards s) (<[e := x']> (heap s)) n (key_count s) ng (<[t := p']> (tasks s))).
Proof.
  intros C Ht Hx Hq Hother Hn ng. split; simpl.
  - rewrite Hn, (c_total s C), wrap_add_l, count_insert, Ht. simpl. f_equal. lia.
  - intros e' y Hy. rewrite count_insert, Ht. simpl. destruct (decide (e' = e)) as [->|Hne].
    + rewrite lookup_insert_eq in Hy. injection Hy as <-.
      rewrite Hq, (c_queued s C e x Hx), wrap_add_l. f_equal. lia.
    + rewrite lookup_insert_ne in Hy by done. rewrite (c_queued s C e' y Hy), Hother by done.
      f_equal. lia.
  - apply (c_keys s C).
Qed.

Lemma counted_range (s : R) e x : Counted s -> heap s !! e = Some x -> wrap 32 (queued x) = queued x.
Proof. intros C Hx. rewrite (c_queued s C e x Hx). unfold wrap. by rewrite Zmod_mod. Qed.

Lemma counted_total_range (s : R) : Counted s -> wrap 32 (total_queued s) = total_queued s.
Proof. intros C. rewrite (c_total s C). unfold wrap. by rewrite Zmod_mod. Qed.

(** Moves that touch no counter. *)
Lemma counted_quiet (s : R) (t : Task) (p p' : Pc) (sh : gmap LockKey nat)
    (hp : gmap nat (LockEntry Sem)) (kc ng : Z) :
  Counted s -> (tasks s !! t = Some p \/ tasks s !! t = None /\ in_total p = false /\ forall e, in_queue e p = false) ->
  (forall e, in_queue e p' = in_queue e p) -> in_total p' = in_total p ->
  (forall e y, hp !! e = Some y -> (exists x, heap s !! e = Some x /\ queued y = queued x) \/
     (queued y = 0 /\ count (in_queue e) (tasks s) = 0)) ->
  kc = Z.of_nat (size sh) ->
  Counted (mkRegistry sh hp (total_queued s) kc ng (<[t := p']> (tasks s))).
Proof.
  intros C Ht Hq Htot Hhp Hkc.
  assert (forall P, P p' = P p -> (tasks s !! t = None -> P p = false) ->
    count P (<[t:=p']> (tasks s)) = count P (tasks s)) as Hsame.
  { intros P HP Hnone. rewrite count_insert. destruct Ht as [->|[E _]]; simpl; [rewrite HP; lia|].
    rewrite E, HP. simpl. rewrite (Hnone E). simpl. lia. }
  split; simpl.
  - rewrite Hsame; [apply (c_total s C)|done|]. intros E. destruct Ht as [Ht|(_ & ? & _)]; [congruence|done].
  - intros e y Hy. rewrite Hsame; [|done|].
    + destruct (Hhp e y Hy) as [(x & Hx & ->)|[-> ->]]; [by apply (c_queued s C)|done].
    + intros E. destruct Ht as [Ht|(_ & _ & ?)]; [congruence|done].
  - done.
Qed.

(** A new entry has nobody in its queue: nobody mentions it. *)
Lemma queue_of_fresh (s : R) e : Inv s -> heap s !! e = None -> count (in_queue e) (tasks s) = 0.
Proof.
  intros I He. apply count_none. intros t p Ht. destruct (in_queue e p) eqn:E; [|done].
  apply in_queue_mentions in E. destruct (i_mention s I t p e Ht E). congruence.
Qed.

Ltac counted_by L :=
  eapply L; eauto; simpl; rewrite ?Nat.eqb_refl; simpl; rewrite ?Z.add_0_r; try done;
  try (intros ? ?; by rewrite (proj2 (Nat.eqb_neq _ _)) by done).

Lemma counted_step t (s s' : R) : Inv s -> Counted s -> step t s s' -> Counted s'.
Proof.
  intros I C Hs. destruct Hs as
    [s r e s1 res Ht He Hent|s r e x Ht Hx|s r e x Ht Hx|s r e q Ht|s r e q n o Ht Hr|s r e q n Ht Hr
    |s r e x Ht Hx Ho|s r e Ht|s r e g o Ht|s r e g o Ht|s key e Ht|s key e g Ht|s key e o Ht
    |s key e o Ht|s r e Ht];
  try (destruct (i_mention s I t _ e Ht eq_refl) as [y Hy]; unfold with_entry; rewrite ?Hy;
       try (assert (y = x) as -> by congruence); pose proof (counted_range s e _ C Hy));
  pose proof (counted_total_range s C); unfold set_pc, set_entry, set_total; simpl.
  1: { unfold entry_for in Hent. destruct (shards s !! request_key r) as [e0|] eqn:Ek.
    + injection Hent as <- <-. eapply counted_quiet; eauto; apply (c_keys s C).
    + destruct (max_keys limits <=? key_count s); injection Hent as <- <-; simpl.
      * eapply counted_quiet; eauto; apply (c_keys s C).
      * eapply counted_quiet; eauto.
        -- intros e' y Hy. destruct (decide (e' = e)) as [->|].
           ++ rewrite lookup_insert_eq in Hy. injection Hy as <-. right. split; [done|]. by apply queue_of_fresh.
           ++ rewrite lookup_insert_ne in Hy by done. eauto.
        -- rewrite map_size_insert_None by done. rewrite (c_keys s C). lia. }
  all: try (counted_by counted_move; fail).
  all: try (rewrite <- (insert_id (heap s) e _ Hy) at 1; counted_by counted_move; fail).
  - destruct (try_acquire t (semaphore x)); unfold set_pc, set_entry; simpl;
      [|rewrite <- (insert_id (heap s) e _ Hx) at 1];
      counted_by counted_move.
  - rewrite <- (insert_id (heap s) e _ Hy) at 1. destruct g; counted_by counted_move.
  - (* prune *)
    unfold prune. case_match eqn:E; simpl; [|eapply counted_quiet; eauto; simpl; eauto; apply (c_keys s C)].
    apply andb_true_iff in E as [_ E]. fw_bool. destruct E as [e' Hk].
    eapply counted_quiet; eauto; simpl.
    assert (size (shards s) <> 0%nat) by (apply map_size_ne_0_lookup; eauto).
    rewrite map_size_delete_Some by eauto. rewrite (c_keys s C). lia.
Qed.

Lemma counted_spawn t (s s' : R) : Counted s -> spawn t s s' -> Counted s'.
Proof.
  intros C Hs. destruct Hs as [s r Ht]. unfold set_pc.
  eapply (counted_quiet s t (PDone Busy)); eauto; simpl; eauto; try done. apply (c_keys s C).
Qed.

Lemma counted_reachable (s : R) : reachable s -> Counted s.
Proof.
  intros Hr. assert (Inv s /\ Counted s) as [_ ?]; [|done]. revert Hr.
  apply (rtc_ind_r (fun s => Inv s /\ Counted s)).
  - split; [by apply inv_reachable, rtc_refl|]. split; simpl; done.
  - intros s1 s2 _ [t [Hs|Hs]] [I C].
    + split; [by eapply inv_step|by eapply counted_step].
    + split; [by eapply inv_spawn|by eapply counted_spawn].
Qed.

(** ** The ceiling on waiters *)

(** Past the admission test, or about to pass it. *)
Definition admitted (p : Pc) : bool :=
  match p with
  | PWait _ _ => true
  | PAdmit r _ q n => bool_decide (refusal limits r q n = None)
  | _ => false
  end.

Lemma admitted_in_total p : admitted p = true -> in_total p = true.
Proof. by destruct p. Qed.

Lemma count_size P (ts : gmap Task Pc) : count P ts <= Z.of_nat (size ts).
Proof. unfold count. apply inj_le, map_subseteq_size, map_filter_subseteq. Qed.

Lemma refusal_below r q n : refusal limits r q n = None -> n < max_total_waiters limits.
Proof. unfold refusal. repeat case_match; try done. intros _. fw_bool. lia. Qed.

(** A move that is not an admission makes the admitted no more. *)
Lemma admitted_move (ts : gmap Task Pc) t p p' :
  ts !! t = Some p -> admitted p' = true -> admitted p = true \/ count admitted ts < max_total_waiters limits ->
  count admitted ts <= Z.max 0 (max_total_waiters limits) ->
  count admitted (<[t := p']> ts) <= Z.max 0 (max_total_waiters limits).
Proof.
  intros Ht Hp' Hp Hle. rewrite count_insert, Ht. simpl. rewrite Hp'. simpl.
  destruct Hp as [->|?]; simpl; [lia|]. destruct (admitted p); simpl; lia.
Qed.

Lemma count_forget P (ts : gmap Task Pc) t p' : P p' = false -> count P (<[t := p']> ts) <= count P ts.
Proof.
  intros Hp'. rewrite count_insert, Hp'. destruct (ts !! t) as [p|]; simpl; [|lia].
  destruct (P p); simpl; lia.
Qed.

Lemma admitted_step t (s s' : R) :
  Counted s -> Z.of_nat (size (tasks s)) < 2 ^ 32 -> step t s s' ->
  count admitted (tasks s) <= Z.max 0 (max_total_waiters limits) ->
  count admitted (tasks s') <= Z.max 0 (max_total_waiters limits).
Proof.
  intros C Hsize Hs Hle.
  assert (total_queued s = count in_total (tasks s)) as Htot.
  { rewrite (c_total s C). unfold wrap. apply Z.mod_small.
    pose proof (count_nonneg in_total (tasks s)). pose proof (count_size in_total (tasks s)). lia. }
  pose proof (count_le admitted in_total (tasks s) admitted_in_total) as Hin.
  destruct Hs; simpl in *;
    try (unfold with_entry, set_entry; repeat case_match; simpl;
         (etrans; [by apply count_forget|done]); fail).
  - unfold entry_for in *. repeat case_match; simplify_eq; simpl;
      (etrans; [by apply count_forget|done]).
  - destruct (bool_decide (refusal limits r q (total_queued s) = None)) eqn:E; fw_bool.
    + eapply admitted_move; eauto; [by apply bool_decide_eq_true|]. right.
      apply refusal_below in E. lia.
    + etrans; [apply count_forget|done]. by apply bool_decide_eq_false.
  - unfold with_entry, set_entry. case_match; simpl; (eapply admitted_move; eauto; left; by apply bool_decide_eq_true).
  - unfold prune. case_match; simpl; (etrans; [by apply count_forget|done]).
Qed.

Lemma step_tasks t (s s' : R) : step t s s' \/ spawn t s s' -> exists p, tasks s' = <[t := p]> (tasks s).
Proof.
  intros [Hs|Hs]; destruct Hs; unfold with_entry, entry_for, prune in *; repeat case_match;
    simplify_eq; simpl; eauto.
Qed.

Lemma admitted_bound (s : R) :
  reachable s -> Z.of_nat (size (tasks s)) < 2 ^ 32 ->
  count admitted (tasks s) <= Z.max 0 (max_total_waiters limits).
Proof.
  intros Hr Hsize.
  assert (reachable s /\ (Z.of_nat (size (tasks s)) < 2 ^ 32 ->
    count admitted (tasks s) <= Z.max 0 (max_total_waiters limits))) as [_ H']; [|by apply H'].
  clear Hsize. revert Hr. apply (rtc_ind_r (fun s => reachable s /\ (Z.of_nat (size (tasks s)) < 2 ^ 32 ->
    count admitted (tasks s) <= Z.max 0 (max_total_waiters limits)))).
  - split; [apply rtc_refl|]. intros _. unfold count. simpl. rewrite map_filter_empty, map_size_empty. lia.
  - intros s1 s2 _ [t Hs] [Hr IH]. split; [eapply rtc_r; [done|by exists t]|]. intros Hsize.
    destruct (step_tasks t s1 s2 Hs) as [p Hp].
    assert (size (tasks s1) <= size (tasks s2))%nat as Hmono.
    { rewrite Hp, map_size_insert. case_match; simpl; lia. }
    destruct Hs as [Hs|Hs].
    + apply (admitted_step t s1 s2); [by apply counted_reachable|lia|done|]. apply IH. lia.
    + destruct Hs; simpl in *. etrans; [by apply count_forget|]. apply IH. lia.
Qed.

(** ** What the registry guarantees *)

(** Two live guards of a key are one task's. *)
Lemma hold_unique (s : R) key t1 t2 e1 e2 g1 g2 :
  Inv s -> tasks s !! t1 = Some (PHold key e1 g1) -> tasks s !! t2 = Some (PHold key e2 g2) -> t1 = t2.
Proof.
  intros I H1 H2.
  pose proof (i_handle s I t1 _ key e1 H1 eq_refl eq_refl) as Hk1.
  pose proof (i_handle s I t2 _ key e2 H2 eq_refl eq_refl) as Hk2.
  destruct (i_owns s I t1 _ e1 H1 eq_refl) as (x1 & Hx1 & Ho1).
  destruct (i_owns s I t2 _ e2 H2 eq_refl) as (x2 & Hx2 & Ho2).
  assert (e2 = e1) as -> by congruence. congruence.
Qed.

(** C11: mutual exclusion. In every state the registry can reach, under any interleaving of
    acquires, releases, timeouts, prunes and cancellations, a key has at most one live guard;
    its entry is the one the map has for the key, and its permit is the guard's. *)
Theorem mutual_exclusion (s : R) key t1 t2 e1 e2 g1 g2 :
  reachable s ->
  tasks s !! t1 = Some (PHold key e1 g1) -> tasks s !! t2 = Some (PHold key e2 g2) ->
  t1 = t2 /\ shards s !! key = Some e1 /\
  exists x, heap s !! e1 = Some x /\ owner (semaphore x) = Some t1.
Proof.
  intros Hr H1 H2. pose proof (inv_reachable s Hr) as I.
  split; [by eapply hold_unique|].
  split; [exact (i_handle s I t1 _ key e1 H1 eq_refl eq_refl)|].
  exact (i_owns s I t1 _ e1 H1 eq_refl).
Qed.

(** C23: the accounting. [total_queued] and each entry's [queued] count, modulo 2^32, the
    acquires between their two [fetch_add]s and [leave_queue] and, for ever, every wait that
    was cancelled; [key_count] is the number of keys in the map; and what waits is below the
    ceiling, as long as fewer than 2^32 acquires were ever made. *)
Theorem queue_accounting (s : R) :
  reachable s ->
  total_queued s = wrap 32 (count in_total (tasks s)) /\
  (forall e x, heap s !! e = Some x -> queued x = wrap 32 (count (in_queue e) (tasks s))) /\
  key_count s = Z.of_nat (size (shards s)) /\
  (Z.of_nat (size (tasks s)) < 2 ^ 32 ->
   count is_waiting (tasks s) <= Z.max 0 (max_total_waiters limits)).
Proof.
  intros Hr. destruct (counted_reachable s Hr) as [Htot Hq Hk].
  split; [done|]. split; [done|]. split; [done|]. intros Hsize.
  etrans; [|by apply admitted_bound]. apply count_le. by intros [].
Qed.

(** Waits that were cancelled never leave the count: once they are as many as
    [max_total_waiters], every acquire that has to queue is refused, whoever else waits. *)
Theorem cancelled_waits_refuse_all t (s s' : R) r e q :
  reachable s -> Z.of_nat (size (tasks s)) < 2 ^ 32 ->
  max_total_waiters limits <= count is_cancelled (tasks s) ->
  tasks s !! t = Some (PTotal r e q) -> step t s s' ->
  exists n o, tasks s' !! t = Some (PAdmit r e q n) /\ refusal limits r q n = Some o.
Proof.
  intros Hr Hsize Hc Ht Hs. pose proof (counted_reachable s Hr) as C.
  destruct Hs as [?|?|?|s r' e' q' Ht'|?|?|?|?|?|?|?|?|?|?|?]; try congruence.
  rewrite Ht in Ht'. injection Ht' as <- <- <-.
  exists (total_queued s). simpl. rewrite lookup_insert_eq.
  assert (max_total_waiters limits <= total_queued s) as Hge.
  { rewrite (c_total s C). unfold wrap.
    pose proof (count_nonneg in_total (tasks s)). pose proof (count_size in_total (tasks s)).
    rewrite Z.mod_small by lia. etrans; [done|]. apply count_le. by intros []. }
  unfold refusal. destruct (max_waiters r <=? q); [by eauto|].
  destruct (max_total_waiters limits <=? total_queued s) eqn:E; [by eauto|]. fw_bool. lia.
Qed.

End Safety.

(** ** Generations *)

Lemma make_generation_closed c :
  0 <= c < 2 ^ 16 -> make_generation c = (c mod 65535 + 1, c mod 65535 + 1).
Proof.
  intros Hc. unfold make_generation, wrap. change (2 ^ 16) with 65536 in *.
  destruct (decide (c = 65535)) as [->|]; [reflexivity|].
  rewrite (Z.mod_small (c + 1)) by lia. destruct (c + 1 =? 0) eqn:E; fw_bool; [lia|].
  rewrite Z.mod_small by lia. done.
Qed.

(** The [n]-th generation from the counter [c]. *)
Definition generation_after (c : Z) (n : nat) : Z :=
  (make_generation (Nat.iter n (fun c => (make_generation c).2) c)).1.

Lemma generation_counter c n :
  0 <= c < 2 ^ 16 ->
  0 <= Nat.iter n (fun c => (make_generation c).2) c < 2 ^ 16 /\
  Nat.iter n (fun c => (make_generation c).2) c mod 65535 = (c + Z.of_nat n) mod 65535.
Proof.
  intros Hc. induction n as [|n [Hr IH]]; [split; [done|f_equal; simpl; lia]|].
  cbn. fold (Nat.iter n (fun c => (make_generation c).2) c).
  rewrite make_generation_closed by done. cbn [snd].
  rewrite IH. split; [pose proof (Z.mod_pos_bound (c + Z.of_nat n) 65535); lia|].
  rewrite Zplus_mod_idemp_l. f_equal. lia.
Qed.

(** Generations are never zero, and no two of 65535 successive grants have the same. *)
Theorem generations_distinct c i j :
  0 <= c < 2 ^ 16 -> (i < j)%nat -> Z.of_nat j - Z.of_nat i < 65535 ->
  1 <= generation_after c i < 2 ^ 16 /\ generation_after c i <> generation_after c j.
Proof.
  intros Hc Hij Hd. unfold generation_after.
  destruct (generation_counter c i Hc) as [Hi Ei]. destruct (generation_counter c j Hc) as [Hj Ej].
  rewrite !make_generation_closed by done. cbn [fst]. rewrite Ei, Ej.
  pose proof (Z.mod_pos_bound (c + Z.of_nat i) 65535). split; [lia|]. intros E.
  assert ((c + Z.of_nat i) mod 65535 = (c + Z.of_nat j) mod 65535) as E' by lia.
  pose proof (Z.div_mod (c + Z.of_nat i) 65535). pose proof (Z.div_mod (c + Z.of_nat j) 65535). nia.
Qed.

Lemma generations_distinct_witness :
  1 <= generation_after 65535 0 < 2 ^ 16 /\ generation_after 65535 0 <> generation_after 65535 1.
Proof. apply (generations_distinct 65535 0 1); lia. Defined.

(** ** Runs of the registry *)

Module Runs.

Definition limits : LockLimits := mkLockLimits 100 1 60000.
Definition req : AcquireRequest := mkAcquireRequest 7 42 8 1000 5000.
Definition new : Registry Fifo.T := registry_new.

Definition steps (n : nat) (t : Task) : list Action := repeat (Do t) n.

(** Task 1 holds the key, task 2 waits for it. *)
Definition contended : list Action :=
  Spawn 1 req :: steps 3 1 ++ Spawn 2 req :: steps 5 2.

(** Task 2 gives up its connection, and task 3 arrives. *)
Definition leak : list Action := contended ++ Cancel 2 :: Spawn 3 req :: steps 3 3.

Definition final (actions : list Action) : Registry Fifo.T :=
  default new (run limits actions new).

Definition enabled (actions : list Action) : bool :=
  match run limits actions new with Some _ => true | None => false end.

Lemma reachable_final actions : enabled actions = true -> reachable limits (final actions).
Proof.
  unfold enabled, final. destruct (run limits actions new) as [s|] eqn:Hs; [|done].
  intros _. by eapply run_sound.
Qed.

Lemma mutual_exclusion_witness :
  exists t1 t2 e g, reachable limits (final contended) /\
    tasks (final contended) !! t1 = Some (PHold (7, 42) e g) /\ t1 = t2.
Proof.
  assert (reachable limits (final contended)) as Hr by (apply reachable_final; by vm_compute).
  assert (tasks (final contended) !! 1%nat = Some (PHold (7, 42) 0 1)) as H1 by (vm_compute; done).
  exists 1%nat, 1%nat, 0%nat, 1. split; [done|]. split; [done|].
  apply (mutual_exclusion limits (final contended) (7, 42) 1 1 0 0 1 1 Hr H1 H1).
Defined.

Lemma queue_accounting_witness :
  reachable limits (final contended) /\ total_queued (final contended) = 1 /\
  count in_total (tasks (final contended)) = 1 /\
  total_queued (final contended) = wrap 32 (count in_total (tasks (final contended))).
Proof.
  assert (reachable limits (final contended)) as Hr by (apply reachable_final; by vm_compute).
  split; [done|]. split; [by vm_compute|]. split; [by vm_compute|].
  apply (queue_accounting limits (final contended) Hr).
Defined.

(** Nobody waits, and yet task 3 is refused. *)
Lemma cancelled_waits_refuse_all_witness :
  count is_waiting (tasks (final leak)) = 0 /\
  exists s' n o, step limits 3 (final leak) s' /\
    tasks s' !! 3%nat = Some (PAdmit req 0 1 n) /\ refusal limits req 1 n = Some o.
Proof.
  assert (reachable limits (final leak)) as Hr by (apply reachable_final; by vm_compute).
  split; [by vm_compute|].
  assert (tasks (final leak) !! 3%nat = Some (PTotal req 0 1)) as Ht by (vm_compute; done).
  pose proof (s_total limits 3 (final leak) req 0 1 Ht) as Hs.
  match type of Hs with _ _ _ ?s1 => set (s' := s1) in Hs end.
  destruct (cancelled_waits_refuse_all limits 3 (final leak) s' req 0 1 Hr) as (n & o & Hn & Ho);
    [by vm_compute|by vm_compute|exact Ht|exact Hs|].
  exists s', n, o. split; [exact Hs|]. split; [exact Hn|exact Ho].
Defined.

(** Two acquires of the same key, the second refused while the first guard is dropped: the
    two prunes each see the other's handle. *)
Definition impatient : AcquireRequest := mkAcquireRequest 7 42 0 1000 5000.
Definition race : list Action :=
  Spawn 1 req :: steps 3 1 ++ Spawn 2 impatient :: steps 7 2 ++
  [Do 1%nat; Do 1%nat; Do 2%nat; Do 1%nat; Do 2%nat].

(** The registry can keep an entry nobody holds or wants. When two handles of the same key
    are dropped at once, each prune still counts the other's handle, neither removes the
    entry, and both tasks finish with the key in the map and counted against [max_keys]. *)
Theorem idle_entry_left_by_race :
  exists s : Registry Fifo.T, reachable limits s /\
    (forall t p, tasks s !! t = Some p -> exists o, p = PDone o) /\
    shards s !! (7, 42) = Some 0%nat /\ key_count s = 1.
Proof.
  exists (final race). split; [apply reachable_final; by vm_compute|].
  split; [|by vm_compute].
  assert (map_Forall (fun _ p => exists o, p = PDone o) (tasks (final race))) as Hall; [|exact Hall].
  assert (tasks (final race) = <[1%nat := PDone (Acquired 1)]> (<[2%nat := PDone Busy]> ∅)) as ->
    by (vm_compute; done).
  apply map_Forall_insert_2; [eauto|]. apply map_Forall_insert_2; [eauto|]. apply map_Forall_empty.
Qed.

End Runs.
