(* ===== verification/Sequence.v ===== *)
(** * Sequence: the counters of src/src/sequence/

    protocol.rs: the two payloads, their cursor and the check of the counter name.
    store.rs: the trait [SequenceStore] and its implementation over a session.
    allocator.rs: hi-lo blocks. [reserve] and [set] hold their counter's mutex across their
    store calls, so each is one transition of its counter; what other tasks may do meanwhile
    is touch other counters, and [busy] names the entries they have handles to, which
    [prune_spent] must keep.

    The session and the hash of the standard library's [DefaultHasher] are parameters. *)

From stdpp Require Import strings.
From S2P Require Import Prelude TimeFrame CreditsBlob Aggregation Storage.

(** ** Payloads (protocol.rs) *)

Definition SEQUENCE_NAME_MAX : Z := 128.
Definition SEQUENCE_INCREMENT_SIZE : nat := 4.
Definition SEQUENCE_VALUE_SIZE : nat := 8.

Record ReserveRequest := mkReserveRequest { res_name : bytes; increment : Z }.
Record SetRequest := mkSetRequest { set_name : bytes; set_value : Z }.

Inductive SequenceProtocolError :=
| TooShort | EmptyIncrement | NegativeValue | EmptyName | NameTooLong | NonUtf8Name.

#[export] Instance SequenceProtocolError_eq_dec : EqDecision SequenceProtocolError.
Proof. solve_decision. Defined.

(** [std::str::from_utf8]: well-formed UTF-8, no surrogate, no overlong form. *)
Definition between (lo hi b : Z) : bool := (lo <=? b) && (b <=? hi).
Definition tail_byte : Z -> bool := between 0x80 0xBF.

Fixpoint utf8_ok (bs : bytes) : bool :=
  match bs with
  | [] => true
  | a :: r1 =>
      if between 0 0x7F a then utf8_ok r1
      else match r1 with
      | b :: r2 =>
          if between 0xC2 0xDF a then tail_byte b && utf8_ok r2
          else match r2 with
          | c :: r3 =>
              if between 0xE0 0xEF a then
                (if a =? 0xE0 then between 0xA0 0xBF b
                 else if a =? 0xED then between 0x80 0x9F b else tail_byte b)
                && tail_byte c && utf8_ok r3
              else match r3 with
              | d :: r4 =>
                  between 0xF0 0xF4 a
                  && (if a =? 0xF0 then between 0x90 0xBF b
                      else if a =? 0xF4 then between 0x80 0x8F b else tail_byte b)
                  && tail_byte c && tail_byte d && utf8_ok r4
              | [] => false
              end
          | [] => false
          end
      | [] => false
      end
  end.

Definition parse_counter_name (name_bytes : bytes) : result SequenceProtocolError bytes :=
  if zlen name_bytes =? 0 then Err EmptyName
  else if SEQUENCE_NAME_MAX <? zlen name_bytes then Err NameTooLong
  else if utf8_ok name_bytes then Ok name_bytes else Err NonUtf8Name.

Record Cursor := mkCursor { c_bytes : bytes; at_ : nat }.

Definition cursor_new (bs : bytes) : Cursor := mkCursor bs 0.

Definition cursor_take (count : nat) (c : Cursor) : option (bytes * Cursor) :=
  let stop := (at_ c + count)%nat in
  if (stop <=? length (c_bytes c))%nat
  then Some (take count (drop (at_ c) (c_bytes c)), mkCursor (c_bytes c) stop)
  else None.

Definition cursor_u32 (c : Cursor) : option (Z * Cursor) :=
  '(bs, c') ← cursor_take SEQUENCE_INCREMENT_SIZE c; Some (of_be bs, c').

(** [i64::from_be_bytes]: the same bytes, as a signed integer. *)
Definition cursor_i64 (c : Cursor) : option (Z * Cursor) :=
  '(bs, c') ← cursor_take SEQUENCE_VALUE_SIZE c; Some (swrap 64 (of_be bs), c').

Definition cursor_rest (c : Cursor) : bytes := drop (at_ c) (c_bytes c).

Definition parse_set (payload : bytes) : result SequenceProtocolError SetRequest :=
  '(value, cursor) ← ok_or TooShort (cursor_i64 (cursor_new payload));
  if value <? 0 then Err NegativeValue
  else name ← parse_counter_name (cursor_rest cursor); Ok (mkSetRequest name value).

Definition parse_reserve (payload : bytes) : result SequenceProtocolError ReserveRequest :=
  '(inc, cursor) ← ok_or TooShort (cursor_u32 (cursor_new payload));
  if inc =? 0 then Err EmptyIncrement
  else name ← parse_counter_name (cursor_rest cursor); Ok (mkReserveRequest name inc).

(** ** The store (store.rs) *)

Class SequenceStore (St : Type) := {
  bump : bytes -> Z -> SE St anyhow unit;
  read : bytes -> SE St anyhow Z;
}.

(** The two prepared statements: a counter update, and a read whose rows may fail to decode
    and whose cell may be empty. *)
Class CounterSession (St : Type) := {
  update_counter : Z * bytes -> SE St anyhow unit;
  select_counter : bytes -> SE St anyhow (list (result anyhow (option Z)));
}.

Section Scylla.
Context {St : Type} `{!CounterSession St}.

Definition scylla_bump (name : bytes) (by_ : Z) : SE St anyhow unit :=
  context "sequences counter update failed" (update_counter (by_, name)).

Definition scylla_read (name : bytes) : SE St anyhow Z :=
  rows ← context "sequences counter read failed" (select_counter name);
  match rows with
  | row :: _ => value ← context "sequences row decode failed" (se_lift row); mret (default 0 value)
  | [] => mret 0
  end.

#[export] Instance ScyllaSequenceStore : SequenceStore St := {
  bump := scylla_bump;
  read := scylla_read;
}.

End Scylla.

(** ** The allocator (allocator.rs) *)

Record SequenceLimits := mkSequenceLimits { block_size : Z; max_tracked_names : Z }.

Record SequenceState := mkSequenceState { next : Z; end_ : Z }.

Definition empty : SequenceState := mkSequenceState 1 0.

Definition is_spent (s : SequenceState) : bool := end_ s <? next s.

(** [last + 1] wraps in a release build. *)
Definition take_values (increment : Z) (s : SequenceState) : option (Z * SequenceState) :=
  let start := next s in
  last ← checked_add_i64 start (increment - 1);
  if end_ s <? last then None
  else Some (start, mkSequenceState (swrap 64 (last + 1)) (end_ s)).

Record SequenceAllocator := mkSequenceAllocator {
  shards : list (gmap bytes SequenceState);
  tracked_names : Z;
}.

Record Env (St : Type) := mkEnv { alloc : SequenceAllocator; store : St }.
Arguments mkEnv {St}.
Arguments alloc {St}.
Arguments store {St}.

(** What a reservation issued: the counter, the first value and how many. *)
Abbreviation Issued := (bytes * Z * Z)%type.

Section Allocator.
Context {St : Type} `{!SequenceStore St}.
Variable limits : SequenceLimits.
Variable hash : bytes -> Z.

Abbreviation M := (SE (Env St) anyhow).

Definition shard_index (shard_count : nat) (name : bytes) : nat :=
  Z.to_nat (Z.shiftr (hash name) 32 mod Z.of_nat shard_count).

Definition on_store {A} (m : SE St anyhow A) : M A :=
  fun e => let '(r, s) := m (store e) in (r, mkEnv (alloc e) s).

(** What [retain] keeps, and how many names it removed. *)
Definition keeps_entry (busy : bytes -> bool) (kv : bytes * SequenceState) : bool :=
  busy kv.1 || negb (is_spent kv.2).

Definition prune_spent (busy : bytes -> bool) (shard : gmap bytes SequenceState) (tracked : Z) :
    gmap bytes SequenceState * Z :=
  let kept := filter (fun kv => keeps_entry busy kv = true) shard in
  (kept, tracked - (Z.of_nat (size shard) - Z.of_nat (size kept))).

Definition set_shard (idx : nat) (shard : gmap bytes SequenceState) (tracked : Z) (e : Env St) : Env St :=
  mkEnv (mkSequenceAllocator (<[idx := shard]> (shards (alloc e))) tracked) (store e).

Definition entry_for (busy : bytes -> bool) (name : bytes) : M SequenceState :=
  fun e =>
    let a := alloc e in
    let idx := shard_index (length (shards a)) name in
    match shards a !! idx with
    | None => (Err (Panicked "index out of bounds"), e)
    | Some shard =>
        match shard !! name with
        | Some entry => (Ok entry, e)
        | None =>
            let add shard tracked :=
              (Ok empty, set_shard idx (<[name := empty]> shard) (tracked + 1) e) in
            if max_tracked_names limits <=? tracked_names a then
              let '(kept, tracked) := prune_spent busy shard (tracked_names a) in
              if max_tracked_names limits <=? tracked
              then (Err (Msg "sequence allocator is tracking its configured ceiling of names"),
                    set_shard idx kept tracked e)
              else add kept tracked
            else add shard (tracked_names a)
        end
    end.

(** [*state = ...] behind the entry's mutex. *)
Definition write_state (name : bytes) (s : SequenceState) : M unit :=
  se_modify (fun e =>
    mkEnv (mkSequenceAllocator
             (alter (fun shard => <[name := s]> shard)
                (shard_index (length (shards (alloc e))) name) (shards (alloc e)))
             (tracked_names (alloc e)))
          (store e)).

Definition claim_block (name : bytes) (reached block : Z) : M (Z * Z) :=
  first_owned ← se_lift (ok_or (Msg "sequences counter overflowed")
    (checked_sub_i64 reached block ≫= fun previous => checked_add_i64 previous 1));
  if 0 <? first_owned then mret (first_owned, reached)
  else
    correction ← se_lift (ok_or (Msg "sequences counter cannot be repaired")
      (checked_sub_i64 block reached));
    _ ← on_store (bump name correction);
    mret (1, block).

Definition reserve (busy : bytes -> bool) (name : bytes) (increment : Z) : M Z :=
  state ← entry_for busy name;
  match take_values increment state with
  | Some (start, state') => _ ← write_state name state'; mret start
  | None =>
      let block := Z.max increment (block_size limits) in
      _ ← on_store (bump name block);
      reached ← on_store (read name);
      '(first_owned, last_owned) ← claim_block name reached block;
      let claimed := mkSequenceState first_owned last_owned in
      _ ← write_state name claimed;
      match take_values increment claimed with
      | Some (start, state') => _ ← write_state name state'; mret start
      | None => se_fail (Msg "a freshly claimed block must cover the request that loaded it")
      end
  end.

Definition set (busy : bytes -> bool) (name : bytes) (value : Z) : M Z :=
  _ ← entry_for busy name;
  previous ← on_store (read name);
  delta ← se_lift (ok_or (Msg "sequences counter cannot move") (checked_sub_i64 value previous));
  _ ← (if negb (delta =? 0) then on_store (bump name delta) else mret tt);
  _ ← write_state name empty;
  mret previous.

Definition new (shard_count : nat) : SequenceAllocator :=
  mkSequenceAllocator (replicate (Nat.max shard_count 1) ∅) 0.

(** ** Histories *)

Inductive Event :=
| Reserve (busy : bytes -> bool) (name : bytes) (increment : Z)
| SetTo (busy : bytes -> bool) (name : bytes) (value : Z)
| Crash (shard_count : nat).

Definition exec (ev : Event) (e : Env St) : Env St * list Issued :=
  match ev with
  | Reserve busy name inc =>
      match reserve busy name inc e with
      | (Ok start, e') => (e', [(name, start, inc)])
      | (Err _, e') => (e', [])
      end
  | SetTo busy name value => ((set busy name value e).2, [])
  | Crash shard_count => (mkEnv (new shard_count) (store e), [])
  end.

Fixpoint history (events : list Event) (e : Env St) : Env St * list Issued :=
  match events with
  | [] => (e, [])
  | ev :: rest =>
      let '(e1, issued) := exec ev e in
      let '(e2, later) := history rest e1 in
      (e2, issued ++ later)
  end.

End Allocator.
