(* ===== verification/SequenceLaws.v ===== *)
(** * SequenceLaws: what a counter hands out

    For any store with [SequenceStoreLaws] (a counter row adds what a bump says, or, when the
    bump fails, may or may not have been changed): the values issued for a name only grow and
    never exceed the durable counter, through storage failures, crashes and evictions. The
    guarantee needs the counter to stay below [I64_MAX] and not to be set downwards; a
    downward [set] whose write fails after it was applied breaks it. *)

From stdpp Require Import strings.
From S2P Require Import Prelude TimeFrame CreditsBlob Aggregation Storage Sequence.

(** ** The payloads *)

Lemma take_drop_at (pre rest : bytes) :
  cursor_take (length pre) (cursor_new (pre ++ rest)) =
    Some (pre, mkCursor (pre ++ rest) (length pre)).
Proof.
  unfold cursor_take, cursor_new. simpl. rewrite length_app.
  destruct (_ <=? _)%nat eqn:E; [|apply Nat.leb_gt in E; lia].
  by rewrite drop_0, take_app_length.
Qed.

Lemma cursor_take_short n bs : (length bs < n)%nat -> cursor_take n (cursor_new bs) = None.
Proof.
  intros H. unfold cursor_take, cursor_new. simpl.
  destruct (_ <=? _)%nat eqn:E; [apply Nat.leb_le in E; lia|done].
Qed.

Lemma parse_counter_name_Ok bs name :
  parse_counter_name bs = Ok name <->
  name = bs /\ 1 <= zlen bs <= SEQUENCE_NAME_MAX /\ utf8_ok bs = true.
Proof.
  unfold parse_counter_name, SEQUENCE_NAME_MAX.
  destruct (Z.eqb_spec (zlen bs) 0); [split; [done|lia]|].
  destruct (Z.ltb_spec 128 (zlen bs)); [split; [done|lia]|].
  destruct (utf8_ok bs); split; try (intros [=]; subst; repeat split; try done; lia).
  - by intros (-> & _).
  - by intros (_ & _ & ?).
Qed.

Lemma cursor_split n bs :
  (n <= length bs)%nat ->
  cursor_take n (cursor_new bs) = Some (take n bs, mkCursor bs n).
Proof.
  intros H. rewrite <- (take_drop n bs) at 1. 
  rewrite <- (length_take_le bs n H) at 1. rewrite take_drop_at.
  by rewrite take_drop, length_take_le by done.
Qed.

(** A reservation is read back exactly as it was written: a payload is accepted if and
    only if it is a four-byte big-endian increment, not zero, followed by a name of 1 to 128
    bytes of well-formed UTF-8. *)
Theorem parse_reserve_exact payload r :
  bytes_ok payload ->
  parse_reserve payload = Ok r <->
  payload = be_bytes 4 (increment r) ++ res_name r /\ 1 <= increment r <= U32_MAX /\
  1 <= zlen (res_name r) <= SEQUENCE_NAME_MAX /\ utf8_ok (res_name r) = true.
Proof.
  intros Hok. destruct r as [name inc]. cbn [increment res_name]. unfold parse_reserve, cursor_u32, SEQUENCE_INCREMENT_SIZE.
  split.
  - destruct (decide (4 <= length payload)%nat) as [H4|H4];
      [|rewrite cursor_take_short by lia; done].
    rewrite cursor_split by done. cbn -[parse_counter_name of_be take drop].
    destruct (Z.eqb_spec (of_be (take 4 payload)) 0) as [|Hne]; [done|].
    unfold cursor_rest. cbn [at_ c_bytes]. intros (n & (-> & Hl & Hu)%parse_counter_name_Ok & [= <- <-])%result_bind_ok.
    pose proof (of_be_bound (take 4 payload)) as Hb. rewrite length_take_le in Hb by done.
    assert (bytes_ok (take 4 payload)) as Ht by by apply Forall_take.
    specialize (Hb Ht). change (256 ^ Z.of_nat 4) with 4294967296 in Hb.
    split; [|split; [widths; lia|done]].
    pose proof (be_bytes_of_be (take 4 payload) Ht) as E. rewrite length_take_le in E by done.
    transitivity (be_bytes 4 (of_be (take 4 payload)) ++ drop 4 payload); [|reflexivity].
    rewrite E. symmetry. apply take_drop.
  - intros (-> & Hi & Hl & Hu).
    pose proof (take_drop_at (be_bytes 4 inc) name) as E. rewrite length_be_bytes in E.
    rewrite E. cbn -[be_bytes of_be parse_counter_name take drop]. rewrite of_be_be_bytes_small by (change (256 ^ Z.of_nat 4) with 4294967296; widths; lia).
    destruct (Z.eqb_spec inc 0); [lia|]. unfold cursor_rest. cbn -[be_bytes of_be parse_counter_name take drop].
    rewrite drop_app_length' by by rewrite length_be_bytes.
    by rewrite (proj2 (parse_counter_name_Ok name name)).
Qed.

Lemma parse_reserve_exact_witness :
  bytes_ok [0; 0; 0; 7; 0x78; 0xC3; 0xB1] /\
  parse_reserve [0; 0; 0; 7; 0x78; 0xC3; 0xB1] = Ok (mkReserveRequest [0x78; 0xC3; 0xB1] 7).
Proof.
  assert (bytes_ok [0; 0; 0; 7; 0x78; 0xC3; 0xB1]) as Hok by solve_bytes.
  split; [exact Hok|]. apply (parse_reserve_exact _ (mkReserveRequest [0x78; 0xC3; 0xB1] 7) Hok).
  split; [reflexivity|]. split; [simpl; widths; lia|]. split; [by vm_compute|reflexivity].
Defined.

(** ** The store's contract *)

Class SequenceStoreLaws (St : Type) `{SequenceStore St} := {
  counter : St -> bytes -> Z;
  counter_i64 s n : in_i64 (counter s n);
  bump_exact s n by_ r s' :
    bump n by_ s = (r, s') ->
    (counter s' n = swrap 64 (counter s n + by_) \/ (r <> Ok tt /\ counter s' n = counter s n)) /\
    forall m, m <> n -> counter s' m = counter s m;
  read_exact s n r s' :
    read n s = (r, s') ->
    (forall m, counter s' m = counter s m) /\ forall v, r = Ok v -> v = counter s n;
}.

(** ** One counter *)

Definition last_of (x : Z * Z) : Z := x.1 + x.2 - 1.

(** The block, the durable value and what was issued so far. *)
Record counted (st : SequenceState) (v : Z) (issued : list (Z * Z)) : Prop := {
  cn_issued : Forall (fun x => 1 <= x.1 /\ 1 <= x.2 /\ last_of x <= v) issued;
  cn_block : next st <= end_ st ->
    1 <= next st /\ end_ st <= v /\ end_ st < I64_MAX /\ Forall (fun x => last_of x < next st) issued;
}.

Lemma counted_empty st v L : counted st v L -> counted empty v L.
Proof. intros C. split; [by apply (cn_issued st v L C)|]. simpl. lia. Qed.

Lemma counted_raise st v v' L : counted st v L -> v <= v' -> counted st v' L.
Proof.
  intros [Hi Hb] Hv. split.
  - eapply Forall_impl; [exact Hi|]. simpl. lia.
  - intros H. destruct (Hb H) as (? & ? & ? & ?). repeat split; try done; lia.
Qed.

(** A counter that is not positive has issued nothing and owns nothing. *)
Lemma counted_negative st v v' L : counted st v L -> v <= 0 -> L = [] /\ counted st v' L.
Proof.
  intros [Hi Hb] Hv. assert (L = []) as ->.
  { destruct L as [|x L]; [done|]. apply Forall_cons in Hi as [? _]. unfold last_of in *. lia. }
  split; [done|]. split; [done|]. intros H. destruct (Hb H) as (? & ? & ? & ?). lia.
Qed.

Lemma counted_take st v L inc start st' :
  counted st v L -> 1 <= inc -> take_values inc st = Some (start, st') ->
  counted st' v (L ++ [(start, inc)]) /\ Forall (fun x => last_of x < start) L.
Proof.
  intros [Hi Hb] Hinc. unfold take_values. intros (last & [-> Hr]%fits_Some & E)%bind_Some.
  destruct (end_ st <? next st + (inc - 1)) eqn:El; [done|]. injection E as <- <-. fw_bool.
  destruct Hb as (H1 & H2 & H3 & H4); [lia|]. split; [|done].
  rewrite swrap_i64_small by (widths; lia). split; simpl.
  - apply Forall_app. split; [done|]. apply Forall_singleton. unfold last_of. simpl. lia.
  - intros H. repeat split; try lia. apply Forall_app. split.
    + eapply Forall_impl; [exact H4|]. simpl. lia.
    + apply Forall_singleton. unfold last_of. simpl. lia.
Qed.

(** A fresh block above everything issued. *)
Lemma counted_block a v L :
  Forall (fun x => 1 <= x.1 /\ 1 <= x.2 /\ last_of x < a) L -> 1 <= a -> a - 1 <= v < I64_MAX ->
  counted (mkSequenceState a v) v L.
Proof.
  intros HL Ha Hv. split; simpl.
  - eapply Forall_impl; [exact HL|]. simpl. lia.
  - intros H. repeat split; try lia. eapply Forall_impl; [exact HL|]. simpl. lia.
Qed.

(** ** The allocator's map *)

Section Laws.
Context {St : Type} `{SS : SequenceStore St, SL : !SequenceStoreLaws St}.
Variable limits : SequenceLimits.
Variable hash : bytes -> Z.
Hypothesis block_u32 : 0 <= block_size limits <= U32_MAX.

Abbreviation Env := (Env St).

#[local] Arguments shard_index : simpl never.

Definition state_of (e : Env) (name : bytes) : SequenceState :=
  default empty (shards (alloc e) !! shard_index hash (length (shards (alloc e))) name ≫= (.!! name)).

Definition value_of (e : Env) (name : bytes) : Z := counter (store e) name.

(** What an operation on [name] may do to the rest: evict spent blocks. *)
Record others_kept (name : bytes) (e e' : Env) : Prop := {
  ok_shards : length (shards (alloc e')) = length (shards (alloc e));
  ok_values : forall m, m <> name -> value_of e' m = value_of e m;
  ok_states : forall m, m <> name -> state_of e' m = state_of e m \/ state_of e' m = empty;
}.

Lemma others_refl name e : others_kept name e e.
Proof. split; eauto. Qed.

Lemma others_trans name e1 e2 e3 : others_kept name e1 e2 -> others_kept name e2 e3 -> others_kept name e1 e3.
Proof.
  intros [H1 H2 H3] [K1 K2 K3]. split; [congruence| |].
  - intros m Hm. by rewrite K2, H2.
  - intros m Hm. destruct (K3 m Hm) as [->| ->]; eauto.
Qed.

Lemma shard_bound n name : (0 < n)%nat -> (shard_index hash n name < n)%nat.
Proof.
  intros Hn. unfold shard_index.
  pose proof (Z.mod_pos_bound (Z.shiftr (hash name) 32) (Z.of_nat n)). lia.
Qed.

(** The state of every name after one shard is replaced. *)
Lemma state_of_set_shard (e : Env) name shard' tracked m :
  (0 < length (shards (alloc e)))%nat ->
  state_of (set_shard (shard_index hash (length (shards (alloc e))) name) shard' tracked e) m =
    if (shard_index hash (length (shards (alloc e))) m =? shard_index hash (length (shards (alloc e))) name)%nat
    then default empty (shard' !! m) else state_of e m.
Proof.
  intros Hn. unfold state_of, set_shard. cbn [alloc shards]. rewrite length_insert.
  destruct (_ =? _)%nat eqn:E.
  - apply Nat.eqb_eq in E. rewrite E, list_lookup_insert_eq by by apply shard_bound. done.
  - apply Nat.eqb_neq in E. by rewrite list_lookup_insert_ne by done.
Qed.

Lemma state_of_write (e : Env) name st m :
  (0 < length (shards (alloc e)))%nat ->
  state_of (write_state hash name st e).2 m = if decide (m = name) then st else state_of e m.
Proof.
  intros Hn. unfold state_of, write_state, se_modify. cbn [alloc shards snd]. rewrite length_alter.
  destruct (lookup_lt_is_Some_2 (shards (alloc e)) (shard_index hash (length (shards (alloc e))) name))
    as [shard Hs]; [by apply shard_bound|].
  destruct (decide (shard_index hash (length (shards (alloc e))) m =
                    shard_index hash (length (shards (alloc e))) name)) as [E|E].
  - rewrite E, list_lookup_alter_eq, Hs. cbn [fmap option_fmap option_map mbind option_bind]. destruct (decide (m = name)) as [->|].
    + by rewrite lookup_insert_eq.
    + by rewrite lookup_insert_ne by done.
  - rewrite list_lookup_alter_ne by done. destruct (decide (m = name)) as [->|]; [done|done].
Qed.

Lemma write_others (e : Env) name st :
  (0 < length (shards (alloc e)))%nat -> others_kept name e (write_state hash name st e).2.
Proof.
  intros Hn. split; [cbn; by rewrite length_alter|done|].
  intros m Hm. rewrite state_of_write by done. rewrite decide_False by done. by left.
Qed.

(** What is filtered out was spent. *)
Lemma entry_for_spec busy name (e : Env) r e' :
  (0 < length (shards (alloc e)))%nat -> entry_for limits hash busy name e = (r, e') ->
  store e' = store e /\ others_kept name e e' /\
  (state_of e' name = state_of e name \/ state_of e' name = empty) /\
  (forall st, r = Ok st -> st = state_of e name /\ state_of e' name = st).
Proof.
  intros Hn. unfold entry_for.
  destruct (lookup_lt_is_Some_2 (shards (alloc e)) (shard_index hash (length (shards (alloc e))) name))
    as [shard Hs]; [by apply shard_bound|].
  rewrite Hs. assert (state_of e name = default empty (shard !! name)) as Hst
    by (unfold state_of; by rewrite Hs).
  assert (forall shard' tracked,
    (forall m, m <> name -> shard' !! m = shard !! m \/ shard' !! m = None) ->
    others_kept name e (set_shard (shard_index hash (length (shards (alloc e))) name) shard' tracked e)) as Hothers.
  { intros shard' tracked Hsub. split; [cbn; by rewrite length_insert|done|].
    intros m Hm. rewrite state_of_set_shard by done. destruct (_ =? _)%nat eqn:E; [|by left].
    apply Nat.eqb_eq in E. assert (state_of e m = default empty (shard !! m)) as ->
      by (unfold state_of; by rewrite E, Hs).
    destruct (Hsub m Hm) as [-> | ->]; [by left|by right]. }
  assert (forall shard' tracked,
    state_of (set_shard (shard_index hash (length (shards (alloc e))) name) shard' tracked e) name =
      default empty (shard' !! name)) as Hname.
  { intros shard' tracked. rewrite state_of_set_shard by done. by rewrite Nat.eqb_refl. }
  assert (forall (f : gmap bytes SequenceState), f ⊆ shard -> forall m, f !! m = shard !! m \/ f !! m = None) as Hf.
  { intros f Hf m. destruct (f !! m) as [st|] eqn:E; [|by right]. left.
    symmetry. by eapply lookup_weaken. }
  destruct (shard !! name) as [entry|] eqn:En; cbn in Hst.
  { intros [= <- <-]. split; [done|]. split; [apply others_refl|]. split; [by left|].
    intros st [= <-]. by rewrite Hst. }
  unfold prune_spent. set (kept := filter _ shard).
  assert (kept ⊆ shard) as Hkept by apply map_filter_subseteq.
  assert (kept !! name = None) as Hkn.
  { destruct (Hf kept Hkept name) as [->|]; done. }
  assert (forall m, m <> name -> forall st, <[name:=st]> kept !! m = shard !! m \/ <[name:=st]> kept !! m = None) as Hins.
  { intros m Hm st. rewrite lookup_insert_ne by done. by apply Hf. }
  repeat case_match; intros [= <- <-]; (split; [done|]); rewrite ?Hname, ?lookup_insert_eq, ?Hkn; cbn [default]; rewrite ?Hst.
  - split; [apply Hothers; auto|]. split; [by left|]. done.
  - split; [apply Hothers; auto|]. split; [by left|]. by intros st [= <-].
  - split; [apply Hothers; intros m Hm; rewrite lookup_insert_ne by done; by left|].
    split; [by left|]. by intros st [= <-].
Qed.

(** ** The operations, on their own counter *)

Definition holds_counted (name : bytes) (L : list (Z * Z)) (e : Env) : Prop :=
  counted (state_of e name) (value_of e name) L.

Lemma on_store_others {A} name (m : SE St anyhow A) (e : Env) :
  (forall n, n <> name -> counter (m (store e)).2 n = counter (store e) n) ->
  others_kept name e (on_store m e).2.
Proof.
  intros H. unfold on_store. destruct (m (store e)) as [r s'] eqn:E. simpl in *.
  split; [done|exact H|by left].
Qed.

(** A bump by a nonnegative amount that does not overflow. *)
Lemma bump_up name by_ (e : Env) r e' L :
  on_store (bump name by_) e = (r, e') -> 0 <= by_ -> value_of e name + by_ <= I64_MAX ->
  holds_counted name L e ->
  others_kept name e e' /\ holds_counted name L e' /\ state_of e' name = state_of e name /\
  (r = Ok tt -> value_of e' name = value_of e name + by_).
Proof.
  intros H Hby Hmax HC. unfold on_store in H.
  destruct (bump name by_ (store e)) as [r0 s'] eqn:E. injection H as <- <-.
  destruct (bump_exact _ _ _ _ _ E) as [Hv Hother].
  pose proof (counter_i64 (store e) name) as Hr. unfold value_of in *.
  rewrite swrap_i64_small in Hv by (widths; lia).
  assert (others_kept name e (mkEnv (alloc e) s')) as Ho by (split; [done|exact Hother|by left]).
  split; [done|]. unfold holds_counted, value_of in *. cbn [store]. split; [|split; [done|]].
  - eapply counted_raise; [exact HC|]. destruct Hv as [->|[_ ->]]; lia.
  - intros ->. destruct Hv as [->|[? _]]; done.
Qed.

Lemma read_same name (e : Env) r e' :
  on_store (read name) e = (r, e') ->
  others_kept name e e' /\ state_of e' name = state_of e name /\ value_of e' name = value_of e name /\
  (forall v, r = Ok v -> v = value_of e name).
Proof.
  intros H. unfold on_store in H. destruct (read name (store e)) as [r0 s'] eqn:E.
  injection H as <- <-. destruct (read_exact _ _ _ _ E) as [Hsame Hv].
  split; [split; [done|by intros; apply Hsame|by left]|]. split; [done|]. split; [apply Hsame|exact Hv].
Qed.

Lemma others_length name (e e' : Env) :
  others_kept name e e' -> (0 < length (shards (alloc e)))%nat -> (0 < length (shards (alloc e')))%nat.
Proof. intros [H _ _]. lia. Qed.

(** A store call on this counter that failed. *)
Definition store_failed (name : bytes) (err : anyhow) : Prop :=
  (exists by_ s s', bump name by_ s = (Err err, s')) \/ (exists s s', read name s = (Err err, s')).

Lemma on_store_failed {A} name (m : SE St anyhow A) (e e' : Env) err :
  on_store m e = (Err err, e') -> (forall s s', m s = (Err err, s') -> store_failed name err) ->
  store_failed name err.
Proof. unfold on_store. destruct (m (store e)) as [r s'] eqn:E. intros [= -> _] H. by eapply H. Qed.

(** What [claim_block] answers is a block above everything issued, and durable. *)
Lemma claim_spec name block (e : Env) r e' L :
  claim_block name (value_of e name) block e = (r, e') ->
  0 <= block <= U32_MAX -> I64_MIN <= value_of e name - block -> value_of e name < I64_MAX ->
  holds_counted name L e ->
  counted (state_of e name) (value_of e name - block) L ->
  others_kept name e e' /\ holds_counted name L e' /\
  (forall a b, r = Ok (a, b) ->
     a = Z.max 0 (value_of e name - block) + 1 /\ b = Z.max 0 (value_of e name - block) + block /\
     value_of e' name = b /\ counted (mkSequenceState a b) b L) /\
  (forall err, r = Err err -> store_failed name err \/ value_of e name - block = I64_MIN).
Proof.
  intros H Hblock Hlo Hhi HC Hold. unfold claim_block in H. set (v := value_of e name) in *.
  assert (checked_sub_i64 v block ≫= (fun previous => checked_add_i64 previous 1) = Some (v - block + 1)) as E.
  { unfold checked_sub_i64, checked_add_i64.
    rewrite (proj2 (fits_Some _ _ _ (v - block))) by (widths; lia). simpl.
    apply fits_Some. widths. lia. }
  rewrite E in H. cbn [ok_or] in H. unfold se_lift, mbind, SE_bind, mret, SE_ret in H.
  destruct (Z.ltb_spec 0 (v - block + 1)) as [Hpos|Hneg].
  - injection H as <- <-. split; [apply others_refl|]. split; [done|].
    split; [|done]. intros a b [= <- <-]. rewrite Z.max_r by lia. split; [lia|]. split; [lia|]. split; [done|].
    eapply counted_block; [|lia|lia].
    eapply Forall_impl; [exact (cn_issued _ _ _ Hold)|]. simpl. lia.
  - destruct (counted_negative _ _ 0 _ Hold) as [-> _]; [lia|].
    unfold checked_sub_i64 in H. destruct (fits I64_MIN I64_MAX (block - v)) as [c|] eqn:Ef.
    + apply fits_Some in Ef as [-> Hc]. cbn [ok_or] in H.
      destruct (on_store (bump name (block - v)) e) as [[[]|err] e1] eqn:Eb;
        (destruct (bump_up name (block - v) e _ e1 [] Eb) as (Ho & HC' & Hs & Hv);
         [lia|unfold v in *; widths; lia|done|]); injection H as <- <-.
      * split; [done|]. split; [done|]. split; [|done]. intros a b [= <- <-].
        rewrite Z.max_l by lia. rewrite (Hv eq_refl). split; [lia|]. split; [lia|]. split; [unfold v; lia|].
        eapply counted_block; [by apply Forall_nil|lia|widths; lia].
      * split; [done|]. split; [done|]. split; [done|]. intros err' [= <-]. left.
        eapply on_store_failed; [exact Eb|]. intros s s' ?. left. by exists (block - v), s, s'.
    + injection H as <- <-. split; [apply others_refl|]. split; [done|]. split; [done|].
      intros err _. right. apply fits_None in Ef. widths. lia.
Qed.

Lemma ret_run {A} (a : A) (e : Env) r e' : (mret a : SE Env anyhow A) e = (r, e') -> r = Ok a /\ e' = e.
Proof. by intros [-> ->]%pair_equal_spec. Qed.

Lemma lift_run {A} (a : result anyhow A) (e : Env) r e' : se_lift a e = (r, e') -> r = a /\ e' = e.
Proof. by intros [-> ->]%pair_equal_spec. Qed.

Lemma bind_split {A B} (m : SE Env anyhow A) (f : A -> SE Env anyhow B) e r e' :
  (m ≫= f) e = (r, e') ->
  exists r1 e1, m e = (r1, e1) /\
    match r1 with Ok a => f a e1 = (r, e') | Err err => r = Err err /\ e' = e1 end.
Proof.
  intros [(a & e1 & Hm & Hf)|(err & Hm & ->)]%se_bind_run; [by exists (Ok a), e1|by exists (Err err), e'].
Qed.

Lemma write_run name st (e : Env) r e' :
  write_state hash name st e = (r, e') -> r = Ok tt /\ e' = (write_state hash name st e).2.
Proof. unfold write_state, se_modify. intros [Hr He]%pair_equal_spec. by split. Qed.

Lemma write_counted name st (e : Env) L :
  (0 < length (shards (alloc e)))%nat -> counted st (value_of e name) L ->
  others_kept name e (write_state hash name st e).2 /\
  holds_counted name L (write_state hash name st e).2 /\
  value_of (write_state hash name st e).2 name = value_of e name /\
  state_of (write_state hash name st e).2 name = st.
Proof.
  intros Hn HC. split; [by apply write_others|]. unfold holds_counted.
  rewrite state_of_write, decide_True by done. done.
Qed.

(** Taking from a block in memory, and writing it back. *)
Lemma take_spec name inc st (e : Env) r e' L :
  (0 < length (shards (alloc e)))%nat -> 1 <= inc -> counted st (value_of e name) L ->
  forall start st', take_values inc st = Some (start, st') ->
  (_ ← write_state hash name st'; mret start) e = (r, e') ->
  others_kept name e e' /\ value_of e' name = value_of e name /\ r = Ok start /\
  start = next st /\ holds_counted name (L ++ [(start, inc)]) e' /\ Forall (fun x => last_of x < start) L.
Proof.
  intros Hn Hinc HC start st' Et H.
  destruct (counted_take st (value_of e name) L inc start st' HC Hinc Et) as [HC' Hbelow].
  destruct (write_counted name st' e _ Hn HC') as (Ho & Hc & Hv & _).
  apply se_bind_run in H as [([] & e1 & [_ ->]%write_run & H)|(err & [? _]%write_run & ->)]; [|done].
  apply ret_run in H as [-> ->]. repeat (split; [done|]).
  unfold take_values in Et. apply bind_Some in Et as (? & _ & Et). split; [by repeat case_match; simplify_eq|done].
Qed.

(** The block in memory covers the request. *)
Definition covers (st : SequenceState) (inc : Z) : bool := next st + inc - 1 <=? end_ st.

Lemma take_covers st v L inc :
  counted st v L -> 1 <= inc -> covers st inc = bool_decide (is_Some (take_values inc st)).
Proof.
  intros C Hinc. unfold covers, take_values, checked_add_i64.
  destruct (Z.leb_spec (next st + inc - 1) (end_ st)) as [Hle|Hgt].
  - destruct (cn_block _ _ _ C) as (H1 & H2 & H3 & _); [lia|].
    rewrite (proj2 (fits_Some _ _ _ (next st + (inc - 1)))) by (widths; lia). simpl.
    destruct (Z.ltb_spec (end_ st) (next st + (inc - 1))); [lia|]. symmetry. apply bool_decide_eq_true. eauto.
  - symmetry. apply bool_decide_eq_false. intros [x (l & [-> _]%fits_Some & E)%bind_Some].
    destruct (Z.ltb_spec (end_ st) (next st + (inc - 1))); [done|lia].
Qed.

(** A freshly claimed block is kept, and serves the request that loaded it. *)
Lemma serve_claimed name inc first last (e : Env) r e' L :
  (0 < length (shards (alloc e)))%nat -> 1 <= inc -> first + inc - 1 <= last ->
  counted (mkSequenceState first last) (value_of e name) L ->
  (let claimed := mkSequenceState first last in
   _ ← write_state hash name claimed;
   match take_values inc claimed with
   | Some (start, state') => _ ← write_state hash name state'; mret start
   | None => se_fail (Msg "a freshly claimed block must cover the request that loaded it")
   end) e = (r, e') ->
  others_kept name e e' /\ r = Ok first /\ value_of e' name = value_of e name /\
  holds_counted name (L ++ [(first, inc)]) e' /\ Forall (fun x => last_of x < first) L.
Proof.
  intros Hn Hinc Hcov HC H. cbv zeta in H.
  destruct (write_counted name _ e L Hn HC) as (Ho & HC' & Hv & Hs).
  apply se_bind_run in H as [([] & e1 & [_ ->]%write_run & H)|(err & [? _]%write_run & _)]; [|done].
  pose proof (others_length _ _ _ Ho Hn) as Hn1.
  destruct (take_values inc (mkSequenceState first last)) as [[start st']|] eqn:Et.
  - rewrite <- Hv in HC.
    destruct (take_spec name inc _ _ r e' L Hn1 Hinc HC start st' Et H) as (Ho' & Hv' & -> & -> & ? & ?).
    cbn [next] in *. split; [by eapply others_trans|]. rewrite Hv', Hv. done.
  - exfalso. pose proof (take_covers _ _ _ inc HC Hinc) as Hc. rewrite Et in Hc.
    unfold covers in Hc. simpl in Hc. apply Z.leb_gt in Hc. lia.
Qed.

Lemma reserve_spec busy name inc (e : Env) r e' L :
  (0 < length (shards (alloc e)))%nat -> 1 <= inc <= U32_MAX ->
  value_of e name + Z.max inc (block_size limits) < I64_MAX ->
  holds_counted name L e ->
  reserve limits hash busy name inc e = (r, e') ->
  others_kept name e e' /\
  match r with
  | Ok start =>
      start = (if covers (state_of e name) inc then next (state_of e name)
               else Z.max 0 (value_of e name) + 1) /\
      value_of e' name = (if covers (state_of e name) inc then value_of e name
                          else Z.max 0 (value_of e name) + Z.max inc (block_size limits)) /\
      holds_counted name (L ++ [(start, inc)]) e' /\ Forall (fun x => last_of x < start) L
  | Err err =>
      holds_counted name L e' /\
      (store_failed name err \/ value_of e name = I64_MIN \/
       exists e1, entry_for limits hash busy name e = (Err err, e1))
  end.
Proof.
  intros Hn Hinc Hmax HC H. unfold reserve in H.
  apply bind_split in H as (r1 & e1 & He & H).
  destruct (entry_for_spec _ _ _ _ _ Hn He) as (Hs & Ho1 & Hst & Hok).
  assert (value_of e1 name = value_of e name) as Hv1 by (unfold value_of; by rewrite Hs).
  assert (holds_counted name L e1) as HC1 by
    (unfold holds_counted; rewrite Hv1; destruct Hst as [-> | ->]; [done|by eapply counted_empty]).
  destruct r1 as [st|err]; [|destruct H as [-> ->]; by eauto 10].
  destruct (Hok st eq_refl) as [-> Hst1]. rewrite (take_covers _ _ _ inc HC) by lia. set (st := state_of e name) in *. pose proof (others_length _ _ _ Ho1 Hn) as Hn1.
  destruct (take_values inc st) as [[start st']|] eqn:Et.
  { assert (counted st (value_of e1 name) L) as HCst by (rewrite <- Hst1; exact HC1).
    destruct (take_spec name inc st e1 r e' L Hn1 (proj1 Hinc) HCst start st' Et H)
      as (Ho & Hv & -> & -> & ? & ?). split; [by eapply others_trans|]. rewrite Hv, Hv1. done. }
  set (block := Z.max inc (block_size limits)) in *.
  assert (0 <= block <= U32_MAX) as Hblock by (unfold block; lia).
  apply bind_split in H as (r2 & e2 & Hb & H).
  destruct (bump_up name block e1 _ _ L Hb) as (Ho2 & HC2 & Hs2 & Hv2); [lia|lia|done|].
  destruct r2 as [[]|err].
  2: { destruct H as [-> ->]. split; [by eapply others_trans|]. split; [done|]. left.
       eapply on_store_failed; [exact Hb|]. intros s s' ?. left. by exists block, s, s'. }
  specialize (Hv2 eq_refl). pose proof (others_length _ _ _ Ho2 Hn1) as Hn2.
  pose proof (others_trans _ _ _ _ Ho1 Ho2) as Ho12.
  apply bind_split in H as (r3 & e3 & Hr & H).
  destruct (read_same name e2 _ _ Hr) as (Ho3 & Hs3 & Hv3 & Hreached).
  pose proof (others_trans _ _ _ _ Ho12 Ho3) as Ho13.
  pose proof (others_length _ _ _ Ho3 Hn2) as Hn3.
  assert (holds_counted name L e3) as HC3 by (unfold holds_counted; by rewrite Hs3, Hv3).
  destruct r3 as [reached|err].
  2: { destruct H as [-> ->]. split; [done|]. split; [done|]. left.
       eapply on_store_failed; [exact Hr|]. intros s s' ?. right. by exists s, s'. }
  rewrite (Hreached reached eq_refl), <- Hv3 in H.
  pose proof (counter_i64 (store e) name) as Hrange. fold (value_of e name) in Hrange.
  assert (value_of e3 name - block = value_of e name) as Hback by lia.
  assert (counted (state_of e3 name) (value_of e3 name - block) L) as Hold by
    (rewrite Hs3, Hs2, Hback, <- Hv1; exact HC1).
  apply bind_split in H as (r4 & e4 & Hc & H).
  destruct (claim_spec name block e3 _ _ L Hc) as (Ho4 & HC4 & Hclaim & Herr);
    [done|widths; lia|widths; lia|done|done|].
  pose proof (others_trans _ _ _ _ Ho13 Ho4) as Ho14.
  destruct r4 as [[first_owned last_owned]|err].
  2: { destruct H as [-> ->]. split; [done|]. split; [done|].
       destruct (Herr _ eq_refl); [by left|right; left; lia]. }
  destruct (Hclaim _ _ eq_refl) as (Hfirst & Hlast & Hv4 & HC5).
  assert (counted (mkSequenceState first_owned last_owned) (value_of e4 name) L) as HC5' by
    (rewrite Hv4; exact HC5). pose proof (others_length _ _ _ Ho4 Hn3) as Hn4.
  destruct (serve_claimed name inc first_owned last_owned e4 r e' L Hn4 (proj1 Hinc) ltac:(lia) HC5' H)
    as (Ho5 & -> & Hv5 & HC6 & Hbelow).
  split; [by eapply others_trans|]. rewrite Hv5, Hv4, Hlast. rewrite Hfirst in *. rewrite Hback in *. done.
Qed.

(** A counter set to a value at or above the one it has. *)
Lemma set_spec busy name value (e : Env) r e' L :
  (0 < length (shards (alloc e)))%nat -> value_of e name <= value <= I64_MAX ->
  holds_counted name L e -> set limits hash busy name value e = (r, e') ->
  others_kept name e e' /\ holds_counted name L e' /\
  (forall previous, r = Ok previous ->
     previous = value_of e name /\ value_of e' name = value /\ state_of e' name = empty).
Proof.
  intros Hn Hvalue HC H. unfold set in H.
  apply bind_split in H as (r1 & e1 & He & H).
  destruct (entry_for_spec _ _ _ _ _ Hn He) as (Hs & Ho1 & Hst & Hok).
  assert (value_of e1 name = value_of e name) as Hv1 by (unfold value_of; by rewrite Hs).
  assert (holds_counted name L e1) as HC1 by
    (unfold holds_counted; rewrite Hv1; destruct Hst as [-> | ->]; [done|by eapply counted_empty]).
  destruct r1 as [st|err]; [|by destruct H as [-> ->]].
  pose proof (others_length _ _ _ Ho1 Hn) as Hn1.
  apply bind_split in H as (r2 & e2 & Hr & H).
  destruct (read_same name e1 _ _ Hr) as (Ho2 & Hs2 & Hv2 & Hprev).
  pose proof (others_trans _ _ _ _ Ho1 Ho2) as Ho12.
  assert (holds_counted name L e2) as HC2 by (unfold holds_counted; by rewrite Hs2, Hv2).
  destruct r2 as [previous|err]; [|by destruct H as [-> ->]].
  rewrite (Hprev _ eq_refl), Hv1 in *. pose proof (others_length _ _ _ Ho2 Hn1) as Hn2.
  apply bind_split in H as (rd & e3 & [Hd ->]%lift_run & H).
  destruct rd as [delta|err]; [|by destruct H as [-> ->]]. symmetry in Hd. apply ok_or_Ok, fits_Some in Hd as [-> Hd].
  assert (exists r3 e3, (if negb (value - value_of e name =? 0) then on_store (bump name (value - value_of e name)) else mret tt) e2 = (r3, e3) /\
    others_kept name e2 e3 /\ holds_counted name L e3 /\ (r3 = Ok tt -> value_of e3 name = value)) as
    (r3 & e3 & Hb & Ho3 & HC3 & Hv3).
  { destruct (Z.eqb_spec (value - value_of e name) 0) as [E|E]; simpl negb; cbn iota.
    - exists (Ok tt), e2. split; [done|]. split; [apply others_refl|]. split; [done|]. lia.
    - destruct (on_store (bump name (value - value_of e name)) e2) as [r3 e3] eqn:Eb.
      destruct (bump_up name _ e2 _ _ L Eb) as (? & ? & _ & Hv); [lia|lia|done|].
      exists r3, e3. split; [done|]. split; [done|]. split; [done|]. intros ->. rewrite Hv by done. lia. }
  pose proof (others_trans _ _ _ _ Ho12 Ho3) as Ho13. pose proof (others_length _ _ _ Ho3 Hn2) as Hn3.
  apply bind_split in H as (r4 & e4 & Hb' & H). rewrite Hb in Hb'.
  apply pair_equal_spec in Hb' as [<- <-]. destruct r3 as [[]|err]; [|by destruct H as [-> ->]].
  destruct (write_counted name empty e3 L Hn3 (counted_empty _ _ _ HC3)) as (Ho4 & HC4 & Hv4 & Hs4).
  apply se_bind_run in H as [([] & e4 & [_ ->]%write_run & H)|(err & [? _]%write_run & _)]; [|done].
  apply ret_run in H as [-> ->]. split; [by eapply others_trans|]. split; [done|].
  intros p [= <-]. split; [done|]. split; [|done]. rewrite Hv4. by apply Hv3.
Qed.

(** ** Histories *)

(** What was issued for one name, oldest first. *)
Definition issued_of (name : bytes) (log : list Issued) : list (Z * Z) :=
  (fun x => (x.1.2, x.2)) <$> filter (fun x => x.1.1 = name) log.

Definition Inv (e : Env) (log : list Issued) : Prop :=
  (0 < length (shards (alloc e)))%nat /\ forall name, holds_counted name (issued_of name log) e.

(** What the guarantee asks of an event: widths, room below [I64_MAX], and no set downwards. *)
Definition event_ok (ev : Event) (e : Env) : Prop :=
  match ev with
  | Reserve _ name inc =>
      1 <= inc <= U32_MAX /\ value_of e name + Z.max inc (block_size limits) < I64_MAX
  | SetTo _ name value => value_of e name <= value <= I64_MAX
  | Crash _ => True
  end.

Fixpoint history_ok (events : list Event) (e : Env) : Prop :=
  match events with
  | [] => True
  | ev :: rest => event_ok ev e /\ history_ok rest (exec limits hash ev e).1
  end.

Lemma issued_of_app name l1 l2 : issued_of name (l1 ++ l2) = issued_of name l1 ++ issued_of name l2.
Proof. unfold issued_of. by rewrite filter_app, fmap_app. Qed.

Lemma issued_of_one name n a k : issued_of name [(n, a, k)] = if decide (n = name) then [(a, k)] else [].
Proof. unfold issued_of. rewrite filter_cons. cbn [fst snd]. case_decide; done. Qed.

Lemma elem_issued name a k log : (name, a, k) ∈ log <-> (a, k) ∈ issued_of name log.
Proof.
  unfold issued_of. rewrite list_elem_of_fmap. setoid_rewrite list_elem_of_filter. split.
  - intros Hin. by exists (name, a, k).
  - intros ([[n a'] k'] & [= -> ->] & <- & Hin). done.
Qed.

Lemma state_of_new n s m : state_of (mkEnv (new n) s) m = empty.
Proof.
  unfold state_of, new. cbn [alloc shards]. rewrite length_replicate.
  rewrite lookup_replicate_2 by (apply shard_bound; lia). cbn. by rewrite lookup_empty.
Qed.

Lemma others_counted name (e e' : Env) m L :
  others_kept name e e' -> m <> name -> holds_counted m L e -> holds_counted m L e'.
Proof.
  intros [_ Hv Hs] Hm HC. unfold holds_counted in *. rewrite (Hv m Hm).
  destruct (Hs m Hm) as [-> | ->]; [done|by eapply counted_empty].
Qed.

Lemma exec_inv ev (e e' : Env) log issued :
  Inv e log -> event_ok ev e -> exec limits hash ev e = (e', issued) ->
  Inv e' (log ++ issued) /\
  forall name a k b l, (name, a, k) ∈ issued -> (name, b, l) ∈ log -> b + l - 1 < a.
Proof.
  intros [Hn HI] Hok H. destruct ev as [busy name inc|busy name value|n]; simpl in Hok, H.
  - destruct (reserve limits hash busy name inc e) as [r e1] eqn:E.
    destruct (reserve_spec busy name inc e r e1 _ Hn (proj1 Hok) (proj2 Hok) (HI name) E) as [Ho Hr].
    assert (Inv e1 log \/ True) as _ by tauto.
    destruct r as [start|err]; apply pair_equal_spec in H as [<- <-].
    + destruct Hr as (_ & _ & HC & Hbelow). split; [split; [by eapply others_length|]|].
      * intros m. rewrite issued_of_app, issued_of_one. case_decide as Hm; [by subst m|].
        rewrite app_nil_r. eapply others_counted; [exact Ho|congruence|apply HI].
      * intros m a k b l [= -> -> ->]%list_elem_of_singleton Hin%elem_issued.
        by apply (proj1 (Forall_forall _ _) Hbelow (b, l)).
    + rewrite app_nil_r. split; [split; [by eapply others_length|]|by intros ? ? ? ? ? ?%not_elem_of_nil].
      intros m. destruct (decide (m = name)) as [->|Hm]; [apply Hr|].
      eapply others_counted; [exact Ho|done|apply HI].
  - destruct (set limits hash busy name value e) as [r e1] eqn:E.
    apply pair_equal_spec in H as [<- <-]. cbn [snd].
    destruct (set_spec busy name value e r e1 _ Hn Hok (HI name) E) as (Ho & HC & _).
    rewrite app_nil_r. split; [split; [by eapply others_length|]|by intros ? ? ? ? ? ?%not_elem_of_nil].
    intros m. destruct (decide (m = name)) as [->|Hm]; [done|].
    eapply others_counted; [exact Ho|done|apply HI].
  - apply pair_equal_spec in H as [<- <-]. rewrite app_nil_r.
    split; [split; [cbn; rewrite length_replicate; lia|]|by intros ? ? ? ? ? ?%not_elem_of_nil].
    intros m. unfold holds_counted. rewrite state_of_new. eapply counted_empty. apply HI.
Qed.

Lemma history_inv events : forall (e e' : Env) log issued,
  Inv e log -> history_ok events e -> history limits hash events e = (e', issued) ->
  Inv e' (log ++ issued) /\
  (forall name a k b l, (name, a, k) ∈ issued -> (name, b, l) ∈ log -> b + l - 1 < a) /\
  (forall i j name a k b l, (i < j)%nat -> issued !! i = Some (name, a, k) ->
     issued !! j = Some (name, b, l) -> a + k - 1 < b).
Proof.
  induction events as [|ev rest IH]; intros e e' log issued HI Hok H; simpl in H.
  { apply pair_equal_spec in H as [<- <-]. rewrite app_nil_r. split; [done|]. split; [|done].
    by intros ? ? ? ? ? ?%not_elem_of_nil. }
  destruct Hok as [Hev Hrest]. destruct (exec limits hash ev e) as [e1 first] eqn:E1.
  destruct (history limits hash rest e1) as [e2 later] eqn:E2.
  apply pair_equal_spec in H as [<- <-]. cbn [fst] in Hrest.
  destruct (exec_inv ev e e1 log first HI Hev E1) as [HI1 Hnew1].
  destruct (IH e1 e2 (log ++ first) later HI1 Hrest E2) as (HI2 & Hnew2 & Hord2).
  assert (length first <= 1)%nat as Hone.
  { destruct ev; simpl in E1; repeat case_match; apply pair_equal_spec in E1 as [_ <-]; simpl; lia. }
  split; [by rewrite app_assoc|]. split.
  - intros name a k b l [Hin|Hin]%elem_of_app Hlog; [by eapply Hnew1|].
    eapply (Hnew2 name a k b l Hin). apply elem_of_app. by left.
  - intros i j name a k b l Hij Hi Hj. apply lookup_app_Some in Hi, Hj.
    destruct Hi as [Hi|[Hli Hi]], Hj as [Hj|[Hlj Hj]].
    + apply lookup_lt_Some in Hi, Hj. lia.
    + eapply (Hnew2 name b l a k); [by eapply list_elem_of_lookup_2|].
      apply elem_of_app. right. by eapply list_elem_of_lookup_2.
    + apply lookup_lt_Some in Hj. lia.
    + eapply (Hord2 (i - length first)%nat (j - length first)%nat); [lia|done|done].
Qed.


(** C24: a reservation below the ceiling is served, from the block in memory when the block
    covers it and otherwise from one past the durable counter (past zero, when the counter was
    driven negative), and the counter is moved by exactly one block; it fails only when a store
    call fails, when too many names are tracked, or at [I64_MIN], which no correction can
    express. *)
Theorem reserve_exact busy name inc (e e' : Env) r log :
  Inv e log -> 1 <= inc <= U32_MAX -> value_of e name + Z.max inc (block_size limits) < I64_MAX ->
  reserve limits hash busy name inc e = (r, e') ->
  match r with
  | Ok start =>
      start = (if covers (state_of e name) inc then next (state_of e name)
               else Z.max 0 (value_of e name) + 1) /\
      value_of e' name = (if covers (state_of e name) inc then value_of e name
                          else Z.max 0 (value_of e name) + Z.max inc (block_size limits))
  | Err err =>
      store_failed name err \/ value_of e name = I64_MIN \/
      exists e1, entry_for limits hash busy name e = (Err err, e1)
  end.
Proof.
  intros [Hn HI] Hinc Hmax H.
  destruct (reserve_spec busy name inc e r e' _ Hn Hinc Hmax (HI name) H) as [_ Hr].
  destruct r; tauto.
Qed.

End Laws.

(** ** A store in memory, with scripted faults *)

Module Rows.

(** A call may fail before it acts or after it acted. *)
Inductive Fault := NoFault | Before | After.

Record T := mk { rows : gmap bytes Z; faults : list Fault }.

Definition row (s : T) (name : bytes) : Z := swrap 64 (default 0 (rows s !! name)).

Definition act {A : Type} (write : gmap bytes Z -> gmap bytes Z) (a : A) : SE T anyhow A := fun s =>
  let down := Err (Msg "storage is down") in
  match faults s with
  | Before :: rest => (down, mk (rows s) rest)
  | After :: rest => (down, mk (write (rows s)) rest)
  | _ :: rest => (Ok a, mk (write (rows s)) rest)
  | [] => (Ok a, mk (write (rows s)) [])
  end.

#[global] Instance rows_store : SequenceStore T := {
  bump name by_ := fun s => act (fun m => <[name := swrap 64 (row s name + by_)]> m) tt s;
  read name := fun s => act id (row s name) s;
}.

#[global] Instance rows_laws : SequenceStoreLaws T.
Proof.
  refine {| counter := row |}.
  - intros s n. apply swrap_i64.
  - intros s n by_ r s' H. cbn in H. unfold act in H.
    assert (forall f, row (mk (<[n:=swrap 64 (row s n + by_)]> (rows s)) f) n = swrap 64 (row s n + by_)) as Hset.
    { intros f. unfold row at 1. cbn [rows]. rewrite lookup_insert_eq. cbn [default].
      apply swrap_i64_small, swrap_i64. }
    assert (forall f m, m <> n -> row (mk (<[n:=swrap 64 (row s n + by_)]> (rows s)) f) m = row s m) as Hother.
    { intros f m Hm. unfold row. cbn [rows]. by rewrite lookup_insert_ne by done. }
    destruct (faults s) as [|[] rest]; apply pair_equal_spec in H as [<- <-];
      (split; [|by intros; rewrite ?Hother]); first [by left; rewrite Hset|by right].
  - intros s n r s' H. cbn in H. unfold act in H.
    destruct (faults s) as [|[] rest]; apply pair_equal_spec in H as [<- <-]; split; try done;
      by intros v [= <-].
Defined.

Definition limits : SequenceLimits := mkSequenceLimits 10 100.
Definition hash (name : bytes) : Z := of_be name.
Definition idle (name : bytes) : bool := false.
Definition x : bytes := [0x78].
Definition y : bytes := [0x79].

(** A history with a failing write, a crash and two names. *)
Definition events : list Event :=
  [Reserve idle x 3; Reserve idle y 1; Reserve idle x 9; Crash 2; Reserve idle x 1].
Definition start : Env T := mkEnv (new 4) (mk ∅ [NoFault; NoFault; NoFault; NoFault; After; NoFault]).
Definition log : list Issued := [(x, 1, 3); (y, 1, 1); (x, 21, 1)].

Definition logged (evs : list Event) (e : Env T) : list Issued := (history limits hash evs e).2.


(** A reservation wider than the block, after another task drove the counter negative. *)
Definition negative : Env T := mkEnv (new 4) (mk {[x := -7]} []).

Lemma reserve_exact_witness :
  exists e', reserve limits hash idle x 12 negative = (Ok 1, e') /\ value_of e' x = 12.
Proof.
  assert (0 <= block_size limits <= U32_MAX) as Hb by (simpl; widths; lia).
  assert (Inv hash negative []) as HI.
  { split; [simpl; lia|]. intros m. unfold holds_counted, negative. rewrite state_of_new.
    split; [apply Forall_nil_2|simpl; lia]. }
  destruct (reserve limits hash idle x 12 negative) as [r e'] eqn:H.
  exists e'. assert (r = (reserve limits hash idle x 12 negative).1) as Hr by by rewrite H.
  pose proof (reserve_exact limits hash Hb idle x 12 negative e' r [] HI) as K.
  assert (r = Ok 1) as -> by (rewrite Hr; vm_compute; reflexivity).
  destruct K as [_ ->]; [widths; lia|vm_compute; reflexivity|exact H|].
  split; [reflexivity|vm_compute; reflexivity].
Defined.

(** [set] drops the block only after its write succeeded. When the write fails after it
    was applied, the counter has moved down and the block derived from the old value is still
    served: value 2 is issued after the failed set, and once more by the next block. *)
Theorem failed_set_repeats :
  exists s : T, logged [Reserve idle x 1; SetTo idle x 0; Reserve idle x 1; Reserve idle x 20]
      (mkEnv (new 4) s) = [(x, 1, 1); (x, 2, 1); (x, 1, 20)].
Proof. exists (mk ∅ [NoFault; NoFault; NoFault; After]). vm_compute. reflexivity. Qed.

(** [take] does not guard [last + 1]: a block that ends at [I64_MAX] wraps when its last
    value is taken, and the next reservation issues [I64_MIN], which no counter covers. *)
Theorem ceiling_block_issues_negative :
  logged [SetTo idle x (I64_MAX - 10); Reserve idle x 10; Reserve idle x 1]
      (mkEnv (new 4) (mk ∅ [])) = [(x, I64_MAX - 9, 10); (x, I64_MIN, 1)].
Proof. vm_compute. reflexivity. Qed.

End Rows.
