(* ===== verification/Wire.v ===== *)
(** * Wire: the frames of src/src/service/protocol.rs

    Request side: opcodes, the payload ceilings and the frame buffer. Reply side: the shapes,
    their bodies and [Reply::encode]. [client_frame] is the reader at the other end, the read
    loop of the Go client (src/go/connection.go): what the daemon writes is what it reads,
    frame by frame, whatever follows on the stream. *)

From S2P Require Import Prelude.

(** ** Sizes *)

Definition OPCODE_SIZE : nat := 1.
Definition AUTH_TAG_SIZE : nat := 8.
Definition REPLY_HEAD_SIZE : nat := 3.
Definition LENGTH_PREFIX_SIZE : nat := 2.
Definition SEQUENCE_REPLY_EXTRA_SIZE : nat := 8.
Definition REPLY_MAX_BODY_SIZE : nat :=
  if (SEQUENCE_REPLY_EXTRA_SIZE <? 3 + 2 * 4)%nat then (3 + 2 * 4)%nat else SEQUENCE_REPLY_EXTRA_SIZE.
Definition PUSH_FLOOR : Z := 0x80.
Definition LOCK_LOST_BODY_SIZE : nat := 10.

(** The ceilings each operation's module declares. *)
Definition CHARGE_MAX_PAYLOAD_SIZE : nat := 48.
Definition ACQUIRE_MAX_PAYLOAD_SIZE : nat := 40.
Definition RELEASE_MAX_PAYLOAD_SIZE : nat := 24.
Definition MUTATE_BUDGET_MAX_PAYLOAD_SIZE : nat := 32.
Definition INVALIDATE_ACCESS_MAX_PAYLOAD_SIZE : nat := 16.
Definition MAX_ERRORS_PER_REQUEST : nat := 4.
Definition REQUEST_LOG_MAX_PAYLOAD_SIZE : nat := 64 + MAX_ERRORS_PER_REQUEST * 300.
Definition SEQUENCE_RESERVE_MAX_PAYLOAD_SIZE : nat := 4 + 128.
Definition SEQUENCE_SET_MAX_PAYLOAD_SIZE : nat := 8 + 128.

(** ** Opcodes *)

Inductive Opcode :=
| ChargeCredits | LockAcquire | LockRelease | LogRequest
| MutateCompanyBudget | InvalidateUserAccess | ReserveSequence | SetSequence.

#[export] Instance Opcode_eq_dec : EqDecision Opcode.
Proof. solve_decision. Defined.

Definition opcode_byte (o : Opcode) : Z :=
  match o with
  | ChargeCredits => 0x01 | LockAcquire => 0x02 | LockRelease => 0x03 | LogRequest => 0x04
  | MutateCompanyBudget => 0x05 | InvalidateUserAccess => 0x06
  | ReserveSequence => 0x07 | SetSequence => 0x08
  end.

Definition opcode_from_byte (byte : Z) : option Opcode :=
  if byte =? 0x01 then Some ChargeCredits
  else if byte =? 0x02 then Some LockAcquire
  else if byte =? 0x03 then Some LockRelease
  else if byte =? 0x04 then Some LogRequest
  else if byte =? 0x05 then Some MutateCompanyBudget
  else if byte =? 0x06 then Some InvalidateUserAccess
  else if byte =? 0x07 then Some ReserveSequence
  else if byte =? 0x08 then Some SetSequence
  else None.

Definition max_payload_size (o : Opcode) : nat :=
  match o with
  | ChargeCredits => CHARGE_MAX_PAYLOAD_SIZE
  | LockAcquire => ACQUIRE_MAX_PAYLOAD_SIZE
  | LockRelease => RELEASE_MAX_PAYLOAD_SIZE
  | LogRequest => REQUEST_LOG_MAX_PAYLOAD_SIZE
  | MutateCompanyBudget => MUTATE_BUDGET_MAX_PAYLOAD_SIZE
  | InvalidateUserAccess => INVALIDATE_ACCESS_MAX_PAYLOAD_SIZE
  | ReserveSequence => SEQUENCE_RESERVE_MAX_PAYLOAD_SIZE
  | SetSequence => SEQUENCE_SET_MAX_PAYLOAD_SIZE
  end.

Definition expects_reply (o : Opcode) : bool :=
  match o with LogRequest | InvalidateUserAccess => false | _ => true end.

Definition larger (left right : nat) : nat := if (right <? left)%nat then left else right.

Definition LARGEST_PAYLOAD_SIZE : nat :=
  larger
    (larger (larger CHARGE_MAX_PAYLOAD_SIZE ACQUIRE_MAX_PAYLOAD_SIZE)
            (larger RELEASE_MAX_PAYLOAD_SIZE MUTATE_BUDGET_MAX_PAYLOAD_SIZE))
    (larger (larger INVALIDATE_ACCESS_MAX_PAYLOAD_SIZE REQUEST_LOG_MAX_PAYLOAD_SIZE)
            (larger SEQUENCE_RESERVE_MAX_PAYLOAD_SIZE SEQUENCE_SET_MAX_PAYLOAD_SIZE)).

Definition MAX_FRAME_SIZE : nat :=
  OPCODE_SIZE + LENGTH_PREFIX_SIZE + LARGEST_PAYLOAD_SIZE + AUTH_TAG_SIZE.

(** ** Replies *)

Inductive ReplyShape :=
| SChargeAllowed | SChargeGranted | SChargeCreditViolation | SChargeAccessDenied
| SLockGranted | SLockRefused | SAck | SBudgetRefused | SSequenceValue | SSequenceInvalid
| SUnavailable | SLockLost.

#[export] Instance ReplyShape_eq_dec : EqDecision ReplyShape.
Proof. solve_decision. Defined.

Definition shape_byte (s : ReplyShape) : Z :=
  match s with
  | SChargeAllowed => 0x01 | SChargeGranted => 0x02 | SChargeCreditViolation => 0x03
  | SChargeAccessDenied => 0x04 | SLockGranted => 0x05 | SLockRefused => 0x06 | SAck => 0x07
  | SBudgetRefused => 0x08 | SSequenceValue => 0x09 | SSequenceInvalid => 0x0A
  | SUnavailable => 0x7F | SLockLost => 0x80
  end.

Definition shape_from_byte (byte : Z) : option ReplyShape :=
  if byte =? 0x01 then Some SChargeAllowed
  else if byte =? 0x02 then Some SChargeGranted
  else if byte =? 0x03 then Some SChargeCreditViolation
  else if byte =? 0x04 then Some SChargeAccessDenied
  else if byte =? 0x05 then Some SLockGranted
  else if byte =? 0x06 then Some SLockRefused
  else if byte =? 0x07 then Some SAck
  else if byte =? 0x08 then Some SBudgetRefused
  else if byte =? 0x09 then Some SSequenceValue
  else if byte =? 0x0A then Some SSequenceInvalid
  else if byte =? 0x7F then Some SUnavailable
  else if byte =? 0x80 then Some SLockLost
  else None.

Definition is_push (s : ReplyShape) : bool := PUSH_FLOOR <=? shape_byte s.

Definition body_size (s : ReplyShape) : option nat :=
  match s with
  | SChargeAllowed | SAck | SSequenceInvalid | SUnavailable => Some 0%nat
  | SChargeCreditViolation | SChargeAccessDenied | SLockRefused | SBudgetRefused => Some 1%nat
  | SLockGranted => Some 2%nat
  | SSequenceValue => Some SEQUENCE_REPLY_EXTRA_SIZE
  | SChargeGranted => None
  | SLockLost => None
  end.

Inductive Reply :=
| ChargeAllowed
| ChargeGranted (granted_mask has_subs_mask : Z) (sub_bytes : bytes)
| ChargeCreditViolation (code : Z)
| ChargeAccessDenied (code : Z)
| LockGranted (generation : Z)
| LockRefused (code : Z)
| Ack
| BudgetRefused (code : Z)
| SequenceValue (value : Z)
| SequenceInvalid
| Unavailable
| LockLost (action identifier : Z).

#[export] Instance Reply_eq_dec : EqDecision Reply.
Proof. solve_decision. Defined.

Definition shape (r : Reply) : ReplyShape :=
  match r with
  | ChargeAllowed => SChargeAllowed
  | ChargeGranted _ _ _ => SChargeGranted
  | ChargeCreditViolation _ => SChargeCreditViolation
  | ChargeAccessDenied _ => SChargeAccessDenied
  | LockGranted _ => SLockGranted
  | LockRefused _ => SLockRefused
  | Ack => SAck
  | BudgetRefused _ => SBudgetRefused
  | SequenceValue _ => SSequenceValue
  | SequenceInvalid => SSequenceInvalid
  | Unavailable => SUnavailable
  | LockLost _ _ => SLockLost
  end.

(** The body [encode] appends after the head. [sub_bytes.len() as u8] keeps the low byte. *)
Definition encode_body (r : Reply) : bytes :=
  match r with
  | ChargeAllowed | Ack | SequenceInvalid | Unavailable => []
  | ChargeGranted granted_mask has_subs_mask sub_bytes =>
      granted_mask :: has_subs_mask :: wrap 8 (zlen sub_bytes) :: sub_bytes
  | ChargeCreditViolation code | ChargeAccessDenied code | LockRefused code | BudgetRefused code =>
      [code]
  | LockGranted generation => be_bytes 2 generation
  | SequenceValue value => be_bytes 8 value
  | LockLost action identifier =>
      Z.of_nat LOCK_LOST_BODY_SIZE :: be_bytes 2 action ++ be_bytes 8 identifier
  end.

Definition encode (r : Reply) (sequence : Z) : bytes :=
  shape_byte (shape r) :: be_bytes 2 (wrap 16 (Z.land sequence 0xFFFF)) ++ encode_body r.

(** ** The client's reader (src/go/connection.go) *)

Inductive ClientFrame :=
| Answer (answer_shape correlation : Z) (body : bytes)
| Push (push_shape : Z) (body : bytes).

(** [io.ReadFull] of [n] bytes. *)
Definition read_full (n : nat) (stream : bytes) : option (bytes * bytes) :=
  if (n <=? length stream)%nat then Some (take n stream, drop n stream) else None.

(** [replyBodySize]: [None] for an unknown shape, [Some None] for the variable body. *)
Definition replyBodySize (s : Z) : option (option nat) :=
  if (s =? 0x01) || (s =? 0x07) || (s =? 0x0A) || (s =? 0x7F) then Some (Some 0%nat)
  else if (s =? 0x03) || (s =? 0x04) || (s =? 0x06) || (s =? 0x08) then Some (Some 1%nat)
  else if s =? 0x05 then Some (Some 2%nat)
  else if s =? 0x09 then Some (Some 8%nat)
  else if s =? 0x02 then Some None
  else None.

(** One turn of [readLoop]: the frame at the front of the stream, or [None] when the
    connection fails. *)
Definition client_frame (stream : bytes) : option (ClientFrame * bytes) :=
  '(head, r1) ← read_full REPLY_HEAD_SIZE stream;
  match head with
  | s :: correlation =>
      if PUSH_FLOOR <=? s then
        '(len, r2) ← read_full 1 r1;
        '(body, r3) ← read_full (Z.to_nat (of_be len)) r2;
        Some (Push s body, r3)
      else
        size ← replyBodySize s;
        match size with
        | Some n => '(body, r2) ← read_full n r1; Some (Answer s (of_be correlation) body, r2)
        | None =>
            '(masks, r2) ← read_full 3 r1;
            '(subs, r3) ← read_full (Z.to_nat (of_be (drop 2 masks))) r2;
            Some (Answer s (of_be correlation) (masks ++ subs), r3)
        end
  | [] => None
  end.

Fixpoint client_frames (n : nat) (stream : bytes) : option (list ClientFrame * bytes) :=
  match n with
  | O => Some ([], stream)
  | S k =>
      '(f, rest) ← client_frame stream;
      '(fs, rest') ← client_frames k rest;
      Some (f :: fs, rest')
  end.

(** ** What a reply is on the wire *)

(** The widths of the fields; a granted charge has at most 255 sub bytes. *)
Definition reply_ok (r : Reply) : Prop :=
  match r with
  | ChargeGranted granted_mask has_subs_mask sub_bytes =>
      in_u8 granted_mask /\ in_u8 has_subs_mask /\ zlen sub_bytes <= U8_MAX
  | ChargeCreditViolation code | ChargeAccessDenied code | LockRefused code | BudgetRefused code =>
      in_u8 code
  | LockGranted generation => in_u16 generation
  | SequenceValue value => in_i64 value
  | LockLost action identifier => in_u16 action /\ in_i64 identifier
  | _ => True
  end.

(** The frame the client is to see: the correlation is the low half of the sequence. *)
Definition frame_of (r : Reply) (sequence : Z) : ClientFrame :=
  if is_push (shape r) then Push (shape_byte (shape r)) (drop 1 (encode_body r))
  else Answer (shape_byte (shape r)) (wrap 16 sequence) (encode_body r).

Lemma read_full_app a b : read_full (length a) (a ++ b) = Some (a, b).
Proof.
  unfold read_full. rewrite length_app. destruct (_ <=? _)%nat eqn:E; [|apply Nat.leb_gt in E; lia].
  by rewrite take_app_length, drop_app_length.
Qed.

Lemma read_full_exact n a b : length a = n -> read_full n (a ++ b) = Some (a, b).
Proof. intros <-. apply read_full_app. Qed.

Lemma read_full_0 s : read_full 0 s = Some ([], s).
Proof. done. Qed.
Lemma read_full_1 a s : read_full 1 (a :: s) = Some ([a], s).
Proof. done. Qed.
Lemma read_full_3 a b c s : read_full 3 (a :: b :: c :: s) = Some ([a; b; c], s).
Proof. done. Qed.

Lemma correlation_bytes sequence :
  of_be (be_bytes 2 (wrap 16 (Z.land sequence 0xFFFF))) = wrap 16 sequence.
Proof.
  change 0xFFFF with (Z.ones 16). rewrite Z.land_ones by lia.
  unfold wrap. rewrite Zmod_mod. rewrite of_be_be_bytes_small; [done|].
  change (256 ^ Z.of_nat 2) with (2 ^ 16). apply Z.mod_pos_bound. lia.
Qed.

Lemma client_reads r sequence rest :
  reply_ok r -> client_frame (encode r sequence ++ rest) = Some (frame_of r sequence, rest).
Proof.
  intros Hok. unfold client_frame, encode, REPLY_HEAD_SIZE.
  replace ((shape_byte (shape r) :: be_bytes 2 (wrap 16 (Z.land sequence 65535)) ++ encode_body r) ++ rest)
    with ((shape_byte (shape r) :: be_bytes 2 (wrap 16 (Z.land sequence 65535))) ++ (encode_body r ++ rest))
    by (simpl; by rewrite <- ?app_assoc).
  rewrite read_full_exact by (cbn [length]; by rewrite length_be_bytes).
  cbn [mbind option_bind]. rewrite correlation_bytes.
  destruct r as [|g h subs|c|c|g|c| |c|v| | |a i]; cbn -[read_full of_be wrap be_bytes Z.to_nat];
    try first [by rewrite read_full_0|by rewrite read_full_1].
  - destruct Hok as (_ & _ & Hl). rewrite read_full_3. cbn -[read_full of_be wrap Z.to_nat].
    rewrite read_full_exact; [done|]. unfold of_be. cbn [foldl].
    rewrite wrap_small by (widths; lia). lia.
  - by rewrite read_full_exact by apply length_be_bytes.
  - by rewrite read_full_exact by apply length_be_bytes.
Qed.

Lemma be_bytes_i64_inj x y : in_i64 x -> in_i64 y -> be_bytes 8 x = be_bytes 8 y -> x = y.
Proof.
  intros Hx Hy E. apply (f_equal of_be) in E. rewrite !of_be_be_bytes in E.
  change (256 ^ Z.of_nat 8) with 18446744073709551616 in E.
  pose proof (Z.div_mod x 18446744073709551616). pose proof (Z.div_mod y 18446744073709551616).
  widths. lia.
Qed.

Lemma be_bytes_u16_inj x y : in_u16 x -> in_u16 y -> be_bytes 2 x = be_bytes 2 y -> x = y.
Proof. intros Hx Hy. apply be_bytes_inj; change (256 ^ Z.of_nat 2) with 65536; widths; lia. Qed.

(** The body and the shape determine the reply. *)
Lemma encode_body_inj r1 r2 :
  reply_ok r1 -> reply_ok r2 -> shape r1 = shape r2 -> encode_body r1 = encode_body r2 -> r1 = r2.
Proof.
  intros H1 H2 Es E. destruct r1, r2; try discriminate Es; cbn [encode_body reply_ok] in *; try congruence.
  - f_equal. by apply be_bytes_u16_inj.
  - f_equal. by apply be_bytes_i64_inj.
  - apply (f_equal (drop 1)) in E. cbn [drop] in E.
    apply app_inj_1 in E as [Ea Ei]; [|by rewrite !length_be_bytes].
    destruct H1, H2. f_equal; [by apply be_bytes_u16_inj|by apply be_bytes_i64_inj].
Qed.

Lemma shape_byte_inj s1 s2 : shape_byte s1 = shape_byte s2 -> s1 = s2.
Proof. by destruct s1, s2. Qed.

(** Nothing of a reply is lost in its frame. *)
Lemma frame_of_inj r1 s1 r2 s2 :
  reply_ok r1 -> reply_ok r2 -> frame_of r1 s1 = frame_of r2 s2 ->
  r1 = r2 /\ (is_push (shape r1) = false -> wrap 16 s1 = wrap 16 s2).
Proof.
  intros H1 H2. unfold frame_of.
  destruct (is_push (shape r1)) eqn:P1, (is_push (shape r2)) eqn:P2; try done.
  - intros E0. assert (shape r1 = shape r2) as Es by (apply shape_byte_inj; congruence).
    assert (drop 1 (encode_body r1) = drop 1 (encode_body r2)) as E by congruence.
    split; [|done]. apply encode_body_inj; try done.
    destruct r1, r2; try done. cbn [encode_body drop] in *. f_equal. exact E.
  - intros E0. assert (shape r1 = shape r2) as Es by (apply shape_byte_inj; congruence).
    split; [|intros _; congruence]. apply encode_body_inj; try done. congruence.
Qed.

(** C38: the reply stream never loses its framing. Whatever replies and pushes the daemon
    encodes, in whatever order, and whatever bytes follow them, the client's read loop takes
    them off the stream one for one, with the body each was given and, for an answer, the low
    sixteen bits of the sequence it answers; and from a frame the reply can be told. *)
Theorem reply_stream_roundtrip (rs : list (Reply * Z)) rest :
  Forall (fun x => reply_ok x.1) rs ->
  client_frames (length rs) (concat ((fun x => encode x.1 x.2) <$> rs) ++ rest) =
    Some ((fun x => frame_of x.1 x.2) <$> rs, rest) /\
  (forall x y, x ∈ rs -> y ∈ rs -> frame_of x.1 x.2 = frame_of y.1 y.2 ->
     x.1 = y.1 /\ (is_push (shape x.1) = false -> wrap 16 x.2 = wrap 16 y.2)).
Proof.
  intros H. split.
  - induction H as [|[r s] rs Hr _ IH]; [done|].
    cbn [length fmap list_fmap concat client_frames fst snd].
    rewrite <- app_assoc, client_reads by done. cbn [mbind option_bind].
    fold (fmap (M := list) (fun x : Reply * Z => encode x.1 x.2) rs). by rewrite IH.
  - rewrite Forall_forall in H. intros x y Hx Hy. apply frame_of_inj; by apply H.
Qed.

Definition sample_replies : list (Reply * Z) :=
  [(ChargeAllowed, 0); (ChargeGranted 3 1 [0x81; 0x01], 1); (LockLost 7 (-42), 0);
   (SequenceValue (-1), 65537)].

Lemma reply_stream_roundtrip_witness :
  client_frames 4 (concat ((fun x => encode x.1 x.2) <$> sample_replies) ++ [0xFF]) =
    Some ([Answer 1 0 []; Answer 2 1 [3; 1; 2; 0x81; 0x01];
           Push 0x80 (be_bytes 2 7 ++ be_bytes 8 (-42)); Answer 9 1 (be_bytes 8 (-1))], [0xFF]).
Proof.
  assert (Forall (fun x : Reply * Z => reply_ok x.1) sample_replies) as H.
  { repeat apply Forall_cons_2; try apply Forall_nil_2; cbn; repeat split; widths; lia. }
  etransitivity; [apply (proj1 (reply_stream_roundtrip sample_replies [0xFF] H))|].
  vm_compute. reflexivity.
Defined.

(** ** Opcodes *)

Lemma larger_max a b : larger a b = Nat.max a b.
Proof. unfold larger. destruct (_ <? _)%nat eqn:E; [apply Nat.ltb_lt in E|apply Nat.ltb_ge in E]; lia. Qed.

(** Opcodes and shapes are read back from the byte they are written as, no other byte is
    one, byte zero is no opcode, and a frame of any opcode fits the connection's buffer. *)
Theorem opcode_table o byte :
  opcode_from_byte (opcode_byte o) = Some o /\
  (opcode_from_byte byte = Some o <-> byte = opcode_byte o) /\
  opcode_from_byte 0 = None /\
  (forall s, shape_from_byte byte = Some s <-> byte = shape_byte s) /\
  (OPCODE_SIZE + LENGTH_PREFIX_SIZE + max_payload_size o + AUTH_TAG_SIZE <= MAX_FRAME_SIZE)%nat.
Proof.
  split; [by destruct o|]. split; [|split; [done|split]].
  - split; [|intros ->; by destruct o]. unfold opcode_from_byte.
    repeat match goal with |- context [if ?b =? ?c then _ else _] => destruct (Z.eqb_spec b c) as [->|] end;
      try done; by intros [= <-].
  - intros s. split; [|intros ->; by destruct s]. unfold shape_from_byte.
    repeat match goal with |- context [if ?b =? ?c then _ else _] => destruct (Z.eqb_spec b c) as [->|] end;
      try done; by intros [= <-].
  - unfold MAX_FRAME_SIZE, LARGEST_PAYLOAD_SIZE. rewrite !larger_max. destruct o; simpl max_payload_size; lia.
Qed.
