(* ===== verification/ReqLog.v ===== *)
(** * ReqLog: the request log of src/src/reqlog/

    protocol.rs: the record, its parser and the packed grouping key. errors.rs: the gate that
    keeps a failing code line from being written over and over. writer.rs: the bounded queue
    between the connections and the writer task, and the writer's loop; the two prepared
    statements are the class [LogSession]. Text is its UTF-8 bytes, an [Instant] is a number. *)

From S2P Require Import Prelude.

(** ** The record (protocol.rs) *)

Definition MAX_ERRORS_PER_REQUEST : Z := 4.
Definition MAX_CODE_LINE_BYTES : Z := 64.
Definition MAX_ERROR_TEXT_BYTES : Z := 200.
Definition FRAMES_PER_DAY : Z := 96.

Record ErrorEntry := mkErrorEntry { id : Z; code_line : bytes; text : bytes }.

Record RequestLogRecord := mkRequestLogRecord {
  date : Z;
  request_id : Z;
  route_id : Z;
  frame : Z;
  company_id : Z;
  user_id : Z;
  elapsed_ms : Z;
  errors : list ErrorEntry;
}.

Inductive Field := CodeLine | Text.

Inductive RequestLogError :=
| Malformed
| InvalidFrame (f : Z)
| TooManyErrors (n : Z)
| FieldTooLong (block : nat) (len : Z) (what : Field).

Definition frame_route_company_agg (r : RequestLogRecord) : Z :=
  Z.lor (Z.lor (Z.shiftl (frame r) 40) (Z.shiftl (wrap 16 (route_id r)) 24))
        (Z.land (company_id r) 0xFFFFFF).

Definition error_count (r : RequestLogRecord) : Z := swrap 8 (zlen (errors r)).
Definition error_ids (r : RequestLogRecord) : list Z := id <$> errors r.

(** The loop over the error entries: the first field over its ceiling. *)
Fixpoint check_entries (block : nat) (entries : list ErrorEntry) : result RequestLogError unit :=
  match entries with
  | [] => Ok tt
  | entry :: rest =>
      if MAX_CODE_LINE_BYTES <? zlen (code_line entry)
      then Err (FieldTooLong block (zlen (code_line entry)) CodeLine)
      else if MAX_ERROR_TEXT_BYTES <? zlen (text entry)
      then Err (FieldTooLong block (zlen (text entry)) Text)
      else check_entries (S block) rest
  end.

Definition parse_request_log (decode : bytes -> option RequestLogRecord) (payload : bytes) :
    result RequestLogError RequestLogRecord :=
  record ← ok_or Malformed (decode payload);
  if FRAMES_PER_DAY <=? frame record then Err (InvalidFrame (frame record))
  else if MAX_ERRORS_PER_REQUEST <? zlen (errors record)
  then Err (TooManyErrors (zlen (errors record)))
  else _ ← check_entries 0 (errors record); Ok record.

(** ** The gate (errors.rs) *)

Abbreviation ErrorKey := (Z * bytes)%type.

Record ErrorWriteGate := mkErrorWriteGate {
  last_written : gmap ErrorKey Z;
  freshness : Z;
  capacity : nat;
}.

Definition gate_new (fresh : Z) (cap : nat) : ErrorWriteGate := mkErrorWriteGate ∅ fresh (Nat.max cap 1).

Definition set_written (m : gmap ErrorKey Z) (g : ErrorWriteGate) : ErrorWriteGate :=
  mkErrorWriteGate m (freshness g) (capacity g).

(** [min_by_key]: the first entry with the least time, in the map's iteration order. *)
Fixpoint oldest (entries : list (ErrorKey * Z)) : option (ErrorKey * Z) :=
  match entries with
  | [] => None
  | e :: rest =>
      match oldest rest with
      | Some f => if f.2 <? e.2 then Some f else Some e
      | None => Some e
      end
  end.

Definition evict_oldest (g : ErrorWriteGate) : ErrorWriteGate :=
  match oldest (map_to_list (last_written g)) with
  | Some (key, _) => set_written (delete key (last_written g)) g
  | None => g
  end.

(** [duration_since] saturates to zero. *)
Definition should_write (i : Z) (line : bytes) (now : Z) (g : ErrorWriteGate) : bool * ErrorWriteGate :=
  let key := (i, line) in
  let fresh := match last_written g !! key with
               | Some written_at => saturating_sub now written_at <? freshness g
               | None => false
               end in
  if fresh then (false, g)
  else
    let g1 := if (capacity g <=? size (last_written g))%nat
                 && negb (bool_decide (is_Some (last_written g !! key)))
              then evict_oldest g else g in
    (true, set_written (<[key := now]> (last_written g1)) g1).

(** ** The queue and the writer (writer.rs) *)

Record RequestLogMetrics := mkMetrics {
  queued : Z;
  dropped_queue_full : Z;
  rows_written : Z;
  errors_written : Z;
  write_failures : Z;
}.

Definition metrics_default : RequestLogMetrics := mkMetrics 0 0 0 0 0.

Record RowValues := mkRowValues {
  v_date : Z; v_request_id : Z; v_company_id : Z; v_user_id : Z; v_route_id : Z;
  v_agg : Z; v_elapsed_ms : Z; v_error_count : Z; v_error_ids : list Z;
}.

Definition row_values (r : RequestLogRecord) : RowValues :=
  mkRowValues (date r) (request_id r) (company_id r) (user_id r) (route_id r)
    (frame_route_company_agg r) (elapsed_ms r) (error_count r) (error_ids r).

Record ErrorValues := mkErrorValues { ev_id : Z; ev_code_line : bytes; ev_text : bytes; ev_updated : Z }.

(** The unlogged batch of rows and the single write of an error; [true] is success. *)
Class LogSession (St : Type) := {
  batch : list RowValues -> St -> bool * St;
  insert_error : ErrorValues -> St -> bool * St;
}.

Section Writer.
Context {St : Type} `{!LogSession St}.
Variable queue_capacity : nat.
Variable max_batch : nat.

Record Writer := mkWriter {
  queue : list RequestLogRecord;
  pending : list RequestLogRecord;
  gate : ErrorWriteGate;
  metrics : RequestLogMetrics;
  session : St;
}.

Definition count_queued (m : RequestLogMetrics) : RequestLogMetrics :=
  mkMetrics (wrap 64 (queued m + 1)) (dropped_queue_full m) (rows_written m) (errors_written m) (write_failures m).
Definition count_dropped (m : RequestLogMetrics) : RequestLogMetrics :=
  mkMetrics (queued m) (wrap 64 (dropped_queue_full m + 1)) (rows_written m) (errors_written m) (write_failures m).
Definition count_rows (n : Z) (m : RequestLogMetrics) : RequestLogMetrics :=
  mkMetrics (queued m) (dropped_queue_full m) (wrap 64 (rows_written m + n)) (errors_written m) (write_failures m).
Definition count_error (m : RequestLogMetrics) : RequestLogMetrics :=
  mkMetrics (queued m) (dropped_queue_full m) (rows_written m) (wrap 64 (errors_written m + 1)) (write_failures m).
Definition count_failure (m : RequestLogMetrics) : RequestLogMetrics :=
  mkMetrics (queued m) (dropped_queue_full m) (rows_written m) (errors_written m) (wrap 64 (write_failures m + 1)).

(** [submit] on an enabled sink: [try_send] on the bounded channel. *)
Definition submit (r : RequestLogRecord) (w : Writer) : Writer :=
  if (length (queue w) <? queue_capacity)%nat
  then mkWriter (queue w ++ [r]) (pending w) (gate w) (count_queued (metrics w)) (session w)
  else mkWriter (queue w) (pending w) (gate w) (count_dropped (metrics w)) (session w).

(** The errors of the pending records that pass the gate, in order. *)
Fixpoint gated_entries (now updated : Z) (entries : list ErrorEntry) (g : ErrorWriteGate) :
    list ErrorValues * ErrorWriteGate :=
  match entries with
  | [] => ([], g)
  | e :: rest =>
      let '(write, g1) := should_write (id e) (code_line e) now g in
      let '(values, g2) := gated_entries now updated rest g1 in
      ((if write then [mkErrorValues (id e) (code_line e) (text e) updated] else []) ++ values, g2)
  end.

Fixpoint write_errors (values : list ErrorValues) (s : St) (m : RequestLogMetrics) : St * RequestLogMetrics :=
  match values with
  | [] => (s, m)
  | v :: rest =>
      let '(done, s1) := insert_error v s in
      write_errors rest s1 (if done then count_error m else count_failure m)
  end.

Definition flush (now updated : Z) (w : Writer) : Writer :=
  match pending w with
  | [] => w
  | records =>
      let '(error_values, g) := gated_entries now updated (concat (errors <$> records)) (gate w) in
      let rows := row_values <$> records in
      let '(done, s1) := batch rows (session w) in
      let m1 := if done then count_rows (zlen rows) (metrics w) else count_failure (metrics w) in
      let '(s2, m2) := write_errors error_values s1 m1 in
      mkWriter (queue w) [] g m2 s2
  end.

(** The loop's branches: a record arrives, the ticker fires, and the drain at shutdown. *)
Definition receive (now updated : Z) (w : Writer) : Writer :=
  match queue w with
  | [] => w
  | r :: rest =>
      let w1 := mkWriter rest (pending w ++ [r]) (gate w) (metrics w) (session w) in
      if (max_batch <=? length (pending w1))%nat then flush now updated w1 else w1
  end.

Definition drain (now updated : Z) (w : Writer) : Writer :=
  flush now updated (mkWriter [] (pending w ++ queue w) (gate w) (metrics w) (session w)).

Inductive Event := Submit (r : RequestLogRecord) | Receive (now updated : Z) | Tick (now updated : Z)
  | Shutdown (now updated : Z).

Definition handle (e : Event) (w : Writer) : Writer :=
  match e with
  | Submit r => submit r w
  | Receive now updated => receive now updated w
  | Tick now updated => flush now updated w
  | Shutdown now updated => drain now updated w
  end.

End Writer.
Arguments mkWriter {St}.
Arguments queue {St}.
Arguments pending {St}.
Arguments gate {St}.
Arguments metrics {St}.
Arguments session {St}.
