(* ===== verification/ReqLogLaws.v ===== *)
(** * ReqLogLaws: the request log's key, gate and queue

    The packed key keeps its three dimensions apart; the gate lets a code line through once
    per freshness window and stays within its capacity; and every record the queue accepted
    reaches exactly one batch, in order, or is still queued. *)

From S2P Require Import Prelude ReqLog.

(** ** The packed key *)

Lemma agg_sum r :
  frame_route_company_agg r =
    wrap 24 (company_id r) + (wrap 16 (route_id r) + frame r * 2 ^ 16) * 2 ^ 24.
Proof.
  unfold frame_route_company_agg.
  change 0xFFFFFF with (Z.ones 24). rewrite Z.land_ones by lia. fold (wrap 24 (company_id r)).
  pose proof (wrap_bound 16 (route_id r) ltac:(lia)). pose proof (wrap_bound 24 (company_id r) ltac:(lia)).
  assert (Z.shiftl (frame r) 40 = Z.shiftl (Z.shiftl (frame r) 16) 24) as -> by (by rewrite Z.shiftl_shiftl by lia).
  rewrite <- Z.shiftl_lor, (Z.lor_comm _ (wrap 24 _)), lor_shifted by lia.
  by rewrite (Z.lor_comm _ (wrap 16 _)), lor_shifted by lia.
Qed.

(** The grouping key is [frame], [route_id] as sixteen bits and the low 24 bits of
    [company_id], side by side: each is read back by its shift and mask, the key is a
    nonnegative 47-bit integer, and one frame of the day is one contiguous range of keys. *)
Theorem agg_packs r :
  0 <= frame r < FRAMES_PER_DAY ->
  let agg := frame_route_company_agg r in
  Z.shiftr agg 40 = frame r /\
  Z.land (Z.shiftr agg 24) 0xFFFF = wrap 16 (route_id r) /\
  Z.land agg 0xFFFFFF = wrap 24 (company_id r) /\
  0 <= agg < 2 ^ 47 /\
  (forall f, Z.shiftl f 40 <= agg < Z.shiftl (f + 1) 40 <-> f = frame r).
Proof.
  intros Hf. unfold FRAMES_PER_DAY in *. cbv zeta. rewrite agg_sum.
  change 0xFFFFFF with (Z.ones 24). change 0xFFFF with (Z.ones 16). rewrite !Z.land_ones by lia.
  rewrite !Z.shiftr_div_pow2 by lia. setoid_rewrite Z.shiftl_mul_pow2; [|lia..].
  pose proof (wrap_bound 16 (route_id r) ltac:(lia)) as HR. pose proof (wrap_bound 24 (company_id r) ltac:(lia)) as HC.
  set (R := wrap 16 (route_id r)) in *. set (C := wrap 24 (company_id r)) in *. clearbody R C.
  change (2 ^ 16) with 65536 in *. change (2 ^ 24) with 16777216 in *.
  change (2 ^ 40) with 1099511627776. change (2 ^ 47) with 140737488355328.
  split; [symmetry; apply (Z.div_unique _ _ _ (C + R * 16777216)); lia|].
  split.
  { assert ((C + (R + frame r * 65536) * 16777216) / 16777216 = R + frame r * 65536) as ->
      by (symmetry; apply (Z.div_unique _ _ _ C); lia).
    symmetry. apply (Z.mod_unique _ _ (frame r)); lia. }
  split; [symmetry; apply (Z.mod_unique _ _ (R + frame r * 65536)); lia|].
  split; [lia|]. intros f. lia.
Qed.

Definition sample_record : RequestLogRecord :=
  mkRequestLogRecord 20500 1767225600123 (-2) 41 7 42 318 [mkErrorEntry 5 [0x61] [0x62]].

Lemma agg_packs_witness :
  frame_route_company_agg sample_record = 46179454812167 /\
  Z.shiftr (frame_route_company_agg sample_record) 40 = 41.
Proof.
  assert (0 <= frame sample_record < FRAMES_PER_DAY) as H by (vm_compute; split; congruence).
  split; [|apply (proj1 (agg_packs sample_record H))]. vm_compute. reflexivity.
Defined.

(** ** The gate *)

Lemma oldest_spec entries e :
  oldest entries = Some e -> e ∈ entries /\ forall f, f ∈ entries -> e.2 <= f.2.
Proof.
  revert e. induction entries as [|a rest IH]; intros e; simpl; [done|].
  destruct (oldest rest) as [b|] eqn:E.
  - destruct (IH b eq_refl) as [Hin Hmin]. destruct (b.2 <? a.2) eqn:El; fw_bool; intros [= <-].
    + split; [by right|]. intros f [-> |Hf]%elem_of_cons; [lia|by apply Hmin].
    + split; [by left|]. intros f [-> |Hf]%elem_of_cons; [lia|]. specialize (Hmin f Hf). lia.
  - intros [= <-]. split; [by left|]. intros f [-> |Hf]%elem_of_cons; [lia|].
    destruct rest as [|b rest]; [by apply not_elem_of_nil in Hf|]. simpl in E. repeat case_match; done.
Qed.

Lemma oldest_None entries : oldest entries = None -> entries = [].
Proof. destruct entries; simpl; [done|]. repeat case_match; done. Qed.

Definition gate_ok (g : ErrorWriteGate) : Prop :=
  (1 <= capacity g)%nat /\ (size (last_written g) <= capacity g)%nat.

(** The gate. A code line is refused exactly when it was let through less than
    [freshness] ago; a refusal changes nothing. When it is let through, its time is recorded,
    the entries stay within the capacity, and of the other entries at most one is forgotten:
    one with the least time, and only when the gate was full. *)
Theorem should_write_exact i line now g :
  gate_ok g ->
  let '(write, g') := should_write i line now g in
  (write = false <->
     exists t, last_written g !! (i, line) = Some t /\ saturating_sub now t < freshness g) /\
  (write = false -> g' = g) /\
  (write = true ->
     gate_ok g' /\ freshness g' = freshness g /\ last_written g' !! (i, line) = Some now /\
     ((forall k, k <> (i, line) -> last_written g' !! k = last_written g !! k) \/
      size (last_written g) = capacity g /\
      exists k0 t0, k0 <> (i, line) /\ last_written g !! k0 = Some t0 /\
        (forall k t, last_written g !! k = Some t -> t0 <= t) /\
        last_written g' !! k0 = None /\
        forall k, k <> (i, line) -> k <> k0 -> last_written g' !! k = last_written g !! k)).
Proof.
  intros [Hcap Hsize]. unfold should_write.
  set (fresh := match last_written g !! (i, line) with Some t => _ | None => _ end).
  assert (fresh = true <-> exists t, last_written g !! (i, line) = Some t /\ saturating_sub now t < freshness g) as Hfresh.
  { unfold fresh. destruct (last_written g !! (i, line)) as [t|].
    - rewrite Z.ltb_lt. split; [by eauto|by intros (? & [= <-] & ?)].
    - split; [done|by intros (? & ? & _)]. }
  clearbody fresh. destruct fresh; [by repeat split; intros; try done; apply Hfresh|].
  split; [split; [done|]; intros Hex; by apply Hfresh in Hex|]. split; [done|]. intros _.
  destruct (decide (is_Some (last_written g !! (i, line)))) as [[t Ht]|Habs].
  - rewrite bool_decide_true by eauto. rewrite andb_false_r. unfold gate_ok. simpl.
    rewrite lookup_insert_eq, map_size_insert_Some by eauto. repeat split; try done.
    left. intros k Hk. by rewrite lookup_insert_ne.
  - rewrite bool_decide_false by done. rewrite andb_true_r.
    apply eq_None_not_Some in Habs.
    destruct (capacity g <=? size (last_written g))%nat eqn:Efull.
    + apply Nat.leb_le in Efull. unfold evict_oldest.
      destruct (oldest (map_to_list (last_written g))) as [[k0 t0]|] eqn:Eo.
      * apply oldest_spec in Eo as [Hin Hmin]. apply elem_of_map_to_list in Hin.
        assert (k0 <> (i, line)) as Hne by congruence.
        unfold gate_ok. simpl. rewrite lookup_insert_eq.
        rewrite map_size_insert_None by (by rewrite lookup_delete_ne).
        rewrite map_size_delete_Some by eauto. repeat split; try done; try lia.
        right. split; [lia|]. exists k0, t0. repeat split; try done.
        -- intros k t Hk%elem_of_map_to_list. by apply (Hmin (k, t)).
        -- rewrite lookup_insert_ne by done. apply lookup_delete_eq.
        -- intros k Hk Hk0. by rewrite lookup_insert_ne, lookup_delete_ne by done.
      * apply oldest_None in Eo. apply map_to_list_empty_iff in Eo.
        rewrite Eo, map_size_empty in Efull. lia.
    + apply Nat.leb_gt in Efull. unfold gate_ok. simpl. rewrite lookup_insert_eq.
      rewrite map_size_insert_None by done. repeat split; try done; try lia.
      left. intros k Hk. by rewrite lookup_insert_ne.
Qed.

Definition sample_gate : ErrorWriteGate := (should_write 1 [0x61] 100 (gate_new 600 1)).2.

Lemma should_write_exact_witness :
  gate_ok sample_gate /\ (should_write 1 [0x61] 699 sample_gate).1 = false /\
  (should_write 2 [0x61] 699 sample_gate).1 = true /\
  last_written (should_write 2 [0x61] 699 sample_gate).2 !! (2, [0x61]) = Some 699.
Proof.
  assert (gate_ok sample_gate) as H by (vm_compute; split; lia).
  split; [exact H|]. split; [vm_compute; reflexivity|]. split; [vm_compute; reflexivity|].
  pose proof (should_write_exact 2 [0x61] 699 sample_gate H) as K.
  destruct (should_write 2 [0x61] 699 sample_gate) as [write g'] eqn:E.
  assert (write = true) as -> by (change write with (write, g').1; rewrite <- E; vm_compute; reflexivity).
  apply (proj2 (proj2 K)). reflexivity.
Defined.

(** ** The queue and the writer *)

(** What the database was asked to write, in order. *)
Class LogHistory (St : Type) `{LogSession St} := {
  attempted : St -> list RowValues;
  attempted_errors : St -> list ErrorValues;
  batch_history rows s : 
    attempted (batch rows s).2 = attempted s ++ rows /\ attempted_errors (batch rows s).2 = attempted_errors s;
  insert_history v s :
    attempted (insert_error v s).2 = attempted s /\ attempted_errors (insert_error v s).2 = attempted_errors s ++ [v];
}.

Section Conservation.
Context {St : Type} `{SS : LogSession St, LH : !LogHistory St}.
Variable queue_capacity : nat.
Variable max_batch : nat.

Abbreviation W := (Writer (St := St)).
Abbreviation handle := (handle queue_capacity max_batch).

(** Everything accepted and where it is: written or refused by the database, or still here. *)
Definition account (w : W) : list RowValues := attempted (session w) ++ (row_values <$> (pending w ++ queue w)).

(** The record a submit adds: none when the queue is full. *)
Definition accepted (e : Event) (w : W) : list RequestLogRecord :=
  match e with
  | Submit r => if (length (queue w) <? queue_capacity)%nat then [r] else []
  | _ => []
  end.

Fixpoint run (events : list Event) (w : W) : W :=
  match events with [] => w | e :: rest => run rest (handle e w) end.

Fixpoint all_accepted (events : list Event) (w : W) : list RequestLogRecord :=
  match events with [] => [] | e :: rest => accepted e w ++ all_accepted rest (handle e w) end.

Lemma write_errors_attempted values s m : attempted (write_errors values s m).1 = attempted s.
Proof.
  revert s m. induction values as [|v rest IH]; intros s m; simpl; [done|].
  destruct (insert_history v s) as [H _]. destruct (insert_error v s) as [done s1]. simpl in *.
  by rewrite IH.
Qed.

Lemma flush_account now updated (w : W) :
  account (flush now updated w) = account w /\ pending (flush now updated w) = [] /\
  queue (flush now updated w) = queue w.
Proof.
  unfold flush, account. destruct (pending w) as [|r rest] eqn:Ep; [by rewrite Ep|].
  destruct (gated_entries _ _ _ _) as [values g].
  destruct (batch_history (row_values <$> (r :: rest)) (session w)) as [Hb _].
  destruct (batch _ (session w)) as [done s1]. cbn [snd] in Hb.
  match goal with |- context [write_errors values s1 ?m] =>
    pose proof (write_errors_attempted values s1 m) as Hw; destruct (write_errors values s1 m) as [s2 m2] end.
  cbn [fst] in Hw. cbn [session pending queue]. rewrite Hw, Hb. rewrite <- app_assoc, <- fmap_app. done.
Qed.

Lemma handle_account e (w : W) :
  (length (queue w) <= queue_capacity)%nat -> (length (pending w) < Nat.max 1 max_batch)%nat ->
  account (handle e w) = account w ++ (row_values <$> accepted e w) /\
  (length (queue (handle e w)) <= queue_capacity)%nat /\
  (length (pending (handle e w)) < Nat.max 1 max_batch)%nat.
Proof.
  intros Hq Hp. destruct e as [r|now updated|now updated|now updated]; simpl; rewrite ?app_nil_r.
  - unfold submit. destruct (_ <? _)%nat eqn:E; [apply Nat.ltb_lt in E|]; simpl.
    + unfold account. simpl. rewrite length_app. simpl. split; [|lia].
      by rewrite !fmap_app, <- !app_assoc.
    + by rewrite app_nil_r.
  - unfold receive. destruct (queue w) as [|r rest] eqn:Eq; [by rewrite Eq|]. simpl in Hq.
    set (w1 := mkWriter rest (pending w ++ [r]) _ _ _).
    assert (account w1 = account w) as Hw1.
    { unfold account, w1. simpl. rewrite Eq, <- app_assoc. done. }
    destruct (_ <=? _)%nat eqn:E.
    + destruct (flush_account now updated w1) as (-> & -> & ->). rewrite Hw1. simpl. split; [done|]. lia.
    + apply Nat.leb_gt in E. rewrite Hw1. split; [done|]. unfold w1 in *. simpl in *. lia.
  - destruct (flush_account now updated w) as (-> & -> & ->). simpl. split; [done|]. lia.
  - unfold drain. set (w1 := mkWriter [] (pending w ++ queue w) _ _ _).
    destruct (flush_account now updated w1) as (-> & -> & ->). unfold w1, account. simpl.
    rewrite app_nil_r. split; [done|]. lia.
Qed.


End Conservation.

(** ** A recording session *)

Module Recorder.

(** What was asked, and whether the database is up. *)
Record T := mk { asked : list RowValues; asked_errors : list ErrorValues; up : bool }.

#[global] Instance recorder : LogSession T := {
  batch rows s := (up s, mk (asked s ++ rows) (asked_errors s) (up s));
  insert_error v s := (up s, mk (asked s) (asked_errors s ++ [v]) (up s));
}.

#[global] Instance history : LogHistory T.
Proof. by refine {| attempted := asked; attempted_errors := asked_errors |}. Defined.

Definition start (up : bool) : Writer := mkWriter [] [] (gate_new 600 8) metrics_default (mk [] [] up).
Definition events : list Event :=
  [Submit sample_record; Submit sample_record; Submit sample_record; Receive 1 1; Receive 2 2; Tick 3 3].


(** The gate records an error as written before the database has taken it. When that
    write fails, the same code line is refused for the whole freshness window although no row
    of it exists: the second flush does not even try. *)
Theorem failed_error_write_suppressed :
  exists w1 w2 : Writer,
    w1 = flush 0 0 (mkWriter [] [sample_record] (gate_new 600 8) metrics_default (mk [] [] false)) /\
    w2 = flush 599 599 (mkWriter [] [sample_record] (gate w1) (metrics w1) (mk [] [] true)) /\
    write_failures (metrics w1) = 2 /\ errors_written (metrics w1) = 0 /\
    asked_errors (session w2) = [] /\ errors_written (metrics w2) = 0.
Proof. eexists _, _. split; [reflexivity|]. split; [reflexivity|]. vm_compute. done. Qed.

End Recorder.
