(* ===== verification/Server.v ===== *)
(** * Server: one connection of src/src/service/server.rs

    [handle_connection] as a state machine. The reader is the only writer of the connection's
    state; handlers are spawned tasks that report back: their steps ([Complete], [Reply_]) may
    come between any two turns of the reader, with whatever result the component they call
    gives. [outbox] is what was sent to the writer task, [frames] the opcodes of the accepted
    frames, kept to state what is owed to each.

    The colbin decoders and the digest are parameters. The accept loop is in Listener.v, the
    two bounded channels and the writer task in Backpressure.v. Not modelled: the sockets, and
    timers as such: when the idle timeout fires is the environment's choice. *)

From stdpp Require Import strings.
From S2P Require Import Prelude SipHash FrameAuth TimeFrame CreditsBlob Aggregation Storage Access.
From S2P Require Import ChargeProtocol Quota LockRegistry Sequence ReqLog Wire.

(** [LockReply as u8], without its success value. *)
Definition LOCK_BUSY : Z := 1.
Definition LOCK_WAIT_TIMEOUT : Z := 2.
Definition LOCK_CAPACITY : Z := 3.
Definition LOCK_MISUSE : Z := 4.

(** A lock this connection holds. [guard] names the registry task whose [LockGuard] this is. *)
Record HeldLock := mkHeldLock { guard : Task; generation : Z; expires_at : Z }.

#[export] Instance HeldLock_eq_dec : EqDecision HeldLock.
Proof. solve_decision. Defined.

Record AcquireOutcome := mkAcquireOutcome { ao_key : LockKey; granted : option HeldLock }.

(** What a spawned handler was given. *)
Inductive Handler :=
| HCharge (request : ChargeProtocol.Request)
| HBudget (mutation : BudgetMutation)
| HAcquire (request : AcquireRequest) (lease : Z)
| HInvalidate (invalidation : AccessInvalidation)
| HReserve (request : ReserveRequest)
| HSet (request : SetRequest).

(** A running handler: still in its call, or about to send its reply. *)
Inductive HandlerState := Running (h : Handler) | Answering (r : Reply).

(** What the call of a handler came back with. *)
Inductive HandlerResult :=
| RCharge (r : result anyhow Quota.Decision)
| RBudget (r : result anyhow BudgetMutationReply)
| RAcquire (t : Task) (o : LockOutcome) (now : Z)
| RInvalidate
| RSequence (r : result anyhow Z).

(** Why the connection ended: [Ok(())], or an error. *)
Inductive Stop := Clean | Failed (message : string).

Record Conn := mkConn {
  nonce : bytes;
  sequence : Z;
  held : gmap LockKey HeldLock;
  handlers : list (Z * HandlerState);
  outcomes : list AcquireOutcome;
  outbox : list (Z * Reply);
  submitted : list RequestLogRecord;
  frames : list Opcode;
  stopped : option Stop;
}.

(** ** Replies *)

Definition granted_reply (v : AccessVerdict) : Reply :=
  ChargeGranted (granted_mask v) (has_subs_mask v) (sub_bytes v).

Definition charge_reply (request : ChargeProtocol.Request) (r : result anyhow Quota.Decision) : Reply :=
  match r with
  | Ok (Quota.Allowed verdict) =>
      if requests_authorization request then granted_reply verdict else ChargeAllowed
  | Ok (Quota.CreditViolation violation) => ChargeCreditViolation (response_byte violation)
  | Ok (Quota.AccessDenied denial) => ChargeAccessDenied (wrap 8 (detail_code denial))
  | Err _ => Unavailable
  end.

Definition budget_reply_code (r : BudgetMutationReply) : Z :=
  match r with BudgetOk => 0 | CurrentMonthNotConfigured => 1 | ChargeProtocol.Overflow => 2 end.

Definition budget_reply (r : result anyhow BudgetMutationReply) : Reply :=
  match r with
  | Ok BudgetOk => Ack
  | Ok refusal => BudgetRefused (budget_reply_code refusal)
  | Err _ => Unavailable
  end.

Definition acquire_reply (t : Task) (o : LockOutcome) (now lease : Z) : Reply * option HeldLock :=
  match o with
  | Acquired generation => (LockGranted generation, Some (mkHeldLock t generation (now + lease)))
  | Busy => (LockRefused LOCK_BUSY, None)
  | WaitTimeout => (LockRefused LOCK_WAIT_TIMEOUT, None)
  | Capacity => (LockRefused LOCK_CAPACITY, None)
  end.

Definition sequence_reply (r : result anyhow Z) : Reply :=
  match r with Ok value => SequenceValue value | Err _ => Unavailable end.

(** A completed call: what is reported to the reader, and the reply that follows, if any. *)
Definition complete (h : Handler) (r : HandlerResult) : option (option AcquireOutcome * option Reply) :=
  match h, r with
  | HCharge request, RCharge r => Some (None, Some (charge_reply request r))
  | HBudget _, RBudget r => Some (None, Some (budget_reply r))
  | HAcquire request lease, RAcquire t o now =>
      let '(reply, lock) := acquire_reply t o now lease in
      Some (Some (mkAcquireOutcome (request_key request) lock), Some reply)
  | HInvalidate _, RInvalidate => Some (None, None)
  | HReserve _, RSequence r | HSet _, RSequence r => Some (None, Some (sequence_reply r))
  | _, _ => None
  end.

(** ** Held locks *)

(** [drop_expired]: what stays, and the keys that are gone. *)
Definition drop_expired (now : Z) (held : gmap LockKey HeldLock) : gmap LockKey HeldLock * list LockKey :=
  (filter (fun kv => now < expires_at kv.2) held,
   (map_to_list (filter (fun kv => ~ now < expires_at kv.2) held)).*1).

Definition release_lock (r : ReleaseRequest) (held : gmap LockKey HeldLock) :
    Reply * gmap LockKey HeldLock :=
  let key := (rel_action r, rel_identifier r) in
  match held !! key with
  | Some lock =>
      if generation lock =? rel_generation r then (Ack, delete key held)
      else (LockRefused LOCK_MISUSE, held)
  | None => (LockRefused LOCK_MISUSE, held)
  end.

(** ** The connection's own state changes *)

Definition set_held (m : gmap LockKey HeldLock) (c : Conn) : Conn :=
  mkConn (nonce c) (sequence c) m (handlers c) (outcomes c) (outbox c) (submitted c) (frames c) (stopped c).
Definition set_handlers (hs : list (Z * HandlerState)) (c : Conn) : Conn :=
  mkConn (nonce c) (sequence c) (held c) hs (outcomes c) (outbox c) (submitted c) (frames c) (stopped c).
Definition set_outcomes (os : list AcquireOutcome) (c : Conn) : Conn :=
  mkConn (nonce c) (sequence c) (held c) (handlers c) os (outbox c) (submitted c) (frames c) (stopped c).
Definition submit_log (r : RequestLogRecord) (c : Conn) : Conn :=
  mkConn (nonce c) (sequence c) (held c) (handlers c) (outcomes c) (outbox c) (submitted c ++ [r])
    (frames c) (stopped c).
Definition send_reply (s : Z) (r : Reply) (c : Conn) : Conn :=
  mkConn (nonce c) (sequence c) (held c) (handlers c) (outcomes c) (outbox c ++ [(s, r)]) (submitted c)
    (frames c) (stopped c).
Definition accept_frame (o : Opcode) (c : Conn) : Conn :=
  mkConn (nonce c) (sequence c + 1) (held c) (handlers c) (outcomes c) (outbox c) (submitted c)
    (frames c ++ [o]) (stopped c).
Definition spawn_handler (s : Z) (h : Handler) (c : Conn) : Conn :=
  set_handlers (handlers c ++ [(s, Running h)]) c.

(** The end: handlers are aborted, [held] is cleared, the channels are dropped. *)
Definition close (stop : Stop) (c : Conn) : Conn :=
  mkConn (nonce c) (sequence c) ∅ [] [] (outbox c) (submitted c) (frames c) (Some stop).

(** The head of the reader's loop. *)
Definition expire (now : Z) (c : Conn) : Conn :=
  let '(kept, expired) := drop_expired now (held c) in
  foldl (fun c key => send_reply 0 (LockLost key.1 key.2) c) (set_held kept c) expired.

(** ** Frames *)

(** The reads of one frame: the opcode, the bytes the tag covers, the payload, the tag and the
    rest of the stream. A stream that ends before its first byte is a clean end. *)
Definition read_frame (stream : bytes) : result Stop (Opcode * bytes * bytes * bytes * bytes) :=
  match stream with
  | [] => Err Clean
  | byte :: r1 =>
      opcode ← ok_or (Failed "unknown opcode") (opcode_from_byte byte);
      '(len, r2) ← ok_or (Failed "frame length read failed") (read_full LENGTH_PREFIX_SIZE r1);
      let payload_size := Z.to_nat (of_be len) in
      if (max_payload_size opcode <? payload_size)%nat
      then Err (Failed "frame declares a payload over the ceiling")
      else
        '(body, rest) ← ok_or (Failed "frame body read failed")
          (read_full (payload_size + AUTH_TAG_SIZE) r2);
        Ok (opcode, byte :: len ++ take payload_size body, take payload_size body,
            drop payload_size body, rest)
  end.

(** The client's frame (src/go/connection.go), tagged for one position in the stream. *)
Definition buildFarewardFrame (sha256 : bytes -> bytes) (secret nonce : bytes) (sequence : Z)
    (opcode : Opcode) (payload : bytes) : bytes :=
  let signed := opcode_byte opcode :: be_bytes 2 (wrap 16 (zlen payload)) ++ payload in
  signed ++ compute_hash sha256 secret nonce sequence signed.

(** The two in-flight ceilings. *)
Definition is_sequence (o : Opcode) : bool :=
  match o with ReserveSequence | SetSequence => true | _ => false end.

Section Connection.
Context (sha256 : bytes -> bytes) (ct_eq : bytes -> bytes -> bool).
Context (decode_charge : bytes -> option ChargeFrame) (decode_budget : bytes -> option BudgetMutationFrame).
Context (decode_acquire : bytes -> option AcquireRequest) (decode_release : bytes -> option ReleaseRequest).
Context (decode_log : bytes -> option RequestLogRecord) (decode_invalidation : bytes -> option AccessInvalidation).
Variable limits : LockLimits.
Variable secret : bytes.
Variable max_inflight : nat.

Definition handler_class (c : Conn) (s : Z) : bool :=
  match frames c !! Z.to_nat s with Some o => is_sequence o | None => false end.

(** How many handlers hold a permit of the class. *)
Definition inflight (seq : bool) (c : Conn) : nat :=
  length (filter (fun sh => handler_class c sh.1 = seq) (handlers c)).

Definition permit (o : Opcode) (c : Conn) : bool := (inflight (is_sequence o) c <? max_inflight)%nat.

Definition invalid : string := "authenticated frame is invalid".

(** The body of the match on the opcode, for the frame [s]; [permitted] is whether the
    in-flight permit was there. *)
Definition dispatch (o : Opcode) (payload : bytes) (s : Z) (permitted : bool) (c : Conn) : Conn :=
  match o with
  | ChargeCredits =>
      match parse_charge decode_charge payload with
      | Err _ => close (Failed invalid) c
      | Ok request =>
          if permitted then spawn_handler s (HCharge request) c else send_reply s Unavailable c
      end
  | MutateCompanyBudget =>
      match parse_budget_mutation decode_budget payload with
      | Err _ => close (Failed invalid) c
      | Ok mutation =>
          if permitted then spawn_handler s (HBudget mutation) c else send_reply s Unavailable c
      end
  | LockAcquire =>
      match parse_acquire decode_acquire payload with
      | Err _ => close (Failed invalid) c
      | Ok request =>
          if permitted then spawn_handler s (HAcquire request (clamp_lease limits (lease_ms request))) c
          else send_reply s (LockRefused LOCK_CAPACITY) c
      end
  | LockRelease =>
      match parse_release decode_release payload with
      | Err _ => close (Failed invalid) c
      | Ok request =>
          let '(reply, held') := release_lock request (held c) in
          send_reply s reply (set_held held' c)
      end
  | LogRequest =>
      match parse_request_log decode_log payload with
      | Err _ => c
      | Ok record => submit_log record c
      end
  | InvalidateUserAccess =>
      match parse_access_invalidation decode_invalidation payload with
      | Err _ => close (Failed invalid) c
      | Ok invalidation => if permitted then spawn_handler s (HInvalidate invalidation) c else c
      end
  | ReserveSequence =>
      match parse_reserve payload with
      | Err _ => send_reply s SequenceInvalid c
      | Ok request =>
          if permitted then spawn_handler s (HReserve request) c else send_reply s Unavailable c
      end
  | SetSequence =>
      match parse_set payload with
      | Err _ => send_reply s SequenceInvalid c
      | Ok request =>
          if permitted then spawn_handler s (HSet request) c else send_reply s Unavailable c
      end
  end.

(** One frame off the stream: read, authenticated at the current sequence, dispatched. *)
Definition on_frame (stream : bytes) (c : Conn) : Conn * bytes :=
  match read_frame stream with
  | Err stop => (close stop c, [])
  | Ok (o, signed, payload, tag, rest) =>
      if verify_hash sha256 ct_eq secret (nonce c) (sequence c) signed tag then
        if sequence c =? U64_MAX then (close (Failed "frame sequence overflow") c, [])
        else (dispatch o payload (sequence c) (permit o c) (accept_frame o c), rest)
      else (close Clean c, [])
  end.

(** A report from an acquire: the only place [held] grows. *)
Definition on_report (c : Conn) : Conn :=
  match outcomes c with
  | [] => c
  | outcome :: rest =>
      let c1 := set_outcomes rest c in
      match granted outcome with
      | Some lock => set_held (<[ao_key outcome := lock]> (held c1)) c1
      | None => c1
      end
  end.

(** The idle timeout: not fatal while a lock is held. *)
Definition on_timeout (c : Conn) : Conn :=
  if bool_decide (held c = ∅) then close (Failed "idle timeout waiting for an opcode") c else c.

(** ** The whole connection *)

Inductive Event :=
| TurnFrame (now : Z) (stream : bytes)
| TurnReport (now : Z)
| TurnTimeout (now : Z)
| TurnShutdown (now : Z)
| Complete (i : nat) (r : HandlerResult)
| Reply_ (i : nat).

Definition delete_at {A} (i : nat) (l : list A) : list A := take i l ++ drop (S i) l.

Definition step (e : Event) (c : Conn) : Conn :=
  match stopped c with
  | Some _ => c
  | None =>
      match e with
      | TurnFrame now stream => (on_frame stream (expire now c)).1
      | TurnReport now => on_report (expire now c)
      | TurnTimeout now => on_timeout (expire now c)
      | TurnShutdown now => close Clean (expire now c)
      | Complete i r =>
          match handlers c !! i with
          | Some (s, Running h) =>
              match complete h r with
              | Some (outcome, reply) =>
                  let c1 := set_outcomes (outcomes c ++ from_option (fun o => [o]) [] outcome) c in
                  match reply with
                  | Some r => set_handlers (<[i := (s, Answering r)]> (handlers c)) c1
                  | None => set_handlers (delete_at i (handlers c)) c1
                  end
              | None => c
              end
          | _ => c
          end
      | Reply_ i =>
          match handlers c !! i with
          | Some (s, Answering r) => send_reply s r (set_handlers (delete_at i (handlers c)) c)
          | _ => c
          end
      end
  end.

Fixpoint run (events : list Event) (c : Conn) : Conn :=
  match events with [] => c | e :: rest => run rest (step e c) end.

Definition connection (n : bytes) : Conn := mkConn n 0 ∅ [] [] [] [] [] None.

End Connection.
