(* ===== verification/ServerLaws.v ===== *)
(** * ServerLaws: what a connection guarantees

    Every accepted frame was authenticated at its own position in the stream; every request
    that expects an answer gets exactly one, with its own correlation; work in flight stays
    under its two ceilings; and a hold ends only by its deadline, by a release that presents
    its generation, by a later grant, or with the connection. *)

From stdpp Require Import strings.
From S2P Require Import Prelude SipHash FrameAuth TimeFrame CreditsBlob Aggregation Storage Access.
From S2P Require Import ChargeProtocol Quota LockRegistry Sequence ReqLog Wire Server.

(** ** Counting *)

Section Counting.
Context {A : Type} (P : A -> bool).

Definition tally (l : list A) : nat := length (filter (fun x => P x = true) l).

Lemma tally_app l1 l2 : tally (l1 ++ l2) = (tally l1 + tally l2)%nat.
Proof. unfold tally. by rewrite filter_app, length_app. Qed.

Lemma tally_one x : tally [x] = Nat.b2n (P x).
Proof. unfold tally. rewrite filter_cons. case_decide as E; [by rewrite E|by destruct (P x)]. Qed.

Lemma tally_split l i x :
  l !! i = Some x -> tally l = (tally (take i l) + Nat.b2n (P x) + tally (drop (S i) l))%nat.
Proof.
  intros H. rewrite <- (take_drop_middle l i x H) at 1.
  rewrite (cons_middle x), !tally_app, tally_one. lia.
Qed.

Lemma tally_delete l i x : l !! i = Some x -> (tally (delete_at i l) + Nat.b2n (P x))%nat = tally l.
Proof. intros H. rewrite (tally_split l i x H). unfold delete_at. rewrite tally_app. lia. Qed.

Lemma tally_insert l i x y :
  l !! i = Some x -> (tally (<[i := y]> l) + Nat.b2n (P x))%nat = (tally l + Nat.b2n (P y))%nat.
Proof.
  intros H. rewrite (tally_split l i x H).
  rewrite insert_take_drop by (by eapply lookup_lt_Some).
  rewrite (cons_middle y), !tally_app, tally_one. lia.
Qed.

End Counting.

Lemma tally_ext {A} (P Q : A -> bool) l : (forall x, x ∈ l -> P x = Q x) -> tally P l = tally Q l.
Proof.
  intros H. induction l as [|x l IH]; [done|].
  change (x :: l) with ([x] ++ l). rewrite !tally_app, !tally_one, IH by (intros; apply H; by right).
  rewrite H by left. done.
Qed.

Lemma tally_false {A} (l : list A) : tally (fun _ => false) l = 0%nat.
Proof.
  induction l as [|x l IH]; [done|]. change (x :: l) with ([x] ++ l).
  by rewrite tally_app, tally_one, IH.
Qed.

Lemma elem_delete_at {A} (x : A) i l : x ∈ delete_at i l -> x ∈ l.
Proof.
  unfold delete_at. intros [H|H]%elem_of_app.
  - apply elem_of_take in H as (j & Hj & _). by eapply list_elem_of_lookup_2.
  - rewrite <- (take_drop (S i) l). apply elem_of_app. by right.
Qed.

(** ** What is owed *)

Definition is_answer (s : Z) (x : Z * Reply) : bool := (x.1 =? s) && negb (is_push (shape x.2)).

(** A handler that has still to reply. *)
Definition owes (s : Z) (x : Z * HandlerState) : bool :=
  (x.1 =? s) && match x.2 with Running (HInvalidate _) => false | _ => true end.

Definition answers (s : Z) (c : Conn) : nat := tally (is_answer s) (outbox c).
Definition owed (s : Z) (c : Conn) : nat := tally (owes s) (handlers c).

Definition expected (c : Conn) (s : Z) : nat :=
  match frames c !! Z.to_nat s with Some o => Nat.b2n (expects_reply o) | None => 0 end.

Section Laws.
Context (sha256 : bytes -> bytes) (ct_eq : bytes -> bytes -> bool).
Context (decode_charge : bytes -> option ChargeFrame) (decode_budget : bytes -> option BudgetMutationFrame).
Context (decode_acquire : bytes -> option AcquireRequest) (decode_release : bytes -> option ReleaseRequest).
Context (decode_log : bytes -> option RequestLogRecord) (decode_invalidation : bytes -> option AccessInvalidation).
Variable limits : LockLimits.
Variable secret : bytes.
Variable max_inflight : nat.

Abbreviation step :=
  (step sha256 ct_eq decode_charge decode_budget decode_acquire decode_release decode_log
     decode_invalidation limits secret max_inflight).
Abbreviation run :=
  (run sha256 ct_eq decode_charge decode_budget decode_acquire decode_release decode_log
     decode_invalidation limits secret max_inflight).
Abbreviation dispatch :=
  (dispatch decode_charge decode_budget decode_acquire decode_release decode_log
     decode_invalidation limits).
Abbreviation on_frame :=
  (on_frame sha256 ct_eq decode_charge decode_budget decode_acquire decode_release decode_log
     decode_invalidation limits secret max_inflight).

Record Inv (c : Conn) : Prop := {
  iv_sequence : sequence c = zlen (frames c);
  iv_handlers : forall s h, (s, h) ∈ handlers c -> 0 <= s < sequence c;
  iv_answering : forall s r, (s, Answering r) ∈ handlers c -> is_push (shape r) = false;
  iv_outbox : forall s r, (s, r) ∈ outbox c -> is_push (shape r) = false -> 0 <= s < sequence c;
  iv_balance : forall s, 0 <= s < sequence c ->
    (answers s c + owed s c <= expected c s)%nat /\
    (stopped c = None -> (answers s c + owed s c)%nat = expected c s);
  iv_inflight : forall b, (inflight b c <= max_inflight)%nat;
}.

Lemma inflight_tally b c : inflight b c = tally (fun x => bool_decide (handler_class c x.1 = b)) (handlers c).
Proof.
  unfold inflight, tally. f_equal. apply list_filter_iff. intros x. by rewrite bool_decide_eq_true.
Qed.

(** Pushes change nothing of this. *)
Definition same_but_held (c c' : Conn) : Prop :=
  sequence c' = sequence c /\ handlers c' = handlers c /\ frames c' = frames c /\ stopped c' = stopped c /\
  nonce c' = nonce c /\ outcomes c' = outcomes c /\ submitted c' = submitted c /\
  (forall s, answers s c' = answers s c) /\
  (forall s r, (s, r) ∈ outbox c' -> is_push (shape r) = false -> (s, r) ∈ outbox c).

Lemma same_inv c c' : same_but_held c c' -> Inv c -> Inv c'.
Proof.
  intros (Es & Eh & Ef & Est & _ & _ & _ & Ea & Eo) [H1 H2 H3 H4 H5 H6].
  split; rewrite ?Es, ?Eh, ?Ef; auto.
  - intros s r Hin Hp. eapply H4; [by apply Eo|done].
  - intros s Hs. unfold owed, expected. rewrite Ea, Eh, Ef, Est. by apply H5.
  - intros b. specialize (H6 b). unfold inflight, handler_class in *. by rewrite Eh, Ef.
Qed.

Lemma same_trans c1 c2 c3 : same_but_held c1 c2 -> same_but_held c2 c3 -> same_but_held c1 c3.
Proof.
  intros (?&?&?&?&?&?&?&?&?) (?&?&?&?&?&?&?&Ha&?). repeat split; try congruence; eauto.
Qed.

Lemma push_same c s r : is_push (shape r) = true -> same_but_held c (send_reply s r c).
Proof.
  intros Hp. repeat split; simpl.
  - intros s0. unfold answers. simpl. rewrite tally_app, tally_one. unfold is_answer. simpl.
    rewrite Hp, andb_false_r. simpl. lia.
  - intros s0 r0 [H|H]%elem_of_app Hn; [done|].
    apply list_elem_of_singleton in H as [= -> ->]. congruence.
Qed.

Lemma held_same c m : same_but_held c (set_held m c).
Proof. by repeat split. Qed.

Lemma expire_same now c : same_but_held c (expire now c).
Proof.
  unfold expire, drop_expired. generalize (held_same c (filter (fun kv => now < expires_at kv.2) (held c))).
  generalize (set_held (filter (fun kv => now < expires_at kv.2) (held c)) c).
  generalize ((map_to_list (filter (fun kv => ~ now < expires_at kv.2) (held c))).*1).
  intros keys. induction keys as [|k keys IH]; intros c' Hc'; [done|].
  apply IH. eapply same_trans; [exact Hc'|by apply push_same].
Qed.

(** ** The reader's turns *)

Lemma inv_close stop c : Inv c -> Inv (close stop c).
Proof.
  intros [H1 H2 H3 H4 H5 H6]. split; simpl; try done.
  - by intros s h ?%not_elem_of_nil.
  - by intros s r ?%not_elem_of_nil.
  - intros s Hs. split; [|done]. destruct (H5 s Hs) as [Hle _]. unfold owed, answers, expected in *.
    simpl. unfold tally at 2. simpl. lia.
  - intros b. unfold inflight. simpl. lia.
Qed.

Lemma inflight_old b c o :
  (forall s h, (s, h) ∈ handlers c -> 0 <= s < zlen (frames c)) ->
  tally (fun x : Z * HandlerState => bool_decide (handler_class (accept_frame o c) x.1 = b)) (handlers c) =
  tally (fun x => bool_decide (handler_class c x.1 = b)) (handlers c).
Proof.
  intros H. apply tally_ext. intros [s h] Hin. specialize (H s h Hin). f_equal. unfold handler_class. simpl.
  rewrite lookup_app_l by lia. done.
Qed.

(** The state after a frame is accepted and before its dispatch: what it is owed is open. *)
Definition open_frame (s : Z) (o : Opcode) (c : Conn) : Prop :=
  sequence c = zlen (frames c) /\ s + 1 = sequence c /\ 0 <= s /\ frames c !! Z.to_nat s = Some o /\
  stopped c = None /\
  (forall s h, (s, h) ∈ handlers c -> 0 <= s < sequence c) /\
  (forall s r, (s, Answering r) ∈ handlers c -> is_push (shape r) = false) /\
  (forall s r, (s, r) ∈ outbox c -> is_push (shape r) = false -> 0 <= s < sequence c) /\
  (forall s', 0 <= s' < s -> (answers s' c + owed s' c)%nat = expected c s') /\
  answers s c = 0%nat /\ owed s c = 0%nat /\
  (forall b, (inflight b c <= max_inflight)%nat).

Lemma accept_open c o :
  Inv c -> stopped c = None -> open_frame (sequence c) o (accept_frame o c).
Proof.
  intros [H1 H2 H3 H4 H5 H6] Hst. unfold open_frame. simpl. rewrite length_app. simpl.
  assert (forall s, 0 <= s < sequence c -> expected (accept_frame o c) s = expected c s) as Hexp.
  { intros s Hs. unfold expected. simpl. by rewrite lookup_app_l by lia. }
  split; [lia|]. split; [done|]. split; [lia|]. split.
  { rewrite lookup_app_r by lia. by replace (Z.to_nat (sequence c) - length (frames c))%nat with 0%nat by lia. }
  split; [done|]. split; [intros s h Hin; specialize (H2 s h Hin); lia|]. split; [done|].
  split; [intros s r Hin Hp; specialize (H4 s r Hin Hp); lia|].
  split; [intros s Hs; rewrite Hexp by done; by apply H5|].
  split.
  { unfold answers. simpl. rewrite (tally_ext _ (fun _ => false)).
    - apply tally_false.
    - intros [s r] Hin. unfold is_answer. simpl. destruct (is_push (shape r)) eqn:Ep; [by rewrite andb_false_r|].
      specialize (H4 s r Hin Ep). destruct (Z.eqb_spec s (sequence c)); [lia|done]. }
  split.
  { unfold owed. simpl. rewrite (tally_ext _ (fun _ => false)).
    - apply tally_false.
    - intros [s h] Hin. unfold owes. simpl. specialize (H2 s h Hin). destruct (Z.eqb_spec s (sequence c)); [lia|done]. }
  intros b. rewrite inflight_tally. simpl. rewrite inflight_old by (by rewrite <- H1).
  rewrite <- inflight_tally. done.
Qed.

(** Closing the account of the frame: nothing is owed, ... *)
Lemma settle_silent s o c : open_frame s o c -> expects_reply o = false -> Inv c.
Proof.
  intros (H1&H2&H3&H4&H5&H6&H7&H8&H9&H10&H11&H12) Ho. split; try done.
  intros s' Hs'. destruct (decide (s' = s)) as [->|Hne].
  - unfold expected. rewrite H4, Ho, H10, H11. done.
  - rewrite H9 by lia. done.
Qed.

(** ... it is answered at once, ... *)
Lemma settle_answer s o c r :
  open_frame s o c -> expects_reply o = true -> is_push (shape r) = false -> Inv (send_reply s r c).
Proof.
  intros (H1&H2&H3&H4&H5&H6&H7&H8&H9&H10&H11&H12) Ho Hr. split; try done.
  - simpl. intros s' r' [Hin|Hin]%elem_of_app Hp; [by eapply H8|].
    apply list_elem_of_singleton in Hin as [= -> ->]. lia.
  - intros s' Hs'. simpl in Hs'.
    assert (answers s' (send_reply s r c) = answers s' c + Nat.b2n (s =? s')%Z)%nat as ->.
    { unfold answers. simpl. rewrite tally_app, tally_one. unfold is_answer at 2. simpl.
      by rewrite Hr, andb_true_r. }
    change (owed s' (send_reply s r c)) with (owed s' c).
    change (expected (send_reply s r c) s') with (expected c s').
    destruct (Z.eqb_spec s s') as [<-|Hne]; simpl.
    + unfold expected. rewrite H4, Ho, H10, H11. done.
    + rewrite Nat.add_0_r, H9 by lia. done.
Qed.

(** ... or a handler owes it. *)
Lemma settle_spawn s o c h :
  open_frame s o c -> (inflight (is_sequence o) c < max_inflight)%nat ->
  expects_reply o = match h with HInvalidate _ => false | _ => true end ->
  Inv (spawn_handler s h c).
Proof.
  intros (H1&H2&H3&H4&H5&H6&H7&H8&H9&H10&H11&H12) Hroom Ho. split; try done.
  - simpl. intros s' h' [Hin|Hin]%elem_of_app; [by eapply H6|].
    apply list_elem_of_singleton in Hin as [= -> ->]. lia.
  - simpl. intros s' r [Hin|Hin]%elem_of_app; [by eapply H7|]. by apply list_elem_of_singleton in Hin.
  - intros s' Hs'. simpl in Hs'.
    assert (owed s' (spawn_handler s h c) = owed s' c + Nat.b2n ((s =? s')%Z && expects_reply o))%nat as ->.
    { unfold owed. simpl. rewrite tally_app, tally_one. unfold owes at 2. simpl. by rewrite Ho. }
    change (answers s' (spawn_handler s h c)) with (answers s' c).
    change (expected (spawn_handler s h c) s') with (expected c s').
    destruct (Z.eqb_spec s s') as [<-|Hne]; simpl.
    + unfold expected. rewrite H4, H10, H11. done.
    + rewrite Nat.add_0_r, H9 by lia. done.
  - intros b. rewrite inflight_tally. simpl. rewrite tally_app, tally_one. cbn [fst].
    assert (handler_class (spawn_handler s h c) s = is_sequence o) as ->
      by (unfold handler_class; simpl; by rewrite H4).
    change (handler_class (spawn_handler s h c)) with (handler_class c).
    rewrite <- inflight_tally. case_bool_decide as Eb; [subst b; simpl; lia|].
    specialize (H12 b). simpl. lia.
Qed.

Lemma open_held s o c m : open_frame s o c -> open_frame s o (set_held m c).
Proof. done. Qed.

Lemma open_submit s o c r : open_frame s o c -> open_frame s o (submit_log r c).
Proof. done. Qed.

Lemma open_permit o c : 
  Inv c -> permit max_inflight o c = true -> (inflight (is_sequence o) (accept_frame o c) < max_inflight)%nat.
Proof.
  intros [H1 H2 _ _ _ _] Hp%Nat.ltb_lt. rewrite inflight_tally. simpl.
  rewrite inflight_old by (by rewrite <- H1). by rewrite <- inflight_tally.
Qed.

Lemma settle_close s o c stop : open_frame s o c -> Inv (close stop c).
Proof.
  intros (H1&H2&H3&H4&H5&H6&H7&H8&H9&H10&H11&H12). split; simpl; try done.
  - by intros s' h ?%not_elem_of_nil.
  - by intros s' r ?%not_elem_of_nil.
  - intros s' Hs'. split; [|done]. change (answers s' (close stop c)) with (answers s' c).
    change (owed s' (close stop c)) with 0%nat. change (expected (close stop c) s') with (expected c s').
    destruct (decide (s' = s)) as [->|Hne]; [lia|]. rewrite <- H9 by lia. lia.
  - intros b. unfold inflight. simpl. lia.
Qed.

Lemma inv_dispatch s o c payload permitted :
  open_frame s o c -> (permitted = true -> (inflight (is_sequence o) c < max_inflight)%nat) ->
  Inv (dispatch o payload s permitted c).
Proof.
  intros Ho Hp. destruct o; simpl.
  all: try (match goal with |- context [match ?r with Ok _ => _ | Err _ => _ end] => destruct r end;
            [|first [by eapply settle_close|by eapply settle_answer|by eapply settle_silent]]).
  all: try (destruct permitted;
            [eapply settle_spawn; [exact Ho|by apply Hp|done]
            |first [by eapply settle_answer|by eapply settle_silent]]).
  - unfold release_lock. repeat case_match; simplify_eq;
      (eapply settle_answer; [apply open_held; exact Ho|done|done]).
  - eapply settle_silent; [apply open_submit; exact Ho|done].
Qed.

Lemma inv_on_frame stream c : Inv c -> stopped c = None -> Inv (on_frame stream c).1.
Proof.
  intros I Hst. unfold Server.on_frame.
  destruct (read_frame stream) as [[[[[o signed] payload] tag] rest]|stop]; [|by apply inv_close].
  destruct (verify_hash _ _ _ _ _ _ _); [|by apply inv_close].
  destruct (sequence c =? U64_MAX); [by apply inv_close|]. simpl.
  apply inv_dispatch; [by apply accept_open|]. intros Hp. by apply open_permit.
Qed.

Lemma report_inv c : Inv c -> Inv (on_report c).
Proof.
  intros I. unfold on_report. destruct (outcomes c) as [|x rest]; [done|].
  destruct I as [H1 H2 H3 H4 H5 H6]. by destruct (granted x).
Qed.

Lemma complete_reply h r outcome reply :
  complete h r = Some (outcome, reply) ->
  match reply with
  | Some r => is_push (shape r) = false /\ owes 0 (0, Running h) = true
  | None => owes 0 (0, Running h) = false
  end.
Proof.
  destruct h, r; simpl; try done;
    try (destruct (acquire_reply _ _ _ _) as [rep lock] eqn:E);
    intros [= <- <-]; try done; split; try done.
  - destruct r as [[]|]; simpl; repeat case_match; done.
  - destruct r as [[]|]; done.
  - unfold acquire_reply in E. by destruct o; injection E as <- <-.
  - by destruct r.
  - by destruct r.
Qed.

(** A handler that moves on or ends. *)
Lemma inv_handlers c c' i s hs (hs' : option HandlerState) (n : nat) :
  Inv c -> stopped c = None -> handlers c !! i = Some (s, hs) ->
  sequence c' = sequence c -> frames c' = frames c -> stopped c' = None ->
  handlers c' = match hs' with Some h => <[i := (s, h)]> (handlers c) | None => delete_at i (handlers c) end ->
  (forall r, hs' = Some (Answering r) -> is_push (shape r) = false) ->
  (forall s0 r, (s0, r) ∈ outbox c' -> is_push (shape r) = false -> (s0, r) ∈ outbox c \/ s0 = s) ->
  (forall s0, answers s0 c' = answers s0 c + (if (s =? s0)%Z then n else 0))%nat ->
  (Nat.b2n (owes s (s, hs)) = n + from_option (fun h => Nat.b2n (owes s (s, h))) 0 hs')%nat ->
  Inv c'.
Proof.
  intros [H1 H2 H3 H4 H5 H6] Hst Hi Es Ef Est Eh Hpush Hout Hans Hn.
  assert (forall x, x ∈ handlers c' -> x ∈ handlers c \/ exists h, hs' = Some h /\ x = (s, h)) as Hin.
  { intros x Hx. rewrite Eh in Hx. destruct hs' as [h|]; [|left; by eapply elem_delete_at].
    apply list_elem_of_lookup_1 in Hx as [j Hj]. apply list_lookup_insert_Some in Hj as [(-> & <- & _)|[_ Hj]].
    - right. eauto.
    - left. by eapply list_elem_of_lookup_2. }
  pose proof (H2 s hs ltac:(by eapply list_elem_of_lookup_2)) as Hs.
  split; rewrite ?Es, ?Ef; try done.
  - intros s0 h [Hx|(h' & _ & [= -> ->])]%Hin; [by eapply H2|done].
  - intros s0 r [Hx|(h' & -> & [= -> <-])]%Hin; [by eapply H3|by apply Hpush].
  - intros s0 r Hx Hp. destruct (Hout s0 r Hx Hp) as [Hx'| ->]; [by eapply H4|done].
  - intros s0 Hs0. rewrite Est.
    assert (answers s0 c' + owed s0 c' = answers s0 c + owed s0 c)%nat as E.
    { rewrite Hans. unfold owed. rewrite Eh.
      assert (forall h, owes s0 (s, h) = (s =? s0) && owes s (s, h)) as Hsplit.
      { intros h. unfold owes. simpl. rewrite Z.eqb_refl. done. }
      destruct hs' as [h|]; simpl in Hn.
      - pose proof (tally_insert (owes s0) _ _ _ (s, h) Hi) as E. rewrite !Hsplit in E.
        destruct (Z.eqb_spec s s0) as [<-|]; simpl in E; lia.
      - pose proof (tally_delete (owes s0) _ _ _ Hi) as E. rewrite !Hsplit in E.
        destruct (Z.eqb_spec s s0) as [<-|]; simpl in E; lia. }
    unfold expected. rewrite Ef, E. destruct (H5 s0 Hs0) as [H5a H5b]. split; [done|]. intros _. by apply H5b.
  - intros b. etrans; [|apply (H6 b)]. rewrite !inflight_tally, Eh.
    assert (forall h, (fun x : Z * HandlerState => bool_decide (handler_class c' x.1 = b)) (s, h) =
                      (fun x : Z * HandlerState => bool_decide (handler_class c x.1 = b)) (s, hs)) as Hcl.
    { intros h. simpl. unfold handler_class. by rewrite Ef. }
    rewrite (tally_ext _ (fun x : Z * HandlerState => bool_decide (handler_class c x.1 = b)))
      by (intros x _; unfold handler_class; by rewrite Ef).
    destruct hs' as [h|].
    + pose proof (tally_insert (fun x : Z * HandlerState => bool_decide (handler_class c x.1 = b)) _ _ _ (s, h) Hi).
      simpl in *. lia.
    + pose proof (tally_delete (fun x : Z * HandlerState => bool_decide (handler_class c x.1 = b)) _ _ _ Hi).
      simpl in *. lia.
Qed.

Lemma conn_step_inv e c : Inv c -> Inv (step e c).
Proof.
  intros I. unfold Server.step. destruct (stopped c) as [stop|] eqn:Hst; [done|].
  destruct e as [now stream|now|now|now|i r|i].
  - pose proof (expire_same now c) as Hs. apply inv_on_frame; [by eapply same_inv|].
    destruct Hs as (_&_&_&E&_). congruence.
  - apply report_inv. by eapply same_inv; [apply expire_same|].
  - unfold on_timeout. assert (Inv (expire now c)) by (by eapply same_inv; [apply expire_same|]).
    case_bool_decide; [by apply inv_close|done].
  - apply inv_close. by eapply same_inv; [apply expire_same|].
  - destruct (handlers c !! i) as [[s [h|r']]|] eqn:Hi; [|done|done].
    destruct (complete h r) as [[outcome reply]|] eqn:Ec; [|done].
    pose proof (complete_reply h r outcome reply Ec) as Hr. destruct reply as [rep|].
    + destruct Hr as [Hpush Howes].
      eapply (inv_handlers c _ i s (Running h) (Some (Answering rep)) 0); eauto.
      * by intros ? [= <-].
      * intros s0. case_match; simpl; unfold answers; simpl; lia.
      * simpl. unfold owes in *. simpl in *. rewrite Z.eqb_refl. simpl. by rewrite Howes.
    + eapply (inv_handlers c _ i s (Running h) None 0); eauto.
      * done.
      * intros s0. case_match; simpl; unfold answers; simpl; lia.
      * simpl. unfold owes in *. simpl in *. rewrite Z.eqb_refl. simpl. by rewrite Hr.
  - destruct (handlers c !! i) as [[s [h|r]]|] eqn:Hi; [done| |done].
    pose proof (iv_answering c I s r ltac:(by eapply list_elem_of_lookup_2)) as Hpush.
    eapply (inv_handlers c _ i s (Answering r) None 1); eauto; simpl.
    + done.
    + intros s0 r0 [Hx|Hx]%elem_of_app _; [by left|]. apply list_elem_of_singleton in Hx as [= -> ->]. by right.
    + intros s0. unfold answers. simpl. rewrite tally_app, tally_one. unfold is_answer at 2. simpl.
      rewrite Hpush. simpl. rewrite andb_true_r. by destruct (s =? s0).
    + unfold owes. simpl. by rewrite Z.eqb_refl.
Qed.

Lemma conn_run_inv events c : Inv c -> Inv (run events c).
Proof. revert c. induction events as [|e rest IH]; intros c I; [done|]. by apply IH, conn_step_inv. Qed.

Lemma inv_connection n : Inv (connection n).
Proof.
  split; simpl; try done.
  - by intros s h ?%not_elem_of_nil.
  - by intros s r ?%not_elem_of_nil.
  - by intros s r ?%not_elem_of_nil.
  - intros b. unfold inflight. simpl. lia.
Qed.

(** ** Frames *)

Lemma read_full_Some n a b rest : read_full n a = Some (b, rest) -> a = b ++ rest /\ length b = n.
Proof.
  unfold read_full. destruct (_ <=? _)%nat eqn:E; [|done]. apply Nat.leb_le in E. intros [= <- <-].
  split; [by rewrite take_drop|by apply length_take_le].
Qed.

Lemma opcode_from_byte_Some b o : opcode_from_byte b = Some o -> b = opcode_byte o.
Proof.
  unfold opcode_from_byte.
  repeat match goal with |- context [if ?b =? ?c then _ else _] => destruct (Z.eqb_spec b c) as [->|] end;
    try done; by intros [= <-].
Qed.

(** What a frame that was read is: an opcode, its length, its payload and eight tag bytes. *)
Lemma read_frame_Ok stream o signed payload tag rest :
  bytes_ok stream -> read_frame stream = Ok (o, signed, payload, tag, rest) ->
  stream = signed ++ tag ++ rest /\ length tag = AUTH_TAG_SIZE /\
  signed = opcode_byte o :: be_bytes 2 (zlen payload) ++ payload /\
  (length payload <= max_payload_size o)%nat.
Proof.
  intros Hok. unfold read_frame. destruct stream as [|byte r1]; [done|].
  apply Forall_cons in Hok as [_ Hok1].
  intros (o' & Ho%ok_or_Ok & H)%result_bind_ok. apply opcode_from_byte_Some in Ho as ->.
  apply result_bind_ok in H as ([len r2] & Hl%ok_or_Ok & H). apply read_full_Some in Hl as [-> Hl].
  destruct (_ <? _)%nat eqn:Emax; [done|]. apply Nat.ltb_ge in Emax.
  apply result_bind_ok in H as ([body rest'] & Hb%ok_or_Ok & H). apply read_full_Some in Hb as [-> Hb].
  injection H as <- <- <- <- <-. apply bytes_ok_app in Hok1 as [Hlen _].
  assert (length (take (Z.to_nat (of_be len)) body) = Z.to_nat (of_be len)) as Hp by (apply length_take_le; lia).
  pose proof (of_be_bound len Hlen).
  split; [simpl; by rewrite <- !app_assoc, (app_assoc (take _ body)), take_drop|].
  split; [rewrite length_drop; lia|]. split; [|lia].
  rewrite Hp, Z2Nat.id by lia. pose proof (be_bytes_of_be len Hlen) as E. rewrite Hl in E.
  unfold LENGTH_PREFIX_SIZE in E. by rewrite E.
Qed.

Lemma dispatch_keeps o payload s permitted c :
  frames (dispatch o payload s permitted c) = frames c /\ sequence (dispatch o payload s permitted c) = sequence c /\
  nonce (dispatch o payload s permitted c) = nonce c /\ outcomes (dispatch o payload s permitted c) ⊆ outcomes c.
Proof.
  destruct o; simpl; try destruct (release_lock _ _); repeat case_match; subst;
    repeat (split; [done|]); simpl; set_solver.
Qed.

(** C2: the only frames a connection acts on are authenticated at their own position. A turn
    that reads a frame either closes the connection without counting it, or the stream starts
    with an opcode, a length, a payload of that length and under the opcode's ceiling, and
    eight bytes that verify as the tag of exactly those bytes, under this connection's nonce
    and its current sequence; that sequence is then used up. *)
Theorem frames_authenticated now stream c :
  stopped c = None -> bytes_ok stream ->
  let c' := step (TurnFrame now stream) c in
  nonce c' = nonce c /\
  ((stopped c' <> None /\ frames c' = frames c /\ sequence c' = sequence c) \/
   exists o payload tag rest,
     let signed := opcode_byte o :: be_bytes 2 (zlen payload) ++ payload in
     stream = signed ++ tag ++ rest /\ length tag = AUTH_TAG_SIZE /\
     (length payload <= max_payload_size o)%nat /\
     verify_hash sha256 ct_eq secret (nonce c) (sequence c) signed tag = true /\
     frames c' = frames c ++ [o] /\ sequence c' = sequence c + 1 /\ sequence c <> U64_MAX).
Proof.
  intros Hst Hok. cbv zeta. unfold Server.step. rewrite Hst.
  destruct (expire_same now c) as (Es & _ & Ef & _ & En & _). unfold Server.on_frame. rewrite En, Es.
  destruct (read_frame stream) as [[[[[o signed] payload] tag] rest]|stop] eqn:Er;
    [|by split; [|left]].
  destruct (read_frame_Ok _ _ _ _ _ _ Hok Er) as (Hs & Ht & -> & Hmax).
  destruct (verify_hash _ _ _ _ _ _ _) eqn:Ev; [|by split; [|left]].
  destruct (Z.eqb_spec (sequence c) U64_MAX); [by split; [|left]|]. cbn [fst].
  destruct (dispatch_keeps o payload (sequence c) (permit max_inflight o (expire now c))
    (accept_frame o (expire now c))) as (-> & -> & -> & _). cbn [nonce accept_frame frames sequence].
  rewrite En, Ef, Es. split; [done|]. right. by exists o, payload, tag, rest.
Qed.

(** C1: every request is answered exactly once, with its own correlation. Whatever the
    interleaving of the reader's turns and the handlers, each accepted frame whose opcode
    expects a reply has, while the connection is open, either one reply sent under its
    sequence or one handler that owes it, never both nor two; the two other opcodes get none;
    no reply is sent under a sequence no frame had; and the handlers of each class stay under
    the in-flight ceiling. *)
Theorem every_request_answered_once n events :
  let c := run events (connection n) in
  (forall s o, frames c !! s = Some o ->
     (answers (Z.of_nat s) c + owed (Z.of_nat s) c <= Nat.b2n (expects_reply o))%nat /\
     (stopped c = None ->
      (answers (Z.of_nat s) c + owed (Z.of_nat s) c)%nat = Nat.b2n (expects_reply o))) /\
  (forall s r, (s, r) ∈ outbox c -> is_push (shape r) = false -> 0 <= s < zlen (frames c)) /\
  (forall b, (inflight b c <= max_inflight)%nat).
Proof.
  cbv zeta. destruct (conn_run_inv events _ (inv_connection n)) as [H1 H2 H3 H4 H5 H6].
  split; [|split; [|done]].
  - intros s o Hs. pose proof (lookup_lt_Some _ _ _ Hs).
    assert (expected (run events (connection n)) (Z.of_nat s) = Nat.b2n (expects_reply o)) as <-
      by (unfold expected; by rewrite Nat2Z.id, Hs).
    apply H5. rewrite H1. lia.
  - intros s r Hin Hp. rewrite <- H1. by eapply H4.
Qed.

(** ** Holds *)

Lemma expire_held now c : held (expire now c) = filter (fun kv => now < expires_at kv.2) (held c).
Proof.
  unfold expire, drop_expired. generalize ((map_to_list (filter (fun kv => ~ now < expires_at kv.2) (held c))).*1).
  intros keys. change (filter (fun kv => now < expires_at kv.2) (held c)) with
    (held (set_held (filter (fun kv => now < expires_at kv.2) (held c)) c)) at 2.
  generalize (set_held (filter (fun kv => now < expires_at kv.2) (held c)) c).
  induction keys as [|k keys IH]; intros c'; simpl; [done|]. by rewrite IH.
Qed.

Lemma expire_outbox now c :
  outbox (expire now c) = outbox c ++
    ((fun key => (0, LockLost key.1 key.2)) <$> (drop_expired now (held c)).2).
Proof.
  unfold expire. destruct (drop_expired now (held c)) as [kept keys]. cbn [snd].
  change (outbox c) with (outbox (set_held kept c)). generalize (set_held kept c).
  induction keys as [|k keys IH]; intros c'; simpl; [by rewrite app_nil_r|].
  rewrite IH. simpl. by rewrite <- app_assoc.
Qed.

Lemma expired_pushed now c key lock :
  held c !! key = Some lock -> expires_at lock <= now ->
  (0, LockLost key.1 key.2) ∈ outbox (expire now c).
Proof.
  intros Hk He. rewrite expire_outbox. apply elem_of_app. right.
  apply list_elem_of_fmap. exists key. split; [done|].
  apply list_elem_of_fmap. exists (key, lock). split; [done|]. apply elem_of_map_to_list.
  apply map_lookup_filter_Some. split; [done|]. simpl. lia.
Qed.

(** The holds after a dispatch: all of them, none of them, or all but the released one. *)
Lemma dispatch_held o payload s permitted c :
  stopped c = None ->
  held (dispatch o payload s permitted c) = held c \/ stopped (dispatch o payload s permitted c) <> None \/
  exists r, o = LockRelease /\ parse_release decode_release payload = Ok r /\
    (s, Ack) ∈ outbox (dispatch o payload s permitted c) /\
    held (dispatch o payload s permitted c) = delete (rel_action r, rel_identifier r) (held c) /\
    exists lock, held c !! (rel_action r, rel_identifier r) = Some lock /\ generation lock = rel_generation r.
Proof.
  intros Hst. destruct o; simpl; try (repeat case_match; subst; by auto).
  destruct (parse_release decode_release payload) as [r|] eqn:Er; [|by auto].
  unfold release_lock. destruct (held c !! _) as [lock|] eqn:Eh; [|by auto].
  destruct (Z.eqb_spec (generation lock) (rel_generation r)); [|by auto].
  right. right. exists r. repeat (split; [done|]). split; [|eauto].
  simpl. apply elem_of_app. right. by apply list_elem_of_singleton.
Qed.

Lemma on_frame_held stream c :
  stopped c = None ->
  held (on_frame stream c).1 = held c \/ stopped (on_frame stream c).1 <> None \/
  exists r signed payload tag rest,
    read_frame stream = Ok (LockRelease, signed, payload, tag, rest) /\
    parse_release decode_release payload = Ok r /\ (sequence c, Ack) ∈ outbox (on_frame stream c).1 /\
    held (on_frame stream c).1 = delete (rel_action r, rel_identifier r) (held c) /\
    exists lock, held c !! (rel_action r, rel_identifier r) = Some lock /\ generation lock = rel_generation r.
Proof.
  intros Hst. unfold Server.on_frame.
  destruct (read_frame stream) as [[[[[o signed] payload] tag] rest]|stop]; [|by auto].
  destruct (verify_hash _ _ _ _ _ _ _); [|by auto].
  destruct (sequence c =? U64_MAX); [by auto|]. cbn [fst].
  destruct (dispatch_held o payload (sequence c) (permit max_inflight o c) (accept_frame o c) Hst)
    as [->|[?|(r & -> & Hp & Ha & -> & Hl)]]; [by auto|by auto|].
  right. right. by exists r, signed, payload, tag, rest.
Qed.

Definition turn_time (e : Event) : option Z :=
  match e with
  | TurnFrame now _ | TurnReport now | TurnTimeout now | TurnShutdown now => Some now
  | _ => None
  end.

(** What an event does to a hold: [ended] lists the ways it may go. *)
Inductive ended (e : Event) (c c' : Conn) (key : LockKey) (lock : HeldLock) : Prop :=
| closed : stopped c' <> None -> ended e c c' key lock
| expired now : turn_time e = Some now -> expires_at lock <= now ->
    (0, LockLost key.1 key.2) ∈ outbox c' -> ended e c c' key lock
| released now stream r signed payload tag rest :
    e = TurnFrame now stream -> read_frame stream = Ok (LockRelease, signed, payload, tag, rest) ->
    parse_release decode_release payload = Ok r -> (rel_action r, rel_identifier r) = key ->
    rel_generation r = generation lock -> (sequence c, Ack) ∈ outbox c' -> ended e c c' key lock
| replaced now lock' rest :
    e = TurnReport now -> outcomes c = mkAcquireOutcome key (Some lock') :: rest ->
    held c' !! key = Some lock' -> ended e c c' key lock.

Lemma outbox_grows_dispatch o payload s permitted c x :
  x ∈ outbox c -> x ∈ outbox (dispatch o payload s permitted c).
Proof.
  intros Hx. destruct o; simpl; try destruct (release_lock _ _); repeat case_match; subst; simpl; set_solver.
Qed.

Lemma outbox_grows_frame stream c x : x ∈ outbox c -> x ∈ outbox (on_frame stream c).1.
Proof.
  intros Hx. unfold Server.on_frame. destruct (read_frame stream) as [[[[[o signed] payload] tag] rest]|]; [|done].
  destruct (verify_hash _ _ _ _ _ _ _); [|done]. destruct (sequence c =? U64_MAX); [done|]. cbn [fst].
  by apply outbox_grows_dispatch.
Qed.

Lemma kept_or_expired now c key lock :
  held c !! key = Some lock ->
  held (expire now c) !! key = Some lock \/
  (expires_at lock <= now /\ (0, LockLost key.1 key.2) ∈ outbox (expire now c)).
Proof.
  intros Hk. destruct (decide (now < expires_at lock)).
  - left. rewrite expire_held. by apply map_lookup_filter_Some.
  - right. split; [lia|]. eapply expired_pushed; [done|lia].
Qed.

Lemma dispatch_shrinks o payload s permitted c key lock :
  held (dispatch o payload s permitted c) !! key = Some lock -> held c !! key = Some lock.
Proof.
  destruct o; simpl; try (repeat case_match; subst; simpl; rewrite ?lookup_empty; done).
  destruct (parse_release decode_release payload) as [r|]; [|simpl; by rewrite lookup_empty].
  unfold release_lock. repeat case_match; simplify_eq; simpl; try done. by intros [_ ?]%lookup_delete_Some.
Qed.

Lemma on_frame_shrinks stream c key lock :
  held (on_frame stream c).1 !! key = Some lock -> held c !! key = Some lock.
Proof.
  unfold Server.on_frame. destruct (read_frame stream) as [[[[[o signed] payload] tag] rest]|];
    [|simpl; by rewrite lookup_empty].
  destruct (verify_hash _ _ _ _ _ _ _); [|simpl; by rewrite lookup_empty].
  destruct (_ =? U64_MAX); [simpl; by rewrite lookup_empty|]. cbn [fst].
  by intros ?%dispatch_shrinks.
Qed.

Lemma expire_back now c key lock :
  held (expire now c) !! key = Some lock -> held c !! key = Some lock /\ now < expires_at lock.
Proof. rewrite expire_held. by intros [? ?]%map_lookup_filter_Some. Qed.

(** Where a hold found after an event was before it. *)
Definition came_from (e : Event) (c : Conn) (key : LockKey) (lock : HeldLock) : Prop :=
  (held c !! key = Some lock /\ forall now, turn_time e = Some now -> now < expires_at lock) \/
  (exists now rest, e = TurnReport now /\ outcomes c = mkAcquireOutcome key (Some lock) :: rest).

Lemma came_expire e now c key lock :
  turn_time e = Some now -> held (expire now c) !! key = Some lock -> came_from e c key lock.
Proof. intros He [? ?]%expire_back. left. split; [done|]. intros now'. rewrite He. by intros [= <-]. Qed.

Lemma frame_hold now stream c key lock :
  stopped c = None -> held c !! key = Some lock ->
  held (on_frame stream (expire now c)).1 !! key = Some lock \/
  ended (TurnFrame now stream) c (on_frame stream (expire now c)).1 key lock.
Proof.
  intros Hst Hk. destruct (expire_same now c) as (Es & _ & _ & Hst' & _). rewrite Hst in Hst'.
  destruct (kept_or_expired now c key lock Hk) as [Hk'|[He Hp]];
    [|right; eapply expired; [done|done|]; by apply outbox_grows_frame].
  destruct (on_frame_held stream _ Hst')
    as [->|[Hc|(r & signed & payload & tag & rest & Hr & Hp & Ha & Hd & lock' & Hl & Hg)]];
    [by left|right; by apply closed|].
  destruct (decide ((rel_action r, rel_identifier r) = key)) as [<-|Hne].
  - right. rewrite Es in Ha. eapply released; eauto. congruence.
  - left. rewrite Hd. by rewrite lookup_delete_ne.
Qed.

Lemma report_hold now c key :
  stopped c = None ->
  (forall lock, held c !! key = Some lock ->
     held (on_report (expire now c)) !! key = Some lock \/
     ended (TurnReport now) c (on_report (expire now c)) key lock) /\
  (forall lock, held (on_report (expire now c)) !! key = Some lock -> came_from (TurnReport now) c key lock).
Proof.
  intros Hst. destruct (expire_same now c) as (_ & _ & _ & _ & _ & Eo & _). unfold on_report. rewrite Eo.
  destruct (outcomes c) as [|[key' [lock'|]] rest] eqn:Ex; simpl; split; intros lock Hk;
    try by eapply came_expire.
  - destruct (kept_or_expired now c key lock Hk) as [?|[? ?]]; [by left|right; by eapply expired].
  - destruct (kept_or_expired now c key lock Hk) as [Hk'|[? ?]]; [|right; by eapply expired].
    destruct (decide (key' = key)) as [->|Hne]; [|left; by rewrite lookup_insert_ne].
    right. eapply replaced; [done|done|]. simpl. apply lookup_insert_eq.
  - apply lookup_insert_Some in Hk as [[-> ->]|[_ Hk]]; [right; eauto|by eapply came_expire].
  - destruct (kept_or_expired now c key lock Hk) as [?|[? ?]]; [by left|right; by eapply expired].
Qed.

(** C17: a hold ends only in the ways the protocol names. An event leaves a hold as it is,
    deadline included, unless the connection closes, its deadline has passed at that turn and
    a [LockLost] was pushed, a release presents its key and its generation and is
    acknowledged, or a later grant of the same key replaces it; and a turn leaves no hold
    whose deadline has passed, except one just reported. *)
Theorem hold_ends_only_by e c key :
  stopped c = None ->
  (forall lock, held c !! key = Some lock ->
     held (step e c) !! key = Some lock \/ ended e c (step e c) key lock) /\
  (forall lock, held (step e c) !! key = Some lock -> came_from e c key lock).
Proof.
  intros Hst. unfold Server.step. rewrite Hst. destruct e as [now stream|now|now|now|i r|i].
  - split; intros lock Hk; [by apply frame_hold|]. eapply came_expire; [done|by eapply on_frame_shrinks].
  - by apply report_hold.
  - unfold on_timeout. case_bool_decide as Ee; simpl; split; intros lock Hk.
    + right. by apply closed.
    + by rewrite lookup_empty in Hk.
    + destruct (kept_or_expired now c key lock Hk) as [?|[? ?]]; [by left|right; by eapply expired].
    + by eapply came_expire.
  - split; intros lock Hk; [right; by apply closed|]. simpl in Hk. by rewrite lookup_empty in Hk.
  - destruct (handlers c !! i) as [[s [h|r']]|]; [|split; intros lock Hk; by left..].
    destruct (complete h r) as [[outcome [rep|]]|]; split; intros lock Hk; by left.
  - destruct (handlers c !! i) as [[s [h|r]]|]; simpl; split; intros lock Hk; by left.
Qed.

(** ** The client's frames *)

Lemma max_payload_u16 o : Z.of_nat (max_payload_size o) < 65536.
Proof. by destruct o. Qed.

Lemma opcode_from_to o : opcode_from_byte (opcode_byte o) = Some o.
Proof. by destruct o. Qed.

Lemma read_built n sq o payload rest :
  (length payload <= max_payload_size o)%nat ->
  let signed := opcode_byte o :: be_bytes 2 (zlen payload) ++ payload in
  read_frame (buildFarewardFrame sha256 secret n sq o payload ++ rest) =
    Ok (o, signed, payload, compute_hash sha256 secret n sq signed, rest).
Proof.
  intros Hlen. pose proof (max_payload_u16 o). cbv zeta. unfold buildFarewardFrame.
  rewrite wrap_small by (change (2 ^ 16) with 65536; lia).
  set (signed := opcode_byte o :: be_bytes 2 (zlen payload) ++ payload).
  set (tag := compute_hash sha256 secret n sq signed).
  assert (length tag = AUTH_TAG_SIZE) as Htag by apply length_compute_hash.
  unfold read_frame, signed at 1. cbn [app]. rewrite opcode_from_to. cbn [ok_or].
  change (Ok o ≫= ?f) with (f o). cbv beta.
  rewrite <- !app_assoc. rewrite read_full_exact by (by rewrite length_be_bytes).
  cbn [ok_or]. unfold mbind at 1, result_bind at 1.
  rewrite of_be_be_bytes_small by (change (256 ^ Z.of_nat 2) with 65536; lia).
  rewrite Nat2Z.id. destruct (_ <? _)%nat eqn:E; [apply Nat.ltb_lt in E; lia|].
  rewrite (app_assoc payload). rewrite read_full_exact by (rewrite length_app; lia).
  cbn [ok_or]. unfold mbind, result_bind. by rewrite take_app_length, drop_app_length.
Qed.

(** What the client builds is what the daemon accepts. A frame tagged under the
    connection's nonce for its current sequence is read back as its opcode and its payload,
    verifies, and is dispatched; the rest of the stream is left for the next turn. *)
Theorem built_frame_accepted c o payload rest :
  (forall a b, ct_eq a b = true <-> a = b) ->
  (length payload <= max_payload_size o)%nat -> sequence c < U64_MAX ->
  on_frame (buildFarewardFrame sha256 secret (nonce c) (sequence c) o payload ++ rest) c =
    (dispatch o payload (sequence c) (permit max_inflight o c) (accept_frame o c), rest).
Proof.
  intros Hct Hlen Hseq. unfold Server.on_frame. rewrite read_built by done.
  unfold verify_hash. rewrite (proj2 (Hct _ _)) by done.
  destruct (Z.eqb_spec (sequence c) U64_MAX); [lia|done].
Qed.

End Laws.

(** ** A connection *)

Module Sample.

Definition nonce8 : bytes := [1; 2; 3; 4; 5; 6; 7; 8].
Definition key32 : bytes := [7; 7].

(** Stand-ins for the decoders: an acquire's one byte is its lease, a release's its
    generation, both of the same key. *)
Definition one_acquire (p : bytes) : option AcquireRequest :=
  match p with [lease] => Some (mkAcquireRequest 7 42 8 1000 lease) | _ => None end.
Definition one_release (p : bytes) : option ReleaseRequest :=
  match p with [g] => Some (mkReleaseRequest 7 42 g) | _ => None end.
Definition none {A} (p : bytes) : option A := None.

Definition lock_limits : LockLimits := mkLockLimits 100 100 60000.

Definition step : Event -> Conn -> Conn :=
  Server.step sample_digest list_eq none none one_acquire one_release none none lock_limits key32 4.
Definition run : list Event -> Conn -> Conn :=
  Server.run sample_digest list_eq none none one_acquire one_release none none lock_limits key32 4.

Definition frame (sq : Z) (o : Opcode) (payload : bytes) : bytes :=
  buildFarewardFrame sample_digest key32 nonce8 sq o payload.

(** An acquire that is granted, and its report to the reader. *)
Definition granted_events : list Event :=
  [TurnFrame 0 (frame 0 LockAcquire [100]); Complete 0 (RAcquire 1 (Acquired 9) 10); Reply_ 0; TurnReport 20].

Definition holding_conn : Conn := run granted_events (connection nonce8).

Lemma frames_authenticated_witness :
  stopped holding_conn = None /\
  frames (step (TurnFrame 30 (frame 1 LockRelease [9] ++ [0xFF])) holding_conn) = [LockAcquire; LockRelease] /\
  nonce (step (TurnFrame 30 (frame 1 LockRelease [9] ++ [0xFF])) holding_conn) = nonce8.
Proof.
  assert (stopped holding_conn = None) as Hst by (vm_compute; reflexivity).
  assert (bytes_ok (frame 1 LockRelease [9] ++ [0xFF])) as Hok.
  { apply (bool_decide_unpack _). vm_compute. exact I. }
  split; [exact Hst|]. split; [vm_compute; reflexivity|].
  apply (frames_authenticated sample_digest list_eq none none one_acquire one_release none none
    lock_limits key32 4 30 _ holding_conn Hst Hok).
Defined.

Lemma hold_ends_only_by_witness :
  held holding_conn !! (7, 42) = Some (mkHeldLock 1 9 110) /\ stopped holding_conn = None /\
  (held (step (TurnTimeout 109) holding_conn) !! (7, 42) = Some (mkHeldLock 1 9 110)) /\
  (forall lock, held (step (TurnTimeout 110) holding_conn) !! (7, 42) = Some lock ->
     came_from (TurnTimeout 110) holding_conn (7, 42) lock).
Proof.
  assert (stopped holding_conn = None) as Hst by (vm_compute; reflexivity).
  split; [vm_compute; reflexivity|]. split; [exact Hst|]. split; [vm_compute; reflexivity|].
  apply (hold_ends_only_by sample_digest list_eq none none one_acquire one_release none none
    lock_limits key32 4 (TurnTimeout 110) holding_conn (7, 42) Hst).
Defined.

Lemma built_frame_accepted_witness :
  frames (on_frame sample_digest list_eq none none one_acquire one_release none none lock_limits
    key32 4 (buildFarewardFrame sample_digest key32 nonce8 0 LockAcquire [100] ++ [])
    (connection nonce8)).1 = [LockAcquire].
Proof.
  assert (length [100] <= max_payload_size LockAcquire)%nat as Hlen by (unfold max_payload_size, ACQUIRE_MAX_PAYLOAD_SIZE; simpl; lia).
  assert (sequence (connection nonce8) < U64_MAX) as Hseq by reflexivity.
  etransitivity; [apply (f_equal (fun x => frames x.1)
    (built_frame_accepted sample_digest list_eq none none one_acquire one_release none none
       lock_limits key32 4 (connection nonce8) LockAcquire [100] [] list_eq_spec Hlen Hseq))|].
  reflexivity.
Defined.

(** A grant is answered before it is owned. The handler sends the reply once its report is
    in the channel, not once the reader has taken it, so a client that releases on seeing the
    grant can be read first: its release is refused as misuse, and the lock it no longer
    wants is taken over afterwards and held until its lease ends. *)
Theorem release_can_overtake_grant :
  let c := run [TurnFrame 0 (frame 0 LockAcquire [100]); Complete 0 (RAcquire 1 (Acquired 9) 10); Reply_ 0;
                TurnFrame 15 (frame 1 LockRelease [9]); TurnReport 20] (connection nonce8) in
  outbox c = [(0, LockGranted 9); (1, LockRefused LOCK_MISUSE)] /\
  held c !! (7, 42) = Some (mkHeldLock 1 9 110).
Proof. vm_compute. done. Qed.

End Sample.
