(* ===== verification/Backpressure.v ===== *)
(** * Backpressure: a connection with its bounded channels (src/src/service/server.rs)

    Server.v's connection sends without waiting. Here the reply channel and the report channel
    have the [max_inflight] places the source gives them, the writer task takes replies off one
    end when the socket takes them, and a send on a full channel waits: a handler's keeps it in
    flight, the reader's stops the reader in the middle of its turn. The turn is split where
    its sends are: the pushes of the expired holds, then what the select gave.

    Laws: the connection is Server.v's up to the order of what it sent; the channels stay in
    their bounds; while the client reads, everything gets written and the end is reached; and a
    client that does not read stops the reader, expiry and shutdown included. *)

From stdpp Require Import strings.
From S2P Require Import Prelude SipHash FrameAuth TimeFrame CreditsBlob Aggregation Storage Access.
From S2P Require Import ChargeProtocol Quota LockRegistry Sequence ReqLog Wire Server ServerLaws.

(** Where the reader is: before [drop_expired], or at its select. *)
Inductive Phase := AtTop | AtSelect.

Inductive WriterTask := Writing | Gone.

Record Buffered := mkBuffered {
  conn : Conn;
  phase : Phase;
  chan : list (Z * Reply);         (* the reply channel *)
  unsent : list (Z * Reply);       (* the reader's own sends, still to go *)
  written : list (Z * Reply);      (* on the socket *)
  lost_replies : list (Z * Reply);
  writer_task : WriterTask;
  returned : bool;
}.

(** What the select gives the reader. *)
Inductive Selected :=
| SFrame (stream : bytes)
| SReport
| STimeout
| SShutdown.

Inductive BEvent :=
| BExpire (now : Z)
| BSelect (s : Selected)
| BPut                            (* the reader's next send goes into the channel *)
| BComplete (i : nat) (r : HandlerResult)
| BReply (i : nat)
| BWrite                          (* the socket takes a reply *)
| BWriteFails
| BReturn.                        (* the writer task is joined *)

Section Buffered.
Context (sha256 : bytes -> bytes) (ct_eq : bytes -> bytes -> bool).
Context (decode_charge : bytes -> option ChargeFrame) (decode_budget : bytes -> option BudgetMutationFrame).
Context (decode_acquire : bytes -> option AcquireRequest) (decode_release : bytes -> option ReleaseRequest).
Context (decode_log : bytes -> option RequestLogRecord) (decode_invalidation : bytes -> option AccessInvalidation).
Variable limits : LockLimits.
Variable secret : bytes.
Variable max_inflight : nat.

Abbreviation server_step := (Server.step sha256 ct_eq decode_charge decode_budget decode_acquire
  decode_release decode_log decode_invalidation limits secret max_inflight).
Abbreviation on_frame := (on_frame sha256 ct_eq decode_charge decode_budget decode_acquire
  decode_release decode_log decode_invalidation limits secret max_inflight).

(** After [drop_expired]: the rest of a turn. *)
Definition select_step (s : Selected) (c : Conn) : Conn :=
  match s with
  | SFrame stream => (on_frame stream c).1
  | SReport => on_report c
  | STimeout => on_timeout c
  | SShutdown => close Clean c
  end.

(** The turn of Server.v a select belongs to. *)
Definition turn_of (now : Z) (s : Selected) : Server.Event :=
  match s with
  | SFrame stream => TurnFrame now stream
  | SReport => TurnReport now
  | STimeout => TurnTimeout now
  | SShutdown => TurnShutdown now
  end.

(** What the reader has to send before it goes on. *)
Definition reader_moves (c' : Conn) (p : Phase) (b : Buffered) : Buffered :=
  mkBuffered c' p (chan b) (drop (length (outbox (conn b))) (outbox c')) (written b) (lost_replies b)
    (writer_task b) (returned b).

(** A send: into the channel when it has a place, into nothing when the writer is gone. *)
Definition put (x : Z * Reply) (b : Buffered) : option Buffered :=
  match writer_task b with
  | Writing =>
      if (length (chan b) <? max_inflight)%nat
      then Some (mkBuffered (conn b) (phase b) (chan b ++ [x]) (unsent b) (written b) (lost_replies b) Writing (returned b))
      else None
  | Gone => Some (mkBuffered (conn b) (phase b) (chan b) (unsent b) (written b) (lost_replies b ++ [x]) Gone (returned b))
  end.

Definition set_conn (c : Conn) (b : Buffered) : Buffered :=
  mkBuffered c (phase b) (chan b) (unsent b) (written b) (lost_replies b) (writer_task b) (returned b).
Definition set_unsent (l : list (Z * Reply)) (b : Buffered) : Buffered :=
  mkBuffered (conn b) (phase b) (chan b) l (written b) (lost_replies b) (writer_task b) (returned b).

(** An acquire reports to the reader before it answers. *)
Definition reports (i : nat) (c : Conn) : bool :=
  match handlers c !! i with Some (_, Running (HAcquire _ _)) => true | _ => false end.

(** An event that has to wait leaves everything as it is. *)
Definition buffered_step (e : BEvent) (b : Buffered) : Buffered :=
  match e with
  | BExpire now =>
      match phase b, unsent b, stopped (conn b) with
      | AtTop, [], None => reader_moves (expire now (conn b)) AtSelect b
      | _, _, _ => b
      end
  | BSelect s =>
      match phase b, unsent b, stopped (conn b) with
      | AtSelect, [], None => reader_moves (select_step s (conn b)) AtTop b
      | _, _, _ => b
      end
  | BPut =>
      match unsent b with
      | x :: rest => default b (put x (set_unsent rest b))
      | [] => b
      end
  | BComplete i r =>
      if negb (reports i (conn b)) || (length (outcomes (conn b)) <? max_inflight)%nat
      then set_conn (server_step (Complete i r) (conn b)) b else b
  | BReply i =>
      match handlers (conn b) !! i with
      | Some (s, Answering r) =>
          if bool_decide (stopped (conn b) = None)
          then default b (put (s, r) (set_conn (server_step (Reply_ i) (conn b)) b)) else b
      | _ => b
      end
  | BWrite =>
      match writer_task b, chan b with
      | Writing, x :: rest =>
          mkBuffered (conn b) (phase b) rest (unsent b) (written b ++ [x]) (lost_replies b) Writing (returned b)
      | _, _ => b
      end
  | BWriteFails =>
      match writer_task b, chan b with
      | Writing, _ :: _ =>
          mkBuffered (conn b) (phase b) [] (unsent b) (written b) (lost_replies b ++ chan b) Gone (returned b)
      | _, _ => b
      end
  | BReturn =>
      match stopped (conn b), unsent b, chan b with
      | Some _, [], [] =>
          mkBuffered (conn b) (phase b) (chan b) (unsent b) (written b) (lost_replies b) (writer_task b) true
      | _, _, _ => b
      end
  end.

Fixpoint buffered_run (events : list BEvent) (b : Buffered) : Buffered :=
  match events with [] => b | e :: rest => buffered_run rest (buffered_step e b) end.

Definition buffered (n : bytes) : Buffered := mkBuffered (connection n) AtTop [] [] [] [] Writing false.

End Buffered.

(** ** Up to the order of what was sent *)

Record reorders (c c' : Conn) : Prop := {
  ro_outbox : outbox c ≡ₚ outbox c';
  ro_rest : c' = mkConn (nonce c) (sequence c) (held c) (handlers c) (outcomes c) (outbox c') (submitted c)
    (frames c) (stopped c);
}.

#[export] Instance reorders_equivalence : Equivalence reorders.
Proof.
  split.
  - intros c. split; [done|by destruct c].
  - intros c c' [Ho E]. split; [done|]. rewrite E. by destruct c.
  - intros c1 c2 c3 [Ho E] [Ho' E']. split; [by etrans|]. rewrite E', E. done.
Qed.

Lemma reorders_stopped c c' : reorders c c' -> stopped c' = stopped c.
Proof. intros [_ ->]. done. Qed.

#[export] Instance set_held_reorders m : Proper (reorders ==> reorders) (set_held m).
Proof. intros c c' [Ho ->]. by split. Qed.
#[export] Instance set_handlers_reorders hs : Proper (reorders ==> reorders) (set_handlers hs).
Proof. intros c c' [Ho ->]. by split. Qed.
#[export] Instance set_outcomes_reorders os : Proper (reorders ==> reorders) (set_outcomes os).
Proof. intros c c' [Ho ->]. by split. Qed.
#[export] Instance submit_log_reorders r : Proper (reorders ==> reorders) (submit_log r).
Proof. intros c c' [Ho ->]. by split. Qed.
#[export] Instance send_reply_reorders s r : Proper (reorders ==> reorders) (Server.send_reply s r).
Proof. intros c c' [Ho ->]. split; [|done]. simpl. by rewrite Ho. Qed.
#[export] Instance accept_frame_reorders o : Proper (reorders ==> reorders) (accept_frame o).
Proof. intros c c' [Ho ->]. by split. Qed.
#[export] Instance close_reorders stop : Proper (reorders ==> reorders) (close stop).
Proof. intros c c' [Ho ->]. by split. Qed.
#[export] Instance spawn_reorders s h : Proper (reorders ==> reorders) (spawn_handler s h).
Proof. intros c c' [Ho ->]. by split. Qed.

(** [expire], in one piece. *)
Definition pushes (now : Z) (held : gmap LockKey HeldLock) : list (Z * Reply) :=
  (fun key => (0, LockLost key.1 key.2)) <$> (drop_expired now held).2.

Lemma send_all keys c :
  foldl (fun c (key : LockKey) => Server.send_reply 0 (LockLost key.1 key.2) c) c keys =
  mkConn (nonce c) (sequence c) (held c) (handlers c) (outcomes c)
    (outbox c ++ ((fun key => (0, LockLost key.1 key.2)) <$> keys)) (submitted c) (frames c) (stopped c).
Proof.
  revert c. induction keys as [|k keys IH]; intros c; cbn [foldl fmap list_fmap].
  - rewrite app_nil_r. by destruct c.
  - rewrite IH. simpl. by rewrite <- app_assoc.
Qed.

Lemma expire_eq now c :
  expire now c = mkConn (nonce c) (sequence c) (drop_expired now (held c)).1 (handlers c) (outcomes c)
    (outbox c ++ pushes now (held c)) (submitted c) (frames c) (stopped c).
Proof. unfold expire, pushes. destruct (drop_expired now (held c)) as [kept keys]. by rewrite send_all. Qed.

#[export] Instance expire_reorders now : Proper (reorders ==> reorders) (expire now).
Proof. intros c c' [Ho E]. rewrite !expire_eq, E. split; [simpl; by rewrite Ho|done]. Qed.

Section Laws.
Context (sha256 : bytes -> bytes) (ct_eq : bytes -> bytes -> bool).
Context (decode_charge : bytes -> option ChargeFrame) (decode_budget : bytes -> option BudgetMutationFrame).
Context (decode_acquire : bytes -> option AcquireRequest) (decode_release : bytes -> option ReleaseRequest).
Context (decode_log : bytes -> option RequestLogRecord) (decode_invalidation : bytes -> option AccessInvalidation).
Context (limits : LockLimits) (secret : bytes) (max_inflight : nat).

Abbreviation server_step := (Server.step sha256 ct_eq decode_charge decode_budget decode_acquire
  decode_release decode_log decode_invalidation limits secret max_inflight).
Abbreviation server_run := (Server.run sha256 ct_eq decode_charge decode_budget decode_acquire
  decode_release decode_log decode_invalidation limits secret max_inflight).
Abbreviation dispatch := (dispatch decode_charge decode_budget decode_acquire decode_release decode_log
  decode_invalidation limits).
Abbreviation on_frame := (on_frame sha256 ct_eq decode_charge decode_budget decode_acquire
  decode_release decode_log decode_invalidation limits secret max_inflight).
Abbreviation select_step := (select_step sha256 ct_eq decode_charge decode_budget decode_acquire
  decode_release decode_log decode_invalidation limits secret max_inflight).
Abbreviation buffered_step := (buffered_step sha256 ct_eq decode_charge decode_budget decode_acquire
  decode_release decode_log decode_invalidation limits secret max_inflight).
Abbreviation buffered_run := (buffered_run sha256 ct_eq decode_charge decode_budget decode_acquire
  decode_release decode_log decode_invalidation limits secret max_inflight).

#[export] Instance dispatch_reorders o payload s permitted :
  Proper (reorders ==> reorders) (dispatch o payload s permitted).
Proof.
  intros c c' H. pose proof (ro_rest _ _ H) as E.
  assert (held c' = held c) as Eh by (by rewrite E). destruct o; cbn [Server.dispatch].
  all: repeat match goal with |- context [match ?r with Ok _ => _ | Err _ => _ end] => destruct r end.
  all: try destruct permitted; try (by rewrite H); try done.
  all: rewrite Eh; destruct (release_lock a (held c)) as [reply held']; by rewrite H.
Qed.

#[export] Instance select_reorders s : Proper (reorders ==> reorders) (select_step s).
Proof.
  intros c c' H. pose proof (ro_rest _ _ H) as E. destruct s as [stream| | |]; cbn [Backpressure.select_step].
  - unfold Server.on_frame. destruct (read_frame stream) as [[[[[o signed] payload] tag] rest]|stop]; [|by rewrite H].
    assert (nonce c' = nonce c) as -> by (by rewrite E). assert (sequence c' = sequence c) as -> by (by rewrite E).
    destruct (verify_hash _ _ _ _ _ _ _); [|by rewrite H]. destruct (_ =? U64_MAX); [by rewrite H|]. cbn [fst].
    assert (permit max_inflight o c' = permit max_inflight o c) as -> by (by rewrite E).
    by apply dispatch_reorders, accept_frame_reorders.
  - unfold on_report. assert (outcomes c' = outcomes c) as -> by (by rewrite E).
    assert (held c' = held c) as Eh by (by rewrite E). destruct (outcomes c) as [|x rest]; [done|].
    destruct (granted x); [|by rewrite H]. simpl. rewrite Eh. by apply set_held_reorders, set_outcomes_reorders.
  - unfold on_timeout. assert (held c' = held c) as -> by (by rewrite E). case_bool_decide; [by rewrite H|done].
  - by rewrite H.
Qed.

Lemma turn_select now s c : stopped c = None -> server_step (turn_of now s) c = select_step s (expire now c).
Proof. intros Hst. unfold Server.step. rewrite Hst. by destruct s. Qed.

#[export] Instance complete_reorders i r : Proper (reorders ==> reorders) (server_step (Complete i r)).
Proof.
  intros c c' H. pose proof (ro_rest _ _ H) as E. unfold Server.step. rewrite (reorders_stopped _ _ H).
  destruct (stopped c); [done|]. assert (handlers c' = handlers c) as -> by (by rewrite E).
  assert (outcomes c' = outcomes c) as -> by (by rewrite E).
  destruct (handlers c !! i) as [[s [h|a]]|]; [|done..]. destruct (complete h r) as [[outcome [rep|]]|]; [| |done];
    by apply set_handlers_reorders, set_outcomes_reorders.
Qed.

#[export] Instance reply_reorders i : Proper (reorders ==> reorders) (server_step (Reply_ i)).
Proof.
  intros c c' H. pose proof (ro_rest _ _ H) as E. unfold Server.step. rewrite (reorders_stopped _ _ H).
  destruct (stopped c); [done|]. assert (handlers c' = handlers c) as -> by (by rewrite E).
  destruct (handlers c !! i) as [[s [h|a]]|]; [done| |done].
  by apply send_reply_reorders, set_handlers_reorders.
Qed.

(** A handler's step and the expiry that is under way commute. *)
Lemma complete_expire now i r c :
  reorders (expire now (server_step (Complete i r) c)) (server_step (Complete i r) (expire now c)).
Proof.
  rewrite !expire_eq. unfold Server.step. simpl. destruct (stopped c) eqn:Hst; [by rewrite Hst|].
  destruct (handlers c !! i) as [[s [h|a]]|]; [|by rewrite Hst..].
  destruct (complete h r) as [[outcome [rep|]]|]; [| |by rewrite Hst]; split; simpl; by rewrite ?Hst.
Qed.

Lemma reply_expire now i c :
  reorders (expire now (server_step (Reply_ i) c)) (server_step (Reply_ i) (expire now c)).
Proof.
  rewrite !expire_eq. unfold Server.step. simpl. destruct (stopped c) eqn:Hst; [by rewrite Hst|].
  destruct (handlers c !! i) as [[s [h|a]]|]; [by rewrite Hst| |by rewrite Hst].
  split; simpl; [|by rewrite Hst]. rewrite <- !app_assoc. by rewrite (Permutation_app_comm [(s, a)]).
Qed.

(** The connection of Server.v behind a buffered one: at its select the reader has expired its
    holds already. *)
Definition behind (p : Phase) (c c' : Conn) : Prop :=
  match p with
  | AtTop => reorders c c'
  | AtSelect => exists now, reorders (expire now c) c'
  end.

Record BInv (n : bytes) (b : Buffered) : Prop := {
  bi_behind : exists events, behind (phase b) (server_run events (connection n)) (conn b);
  bi_sent : written b ++ lost_replies b ++ chan b ++ unsent b ≡ₚ outbox (conn b);
  bi_chan : (length (chan b) <= max_inflight)%nat;
  bi_reports : (length (outcomes (conn b)) <= max_inflight)%nat;
  bi_lost : writer_task b = Writing -> lost_replies b = [];
  bi_top : phase b = AtTop -> (length (unsent b) <= 1)%nat;
  bi_returned : returned b = true -> stopped (conn b) <> None /\ unsent b = [] /\ chan b = [];
}.

Lemma server_run_snoc events e c : server_run (events ++ [e]) c = server_step e (server_run events c).
Proof. revert c. induction events as [|x events IH]; intros c; [done|]. apply IH. Qed.

Lemma behind_stopped p c c' : behind p c c' -> stopped c' = stopped c.
Proof. destruct p; [apply reorders_stopped|]. intros [now H]. apply reorders_stopped in H. by rewrite H, expire_eq. Qed.

Lemma behind_complete p c c' i r : behind p c c' -> behind p (server_step (Complete i r) c) (server_step (Complete i r) c').
Proof.
  destruct p; [by apply complete_reorders|]. intros [now H]. exists now. etrans; [apply complete_expire|by apply complete_reorders].
Qed.

Lemma behind_reply p c c' i : behind p c c' -> behind p (server_step (Reply_ i) c) (server_step (Reply_ i) c').
Proof.
  destruct p; [by apply reply_reorders|]. intros [now H]. exists now. etrans; [apply reply_expire|by apply reply_reorders].
Qed.

(** What a step of the connection sends comes after what it had sent. *)
Definition sends_one (c c' : Conn) : Prop := exists l, outbox c' = outbox c ++ l /\ (length l <= 1)%nat.

Lemma sends_none c c' : outbox c' = outbox c -> sends_one c c'.
Proof. intros E. exists []. rewrite app_nil_r. split; [done|simpl; lia]. Qed.

Lemma sends_this c c' x : outbox c' = outbox c ++ [x] -> sends_one c c'.
Proof. intros E. exists [x]. split; [done|simpl; lia]. Qed.

Lemma sends_after s c : sends_one c (select_step s c).
Proof.
  destruct s as [stream| | |]; cbn [Backpressure.select_step].
  - unfold Server.on_frame. destruct (read_frame stream) as [[[[[o signed] payload] tag] rest]|stop]; [|by apply sends_none].
    destruct (verify_hash _ _ _ _ _ _ _); [|by apply sends_none].
    destruct (_ =? U64_MAX); [by apply sends_none|]. cbn [fst].
    destruct o; cbn [Server.dispatch]; try destruct (release_lock _ _); repeat case_match;
      first [by apply sends_none|by eapply sends_this].
  - apply sends_none. unfold on_report. by repeat case_match.
  - apply sends_none. unfold on_timeout. by case_bool_decide.
  - by apply sends_none.
Qed.

Lemma reports_kept s c : (length (outcomes (select_step s c)) <= length (outcomes c))%nat.
Proof.
  assert (forall stop c' n, (length (outcomes (close stop c')) <= n)%nat) as Hcl by (intros; simpl; lia).
  destruct s as [stream| | |]; cbn [Backpressure.select_step].
  - unfold Server.on_frame. destruct (read_frame stream) as [[[[[o signed] payload] tag] rest]|stop]; [|apply Hcl].
    destruct (verify_hash _ _ _ _ _ _ _); [|apply Hcl]. destruct (_ =? U64_MAX); [apply Hcl|]. cbn [fst].
    destruct o; cbn [Server.dispatch]; try destruct (release_lock _ _); repeat case_match; first [done|apply Hcl].
  - unfold on_report. destruct (outcomes c) as [|x rest] eqn:E; [by rewrite E|]. destruct (granted x); simpl; lia.
  - unfold on_timeout. case_bool_decide; [apply Hcl|done].
  - apply Hcl.
Qed.

(** The reader moves, with its sends to do. *)
Lemma binv_reader n b c' p l :
  BInv n b -> unsent b = [] -> returned b = false -> outbox c' = outbox (conn b) ++ l ->
  (length (outcomes c') <= length (outcomes (conn b)))%nat -> (p = AtTop -> (length l <= 1)%nat) ->
  (exists events, behind p (server_run events (connection n)) c') -> BInv n (reader_moves c' p b).
Proof.
  intros [B S C R L T D] Hu Hr Ho Hlen Hp Hb. unfold reader_moves. rewrite Ho, drop_app_length.
  split; cbn [conn phase chan unsent written lost_replies writer_task returned]; try done; [|lia|congruence].
  rewrite Ho, <- S, Hu, app_nil_r, <- !app_assoc. done.
Qed.

Lemma binv_put n b b' x :
  (exists events, behind (phase b) (server_run events (connection n)) (conn b)) ->
  written b ++ lost_replies b ++ chan b ++ unsent b ++ [x] ≡ₚ outbox (conn b) ->
  (length (chan b) <= max_inflight)%nat -> (length (outcomes (conn b)) <= max_inflight)%nat ->
  (writer_task b = Writing -> lost_replies b = []) -> (phase b = AtTop -> (length (unsent b) <= 1)%nat) ->
  returned b = false -> put max_inflight x b = Some b' -> BInv n b'.
Proof.
  intros B S C R L T Hr. unfold put. destruct (writer_task b) eqn:Ew.
  - destruct (Nat.ltb_spec (length (chan b)) max_inflight); [|done]. intros [= <-].
    split; cbn [conn phase chan unsent written lost_replies writer_task returned]; try done; [| |congruence].
    + rewrite <- S, <- !app_assoc. by rewrite <- (Permutation_cons_append (unsent b)).
    + rewrite length_app. simpl. lia.
  - intros [= <-]. split; cbn [conn phase chan unsent written lost_replies writer_task returned]; try done; [|congruence].
    rewrite <- S, (app_assoc (chan b)), <- (Permutation_cons_append (chan b ++ unsent b)), <- !app_assoc. done.
Qed.

Lemma complete_reports i r c :
  negb (reports i c) || (length (outcomes c) <? max_inflight)%nat = true ->
  (length (outcomes c) <= max_inflight)%nat -> (length (outcomes (server_step (Complete i r) c)) <= max_inflight)%nat.
Proof.
  unfold Server.step, reports. intros Hg Hle. destruct (stopped c); [done|].
  destruct (handlers c !! i) as [[s [h|a]]|]; [|done..].
  assert (Hout : forall outcome reply, complete h r = Some (outcome, reply) -> outcome = None \/
    (length (outcomes c) < max_inflight)%nat).
  { intros outcome reply. destruct h, r; try done; try (intros [= <- _]; by left). intros _. right.
    cbn in Hg. by apply Nat.ltb_lt in Hg. }
  destruct (complete h r) as [[outcome [rep|]]|]; [| |done];
    (destruct (Hout _ _ eq_refl) as [->|Hlt]; [by rewrite app_nil_r|]); simpl; rewrite length_app;
    destruct outcome; simpl; lia.
Qed.

Lemma binv_step n e b : (0 < max_inflight)%nat -> BInv n b -> BInv n (buffered_step e b).
Proof.
  intros Hmax I. pose proof I as [[evs B] S C R L T D]. destruct e as [now|s| |i r|i| | |]; cbn [Backpressure.buffered_step].
  - destruct (phase b) eqn:Ep; [|done]. destruct (unsent b) eqn:Eu; [|done].
    destruct (stopped (conn b)) eqn:Est; [done|].
    eapply (binv_reader n b _ _ (pushes now (held (conn b)))); try done.
    + destruct (returned b); [by destruct D|done].
    + by rewrite expire_eq.
    + by rewrite expire_eq.
    + exists evs, now. by apply expire_reorders.
  - destruct (phase b) eqn:Ep; [done|]. destruct (unsent b) eqn:Eu; [|done].
    destruct (stopped (conn b)) eqn:Est; [done|]. destruct (sends_after s (conn b)) as (l & Hl & Hone).
    eapply (binv_reader n b _ _ l); try done.
    + destruct (returned b); [by destruct D|done].
    + apply reports_kept.
    + destruct B as [now B]. exists (evs ++ [turn_of now s]). rewrite server_run_snoc, turn_select.
      * by apply select_reorders.
      * apply reorders_stopped in B. by rewrite expire_eq in B; simpl in B; rewrite <- B.
  - destruct (unsent b) as [|x rest] eqn:Eu; [done|].
    destruct (put max_inflight x (set_unsent rest b)) as [b'|] eqn:Ep; [|done]. cbn [default].
    eapply (binv_put n (set_unsent rest b)); try done; cbn [set_unsent conn phase chan unsent written lost_replies writer_task returned].
    + by exists evs.
    + rewrite <- S. by rewrite <- (Permutation_cons_append rest).
    + intros Hp. specialize (T Hp). simpl in T. lia.
    + destruct (returned b); [by destruct D as (_ & ? & _)|done].
  - destruct (negb _ || _) eqn:Eg; [|done].
    assert (returned b = true -> stopped (server_step (Complete i r) (conn b)) <> None) as Hret.
    { intros Hr. destruct (D Hr) as (Hs & _). unfold Server.step. destruct (stopped (conn b)) eqn:E; [by rewrite E|done]. }
    assert (outbox (server_step (Complete i r) (conn b)) = outbox (conn b)) as Eo.
    { unfold Server.step. by repeat case_match. }
    split; cbn [set_conn conn phase chan unsent written lost_replies writer_task returned]; try done.
    + exists (evs ++ [Complete i r]). rewrite server_run_snoc. by apply behind_complete.
    + by rewrite Eo.
    + by apply complete_reports.
    + intros Hr. split; [by apply Hret|by apply D].
  - destruct (handlers (conn b) !! i) as [[s [h|r]]|] eqn:Hi; [done| |done].
    case_bool_decide as Est; [|done]. set (c' := server_step (Reply_ i) (conn b)).
    assert (c' = Server.send_reply s r (set_handlers (delete_at i (handlers (conn b))) (conn b))) as Ec
      by (unfold c', Server.step; by rewrite Est, Hi).
    destruct (put max_inflight (s, r) (set_conn c' b)) as [b'|] eqn:Ep; [|done]. cbn [default].
    eapply (binv_put n (set_conn c' b)); try done; cbn [set_conn conn phase chan unsent written lost_replies writer_task returned].
    + exists (evs ++ [Reply_ i]). rewrite server_run_snoc. by apply behind_reply.
    + rewrite Ec. simpl. rewrite <- S. by rewrite !app_assoc.
    + rewrite Ec. done.
    + destruct (returned b); [by destruct D|done].
  - destruct (writer_task b) eqn:Ew; [|done]. destruct (chan b) as [|x rest] eqn:Ec; [done|].
    split; cbn [conn phase chan unsent written lost_replies writer_task returned]; try done.
    + by exists evs.
    + rewrite <- S, L by done. by rewrite <- !app_assoc.
    + simpl in C. lia.
    + intros Hr. by destruct (D Hr) as (_ & _ & ?).
  - destruct (writer_task b) eqn:Ew; [|done]. destruct (chan b) as [|x rest] eqn:Ec; [done|].
    split; cbn [conn phase chan unsent written lost_replies writer_task returned]; try done.
    + by exists evs.
    + rewrite <- S. rewrite <- !app_assoc. by rewrite app_nil_l.
    + simpl. lia.
    + intros Hr. by destruct (D Hr) as (_ & _ & ?).
  - destruct (stopped (conn b)) eqn:Est; [|done]. destruct (unsent b) eqn:Eu; [|done].
    destruct (chan b) eqn:Ec; [|done].
    split; cbn [conn phase chan unsent written lost_replies writer_task returned]; try done.
    + by exists evs.
    + intros _. by rewrite Est.
Qed.

Lemma binv_run n events b : (0 < max_inflight)%nat -> BInv n b -> BInv n (buffered_run events b).
Proof. intros Hm. revert b. induction events as [|e rest IH]; intros b I; [done|]. by apply IH, binv_step. Qed.

Lemma binv_buffered n : BInv n (buffered n).
Proof. split; simpl; try done; try lia. by exists []. Qed.

(** C8: the bounded connection is the unbounded one, up to the order of its replies. After any
    schedule of the reader, the handlers and the writer task, the connection is one Server.v
    reaches (with its holds expired once more while the reader is at its select), except for
    the order of what was sent; and what was sent is exactly what is written, in the channel,
    still to be sent by the reader, or lost with a writer that failed. The two channels never
    hold more than the ceiling, the reader waits with at most one reply of its own outside the
    pushes, and nothing is lost while the writer runs. *)
Theorem buffered_refines n events :
  (0 < max_inflight)%nat ->
  let b := buffered_run events (buffered n) in
  (exists turns, behind (phase b) (server_run turns (connection n)) (conn b)) /\
  written b ++ lost_replies b ++ chan b ++ unsent b ≡ₚ outbox (conn b) /\
  (length (chan b) <= max_inflight)%nat /\ (length (outcomes (conn b)) <= max_inflight)%nat /\
  (phase b = AtTop -> (length (unsent b) <= 1)%nat) /\
  (writer_task b = Writing -> lost_replies b = []).
Proof.
  intros Hm. cbv zeta. destruct (binv_run n events _ Hm (binv_buffered n)) as [B S C R L T _]. by split_and!.
Qed.

(** A reply is written at most once, whatever waits. *)
Lemma tally_perm {A} (P : A -> bool) l l' : l ≡ₚ l' -> tally P l = tally P l'.
Proof. unfold tally. by intros ->. Qed.

Lemma behind_answers p c c' s : behind p c c' -> answers s c' = answers s c.
Proof.
  assert (Hr : forall c1 c2, reorders c1 c2 -> answers s c2 = answers s c1).
  { intros c1 c2 [Ho _]. unfold answers. symmetry. by apply tally_perm. }
  destruct p; [apply Hr|]. intros [now H]. rewrite (Hr _ _ H). by destruct (expire_same now c) as (_ & _ & _ & _ & _ & _ & _ & -> & _).
Qed.

Corollary written_once n events s o :
  (0 < max_inflight)%nat ->
  let b := buffered_run events (buffered n) in
  frames (conn b) !! s = Some o -> (tally (is_answer (Z.of_nat s)) (written b) <= Nat.b2n (expects_reply o))%nat.
Proof.
  intros Hm. cbv zeta. destruct (binv_run n events _ Hm (binv_buffered n)) as [[turns B] S _ _ _ _ _].
  set (b := buffered_run events (buffered n)) in *. set (c := server_run turns (connection n)) in *. intros Hs.
  assert (frames (conn b) = frames c) as Ef.
  { destruct (phase b); [by rewrite (ro_rest _ _ B)|]. destruct B as [now B]. rewrite (ro_rest _ _ B). by rewrite expire_eq. }
  pose proof (conn_run_inv sha256 ct_eq decode_charge decode_budget decode_acquire decode_release decode_log
    decode_invalidation limits secret max_inflight turns _ (inv_connection max_inflight n)) as C. fold c in C.
  rewrite Ef in Hs. assert (0 <= Z.of_nat s < sequence c) as Hr.
  { rewrite (iv_sequence _ _ C). apply lookup_lt_Some in Hs. lia. }
  destruct (iv_balance _ _ C _ Hr) as [Hb _]. unfold expected in Hb. rewrite Nat2Z.id, Hs in Hb.
  rewrite <- (behind_answers _ _ _ (Z.of_nat s) B) in Hb. unfold answers in Hb.
  rewrite <- (tally_perm _ _ _ S), tally_app in Hb. lia.
Qed.

(** ** The writer *)

(** While the client reads: the writer and the reader's waiting sends take turns. *)
Fixpoint drain (n : nat) : list BEvent := match n with O => [] | S n => BWrite :: BPut :: drain n end.

Lemma drain_step b :
  (0 < max_inflight)%nat -> writer_task b = Writing -> (length (chan b) <= max_inflight)%nat ->
  let b' := buffered_step BPut (buffered_step BWrite b) in
  conn b' = conn b /\ phase b' = phase b /\ returned b' = returned b /\ lost_replies b' = lost_replies b /\
  writer_task b' = Writing /\ (length (chan b') <= max_inflight)%nat /\
  written b' ++ chan b' ++ unsent b' = written b ++ chan b ++ unsent b /\
  ((length (chan b') + length (unsent b')) + (if bool_decide (chan b = []) then 0 else 1) =
   length (chan b) + length (unsent b))%nat /\
  (chan b = [] -> unsent b <> [] -> chan b' <> []).
Proof.
  intros Hm Hw Hc. cbv zeta. cbn [Backpressure.buffered_step]. rewrite Hw.
  destruct b as [c p ch un wr lo wt re]. cbn [conn phase chan unsent written lost_replies writer_task returned] in *. subst wt.
  destruct ch as [|x rest]; cbn [conn phase chan unsent written lost_replies writer_task returned]; destruct un as [|y un];
    cbn [put set_unsent conn phase chan unsent written lost_replies writer_task returned].
  - split_and!; try done.
  - destruct (Nat.ltb_spec (length (@nil (Z * Reply))) max_inflight); [|simpl in *; lia].
    cbn [default conn phase chan unsent written lost_replies writer_task returned]. split_and!; try done.
  - simpl in Hc. split_and!; try done; simpl; try lia. by rewrite <- !app_assoc.
  - simpl in Hc. destruct (Nat.ltb_spec (length rest) max_inflight); [|lia].
    cbn [default conn phase chan unsent written lost_replies writer_task returned]. split_and!; try done; simpl.
    + rewrite length_app. simpl. lia.
    + rewrite <- !app_assoc. done.
    + rewrite length_app. simpl. lia.
Qed.

Lemma run_app e1 e2 b : buffered_run (e1 ++ e2) b = buffered_run e2 (buffered_run e1 b).
Proof. revert b. induction e1 as [|e e1 IH]; intros b; [done|]. apply IH. Qed.

Lemma drain_all k b :
  (0 < max_inflight)%nat -> writer_task b = Writing -> (length (chan b) <= max_inflight)%nat ->
  (2 * (length (chan b) + length (unsent b)) <= k + (if bool_decide (chan b = []) then 0 else 1))%nat ->
  let b' := buffered_run (drain k) b in
  conn b' = conn b /\ writer_task b' = Writing /\ lost_replies b' = lost_replies b /\
  unsent b' = [] /\ chan b' = [] /\ written b' = written b ++ chan b ++ unsent b.
Proof.
  intros Hm. revert b. induction k as [|k IH]; intros b Hw Hc Hk; cbn [drain Backpressure.buffered_run]; cbv zeta.
  - case_bool_decide as E; [|destruct (chan b); [done|simpl in Hk; lia]]. rewrite E in *.
    destruct (unsent b) eqn:Eu; [|simpl in Hk; lia]. by rewrite !app_nil_r.
  - destruct (drain_step b Hm Hw Hc) as (E1 & _ & _ & E4 & Hw' & Hc' & Ewr & Elen & Hne).
    destruct (IH _ Hw' Hc') as (F1 & F2 & F3 & F4 & F5 & F6).
    + revert Elen Hne Hk. set (b' := buffered_step BPut _). case_bool_decide as E; intros Elen Hne Hk.
      * rewrite E in Hk. destruct (unsent b) as [|y un] eqn:Eu.
        { rewrite E in Elen. simpl in Elen. lia. }
        specialize (Hne E ltac:(done)). rewrite (bool_decide_eq_false_2 _ Hne). rewrite E in Elen. simpl in *. lia.
      * case_bool_decide; lia.
    + rewrite F1, F3, F6, E1, E4, Ewr. by split_and!.
Qed.

(** C21: while the client reads, nothing waits for ever. From any state reached with the writer
    running, as many turns of the socket and the reader as twice the replies that wait are
    enough: the reader's sends are done, the channel is empty, every reply is on the socket in
    the order it was queued, and a connection that ended returns. *)
Theorem reading_client_is_served n events :
  (0 < max_inflight)%nat ->
  let b := buffered_run events (buffered n) in
  writer_task b = Writing ->
  let b' := buffered_run (drain (2 * (length (chan b) + length (unsent b)))) b in
  conn b' = conn b /\ unsent b' = [] /\ chan b' = [] /\ written b' = written b ++ chan b ++ unsent b /\
  written b' ≡ₚ outbox (conn b) /\
  (stopped (conn b) <> None -> returned (buffered_step BReturn b') = true).
Proof.
  intros Hm b Hw. cbv zeta. destruct (binv_run n events _ Hm (binv_buffered n)) as [_ S C _ L _ _]. fold b in S, C, L.
  destruct (drain_all (2 * (length (chan b) + length (unsent b))) b Hm Hw C ltac:(lia)) as (E1 & _ & _ & E4 & E5 & E6).
  split_and!; try done.
  - rewrite E6, <- S, L by done. done.
  - intros Hst. cbn [Backpressure.buffered_step]. rewrite E1, E4, E5. by destruct (stopped (conn b)).
Qed.

(** *** A client that does not read *)

Definition not_read (e : BEvent) : Prop := match e with BWrite | BWriteFails => False | _ => True end.

Definition stuck (b : Buffered) : Prop :=
  writer_task b = Writing /\ length (chan b) = max_inflight /\ unsent b <> [].

Lemma stuck_step e b :
  stuck b -> not_read e -> stuck (buffered_step e b) /\
  held (conn (buffered_step e b)) = held (conn b) /\ frames (conn (buffered_step e b)) = frames (conn b) /\
  stopped (conn (buffered_step e b)) = stopped (conn b) /\ returned (buffered_step e b) = returned b.
Proof.
  intros Hs He. pose proof Hs as (Hw & Hc & Hu). destruct e as [now|s| |i r|i| | |]; try done; cbn [Backpressure.buffered_step].
  - destruct (phase b); [|by split_and!]. by destruct (unsent b).
  - destruct (phase b); [by split_and!|]. by destruct (unsent b).
  - destruct (unsent b) as [|x rest] eqn:Eu; [done|]. unfold put. cbn [writer_task set_unsent chan]. rewrite Hw, Hc, Nat.ltb_irrefl.
    by split_and!.
  - destruct (negb _ || _); [|by split_and!].
    assert (forall i r c, held (server_step (Complete i r) c) = held c /\ frames (server_step (Complete i r) c) = frames c /\
      stopped (server_step (Complete i r) c) = stopped c) as Hcomp.
    { intros j r' c. unfold Server.step. destruct (stopped c) eqn:E; [by rewrite E|]. by repeat case_match. }
    destruct (Hcomp i r (conn b)) as (E1 & E2 & E3). by split_and!.
  - destruct (handlers (conn b) !! i) as [[s [h|r]]|]; [by split_and!| |by split_and!].
    case_bool_decide; [|by split_and!]. unfold put. cbn [writer_task set_conn chan]. rewrite Hw, Hc, Nat.ltb_irrefl. by split_and!.
  - destruct (stopped (conn b)) eqn:Est; [|by split_and!]. destruct (unsent b) eqn:Eu; [done|]. by split_and!.
Qed.

Lemma stuck_run events b :
  stuck b -> Forall not_read events ->
  held (conn (buffered_run events b)) = held (conn b) /\ frames (conn (buffered_run events b)) = frames (conn b) /\
  stopped (conn (buffered_run events b)) = stopped (conn b) /\ returned (buffered_run events b) = returned b.
Proof.
  revert b. induction events as [|e rest IH]; intros b Hs He; [done|]. apply Forall_cons in He as [He Hrest].
  cbn [Backpressure.buffered_run]. destruct (stuck_step e b Hs He) as (Hs' & <- & <- & <- & <-). by apply IH.
Qed.

End Laws.

(** ** A run *)

Module Unread.
Import ServerLaws.Sample.

Abbreviation buffered_run := (Backpressure.buffered_run sample_digest list_eq none none one_acquire one_release none none
  lock_limits key32 1%nat).

(** A lock is granted, and the client goes on releasing one it does not hold without reading
    the refusals: one place in the channel, and the reader waits with the next. *)
Definition unread_events : list BEvent :=
  [BExpire 0; BSelect (SFrame (frame 0 LockAcquire [100])); BComplete 0 (RAcquire 1 (Acquired 9) 10); BReply 0;
   BExpire 20; BSelect SReport; BWrite;
   BExpire 30; BSelect (SFrame (frame 1 LockRelease [8])); BPut;
   BExpire 40; BSelect (SFrame (frame 2 LockRelease [8])); BPut].

Abbreviation unread := (buffered_run unread_events (buffered nonce8)).

(** The hold outlives its lease, which ends at 110, and the shutdown is not seen: whatever
    happens besides the client reading, at whatever time, the key stays held and the
    connection open. *)
Theorem unread_client_keeps_its_lock events :
  Forall not_read events ->
  held (conn (buffered_run events unread)) !! (7, 42) = Some (mkHeldLock 1 9 110) /\
  stopped (conn (buffered_run events unread)) = None.
Proof.
  intros He. assert (stuck 1 unread) as Hs by (vm_compute; split_and!; done).
  destruct (stuck_run sample_digest list_eq none none one_acquire one_release none none lock_limits key32 1 events unread Hs He)
    as (-> & _ & -> & _). vm_compute. done.
Qed.

Lemma unread_client_keeps_its_lock_witness :
  Forall not_read [BExpire 1000000; BSelect SShutdown] /\
  held (conn (buffered_run [BExpire 1000000; BSelect SShutdown] unread)) !! (7, 42) = Some (mkHeldLock 1 9 110).
Proof.
  assert (Forall not_read [BExpire 1000000; BSelect SShutdown]) as He by (repeat constructor).
  split; [exact He|]. exact (proj1 (unread_client_keeps_its_lock _ He)).
Defined.

Lemma buffered_refines_witness :
  (0 < 1)%nat /\ (length (chan unread) <= 1)%nat /\ outbox (conn unread) ≡ₚ written unread ++ lost_replies unread ++ chan unread ++ unsent unread.
Proof.
  assert (0 < 1)%nat as Hm by lia. split; [exact Hm|].
  destruct (buffered_refines sample_digest list_eq none none one_acquire one_release none none lock_limits key32 1 nonce8 unread_events Hm)
    as (_ & Hs & Hc & _). split; [exact Hc|exact (symmetry Hs)].
Defined.

Lemma reading_client_is_served_witness :
  writer_task unread = Writing /\
  chan (buffered_run (drain (2 * (length (chan unread) + length (unsent unread)))) unread) = [].
Proof.
  assert (0 < 1)%nat as Hm by lia. assert (writer_task unread = Writing) as Hw by (vm_compute; reflexivity).
  split; [exact Hw|].
  exact (proj1 (proj2 (proj2 (reading_client_is_served sample_digest list_eq none none one_acquire one_release none none
    lock_limits key32 1 nonce8 unread_events Hm Hw)))).
Defined.

End Unread.
