(* ===== verification/Client.v ===== *)
(** * Client: the backend's end of the wire (src/go/connection.go, src/go/locks.go)

    One [muxConnection], shared by every goroutine of the backend, as a machine: [exchange] and
    [write] step by step (the wait for a slot, the write under [writeMu], the wait for the
    reply), the [readLoop] and its dispatch by correlation, and the [Lock]s granted on it. A
    goroutine in [exchange] is a [Caller]; a critical section is one step, and a [select] that
    could take several ways may take any.

    [p_sequence] and [log] are ghosts: the whole sequence of a pending request, and every
    frame that took a sequence. What a call sends is its event's payload, which the payload
    builders keep under the opcode's ceiling. The operations, their policies and the retry on
    a connection that turned out dead are in Operations.v. Not modelled: dialing and logging. *)

From stdpp Require Import strings.
From S2P Require Import Prelude SipHash FrameAuth TimeFrame CreditsBlob Aggregation Storage Access.
From S2P Require Import ChargeProtocol Quota LockRegistry Sequence ReqLog Wire.
From S2P Require Import Server.

Record muxReply := mkMuxReply { r_shape : Z; r_body : bytes }.

Record pendingRequest := mkPending {
  p_caller : nat;                  (* its reply channel *)
  p_sequence : Z;
  abandoned : bool;
  p_opcode : Opcode;
  p_key : LockKey;
}.

Inductive CallError :=
| ClosedBeforeSlot | GaveUpBeforeSlot | SequenceExhausted | TooManyInFlight | WriteFailed
| ClosedBeforeReply | GaveUpBeforeReply.

(** Where a goroutine is in [exchange]; the reply channel has one place. *)
Inductive CallState :=
| WaitSlot
| HasSlot
| WaitReply (correlation : Z) (reply : option muxReply)
| Returned (r : result CallError muxReply).

Record Caller := mkCaller {
  c_opcode : Opcode;
  c_payload : bytes;
  c_key : LockKey;
  c_state : CallState;
}.

Record Lock := mkLock { l_key : LockKey; l_generation : Z; lost : bool; done : bool }.

(** A frame that took a sequence; [None] for one no caller waits on. *)
Record Sent := mkSent { s_opcode : Opcode; s_payload : bytes; s_caller : option nat }.

Record Mux := mkMux {
  m_nonce : bytes;
  m_sequence : Z;
  pending : gmap Z pendingRequest;
  m_held : gmap LockKey nat;
  callers : gmap nat Caller;
  locks : gmap nat Lock;
  closed : bool;
  log : list Sent;
}.

Definition set_pending p m := mkMux (m_nonce m) (m_sequence m) p (m_held m) (callers m) (locks m) (closed m) (log m).
Definition set_m_held h m := mkMux (m_nonce m) (m_sequence m) (pending m) h (callers m) (locks m) (closed m) (log m).
Definition set_callers cs m := mkMux (m_nonce m) (m_sequence m) (pending m) (m_held m) cs (locks m) (closed m) (log m).
Definition set_locks ls m := mkMux (m_nonce m) (m_sequence m) (pending m) (m_held m) (callers m) ls (closed m) (log m).

(** [fail]: the socket is closed, once. *)
Definition fail (m : Mux) : Mux :=
  mkMux (m_nonce m) (m_sequence m) (pending m) (m_held m) (callers m) (locks m) true (log m).

(** A sequence is taken. *)
Definition take_sequence (s : Sent) (m : Mux) : Mux :=
  mkMux (m_nonce m) (m_sequence m + 1) (pending m) (m_held m) (callers m) (locks m) (closed m) (log m ++ [s]).

Definition set_state (i : nat) (st : CallState) (m : Mux) : Mux :=
  set_callers (alter (fun c => mkCaller (c_opcode c) (c_payload c) (c_key c) st) i (callers m)) m.

Definition forget (correlation : Z) (m : Mux) : Mux := set_pending (delete correlation (pending m)) m.
Definition abandon (correlation : Z) (m : Mux) : Mux :=
  set_pending (alter (fun p => mkPending (p_caller p) (p_sequence p) true (p_opcode p) (p_key p))
                 correlation (pending m)) m.

(** A goroutine enters [exchange]. *)
Definition start (i : nat) (o : Opcode) (payload : bytes) (key : LockKey) (m : Mux) : Mux :=
  if bool_decide (callers m !! i = None)
  then set_callers (<[i := mkCaller o payload key WaitSlot]> (callers m)) m else m.

(** Between the slot and the return of [exchange]. *)
Definition holds_slot (c : Caller) : bool :=
  match c_state c with HasSlot | WaitReply _ _ => true | _ => false end.

Definition slots_taken (seq : bool) (m : Mux) : nat :=
  length (filter (fun ic => holds_slot ic.2 = true /\ is_sequence (c_opcode ic.2) = seq) (map_to_list (callers m))).

(** How a write to the socket goes; a failing one may have sent a part of the frame. *)
Inductive WriteOutcome := Written | WriteFails (sent : nat).

Section Mux.
Context (sha256 : bytes -> bytes).
Context (makeLockReleasePayload : LockKey -> Z -> bytes).
Variable secret : bytes.
Variable max_inflight_per_connection : nat.

Definition frame_bytes (m : Mux) (o : Opcode) (payload : bytes) : bytes :=
  buildFarewardFrame sha256 secret (m_nonce m) (m_sequence m) o payload.

(** [SetWriteDeadline] and [writeCompleteFrame]; a closed socket takes nothing. *)
Definition write_outcome (outcome : WriteOutcome) (m : Mux) : WriteOutcome :=
  if closed m then WriteFails 0 else outcome.

(** [exchange], from the slot to the wait: the correlation is registered and the frame is
    written under [writeMu]. *)
Definition exchange_write (i : nat) (outcome : WriteOutcome) (m : Mux) : Mux * bytes :=
  match callers m !! i with
  | Some c =>
      match c_state c with
      | HasSlot =>
          if m_sequence m =? U64_MAX then (set_state i (Returned (Err SequenceExhausted)) (fail m), [])
          else
            let correlation := wrap 16 (m_sequence m) in
            match pending m !! correlation with
            | Some _ => (set_state i (Returned (Err TooManyInFlight)) m, [])
            | None =>
                let frame := frame_bytes m (c_opcode c) (c_payload c) in
                let m1 := take_sequence (mkSent (c_opcode c) (c_payload c) (Some i)) m in
                match write_outcome outcome m with
                | Written =>
                    (set_state i (WaitReply correlation None)
                       (set_pending (<[correlation := mkPending i (m_sequence m) false (c_opcode c) (c_key c)]>
                          (pending m1)) m1), frame)
                | WriteFails sent => (set_state i (Returned (Err WriteFailed)) (fail m1), take sent frame)
                end
            end
      | _ => (m, [])
      end
  | None => (m, [])
  end.

(** [write]: a frame nobody waits on. *)
Definition write (o : Opcode) (payload : bytes) (outcome : WriteOutcome) (m : Mux) : Mux * bytes :=
  if m_sequence m =? U64_MAX then (fail m, [])
  else
    let frame := frame_bytes m o payload in
    let m1 := take_sequence (mkSent o payload None) m in
    match write_outcome outcome m with
    | Written => (m1, frame)
    | WriteFails sent => (fail m1, take sent frame)
    end.

(** ** The read loop *)

(** [markLost]. *)
Definition markLost (i : nat) (m : Mux) : Mux :=
  set_locks (alter (fun l => mkLock (l_key l) (l_generation l) true (done l)) i (locks m)) m.

(** [handlePush], for a body long enough. *)
Definition handlePush (push_shape : Z) (body : bytes) (m : Mux) : Mux :=
  if negb (push_shape =? 0x80) || (length body <? LOCK_LOST_BODY_SIZE)%nat then m
  else
    let key := (of_be (take 2 body), swrap 64 (of_be (take 8 (drop 2 body)))) in
    let m1 := set_m_held (delete key (m_held m)) m in
    match m_held m !! key with Some lock => markLost lock m1 | None => m1 end.

Definition decodeLockGeneration (reply : muxReply) : Z :=
  if (length (r_body reply) <? 2)%nat then 0 else of_be (take 2 (r_body reply)).

(** The reply goes into the caller's channel. *)
Definition deliver (i : nat) (reply : muxReply) (m : Mux) : Mux :=
  match callers m !! i with
  | Some c =>
      match c_state c with
      | WaitReply correlation None => set_state i (WaitReply correlation (Some reply)) m
      | _ => m
      end
  | None => m
  end.

(** One turn of [readLoop], with the frame it read; [fresh] is the goroutine that hands back a
    lock granted to a caller that gave up. *)
Definition read (f : ClientFrame) (fresh : nat) (m : Mux) : Mux :=
  match f with
  | Push push_shape body => handlePush push_shape body m
  | Answer s correlation body =>
      let answer := mkMuxReply s body in
      match pending m !! correlation with
      | None => m
      | Some request =>
          let m1 := forget correlation m in
          if abandoned request then
            if bool_decide (p_opcode request = LockAcquire) && (s =? 0x05)
            then start fresh LockRelease
                   (makeLockReleasePayload (p_key request) (decodeLockGeneration answer)) (p_key request) m1
            else m1
          else deliver (p_caller request) answer m1
      end
  end.

(** ** The locks *)

(** [newLock], in the goroutine whose acquire was granted. *)
Definition newLock (i : nat) (m : Mux) : Mux :=
  match callers m !! i with
  | Some (mkCaller LockAcquire _ key (Returned (Ok reply))) =>
      if (r_shape reply =? 0x05) && bool_decide (locks m !! i = None)
      then set_m_held (<[key := i]> (m_held m))
             (set_locks (<[i := mkLock key (decodeLockGeneration reply) false false]> (locks m)) m)
      else m
  | _ => m
  end.

(** [Release]; [fresh] is its own [exchange]. [forgetHeld] goes by the key. *)
Definition Release (i fresh : nat) (m : Mux) : Mux :=
  match locks m !! i with
  | Some l =>
      if done l then m
      else
        let m1 := set_m_held (delete (l_key l) (m_held m))
                    (set_locks (<[i := mkLock (l_key l) (l_generation l) (lost l) true]> (locks m)) m) in
        if closed m then m1
        else start fresh LockRelease (makeLockReleasePayload (l_key l) (l_generation l)) (l_key l) m1
  | None => m
  end.

(** The watcher: its timer, or the connection closed. *)
Definition watcher (i : nat) (m : Mux) : Mux :=
  match locks m !! i with Some l => if done l then m else markLost i m | None => m end.

(** ** The whole connection *)

Inductive Event :=
| Call (i : nat) (o : Opcode) (payload : bytes) (key : LockKey)
| TakeSlot (i : nat)
| Write (i : nat) (outcome : WriteOutcome)
| Send (o : Opcode) (payload : bytes) (outcome : WriteOutcome)
| Receive (i : nat)        (* the reply was in the channel *)
| SeeClosed (i : nat)      (* <-connection.closed *)
| GiveUp (i : nat)         (* the timer, or the context *)
| Fail                     (* a read error, an unknown shape, Close *)
| NewLock (i : nat)
| ReleaseLock (i fresh : nat)
| Watcher (i : nat).

Definition fits_opcode (o : Opcode) (payload : bytes) : bool := (length payload <=? max_payload_size o)%nat.

Definition caller_step (e : Event) (i : nat) (c : Caller) (m : Mux) : Mux :=
  match e, c_state c with
  | TakeSlot _, WaitSlot =>
      if (slots_taken (is_sequence (c_opcode c)) m <? max_inflight_per_connection)%nat
      then set_state i HasSlot m else m
  | SeeClosed _, WaitSlot => if closed m then set_state i (Returned (Err ClosedBeforeSlot)) m else m
  | GiveUp _, WaitSlot => set_state i (Returned (Err GaveUpBeforeSlot)) m
  | Receive _, WaitReply _ (Some reply) => set_state i (Returned (Ok reply)) m
  | SeeClosed _, WaitReply correlation _ =>
      if closed m then set_state i (Returned (Err ClosedBeforeReply)) (forget correlation m) else m
  | GiveUp _, WaitReply correlation _ =>
      set_state i (Returned (Err GaveUpBeforeReply)) (abandon correlation m)
  | _, _ => m
  end.

Definition with_caller (e : Event) (i : nat) (m : Mux) : Mux :=
  match callers m !! i with Some c => caller_step e i c m | None => m end.

Definition step (e : Event) (m : Mux) : Mux * bytes :=
  match e with
  | Call i o payload key =>
      (if expects_reply o && fits_opcode o payload then start i o payload key m else m, [])
  | Write i outcome => exchange_write i outcome m
  | Send o payload outcome =>
      if negb (expects_reply o) && fits_opcode o payload then write o payload outcome m else (m, [])
  | TakeSlot i | Receive i | SeeClosed i | GiveUp i => (with_caller e i m, [])
  | Fail => (fail m, [])
  | NewLock i => (newLock i m, [])
  | ReleaseLock i fresh => (Release i fresh m, [])
  | Watcher i => (watcher i m, [])
  end.

Definition dialed (n : bytes) : Mux := mkMux n 0 ∅ ∅ ∅ ∅ false [].

End Mux.

(** ** The two ends *)

Section Link.
Context (sha256 : bytes -> bytes) (ct_eq : bytes -> bytes -> bool).
Context (decode_charge : bytes -> option ChargeFrame) (decode_budget : bytes -> option BudgetMutationFrame).
Context (decode_acquire : bytes -> option AcquireRequest) (decode_release : bytes -> option ReleaseRequest).
Context (decode_log : bytes -> option RequestLogRecord) (decode_invalidation : bytes -> option AccessInvalidation).
Context (makeLockReleasePayload : LockKey -> Z -> bytes).
Variable limits : LockLimits.
Variable secret : bytes.
Variables max_inflight max_inflight_per_connection : nat.

Abbreviation server_step := (Server.step sha256 ct_eq decode_charge decode_budget decode_acquire
  decode_release decode_log decode_invalidation limits secret max_inflight).
Abbreviation on_frame := (on_frame sha256 ct_eq decode_charge decode_budget decode_acquire
  decode_release decode_log decode_invalidation limits secret max_inflight).

(** The bytes on their way to the daemon; what the daemon sent, read by the client and not. *)
Record Link := mkLink {
  mux : Mux;
  conn : Conn;
  up : bytes;
  seen : list (Z * Reply);
  down : list (Z * Reply);
}.

Inductive LinkEvent :=
| AtClient (e : Event)
| AtServer (e : Server.Event)      (* anything but a frame *)
| Frame (now : Z)                  (* the daemon reads a frame *)
| Cut (now : Z)                    (* the stream ends under the daemon *)
| ReadFrame (fresh : nat).         (* the client reads a frame *)

Definition is_turn_frame (e : Server.Event) : bool := match e with TurnFrame _ _ => true | _ => false end.

(** What the connection sent since. *)
Definition sent_since (c c' : Conn) : list (Z * Reply) := drop (length (outbox c)) (outbox c').

Definition with_conn (c : Conn) (bs : bytes) (l : Link) : Link :=
  mkLink (mux l) c bs (seen l) (down l ++ sent_since (conn l) c).

(** A frame is read when there is one; a client that failed leaves a stream that ends. *)
Definition link_step (e : LinkEvent) (l : Link) : Link :=
  match e with
  | AtClient e =>
      let '(m, bs) := step sha256 makeLockReleasePayload secret max_inflight_per_connection e (mux l) in
      mkLink m (conn l) (up l ++ bs) (seen l) (down l)
  | AtServer e => if is_turn_frame e then l else with_conn (server_step e (conn l)) (up l) l
  | Frame now =>
      match up l, closed (mux l), stopped (conn l) with
      | [], false, _ | _, _, Some _ => l
      | stream, _, None =>
          with_conn (server_step (TurnFrame now stream) (conn l)) (on_frame stream (expire now (conn l))).2 l
      end
  | Cut now => with_conn (server_step (TurnFrame now []) (conn l)) [] l
  | ReadFrame fresh =>
      match closed (mux l), down l with
      | false, (s, r) :: rest =>
          mkLink (read makeLockReleasePayload (frame_of r s) fresh (mux l)) (conn l) (up l)
            (seen l ++ [(s, r)]) rest
      | _, _ => l
      end
  end.

Fixpoint link_run (events : list LinkEvent) (l : Link) : Link :=
  match events with [] => l | e :: rest => link_run rest (link_step e l) end.

(** After the nonce. *)
Definition linked (n : bytes) : Link := mkLink (dialed n) (connection n) [] [] [].

End Link.
