(* ===== verification/ClientLaws.v ===== *)
(** * ClientLaws: the two ends of a connection agree

    The invariant of Client.v's link: what the client has written and the daemon has not read
    is the client's log from the daemon's sequence on; a request is pending exactly while its
    answer has not been read, and the correlation finds it. From it: every caller gets the
    answer to its own frame, no one waits for an answer that is not coming, and the daemon
    accepts every frame. The theorems at the end show where the client falls short of what
    its comments say. *)

From stdpp Require Import strings.
From S2P Require Import Prelude SipHash FrameAuth TimeFrame CreditsBlob Aggregation Storage Access.
From S2P Require Import ChargeProtocol Quota LockRegistry Sequence ReqLog Wire.
From S2P Require Import Server ServerLaws Client.

(** ** The client alone *)

Definition answered (seen : list (Z * Reply)) (fr : list Opcode) (o : Opcode) (s : nat) (rep : muxReply) : Prop :=
  exists r, (Z.of_nat s, r) ∈ seen /\ is_push (shape r) = false /\ fr !! s = Some o /\
    rep = mkMuxReply (shape_byte (shape r)) (encode_body r).

(** What the log says of a caller, by where it is. *)
Definition caller_ok (seen : list (Z * Reply)) (fr : list Opcode) (lg : list Sent) (i : nat) (c : Caller) : Prop :=
  let own s := lg !! s = Some (mkSent (c_opcode c) (c_payload c) (Some i)) in
  match c_state c with
  | WaitSlot | HasSlot => expects_reply (c_opcode c) = true /\ fits_opcode (c_opcode c) (c_payload c) = true /\
      forall s x, lg !! s = Some x -> s_caller x <> Some i
  | WaitReply corr None => exists s, own s /\ corr = wrap 16 (Z.of_nat s)
  | WaitReply corr (Some rep) => exists s, own s /\ answered seen fr (c_opcode c) s rep
  | Returned (Ok rep) => exists s, own s /\ answered seen fr (c_opcode c) s rep
  | Returned (Err _) => True
  end.

Record Correlated (m : Mux) (seen : list (Z * Reply)) : Prop := {
  co_pending corr p : pending m !! corr = Some p -> exists s x,
    p_sequence p = Z.of_nat s /\ corr = wrap 16 (Z.of_nat s) /\ log m !! s = Some x /\
    s_caller x = Some (p_caller p) /\ tally (is_answer (Z.of_nat s)) seen = 0%nat /\ p_opcode p = s_opcode x;
  co_waiting s x : log m !! s = Some x -> is_Some (s_caller x) ->
    tally (is_answer (Z.of_nat s)) seen = 0%nat ->
    exists p, pending m !! wrap 16 (Z.of_nat s) = Some p /\ p_sequence p = Z.of_nat s;
  co_target corr p : pending m !! corr = Some p -> abandoned p = false ->
    exists c, callers m !! p_caller p = Some c /\ c_state c = WaitReply corr None;
}.

Record MInv (m : Mux) (seen : list (Z * Reply)) (fr : list Opcode) : Prop := {
  mi_sequence : m_sequence m = zlen (log m) /\ zlen (log m) <= U64_MAX;
  mi_log s x : log m !! s = Some x ->
    (is_Some (s_caller x) <-> expects_reply (s_opcode x) = true) /\ fits_opcode (s_opcode x) (s_payload x) = true;
  mi_unique s s' x x' i : log m !! s = Some x -> log m !! s' = Some x' ->
    s_caller x = Some i -> s_caller x' = Some i -> s = s';
  mi_fresh s x i : log m !! s = Some x -> s_caller x = Some i -> is_Some (callers m !! i);
  mi_callers i c : callers m !! i = Some c -> caller_ok seen fr (log m) i c;
  mi_open : closed m = false -> Correlated m seen;
}.

Lemma answered_extends seen seen' fr fr' o s rep :
  seen `prefix_of` seen' -> fr `prefix_of` fr' -> answered seen fr o s rep -> answered seen' fr' o s rep.
Proof.
  intros [k ->] [k' ->] (r & Hin & Hp & Hf & E). exists r. split; [apply elem_of_app; by left|].
  split; [done|]. split; [by apply lookup_app_l_Some|done].
Qed.

Lemma caller_grows seen seen' fr fr' lg i c :
  seen `prefix_of` seen' -> fr `prefix_of` fr' -> caller_ok seen fr lg i c -> caller_ok seen' fr' lg i c.
Proof.
  intros Hs Hf. unfold caller_ok. cbv zeta. destruct (c_state c) as [| |corr [rep|]|[rep|e]]; try done;
    intros (s & Ho & Ha); exists s; (split; [done|by eapply answered_extends]).
Qed.

(** The log grows by a frame of someone else. *)
Lemma caller_logged seen fr lg i c x :
  s_caller x <> Some i -> caller_ok seen fr lg i c -> caller_ok seen fr (lg ++ [x]) i c.
Proof.
  intros Hx. unfold caller_ok. cbv zeta.
  assert (forall s y, lg !! s = Some y -> (lg ++ [x]) !! s = Some y) as Hl by (intros; by apply lookup_app_l_Some).
  destruct (c_state c) as [| |corr [rep|]|[rep|e]]; try done.
  1,2: intros (He & Hf & Hn); (split; [done|]); (split; [done|]); intros s y [Hy|[_ Hy]]%lookup_app_Some;
    [by eapply Hn|apply list_lookup_singleton_Some in Hy as [_ <-]; done].
  all: intros (s & Ho & Ha); exists s; split; [by apply Hl|done].
Qed.

(** A step that leaves log, pending requests and callers' places alone. *)
Definition same_calls (m m' : Mux) : Prop :=
  m_sequence m' = m_sequence m /\ log m' = log m /\ pending m' = pending m /\ callers m' = callers m /\
  (closed m = true -> closed m' = true).

Lemma minv_same m m' seen fr : same_calls m m' -> MInv m seen fr -> MInv m' seen fr.
Proof.
  intros (E1 & E2 & E3 & E4 & Hc) [I1 I2 I3 I4 I5 I6]. split; rewrite ?E1, ?E2, ?E4; try done.
  intros Ho. destruct (closed m) eqn:E; [by rewrite Hc in Ho|]. destruct I6 as [C1 C2 C3]; [done|].
  split; rewrite ?E2, ?E3, ?E4; done.
Qed.

Lemma minv_seen m seen seen' fr fr' :
  seen `prefix_of` seen' -> fr `prefix_of` fr' ->
  (closed m = false -> Correlated m seen -> Correlated m seen') -> MInv m seen fr -> MInv m seen' fr'.
Proof.
  intros Hs Hf Hc [I1 I2 I3 I4 I5 I6]. split; try done; [|by auto].
  intros i c Hi. eapply caller_grows; [done|done|by apply I5].
Qed.

(** One caller moves, to a place the log allows. *)
Lemma minv_state i st m seen fr :
  (forall c, callers m !! i = Some c -> caller_ok seen fr (log m) i (mkCaller (c_opcode c) (c_payload c) (c_key c) st)) ->
  (forall corr p, closed m = false -> pending m !! corr = Some p -> abandoned p = false -> p_caller p <> i) ->
  MInv m seen fr -> MInv (set_state i st m) seen fr.
Proof.
  intros Hok Hp [I1 I2 I3 I4 I5 I6]. split; simpl; try done.
  - intros s x j Hx Hj. destruct (I4 s x j Hx Hj) as [c Hc]. rewrite lookup_alter.
    destruct (decide (i = j)) as [->|]; rewrite Hc; by eexists.
  - intros j c. rewrite lookup_alter. destruct (decide (i = j)) as [->|]; [|by apply I5].
    intros (c0 & Hc0 & ->)%fmap_Some. by apply Hok.
  - intros Ho. destruct (I6 Ho) as [C1 C2 C3]. split; simpl; [done|done|].
    intros corr p Hc Ha. specialize (Hp corr p Ho Hc Ha). rewrite lookup_alter_ne by done. by apply C3.
Qed.

Lemma minv_fail m seen fr : MInv m seen fr -> MInv (fail m) seen fr.
Proof. intros [I1 I2 I3 I4 I5 I6]. by split. Qed.

Lemma minv_start i o payload key m seen fr :
  expects_reply o = true -> fits_opcode o payload = true -> MInv m seen fr -> MInv (start i o payload key m) seen fr.
Proof.
  intros He Hf I. unfold start. case_bool_decide as Hi; [|done]. destruct I as [I1 I2 I3 I4 I5 I6].
  assert (Hnone : forall s x, log m !! s = Some x -> s_caller x <> Some i).
  { intros s x Hx Hs. destruct (I4 s x i Hx Hs) as [c Hc]. congruence. }
  split; simpl; try done.
  - intros s x j Hx Hj. destruct (decide (i = j)) as [->|]; [rewrite lookup_insert_eq; by eexists|].
    rewrite lookup_insert_ne by done. by eapply I4.
  - intros j c. destruct (decide (i = j)) as [->|].
    + rewrite lookup_insert_eq. intros [= <-]. by split_and!.
    + rewrite lookup_insert_ne by done. by apply I5.
  - intros Ho. destruct (I6 Ho) as [C1 C2 C3]. split; simpl; [done|done|].
    intros corr p Hc Ha. destruct (C3 corr p Hc Ha) as (c & Hcl & Hst). exists c. split; [|done].
    rewrite lookup_insert_ne; [done|]. intros ->. congruence.
Qed.

(** A sequence is taken for [x], and [pending] gets what [x] waits for. *)
Definition unanswered_from (seen : list (Z * Reply)) (n : nat) : Prop :=
  forall s, (n <= s)%nat -> tally (is_answer (Z.of_nat s)) seen = 0%nat.

Lemma minv_take_none o payload m seen fr :
  m_sequence m <> U64_MAX -> expects_reply o = false -> fits_opcode o payload = true ->
  MInv m seen fr -> MInv (take_sequence (mkSent o payload None) m) seen fr.
Proof.
  intros Hmax He Hf [[I1 I1'] I2 I3 I4 I5 I6]. unfold take_sequence.
  assert (Hnew : forall s x, (log m ++ [mkSent o payload None]) !! s = Some x ->
    log m !! s = Some x \/ x = mkSent o payload None).
  { intros s x [Hx|[_ Hx]]%lookup_app_Some; [by left|right]. by apply list_lookup_singleton_Some in Hx as [_ <-]. }
  split; cbn [m_sequence log callers pending closed].
  - rewrite length_app. simpl. lia.
  - intros s x [Hx| ->]%Hnew; [by eapply I2|]. cbn. rewrite He. split; [|done]. split; [by intros [? ?]|done].
  - intros s s' x x' i [Hx| ->]%Hnew [Hx'| ->]%Hnew; [by eapply I3|done..].
  - intros s x i [Hx| ->]%Hnew; [by eapply I4|done].
  - intros i c Hi. apply caller_logged; [done|by apply I5].
  - intros Ho. destruct (I6 Ho) as [C1 C2 C3]. split; cbn [log callers pending]; [| |done].
    + intros corr p Hc. destruct (C1 corr p Hc) as (s & x & ? & ? & ? & ?). exists s, x.
      split; [done|]. split; [done|]. split; [by apply lookup_app_l_Some|done].
    + intros s x [Hx| ->]%Hnew; [by apply C2|]. by intros [? ?].
Qed.

Lemma minv_take_caller i c st corr p (m : Mux) seen fr :
  callers m !! i = Some c -> c_state c = HasSlot -> m_sequence m <> U64_MAX ->
  (st = Returned (Err WriteFailed) /\ closed m = true) \/
  (st = WaitReply corr None /\ corr = wrap 16 (m_sequence m) /\ pending m !! corr = None /\
   p = mkPending i (m_sequence m) false (c_opcode c) (c_key c) /\ unanswered_from seen (length (log m))) ->
  MInv m seen fr ->
  MInv (set_state i st (set_pending (if closed m then pending m else <[corr := p]> (pending m))
          (take_sequence (mkSent (c_opcode c) (c_payload c) (Some i)) m))) seen fr.
Proof.
  intros Hi Hst Hmax Hcase [[I1 I1'] I2 I3 I4 I5 I6]. pose proof (I5 i c Hi) as Hown. unfold caller_ok in Hown.
  rewrite Hst in Hown. destruct Hown as (He & Hf & Hfree).
  assert (Hnew : forall s x, (log m ++ [mkSent (c_opcode c) (c_payload c) (Some i)]) !! s = Some x ->
    (log m !! s = Some x /\ s_caller x <> Some i) \/
    (s = length (log m) /\ x = mkSent (c_opcode c) (c_payload c) (Some i))).
  { intros s x [Hx|[Hl Hx]]%lookup_app_Some; [left; split; [done|by eapply Hfree]|right].
    apply list_lookup_singleton_Some in Hx as [Hz <-]. split; [lia|done]. }
  assert (Hlast : (log m ++ [mkSent (c_opcode c) (c_payload c) (Some i)]) !! length (log m) =
    Some (mkSent (c_opcode c) (c_payload c) (Some i))) by (by apply list_lookup_middle).
  split; cbn [set_state set_callers set_pending take_sequence m_sequence log callers pending closed].
  - rewrite length_app. simpl. lia.
  - intros s x [[Hx _]|[_ ->]]%Hnew; [by eapply I2|]. cbn. split; [|done]. split; [done|by eexists].
  - intros s s' x x' j [[Hx Hn]|[-> ->]]%Hnew [[Hx' Hn']|[-> ->]]%Hnew.
    + by eapply I3.
    + cbn. congruence.
    + cbn. congruence.
    + done.
  - intros s x j [[Hx _]|[_ ->]]%Hnew Hj; rewrite lookup_alter.
    + destruct (I4 s x j Hx Hj) as [cj Hcj]. destruct (decide (i = j)) as [->|]; rewrite Hcj; by eexists.
    + injection Hj as <-. rewrite decide_True, Hi by done. by eexists.
  - intros j cj. rewrite lookup_alter. destruct (decide (i = j)) as [->|Hne].
    + rewrite Hi. cbn. intros [= <-]. unfold caller_ok. cbn.
      destruct Hcase as [[-> _]|(-> & -> & _)]; [done|]. exists (length (log m)). split; [exact Hlast|].
      by rewrite I1.
    + intros Hj. apply caller_logged; [cbn; congruence|by apply I5].
  - intros Ho. rewrite Ho. destruct Hcase as [[_ Hc]|(-> & Ec & Hnone & -> & Hun)]; [congruence|].
    destruct (I6 Ho) as [C1 C2 C3]. subst corr. rewrite I1 in *.
    split; cbn [set_state set_callers set_pending take_sequence m_sequence log callers pending closed].
    + intros corr p. destruct (decide (corr = wrap 16 (zlen (log m)))) as [->|Hne].
      * rewrite lookup_insert_eq. intros [= <-]. exists (length (log m)), (mkSent (c_opcode c) (c_payload c) (Some i)).
        split_and!; try done. by apply Hun.
      * rewrite lookup_insert_ne by done. intros Hp. destruct (C1 corr p Hp) as (s & x & ? & ? & ? & ?).
        exists s, x. split; [done|]. split; [done|]. split; [by apply lookup_app_l_Some|done].
    + intros s x [[Hx _]|[-> ->]]%Hnew Hs Ht.
      * destruct (C2 s x Hx Hs Ht) as (p & Hp & Ep). exists p. split; [|done].
        rewrite lookup_insert_ne; [done|]. intros E. rewrite E in Hnone. congruence.
      * eexists. by rewrite lookup_insert_eq.
    + intros corr p. destruct (decide (corr = wrap 16 (zlen (log m)))) as [->|Hne].
      * rewrite lookup_insert_eq. intros [= <-] _. cbn. rewrite lookup_alter_eq, Hi. cbn. by eexists.
      * rewrite lookup_insert_ne by done. intros Hp Ha. destruct (C3 corr p Hp Ha) as (cj & Hcj & Hsj).
        exists cj. split; [|done]. rewrite lookup_alter_ne; [done|]. intros E. rewrite <- E in Hcj. congruence.
Qed.

(** ** The steps of a caller *)

Lemma pending_waits m seen fr i c corr p :
  MInv m seen fr -> closed m = false -> callers m !! i = Some c ->
  pending m !! corr = Some p -> abandoned p = false -> p_caller p = i -> c_state c = WaitReply corr None.
Proof.
  intros I Ho Hi Hp Ha <-. destruct (co_target _ _ (mi_open _ _ _ I Ho) _ _ Hp Ha) as (c' & Hc' & Hst). congruence.
Qed.

Lemma minv_pending_closed p m seen fr : closed m = true -> MInv m seen fr -> MInv (set_pending p m) seen fr.
Proof. intros Hc [I1 I2 I3 I4 I5 I6]. split; try done. simpl. congruence. Qed.

Lemma minv_abandon corr m seen fr : MInv m seen fr -> MInv (abandon corr m) seen fr.
Proof.
  intros [I1 I2 I3 I4 I5 I6]. split; try done. intros Ho. destruct (I6 Ho) as [C1 C2 C3].
  assert (Hback : forall k p, pending (abandon corr m) !! k = Some p -> exists p0, pending m !! k = Some p0 /\
    p_sequence p = p_sequence p0 /\ p_caller p = p_caller p0 /\ p_opcode p = p_opcode p0 /\ (abandoned p = false -> abandoned p0 = false /\ k <> corr)).
  { intros k p. simpl. rewrite lookup_alter. case_decide as E; [|intros Hp; exists p; naive_solver].
    intros (p0 & Hp0 & ->)%fmap_Some. exists p0. cbn. split_and!; congruence. }
  split.
  - intros k p (p0 & Hp0 & E1 & E2 & E3 & _)%Hback. destruct (C1 k p0 Hp0) as (s & x & ? & ? & ? & ? & ? & ?).
    exists s, x. rewrite E1, E2, E3. by split_and!.
  - intros s x Hx Hs Ht. destruct (C2 s x Hx Hs Ht) as (p & Hp & E). simpl. rewrite lookup_alter.
    case_decide as Ek; [|by exists p]. rewrite Ek, Hp. by eexists.
  - intros k p (p0 & Hp0 & _ & E & _ & Ha)%Hback Hp. rewrite E. apply C3; [done|by apply Ha].
Qed.

Lemma minv_caller_step per e i c m seen fr :
  callers m !! i = Some c -> MInv m seen fr -> MInv (caller_step per e i c m) seen fr.
Proof.
  intros Hi I. pose proof (mi_callers _ _ _ I i c Hi) as Hown.
  assert (Hmove : forall st, (forall corr, c_state c <> WaitReply corr None) ->
    caller_ok seen fr (log m) i (mkCaller (c_opcode c) (c_payload c) (c_key c) st) -> MInv (set_state i st m) seen fr).
  { intros st Hst Hok. apply minv_state; [|by intros corr p Ho Hp Ha E; eapply Hst, pending_waits|done].
    intros c' Hc'. rewrite Hi in Hc'. by injection Hc' as <-. }
  unfold caller_ok in Hown.
  destruct e; unfold caller_step; destruct (c_state c) as [| |corr [rep|]|r] eqn:Est; try done.
  - destruct (_ <? _)%nat; [by apply Hmove|done].
  - by apply Hmove.
  - destruct (closed m) eqn:Ec; [by apply Hmove|done].
  - destruct (closed m) eqn:Ec; [|done]. apply minv_state; [done|simpl; congruence|by apply minv_pending_closed].
  - destruct (closed m) eqn:Ec; [|done]. apply minv_state; [done|simpl; congruence|by apply minv_pending_closed].
  - by apply Hmove.
  - apply minv_state; [done| |by apply minv_abandon]. intros k p Ho Hp Ha E.
    simpl in Hp. rewrite lookup_alter in Hp. case_decide as Ek.
    + apply fmap_Some in Hp as (? & _ & ->). done.
    + by pose proof (pending_waits _ _ _ _ _ _ _ I Ho Hi Hp Ha E) as E'; rewrite Est in E'.
  - apply minv_state; [done| |by apply minv_abandon]. intros k p Ho Hp Ha E.
    simpl in Hp. rewrite lookup_alter in Hp. case_decide as Ek.
    + apply fmap_Some in Hp as (? & _ & ->). done.
    + pose proof (pending_waits _ _ _ _ _ _ _ I Ho Hi Hp Ha E) as E'. rewrite Est in E'. congruence.
Qed.

(** ** Reading *)

Lemma tally_snoc {A} (P : A -> bool) l x : tally P (l ++ [x]) = (tally P l + Nat.b2n (P x))%nat.
Proof. by rewrite tally_app, tally_one. Qed.

Lemma is_answer_other s n r : s <> n -> is_answer s (n, r) = false.
Proof. intros H. unfold is_answer. simpl. destruct (Z.eqb_spec n s); [congruence|done]. Qed.

Lemma answer_self n r : is_push (shape r) = false -> is_answer n (n, r) = true.
Proof. intros H. unfold is_answer. simpl. by rewrite Z.eqb_refl, H. Qed.

Lemma minv_push n r m seen fr : is_push (shape r) = true -> MInv m seen fr -> MInv m (seen ++ [(n, r)]) fr.
Proof.
  intros Hr. assert (forall s, tally (is_answer s) (seen ++ [(n, r)]) = tally (is_answer s) seen) as Ht.
  { intros s. rewrite tally_snoc. unfold is_answer at 2. simpl. rewrite Hr, andb_false_r. simpl. lia. }
  apply minv_seen; [by eexists|done|]. intros _ [C1 C2 C3]. split; [| |done].
  - intros corr p Hp. destruct (C1 corr p Hp) as (s & x & ?). exists s, x. by rewrite Ht.
  - intros s x. rewrite Ht. apply C2.
Qed.

Section Answer.
Context (m : Mux) (seen : list (Z * Reply)) (fr : list Opcode) (n : nat) (r : Reply) (p : pendingRequest).
Context (Hopen : closed m = false) (Hr : is_push (shape r) = false).
Context (Hp : pending m !! wrap 16 (Z.of_nat n) = Some p) (Hn : p_sequence p = Z.of_nat n).

Abbreviation seen' := (seen ++ [(Z.of_nat n, r)]).

Lemma minv_forget : MInv m seen fr -> MInv (forget (wrap 16 (Z.of_nat n)) m) seen' fr.
Proof.
  intros I. pose proof (mi_open _ _ _ I Hopen) as [C1 C2 C3]. destruct I as [I1 I2 I3 I4 I5 _].
  split; try done.
  - intros i c Hi. eapply caller_grows; [by eexists|done|by apply I5].
  - intros _. split; cbn [forget set_pending pending log callers].
    + intros corr q [Hne Hq]%lookup_delete_Some. destruct (C1 corr q Hq) as (s & x & E & -> & Hx & Hc & Ht & Eo).
      exists s, x. split_and!; try done. rewrite tally_snoc, Ht, is_answer_other; [done|].
      intros [= ->%Nat2Z.inj]. done.
    + intros s x Hx Hs. rewrite tally_snoc. intros Ht.
      assert (s <> n) as Hsn by (intros ->; rewrite (answer_self _ _ Hr) in Ht; simpl in Ht; lia).
      destruct (C2 s x Hx Hs) as (q & Hq & E); [lia|]. exists q. split; [|done].
      rewrite lookup_delete_ne; [done|]. intros Ew. rewrite <- Ew in Hq.
      apply Hsn, Nat2Z.inj. congruence.
    + intros corr q [Hne Hq]%lookup_delete_Some. by apply C3.
Qed.

Lemma minv_deliver :
  MInv m seen fr -> abandoned p = false ->
  (exists x, log m !! n = Some x /\ fr !! n = Some (s_opcode x)) ->
  MInv (deliver (p_caller p) (mkMuxReply (shape_byte (shape r)) (encode_body r)) (forget (wrap 16 (Z.of_nat n)) m)) seen' fr.
Proof.
  intros I Ha (x & Hx & Hf). pose proof (mi_open _ _ _ I Hopen) as [C1 C2 C3]. unfold deliver.
  destruct (C3 _ _ Hp Ha) as (c & Hc & Hst). cbn [callers forget set_pending]. rewrite Hc, Hst.
  assert (Hat : forall k q, pending m !! k = Some q -> p_caller q = p_caller p -> k = wrap 16 (Z.of_nat n)).
  { intros k q Hq E. destruct (C1 _ _ Hp) as (s1 & x1 & E1 & _ & Hx1 & Hs1 & _).
    destruct (C1 k q Hq) as (s2 & x2 & _ & -> & Hx2 & Hs2 & _). rewrite Hn in E1. apply Nat2Z.inj in E1 as <-.
    rewrite E in Hs2. by rewrite (mi_unique _ _ _ I _ _ _ _ _ Hx2 Hx1 Hs2 Hs1). }
  apply minv_state; [| |by apply minv_forget].
  - intros c' Hc'. cbn in Hc'. rewrite Hc in Hc'. injection Hc' as <-.
    pose proof (mi_callers _ _ _ I _ _ Hc) as Hown. unfold caller_ok in Hown. rewrite Hst in Hown.
    destruct Hown as (s & Hs & _). destruct (C1 _ _ Hp) as (s1 & x1 & E1 & _ & Hx1 & Hs1 & _).
    rewrite Hn in E1. apply Nat2Z.inj in E1 as <-.
    rewrite (mi_unique _ _ _ I _ _ _ _ _ Hs Hx1 eq_refl Hs1) in Hs. rewrite Hs in Hx. injection Hx as <-.
    exists n. split; [done|]. exists r. split_and!; try done. apply elem_of_app. right. by left.
  - cbn [forget set_pending pending]. intros k q _ [Hne Hq]%lookup_delete_Some _ E. by apply Hne, eq_sym, (Hat k q).
Qed.

End Answer.

Lemma markLost_same i m : same_calls m (markLost i m).
Proof. by split_and!. Qed.

Lemma handlePush_same s body m : same_calls m (handlePush s body m).
Proof. unfold handlePush. destruct (_ || _); [done|]. case_match; by split_and!. Qed.

Lemma newLock_same i m : same_calls m (newLock i m).
Proof. unfold newLock. repeat case_match; by split_and!. Qed.

Lemma watcher_same i m : same_calls m (watcher i m).
Proof. unfold watcher. repeat case_match; by split_and!. Qed.

Section Client.
Context (sha256 : bytes -> bytes).
Context (makeLockReleasePayload : LockKey -> Z -> bytes).
Context (secret : bytes) (max_inflight_per_connection : nat).
Context (release_fits : forall k g, fits_opcode LockRelease (makeLockReleasePayload k g) = true).

Abbreviation mux_step := (Client.step sha256 makeLockReleasePayload secret max_inflight_per_connection).

Lemma minv_Release i fresh m seen fr : MInv m seen fr -> MInv (Release makeLockReleasePayload i fresh m) seen fr.
Proof.
  intros I. unfold Release. destruct (locks m !! i) as [l|]; [|done]. destruct (done l); [done|].
  match goal with |- context [start _ _ _ _ ?m1] => assert (MInv m1 seen fr) as I1 by (eapply minv_same, I; by split_and!) end.
  destruct (closed m); [done|]. apply minv_start; [done|apply release_fits|done].
Qed.

Lemma minv_read n r fresh m seen fr :
  closed m = false ->
  is_push (shape r) = true \/ (is_push (shape r) = false /\ tally (is_answer n) seen = 0%nat /\
    exists k x, n = Z.of_nat k /\ log m !! k = Some x /\ fr !! k = Some (s_opcode x) /\
      expects_reply (s_opcode x) = true) ->
  MInv m seen fr -> MInv (read makeLockReleasePayload (frame_of r n) fresh m) (seen ++ [(n, r)]) fr.
Proof.
  intros Ho Hcase I. unfold read, frame_of. destruct Hcase as [Hr|(Hr & Ht & k & x & -> & Hx & Hf & He)]; rewrite Hr.
  - eapply minv_same; [apply handlePush_same|by apply minv_push].
  - apply (mi_log _ _ _ I k x Hx) in He. pose proof (mi_open _ _ _ I Ho) as [_ C2 _].
    destruct (C2 k x Hx He Ht) as (p & Hp & E). rewrite Hp.
    pose proof (minv_forget m seen fr k r p Ho Hr Hp E I). destruct (abandoned p) eqn:Ea.
    + destruct (_ && _); [apply minv_start; [done|apply release_fits|done]|done].
    + eapply minv_deliver; try done. by exists x.
Qed.

Lemma minv_exchange i outcome m seen fr :
  (closed m = false -> unanswered_from seen (length (log m))) ->
  MInv m seen fr -> MInv (exchange_write sha256 secret i outcome m).1 seen fr.
Proof.
  intros Hun I. unfold exchange_write. destruct (callers m !! i) as [c|] eqn:Hi; [|done].
  destruct (c_state c) eqn:Hst; try done.
  assert (Hfree : forall corr p, closed m = false -> pending m !! corr = Some p -> abandoned p = false -> p_caller p <> i).
  { intros corr p Ho Hp Ha E. pose proof (pending_waits _ _ _ _ _ _ _ I Ho Hi Hp Ha E). congruence. }
  destruct (Z.eqb_spec (m_sequence m) U64_MAX) as [|Hmax]; [by apply minv_state, minv_fail|].
  destruct (pending m !! _) eqn:Hp; [by apply minv_state|].
  assert (Hfails : MInv (set_state i (Returned (Err WriteFailed))
    (fail (take_sequence (mkSent (c_opcode c) (c_payload c) (Some i)) m))) seen fr).
  { apply (minv_take_caller i c (Returned (Err WriteFailed)) 0 (mkPending i 0 false (c_opcode c) (c_key c)) (fail m));
      [done|done|done|by left|by apply minv_fail]. }
  unfold write_outcome. destruct (closed m) eqn:Ho; [done|]. destruct outcome; [|done].
  pose proof (minv_take_caller i c (WaitReply (wrap 16 (m_sequence m)) None) (wrap 16 (m_sequence m))
    (mkPending i (m_sequence m) false (c_opcode c) (c_key c)) m seen fr Hi Hst Hmax) as Hw.
  rewrite Ho in Hw. apply Hw; [right|done]. split_and!; [done..|by apply Hun].
Qed.

Lemma minv_write o payload outcome m seen fr :
  expects_reply o = false -> fits_opcode o payload = true ->
  MInv m seen fr -> MInv (write sha256 secret o payload outcome m).1 seen fr.
Proof.
  intros He Hf I. unfold write. destruct (Z.eqb_spec (m_sequence m) U64_MAX); [by apply minv_fail|].
  pose proof (minv_take_none o payload m seen fr ltac:(done) He Hf I). destruct (write_outcome _ _); [done|by apply minv_fail].
Qed.

Lemma minv_step e m seen fr :
  (closed m = false -> unanswered_from seen (length (log m))) -> MInv m seen fr -> MInv (mux_step e m).1 seen fr.
Proof.
  intros Hun I.
  assert (Hcaller : forall i, MInv (with_caller max_inflight_per_connection e i m) seen fr).
  { intros i. unfold with_caller. destruct (callers m !! i) eqn:Hi; [by apply minv_caller_step|done]. }
  destruct e; cbn [Client.step fst]; try by apply Hcaller.
  - destruct (expects_reply o && fits_opcode o payload) eqn:E; [|done]. apply andb_true_iff in E as [??]. by apply minv_start.
  - by apply minv_exchange.
  - destruct (negb (expects_reply o) && fits_opcode o payload) eqn:E; [|done].
    apply andb_true_iff in E as [?%negb_true_iff ?]. by apply minv_write.
  - by apply minv_fail.
  - eapply minv_same; [apply newLock_same|done].
  - by apply minv_Release.
  - eapply minv_same; [apply watcher_same|done].
Qed.

Lemma minv_dialed n : MInv (dialed n) [] [].
Proof. by split. Qed.

(** ** The bytes of a step *)

(** The frames of a log, from a sequence on. *)
Fixpoint wire_of (n : bytes) (sq : Z) (lg : list Sent) : bytes :=
  match lg with
  | [] => []
  | x :: rest => buildFarewardFrame sha256 secret n sq (s_opcode x) (s_payload x) ++ wire_of n (sq + 1) rest
  end.

Lemma wire_of_app n sq l1 l2 : wire_of n sq (l1 ++ l2) = wire_of n sq l1 ++ wire_of n (sq + zlen l1) l2.
Proof.
  revert sq. induction l1 as [|x l1 IH]; intros sq; simpl; [by rewrite Z.add_0_r|].
  rewrite IH, app_assoc. replace (sq + 1 + zlen l1) with (sq + zlen (x :: l1)) by (simpl; lia). done.
Qed.

(** A step of the client adds at most one frame to the log, and to the wire that frame, or a
    part of it when the client fails. *)
Definition wrote (m m' : Mux) (bs : bytes) : Prop :=
  m_nonce m' = m_nonce m /\ (closed m' = false -> closed m = false) /\
  ((log m' = log m /\ bs = []) \/
   exists x k, log m' = log m ++ [x] /\
     let frame := buildFarewardFrame sha256 secret (m_nonce m) (m_sequence m) (s_opcode x) (s_payload x) in
     bs = take k frame /\ (closed m' = false -> (length frame <= k)%nat) /\ (closed m = true -> k = 0%nat)).

Lemma wrote_none m m' :
  m_nonce m' = m_nonce m -> (closed m' = false -> closed m = false) -> log m' = log m -> wrote m m' [].
Proof. intros ? ? ?. split_and!; [done|done|by left]. Qed.

Lemma wrote_start i o payload key m m' : wrote m m' [] -> log m' = log m -> wrote m (start i o payload key m') [].
Proof.
  intros (? & ? & _) ?. unfold start. case_bool_decide; apply wrote_none; done.
Qed.

Lemma wrote_frame o payload c outcome m m' :
  m_nonce m' = m_nonce m -> log m' = log m ++ [mkSent o payload c] ->
  closed m' = match write_outcome outcome m with Written => false | WriteFails _ => true end ->
  wrote m m' match write_outcome outcome m with
             | Written => frame_bytes sha256 secret m o payload
             | WriteFails sent => take sent (frame_bytes sha256 secret m o payload)
             end.
Proof.
  intros En El Ec. unfold write_outcome in *. split; [done|].
  destruct (closed m) eqn:Ho; [|destruct outcome]; (split; [by rewrite Ec|]); right; exists (mkSent o payload c).
  - exists 0%nat. split; [done|]. split; [done|]. split; [by rewrite Ec|done].
  - eexists. split; [done|]. split; [symmetry; apply take_ge; done|]. split; done.
  - exists sent. split; [done|]. split; [done|]. split; [by rewrite Ec|done].
Qed.

Lemma written_closed outcome m :
  match write_outcome outcome m with Written => closed m | WriteFails _ => true end =
  match write_outcome outcome m with Written => false | WriteFails _ => true end.
Proof. unfold write_outcome. destruct (closed m), outcome; done. Qed.

Lemma wrote_exchange i outcome m :
  wrote m (exchange_write sha256 secret i outcome m).1 (exchange_write sha256 secret i outcome m).2.
Proof.
  unfold exchange_write. destruct (callers m !! i) as [c|]; [|by apply wrote_none].
  destruct (c_state c); try by apply wrote_none. destruct (m_sequence m =? U64_MAX); [by apply wrote_none|].
  destruct (pending m !! _); [by apply wrote_none|].
  pose proof (fun m' => wrote_frame (c_opcode c) (c_payload c) (Some i) outcome m m') as Hw.
  pose proof (written_closed outcome m) as Hc. destruct (write_outcome outcome m); by apply Hw.
Qed.

Lemma wrote_write o payload outcome m :
  wrote m (write sha256 secret o payload outcome m).1 (write sha256 secret o payload outcome m).2.
Proof.
  unfold write. destruct (m_sequence m =? U64_MAX); [by apply wrote_none|].
  pose proof (fun m' => wrote_frame o payload None outcome m m') as Hw.
  pose proof (written_closed outcome m) as Hc. destruct (write_outcome outcome m); by apply Hw.
Qed.

Lemma start_fields i o payload key m :
  m_nonce (start i o payload key m) = m_nonce m /\ closed (start i o payload key m) = closed m /\
  log (start i o payload key m) = log m.
Proof. unfold start. by case_bool_decide. Qed.

Lemma read_fields f fresh m :
  m_nonce (read makeLockReleasePayload f fresh m) = m_nonce m /\ closed (read makeLockReleasePayload f fresh m) = closed m /\
  log (read makeLockReleasePayload f fresh m) = log m.
Proof.
  unfold read. destruct f as [s corr body|s body].
  - destruct (pending m !! corr) as [p|]; [|done]. destruct (abandoned p).
    + destruct (_ && _); [|done]. match goal with |- context [start ?i ?o ?p ?k ?m1] => apply (start_fields i o p k m1) end.
    + unfold deliver. by repeat case_match.
  - unfold handlePush. by repeat case_match.
Qed.

Lemma wrote_step e m : wrote m (mux_step e m).1 (mux_step e m).2.
Proof.
  destruct e; cbn [Client.step fst snd].
  all: try (unfold with_caller, caller_step; repeat case_match; by apply wrote_none).
  - pose proof (start_fields i o payload key m) as (? & ? & ?). case_match; apply wrote_none; congruence.
  - apply wrote_exchange.
  - case_match; [apply wrote_write|by apply wrote_none].
  - unfold newLock. repeat case_match; by apply wrote_none.
  - unfold Release. repeat case_match; try by apply wrote_none.
    match goal with |- context [start ?i ?o ?p ?k ?m1] => pose proof (start_fields i o p k m1) as (E1 & E2 & E3) end.
    apply wrote_none; rewrite ?E1, ?E2, ?E3; done.
  - unfold watcher. repeat case_match; by apply wrote_none.
Qed.

End Client.
