(* ===== verification/LinkLaws.v ===== *)
(** * LinkLaws: the two ends of a connection agree

    The invariant of Client.v's [Link], for any interleaving of the client's steps, the
    daemon's and the failures of both: what is on its way up is the client's log from the
    daemon's sequence on, the daemon accepted a prefix of that log, and what it sent is what
    the client has read and what is on its way down. *)

From stdpp Require Import strings.
From S2P Require Import Prelude SipHash FrameAuth TimeFrame CreditsBlob Aggregation Storage Access.
From S2P Require Import ChargeProtocol Quota LockRegistry Sequence ReqLog Wire.
From S2P Require Import Server ServerLaws Client ClientLaws.

Section Laws.
Context (sha256 : bytes -> bytes) (ct_eq : bytes -> bytes -> bool).
Context (decode_charge : bytes -> option ChargeFrame) (decode_budget : bytes -> option BudgetMutationFrame).
Context (decode_acquire : bytes -> option AcquireRequest) (decode_release : bytes -> option ReleaseRequest).
Context (decode_log : bytes -> option RequestLogRecord) (decode_invalidation : bytes -> option AccessInvalidation).
Context (makeLockReleasePayload : LockKey -> Z -> bytes).
Context (limits : LockLimits) (secret : bytes) (max_inflight max_inflight_per_connection : nat).

(** What the digest's comparison promises, and what the payload builder does. *)
Context (ct_eq_spec : forall a b, ct_eq a b = true <-> a = b).
Context (release_fits : forall k g, fits_opcode LockRelease (makeLockReleasePayload k g) = true).

Abbreviation server_step := (Server.step sha256 ct_eq decode_charge decode_budget decode_acquire
  decode_release decode_log decode_invalidation limits secret max_inflight).
Abbreviation dispatch := (dispatch decode_charge decode_budget decode_acquire decode_release decode_log
  decode_invalidation limits).
Abbreviation on_frame := (on_frame sha256 ct_eq decode_charge decode_budget decode_acquire
  decode_release decode_log decode_invalidation limits secret max_inflight).
Abbreviation mux_step := (Client.step sha256 makeLockReleasePayload secret max_inflight_per_connection).
Abbreviation link_step := (link_step sha256 ct_eq decode_charge decode_budget decode_acquire decode_release
  decode_log decode_invalidation makeLockReleasePayload limits secret max_inflight max_inflight_per_connection).
Abbreviation link_run := (link_run sha256 ct_eq decode_charge decode_budget decode_acquire decode_release
  decode_log decode_invalidation makeLockReleasePayload limits secret max_inflight max_inflight_per_connection).

(** ** What a step of the daemon leaves *)

Definition grows (c c' : Conn) : Prop :=
  nonce c' = nonce c /\ frames c `prefix_of` frames c' /\ outbox c `prefix_of` outbox c'.

Lemma grows_trans c1 c2 c3 : grows c1 c2 -> grows c2 c3 -> grows c1 c3.
Proof. intros (E1&?&?) (E2&?&?). split_and!; [congruence|by etrans..]. Qed.

Lemma expire_grows now c : grows c (expire now c).
Proof.
  destruct (expire_same now c) as (_ & _ & Ef & _ & En & _). split_and!; [done|by rewrite Ef|].
  rewrite expire_outbox. by eexists.
Qed.

Lemma dispatch_grows o payload s permitted c : grows c (dispatch o payload s permitted c).
Proof.
  destruct (dispatch_keeps decode_charge decode_budget decode_acquire decode_release decode_log
    decode_invalidation limits o payload s permitted c) as (Ef & _ & En & _).
  split_and!; [done|by rewrite Ef|].
  destruct o; simpl; try destruct (release_lock _ _); repeat case_match; simpl; try done; by eexists.
Qed.

Lemma on_frame_grows stream c : grows c (on_frame stream c).1.
Proof.
  unfold Server.on_frame. destruct (read_frame stream) as [[[[[o signed] payload] tag] rest]|]; [|done].
  destruct (verify_hash _ _ _ _ _ _ _); [|done]. destruct (_ =? U64_MAX); [done|]. cbn [fst].
  eapply grows_trans, dispatch_grows. split_and!; [done|by eexists|done].
Qed.

Lemma report_grows c : grows c (on_report c).
Proof. unfold on_report. repeat case_match; done. Qed.

Lemma server_grows e c : grows c (server_step e c).
Proof.
  unfold Server.step. destruct (stopped c); [done|]. destruct e.
  - eapply grows_trans; [apply expire_grows|apply on_frame_grows].
  - eapply grows_trans; [apply expire_grows|apply report_grows].
  - eapply grows_trans; [apply expire_grows|]. unfold on_timeout. by case_bool_decide.
  - eapply grows_trans; [apply expire_grows|done].
  - by repeat case_match.
  - repeat case_match; try done. split_and!; [done|done|by eexists].
Qed.

Lemma other_frames e c : is_turn_frame e = false -> frames (server_step e c) = frames c.
Proof.
  intros He. unfold Server.step. destruct (stopped c); [done|].
  assert (forall now, frames (expire now c) = frames c) as Ef by (intros now; by destruct (expire_same now c) as (_ & _ & -> & _)).
  destruct e as [| now|now|now| |]; [done|rewrite <- (Ef now)..| |].
  - unfold on_report. destruct (outcomes (expire now c)) as [|x rest]; [done|]. by destruct (granted x).
  - unfold on_timeout. by case_bool_decide.
  - done.
  - by repeat case_match.
  - by repeat case_match.
Qed.

Lemma other_stopped e c : stopped (server_step e c) = None -> stopped c = None.
Proof. unfold Server.step. destruct (stopped c) eqn:E; [by rewrite E|done]. Qed.

(** ** The invariant *)

(** The frames that are not yet read, as bytes. *)
Definition unread (l : Link) : bytes :=
  wire_of sha256 secret (m_nonce (mux l)) (sequence (conn l)) (drop (length (frames (conn l))) (log (mux l))).

Record LInv (l : Link) : Prop := {
  li_conn : Inv max_inflight (conn l);
  li_nonce : m_nonce (mux l) = nonce (conn l);
  li_outbox : outbox (conn l) = seen l ++ down l;
  li_mux : MInv (mux l) (seen l) (frames (conn l));
  li_frames : frames (conn l) `prefix_of` (s_opcode <$> log (mux l));
  li_up : stopped (conn l) = None -> exists k,
    up l = take k (unread l) /\ (k <= length (unread l))%nat /\
    (closed (mux l) = false -> k = length (unread l));
}.

Lemma frames_before_log l : LInv l -> (length (frames (conn l)) <= length (log (mux l)))%nat.
Proof. intros I. pose proof (prefix_length _ _ (li_frames _ I)) as H. by rewrite length_fmap in H. Qed.

(** No answer has been sent to a frame the daemon has not read. *)
Lemma nothing_ahead l s r :
  LInv l -> (s, r) ∈ outbox (conn l) -> is_push (shape r) = false ->
  exists k o, s = Z.of_nat k /\ frames (conn l) !! k = Some o /\ expects_reply o = true /\
    (answers s (conn l) + owed s (conn l) <= 1)%nat.
Proof.
  intros I Hin Hp. pose proof (li_conn _ I) as C. pose proof (iv_outbox _ _ C s r Hin Hp) as Hs.
  pose proof (iv_sequence _ _ C) as Hq. destruct (iv_balance _ _ C s Hs) as [Hb _].
  assert (1 <= answers s (conn l))%nat as Ha.
  { unfold answers. apply list_elem_of_lookup_1 in Hin as [i Hi].
    rewrite (tally_split (is_answer s) _ _ _ Hi), (answer_self _ _ Hp). simpl. lia. }
  unfold expected in Hb. destruct (frames (conn l) !! Z.to_nat s) as [o|] eqn:Ho.
  - exists (Z.to_nat s), o. split; [lia|]. split; [done|]. destruct (expects_reply o); simpl in Hb; [|lia]. by split.
  - apply lookup_ge_None in Ho. lia.
Qed.

Lemma none_ahead l : LInv l -> unanswered_from (seen l) (length (log (mux l))).
Proof.
  intros I s Hs. destruct (tally (is_answer (Z.of_nat s)) (seen l)) eqn:Et; [done|exfalso].
  assert (exists x, x ∈ seen l /\ is_answer (Z.of_nat s) x = true) as ([n' r] & Hin & Ha).
  { unfold tally in Et. destruct (filter _ (seen l)) as [|x f] eqn:Ef; [done|]. exists x.
    assert (x ∈ filter (fun x => is_answer (Z.of_nat s) x = true) (seen l)) as Hx by (rewrite Ef; by left).
    apply list_elem_of_filter in Hx as [??]. done. }
  unfold is_answer in Ha. simpl in Ha. apply andb_true_iff in Ha as [->%Z.eqb_eq Hp%negb_true_iff].
  destruct (nothing_ahead l (Z.of_nat s) r I) as (k & o & E & Hk & _); [|done|].
  { rewrite (li_outbox _ I). apply elem_of_app. by left. }
  apply Nat2Z.inj in E as <-. apply lookup_lt_Some in Hk. pose proof (frames_before_log l I). lia.
Qed.

(** ** It is preserved *)

Lemma linv_client e l :
  LInv l -> LInv (link_step (AtClient e) l).
Proof.
  intros I. pose proof (wrote_step sha256 makeLockReleasePayload secret max_inflight_per_connection e (mux l)) as Hw.
  pose proof (minv_step sha256 makeLockReleasePayload secret max_inflight_per_connection release_fits e (mux l)
    (seen l) (frames (conn l)) (fun _ => none_ahead l I) (li_mux _ I)) as Hm.
  pose proof (frames_before_log l I) as Hlen. pose proof (mi_sequence _ _ _ (li_mux _ I)) as [Hseq _].
  destruct I as [C N O M F U]. pose proof (iv_sequence _ _ C) as Hsq.
  unfold Client.link_step. destruct (mux_step e (mux l)) as [m bs]. cbn [fst snd] in Hw, Hm.
  destruct Hw as (En & Hcl & Hw). split; cbn [mux conn up seen down]; [done|congruence|done|done| |].
  - destruct Hw as [[-> _]|(x & k & -> & _)]; [done|]. rewrite fmap_app. by apply prefix_app_r.
  - intros Hst. destruct (U Hst) as (k0 & Hup & Hk0 & Hopen). unfold unread in *. cbn [mux conn] in *.
    destruct Hw as [[-> ->]|(x & k & -> & -> & Hfull & Hnone)].
    { exists k0. rewrite app_nil_r, ?En. split_and!; auto. }
    rewrite drop_app_le, ?En, wire_of_app by done.
    set (w := wire_of _ _ _ _ _) in *.
    assert (sequence (conn l) + zlen (drop (length (frames (conn l))) (log (mux l))) = m_sequence (mux l)) as ->
      by (rewrite length_drop; lia).
    cbn [wire_of]. rewrite app_nil_r.
    set (f := buildFarewardFrame _ _ _ _ _ _) in *. destruct (closed (mux l)) eqn:Ec.
    + exists k0. rewrite (Hnone eq_refl), take_0, app_nil_r, length_app.
      split; [by rewrite take_app_le|]. split; [lia|]. intros Hm'. by apply Hcl in Hm'.
    + rewrite (Hopen eq_refl) in Hup. rewrite take_ge in Hup by done.
      exists (length w + min k (length f))%nat. rewrite Hup, length_app.
      split; [rewrite take_app_add|split; [lia|]].
      { f_equal. destruct (Nat.min_spec k (length f)) as [[? ->]|[? ->]]; [done|]. by rewrite !take_ge by lia. }
      intros Hm'. specialize (Hfull Hm'). lia.
Qed.

Lemma linv_conn c' bs l :
  LInv l -> Inv max_inflight c' -> grows (conn l) c' -> frames c' `prefix_of` (s_opcode <$> log (mux l)) ->
  (stopped c' = None -> exists k, bs = take k (unread (with_conn c' bs l)) /\
     (k <= length (unread (with_conn c' bs l)))%nat /\
     (closed (mux l) = false -> k = length (unread (with_conn c' bs l)))) ->
  LInv (with_conn c' bs l).
Proof.
  intros [C N O M F U] C' (En & Hf & Ho) HF HU. split; cbn [with_conn mux conn up seen down]; [done|congruence| |..].
  - unfold sent_since. destruct Ho as [k Ek]. rewrite Ek, drop_app_length, app_assoc. by rewrite <- O.
  - eapply minv_seen, M; [done|done|done].
  - done.
  - done.
Qed.

Lemma linv_server e l : is_turn_frame e = false -> LInv l -> LInv (link_step (AtServer e) l).
Proof.
  intros He I. cbn [Client.link_step]. rewrite He. apply linv_conn; [done| |apply server_grows| |].
  - apply conn_step_inv, I.
  - rewrite other_frames by done. apply I.
  - intros Hst. destruct (li_up _ I (other_stopped _ _ Hst)) as (k & Hk). exists k.
    assert (unread (with_conn (server_step e (conn l)) (up l) l) = unread l) as ->; [|done].
    unfold unread. cbn [with_conn mux conn]. rewrite (iv_sequence _ _ (li_conn _ I)).
    rewrite (iv_sequence max_inflight (server_step e (conn l))) by apply conn_step_inv, I.
    by rewrite other_frames.
Qed.

(** A frame that is not all there is not read. *)
Lemma partial_frame n sq o payload k :
  (length payload <= max_payload_size o)%nat ->
  (k < length (buildFarewardFrame sha256 secret n sq o payload))%nat ->
  exists stop, read_frame (take k (buildFarewardFrame sha256 secret n sq o payload)) = Err stop.
Proof.
  intros Hlen Hk. pose proof (max_payload_u16 o). unfold buildFarewardFrame in *.
  rewrite wrap_small in * by (change (2 ^ 16) with 65536; lia).
  set (tag := compute_hash _ _ _ _ _) in *. assert (length tag = AUTH_TAG_SIZE) as Htag by apply length_compute_hash.
  clearbody tag. destruct k as [|k]; [by eexists|]. cbn [app take]. unfold read_frame.
  rewrite opcode_from_to. cbn [ok_or]. change (Ok o ≫= ?f) with (f o). cbv beta. cbn [app length] in Hk.
  rewrite <- app_assoc. destruct (decide (k < 2)%nat) as [Hk2|Hk2].
  - assert (read_full LENGTH_PREFIX_SIZE (take k (be_bytes 2 (zlen payload) ++ payload ++ tag)) = None) as ->; [|by eexists].
    unfold read_full. rewrite length_take. destruct (_ <=? _)%nat eqn:E; [|done]. apply Nat.leb_le in E.
    unfold LENGTH_PREFIX_SIZE in E. lia.
  - rewrite take_app_ge by (rewrite length_be_bytes; lia). rewrite length_be_bytes.
    rewrite read_full_exact by (by rewrite length_be_bytes). cbn [ok_or]. unfold mbind at 1, result_bind at 1.
    rewrite of_be_be_bytes_small by (change (256 ^ Z.of_nat 2) with 65536; lia).
    rewrite Nat2Z.id. destruct (_ <? _)%nat; [by eexists|].
    assert (read_full (length payload + AUTH_TAG_SIZE) (take (k - 2) (payload ++ tag)) = None) as ->; [|by eexists].
    unfold read_full. rewrite length_take. destruct (_ <=? _)%nat eqn:E; [|done]. apply Nat.leb_le in E.
    rewrite !length_app, length_be_bytes in Hk. lia.
Qed.

(** The turn that reads what there is of the log: the next frame, or the end. *)
Lemma turn_reads l now :
  LInv l -> stopped (conn l) = None ->
  let c := expire now (conn l) in
  let r := on_frame (up l) c in
  stopped r.1 <> None /\ frames r.1 = frames (conn l) /\ (closed (mux l) = false -> up l = []) \/
  exists x rest, drop (length (frames (conn l))) (log (mux l)) = x :: rest /\
    r.1 = dispatch (s_opcode x) (s_payload x) (sequence (conn l)) (permit max_inflight (s_opcode x) c)
            (accept_frame (s_opcode x) c) /\
    frames r.1 = frames (conn l) ++ [s_opcode x] /\ sequence r.1 = sequence (conn l) + 1 /\
    let frame := buildFarewardFrame sha256 secret (nonce (conn l)) (sequence (conn l)) (s_opcode x) (s_payload x) in
    up l = frame ++ r.2 /\ r.2 = take (length (up l) - length frame) (wire_of sha256 secret (nonce (conn l)) (sequence (conn l) + 1) rest).
Proof.
  intros I Hst. cbv zeta. destruct (expire_same now (conn l)) as (Es & _ & Ef & _ & En & _).
  destruct (li_up _ I Hst) as (k & Hup & Hk & Hfull). unfold unread in *. rewrite (li_nonce _ I) in *.
  destruct (drop (length (frames (conn l))) (log (mux l))) as [|x rest] eqn:Hd.
  - left. cbn [wire_of] in Hup. rewrite take_nil in Hup. rewrite Hup. by split_and!.
  - cbn [wire_of] in *. set (frame := buildFarewardFrame _ _ _ _ _ _) in *.
    assert (log (mux l) !! length (frames (conn l)) = Some x) as Hx
      by (by rewrite <- (Nat.add_0_r (length _)), <- lookup_drop, Hd).
    destruct (mi_log _ _ _ (li_mux _ I) _ _ Hx) as [_ Hfit%Nat.leb_le].
    destruct (decide (k < length frame)%nat) as [Hlt|Hge].
    + left. rewrite take_app_le in Hup by lia. destruct (partial_frame _ _ _ _ _ Hfit Hlt) as [stop Hr].
      unfold Server.on_frame. rewrite Hup. fold frame in Hr. rewrite Hr. split_and!; [done|done|].
      intros Ho. specialize (Hfull Ho). rewrite length_app in Hfull. lia.
    + right. exists x, rest. split; [done|].
      assert (up l = frame ++ take (k - length frame) (wire_of sha256 secret (nonce (conn l)) (sequence (conn l) + 1) rest)) as Hup'
        by (rewrite Hup; by rewrite take_app_ge by lia).
      assert (sequence (expire now (conn l)) < U64_MAX) as Hmax.
      { rewrite Es, (iv_sequence _ _ (li_conn _ I)). pose proof (mi_sequence _ _ _ (li_mux _ I)).
        apply lookup_lt_Some in Hx. lia. }
      pose proof (built_frame_accepted sha256 ct_eq decode_charge decode_budget decode_acquire decode_release decode_log
        decode_invalidation limits secret max_inflight (expire now (conn l)) (s_opcode x) (s_payload x)
        (take (k - length frame) (wire_of sha256 secret (nonce (conn l)) (sequence (conn l) + 1) rest)) ct_eq_spec Hfit Hmax) as Hacc.
      rewrite Es, En in Hacc. fold frame in Hacc. rewrite <- Hup' in Hacc. rewrite Hacc. cbn [fst snd].
      destruct (dispatch_keeps decode_charge decode_budget decode_acquire decode_release decode_log
        decode_invalidation limits (s_opcode x) (s_payload x) (sequence (conn l))
        (permit max_inflight (s_opcode x) (expire now (conn l))) (accept_frame (s_opcode x) (expire now (conn l)))) as (-> & -> & _ & _).
      cbn [accept_frame frames sequence]. rewrite Ef, Es. split_and!; try done.
      rewrite Hup'. rewrite length_app, length_take.
      rewrite Nat.add_comm, Nat.add_sub. rewrite length_app in Hk. f_equal. lia.
Qed.

Lemma turn_step now stream c :
  stopped c = None -> server_step (TurnFrame now stream) c = (on_frame stream (expire now c)).1.
Proof. intros Hst. unfold Server.step. by rewrite Hst. Qed.

Lemma linv_turn now l :
  LInv l -> stopped (conn l) = None ->
  LInv (with_conn (server_step (TurnFrame now (up l)) (conn l)) (on_frame (up l) (expire now (conn l))).2 l).
Proof.
  intros I Hst. pose proof (conn_step_inv sha256 ct_eq decode_charge decode_budget decode_acquire decode_release
    decode_log decode_invalidation limits secret max_inflight (TurnFrame now (up l)) _ (li_conn _ I)) as C'.
  pose proof (server_grows (TurnFrame now (up l)) (conn l)) as Hg. rewrite turn_step in * by done.
  destruct (li_up _ I Hst) as (k & Hup & Hk & Hfull). unfold unread in Hup, Hk, Hfull. rewrite (li_nonce _ I) in Hup, Hk, Hfull.
  destruct (turn_reads l now I Hst) as [(Hs & Hf & _)|(x & rest & Hd & _ & Hf & Hsq & Hu & Hr)].
  - apply linv_conn; [done|done|done|rewrite Hf; apply I|]. intros ?. done.
  - rewrite Hd in Hup, Hk, Hfull. cbn [wire_of] in Hup, Hk, Hfull.
    assert (Hrest : drop (length (frames (conn l) ++ [s_opcode x])) (log (mux l)) = rest).
    { rewrite length_app, <- drop_drop, Hd. done. }
    assert (Hlu : length (up l) = k) by (rewrite Hup; by apply length_take_le).
    apply linv_conn; [done|done|done| |].
    + rewrite Hf. rewrite <- (take_drop (length (frames (conn l))) (log (mux l))), Hd, fmap_app.
      pose proof (li_frames _ I) as Hp. rewrite fmap_take.
      destruct Hp as [t Ht]. rewrite Ht, take_app_length. apply prefix_app. by eexists (s_opcode <$> rest).
    + intros _. unfold unread. cbn [with_conn mux conn]. rewrite Hf, Hrest, Hsq, (li_nonce _ I).
      set (frame := buildFarewardFrame _ _ _ _ _ _) in *. set (w := wire_of _ _ _ _ rest) in *.
      rewrite length_app in Hk, Hfull. exists (length (up l) - length frame)%nat. split; [done|].
      pose proof (f_equal length Hu) as Hul. rewrite length_app in Hul.
      split; [lia|]. intros Hc. specialize (Hfull Hc). lia.
Qed.

Lemma linv_cut now l : LInv l -> LInv (link_step (Cut now) l).
Proof.
  intros I. cbn [Client.link_step]. apply linv_conn; [done| |apply server_grows| |].
  - apply conn_step_inv, I.
  - unfold Server.step. destruct (stopped (conn l)) eqn:Hst; [apply I|].
    change (frames (expire now (conn l)) `prefix_of` (s_opcode <$> log (mux l))).
    destruct (expire_same now (conn l)) as (_ & _ & -> & _). apply I.
  - unfold Server.step. destruct (stopped (conn l)) eqn:Hst; [by rewrite Hst|done].
Qed.

Lemma linv_frame now l : LInv l -> LInv (link_step (Frame now) l).
Proof.
  intros I. cbn [Client.link_step].
  destruct (up l) as [|b bs] eqn:Eu; destruct (closed (mux l)) eqn:Ec, (stopped (conn l)) eqn:Hst; try done.
  all: rewrite <- Eu; by apply linv_turn.
Qed.

(** The answer next to be read is the first to its frame, ... *)
Lemma next_answer l s r rest :
  LInv l -> down l = (s, r) :: rest -> is_push (shape r) = false ->
  tally (is_answer s) (seen l) = 0%nat /\
  exists k x, s = Z.of_nat k /\ log (mux l) !! k = Some x /\ frames (conn l) !! k = Some (s_opcode x) /\
    expects_reply (s_opcode x) = true.
Proof.
  intros I Ed Hp. assert (Hin : (s, r) ∈ outbox (conn l)).
  { rewrite (li_outbox _ I), Ed. apply elem_of_app. right. by left. }
  destruct (nothing_ahead l s r I Hin Hp) as (k & o & -> & Hk & He & Hone). split.
  - unfold answers in Hone. rewrite (li_outbox _ I), Ed, (cons_middle _ (seen l)), !tally_app, tally_one in Hone.
    rewrite (answer_self _ _ Hp) in Hone. simpl in Hone. lia.
  - pose proof (prefix_lookup_Some _ _ _ _ Hk (li_frames _ I)) as Hl.
    apply list_lookup_fmap_Some in Hl as (x & -> & Hx). exists k, x. by split_and!.
Qed.

(** ... and finds it pending. *)
Lemma pending_found l s r rest :
  LInv l -> closed (mux l) = false -> down l = (s, r) :: rest -> is_push (shape r) = false ->
  exists p, pending (mux l) !! wrap 16 s = Some p /\ p_sequence p = s.
Proof.
  intros I Ho Ed Hp. destruct (next_answer l s r rest I Ed Hp) as (Ht & k & x & -> & Hx & _ & He).
  apply (mi_log _ _ _ (li_mux _ I) k x Hx) in He. by apply (co_waiting _ _ (mi_open _ _ _ (li_mux _ I) Ho) k x).
Qed.

Lemma linv_read fresh l : LInv l -> LInv (link_step (ReadFrame fresh) l).
Proof.
  intros I. cbn [Client.link_step]. destruct (closed (mux l)) eqn:Ec; [done|].
  destruct (down l) as [|[s r] rest] eqn:Ed; [done|].
  assert (MInv (read makeLockReleasePayload (frame_of r s) fresh (mux l)) (seen l ++ [(s, r)]) (frames (conn l))) as M'.
  { apply minv_read; [done|done| |apply I]. destruct (is_push (shape r)) eqn:Hp; [by left|right].
    split; [done|]. by eapply next_answer. }
  assert (Hread : m_nonce (read makeLockReleasePayload (frame_of r s) fresh (mux l)) = m_nonce (mux l) /\
    closed (read makeLockReleasePayload (frame_of r s) fresh (mux l)) = closed (mux l) /\
    log (read makeLockReleasePayload (frame_of r s) fresh (mux l)) = log (mux l)) by apply read_fields.
  destruct Hread as (En & Ecl & El). destruct I as [C N O M F U].
  split; cbn [mux conn up seen down]; [done|congruence| |done|by rewrite El|].
  - by rewrite O, Ed, <- app_assoc.
  - intros Hst. destruct (U Hst) as (k & Hk). exists k. unfold unread in *. cbn [mux conn]. by rewrite En, Ecl, El.
Qed.

Lemma linv_step e l : LInv l -> LInv (link_step e l).
Proof.
  intros I. destruct e as [e|e|now|now|fresh].
  - by apply linv_client.
  - destruct (is_turn_frame e) eqn:He; [cbn [Client.link_step]; by rewrite He|by apply linv_server].
  - by apply linv_frame.
  - by apply linv_cut.
  - by apply linv_read.
Qed.

Lemma linv_linked n : LInv (linked n).
Proof.
  split; simpl; try done.
  - apply inv_connection.
  - intros _. by exists 0%nat.
Qed.

Lemma linv_run events l : LInv l -> LInv (link_run events l).
Proof. revert l. induction events as [|e rest IH]; intros l I; [done|]. by apply IH, linv_step. Qed.

Lemma reached_linv n events : LInv (link_run events (linked n)).
Proof. apply linv_run, linv_linked. Qed.

(** ** What the two ends promise each other *)

(** C3: every reply goes to the caller whose frame it answers. Whatever the interleaving and
    the failures, and however the 16-bit correlation wraps: a goroutine that came back from
    [exchange] with a reply sent exactly one frame, its own opcode and payload; the daemon
    accepted that frame under the sequence it was built for, answered it exactly once and owes
    it nothing more; and the reply is that answer's shape and body. *)
Theorem replies_reach_their_caller n events i c rep :
  let l := link_run events (linked n) in
  callers (mux l) !! i = Some c -> c_state c = Returned (Ok rep) ->
  exists s r,
    log (mux l) !! s = Some (mkSent (c_opcode c) (c_payload c) (Some i)) /\
    (forall s' x, log (mux l) !! s' = Some x -> s_caller x = Some i -> s' = s) /\
    frames (conn l) !! s = Some (c_opcode c) /\
    (Z.of_nat s, r) ∈ outbox (conn l) /\ is_push (shape r) = false /\
    answers (Z.of_nat s) (conn l) = 1%nat /\ owed (Z.of_nat s) (conn l) = 0%nat /\
    rep = mkMuxReply (shape_byte (shape r)) (encode_body r).
Proof.
  cbv zeta. set (l := link_run events (linked n)). intros Hi Hst. pose proof (reached_linv n events) as I. fold l in I.
  pose proof (mi_callers _ _ _ (li_mux _ I) i c Hi) as Hown. unfold caller_ok in Hown. rewrite Hst in Hown.
  destruct Hown as (s & Hs & r & Hin & Hp & Hf & ->). exists s, r.
  assert (Hout : (Z.of_nat s, r) ∈ outbox (conn l)) by (rewrite (li_outbox _ I); apply elem_of_app; by left).
  destruct (nothing_ahead l _ r I Hout Hp) as (_ & _ & _ & _ & _ & Hone).
  assert (1 <= answers (Z.of_nat s) (conn l))%nat as Hge.
  { apply list_elem_of_lookup_1 in Hout as [j Hj]. unfold answers.
    rewrite (tally_split (is_answer (Z.of_nat s)) _ _ _ Hj), (answer_self _ _ Hp). simpl. lia. }
  split; [done|]. split; [|split_and!; try done; lia].
  intros s' x Hx Hc. by eapply (mi_unique _ _ _ (li_mux _ I)).
Qed.



Lemma decoded_generation g :
  0 <= g < 65536 -> decodeLockGeneration (mkMuxReply (shape_byte (shape (LockGranted g))) (encode_body (LockGranted g))) = g.
Proof.
  intros Hg. unfold decodeLockGeneration. cbn [r_body encode_body]. rewrite length_be_bytes. cbn [Nat.ltb Nat.leb].
  rewrite take_ge by (by rewrite length_be_bytes). apply of_be_be_bytes_small. done.
Qed.


End Laws.

(** ** Runs *)

Module LinkSample.
Import ServerLaws.Sample.

Definition one_invalidation (p : bytes) : option AccessInvalidation :=
  match p with [u] => Some (mkAccessInvalidation 7 u) | _ => None end.

(** A release's payload is its generation, as [one_release] reads it. *)
Definition release_payload (k : LockKey) (g : Z) : bytes := [g].

Lemma release_payload_fits k g : fits_opcode LockRelease (release_payload k g) = true.
Proof. done. Qed.

(** Every ceiling is [m]. *)
Abbreviation link_run m := (Client.link_run sample_digest list_eq none none one_acquire one_release none one_invalidation
  release_payload lock_limits key32 m%nat m%nat).

Definition key : LockKey := (7, 42).

(** Caller [i] sends an acquire, and the daemon reads it. *)
Definition acquire_events (i : nat) (now : Z) : list LinkEvent :=
  [AtClient (Call i LockAcquire [100] key); AtClient (TakeSlot i); AtClient (Write i Written); Frame now].

(** Its handler is granted the key under a generation, and answers. *)
Definition grant_events (t : Task) (g now : Z) : list LinkEvent :=
  [AtServer (Complete 0 (RAcquire t (Acquired g) now)); AtServer (Reply_ 0)].

(** The reply reaches the caller, which has its lock. *)
Definition receive_events (i : nat) : list LinkEvent :=
  [ReadFrame 90; AtClient (Receive i); AtClient (NewLock i)].

Definition waiting_events : list LinkEvent :=
  acquire_events 0 0 ++ [AtClient (Call 1 LockAcquire [100] key); AtClient (TakeSlot 1); AtClient (Write 1 Written)].
Abbreviation waiting_link := (link_run 4 waiting_events (linked nonce8)).

Definition answered_events : list LinkEvent := acquire_events 0 0 ++ grant_events 1 9 10.
Abbreviation answered_link := (link_run 4 answered_events (linked nonce8)).

Definition locked_events : list LinkEvent := answered_events ++ receive_events 0.
Abbreviation locked_link := (link_run 4 locked_events (linked nonce8)).

Example locked_run :
  locks (mux locked_link) = {[0%nat := mkLock key 9 false false]} /\ pending (mux locked_link) = ∅ /\
  up locked_link = [] /\ down locked_link = [].
Proof. vm_compute. done. Qed.

(** A release goes by the key. A caller that releases a lock whose lease has run out after the
    same key was granted again on this connection, as a deferred [Release] does, takes the
    successor's entry away: when the daemon then drops the successor, its push finds no one,
    and the holder goes on believing it holds the key. *)
Theorem stale_release_hides_a_loss :
  let l := link_run 4 (acquire_events 1 200 ++ [ReadFrame 90] ++ grant_events 2 10 210 ++ receive_events 1 ++
             [AtServer (TurnReport 215); AtClient (ReleaseLock 0 50); AtServer (TurnTimeout 400); ReadFrame 90])
             (link_run 4 [AtServer (TurnReport 20)] locked_link) in
  locks (mux l) !! 0%nat = Some (mkLock key 9 true true) /\
  locks (mux l) !! 1%nat = Some (mkLock key 10 false false) /\ held (conn l) = ∅ /\ down l = [] /\
  (0, LockLost 7 42) ∈ seen l.
Proof. vm_compute. split_and!; [done..|]. repeat (apply list_elem_of_here || apply list_elem_of_further). Qed.

(** [abandon] marks a request that is still pending. When the reply is in the caller's channel
    and its timer fires too, [select] may take the timer: the request is no longer pending, no
    one hands the grant back, and the daemon holds the key until the lease ends. *)
Theorem late_give_up_keeps_the_key :
  let l := link_run 4 [ReadFrame 90; AtClient (GiveUp 0); AtServer (TurnReport 20)] answered_link in
  callers (mux l) = {[0%nat := mkCaller LockAcquire [100] key (Returned (Err GaveUpBeforeReply))]} /\
  locks (mux l) = ∅ /\ held (conn l) !! key = Some (mkHeldLock 1 9 110).
Proof. vm_compute. done. Qed.

(** An invalidation takes a permit of the daemon and no slot of the client, so a client under
    its own ceiling is refused for want of a permit. *)
Theorem invalidations_take_permits :
  let l := link_run 1 ([AtClient (Send InvalidateUserAccess [3] Written); Frame 0] ++ acquire_events 0 0) (linked nonce8) in
  slots_taken false (mux l) = 1%nat /\ down l = [(1, LockRefused LOCK_CAPACITY)].
Proof. vm_compute. done. Qed.

Abbreviation applied T := (T sample_digest list_eq (@none ChargeFrame) (@none BudgetMutationFrame) one_acquire one_release
  (@none RequestLogRecord) one_invalidation release_payload lock_limits key32 4%nat 4%nat list_eq_spec release_payload_fits nonce8).

Lemma replies_reach_their_caller_witness :
  callers (mux locked_link) !! 0%nat =
    Some (mkCaller LockAcquire [100] key (Returned (Ok (mkMuxReply 5 [0; 9])))) /\
  exists s r, log (mux locked_link) !! s = Some (mkSent LockAcquire [100] (Some 0%nat)) /\
    answers (Z.of_nat s) (conn locked_link) = 1%nat /\ mkMuxReply 5 [0; 9] = mkMuxReply (shape_byte (shape r)) (encode_body r).
Proof.
  assert (callers (mux locked_link) !! 0%nat =
    Some (mkCaller LockAcquire [100] key (Returned (Ok (mkMuxReply 5 [0; 9]))))) as Hc by (vm_compute; reflexivity).
  split; [exact Hc|].
  destruct (applied replies_reach_their_caller locked_events 0%nat _ _ Hc eq_refl)
    as (s & r & Hl & _ & _ & _ & _ & Ha & _ & E).
  exists s, r. split; [exact Hl|]. split; [exact Ha|exact E].
Defined.




End LinkSample.
