(* ===== verification/Operations.v ===== *)
(** * Operations: what the backend asks of the daemon (src/go)

    The calls the Go package offers over the connection of Client.v: charges and their access
    check (credits.go), budgets (budgets.go), sequences (sequences.go), locks (locks.go),
    invalidations (access_invalidation.go) and the request log (request_log.go), each with the
    checks before the frame, the payload, and what it makes of the reply; and the retries of
    connection.go above [exchange].

    The codec's [Append] and the reply a call gets are parameters. [None] is a panic: an index
    out of range. Not modelled: the wording of errors, deadlines, logging, and the lookup of
    the configured client. *)

From stdpp Require Import strings.
From S2P Require Import Prelude SipHash FrameAuth TimeFrame CreditsBlob Aggregation Storage Access.
From S2P Require Import ChargeProtocol Quota LockRegistry Sequence ReqLog Wire Server Client.

(** The errors a caller can tell apart. *)
Record CreditLimitExceeded := mkExceeded {
  Code : Z;
  Company : bool;
  Window : nat;                 (* the index into [windows] *)
  CPU : bool;
  Inference : bool;
}.

Inductive GoError :=
| BadArgument
| ErrCreditLimiterMissing
| ErrFarewardUnavailable        (* or wrapping it *)
| Denied (reason : Z)
| Exceeded (limit : CreditLimitExceeded)
| ErrBudgetMonthNotConfigured
| ErrBudgetMutationOverflow
| ErrLockBusy
| RefusedAsMalformed
| ErrNotConfigured              (* of a frame nobody answers *)
| ErrRequestLogTooLarge.

(** ** Tariffs (credits.go) *)

Definition UINT16_MAX : Z := 65535.
Definition MaxRequiredAccess : nat := 4.
Definition creditBlockBytes : Z := 8 * 1024.
Definition maxChargeRouteID : Z := 16383.
Definition inferenceTokenBlock : Z := 2048.
Definition OperatorCompanyID : Z := 1.

Definition ceilDivide (value divisor : Z) : Z := if value =? 0 then 0 else 1 + (value - 1) / divisor.

(** The method, in upper case. *)
Inductive Method := GET | POST | PUT | OtherMethod.

Definition APICPUCredits (method : Method) (payloadBytes : Z) : result GoError Z :=
  if payloadBytes <? 0 then Err BadArgument
  else
    '(baseCredits, extraBlockBytes) ← match method with
      | GET => Ok (2, 16 * 1024)
      | POST | PUT => Ok (5, 8 * 1024)
      | OtherMethod => Err BadArgument
      end;
    let extraBytes := if creditBlockBytes <? payloadBytes then payloadBytes - creditBlockBytes else 0 in
    let credits := baseCredits + ceilDivide extraBytes extraBlockBytes in
    if UINT16_MAX <? credits then Err BadArgument else Ok credits.

Definition APICPUBaseCredits (method : Method) : result GoError Z := APICPUCredits method 0.

Definition InferenceCredits (inputTokens outputTokens : Z) : result GoError Z :=
  if (inputTokens <? 0) || (outputTokens <? 0) then Err BadArgument
  else
    let credits := ceilDivide inputTokens inferenceTokenBlock + 2 * ceilDivide outputTokens inferenceTokenBlock in
    if UINT16_MAX <? credits then Err BadArgument else Ok credits.

(** ** Charges *)

Definition u24 (z : Z) : bool := (0 <? z) && (z <=? 0xFFFFFF).

(** The checks of [encodeCharge], and the frame. *)
Definition charge_frame (companyID userID routeID cpuCredits inferenceCredits : Z) (requiredAccess : list Z)
    (extraCreditsAllowed : bool) : result GoError ChargeFrame :=
  if negb (u24 companyID && u24 userID) then Err BadArgument
  else if (routeID <? 0) || (maxChargeRouteID <? routeID) then Err BadArgument
  else if (MaxRequiredAccess <? length requiredAccess)%nat then Err BadArgument
  else if existsb (fun packedAccess => packedAccess =? 0) requiredAccess then Err BadArgument
  else if (cpuCredits =? 0) && (inferenceCredits =? 0) && (length requiredAccess =? 0)%nat then Err BadArgument
  else
    let slot k := default 0 (requiredAccess !! k) in
    Ok (mkChargeFrame companyID userID routeID cpuCredits inferenceCredits extraCreditsAllowed
          (slot 0%nat) (slot 1%nat) (slot 2%nat) (slot 3%nat)).

Record AccessGrant := mkGrant { GrantedSlots : Z; SubAccesoBytes : gmap nat bytes }.

Definition decodeAccessDenied (body : bytes) : GoError :=
  match body with
  | [] => ErrFarewardUnavailable
  | reason :: _ => if (reason =? 2) || (reason =? 3) || (reason =? 4) then Denied reason else ErrFarewardUnavailable
  end.

(** One sub-access run: up to and including the first byte without [MORE]. *)
Fixpoint take_run (subBytes : bytes) : option (bytes * bytes) :=
  match subBytes with
  | [] => None
  | subByte :: rest =>
      if Z.land subByte 0x80 =? 0 then Some ([subByte], rest)
      else '(run, rest) ← take_run rest; Some (subByte :: run, rest)
  end.

(** The loop over the slots. *)
Fixpoint decode_runs (slots : list nat) (hasSubsSlots : Z) (subBytes : bytes) (runs : gmap nat bytes) :
    option (gmap nat bytes * bytes) :=
  match slots with
  | [] => Some (runs, subBytes)
  | slotIndex :: rest =>
      if Z.land hasSubsSlots (Z.shiftl 1 (Z.of_nat slotIndex)) =? 0 then decode_runs rest hasSubsSlots subBytes runs
      else '(run, subBytes') ← take_run subBytes; decode_runs rest hasSubsSlots subBytes' (<[slotIndex := run]> runs)
  end.

Definition decodeAccessGrant (body : bytes) : result GoError AccessGrant :=
  match body with
  | grantedSlots :: hasSubsSlots :: subLen :: subBytes =>
      if negb (subLen =? zlen subBytes) then Err ErrFarewardUnavailable
      else if grantedSlots =? 0 then Err ErrFarewardUnavailable
      else if negb (Z.ldiff hasSubsSlots grantedSlots =? 0) then Err ErrFarewardUnavailable
      else
        match decode_runs (seq 0 MaxRequiredAccess) hasSubsSlots subBytes ∅ with
        | Some (runs, []) => Ok (mkGrant grantedSlots runs)
        | _ => Err ErrFarewardUnavailable
        end
  | _ => Err ErrFarewardUnavailable
  end.

Definition decodeCreditLimitResponse (code : Z) : GoError :=
  let windowCode := Z.land (Z.shiftr code 1) 3 in
  if negb (Z.land code 0xE0 =? 0) || (Z.land code 0x18 =? 0) then ErrFarewardUnavailable
  else Exceeded (mkExceeded code (Z.land code 1 =? 0) (Z.to_nat windowCode)
         (negb (Z.land code 0x10 =? 0)) (negb (Z.land code 0x08 =? 0))).

(** The end of [Charge]. *)
Definition charge_answer (requiredAccess : list Z) (reply : muxReply) : option (result GoError (option AccessGrant)) :=
  if r_shape reply =? 0x01 then
    Some (if (0 <? length requiredAccess)%nat then Err ErrFarewardUnavailable else Ok None)
  else if r_shape reply =? 0x02 then Some (grant ← decodeAccessGrant (r_body reply); Ok (Some grant))
  else if r_shape reply =? 0x04 then Some (Err (decodeAccessDenied (r_body reply)))
  else if r_shape reply =? 0x03 then code ← r_body reply !! 0%nat; Some (Err (decodeCreditLimitResponse code))
  else Some (Err ErrFarewardUnavailable).

Definition IsAccessDeniedError (err : GoError) : bool := match err with Denied _ => true | _ => false end.

(** No other error of the package has "credit rate limiter" in its text. *)
Definition IsCreditRateLimitError (err : GoError) : bool :=
  match err with Exceeded _ | ErrCreditLimiterMissing => true | _ => false end.

(** [err != nil] is the argument. *)
Definition TolerateCreditRefusal (companyID : Z) (err : GoError) : bool :=
  (companyID =? OperatorCompanyID) && negb (IsAccessDeniedError err).

(** What the connection does for a call: [request] or [requestOnce] on a configured client. *)
Abbreviation Requests := (Opcode -> bytes -> result GoError muxReply).

Section Charges.
Context (append : ChargeFrame -> result GoError bytes).

Definition encodeCharge (companyID userID routeID cpuCredits inferenceCredits : Z) (requiredAccess : list Z)
    (extraCreditsAllowed : bool) : result GoError bytes :=
  frame ← charge_frame companyID userID routeID cpuCredits inferenceCredits requiredAccess extraCreditsAllowed;
  append frame.

Definition Charge (request : Requests) (companyID userID routeID cpuCredits inferenceCredits : Z)
    (requiredAccess : list Z) (extraCreditsAllowed : bool) : option (result GoError (option AccessGrant)) :=
  match encodeCharge companyID userID routeID cpuCredits inferenceCredits requiredAccess extraCreditsAllowed with
  | Err e => Some (Err e)
  | Ok payload =>
      match request ChargeCredits payload with
      | Err e => Some (Err e)
      | Ok reply => charge_answer requiredAccess reply
      end
  end.

Definition chargeConfiguredCredits (client : option Requests) (companyID userID routeID cpuCredits inferenceCredits : Z)
    (requiredAccess : list Z) (extraCreditsAllowed : bool) : option (result GoError (option AccessGrant)) :=
  match client with
  | None =>
      if (companyID =? OperatorCompanyID) && (length requiredAccess =? 0)%nat then Some (Ok None)
      else Some (Err ErrCreditLimiterMissing)
  | Some request => Charge request companyID userID routeID cpuCredits inferenceCredits requiredAccess extraCreditsAllowed
  end.

Definition ChargeAPIUsage (client : option Requests) (companyID userID routeID : Z) (method : Method)
    (payloadBytes : Z) (requiredAccess : list Z) : option (result GoError (option AccessGrant)) :=
  match APICPUCredits method payloadBytes with
  | Err e => Some (Err e)
  | Ok cpuCredits =>
      chargeConfiguredCredits client companyID userID routeID cpuCredits 0 requiredAccess
        (match method with GET => true | _ => false end)
  end.

Definition ChargeAPIAccessOnly (client : option Requests) (companyID userID routeID : Z) (requiredAccess : list Z) :
    option (result GoError (option AccessGrant)) :=
  if (length requiredAccess =? 0)%nat then Some (Ok None)
  else chargeConfiguredCredits client companyID userID routeID 0 0 requiredAccess false.

Definition ChargeAPICredits (client : option Requests) (companyID userID routeID cpuCredits : Z)
    (extraCreditsAllowed : bool) : option (result GoError unit) :=
  if cpuCredits =? 0 then Some (Ok tt)
  else r ← chargeConfiguredCredits client companyID userID routeID cpuCredits 0 [] extraCreditsAllowed;
       Some (_ ← r; Ok tt).

(** The identity is the context's: company, user and route. *)
Definition ChargeInferenceUsage (client : option Requests) (identity : option (Z * Z * Z))
    (inputTokens outputTokens : Z) : option (result GoError unit) :=
  match identity with
  | None => Some (Ok tt)
  | Some (companyID, userID, routeID) =>
      match InferenceCredits inputTokens outputTokens with
      | Err e => Some (Err e)
      | Ok inferenceCredits =>
          if inferenceCredits =? 0 then Some (Ok tt)
          else
            r ← chargeConfiguredCredits client companyID userID routeID 0 inferenceCredits [] false;
            Some (match r with
                  | Ok _ => Ok tt
                  | Err e => if TolerateCreditRefusal companyID e then Ok tt else Err e
                  end)
      end
  end.

End Charges.

(** ** Budgets (budgets.go) *)

Definition encodeBudgetMutation (append : BudgetMutationFrame -> result GoError bytes)
    (companyID operation cpuCredits inferenceCredits : Z) : result GoError bytes :=
  if negb (u24 companyID) then Err BadArgument
  else if (operation <? 1) || (3 <? operation) then Err BadArgument
  else if (I64_MAX <? cpuCredits) || (I64_MAX <? inferenceCredits) then Err BadArgument
  else append (mkBudgetMutationFrame companyID operation cpuCredits inferenceCredits).

(** The end of [MutateCompanyCreditBudget]. *)
Definition budget_answer (reply : muxReply) : option (result GoError unit) :=
  if r_shape reply =? 0x07 then Some (Ok tt)
  else if r_shape reply =? 0x08 then
    reason ← r_body reply !! 0%nat;
    Some (Err (if reason =? 1 then ErrBudgetMonthNotConfigured
               else if reason =? 2 then ErrBudgetMutationOverflow else ErrFarewardUnavailable))
  else Some (Err ErrFarewardUnavailable).

Definition MutateCompanyCreditBudget (append : BudgetMutationFrame -> result GoError bytes) (client : option Requests)
    (companyID operation cpuCredits inferenceCredits : Z) : option (result GoError unit) :=
  match client with
  | None => Some (Err ErrCreditLimiterMissing)
  | Some requestOnce =>
      match encodeBudgetMutation append companyID operation cpuCredits inferenceCredits with
      | Err e => Some (Err e)
      | Ok payload =>
          match requestOnce MutateCompanyBudget payload with Err e => Some (Err e) | Ok reply => budget_answer reply end
      end
  end.

(** ** Sequences (sequences.go) *)

Definition UINT32_MAX : Z := 2 ^ 32 - 1.

Definition checkCounterName (name : bytes) : result GoError unit :=
  if bool_decide (name = []) then Err BadArgument
  else if SEQUENCE_NAME_MAX <? zlen name then Err BadArgument else Ok tt.

Definition decodeSequenceReply (reply : muxReply) : result GoError Z :=
  if r_shape reply =? 0x09 then
    if negb (length (r_body reply) =? 8)%nat then Err ErrFarewardUnavailable
    else Ok (swrap 64 (of_be (r_body reply)))
  else if r_shape reply =? 0x0A then Err RefusedAsMalformed
  else Err ErrFarewardUnavailable.

(** The payloads. *)
Definition reserve_payload (name : bytes) (increment : Z) : result GoError bytes :=
  _ ← checkCounterName name;
  if increment <? 1 then Err BadArgument
  else if UINT32_MAX <? increment then Err BadArgument
  else Ok (be_bytes 4 (wrap 32 increment) ++ name).

Definition set_payload (name : bytes) (value : Z) : result GoError bytes :=
  _ ← checkCounterName name;
  if value <? 0 then Err BadArgument else Ok (be_bytes 8 (wrap 64 value) ++ name).

Definition go_ReserveSequence (client : option Requests) (name : bytes) (increment : Z) : result GoError Z :=
  request ← ok_or ErrFarewardUnavailable client;
  payload ← reserve_payload name increment;
  reply ← request ReserveSequence payload;
  reserved ← decodeSequenceReply reply;
  if reserved <=? 0 then Err ErrFarewardUnavailable else Ok reserved.

Definition go_SetSequence (client : option Requests) (name : bytes) (value : Z) : result GoError Z :=
  requestOnce ← ok_or ErrFarewardUnavailable client;
  payload ← set_payload name value;
  reply ← requestOnce SetSequence payload;
  decodeSequenceReply reply.

(** ** Locks (locks.go) *)

(** A duration is its nanoseconds. *)
Definition lockDurationToMillis (value : Z) : result GoError Z :=
  if value <? 0 then Err BadArgument
  else
    let millis := value ÷ 1000000 in
    if UINT32_MAX <? millis then Err BadArgument else Ok (wrap 32 millis).

Record LockOptions := mkLockOptions { MaxWaiters : Z; Wait : Z; Lease : Z }.

(** [lockWait] and [lockLease]. *)
Definition lock_options (maxWaiters : Z) : LockOptions := mkLockOptions maxWaiters (5 * 10 ^ 9) (15 * 10 ^ 9).

Definition acquire_frame (key : LockKey) (options : LockOptions) : result GoError AcquireRequest :=
  waitMillis ← lockDurationToMillis (Wait options);
  leaseMillis ← lockDurationToMillis (Lease options);
  if leaseMillis =? 0 then Err BadArgument
  else Ok (mkAcquireRequest key.1 key.2 (MaxWaiters options) waitMillis leaseMillis).

Definition refusalReason (reply : muxReply) : Z := default 0 (r_body reply !! 0%nat).

(** The generation of the lock, which [newLock] of Client.v files. *)
Definition acquire_answer (reply : muxReply) : result GoError Z :=
  if r_shape reply =? 0x05 then Ok (decodeLockGeneration reply)
  else if r_shape reply =? 0x06 then
    Err (if (refusalReason reply =? 1) || (refusalReason reply =? 2) then ErrLockBusy else ErrFarewardUnavailable)
  else Err ErrFarewardUnavailable.

Definition Acquire (append : AcquireRequest -> result GoError bytes) (client : option Requests)
    (key : LockKey) (options : LockOptions) : result GoError Z :=
  request ← ok_or ErrFarewardUnavailable client;
  frame ← acquire_frame key options;
  payload ← append frame;
  reply ← request LockAcquire payload;
  acquire_answer reply.

(** ** Frames nobody answers (access_invalidation.go, request_log.go) *)

Definition encodeAccessInvalidation (append : AccessInvalidation -> result GoError bytes) (companyID userID : Z) :
    result GoError bytes :=
  if negb (u24 companyID) then Err BadArgument
  else if (userID <? 0) || (0xFFFFFF <? userID) then Err BadArgument
  else append (mkAccessInvalidation companyID userID).

(** The client's [send]; [None] of the client is the sentinel of the operation. *)
Abbreviation Sends := (Opcode -> bytes -> result GoError unit).

Definition go_InvalidateUserAccess (append : AccessInvalidation -> result GoError bytes) (client : option Sends)
    (companyID userID : Z) : result GoError unit :=
  send ← ok_or ErrNotConfigured client;
  payload ← encodeAccessInvalidation append companyID userID;
  send InvalidateUserAccess payload.

(** Back to the start of the rune the byte belongs to; bytes past the end are not continued. *)
Fixpoint rune_start (value : bytes) (cut : nat) : nat :=
  match cut with
  | O => O
  | S c => if Z.land (default 0 (value !! cut)) 0xC0 =? 0x80 then rune_start value c else cut
  end.

Definition truncateUTF8 (value : bytes) (limit : nat) : bytes :=
  if (length value <=? limit)%nat then value else take (rune_start value limit) value.

Definition clamp_error (e : ErrorEntry) : ErrorEntry :=
  mkErrorEntry (id e) (truncateUTF8 (code_line e) 64) (truncateUTF8 (text e) 200).

Definition clamp_record (r : RequestLogRecord) : RequestLogRecord :=
  mkRequestLogRecord (date r) (request_id r) (route_id r) (frame r) (company_id r) (user_id r) (elapsed_ms r)
    (clamp_error <$> take 4 (errors r)).

Definition encodeRequestLog (append : RequestLogRecord -> result GoError bytes) (r : RequestLogRecord) :
    result GoError bytes :=
  payload ← append (clamp_record r);
  if (REQUEST_LOG_MAX_PAYLOAD_SIZE <? length payload)%nat then Err ErrRequestLogTooLarge else Ok payload.

Definition SendRequestLog (append : RequestLogRecord -> result GoError bytes) (client : option Sends)
    (r : RequestLogRecord) : result GoError unit :=
  send ← ok_or ErrNotConfigured client;
  payload ← encodeRequestLog append r;
  send LogRequest payload.

(** ** Retries (connection.go) *)

(** How an [exchange] failed; [by_context] is whether the error is the context's. *)
Record Failure := mkFailure { cause : CallError; by_context : bool }.

Section Retries.
(** What [connection] gives for each attempt (whether it was already open; an error is a dial
    that failed), and how the [exchange] or the [write] on it goes. *)
Context {A : Type} (connect : nat -> result unit bool) (exchange : nat -> result Failure A).

(** The result, and the exchanges it took. *)
Fixpoint request_loop (attempts attempt : nat) : result GoError A * nat :=
  match attempts with
  | O => (Err ErrFarewardUnavailable, attempt)
  | S attempts =>
      match connect attempt with
      | Err _ => (Err ErrFarewardUnavailable, attempt)
      | Ok reused =>
          match exchange attempt with
          | Ok reply => (Ok reply, S attempt)
          | Err failure =>
              if reused && (attempt =? 0)%nat && negb (by_context failure)
              then request_loop attempts (S attempt)
              else (Err ErrFarewardUnavailable, S attempt)
          end
      end
  end.

Definition request : result GoError A * nat := request_loop 2 0.

Definition requestOnce : result GoError A * nat :=
  match connect 0%nat with
  | Err _ => (Err ErrFarewardUnavailable, 0%nat)
  | Ok _ => match exchange 0%nat with Ok reply => (Ok reply, 1%nat) | Err _ => (Err ErrFarewardUnavailable, 1%nat) end
  end.

(** [send] retries a failed write whatever its cause. *)
Fixpoint send_loop (attempts attempt : nat) : result GoError A * nat :=
  match attempts with
  | O => (Err ErrFarewardUnavailable, attempt)
  | S attempts =>
      match connect attempt with
      | Err _ => (Err ErrFarewardUnavailable, attempt)
      | Ok reused =>
          match exchange attempt with
          | Ok written => (Ok written, S attempt)
          | Err _ => if reused && (attempt =? 0)%nat then send_loop attempts (S attempt)
                     else (Err ErrFarewardUnavailable, S attempt)
          end
      end
  end.

Definition send : result GoError A * nat := send_loop 2 0.

End Retries.
