(* ===== verification/OperationLaws.v ===== *)
(** * OperationLaws: what the backend asks is what the daemon is asked

    For the calls of Operations.v: every payload a call builds is parsed by the daemon as what
    the caller asked for; the daemon's answer reaches the caller as the decision it encodes;
    and whatever comes back, nothing is let through that the daemon did not grant. *)

From stdpp Require Import strings.
From S2P Require Import Prelude SipHash FrameAuth TimeFrame CreditsBlob Aggregation Storage Access.
From S2P Require Import ChargeProtocol Quota LockRegistry Sequence ReqLog Wire Server ServerLaws Client Operations.

(** ** Sub-access runs *)

Lemma take_run_app run rest : terminated run = true -> take_run (run ++ rest) = Some (run, rest).
Proof.
  induction run as [|b r IH]; [done|]. cbn [terminated app take_run]. unfold SUB_MORE_BIT.
  destruct (Z.land b 0x80 =? 0).
  - intros ->%bool_decide_eq_true. done.
  - intros Ht. by rewrite IH.
Qed.

Lemma land_bit h k : (Z.land h (Z.shiftl 1 (Z.of_nat k)) =? 0) = negb (Z.testbit h (Z.of_nat k)).
Proof.
  rewrite Z.shiftl_1_l. destruct (Z.testbit h (Z.of_nat k)) eqn:E; cbn [negb].
  - apply Z.eqb_neq. intros H. apply (f_equal (fun z => Z.testbit z (Z.of_nat k))) in H.
    rewrite Z.land_spec, E, Z.pow2_bits_true, Z.bits_0 in H by lia. done.
  - apply Z.eqb_eq, Z.bits_inj'. intros n Hn. rewrite Z.land_spec, Z.bits_0, Z.pow2_bits_eqb by lia.
    destruct (Z.eqb_spec (Z.of_nat k) n) as [<-|]; [by rewrite E|apply andb_false_r].
Qed.

Lemma decode_runs_app s1 s2 h bs acc :
  decode_runs (s1 ++ s2) h bs acc = '(m, rest) ← decode_runs s1 h bs acc; decode_runs s2 h rest m.
Proof.
  revert bs acc. induction s1 as [|k s1 IH]; intros bs acc; [done|]. cbn [app decode_runs].
  destruct (_ =? 0); [apply IH|]. destruct (take_run bs) as [[run rest]|]; [apply IH|done].
Qed.

Lemma decode_runs_skip s h bs acc :
  (forall k, k ∈ s -> Z.testbit h (Z.of_nat k) = false) -> decode_runs s h bs acc = Some (acc, bs).
Proof.
  induction s as [|k s IH]; intros Hs; [done|]. cbn [decode_runs]. rewrite land_bit, Hs by left.
  apply IH. intros j Hj. apply Hs. by right.
Qed.

(** The runs of a list of slots, where one has none or a terminated one, are split as they
    were put together. *)
Lemma decode_runs_spec (run : Z -> bytes) hasSubs l start rest acc :
  (forall k g, l !! k = Some g -> run g = [] \/ terminated (run g) = true) ->
  (forall k, (start <= k < start + length l)%nat ->
     Z.testbit hasSubs (Z.of_nat k) = true <-> exists g, l !! (k - start)%nat = Some g /\ run g <> []) ->
  (forall k, (start <= k)%nat -> acc !! k = None) ->
  exists m, decode_runs (seq start (length l)) hasSubs (flat_map run l ++ rest) acc = Some (m, rest) /\
    forall k, m !! k =
      if (start <=? k)%nat then match l !! (k - start)%nat with
        | Some g => if bool_decide (run g = []) then None else Some (run g) | None => None end
      else acc !! k.
Proof.
  revert start acc. induction l as [|g l IH]; intros start acc Hrun Hbits Hacc.
  - exists acc. split; [done|]. intros k. destruct (Nat.leb_spec start k); [by rewrite Hacc|done].
  - cbn [length seq flat_map decode_runs]. rewrite <- app_assoc.
    assert (Hbit : Z.testbit hasSubs (Z.of_nat start) = true <-> run g <> []).
    { rewrite (Hbits start) by (simpl; lia). rewrite Nat.sub_diag. simpl. naive_solver. }
    assert (Hnext : forall acc', (forall k, (S start <= k)%nat -> acc' !! k = None) ->
      exists m, decode_runs (seq (S start) (length l)) hasSubs (flat_map run l ++ rest) acc' = Some (m, rest) /\
        forall k, m !! k = if (S start <=? k)%nat then match l !! (k - S start)%nat with
          | Some g => if bool_decide (run g = []) then None else Some (run g) | None => None end else acc' !! k).
    { intros acc' Hacc'. apply IH; [|..|done].
      - intros k h Hk. by apply (Hrun (S k)).
      - intros k Hk. rewrite (Hbits k) by (simpl; lia). by replace (k - start)%nat with (S (k - S start)) by lia. }
    assert (Hk : forall k, (start <> k) -> (S start <=? k)%nat = (start <=? k)%nat /\
      (start <= k -> (g :: l) !! (k - start) = l !! (k - S start))%nat).
    { intros k Hne. split; [destruct (Nat.leb_spec (S start) k), (Nat.leb_spec start k); lia|].
      intros Hle. by replace (k - start)%nat with (S (k - S start)) by lia. }
    rewrite land_bit by lia. destruct (Z.testbit hasSubs (Z.of_nat start)) eqn:Eb; cbn [negb].
    + destruct (Hrun 0%nat g eq_refl) as [E|Ht]; [by apply Hbit in E|]. rewrite take_run_app by done.
      cbn [mbind option_bind]. destruct (Hnext (<[start := run g]> acc)) as (m & Hm & Hl).
      { intros k ?. rewrite lookup_insert_ne by lia. apply Hacc. lia. }
      exists m. split; [done|]. intros k. rewrite Hl. destruct (decide (start = k)) as [<-|Hne].
      * rewrite Nat.leb_refl, Nat.sub_diag. destruct (Nat.leb_spec (S start) start); [lia|].
        rewrite lookup_insert_eq. cbn. rewrite bool_decide_eq_false_2; [done|]. by apply Hbit.
      * destruct (Hk k Hne) as [-> E]. destruct (Nat.leb_spec start k); [by rewrite E|]. by rewrite lookup_insert_ne.
    + assert (run g = []) as E by (destruct (decide (run g = [])); [done|]; by apply Hbit in n).
      rewrite E. cbn [app]. destruct (Hnext acc) as (m & Hm & Hl); [intros; apply Hacc; lia|].
      exists m. split; [done|]. intros k. rewrite Hl. destruct (decide (start = k)) as [<-|Hne].
      * rewrite Nat.leb_refl, Nat.sub_diag. destruct (Nat.leb_spec (S start) start); [lia|].
        rewrite Hacc by lia. cbn. by rewrite bool_decide_eq_true_2.
      * destruct (Hk k Hne) as [-> E']. destruct (Nat.leb_spec start k); [by rewrite E'|done].
Qed.

(** ** Answers to a charge *)

(** A reply of the daemon as the read loop hands it over. *)
Definition delivered (r : Reply) : muxReply := mkMuxReply (shape_byte (shape r)) (encode_body r).

(** The slots of a frame: what was asked, and zeros. *)
Definition padded (required : list Z) : list Z := required ++ replicate (MaxRequiredAccess - length required) 0.

Lemma filled_padded required : Forall (fun g => g <> 0) required -> filled (padded required) = required.
Proof.
  unfold padded. generalize (MaxRequiredAccess - length required)%nat as n. intros n Hr.
  induction Hr as [|g l Hg _ IH]; cbn [app filled]; [by destruct n|].
  destruct (Z.eqb_spec g 0); [done|]. by rewrite IH.
Qed.

Lemma run_of_terminated ws es g : entries_ok es -> run_of ws es g = [] \/ terminated (run_of ws es g) = true.
Proof.
  intros [Hes _]. unfold run_of. destruct (granted_by ws g); [by left|].
  destruct (subs_of es g) as [subs|] eqn:E; [right|by left]. revert E. unfold subs_of. destruct (unpack_grant g).
  intros (e & E & ->)%fmap_Some. apply find_some in E as [Hin%list_elem_of_In _]. rewrite Forall_forall in Hes.
  by destruct (Hes e Hin) as (_ & _ & _ & Ht & _).
Qed.

Lemma run_of_held ws es g : run_of ws es g <> [] -> holds ws es g = true.
Proof.
  unfold run_of, holds. destruct (granted_by ws g); [done|]. destruct (subs_of es g); [|done].
  intros _. by apply bool_decide_eq_true.
Qed.

Lemma subs_within_grant hm gm :
  0 <= hm -> (forall k : nat, Z.testbit hm (Z.of_nat k) = true -> Z.testbit gm (Z.of_nat k) = true) -> Z.ldiff hm gm = 0.
Proof.
  intros Hhm H. apply Z.bits_inj'. intros n Hn. rewrite Z.ldiff_spec, Z.bits_0.
  specialize (H (Z.to_nat n)). rewrite Z2Nat.id in H by done. destruct (Z.testbit hm n); [by rewrite H|done].
Qed.

(** What the backend makes of a grant: per slot, whether it is held, and its sub-accesses. *)
Definition reads_verdict (ws : list (Z * Z)) (es : list entry) (required : list Z) (grant : AccessGrant) : Prop :=
  (forall k : nat, Z.testbit (GrantedSlots grant) (Z.of_nat k) = true <->
     exists g, required !! k = Some g /\ holds ws es g = true) /\
  (forall k : nat, SubAccesoBytes grant !! k =
     match required !! k with
     | Some g => if bool_decide (run_of ws es g = []) then None else Some (run_of ws es g)
     | None => None
     end).

Lemma decoded_grant ws es required v :
  entries_ok es -> (length required <= MaxRequiredAccess)%nat -> 0 < granted_mask v < 16 -> 0 <= has_subs_mask v < 16 ->
  (forall k : nat, Z.testbit (granted_mask v) (Z.of_nat k) = true <->
     exists g, required !! k = Some g /\ holds ws es g = true) ->
  (forall k : nat, Z.testbit (has_subs_mask v) (Z.of_nat k) = true <->
     exists g, required !! k = Some g /\ run_of ws es g <> []) ->
  sub_bytes v = flat_map (run_of ws es) required -> (length (sub_bytes v) <= 12)%nat ->
  exists grant, decodeAccessGrant (encode_body (granted_reply v)) = Ok grant /\ reads_verdict ws es required grant.
Proof.
  intros Hes Hlen Hgm Hhm Hg Hh Hs Hl. cbn [granted_reply encode_body decodeAccessGrant].
  rewrite wrap_small by (change (2 ^ 8) with 256; lia). rewrite Z.eqb_refl. cbn [negb].
  destruct (Z.eqb_spec (granted_mask v) 0) as [|_]; [lia|].
  rewrite subs_within_grant, Z.eqb_refl; [|lia|].
  2: { intros k (g & Hk & Hr)%Hh. apply Hg. exists g. split; [done|by apply run_of_held]. }
  cbn [negb]. replace MaxRequiredAccess with (length required + (MaxRequiredAccess - length required))%nat by lia.
  rewrite seq_app, decode_runs_app, Nat.add_0_l.
  destruct (decode_runs_spec (run_of ws es) (has_subs_mask v) required 0 [] ∅) as (m & Hm & Hl').
  - intros k g _. by apply run_of_terminated.
  - intros k _. rewrite Nat.sub_0_r. apply Hh.
  - intros k _. apply lookup_empty.
  - rewrite app_nil_r, <- Hs in Hm. rewrite Hm. cbn [mbind option_bind]. rewrite decode_runs_skip.
    + eexists. split; [done|]. split; [done|]. intros k. cbn [SubAccesoBytes]. rewrite Hl'. simpl. by rewrite Nat.sub_0_r.
    + intros k Hk%elem_of_seq. apply not_true_iff_false. intros (g & Hg' & _)%Hh.
      apply lookup_lt_Some in Hg'. lia.
Qed.

(** What the limiter may decide on a request, for the state of its user. *)
Definition may_decide (st : UserAccessState) (r : Request) (d : Quota.Decision) : Prop :=
  match d with
  | Quota.Allowed v => requests_authorization r = true -> verdict st (required_access r) = Some (Ok v)
  | Quota.CreditViolation v => names_resource v = true
  | Quota.AccessDenied x => verdict st (required_access r) = Some (Err x)
  end.

(** What a denial says of the user's row. *)
Definition denial_means (row : option StoredUserAccess) (ws : list (Z * Z)) (es : list entry) (required : list Z)
    (x : AccessDenial) : Prop :=
  match x with
  | UnknownUser => row = None
  | InactiveUser => exists r, row = Some r /\ sua_status r <> ACTIVE_USER_STATUS
  | NoAccess => (exists r, row = Some r /\ sua_status r = ACTIVE_USER_STATUS) /\
      Forall (fun g => holds ws es g = false) required
  end.

Definition exceeded_of (v : LimitViolation) : CreditLimitExceeded :=
  mkExceeded (response_byte v) (bool_decide (lv_scope v = ChargeProtocol.Company)) (Z.to_nat (window_code (lv_window v)))
    (lv_cpu v) (lv_inference v).

Lemma decoded_violation v :
  names_resource v = true -> decodeCreditLimitResponse (response_byte v) = Exceeded (exceeded_of v).
Proof. destruct v as [[] [] [] []]; intros ?; done. Qed.

Lemma padded_authorizes required r :
  Forall (fun g => g <> 0) required -> required_access r = padded required ->
  requests_authorization r = negb (length required =? 0)%nat.
Proof.
  intros Hr E. unfold requests_authorization. rewrite E. destruct Hr as [|g l Hg]; [done|]. cbn.
  by destruct (Z.eqb_spec g 0).
Qed.

(** C5: the limiter's decision is the one the backend acts on. For a charge whose frame asked
    for [required], whatever the limiter decides on it comes back, through the reply and its
    decoding, as that decision: no authorization asked and allowed gives no grant; a denial
    gives its reason, which is what the user's row says: no such user, not active, or none of
    the accesses held; a violation its scope, window and resources; a failure of the limiter
    its unavailability; and a grant tells, slot by slot, which of the accesses the user's row
    holds and the sub-accesses of exactly that access. *)
Theorem charge_decision_reaches_caller row t st required r d :
  from_option (fun r => bytes_ok (sub_grants_blob r)) True row -> from_row row t = Ok st ->
  (length required <= MaxRequiredAccess)%nat -> Forall (fun g => g <> 0) required ->
  required_access r = padded required ->
  from_option (may_decide st r) True (match d with Ok d => Some d | Err _ => None end) ->
  exists ws es, state_reads st ws es /\
  match charge_answer required (delivered (charge_reply r d)), d with
  | Some (Ok None), Ok (Quota.Allowed _) => required = []
  | Some (Ok (Some grant)), Ok (Quota.Allowed _) => required <> [] /\ reads_verdict ws es required grant
  | Some (Err e), Ok (Quota.AccessDenied x) => e = Denied (detail_code x) /\ denial_means row ws es required x
  | Some (Err e), Ok (Quota.CreditViolation v) => e = Exceeded (exceeded_of v)
  | Some (Err e), Err _ => e = ErrFarewardUnavailable
  | _, _ => False
  end.
Proof.
  intros Hok Hst Hlen Hnz Hreq Hd. pose proof (padded_authorizes required r Hnz Hreq) as Ha.
  pose proof (verdict_correct row t st (padded required) Hok Hst) as Hv.
  assert (length (padded required) <= MAX_REQUIRED_ACCESS)%nat as Hpl.
  { unfold padded. rewrite length_app, length_replicate. unfold MaxRequiredAccess, MAX_REQUIRED_ACCESS in *. lia. }
  destruct (Hv Hpl) as (ws & es & Hr & Hverdict). exists ws, es. split; [done|].
  destruct d as [[v|v|x]|e]; cbn [charge_reply from_option may_decide] in *.
  - rewrite Ha in *. destruct required as [|g req]; [done|]. cbn [length Nat.eqb negb] in *.
    rewrite Hreq in Hd. rewrite (Hd eq_refl) in Hverdict. rewrite filled_padded in Hverdict by done.
    destruct Hverdict as (_ & Hgm & Hhm & Hg & Hh & Hs & Hl).
    destruct (decoded_grant ws es (g :: req) v) as (grant & Eg & Hgrant); [apply Hr|done..|].
    unfold charge_answer, delivered. cbn [r_shape r_body]. rewrite Eg. done.
  - cbn [delivered]. unfold charge_answer, delivered. cbn. by rewrite decoded_violation.
  - rewrite Hreq in Hd. rewrite Hd in Hverdict. rewrite filled_padded in Hverdict by done.
    unfold charge_answer, delivered. by destruct x.
  - done.
Qed.

(** A decoded grant has a slot, and runs on granted slots only. *)
Lemma decode_runs_marked s h bs acc m rest :
  decode_runs s h bs acc = Some (m, rest) ->
  forall k run, m !! k = Some run -> acc !! k = Some run \/ Z.testbit h (Z.of_nat k) = true.
Proof.
  revert bs acc. induction s as [|j s IH]; intros bs acc; cbn [decode_runs]; [by intros [= <- _]; left|].
  rewrite land_bit. destruct (Z.testbit h (Z.of_nat j)) eqn:Eb; cbn [negb]; [|by apply IH].
  destruct (take_run bs) as [[run bs']|]; [|done]. cbn [mbind option_bind]. intros H k run' Hk.
  destruct (IH _ _ H k run' Hk) as [Ha|]; [|by right].
  apply lookup_insert_Some in Ha as [[<- _]|[_ Ha]]; [by right|by left].
Qed.

Lemma decoded_within body grant :
  decodeAccessGrant body = Ok grant -> GrantedSlots grant <> 0 /\
  (forall k run, SubAccesoBytes grant !! k = Some run -> Z.testbit (GrantedSlots grant) (Z.of_nat k) = true).
Proof.
  unfold decodeAccessGrant. destruct body as [|gm [|hm [|len subs]]]; [done..|].
  destruct (negb (len =? _)); [done|]. destruct (Z.eqb_spec gm 0); [done|].
  destruct (Z.eqb_spec (Z.ldiff hm gm) 0) as [Hd|]; [|done]. cbn [negb].
  destruct (decode_runs _ _ _ _) as [[m [|]]|] eqn:Er; [|done..]. intros [= <-]. split; [done|].
  intros k run Hk. destruct (decode_runs_marked _ _ _ _ _ _ Er k run Hk) as [Ha|Hb]; [by rewrite lookup_empty in Ha|].
  apply (f_equal (fun z => Z.testbit z (Z.of_nat k))) in Hd. rewrite Z.ldiff_spec, Hb, Z.bits_0 in Hd. cbn in *.
  by destruct (Z.testbit gm (Z.of_nat k)).
Qed.

(** ** Payloads *)

(** What a codec promises of its two halves. *)
Definition codec_law {F} (append : F -> result GoError bytes) (decode : bytes -> option F) : Prop :=
  forall f payload, append f = Ok payload -> decode payload = Some f.

Lemma existsb_zero l : existsb (fun g => g =? 0) l = false <-> Forall (fun g => g <> 0) l.
Proof.
  induction l as [|g l IH]; cbn [existsb]; [by split|]. rewrite orb_false_iff, IH, Z.eqb_neq, Forall_cons. done.
Qed.

Lemma padded_slots required :
  (length required <= MaxRequiredAccess)%nat ->
  [default 0 (required !! 0%nat); default 0 (required !! 1%nat); default 0 (required !! 2%nat);
   default 0 (required !! 3%nat)] = padded required.
Proof.
  unfold padded, MaxRequiredAccess. intros H.
  destruct required as [|a [|b [|c [|d [|e l]]]]]; try done. simpl in H. lia.
Qed.

Lemma charge_frame_spec company user route cpu inference required extra f :
  charge_frame company user route cpu inference required extra = Ok f <->
  (0 < company <= 0xFFFFFF /\ 0 < user <= 0xFFFFFF /\ 0 <= route <= maxChargeRouteID /\
   (length required <= MaxRequiredAccess)%nat /\ Forall (fun g => g <> 0) required /\
   (cpu <> 0 \/ inference <> 0 \/ required <> [])) /\
  f = mkChargeFrame company user route cpu inference extra (default 0 (required !! 0%nat))
        (default 0 (required !! 1%nat)) (default 0 (required !! 2%nat)) (default 0 (required !! 3%nat)).
Proof.
  unfold charge_frame, u24. rewrite <- existsb_zero.
  destruct (negb _) eqn:E1.
  { split; [done|]. intros [(? & ? & _) _]. fw_bool. lia. }
  destruct (_ || _) eqn:E2.
  { split; [done|]. intros [(_ & _ & ? & _) _]. fw_bool. lia. }
  destruct (_ <? _)%nat eqn:E3.
  { split; [done|]. intros [(_ & _ & _ & ? & _) _]. apply Nat.ltb_lt in E3. lia. }
  destruct (existsb _ required) eqn:E4.
  { split; [done|]. by intros [(_ & _ & _ & _ & ? & _) _]. }
  apply Nat.ltb_ge in E3. destruct (_ && (length required =? 0)%nat) eqn:E5.
  { split; [done|]. intros [(_ & _ & _ & _ & _ & H) _]. fw_bool. destruct required; [|done]. naive_solver. }
  fw_bool. split; [intros [= <-]; split; [|done]|intros [_ ->]; done].
  split_and!; try lia; try done. destruct (Z.eqb_spec cpu 0), (Z.eqb_spec inference 0); auto.
  right. right. intros ->. subst. by destruct E5.
Qed.

(** C25: a charge is what the caller asked, or is not sent. [encodeCharge] accepts exactly the
    arguments within the protocol's bounds, and then the daemon parses the payload, whatever
    the codec does in between, as those arguments: company, user, route, both credits, the
    eligibility, and the accesses from the first slot on; authorization is requested exactly
    when the caller required an access. *)
Theorem charge_round_trip append decode company user route cpu inference required extra :
  codec_law append decode -> (forall f, exists payload, append f = Ok payload) ->
  ((exists payload, encodeCharge append company user route cpu inference required extra = Ok payload) <->
   0 < company <= 0xFFFFFF /\ 0 < user <= 0xFFFFFF /\ 0 <= route <= MAX_ROUTE_ID /\
   (length required <= MaxRequiredAccess)%nat /\ Forall (fun g => g <> 0) required /\
   (cpu <> 0 \/ inference <> 0 \/ required <> [])) /\
  (forall payload, encodeCharge append company user route cpu inference required extra = Ok payload ->
   let r := mkRequest company user route (mkCredits cpu inference) (padded required) extra in
   parse_charge decode payload = Ok r /\ (requests_authorization r = true <-> required <> [])).
Proof.
  intros Hc Ht. pose proof (charge_frame_spec company user route cpu inference required extra) as Hspec. split; [split|].
  - intros [payload (f & Hf & _)%result_bind_ok]. by apply Hspec in Hf as [Hf _].
  - intros H. destruct (Ht (mkChargeFrame company user route cpu inference extra (default 0 (required !! 0%nat))
        (default 0 (required !! 1%nat)) (default 0 (required !! 2%nat)) (default 0 (required !! 3%nat)))) as [payload Hp].
    exists payload. unfold encodeCharge. apply result_bind_ok. eexists. split; [by apply Hspec|done].
  - intros payload (f & Hf & Hp)%result_bind_ok. apply Hspec in Hf as [(Hco & Hus & Hro & Hlen & Hnz & Hask) ->].
    apply Hc in Hp. cbv zeta.
    assert (Ha : requests_authorization (mkRequest company user route (mkCredits cpu inference) (padded required) extra) = true <-> required <> []).
    { rewrite (padded_authorizes required) by done. destruct required; [by split|by split]. }
    split; [|exact Ha]. apply (parse_charge_accepts decode payload _ _ Hp). cbn [access1 access2 access3 access4 cf_company_id
      cf_user_id cf_route_id cf_cpu cf_inference extra_allowed]. rewrite padded_slots by done.
    split; [done|]. split; [lia|]. split; [lia|]. split; [apply Hro|]. split; [by rewrite filled_padded|].
    rewrite Ha. done.
Qed.

(** C15: the gate fails closed. Whatever the daemon answers, whether or not it answers, and for
    the operator's company too: a call that requires an access comes back without an error
    only with a grant of at least one slot, and marks sub-accesses only on granted slots; a
    denial is never tolerated. *)
Theorem gate_fails_closed append client company user route cpu inference required extra answer :
  required <> [] ->
  chargeConfiguredCredits append client company user route cpu inference required extra = Some answer ->
  match answer with
  | Ok None => False
  | Ok (Some grant) => GrantedSlots grant <> 0 /\
      (forall k run, SubAccesoBytes grant !! k = Some run -> Z.testbit (GrantedSlots grant) (Z.of_nat k) = true)
  | Err e => IsAccessDeniedError e = true -> TolerateCreditRefusal company e = false
  end.
Proof.
  intros Hreq. assert ((length required =? 0)%nat = false) as Hlen by (by destruct required).
  assert (Herr : forall e, IsAccessDeniedError e = true -> TolerateCreditRefusal company e = false).
  { intros e He. unfold TolerateCreditRefusal. by rewrite He, andb_false_r. }
  unfold chargeConfiguredCredits, Charge. destruct client as [request|].
  2: { rewrite Hlen, andb_false_r. by intros [= <-]. }
  destruct (encodeCharge _ _ _ _ _ _ _ _); [|intros [= <-]; apply Herr].
  destruct (request _ _) as [reply|]; [|intros [= <-]; apply Herr].
  unfold charge_answer. destruct (r_shape reply =? 1).
  { intros [= <-]. destruct required; [done|]. cbn. done. }
  destruct (r_shape reply =? 2).
  2: { destruct (r_shape reply =? 4); [intros [= <-]; apply Herr|].
       destruct (r_shape reply =? 3); [|intros [= <-]; apply Herr].
       destruct (r_body reply !! 0%nat); [|done]. intros [= <-]. apply Herr. }
  intros [= <-]. destruct (decodeAccessGrant (r_body reply)) as [grant|e] eqn:Eg; [|exact (Herr e)].
  cbn [mbind result_bind]. by apply decoded_within in Eg.
Qed.

(** *** Sequences *)

Lemma checked_name name r : (_ ← checkCounterName name; r) = @Err GoError bytes BadArgument \/
  (1 <= zlen name <= SEQUENCE_NAME_MAX /\ (_ ← checkCounterName name; r) = r).
Proof.
  unfold checkCounterName. case_bool_decide as E; [by left|]. destruct (Z.ltb_spec SEQUENCE_NAME_MAX (zlen name)); [by left|].
  right. split; [|done]. destruct name; [done|]. simpl in *. lia.
Qed.

Lemma parse_name name :
  1 <= zlen name <= SEQUENCE_NAME_MAX -> parse_counter_name name = if utf8_ok name then Ok name else Err NonUtf8Name.
Proof.
  intros H. unfold parse_counter_name. destruct (Z.eqb_spec (zlen name) 0); [lia|].
  destruct (Z.ltb_spec SEQUENCE_NAME_MAX (zlen name)); [lia|done].
Qed.

Lemma cursor_front n a b :
  length a = n -> cursor_take n (cursor_new (a ++ b)) = Some (a, mkCursor (a ++ b) n) /\
  cursor_rest (mkCursor (a ++ b) n) = b.
Proof.
  intros <-. unfold cursor_take, cursor_new, cursor_rest. cbn [at_ c_bytes].
  rewrite Nat.add_0_l, drop_0, length_app. destruct (Nat.leb_spec (length a) (length a + length b)); [|lia].
  by rewrite take_app_length, drop_app_length.
Qed.

Lemma i64_be v : in_i64 v -> swrap 64 (of_be (be_bytes 8 v)) = v.
Proof.
  intros Hv. rewrite of_be_be_bytes. change (256 ^ Z.of_nat 8) with (2 ^ 64). unfold swrap. rewrite Zmod_mod.
  by apply swrap_i64_small.
Qed.

(** C26: a sequence call is what the caller asked. The payload the client builds for a
    reservation or an assignment is parsed by the daemon as that name and that number, unless
    the name is not UTF-8, the one thing the client does not check, which is answered; and the
    value the daemon answers, over the whole signed range, is the value the caller gets, save
    that a reservation never returns one that is not positive. *)
Theorem sequence_round_trip name n payload request :
  (reserve_payload name n = Ok payload ->
     parse_reserve payload = if utf8_ok name then Ok (mkReserveRequest name n) else Err NonUtf8Name) /\
  (set_payload name n = Ok payload -> in_i64 n ->
     parse_set payload = if utf8_ok name then Ok (mkSetRequest name n) else Err NonUtf8Name) /\
  (forall v, in_i64 v -> reserve_payload name n = Ok payload ->
     request ReserveSequence payload = Ok (delivered (sequence_reply (Ok v))) ->
     go_ReserveSequence (Some request) name n = if v <=? 0 then Err ErrFarewardUnavailable else Ok v) /\
  (forall v, in_i64 v -> set_payload name n = Ok payload ->
     request SetSequence payload = Ok (delivered (sequence_reply (Ok v))) ->
     go_SetSequence (Some request) name n = Ok v).
Proof.
  assert (Hdec : forall v, in_i64 v -> decodeSequenceReply (delivered (SequenceValue v)) = Ok v).
  { intros v Hv. unfold decodeSequenceReply, delivered. cbn [r_shape r_body shape shape_byte encode_body].
    rewrite length_be_bytes, i64_be by done. done. }
  split_and!.
  - unfold reserve_payload. destruct (checked_name name (if n <? 1 then Err BadArgument else
      if UINT32_MAX <? n then Err BadArgument else Ok (be_bytes 4 (wrap 32 n) ++ name))) as [->|[Hn ->]]; [done|].
    destruct (Z.ltb_spec n 1); [done|]. destruct (Z.ltb_spec UINT32_MAX n); [done|]. intros E. assert (payload = be_bytes 4 (wrap 32 n) ++ name) as -> by congruence.
    unfold UINT32_MAX in *.
    unfold parse_reserve, cursor_u32, SEQUENCE_INCREMENT_SIZE.
    destruct (cursor_front 4 (be_bytes 4 (wrap 32 n)) name (length_be_bytes _ _)) as [-> Hrest].
    cbn [mbind option_bind ok_or result_bind]. rewrite Hrest.
    rewrite wrap_small, of_be_be_bytes_small by (change (2 ^ 32) with 4294967296 in *; change (256 ^ Z.of_nat 4) with 4294967296; lia).
    destruct (Z.eqb_spec n 0); [lia|]. rewrite parse_name by done. by destruct (utf8_ok name).
  - unfold set_payload. destruct (checked_name name (if n <? 0 then Err BadArgument else
      Ok (be_bytes 8 (wrap 64 n) ++ name))) as [->|[Hn ->]]; [done|].
    destruct (Z.ltb_spec n 0); [done|]. intros E. assert (payload = be_bytes 8 (wrap 64 n) ++ name) as -> by congruence. intros Hi.
    unfold parse_set, cursor_i64, SEQUENCE_VALUE_SIZE.
    destruct (cursor_front 8 (be_bytes 8 (wrap 64 n)) name (length_be_bytes _ _)) as [-> Hrest].
    cbn [mbind option_bind ok_or result_bind]. rewrite Hrest.
    rewrite wrap_small, i64_be by (try done; widths; lia).
    destruct (Z.ltb_spec n 0); [lia|]. rewrite parse_name by done. by destruct (utf8_ok name).
  - intros v Hv Hp Hr. unfold go_ReserveSequence. cbn [ok_or mbind result_bind]. rewrite Hp. cbn. rewrite Hr. cbn [mbind result_bind].
    cbn [sequence_reply]. by rewrite Hdec.
  - intros v Hv Hp Hr. unfold go_SetSequence. cbn [ok_or mbind result_bind]. rewrite Hp. cbn. rewrite Hr. cbn [mbind result_bind].
    cbn [sequence_reply]. by rewrite Hdec.
Qed.

(** *** Budgets, locks and invalidations *)

(** A budget mutation is parsed as what was asked, and its outcome comes back as itself. *)
Theorem budget_round_trip append decode company op cpu inference payload :
  codec_law append decode -> encodeBudgetMutation append company op cpu inference = Ok payload ->
  (exists m, parse_budget_mutation decode payload = Ok m /\ bm_company_id m = company /\
     bm_credits m = mkCredits cpu inference /\
     op = match operation m with SetDaily => 1 | SetCurrent => 2 | IncreaseCurrent => 3 end) /\
  forall r, budget_answer (delivered (budget_reply r)) =
    Some (match r with
          | Ok BudgetOk => Ok tt
          | Ok CurrentMonthNotConfigured => Err ErrBudgetMonthNotConfigured
          | Ok ChargeProtocol.Overflow => Err ErrBudgetMutationOverflow
          | Err _ => Err ErrFarewardUnavailable
          end).
Proof.
  intros Hc He. split; [|by intros [[]|]].
  unfold encodeBudgetMutation, u24 in He. destruct (negb _) eqn:E1; [done|].
  destruct ((op <? 1) || _) eqn:E2; [done|]. destruct (_ || _) eqn:E3 in He; [done|]. apply Hc in He. fw_bool.
  exists (mkBudgetMutation company (if op =? 1 then SetDaily else if op =? 2 then SetCurrent else IncreaseCurrent)
    (mkCredits cpu inference)).
  assert (op = 1 \/ op = 2 \/ op = 3) as Hop by lia.
  split; [|by destruct Hop as [->|[->| ->]]].
  apply (parse_budget_mutation_accepts decode payload _ _ He). cbn. split_and!; try done; try lia.
  by destruct Hop as [->|[->| ->]].
Qed.

Lemma duration_millis value ms :
  lockDurationToMillis value = Ok ms -> ms = value / 1000000 /\ 0 <= ms <= UINT32_MAX.
Proof.
  unfold lockDurationToMillis. destruct (Z.ltb_spec value 0); [done|].
  rewrite Z.quot_div_nonneg by lia. destruct (Z.ltb_spec UINT32_MAX (value / 1000000)); [done|]. intros [= <-].
  unfold UINT32_MAX in *. pose proof (Z.div_pos value 1000000). rewrite wrap_small; change (2 ^ 32) with 4294967296 in *; lia.
Qed.

(** An acquire is parsed with the caller's key, its patience and its lease in milliseconds,
    and every outcome of the registry comes back as itself: the generation that was granted, a
    busy key, or no answer. *)
Theorem acquire_round_trip append decode key options frame payload :
  codec_law append decode -> acquire_frame key options = Ok frame -> append frame = Ok payload ->
  (parse_acquire decode payload = Ok frame /\ request_key frame = key /\
   wait_ms frame = Wait options / 1000000 /\ lease_ms frame = Lease options / 1000000 /\ 0 < lease_ms frame <= UINT32_MAX) /\
  forall t o now lease, (forall g, o = Acquired g -> 0 <= g < 65536) ->
    acquire_answer (delivered (acquire_reply t o now lease).1) =
      match o with Acquired g => Ok g | Busy | WaitTimeout => Err ErrLockBusy | Capacity => Err ErrFarewardUnavailable end.
Proof.
  intros Hc Hf Hp. split.
  - apply Hc in Hp. unfold acquire_frame in Hf. apply result_bind_ok in Hf as (w & (-> & _)%duration_millis & Hf).
    apply result_bind_ok in Hf as (ls & (-> & Hls)%duration_millis & Hf).
    destruct (Z.eqb_spec (Lease options / 1000000) 0) as [|Hnz]; [done|]. injection Hf as <-.
    unfold parse_acquire. rewrite Hp. cbn. destruct (Z.eqb_spec (Lease options / 1000000) 0); [done|].
    split; [done|]. split; [by destruct key|]. split; [done|]. split; [done|]. lia.
  - intros t o now lease Hg. destruct o as [g| | |]; [|done..]. specialize (Hg g eq_refl).
    unfold acquire_answer, delivered. cbn [acquire_reply fst r_shape shape shape_byte]. cbn [Z.eqb Pos.eqb].
    unfold decodeLockGeneration. cbn [r_body encode_body]. rewrite length_be_bytes. cbn [Nat.ltb Nat.leb].
    rewrite take_ge by (by rewrite length_be_bytes). by rewrite of_be_be_bytes_small.
Qed.

Theorem invalidation_round_trip append decode company user payload :
  codec_law append decode -> encodeAccessInvalidation append company user = Ok payload ->
  parse_access_invalidation decode payload = Ok (mkAccessInvalidation company user) /\ 0 <= user <= 0xFFFFFF.
Proof.
  intros Hc He. unfold encodeAccessInvalidation, u24 in He. destruct (negb _) eqn:E1; [done|].
  destruct (_ || _) eqn:E2; [done|]. apply Hc in He. fw_bool. split; [|lia].
  unfold parse_access_invalidation. rewrite He. cbn. destruct (Z.leb_spec company 0); [lia|done].
Qed.

(** *** The request log *)

Lemma rune_start_le value cut : (rune_start value cut <= cut)%nat.
Proof. induction cut as [|c IH]; [done|]. cbn [rune_start]. destruct (_ =? _); lia. Qed.

Lemma truncated_length value limit : (length (truncateUTF8 value limit) <= limit)%nat.
Proof.
  unfold truncateUTF8. destruct (Nat.leb_spec (length value) limit); [done|]. rewrite length_take.
  pose proof (rune_start_le value limit). lia.
Qed.

Lemma tail_continues b : tail_byte b = true -> (Z.land b 0xC0 =? 0x80) = true.
Proof.
  intros H. unfold tail_byte, between in H. fw_bool.
  assert (Hall : forallb (fun b => Z.land b 0xC0 =? 0x80) (seqZ 0x80 64) = true) by (vm_compute; reflexivity).
  rewrite forallb_forall in Hall. apply Hall, list_elem_of_In, elem_of_seqZ. lia.
Qed.

(** The first character of well-formed text: its bytes after the first are continuations. *)
Lemma utf8_first a l :
  utf8_ok (a :: l) = true -> exists w rest, l = w ++ rest /\ utf8_ok rest = true /\
    Forall (fun b => tail_byte b = true) w /\ forall r, utf8_ok (a :: w ++ r) = utf8_ok r.
Proof.
  cbn [utf8_ok]. destruct (between 0 0x7F a) eqn:E1.
  { intros H. by exists [], l. }
  destruct l as [|b l]; [done|]. destruct (between 0xC2 0xDF a) eqn:E2.
  { intros [Hb H]%andb_prop. exists [b], l. split_and!; try done; [by repeat constructor|].
    intros r. cbn. by rewrite ?E1, ?E2, ?Hb. }
  destruct l as [|c l]; [done|]. destruct (between 0xE0 0xEF a) eqn:E3.
  { intros [[Hb Hc]%andb_prop H]%andb_prop. exists [b; c], l. split_and!; try done.
    - repeat constructor; [|done]. revert Hb. unfold tail_byte, between.
      destruct (a =? 0xE0); [|destruct (a =? 0xED)]; intros; fw_bool; apply andb_true_iff; split; apply Z.leb_le; lia.
    - intros r. cbn. by rewrite ?E1, ?E2, ?E3, ?Hb, ?Hc. }
  destruct l as [|d l]; [done|].
  intros [[[[Ha Hb]%andb_prop Hc]%andb_prop Hd]%andb_prop H]%andb_prop. exists [b; c; d], l. split_and!; try done.
  - repeat constructor; try done. revert Hb. unfold tail_byte, between.
    destruct (a =? 0xF0); [|destruct (a =? 0xF4)]; intros; fw_bool; apply andb_true_iff; split; apply Z.leb_le; lia.
  - intros r. cbn. by rewrite ?E1, ?E2, ?E3, ?Ha, ?Hb, ?Hc, ?Hd.
Qed.

(** Cut where a character starts, well-formed text stays well-formed. *)
Lemma utf8_cut n value cut :
  (length value <= n)%nat -> utf8_ok value = true ->
  (forall b, value !! cut = Some b -> (Z.land b 0xC0 =? 0x80) = false) -> utf8_ok (take cut value) = true.
Proof.
  revert value cut. induction n as [|n IH]; intros value cut Hn Hv Hb.
  { destruct value; [by rewrite take_nil|simpl in Hn; lia]. }
  destruct value as [|a l]; [by rewrite take_nil|]. destruct cut as [|cut]; [done|].
  destruct (utf8_first a l Hv) as (w & rest & -> & Hr & Hw & Hput). cbn [take].
  destruct (decide (cut < length w)%nat) as [Hlt|Hge].
  - exfalso. destruct (lookup_lt_is_Some_2 w cut Hlt) as [b Hcb].
    rewrite Forall_lookup in Hw. pose proof (tail_continues b (Hw cut b Hcb)) as Ht.
    rewrite (Hb b) in Ht; [done|]. change ((w ++ rest) !! cut = Some b). by apply lookup_app_l_Some.
  - rewrite take_app_ge by lia. rewrite Hput. apply IH; [|done|].
    + simpl in Hn. rewrite length_app in Hn. lia.
    + intros b Hcb. apply (Hb b). change ((w ++ rest) !! cut = Some b). by rewrite lookup_app_r by lia.
Qed.

Lemma rune_start_starts value cut :
  (0 < rune_start value cut)%nat ->
  forall b, value !! rune_start value cut = Some b -> (Z.land b 0xC0 =? 0x80) = false.
Proof.
  induction cut as [|c IH]; [simpl; lia|]. cbn [rune_start].
  destruct (Z.land (default 0 (value !! S c)) 0xC0 =? 0x80) eqn:E; [exact IH|].
  intros _ b Hb. rewrite Hb in E. exact E.
Qed.

Lemma truncated_utf8 value limit : utf8_ok value = true -> utf8_ok (truncateUTF8 value limit) = true.
Proof.
  intros Hv. unfold truncateUTF8. destruct (Nat.leb_spec (length value) limit); [done|].
  destruct (rune_start value limit) as [|c] eqn:E; [done|]. eapply utf8_cut; [done|done|].
  rewrite <- E. apply rune_start_starts. lia.
Qed.

(** A request log frame is never refused for its size. Whatever the errors of a record, the
    daemon parses the payload as the record the client clamped: its first four errors, each
    text a prefix of what was given within its ceiling, cut between characters; only a time
    slot outside the day is refused. *)
Theorem request_log_round_trip append decode r payload :
  codec_law append decode -> encodeRequestLog append r = Ok payload -> 0 <= frame r < FRAMES_PER_DAY ->
  parse_request_log decode payload = Ok (clamp_record r) /\
  (length payload <= REQUEST_LOG_MAX_PAYLOAD_SIZE)%nat /\
  (forall k e, errors (clamp_record r) !! k = Some e -> (k < 4)%nat /\ exists e0, errors r !! k = Some e0 /\ id e = id e0 /\
     code_line e `prefix_of` code_line e0 /\ text e `prefix_of` text e0 /\
     (utf8_ok (code_line e0) = true -> utf8_ok (code_line e) = true) /\
     (utf8_ok (text e0) = true -> utf8_ok (text e) = true)).
Proof.
  intros Hc (p & Hp & He)%result_bind_ok Hf. destruct (_ <? _)%nat eqn:Esz; [done|]. injection He as ->.
  apply Nat.ltb_ge in Esz. apply Hc in Hp. split; [|split; [done|]].
  - unfold parse_request_log. rewrite Hp. cbn [ok_or mbind result_bind].
    assert (frame (clamp_record r) = frame r) as -> by done. destruct (Z.leb_spec FRAMES_PER_DAY (frame r)); [lia|].
    assert (errors (clamp_record r) = clamp_error <$> take 4 (errors r)) as -> by done.
    unfold ReqLog.MAX_ERRORS_PER_REQUEST. destruct (Z.ltb_spec 4 (zlen (clamp_error <$> take 4 (errors r)))) as [Hlt|_].
    { rewrite length_fmap, length_take in Hlt. lia. }
    assert (forall n es, check_entries n (clamp_error <$> es) = Ok tt) as ->; [|done].
    intros n es. revert n. induction es as [|e es IH]; intros n; [done|]. cbn [fmap list_fmap check_entries clamp_error code_line text].
    pose proof (truncated_length (code_line e) 64). pose proof (truncated_length (text e) 200).
    unfold MAX_CODE_LINE_BYTES, MAX_ERROR_TEXT_BYTES.
    destruct (Z.ltb_spec 64 (zlen (truncateUTF8 (code_line e) 64))); [lia|].
    destruct (Z.ltb_spec 200 (zlen (truncateUTF8 (text e) 200))); [lia|]. apply IH.
  - intros k e Hk. cbn [clamp_record errors] in Hk. apply list_lookup_fmap_Some in Hk as (e0 & -> & Hk).
    apply lookup_take_Some in Hk as [Hk Hlt]. split; [done|]. exists e0. cbn [clamp_error id code_line text].
    assert (forall v l, truncateUTF8 v l `prefix_of` v) as Hpre.
    { intros v l. unfold truncateUTF8. destruct (_ <=? _)%nat; [done|apply prefix_take]. }
    split_and!; try done; by apply truncated_utf8.
Qed.

(** ** Retries *)

Section Retries.
Context {A : Type} (connect : nat -> result unit bool) (exchange : nat -> result Failure A).

(** A call makes at most two exchanges, and the second only when the first went wrong, for
    another reason than the context, on a connection that was already open; [requestOnce]
    makes one. A result is that of the last exchange. *)
Lemma request_exchanges :
  let '(r, n) := request connect exchange in
  (n <= 2)%nat /\ (r = Err ErrFarewardUnavailable \/ exists x, r = Ok x /\ exchange (n - 1)%nat = Ok x) /\
  (n = 2%nat -> connect 0%nat = Ok true /\ exists e, exchange 0%nat = Err e /\ by_context e = false).
Proof.
  unfold request. cbn [request_loop]. destruct (connect 0%nat) as [reused|[]] eqn:Ec.
  2: { split; [lia|]. split; [by left|done]. }
  destruct (exchange 0%nat) as [x|e] eqn:E0.
  { split; [lia|]. split; [right; by exists x|done]. }
  rewrite andb_true_r. destruct reused; cbn [andb].
  2: { split; [lia|]. split; [by left|done]. }
  destruct (by_context e) eqn:Eb; cbn [negb].
  { split; [lia|]. split; [by left|done]. }
  destruct (connect 1%nat) as [reused|[]].
  2: { split; [lia|]. split; [by left|done]. }
  destruct (exchange 1%nat) as [x|e'] eqn:E1.
  { split; [lia|]. split; [right; by exists x|]. intros _. split; [done|]. by exists e. }
  cbn [Nat.eqb andb]. rewrite andb_false_r. cbn [andb]. split; [lia|]. split; [by left|]. intros _. split; [done|]. by exists e.
Qed.

Lemma requestOnce_exchanges : ((requestOnce connect exchange).2 <= 1)%nat.
Proof. unfold requestOnce. destruct (connect 0%nat); [|simpl; lia]. destruct (exchange 0%nat); simpl; lia. Qed.

End Retries.

(** ** Samples *)

Module OperationSample.
Import ServerLaws.Sample.

(** Stand-ins for the codec: a frame is the list of its fields. *)
Definition append_charge (f : ChargeFrame) : result GoError bytes :=
  Ok [cf_company_id f; cf_user_id f; cf_route_id f; cf_cpu f; cf_inference f; Z.b2z (extra_allowed f);
      access1 f; access2 f; access3 f; access4 f].
Definition decode_charge (bs : bytes) : option ChargeFrame :=
  match bs with
  | [co; us; ro; cpu; inf; ex; a1; a2; a3; a4] => Some (mkChargeFrame co us ro cpu inf (ex =? 1) a1 a2 a3 a4)
  | _ => None
  end.

Lemma charge_codec : codec_law append_charge decode_charge.
Proof. intros [] payload [= <-]. by destruct extra_allowed. Qed.

(** ** A retry is not only for a dead connection

    [request] retries any failure of an open connection that is not the context's, the timer
    of [exchange] included. A charge the daemon is slow to answer is then sent again, on the
    same connection, and both are judged and counted. *)

Definition charge_payload : bytes := [7; 42; 103; 300; 0; 0; 0; 0; 0; 0].

(** The [exchange] of an attempt, up to the wait. *)
Definition charge_events (i : nat) : list LinkEvent :=
  [AtClient (Call i ChargeCredits charge_payload (0, 0)); AtClient (TakeSlot i); AtClient (Write i Written); Frame 0].

Theorem late_charge_is_sent_twice :
  let l := link_run sample_digest list_eq decode_charge none one_acquire one_release none none (fun _ g => [g])
             lock_limits key32 4 4
             (charge_events 0 ++ [AtClient (GiveUp 0)] ++ charge_events 1) (linked nonce8) in
  let h := Running (HCharge (mkRequest 7 42 103 (mkCredits 300 0) [0; 0; 0; 0] false)) in
  (c_state <$> callers (mux l) !! 0%nat) = Some (Returned (Err GaveUpBeforeReply)) /\
  closed (mux l) = false /\ handlers (conn l) = [(0, h); (1, h)] /\
  (request (fun _ => Ok true) (fun k => match k with
     | O => Err (mkFailure GaveUpBeforeReply false)
     | _ => Ok (delivered Wire.ChargeAllowed) end)) = (Ok (delivered Wire.ChargeAllowed), 2%nat).
Proof. vm_compute. done. Qed.

(** A charge that got no answer fails closed, with an error that [IsCreditRateLimitError] does
    not identify, though it is said to identify transport failures. *)
Theorem unanswered_charge_is_no_credit_error :
  Charge append_charge (fun _ _ => Err ErrFarewardUnavailable) 7 42 103 300 0 [] false = Some (Err ErrFarewardUnavailable) /\
  IsCreditRateLimitError ErrFarewardUnavailable = false.
Proof. done. Qed.

Lemma charge_round_trip_witness :
  encodeCharge append_charge 7 42 103 300 0 [28; 57] true = Ok [7; 42; 103; 300; 0; 1; 28; 57; 0; 0] /\
  parse_charge decode_charge [7; 42; 103; 300; 0; 1; 28; 57; 0; 0] =
    Ok (mkRequest 7 42 103 (mkCredits 300 0) [28; 57; 0; 0] true).
Proof.
  assert (encodeCharge append_charge 7 42 103 300 0 [28; 57] true = Ok [7; 42; 103; 300; 0; 1; 28; 57; 0; 0]) as He
    by reflexivity.
  split; [exact He|].
  exact (proj1 (proj2 (charge_round_trip append_charge decode_charge 7 42 103 300 0 [28; 57] true charge_codec
    (fun f => ex_intro _ _ eq_refl)) _ He)).
Defined.

Lemma gate_fails_closed_witness :
  chargeConfiguredCredits append_charge (Some (fun _ _ => Ok (delivered (ChargeGranted 1 1 [6])))) 1 42 103 300 0 [28] true =
    Some (Ok (Some (mkGrant 1 {[0%nat := [6]]}))) /\ GrantedSlots (mkGrant 1 {[0%nat := [6]]}) <> 0.
Proof.
  assert (chargeConfiguredCredits append_charge (Some (fun _ _ => Ok (delivered (ChargeGranted 1 1 [6])))) 1 42 103 300 0 [28] true =
    Some (Ok (Some (mkGrant 1 {[0%nat := [6]]})))) as Hc by reflexivity.
  split; [exact Hc|]. assert ([28] <> []) as Hne by discriminate.
  exact (proj1 (gate_fails_closed append_charge _ 1 42 103 300 0 [28] true _ Hne Hc)).
Defined.

(** The request of the sample state's own test, and its verdict. *)
Lemma charge_decision_reaches_caller_witness :
  verdict sample_state (padded [28; 57; 64]) = Some (Ok (mkAccessVerdict 5 4 [0x81; 0x20])) /\
  charge_answer [28; 57; 64] (delivered (granted_reply (mkAccessVerdict 5 4 [0x81; 0x20]))) =
    Some (Ok (Some (mkGrant 5 {[2%nat := [0x81; 0x20]]}))) /\
  exists ws es, state_reads sample_state ws es /\ reads_verdict ws es [28; 57; 64] (mkGrant 5 {[2%nat := [0x81; 0x20]]}).
Proof.
  assert (verdict sample_state (padded [28; 57; 64]) = Some (Ok (mkAccessVerdict 5 4 [0x81; 0x20]))) as Hv by reflexivity.
  assert (charge_answer [28; 57; 64] (delivered (granted_reply (mkAccessVerdict 5 4 [0x81; 0x20]))) =
    Some (Ok (Some (mkGrant 5 {[2%nat := [0x81; 0x20]]})))) as Ha by (vm_compute; reflexivity).
  split; [exact Hv|]. split; [exact Ha|].
  destruct (charge_decision_reaches_caller (Some sample_row) 1000 sample_state [28; 57; 64]
    (mkRequest 7 42 103 (mkCredits 300 0) (padded [28; 57; 64]) true)
    (Ok (Quota.Allowed (mkAccessVerdict 5 4 [0x81; 0x20])))) as (ws & es & Hr & H).
  - simpl. unfold sample_subs. solve_bytes.
  - reflexivity.
  - unfold MaxRequiredAccess. simpl. lia.
  - repeat constructor; lia.
  - reflexivity.
  - exact (fun _ => Hv).
  - exists ws, es. split; [exact Hr|].
    assert (charge_reply (mkRequest 7 42 103 (mkCredits 300 0) (padded [28; 57; 64]) true)
      (Ok (Quota.Allowed (mkAccessVerdict 5 4 [0x81; 0x20]))) = granted_reply (mkAccessVerdict 5 4 [0x81; 0x20])) as Hc by reflexivity.
    rewrite Hc, Ha in H. exact (proj2 H).
Defined.

Lemma sequence_round_trip_witness :
  reserve_payload [97; 98] 5 = Ok [0; 0; 0; 5; 97; 98] /\
  parse_reserve [0; 0; 0; 5; 97; 98] = Ok (mkReserveRequest [97; 98] 5) /\
  go_ReserveSequence (Some (fun _ _ => Ok (delivered (sequence_reply (Ok 41))))) [97; 98] 5 = Ok 41.
Proof.
  assert (reserve_payload [97; 98] 5 = Ok [0; 0; 0; 5; 97; 98]) as Hp by reflexivity.
  assert (in_i64 41) as Hv by (unfold in_i64, I64_MIN, I64_MAX; lia).
  split; [exact Hp|].
  destruct (sequence_round_trip [97; 98] 5 [0; 0; 0; 5; 97; 98] (fun _ _ => Ok (delivered (sequence_reply (Ok 41)))))
    as (H1 & _ & H3 & _).
  split; [exact (H1 Hp)|exact (H3 41 Hv Hp eq_refl)].
Defined.

End OperationSample.
