(* ===== verification/LockServiceLaws.v ===== *)
(** * LockServiceLaws: no lock has two owners, across connections

    The invariant of LockService.v's machine: every lock a connection has, in [held] or in a
    report, is a live guard of the registry for that key and generation, kept once and by one
    connection. From it: mutual exclusion between connections, the refinement of
    [lock_spec], and that a reported grant never replaces a hold. *)

From stdpp Require Import strings.
From S2P Require Import Prelude SipHash FrameAuth TimeFrame CreditsBlob Aggregation Storage Access.
From S2P Require Import ChargeProtocol Quota LockRegistry LockSafety Sequence ReqLog Wire.
From S2P Require Import Server ServerLaws LockService.

(** ** Generic *)

Lemma submseteq_insert {A} (m : gmap LockKey A) k x :
  map_to_list (<[k := x]> m) ⊆+ (k, x) :: map_to_list m.
Proof.
  rewrite <- insert_delete_eq, map_to_list_insert by apply lookup_delete_eq.
  apply submseteq_skip, map_to_list_submseteq, delete_subseteq.
Qed.

Lemma NoDup_sub {A} (l1 l2 : list A) : l1 ⊆+ l2 -> NoDup l2 -> NoDup l1.
Proof. intros [k Hk]%submseteq_Permutation. rewrite Hk. by intros [? _]%NoDup_app. Qed.

(** The key of the lock a task is about. *)
Definition pc_key (p : Pc) : option LockKey :=
  match p with
  | PStart r | PCancelled r _ => Some (request_key r)
  | PDone _ => None
  | _ => fst <$> LockRegistry.handle p
  end.

(** The key stays and the new place is not a hold. *)
Ltac by_moved := split; [first [by left|by right]|intros; congruence].

Lemma step_local {Sem} `{!Semaphore Sem} limits t (s s' : Registry Sem) :
  LockRegistry.step limits t s s' -> exists p p',
    tasks s !! t = Some p /\ tasks s' = <[t := p']> (tasks s) /\
    (pc_key p' = pc_key p \/ pc_key p' = None) /\
    (forall k e g, p' = PHold k e g -> p = PGuard k e).
Proof.
  assert (Hw : forall e f (x : Registry Sem), tasks (with_entry e f x) = tasks x).
  { intros e f x. unfold with_entry. by destruct (heap x !! e). }
  intros Hs. destruct Hs; try (case_match; [|]); eexists _, _; (split; [eassumption|]);
    cbn [tasks set_pc]; rewrite ?Hw; try (split; [done|]; by_moved).
  - assert (tasks s1 = tasks s) as ->
      by (match goal with He : LockRegistry.entry_for _ _ _ _ = _ |- _ => unfold LockRegistry.entry_for in He end;
          repeat case_match; simplify_eq; done).
    split; [done|]. by_moved.
  - assert (tasks s1 = tasks s) as ->
      by (match goal with He : LockRegistry.entry_for _ _ _ _ = _ |- _ => unfold LockRegistry.entry_for in He end;
          repeat case_match; simplify_eq; done).
    split; [done|]. by_moved.
  - assert (tasks (prune key e s) = tasks s) as -> by (unfold prune; by case_match).
    split; [done|]. by_moved.
Qed.

(** ** What an event does to a connection's locks *)

Section Conns.
Context (sha256 : bytes -> bytes) (ct_eq : bytes -> bytes -> bool).
Context (decode_charge : bytes -> option ChargeFrame) (decode_budget : bytes -> option BudgetMutationFrame).
Context (decode_acquire : bytes -> option AcquireRequest) (decode_release : bytes -> option ReleaseRequest).
Context (decode_log : bytes -> option RequestLogRecord) (decode_invalidation : bytes -> option AccessInvalidation).
Variable limits : LockLimits.
Variable secret : bytes.
Variable max_inflight : nat.

Abbreviation conn_step := (Server.step sha256 ct_eq decode_charge decode_budget decode_acquire
  decode_release decode_log decode_invalidation limits secret max_inflight).
Abbreviation on_frame := (on_frame sha256 ct_eq decode_charge decode_budget decode_acquire
  decode_release decode_log decode_invalidation limits secret max_inflight).
Abbreviation dispatch := (dispatch decode_charge decode_budget decode_acquire decode_release decode_log
  decode_invalidation limits).

(** [c'] keeps no lock that [c] does not, and no call but one of a new frame. *)
Record evolves (c c' : Conn) : Prop := {
  ev_entries : entries c' ⊆+ entries c;
  ev_sequence : sequence c <= sequence c';
  ev_awaits sq r : awaits c' sq r = true -> awaits c sq r = true \/ sq = sequence c;
}.

Lemma evolves_close stop c : evolves c (close stop c).
Proof. split; simpl; [apply submseteq_nil_l|lia|done]. Qed.

Lemma evolves_expire now c : evolves c (expire now c).
Proof.
  destruct (expire_same now c) as (Es & Eh & _ & _ & _ & Eo & _). split.
  - unfold entries. rewrite Eo, expire_held. apply submseteq_app; [|done].
    apply map_to_list_submseteq, map_filter_subseteq.
  - lia.
  - unfold awaits. rewrite Eh. by left.
Qed.

Lemma evolves_trans c1 c2 c3 : sequence c2 = sequence c1 -> evolves c1 c2 -> evolves c2 c3 -> evolves c1 c3.
Proof.
  intros E [H1 H2 H3] [G1 G2 G3]. split; [by etrans|lia|]. intros sq r [?%H3| ->]%G3; [done|].
  right. congruence.
Qed.

Lemma awaits_app c c' l sq r :
  handlers c' = handlers c ++ l -> awaits c' sq r = true ->
  awaits c sq r = true \/ exists h, (sq, h) ∈ l.
Proof.
  unfold awaits. intros ->. rewrite existsb_app. intros [?|H]%orb_true_iff; [by left|right].
  apply existsb_exists in H as ([sq' h] & Hin & Hh). simpl in Hh.
  repeat case_match; try done. fw_bool. destruct Hh as [-> _]. eexists. by apply list_elem_of_In.
Qed.

Lemma evolves_dispatch o payload permitted c :
  evolves c (dispatch o payload (sequence c) permitted (accept_frame o c)).
Proof.
  assert (Hq : forall c', held c' = held c -> outcomes c' = outcomes c -> sequence c <= sequence c' ->
    (exists l, handlers c' = handlers c ++ l /\ forall sq h, (sq, h) ∈ l -> sq = sequence c) -> evolves c c').
  { intros c' Eh Eo Hs (l & El & Hl). split; [unfold entries; by rewrite Eh, Eo|done|].
    intros sq r Ha. destruct (awaits_app c c' l sq r El Ha) as [?|[h Hh]]; [by left|right; by eapply Hl]. }
  assert (Hs : forall c', handlers c' = handlers c -> held c' = held c -> outcomes c' = outcomes c ->
    sequence c <= sequence c' -> evolves c c').
  { intros c' E1 E2 E3 E4. apply Hq; try done. exists []. rewrite E1, app_nil_r. split; [done|].
    by intros ? ? ?%not_elem_of_nil. }
  assert (Hn : forall h, evolves c (spawn_handler (sequence c) h (accept_frame o c))).
  { intros h. apply Hq; simpl; [done|done|lia|]. exists [(sequence c, Running h)]. split; [done|].
    by intros sq h' [= -> _]%list_elem_of_singleton. }
  assert (Hc : forall stop, evolves c (close stop (accept_frame o c))).
  { intros stop. split; simpl; [apply submseteq_nil_l|lia|done]. }
  destruct o; simpl; try (case_match; try case_match; subst; solve [auto|apply Hs; simpl; auto; lia]).
  destruct (parse_release _ _) as [r|]; [|by apply Hc].
  unfold release_lock. simpl.
  destruct (held c !! _) as [lock|]; [|apply Hs; simpl; auto; lia].
  destruct (_ =? _); [|apply Hs; simpl; auto; lia].
  split; simpl; [|lia|by left]. unfold entries. simpl. apply submseteq_app; [|done].
  apply map_to_list_submseteq, delete_subseteq.
Qed.

Lemma evolves_frame stream c : evolves c (on_frame stream c).1.
Proof.
  unfold Server.on_frame. destruct (read_frame stream) as [[[[[o signed] payload] tag] rest]|stop]; simpl;
    [|apply evolves_close].
  destruct (verify_hash _ _ _ _ _ _ _); [|apply evolves_close].
  destruct (sequence c =? U64_MAX); [apply evolves_close|]. apply evolves_dispatch.
Qed.

Lemma evolves_report c : evolves c (on_report c).
Proof.
  unfold on_report. destruct (outcomes c) as [|[key [lock|]] rest] eqn:Eo; simpl.
  - split; [done|lia|by left].
  - split; simpl; [|lia|by left]. unfold entries. simpl. rewrite Eo. simpl.
    etrans; [by apply submseteq_app; [apply submseteq_insert|]|]. simpl.
    by rewrite Permutation_middle.
  - split; simpl; [|lia|by left]. unfold entries. simpl. by rewrite Eo.
Qed.

Lemma awaits_elem c sq r :
  awaits c sq r = true <-> exists lease, (sq, Running (HAcquire r lease)) ∈ handlers c.
Proof.
  unfold awaits. rewrite existsb_exists. split.
  - intros ([sq' h] & Hin & Hh). simpl in Hh. repeat case_match; try done. fw_bool.
    destruct Hh as [-> ->]. eexists. by apply list_elem_of_In.
  - intros [lease Hin]. exists (sq, Running (HAcquire r lease)). split; [by apply list_elem_of_In|].
    simpl. by rewrite bool_decide_eq_true.
Qed.

(** Handlers that only move on, or go, await nothing new. *)
Lemma awaits_shrinks c c' sq r :
  (forall x h, (x, Running h) ∈ handlers c' -> (x, Running h) ∈ handlers c) ->
  awaits c' sq r = true -> awaits c sq r = true.
Proof. intros H [lease Hin]%awaits_elem. apply awaits_elem. eauto. Qed.

Lemma running_insert (hs : list (Z * HandlerState)) i s r x h :
  (x, Running h) ∈ <[i := (s, Answering r)]> hs -> (x, Running h) ∈ hs.
Proof.
  intros [j Hj]%list_elem_of_lookup.
  apply list_lookup_insert_Some in Hj as [(_ & [=] & _)|[_ Hj]]. by eapply list_elem_of_lookup_2.
Qed.

Lemma evolves_complete c c1 i s h outcome reply :
  handlers c !! i = Some (s, Running h) ->
  c1 = set_outcomes (outcomes c ++ from_option (fun o => [o]) [] outcome) c ->
  let c' := match reply with
            | Some r => set_handlers (<[i := (s, Answering r)]> (handlers c)) c1
            | None => set_handlers (delete_at i (handlers c)) c1
            end in
  sequence c' = sequence c /\
  entries c' = entries c ++ from_option (fun e => [e]) [] (outcome ≫= entry_of) /\
  (forall sq r, awaits c' sq r = true -> awaits c sq r = true).
Proof.
  intros Hi ->. destruct reply as [rep|]; simpl; (split; [done|]); split.
  1,3: unfold entries; simpl; rewrite omap_app; rewrite app_assoc; f_equal;
       by destruct outcome as [[k [l|]]|].
  - intros sq r. apply awaits_shrinks. simpl. intros x h'. apply running_insert.
  - intros sq r. apply awaits_shrinks. simpl. intros x h'. apply elem_delete_at.
Qed.

Lemma evolves_event e c : is_acquire_return e = false -> evolves c (conn_step e c).
Proof.
  intros He. unfold Server.step. destruct (stopped c) as [st|]; [by split; [|lia|left]|].
  assert (Hx : forall now c', evolves (expire now c) c' -> evolves c c').
  { intros now c'. apply evolves_trans; [by destruct (expire_same now c)|apply evolves_expire]. }
  destruct e as [now stream|now|now|now|i r|i].
  - apply (Hx now), evolves_frame.
  - apply (Hx now), evolves_report.
  - apply (Hx now). unfold on_timeout. case_bool_decide; [apply evolves_close|by split; [|lia|left]].
  - apply (Hx now), evolves_close.
  - destruct (handlers c !! i) as [[s [h|r']]|] eqn:Hi; try by split; [|lia|left].
    destruct (complete h r) as [[outcome reply]|] eqn:Ec; [|by split; [|lia|left]].
    assert (outcome = None) as ->.
    { unfold complete in Ec. destruct h, r; try done; by repeat case_match; simplify_eq. }
    destruct (evolves_complete c _ i s h None reply Hi eq_refl) as (E1 & E2 & E3).
    split; [by rewrite E2, app_nil_r|lia|]. intros sq r0 Ha. left. by apply E3.
  - destruct (handlers c !! i) as [[s [h|r']]|] eqn:Hi; try by split; [|lia|left].
    split; [done|simpl; lia|]. intros sq r0 Ha. left. revert Ha. apply awaits_shrinks. simpl.
    intros x h'. apply elem_delete_at.
Qed.

(** An ended connection has nothing left. *)
Definition closed_empty (c : Conn) : Prop :=
  stopped c <> None -> held c = ∅ /\ handlers c = [] /\ outcomes c = [].

Lemma closed_open c : stopped c = None -> closed_empty c.
Proof. by intros E Hn. Qed.

Lemma closed_close stop c : closed_empty (close stop c).
Proof. done. Qed.

Lemma closed_dispatch o payload s permitted c :
  stopped c = None -> closed_empty (dispatch o payload s permitted c).
Proof.
  intros Hc. destruct o; simpl; try (case_match; try case_match; subst; first [apply closed_close|by apply closed_open]).
Qed.

Lemma closed_step e c : closed_empty c -> closed_empty (conn_step e c).
Proof.
  intros Hc. unfold Server.step. destruct (stopped c) as [st|] eqn:Hst; [done|].
  assert (Hx : forall now, stopped (expire now c) = None).
  { intros now. destruct (expire_same now c) as (_ & _ & _ & E & _). congruence. }
  destruct e as [now stream|now|now|now|i r|i].
  - unfold Server.on_frame. destruct (read_frame stream) as [[[[[o signed] payload] tag] rest]|stop]; [|done].
    destruct (verify_hash _ _ _ _ _ _ _); [|done]. destruct (_ =? U64_MAX); [done|].
    apply closed_dispatch. simpl. by rewrite Hx.
  - apply closed_open. rewrite <- (Hx now). unfold on_report. by repeat case_match.
  - unfold on_timeout. case_bool_decide; [done|]. by apply closed_open.
  - done.
  - apply closed_open. repeat case_match; simplify_eq; simpl; done.
  - apply closed_open. repeat case_match; simplify_eq; simpl; done.
Qed.

(** A returning acquire adds its lock to the reports, if it was granted. *)
Lemma evolves_return c i sq r lease t o now :
  handlers c !! i = Some (sq, Running (HAcquire r lease)) ->
  let c' := conn_step (Complete i (RAcquire t o now)) c in
  sequence c' = sequence c /\
  entries c' ⊆+ entries c ++ match o with
                            | Acquired g => [(request_key r, mkHeldLock t g (now + lease))]
                            | _ => []
                            end /\
  (forall sq' r', awaits c' sq' r' = true -> awaits c sq' r' = true).
Proof.
  intros Hi. cbv zeta. unfold Server.step. destruct (stopped c) as [st|].
  { split; [done|]. split; [apply submseteq_inserts_r|]; done. }
  rewrite Hi. unfold complete.
  destruct o; cbn [acquire_reply];
    match goal with |- context [set_outcomes (_ ++ from_option _ _ (Some ?x)) _] =>
      match goal with |- context [Answering ?rep] =>
        destruct (evolves_complete c _ i sq _ (Some x) (Some rep) Hi eq_refl) as (E1 & E2 & E3) end end;
    (split; [exact E1|]); (split; [|exact E3]); rewrite E2; simpl; by rewrite ?app_nil_r.
Qed.

End Conns.

(** ** The invariant of the machine *)

Section Machine.
Context {Sem : Type} `{SL : SemaphoreLaws Sem}.
Context (sha256 : bytes -> bytes) (ct_eq : bytes -> bytes -> bool).
Context (decode_charge : bytes -> option ChargeFrame) (decode_budget : bytes -> option BudgetMutationFrame).
Context (decode_acquire : bytes -> option AcquireRequest) (decode_release : bytes -> option ReleaseRequest).
Context (decode_log : bytes -> option RequestLogRecord) (decode_invalidation : bytes -> option AccessInvalidation).
Variable limits : LockLimits.
Variable secret : bytes.
Variable max_inflight : nat.

Abbreviation Svc := (Service Sem).
Abbreviation conn_step := (Server.step sha256 ct_eq decode_charge decode_budget decode_acquire
  decode_release decode_log decode_invalidation limits secret max_inflight).
Abbreviation step := (LockService.step sha256 ct_eq decode_charge decode_budget decode_acquire
  decode_release decode_log decode_invalidation limits secret max_inflight).
Abbreviation reachable := (service_reachable sha256 ct_eq decode_charge decode_budget decode_acquire
  decode_release decode_log decode_invalidation limits secret max_inflight).

Record SInv (s : Svc) : Prop := {
  v_lock : LockSafety.Inv (registry s);
  v_caller : forall t i sq r, callers s !! t = Some (i, sq, r) ->
    exists c p, conns s !! i = Some c /\ sq < sequence c /\ tasks (registry s) !! t = Some p /\
      (pc_key p = Some (request_key r) \/ pc_key p = None);
  v_conn : forall i c, conns s !! i = Some c -> ServerLaws.Inv max_inflight c /\ closed_empty c;
  v_entry : forall i c key lock, conns s !! i = Some c -> (key, lock) ∈ entries c ->
    exists e, tasks (registry s) !! guard lock = Some (PHold key e (generation lock));
  v_nodup : forall i c, conns s !! i = Some c -> NoDup (guards c);
  v_disjoint : forall i j c d t, conns s !! i = Some c -> conns s !! j = Some d ->
    t ∈ guards c -> t ∈ guards d -> i = j;
  v_fresh : forall t x i c, callers s !! t = Some x -> conns s !! i = Some c -> t ∉ guards c;
}.

Lemma awaits_below c sq r : ServerLaws.Inv max_inflight c -> awaits c sq r = true -> sq < sequence c.
Proof. intros I [lease Hin]%awaits_elem. pose proof (iv_handlers _ c I _ _ Hin). lia. Qed.

Lemma guards_elem c t : t ∈ guards c -> exists key lock, (key, lock) ∈ entries c /\ guard lock = t.
Proof. unfold guards. intros ([key lock] & -> & Hin)%list_elem_of_fmap. eauto. Qed.

Lemma entries_guard c key lock : (key, lock) ∈ entries c -> guard lock ∈ guards c.
Proof. intros Hin. unfold guards. by apply (list_elem_of_fmap_2 (fun kl => guard kl.2)) in Hin. Qed.

Lemma guards_submseteq c c' l : entries c' ⊆+ entries c ++ l -> guards c' ⊆+ guards c ++ (guard ∘ snd <$> l).
Proof. intros He. unfold guards. rewrite <- fmap_app. by apply fmap_submseteq. Qed.

Lemma keeps_live (s : Svc) t i : keeps s t i = true -> live s t = true.
Proof.
  intros Hk. unfold live. apply existsb_exists. assert (exists c, conns s !! i = Some c) as [c Hc].
  { unfold keeps in Hk. destruct (conns s !! i); [eauto|done]. }
  exists (i, c). split; [|done]. apply list_elem_of_In. by apply elem_of_map_to_list.
Qed.

Lemma guards_live (s : Svc) t i c : conns s !! i = Some c -> t ∈ guards c -> live s t = true.
Proof.
  intros Hc Ht. apply (keeps_live s t i). unfold keeps. rewrite Hc.
  apply orb_true_iff. left. by apply bool_decide_eq_true.
Qed.

Lemma sinv_new : SInv service_new.
Proof.
  split; simpl; by intros *; rewrite ?lookup_empty.
Qed.

Lemma sinv_open (s : Svc) i n : SInv s -> conns s !! i = None -> SInv (with_conn i (connection n) s).
Proof.
  intros [V1 V2 V3 V4 V5 V6 V7] Hi. split; simpl; [done|..].
  - intros t j sq r Hc. destruct (V2 t j sq r Hc) as (c & p & ? & ?).
    exists c, p. split; [|done]. by rewrite lookup_insert_ne by congruence.
  - intros j c [[<- <-]|[_ Hc]]%lookup_insert_Some; [by split; [apply inv_connection|apply closed_open]|eauto].
  - intros j c key lock [[<- <-]|[_ Hc]]%lookup_insert_Some; [by intros ?%not_elem_of_nil|eauto].
  - intros j c [[<- <-]|[_ Hc]]%lookup_insert_Some; [apply NoDup_nil_2|eauto].
  - intros j k c d t [[<- <-]|[_ Hc]]%lookup_insert_Some [[<- <-]|[_ Hd]]%lookup_insert_Some;
      try by intros ?%not_elem_of_nil. { by intros _ ?%not_elem_of_nil. } by apply (V6 j k).
  - intros t x j c Ht [[<- <-]|[_ Hc]]%lookup_insert_Some; [by intros ?%not_elem_of_nil|eauto].
Qed.

(** A connection that loses locks, or gains the one of a task nobody keeps. *)
Lemma sinv_conn (s : Svc) i c c' l cs :
  SInv s -> conns s !! i = Some c -> entries c' ⊆+ entries c ++ l ->
  sequence c <= sequence c' ->
  ServerLaws.Inv max_inflight c' /\ closed_empty c' ->
  (forall t x, cs !! t = Some x -> callers s !! t = Some x) ->
  l = [] \/ (exists key lock e x, l = [(key, lock)] /\ callers s !! guard lock = Some x /\
    cs !! guard lock = None /\
    tasks (registry s) !! guard lock = Some (PHold key e (generation lock))) ->
  SInv (mkService (registry s) (<[i := c']> (conns s)) cs).
Proof.
  intros [V1 V2 V3 V4 V5 V6 V7] Hc He Hs Ha Hcs Hl.
  assert (Hg : forall t, t ∈ guards c' -> t ∈ guards c \/ exists key lock, l = [(key, lock)] /\ t = guard lock).
  { intros t Ht. eapply elem_of_submseteq in Ht; [|by apply guards_submseteq].
    apply elem_of_app in Ht as [?|Ht]; [by left|right].
    destruct Hl as [->|(key & lock & e & x & -> & _)]; [by apply not_elem_of_nil in Ht|].
    apply list_elem_of_singleton in Ht as ->. eauto. }
  assert (Hn : forall j d key lock, conns s !! j = Some d -> l = [(key, lock)] -> guard lock ∉ guards d).
  { intros j d key lock Hd E. destruct Hl as [->|(k' & l' & e & x & -> & Hx & _)]; [done|].
    injection E as -> ->. by apply (V7 _ x j). }
  split; simpl; [done|..].
  - intros t j sq r Ht. destruct (V2 t j sq r (Hcs _ _ Ht)) as (d & p & Hd & ? & ?).
    destruct (decide (j = i)) as [->|].
    + exists c', p. rewrite lookup_insert_eq. simplify_eq. split; [done|]. split; [lia|done].
    + exists d, p. by rewrite lookup_insert_ne by done.
  - intros j d [[<- <-]|[_ Hd]]%lookup_insert_Some; eauto.
  - intros j d key lock [[<- <-]|[_ Hd]]%lookup_insert_Some Hin; [|eauto].
    eapply elem_of_submseteq in Hin; [|exact He]. apply elem_of_app in Hin as [?|Hin]; [eauto|].
    destruct Hl as [->|(k' & l' & e & x & -> & _ & _ & Hp)]; [by apply not_elem_of_nil in Hin|].
    apply list_elem_of_singleton in Hin as [= -> ->]. eauto.
  - intros j d [[<- <-]|[_ Hd]]%lookup_insert_Some; [|eauto].
    eapply NoDup_sub; [by apply guards_submseteq|]. apply NoDup_app. split; [eauto|].
    destruct Hl as [->|(k' & l' & e & x & -> & Hx & _)]; [split; [by intros ? _ ?%not_elem_of_nil|apply NoDup_nil_2]|].
    split; [|apply NoDup_singleton]. intros t Ht ->%list_elem_of_singleton. by eapply Hn.
  - intros j k d f t [[<- <-]|[? Hd]]%lookup_insert_Some [[<- <-]|[? Hf]]%lookup_insert_Some; try done.
    + intros [Ht|(key & lock & -> & ->)]%Hg Hf'; [by apply (V6 i k c f t)|by eapply Hn in Hf'].
    + intros Hd' [Ht|(key & lock & -> & ->)]%Hg; [by apply (V6 j i d c t)|by eapply Hn in Hd'].
    + by apply (V6 j k d f t).
  - intros t x j d Ht [[<- <-]|[_ Hd]]%lookup_insert_Some; [|eauto].
    intros [Hin|(key & lock & -> & ->)]%Hg; [by apply (V7 t x i c (Hcs _ _ Ht) Hc)|].
    destruct Hl as [?|(k' & l' & e & y & [= <- <-] & _ & Hno & _)]; [done|]. congruence.
Qed.

Lemma sinv_call (s : Svc) i c t sq r :
  SInv s -> conns s !! i = Some c -> awaits c sq r = true -> tasks (registry s) !! t = None ->
  SInv (mkService (set_pc t (PStart r) (registry s)) (conns s) (<[t := (i, sq, r)]> (callers s))).
Proof.
  intros [V1 V2 V3 V4 V5 V6 V7] Hc Ha Ht. split; simpl; try done.
  - apply (inv_spawn t (registry s)); [done|]. by constructor.
  - intros t' j sq' r' [[<- [= <- <- <-]]|[Hne Hx]]%lookup_insert_Some.
    + exists c, (PStart r). rewrite lookup_insert_eq. split; [done|]. split; [by eapply awaits_below; [apply (V3 i c Hc)|]|].
      split; [done|]. by left.
    + rewrite lookup_insert_ne by done. by apply V2.
  - intros j d key lock Hd Hin. destruct (V4 j d key lock Hd Hin) as [e He]. exists e.
    rewrite lookup_insert_ne; [done|]. congruence.
  - intros t' x j d [[<- <-]|[Hne Hx]]%lookup_insert_Some Hd; [|by eapply V7].
    intros (key & lock & Hin & E)%guards_elem. destruct (V4 j d key lock Hd Hin) as [e He]. congruence.
Qed.

Lemma sinv_task (s : Svc) t reg p p' :
  SInv s -> LockRegistry.step limits t (registry s) reg ->
  tasks (registry s) !! t = Some p -> tasks reg !! t = Some p' ->
  (drops p p' = true -> live s t = false) -> SInv (with_registry reg s).
Proof.
  intros [V1 V2 V3 V4 V5 V6 V7] Hs Hp Hp' Hd. split; simpl; try done.
  - by eapply inv_step.
  - destruct (step_local limits t _ _ Hs) as (q & q' & Hq & E & Hk & _).
    intros t' i sq r Hx. destruct (V2 t' i sq r Hx) as (c & q0 & Hc & Hlt & Hq0 & Hkey).
    destruct (decide (t' = t)) as [->|Hne].
    + exists c, q'. rewrite E, lookup_insert_eq. simplify_eq. split; [done|]. split; [done|].
      split; [done|]. destruct Hk as [->| ->]; auto.
    + exists c, q0. by rewrite E, lookup_insert_ne by done.
  - destruct (step_local limits t _ _ Hs) as (q & q' & Hq & E & _).
    intros i c key lock Hc Hin. destruct (V4 i c key lock Hc Hin) as [e He]. exists e.
    rewrite E, lookup_insert_ne; [done|]. intros ->. rewrite Hp in He. injection He as ->.
    rewrite (guards_live s (guard lock) i c Hc (entries_guard _ _ _ Hin)) in Hd. by specialize (Hd eq_refl).
Qed.

Lemma sinv_event (s : Svc) i c e :
  SInv s -> conns s !! i = Some c -> is_acquire_return e = false -> SInv (with_conn i (conn_step e c) s).
Proof.
  intros V Hc He.
  destruct (evolves_event sha256 ct_eq decode_charge decode_budget decode_acquire decode_release
    decode_log decode_invalidation limits secret max_inflight e c He) as [E1 E2 E3].
  apply (sinv_conn s i c _ []); [done|done|by rewrite app_nil_r|done| |done|by left].
  destruct (v_conn s V i c Hc). split; [by apply conn_step_inv|by apply closed_step].
Qed.

Lemma sinv_return (s : Svc) i c t k sq r lease p o now :
  SInv s -> conns s !! i = Some c -> callers s !! t = Some (i, sq, r) ->
  handlers c !! k = Some (sq, Running (HAcquire r lease)) ->
  tasks (registry s) !! t = Some p -> returned p = Some o ->
  SInv (mkService (registry s) (<[i := conn_step (Complete k (RAcquire t o now)) c]> (conns s))
          (delete t (callers s))).
Proof.
  intros V Hc Ht Hk Hp Ho.
  destruct (evolves_return sha256 ct_eq decode_charge decode_budget decode_acquire decode_release
    decode_log decode_invalidation limits secret max_inflight c k sq r lease t o now Hk) as (E1 & E2 & _).
  destruct (v_caller s V t i sq r Ht) as (_ & p0 & _ & _ & Hp0 & Hkey).
  eapply (sinv_conn s i c); [done|done|exact E2|lia| | |].
  - destruct (v_conn s V i c Hc). split; [by apply conn_step_inv|by apply closed_step].
  - by intros t' x [_ ?]%lookup_delete_Some.
  - simplify_eq. destruct p as [| | | | | | | | |key e g| | |o'|]; try done; simpl in Ho; simplify_eq.
    + destruct Hkey as [[= ->]|[=]]. right. eexists _, _, e, _. split; [done|]. simpl.
      split; [exact Ht|]. split; [apply lookup_delete_eq|done].
    + left. destruct o'; simplify_eq; done.
Qed.

Lemma sinv_step (s s' : Svc) : SInv s -> step s s' -> SInv s'.
Proof.
  intros V Hs. destruct Hs.
  - by apply sinv_open.
  - by apply sinv_event.
  - by eapply sinv_call.
  - by eapply sinv_task.
  - by eapply sinv_return.
Qed.

Lemma sinv_reachable (s : Svc) : reachable s -> SInv s.
Proof.
  intros Hr. assert (SInv service_new) as V by apply sinv_new. revert V.
  induction Hr as [|s1 s2 s3 Hs _ IH]; [done|]. intros V. by apply IH, (sinv_step s1).
Qed.

(** ** What the service promises *)

Lemma keeps_inj (s : Svc) t i j : SInv s -> keeps s t i = true -> keeps s t j = true -> i = j.
Proof.
  intros V. unfold keeps. destruct (conns s !! i) as [c|] eqn:Hc; [|done].
  destruct (conns s !! j) as [d|] eqn:Hd; [|done].
  intros [Hi|Hi]%orb_true_iff [Hj|Hj]%orb_true_iff; fw_bool; [by eapply v_disjoint| | |].
  - destruct (callers s !! t) as [[[k sq] r]|] eqn:Ht; [|done]. by eapply v_fresh in Ht.
  - destruct (callers s !! t) as [[[k sq] r]|] eqn:Ht; [|done]. by eapply v_fresh in Ht.
  - destruct (callers s !! t) as [[[k sq] r]|]; [|done].
    apply andb_true_iff in Hi as [Hi _], Hj as [Hj _]. fw_bool. congruence.
Qed.

Lemma owner_of_inj (s : Svc) key i j : SInv s -> owner_of s key i -> owner_of s key j -> i = j.
Proof.
  intros V (t & e & g & Ht & Hi) (t' & e' & g' & Ht' & Hj).
  assert (t' = t) as -> by (eapply hold_unique; [by apply v_lock|done|done]). by eapply keeps_inj.
Qed.

(** Steps that only take ownership away, from one connection. *)
Lemma spec_shrinks (s s' : Svc) i :
  (forall t k e g j, tasks (registry s') !! t = Some (PHold k e g) -> keeps s' t j = true ->
     tasks (registry s) !! t = Some (PHold k e g) /\ keeps s t j = true) ->
  (forall t k e g j, tasks (registry s) !! t = Some (PHold k e g) -> keeps s t j = true -> j <> i ->
     tasks (registry s') !! t = Some (PHold k e g) /\ keeps s' t j = true) ->
  lock_spec (owner_of s) (owner_of s').
Proof.
  intros H1 H2. apply (spec_give_up _ _ i).
  - intros k j (t & e & g & Ht & Hk). destruct (H1 t k e g j Ht Hk). by exists t, e, g.
  - intros k j (t & e & g & Ht & Hk) Hne. destruct (H2 t k e g j Ht Hk Hne). by exists t, e, g.
Qed.

Lemma spec_conn (s : Svc) i c c' cs :
  conns s !! i = Some c ->
  (forall t, keeps (mkService (registry s) (<[i := c']> (conns s)) cs) t i = true -> keeps s t i = true) ->
  (forall t j, j <> i -> match callers s !! t with Some (k, _, _) => k = j | None => False end ->
     cs !! t = callers s !! t) ->
  (forall t x, cs !! t = Some x -> callers s !! t = Some x) ->
  lock_spec (owner_of s) (owner_of (mkService (registry s) (<[i := c']> (conns s)) cs)).
Proof.
  intros Hc Hi Hcs Hsub. apply (spec_shrinks _ _ i); simpl.
  - intros t k e g j Ht Hk. split; [done|]. destruct (decide (j = i)) as [->|Hne]; [by apply Hi|].
    revert Hk. unfold keeps. simpl. rewrite lookup_insert_ne by done. destruct (conns s !! j); [|done].
    rewrite !orb_true_iff. intros [?|Hk]; [by left|right].
    destruct (cs !! t) as [x|] eqn:Hx; [|done]. by rewrite (Hsub _ _ Hx).
  - intros t k e g j Ht Hk Hne. split; [done|]. revert Hk. unfold keeps. simpl.
    rewrite lookup_insert_ne by done. destruct (conns s !! j); [|done].
    rewrite !orb_true_iff. intros [?|Hk]; [by left|right]. specialize (Hcs t j Hne).
    destruct (callers s !! t) as [[[k' sq] r]|] eqn:Hx; [|done].
    rewrite Hcs; [done|]. apply andb_true_iff in Hk as [Hk _]. by fw_bool.
Qed.

Lemma spec_event (s : Svc) i c e :
  SInv s -> conns s !! i = Some c -> is_acquire_return e = false ->
  lock_spec (owner_of s) (owner_of (with_conn i (conn_step e c) s)).
Proof.
  intros V Hc He.
  destruct (evolves_event sha256 ct_eq decode_charge decode_budget decode_acquire decode_release
    decode_log decode_invalidation limits secret max_inflight e c He) as [E1 E2 E3].
  apply (spec_conn s i c); [done| |done|done].
  intros t. unfold keeps. simpl. rewrite lookup_insert_eq, Hc, !orb_true_iff. intros [Hg|Hk]; fw_bool.
  - left. apply bool_decide_eq_true. eapply elem_of_submseteq; [exact Hg|]. by apply fmap_submseteq.
  - destruct (callers s !! t) as [[[k sq] r]|] eqn:Hx; [|done]. right.
    apply andb_true_iff in Hk as [Hk Ha]. rewrite Hk. simpl. fw_bool. subst k.
    destruct (E3 sq r Ha) as [?| ->]; [done|].
    destruct (v_caller s V t i _ r Hx) as (c0 & _ & Hc0 & Hlt & _). simplify_eq. lia.
Qed.

Lemma spec_return (s : Svc) i c t k sq r lease o now :
  SInv s -> conns s !! i = Some c -> callers s !! t = Some (i, sq, r) ->
  handlers c !! k = Some (sq, Running (HAcquire r lease)) ->
  lock_spec (owner_of s) (owner_of (mkService (registry s)
    (<[i := conn_step (Complete k (RAcquire t o now)) c]> (conns s)) (delete t (callers s)))).
Proof.
  intros V Hc Ht Hk.
  destruct (evolves_return sha256 ct_eq decode_charge decode_budget decode_acquire decode_release
    decode_log decode_invalidation limits secret max_inflight c k sq r lease t o now Hk) as (E1 & E2 & E3).
  assert (keeps s t i = true) as Hkeep.
  { unfold keeps. rewrite Hc, Ht. apply orb_true_iff. right. rewrite bool_decide_true by done. simpl.
    apply awaits_elem. exists lease. by eapply list_elem_of_lookup_2. }
  apply (spec_conn s i c); [done| | |].
  - intros t' Hk'. destruct (decide (t' = t)) as [->|Hne]; [done|]. revert Hk'. unfold keeps. simpl.
    rewrite lookup_insert_eq, Hc, lookup_delete_ne, !orb_true_iff by done. intros [Hg|Hk']; [left|right].
    + apply bool_decide_eq_true in Hg. apply bool_decide_eq_true.
      eapply elem_of_submseteq in Hg; [|by apply guards_submseteq].
      apply elem_of_app in Hg as [?|Hg]; [done|]. destruct o; try by apply not_elem_of_nil in Hg.
      by apply list_elem_of_singleton in Hg.
    + destruct (callers s !! t') as [[[k' sq'] r']|]; [|done].
      apply andb_true_iff in Hk' as [-> Ha]. by apply E3.
  - intros t' j Hne Hj. destruct (decide (t' = t)) as [->|]; [by rewrite Ht in Hj; subst|].
    by rewrite lookup_delete_ne.
  - by intros t' x [_ ?]%lookup_delete_Some.
Qed.

Lemma spec_task (s : Svc) t reg p p' :
  SInv s -> LockRegistry.step limits t (registry s) reg ->
  tasks (registry s) !! t = Some p -> tasks reg !! t = Some p' ->
  (drops p p' = true -> live s t = false) -> lock_spec (owner_of s) (owner_of (with_registry reg s)).
Proof.
  intros V Hs Hp Hp' Hd. pose proof (sinv_task s t reg p p' V Hs Hp Hp' Hd) as V'.
  destruct (step_local limits t _ _ Hs) as (q & q' & Hq & E & _ & Hh). rewrite Hp in Hq. injection Hq as <-.
  rewrite E, lookup_insert_eq in Hp'. injection Hp' as ->.
  assert (Ho : forall t' pc, t' <> t -> tasks reg !! t' = Some pc <-> tasks (registry s) !! t' = Some pc).
  { intros t' pc Hne. by rewrite E, lookup_insert_ne. }
  assert (Hold : forall k e g j, p = PHold k e g -> keeps s t j = true -> False).
  { intros k e g j -> Hk. by rewrite (keeps_live s t j Hk) in Hd; specialize (Hd eq_refl). }
  assert (Hstutter : (forall k e g j, p' = PHold k e g -> keeps s t j = true -> False) ->
    lock_spec (owner_of s) (owner_of (with_registry reg s))).
  { intros Hno. apply (spec_shrinks s (with_registry reg s) 0); simpl.
    - intros t' k e g j Ht' Hk. destruct (decide (t' = t)) as [->|Hne]; [|split; [by apply Ho|done]].
      exfalso. rewrite E, lookup_insert_eq in Ht'. injection Ht' as ->. by eapply Hno.
    - intros t' k e g j Ht' Hk _. destruct (decide (t' = t)) as [->|Hne]; [|split; [by apply Ho|done]].
      exfalso. rewrite Hp in Ht'. injection Ht' as ->. by eapply Hold. }
  destruct p' as [| | | | | | | | |key e g| | | |]; try by apply Hstutter; intros.
  destruct (live s t) eqn:Hl.
  - unfold live in Hl. apply existsb_exists in Hl as ([i c] & _ & Hk). simpl in Hk.
    assert (owner_of (with_registry reg s) key i) as Hown.
    { exists t, e, g. split; [|done]. simpl. by rewrite E, lookup_insert_eq. }
    apply (spec_grant _ _ key i).
    + intros j (t' & e' & g' & Ht' & Hk'). assert (t' <> t) as Hne.
      { intros ->. rewrite Hp in Ht'. injection Ht' as ->. by specialize (Hh _ _ _ eq_refl). }
      apply Hne. eapply (hold_unique _ key); [apply (v_lock _ V')|by apply Ho|].
      simpl. by rewrite E, lookup_insert_eq.
    + intros k j. split.
      * intros (t' & e' & g' & Ht' & Hk'). simpl in Ht'. destruct (decide (t' = t)) as [->|Hne].
        -- right. rewrite E, lookup_insert_eq in Ht'. injection Ht' as <- <- <-.
           split; [done|]. symmetry. by apply (keeps_inj s t).
        -- left. exists t', e', g'. split; [by apply Ho|done].
      * intros [(t' & e' & g' & Ht' & Hk')|[-> ->]]; [|done]. exists t', e', g'. split; [|done].
        apply Ho; [|done]. intros ->. rewrite Hp in Ht'. injection Ht' as ->.
        by specialize (Hh _ _ _ eq_refl).
  - apply Hstutter. intros k e' g' j _ Hk. by rewrite (keeps_live s t j Hk) in Hl.
Qed.

(** C7: the lock service refines its specification: whatever the clients send, however the
    connections' turns, the acquires, the timeouts, the cancellations and the drops
    interleave, a key has at most one owning connection, a step hands a key out only while
    nobody owns it, and otherwise only takes keys away from one connection. *)
Theorem locks_refine (s s' : Svc) :
  reachable s -> step s s' ->
  (forall key i j, owner_of s key i -> owner_of s key j -> i = j) /\
  lock_spec (owner_of s) (owner_of s').
Proof.
  intros V%sinv_reachable Hs. split; [intros key i j; by apply owner_of_inj|]. destruct Hs.
  - apply (spec_shrinks _ _ i); simpl; intros t k e g j Ht Hk; [split; [done|]|intros Hne; split; [done|]];
      revert Hk; unfold keeps; simpl.
    + destruct (decide (j = i)) as [->|]; [|by rewrite lookup_insert_ne].
      rewrite lookup_insert_eq. rewrite bool_decide_false by (apply not_elem_of_nil). simpl.
      destruct (callers s !! t) as [[[k' sq] r]|]; [|done]. by rewrite andb_false_r.
    + by rewrite lookup_insert_ne.
  - by apply spec_event.
  - apply (spec_shrinks _ _ i); simpl.
    + intros t' k e g j Ht Hk. assert (t' <> t) as Hne.
      { intros ->. by rewrite lookup_insert_eq in Ht. }
      rewrite lookup_insert_ne in Ht by done. split; [done|]. revert Hk. unfold keeps. simpl.
      by rewrite lookup_insert_ne by done.
    + intros t' k e g j Ht Hk _. assert (t' <> t) as Hne by congruence.
      rewrite lookup_insert_ne by done. split; [done|]. revert Hk. unfold keeps. simpl.
      by rewrite lookup_insert_ne by done.
  - by eapply spec_task.
  - by eapply spec_return.
Qed.

(** C10: what a connection holds, the registry holds for it: a lock in [held] has its guard at
    the key's own entry, under the generation the client was told, with the permit; no other
    connection has a lock of that key, and no report this connection has still to take is of
    a key it holds, so that a grant never replaces a hold. *)
Theorem holds_are_exclusive (s : Svc) i c key lock :
  reachable s -> conns s !! i = Some c -> held c !! key = Some lock ->
  (exists e x, tasks (registry s) !! guard lock = Some (PHold key e (generation lock)) /\
     LockRegistry.shards (registry s) !! key = Some e /\ heap (registry s) !! e = Some x /\
     owner (semaphore x) = Some (guard lock)) /\
  (forall j d lock', conns s !! j = Some d -> held d !! key = Some lock' -> j = i /\ lock' = lock) /\
  (forall lock', mkAcquireOutcome key (Some lock') ∉ outcomes c).
Proof.
  intros V%sinv_reachable Hc Hk. pose proof (v_lock s V) as I.
  assert (Hin : forall d k l, held d !! k = Some l -> (k, l) ∈ entries d).
  { intros d k l Hl. unfold entries. apply elem_of_app. left. by apply elem_of_map_to_list. }
  destruct (v_entry s V i c key lock Hc (Hin _ _ _ Hk)) as [e He]. split; [|split].
  - destruct (i_owns _ I _ _ e He eq_refl) as (x & Hx & Ho). exists e, x.
    split; [done|]. split; [|done]. by apply (i_handle _ I _ _ key e He).
  - intros j d lock' Hd Hk'. destruct (v_entry s V j d key lock' Hd (Hin _ _ _ Hk')) as [e' He'].
    assert (guard lock' = guard lock) as Hg by (by eapply hold_unique).
    assert (j = i) as ->.
    { eapply (v_disjoint s V j i d c); [done..| |by eapply entries_guard, Hin].
      rewrite <- Hg. by eapply entries_guard, Hin. }
    split; [done|]. simplify_eq. congruence.
  - intros lock' Ho. assert ((key, lock') ∈ omap entry_of (outcomes c)) as Hr.
    { apply list_elem_of_omap. by exists (mkAcquireOutcome key (Some lock')). }
    destruct (v_entry s V i c key lock' Hc) as [e' He']; [unfold entries; apply elem_of_app; by right|].
    assert (guard lock' = guard lock) as Hg by (by eapply hold_unique).
    pose proof (v_nodup s V i c Hc) as Hn. unfold guards, entries in Hn. rewrite fmap_app in Hn.
    apply NoDup_app in Hn as (_ & Hn & _). apply (Hn (guard lock)).
    + apply (list_elem_of_fmap_2 (fun kl => guard kl.2) _ (key, lock)). by apply elem_of_map_to_list.
    + rewrite <- Hg. by apply (list_elem_of_fmap_2 (fun kl => guard kl.2) _ (key, lock')).
Qed.


(** ** Executed moves are steps *)

Lemma act_task_sound a t (r r' : Registry Sem) :
  action_task a = Some t -> act limits a r = Some r' -> LockRegistry.step limits t r r'.
Proof.
  destruct a as [| |t'|t']; simpl; intros [= <-].
  - by apply do_step_sound.
  - intros Ha. repeat case_match; simplify_eq. by apply s_timeout.
  - intros Ha. repeat case_match; simplify_eq. by apply s_cancel.
Qed.

Lemma move_sound m (s s' : Svc) :
  move sha256 ct_eq decode_charge decode_budget decode_acquire decode_release decode_log
    decode_invalidation limits secret max_inflight m s = Some s' -> step s s'.
Proof.
  destruct m as [i n|i e|i t sq r|a|i t k now]; simpl.
  - case_bool_decide; [|done]. intros [= <-]. by apply s_open.
  - intros (c & Hc & Hm)%bind_Some. destruct (is_acquire_return e) eqn:He; [done|].
    injection Hm as <-. by apply s_event.
  - intros (c & Hc & Hm)%bind_Some. destruct (_ && _) eqn:Hb; [|done]. injection Hm as <-.
    apply andb_true_iff in Hb as [[Ha Hn]%andb_true_iff Ht]. fw_bool. by eapply s_call.
  - intros (t & Ht & (reg & Hr & (p & Hp & (p' & Hp' & Hm)%bind_Some)%bind_Some)%bind_Some)%bind_Some.
    destruct (_ && _) eqn:Hb; [done|]. injection Hm as <-.
    eapply s_task; [by eapply act_task_sound|done|done|]. intros Hd. by rewrite Hd in Hb.
  - intros (c & Hc & ([[j sq] r] & Ht & (p & Hp & (o & Ho & Hm)%bind_Some)%bind_Some)%bind_Some)%bind_Some.
    destruct (handlers c !! k) as [[sq' [[| |r' lease| | |]|]]|] eqn:Hk; try done.
    case_bool_decide as Hb; [|done]. destruct Hb as (-> & -> & ->). injection Hm as <-.
    by eapply s_return.
Qed.

Lemma moves_sound ms (s s' : Svc) :
  moves sha256 ct_eq decode_charge decode_budget decode_acquire decode_release decode_log
    decode_invalidation limits secret max_inflight ms s = Some s' -> rtc step s s'.
Proof.
  revert s. induction ms as [|m ms IH]; simpl; intros s; [intros [= <-]; apply rtc_refl|].
  intros (s1 & H1 & H2)%bind_Some. eapply rtc_l; [by eapply move_sound|by apply IH].
Qed.

End Machine.

(** ** Two clients of one key *)

Module TwoClients.

Import ServerLaws.Sample.

Definition req : AcquireRequest := mkAcquireRequest 7 42 8 1000 100.

Definition new : Service Fifo.T := service_new.

Definition exec (ms : list Move) : Service Fifo.T :=
  default new (moves sample_digest list_eq none none one_acquire one_release none none lock_limits
    key32 4 ms new).

Definition runs (ms : list Move) : bool :=
  match moves sample_digest list_eq none none one_acquire one_release none none lock_limits
    key32 4 ms new with Some _ => true | None => false end.

Abbreviation sample_step := (LockService.step sample_digest list_eq none none one_acquire one_release
  none none lock_limits key32 4).
Abbreviation sample_reachable := (service_reachable sample_digest list_eq none none one_acquire
  one_release none none lock_limits key32 4).

Definition does (n : nat) (t : Task) : list Move := repeat (MTask (Do t)) n.

(** Client 0 holds the key; client 1 waits for it. *)
Definition contended : list Move :=
  [MOpen 0 nonce8; MOpen 1 nonce8;
   MEvent 0 (TurnFrame 0 (frame 0 LockAcquire [100]));
   MEvent 1 (TurnFrame 0 (frame 0 LockAcquire [100]));
   MCall 0 1 0 req] ++ does 3 1 ++
  [MReturn 0 1 0 10; MEvent 0 (Reply_ 0); MEvent 0 (TurnReport 20); MCall 1 2 0 req] ++ does 5 2.

(** Client 0 goes away, its guard is dropped, and client 1 is granted the key. *)
Definition closed : list Move := contended ++ [MEvent 0 (TurnShutdown 30)].
Definition passed_on : list Move :=
  closed ++ does 1 1 ++ does 4 2 ++ [MReturn 1 2 0 40; MEvent 1 (TurnReport 50)].

Lemma exec_reachable ms : runs ms = true -> sample_reachable (exec ms).
Proof.
  unfold runs, exec. destruct (moves _ _ _ _ _ _ _ _ _ _ _ ms new) as [s|] eqn:Hs; [|done].
  intros _. by eapply moves_sound.
Qed.

Lemma locks_refine_witness :
  lock_spec (owner_of (exec contended)) (owner_of (exec closed)) /\
  owner_of (exec contended) (7, 42) 0%nat /\
  (forall i, owner_of (exec contended) (7, 42) i -> i = 0%nat).
Proof.
  assert (sample_reachable (exec contended)) as Hr by (apply exec_reachable; vm_compute; reflexivity).
  assert (sample_step (exec contended) (exec closed)) as Hs.
  { apply (move_sound sample_digest list_eq none none one_acquire one_release none none lock_limits
      key32 4 (MEvent 0 (TurnShutdown 30))). vm_compute. reflexivity. }
  assert (owner_of (exec contended) (7, 42) 0%nat) as Ho.
  { exists 1%nat, 0%nat, 1. split; vm_compute; reflexivity. }
  destruct (locks_refine sample_digest list_eq none none one_acquire one_release none none
    lock_limits key32 4 _ _ Hr Hs) as [Hu Hspec].
  split; [exact Hspec|]. split; [exact Ho|]. intros i Hi. exact (Hu _ _ _ Hi Ho).
Defined.

Lemma holds_are_exclusive_witness :
  exists e, tasks (registry (exec contended)) !! 1%nat = Some (PHold (7, 42) e 1).
Proof.
  assert (sample_reachable (exec contended)) as Hr by (apply exec_reachable; vm_compute; reflexivity).
  assert (exists c, conns (exec contended) !! 0%nat = Some c /\
    held c !! (7, 42) = Some (mkHeldLock 1 1 110)) as (c & Hc & Hk).
  { eexists. split; vm_compute; reflexivity. }
  destruct (holds_are_exclusive sample_digest list_eq none none one_acquire one_release none none
    lock_limits key32 4 (exec contended) 0 c (7, 42) _ Hr Hc Hk) as [(e & x & He & _) _].
  exists e. exact He.
Defined.


End TwoClients.
