(* ===== verification/Listener.v ===== *)
(** * Listener: the accept loop of src/src/service/server.rs

    [bind_unix_socket] over a file system, and [run] as a state machine: the slots of the
    [Semaphore], the [JoinSet] of connection tasks, and where the loop is. Events are what
    [select!] returns, the end of a connection's task, and the end of the back-off. What a
    connection does is Server.v's; a task's end gives its slot back whatever ended it.

    The operating system is a parameter: which of its calls fail is given with each use. *)

From stdpp Require Import strings.
From S2P Require Import Prelude TimeFrame CreditsBlob Aggregation Storage.

(** ** The socket file *)

Inductive FileKind := SocketFile | OtherFile.

(** A path's kind and permission bits. *)
Abbreviation Fs := (gmap string (FileKind * Z)).

(** Which system calls fail, and the mode a new socket gets. *)
Record OsOutcome := mkOsOutcome {
  stat_fails : bool;
  remove_fails : bool;
  bind_fails : bool;
  chmod_fails : bool;
  umask_mode : Z;
}.

(** [UnixListener::bind]: EADDRINUSE when something is there. *)
Definition unix_bind (os : OsOutcome) (path : string) : SE Fs anyhow unit :=
  fs ← se_get;
  if bind_fails os || bool_decide (is_Some (fs !! path)) then se_fail (Msg "failed to bind")
  else se_put (<[path := (SocketFile, umask_mode os)]> fs).

Definition set_permissions (os : OsOutcome) (path : string) (mode : Z) : SE Fs anyhow unit :=
  fs ← se_get;
  if chmod_fails os then se_fail (Msg "failed to set permissions")
  else se_put (alter (fun f => (f.1, mode)) path fs).

Definition remove_file (os : OsOutcome) (path : string) : SE Fs anyhow unit :=
  fs ← se_get;
  if remove_fails os then se_fail (Msg "failed to remove stale socket")
  else se_put (delete path fs).

Definition bind_unix_socket (os : OsOutcome) (path : string) : SE Fs anyhow unit :=
  fs ← se_get;
  _ ← match (if stat_fails os then None else fs !! path) with
      | Some (OtherFile, _) => se_fail (Msg "exists and is not a socket")
      | Some (SocketFile, _) => remove_file os path
      | None => mret tt
      end;
  _ ← unix_bind os path;
  set_permissions os path 0x1B0.

(** ** The accept loop *)

(** An accepted socket; for TCP, whether [set_nodelay] works on it. *)
Inductive AcceptedSocket := Tcp (nodelay_ok : bool) | Unix.

Inductive TaskState := Serving | Finished.

#[export] Instance TaskState_eq_dec : EqDecision TaskState.
Proof. solve_decision. Defined.

(** [Selecting]: parked in [select!]; [Backoff]: the sleep after a failed accept; [Draining]:
    past the loop, joining what is left. *)
Inductive Phase := Selecting | Backoff | Draining | Returned (r : result anyhow unit).

Record Listener := mkListener {
  slots : nat;
  connections : gmap nat TaskState;
  next_id : nat;
  rejected : nat;
  phase : Phase;
}.

Inductive Event :=
| Changed (stop : bool)                    (* shutdown.changed(): its sender gone, or the flag *)
| Accepted (socket : option AcceptedSocket) (* None: accept failed *)
| Woke                                     (* the back-off is over *)
| Ended (id : nat)                         (* a connection's task returned, or panicked *)
| Joined (id : nat)                        (* join_next *)
| JoinedNone.                              (* join_next of an empty set *)

Section Run.
Variable max_connections : nat.

Definition listening : Listener := mkListener max_connections ∅ 0 0 Selecting.

Definition set_phase (p : Phase) (l : Listener) : Listener :=
  mkListener (slots l) (connections l) (next_id l) (rejected l) p.

(** The [JoinSet] is dropped with [run]: its tasks are aborted. *)
Definition fail (message : string) (l : Listener) : Listener :=
  mkListener max_connections ∅ (next_id l) (rejected l) (Returned (Err (Msg message))).

(** One accepted socket: refused without a slot, else configured and served. *)
Definition accept (socket : AcceptedSocket) (l : Listener) : Listener :=
  match slots l with
  | O => mkListener (slots l) (connections l) (next_id l) (S (rejected l)) (phase l)
  | S n =>
      match socket with
      | Tcp false => fail "failed to set TCP_NODELAY" l
      | _ => mkListener n (<[next_id l := Serving]> (connections l)) (S (next_id l)) (rejected l)
               (phase l)
      end
  end.

Definition step (e : Event) (l : Listener) : Listener :=
  match e, phase l with
  | Changed stop, Selecting => if stop then set_phase Draining l else l
  | Accepted None, Selecting => set_phase Backoff l
  | Accepted (Some socket), Selecting => accept socket l
  | Woke, Backoff => set_phase Selecting l
  | Ended _, Returned _ => l
  | Ended id, _ =>
      match connections l !! id with
      | Some Serving =>
          mkListener (S (slots l)) (<[id := Finished]> (connections l)) (next_id l) (rejected l) (phase l)
      | _ => l
      end
  | Joined id, (Selecting | Draining) =>
      match connections l !! id with
      | Some Finished =>
          mkListener (slots l) (delete id (connections l)) (next_id l) (rejected l) (phase l)
      | _ => l
      end
  | JoinedNone, Draining =>
      if bool_decide (connections l = ∅) then set_phase (Returned (Ok tt)) l else l
  | _, _ => l
  end.

Fixpoint run (events : list Event) (l : Listener) : Listener :=
  match events with [] => l | e :: rest => run rest (step e l) end.

(** The connections that hold a slot. *)
Definition serving (l : Listener) : nat := size (filter (fun kv => kv.2 = Serving) (connections l)).

End Run.

(** ** The socket file: what is bound and what is left alone *)

Definition is_socket (f : FileKind * Z) : Prop := f.1 = SocketFile.

(** Every path but one, and a file that is not a socket, are as they were. *)
Definition files_kept (path : string) (fs fs' : Fs) : Prop :=
  (forall p, p <> path -> fs' !! p = fs !! p) /\
  (forall m, fs !! path = Some (OtherFile, m) -> fs' !! path = Some (OtherFile, m)).

(** Binding the Unix socket, on every branch. Whatever the system calls answer, no other
    path changes and a file that is not a socket is never removed, replaced or given other
    permissions; a success leaves a socket of mode 0660 at the path, and it is reached
    exactly when every call works and nothing but a stale socket is in the way. A file that
    is not a socket is refused with its own message and nothing is touched. *)
Theorem bind_unix_socket_exact os path (fs : Fs) r fs' :
  bind_unix_socket os path fs = (r, fs') ->
  files_kept path fs fs' /\
  (r = Ok tt <-> bind_fails os = false /\ chmod_fails os = false /\
     (fs !! path = None \/
      stat_fails os = false /\ remove_fails os = false /\ exists m, fs !! path = Some (SocketFile, m))) /\
  (r = Ok tt -> fs' !! path = Some (SocketFile, 0x1B0)) /\
  (r = Err (Msg "exists and is not a socket") <->
     stat_fails os = false /\ exists m, fs !! path = Some (OtherFile, m)) /\
  (r = Err (Msg "exists and is not a socket") -> fs' = fs).
Proof.
  unfold bind_unix_socket, remove_file, unix_bind, set_permissions, files_kept.
  destruct os as [st rm bd ch um]. unfold mbind, SE_bind, se_get, se_put, se_fail, mret, SE_ret.
  cbn [stat_fails remove_fails bind_fails chmod_fails umask_mode].
  destruct st, (fs !! path) as [[[|] m]|] eqn:Ef; cbn; rewrite ?Ef; cbn; rewrite ?orb_true_r; cbn.
  all: try (destruct rm; cbn; rewrite ?lookup_delete_eq; cbn).
  all: try (destruct bd; cbn; rewrite ?lookup_insert_eq; cbn).
  all: try (destruct ch; cbn).
  all: intros [= <- <-].
  all: (split; [split; [intros p Hp; by rewrite ?lookup_alter_ne, ?lookup_insert_ne, ?lookup_delete_ne by done
                       |intros m' Hm'; congruence]|]).
  all: rewrite ?lookup_alter_eq, ?lookup_insert_eq; split_and!; try split; intros;
    repeat match goal with
    | Hx : _ /\ _ |- _ => destruct Hx
    | Hx : _ \/ _ |- _ => destruct Hx
    | Hx : exists _, _ |- _ => destruct Hx
    end; first [discriminate|solve [repeat split; eauto]|solve [left; eauto]|solve [right; eauto]|eauto].
Qed.

(** ** The slots *)

Section Laws.
Variable max_connections : nat.

Abbreviation step := (step max_connections).
Abbreviation run := (run max_connections).
Abbreviation listening := (listening max_connections).

Definition returned (l : Listener) : bool := match phase l with Returned _ => true | _ => false end.

Record Inv (l : Listener) : Prop := {
  l_slots : returned l = false -> (slots l + serving l)%nat = max_connections;
  l_ids : forall id, is_Some (connections l !! id) -> (id < next_id l)%nat;
}.

Lemma serving_insert (m : gmap nat TaskState) id :
  m !! id = None ->
  size (filter (fun kv => kv.2 = Serving) (<[id := Serving]> m)) =
    S (size (filter (fun kv => kv.2 = Serving) m)).
Proof.
  intros Hm. rewrite map_filter_insert_True by done. apply map_size_insert_None.
  apply map_lookup_filter_None. by left.
Qed.

Lemma serving_finish (m : gmap nat TaskState) id :
  m !! id = Some Serving ->
  S (size (filter (fun kv => kv.2 = Serving) (<[id := Finished]> m))) =
    size (filter (fun kv => kv.2 = Serving) m).
Proof.
  intros Hm. rewrite map_filter_insert_False, map_filter_delete by done.
  assert (filter (fun kv => kv.2 = Serving) m !! id = Some Serving) as Hf
    by (by apply map_lookup_filter_Some).
  rewrite map_size_delete_Some by (by eexists).
  assert (size (filter (fun kv => kv.2 = Serving) m) <> 0%nat); [|lia].
  intros Hz. apply map_size_empty_inv in Hz. by rewrite Hz, lookup_empty in Hf.
Qed.

Lemma serving_join (m : gmap nat TaskState) id :
  m !! id = Some Finished ->
  size (filter (fun kv => kv.2 = Serving) (delete id m)) = size (filter (fun kv => kv.2 = Serving) m).
Proof.
  intros Hm. rewrite map_filter_delete, delete_id; [done|].
  apply map_lookup_filter_None. right. intros x Hx. rewrite Hm in Hx. by injection Hx as <-.
Qed.

Lemma inv_listening : Inv listening.
Proof. split; simpl; [unfold serving; simpl; rewrite map_filter_empty, map_size_empty; lia|]. by intros id [x Hx]. Qed.

Lemma inv_set_phase p l : returned l = false -> Inv l -> Inv (set_phase p l).
Proof. intros Hr [H1 H2]. split; simpl; [intros _; by apply H1|done]. Qed.

Lemma inv_accept socket l : returned l = false -> Inv l -> Inv (accept max_connections socket l).
Proof.
  intros Hr [H1 H2]. specialize (H1 Hr). unfold accept. destruct (slots l) as [|n] eqn:Es.
  { split; simpl; [intros _; unfold serving in *; simpl in *; lia|done]. }
  assert (connections l !! next_id l = None) as Hn.
  { destruct (connections l !! next_id l) as [x|] eqn:Ex; [|done].
    specialize (H2 (next_id l) ltac:(by eexists)). lia. }
  assert (Inv (mkListener n (<[next_id l := Serving]> (connections l)) (S (next_id l)) (rejected l) (phase l)))
    as Hs.
  { split; simpl; unfold serving in *; simpl.
    - intros _. rewrite serving_insert by done. lia.
    - intros id. rewrite lookup_insert_is_Some'. intros [<-|Hi%H2]; [lia|simpl in Hi; lia]. }
  destruct socket as [[|]|]; [done| |done]. split; simpl; [done|]. by intros id [x Hx].
Qed.

Lemma inv_ended id l : returned l = false -> Inv l ->
  Inv (match connections l !! id with
       | Some Serving =>
           mkListener (S (slots l)) (<[id := Finished]> (connections l)) (next_id l) (rejected l) (phase l)
       | _ => l
       end).
Proof.
  intros Hr I. destruct (connections l !! id) as [[|]|] eqn:Hid; [|done..]. destruct I as [H1 H2].
  split; simpl; unfold serving in *; simpl.
  - intros _. specialize (H1 Hr). pose proof (serving_finish _ _ Hid). lia.
  - intros id'. rewrite lookup_insert_is_Some'. intros [<-|Hi%H2]; [|exact Hi]. apply H2. by eexists.
Qed.

Lemma inv_joined id l : returned l = false -> Inv l ->
  Inv (match connections l !! id with
       | Some Finished =>
           mkListener (slots l) (delete id (connections l)) (next_id l) (rejected l) (phase l)
       | _ => l
       end).
Proof.
  intros Hr I. destruct (connections l !! id) as [[|]|] eqn:Hid; [done| |done]. destruct I as [H1 H2].
  split; simpl; unfold serving in *; simpl.
  - intros _. rewrite serving_join by done. by apply H1.
  - intros id' [x [_ Hx]%lookup_delete_Some]. apply H2. by eexists.
Qed.

Lemma step_returned e l : returned l = true -> step e l = l.
Proof. unfold returned. intros Hr. destruct e as [|[|]| | | |]; simpl; by destruct (phase l). Qed.

Lemma listener_inv_step e l : Inv l -> Inv (step e l).
Proof.
  intros I. destruct (returned l) eqn:Hr; [by rewrite step_returned|].
  destruct e as [stop|[socket|]| |id|id|]; simpl; destruct (phase l) eqn:Ep; try done;
    try (rewrite <- Ep); try (by apply inv_ended); try (by apply inv_joined); try (by apply inv_set_phase).
  - destruct stop; [by apply inv_set_phase|done].
  - by apply inv_accept.
  - case_bool_decide; [by apply inv_set_phase|done].
Qed.

Lemma listener_inv_run events l : Inv l -> Inv (run events l).
Proof. revert l. induction events as [|e rest IH]; intros l I; [done|]. by apply IH, listener_inv_step. Qed.


(** ** How it ends *)

(** The trace from [listening] up to the step that returned. *)
Definition fatal (e : Event) : bool :=
  match e with Accepted (Some (Tcp false)) => true | _ => false end.
Definition stops (e : Event) : bool := match e with Changed true => true | _ => false end.

(** What may hold of a listener after a trace without a fatal socket ([f]) or a stop ([s]). *)
Definition ended_as (f s : bool) (l : Listener) : Prop :=
  match phase l with
  | Selecting | Backoff => True
  | Draining => s = true
  | Returned (Ok _) => s = true /\ connections l = ∅
  | Returned (Err e) => f = true /\ e = Msg "failed to set TCP_NODELAY" /\ connections l = ∅
  end.

Lemma ended_as_mono f s f' s' l : ended_as f s l -> ended_as (f || f') (s || s') l.
Proof.
  unfold ended_as. destruct (phase l) as [| | |[u|x]]; [done|done|by intros ->|by intros [-> ?]|].
  by intros (-> & ? & ?).
Qed.

Lemma ended_as_phase f s l l' :
  returned l = false -> phase l' = phase l -> ended_as f s l -> ended_as f s l'.
Proof. unfold ended_as, returned. intros Hr ->. by destruct (phase l). Qed.

Lemma ended_as_step f s e l :
  ended_as f s l -> ended_as (f || fatal e) (s || stops e) (step e l).
Proof.
  intros Hl. destruct (returned l) eqn:Hr.
  { rewrite step_returned by done. by apply ended_as_mono. }
  assert (Hsame : forall l', phase l' = phase l -> ended_as (f || fatal e) (s || stops e) l').
  { intros l' E. eapply ended_as_phase; [exact Hr|exact E|]. by apply ended_as_mono. }
  destruct e as [[|]|[socket|]| |id|id|]; simpl; destruct (phase l) eqn:Ep; try done;
    try (by apply Hsame); try (apply Hsame; by repeat case_match).
  - unfold ended_as. simpl. by rewrite orb_true_r.
  - unfold accept. destruct (slots l); [by apply Hsame|]. destruct socket as [[|]|]; try by apply Hsame.
    unfold ended_as. simpl. by rewrite orb_true_r.
  - case_bool_decide; [|by apply Hsame]. unfold ended_as in *. rewrite Ep in Hl. simpl in *.
    by rewrite Hl.
Qed.

Lemma ended_as_run events l f s :
  ended_as f s l -> ended_as (f || existsb fatal events) (s || existsb stops events) (run events l).
Proof.
  revert l f s. induction events as [|e rest IH]; intros l f s Hl; simpl.
  { by rewrite !orb_false_r. }
  rewrite !orb_assoc. by apply IH, ended_as_step.
Qed.

(** How the listener ends. Failed accepts never end it, however many there are, nor does
    any end of a connection: it returns [Ok] only after the shutdown was observed and the last
    connection task was joined, and an error only from a TCP socket that refused
    [set_nodelay]; until one of the two it is selecting or backing off. *)
Theorem listener_ends_only_by events :
  match phase (run events listening) with
  | Selecting | Backoff => True
  | Draining => exists e, e ∈ events /\ stops e = true
  | Returned (Ok _) => (exists e, e ∈ events /\ stops e = true) /\ connections (run events listening) = ∅
  | Returned (Err m) =>
      (exists e, e ∈ events /\ fatal e = true) /\ m = Msg "failed to set TCP_NODELAY" /\
      connections (run events listening) = ∅
  end.
Proof.
  pose proof (ended_as_run events listening false false I) as Hl. unfold ended_as in Hl. simpl in Hl.
  assert (Hex : forall P, existsb P events = true -> exists e, e ∈ events /\ P e = true).
  { intros P (e & Hin & He)%existsb_exists. exists e. split; [by apply list_elem_of_In|done]. }
  destruct (phase (run events listening)) as [| | |[u|m]]; [done|done|by apply Hex| |].
  - destruct Hl as [Hs ?]. split; [by apply Hex|done].
  - destruct Hl as (Hf & ? & ?). split; [by apply Hex|done].
Qed.

(** ** Draining *)

(** The rest of a shutdown: every connection's task ends and is joined. *)
Fixpoint finish (ids : list nat) : list Event :=
  match ids with [] => [JoinedNone] | id :: rest => Ended id :: Joined id :: finish rest end.

Lemma finish_run ids l :
  phase l = Draining -> NoDup ids -> (forall id, is_Some (connections l !! id) <-> id ∈ ids) ->
  phase (run (finish ids) l) = Returned (Ok tt).
Proof.
  revert l. induction ids as [|id ids IH]; intros l Hp Hnd Hids.
  - simpl. rewrite Hp. assert (connections l = ∅) as ->; [|done].
    apply map_empty. intros id. apply eq_None_not_Some. intros Hs%Hids. by apply not_elem_of_nil in Hs.
  - apply NoDup_cons in Hnd as [Hn Hnd]. cbn [finish Listener.run].
    set (l1 := step (Ended id) l). set (l2 := step (Joined id) l1).
    assert (phase l1 = Draining /\ (forall i, i <> id -> connections l1 !! i = connections l !! i) /\
      connections l1 !! id = Some Finished) as (Hp1 & Hne & Hid).
    { assert (is_Some (connections l !! id)) as [x Hx] by (apply Hids; by left).
      subst l1. simpl. rewrite Hp, Hx. destruct x; simpl.
      - split; [done|]. split; [intros i ?; by rewrite lookup_insert_ne|apply lookup_insert_eq].
      - by rewrite Hx. }
    assert (phase l2 = Draining /\ connections l2 = delete id (connections l1)) as [Hp2 Hd].
    { subst l2. simpl. by rewrite Hp1, Hid. }
    apply IH; [done|done|]. intros i. rewrite Hd. destruct (decide (i = id)) as [->|Hi].
    + rewrite lookup_delete_eq. split; [by intros [? ?]|done].
    + rewrite lookup_delete_ne, Hne, Hids by done. rewrite elem_of_cons. by intuition.
Qed.

(** A shutdown completes. From any state the listener can reach past its loop, once the
    connections that are left end and are joined, in any order, [run] returns [Ok]. *)
Theorem drain_completes events ids :
  let l := run events listening in
  phase l = Draining -> Permutation ids (map_to_list (connections l)).*1 ->
  phase (run (finish ids) l) = Returned (Ok tt).
Proof.
  intros l Hp Hids. apply finish_run; [done| |].
  - rewrite Hids. apply NoDup_fst_map_to_list.
  - intros id. rewrite Hids, list_elem_of_fmap. split.
    + intros [x Hx]. exists (id, x). split; [done|]. by apply elem_of_map_to_list.
    + intros ([i x] & -> & Hin%elem_of_map_to_list). by eexists.
Qed.

End Laws.

(** ** A day of the listener *)

Module Day.

(** Two slots: two clients served, a third refused, a failed accept, one client leaves and is
    replaced, and the shutdown is observed. *)
Definition morning : list Event :=
  [Accepted (Some (Tcp true)); Accepted (Some Unix); Accepted (Some Unix);
   Accepted None; Woke; Ended 0; Accepted (Some Unix); Joined 0].
Definition evening : list Event := morning ++ [Changed true].

Lemma bind_unix_socket_exact_witness :
  let fs : Fs := {[ "/run/f.sock" := (SocketFile, 0x1ED) ]} in
  exists fs', bind_unix_socket (mkOsOutcome false false false false 0x1ED) "/run/f.sock" fs = (Ok tt, fs') /\
    fs' !! "/run/f.sock" = Some (SocketFile, 0x1B0).
Proof.
  intros fs. exists {[ "/run/f.sock" := (SocketFile, 0x1B0) ]}.
  assert (bind_unix_socket (mkOsOutcome false false false false 0x1ED) "/run/f.sock" fs =
    (Ok tt, {[ "/run/f.sock" := (SocketFile, 0x1B0) ]})) as E by (vm_compute; reflexivity).
  split; [exact E|]. apply (bind_unix_socket_exact _ _ _ _ _ E). reflexivity.
Defined.


Lemma drain_completes_witness :
  phase (run 2 (finish [1; 2]%nat) (run 2 evening (listening 2))) = Returned (Ok tt).
Proof.
  assert (phase (run 2 evening (listening 2)) = Draining) as Hp by (vm_compute; reflexivity).
  assert (Permutation [1; 2]%nat (map_to_list (connections (run 2 evening (listening 2)))).*1) as Hids.
  { vm_compute. repeat constructor. }
  apply (drain_completes 2 evening [1; 2]%nat Hp Hids).
Defined.

(** One accepted TCP socket that refuses [set_nodelay] ends the listener, with every
    connection it was serving: the failure is propagated out of the loop, where a failed
    accept is not. *)
Theorem nodelay_failure_ends_listener :
  let before := run 8 [Accepted (Some Unix); Accepted (Some (Tcp true)); Accepted None; Woke] (listening 8) in
  let after := run 8 [Accepted (Some (Tcp false)); Woke; Accepted (Some Unix)] before in
  (phase before = Selecting /\ serving before = 2%nat) /\
  phase after = Returned (Err (Msg "failed to set TCP_NODELAY")) /\ serving after = 0%nat.
Proof. vm_compute. done. Qed.

End Day.
