(* ===== verification/Process.v ===== *)
(** * Process: the daemon's start and stop (src/src/main.rs)

    [boot]: the fallible steps of [main] in order, up to the spawned tasks. Then the process
    as a machine: the limiter with its rows, the flush task ticking, the calls that the
    connections make while the server runs, the signal, and [main] joining the flush task, the
    metrics task, the bridge and the server before its final flush. How each task ends is the
    environment's choice; what the connections call is any sequence of calls.

    A handler's call is part of the server while that runs. tokio lets an aborted handler finish
    the poll it is in, and its connection waits for it only through its reply sender, unless the
    writer task failed before; [ELinger] is a call that goes on after the server task is over.
    What the stores prepare is in Statements.v. Timers, logging and the bodies of the bridge and
    the metrics task are not here. *)

From stdpp Require Import strings.
From S2P Require Import Prelude CreditsBlob TimeFrame Aggregation Storage Access ChargeProtocol.
From S2P Require Import Quota QuotaLaws Admission AdmissionSafe Flush RowMoves FlushSteps.

(** ** Start-up *)

(** What each fallible step answers; the two flags and the optional path are the config's. *)
Record Boot := mkBoot {
  load : result anyhow unit;
  session : result anyhow unit;
  limiter_tables : result anyhow unit;
  sequence_table : result anyhow unit;
  tcp_bind : result anyhow unit;
  unix_socket : option (result anyhow unit);
  bridge_bind : result anyhow unit;
  request_log_enabled : bool;
  request_log_prepare : result anyhow unit;
  metrics_enabled : bool;
}.

Record Services := mkServices { request_log_on : bool; metrics_on : bool; unix_on : bool }.

Definition with_context {A} (message : string) (r : result anyhow A) : result anyhow A :=
  map_err (fun e => if is_panic e then e else Msg message) r.

Definition boot (b : Boot) : result anyhow Services :=
  _ ← with_context "fareward configuration is invalid" (load b);
  _ ← with_context "ScyllaDB connection failed" (session b);
  _ ← limiter_tables b;
  _ ← sequence_table b;
  _ ← with_context "failed to bind" (tcp_bind b);
  _ ← match unix_socket b with Some bound => bound | None => Ok tt end;
  _ ← with_context "failed to bind" (bridge_bind b);
  Ok (mkServices
        (if request_log_enabled b
         then match request_log_prepare b with Ok _ => true | Err _ => false end
         else false)
        (metrics_enabled b) (bool_decide (is_Some (unix_socket b)))).

(** ** The running process *)

(** How a joined task ended; [Panicked_] is a [JoinError]. *)
Inductive TaskEnd := Finished (r : result anyhow unit) | Panicked_.
Inductive TaskRun := Up | Down (e : TaskEnd).

(** The flush task: waiting for its tick, in a flush, or over. *)
Inductive FlushTask := Waiting | Flushing (f : Flusher) | FlushEnded (panicked : bool).

(** Where [main] is. *)
Inductive MainAt :=
| AwaitSignal
| JoinFlush
| JoinMetrics
| JoinBridge
| JoinServer
| FinalFlush (f : Flusher)
| Exited (r : result anyhow unit).

Section Machine.
Context {St : Type} `{!LimiterStore St}.
Variables (policy : LimitPolicy) (access_cache_seconds : Z).

Record Process := mkProcess {
  limiter : RateLimiter St;
  flush_task : FlushTask;
  metrics_task : option TaskRun;
  bridge_task : TaskRun;
  server_task : TaskRun;
  shutdown : bool;
  main_at : MainAt;
}.

(** [main] returned: the runtime drops every task. *)
Definition exited (p : Process) : bool := match main_at p with Exited _ => true | _ => false end.

Definition set_limiter l p := mkProcess l (flush_task p) (metrics_task p) (bridge_task p) (server_task p) (shutdown p) (main_at p).
Definition set_flush t p := mkProcess (limiter p) t (metrics_task p) (bridge_task p) (server_task p) (shutdown p) (main_at p).
Definition set_metrics t p := mkProcess (limiter p) (flush_task p) t (bridge_task p) (server_task p) (shutdown p) (main_at p).
Definition set_bridge t p := mkProcess (limiter p) (flush_task p) (metrics_task p) t (server_task p) (shutdown p) (main_at p).
Definition set_server t p := mkProcess (limiter p) (flush_task p) (metrics_task p) (bridge_task p) t (shutdown p) (main_at p).
Definition set_main m p := mkProcess (limiter p) (flush_task p) (metrics_task p) (bridge_task p) (server_task p) (shutdown p) m.

Inductive Event :=
| ECall (c : Call)                                (* a connection's handler *)
| ELinger (c : Call)                              (* an aborted one's last poll *)
| ETick                                           (* the flush interval *)
| EFlush (prune_clock budget_clock : result anyhow Z) (* the flush in progress, one step *)
| EFlushStops (panicked : bool)                   (* it saw the shutdown, or panicked *)
| EMetricsEnd (e : TaskEnd)
| EBridgeEnd (e : TaskEnd)
| EServerEnd (e : TaskEnd)
| ESignal (r : result anyhow unit)                (* ctrl_c *)
| EMain (prune_clock budget_clock : result anyhow Z). (* main's next step *)

(** [main] after the signal: joins in order, then the final flush. *)
Definition main_step (pc bc : result anyhow Z) (p : Process) : Process :=
  match main_at p with
  | JoinFlush =>
      match flush_task p with FlushEnded _ => set_main JoinMetrics p | _ => p end
  | JoinMetrics =>
      match metrics_task p with
      | Some Up => p
      | _ => set_main JoinBridge p
      end
  | JoinBridge =>
      match bridge_task p with
      | Up => p
      | Down Panicked_ => set_main (Exited (Err (Msg "bridge task failed"))) p
      | Down (Finished _) => set_main JoinServer p
      end
  | JoinServer =>
      match server_task p with
      | Up => p
      | Down Panicked_ => set_main (Exited (Err (Msg "server task failed"))) p
      | Down (Finished (Err e)) => set_main (Exited (Err e)) p
      | Down (Finished (Ok _)) => set_main (FinalFlush flush_begin) p
      end
  | FinalFlush (FDone _) => set_main (Exited (Ok tt)) p
  | FinalFlush f =>
      let '(l, f) := fstep pc bc (limiter p) f in set_main (FinalFlush f) (set_limiter l p)
  | AwaitSignal | Exited _ => p
  end.

Definition is_up (t : TaskRun) : bool := match t with Up => true | Down _ => false end.

Definition step (e : Event) (p : Process) : Process :=
  if exited p then p else
  match e with
  | ECall c =>
      if is_up (server_task p) then set_limiter (run_call policy access_cache_seconds c (limiter p)) p else p
  | ELinger c =>
      if is_up (server_task p) then p else set_limiter (run_call policy access_cache_seconds c (limiter p)) p
  | ETick => match flush_task p with Waiting => set_flush (Flushing flush_begin) p | _ => p end
  | EFlush pc bc =>
      match flush_task p with
      | Flushing (FDone _) => set_flush Waiting p
      | Flushing f => let '(l, f) := fstep pc bc (limiter p) f in set_flush (Flushing f) (set_limiter l p)
      | _ => p
      end
  | EFlushStops panicked =>
      match flush_task p with
      | Waiting => if panicked || shutdown p then set_flush (FlushEnded panicked) p else p
      | Flushing _ => if panicked then set_flush (FlushEnded true) p else p
      | FlushEnded _ => p
      end
  | EMetricsEnd e => match metrics_task p with Some Up => set_metrics (Some (Down e)) p | _ => p end
  | EBridgeEnd e => if is_up (bridge_task p) then set_bridge (Down e) p else p
  | EServerEnd e => if is_up (server_task p) then set_server (Down e) p else p
  | ESignal r =>
      match main_at p, r with
      | AwaitSignal, Ok _ =>
          mkProcess (limiter p) (flush_task p) (metrics_task p) (bridge_task p) (server_task p) true JoinFlush
      | AwaitSignal, Err _ => set_main (Exited (Err (Msg "failed to listen for shutdown signal"))) p
      | _, _ => p
      end
  | EMain pc bc => main_step pc bc p
  end.

Fixpoint run (events : list Event) (p : Process) : Process :=
  match events with [] => p | e :: rest => run rest (step e p) end.

Definition started (shard_count : nat) (st : St) (s : Services) : Process :=
  mkProcess (new shard_count st) Waiting (if metrics_on s then Some Up else None) Up Up false AwaitSignal.

End Machine.
