(* ===== verification/ProcessLaws.v ===== *)
(** * ProcessLaws: what the stop of the daemon guarantees

    The final flush runs alone, after everything that could charge has ended; on a clean exit
    what memory holds, the table holds, if it accepted the writes. And what the order of the
    joins costs: the final flush is not reached while the bridge is up, nor after it panicked. *)

From stdpp Require Import strings.
From S2P Require Import Prelude CreditsBlob TimeFrame Aggregation Storage Access ChargeProtocol.
From S2P Require Import Quota QuotaLaws Admission AdmissionSafe Flush RowMoves FlushSteps FlushConcurrent.
From S2P Require Import Process.

(** ** Start-up *)

(** The start-up is all or nothing, in order, except for what only observes. It succeeds
    exactly when the config, the session, both stores' statements and every configured listener
    do; the request log is then on exactly when it is enabled and its statements were prepared,
    and neither it nor the metrics can keep the daemon from starting; and a failure is the first
    one in [main]'s order, so that with an unreadable config nothing else is even tried. *)
Theorem boot_exact b :
  match boot b with
  | Ok s =>
      load b = Ok tt /\ session b = Ok tt /\ limiter_tables b = Ok tt /\ sequence_table b = Ok tt /\
      tcp_bind b = Ok tt /\ bridge_bind b = Ok tt /\ (forall e, unix_socket b <> Some (Err e)) /\
      (request_log_on s = true <-> request_log_enabled b = true /\ request_log_prepare b = Ok tt) /\
      metrics_on s = metrics_enabled b
  | Err _ =>
      exists e, load b = Err e \/ session b = Err e \/ limiter_tables b = Err e \/
        sequence_table b = Err e \/ tcp_bind b = Err e \/ unix_socket b = Some (Err e) \/ bridge_bind b = Err e
  end /\
  (forall e, load b = Err e -> is_panic e = false -> boot b = Err (Msg "fareward configuration is invalid")).
Proof.
  split.
  - unfold boot, with_context, mbind, result_bind.
    destruct (load b) as [[]|e] eqn:E1; simpl; [|eauto 10].
    destruct (session b) as [[]|e] eqn:E2; simpl; [|eauto 10].
    destruct (limiter_tables b) as [[]|e] eqn:E3; [|eauto 10].
    destruct (sequence_table b) as [[]|e] eqn:E4; [|eauto 10].
    destruct (tcp_bind b) as [[]|e] eqn:E5; simpl; [|eauto 10].
    destruct (unix_socket b) as [[[]|e]|] eqn:E6; simpl; [|eauto 10|];
      (destruct (bridge_bind b) as [[]|e'] eqn:E7; simpl; [|eauto 10]);
      split_and!; try done;
      (destruct (request_log_enabled b); [|by split; [|intros [? ?]]]);
      by destruct (request_log_prepare b) as [[]|e']; split; try (intros [? ?]).
  - intros e E Hp. unfold boot, with_context. rewrite E. simpl. by rewrite Hp.
Qed.

Section Laws.
Context {St : Type} `{LS : !LimiterStore St} `{SV : !StoreView St} `{SL : !StoreLaws St} `{ST : !StoreTyped St}.
Variables (policy : LimitPolicy) (access_cache_seconds : Z).

Abbreviation Process := (Process (St := St)).
Abbreviation step := (@Process.step St LS policy access_cache_seconds).
Abbreviation run := (@Process.run St LS policy access_cache_seconds).

(** The flush that is running, whoever runs it. *)
Definition current_flush (p : Process) : option Flusher :=
  match main_at p with
  | FinalFlush f => Some f
  | _ => match flush_task p with Flushing f => Some f | _ => None end
  end.

(** What [main] has seen end, at each of its places. *)
Definition joined (p : Process) : Prop :=
  match main_at p with
  | AwaitSignal | Exited (Err _) => True
  | JoinFlush => shutdown p = true
  | JoinMetrics | JoinBridge => shutdown p = true /\ exists b, flush_task p = FlushEnded b
  | JoinServer => shutdown p = true /\ (exists b, flush_task p = FlushEnded b) /\
      exists r, bridge_task p = Down (Finished r)
  | FinalFlush _ | Exited (Ok _) => shutdown p = true /\ (exists b, flush_task p = FlushEnded b) /\
      (exists r, bridge_task p = Down (Finished r)) /\ server_task p = Down (Finished (Ok tt))
  end.

Lemma exited_step e (p : Process) : exited p = true -> step e p = p.
Proof. intros He. unfold Process.step. by rewrite He. Qed.

(** Tasks end once; [main] has not moved. *)
Record later (p p' : Process) : Prop := {
  la_main : main_at p' = main_at p;
  la_shutdown : shutdown p' = shutdown p;
  la_flush b : flush_task p = FlushEnded b -> flush_task p' = FlushEnded b;
  la_bridge e : bridge_task p = Down e -> bridge_task p' = Down e;
  la_server e : server_task p = Down e -> server_task p' = Down e;
}.

Lemma joined_later p p' : later p p' -> joined p -> joined p'.
Proof.
  intros [L1 L2 L3 L4 L5]. unfold joined. rewrite L1, L2.
  destruct (main_at p) as [| | | | |f|[u|e]]; try done.
  - intros (? & b & ?). split; [done|]. exists b. auto.
  - intros (? & b & ?). split; [done|]. exists b. auto.
  - intros (? & (b & ?) & r & ?). split; [done|]. split; [exists b; auto|exists r; auto].
  - intros (? & (b & ?) & (r & ?) & ?). split; [done|]. split; [exists b; auto|]. split; [exists r; auto|auto].
  - intros (? & (b & ?) & (r & ?) & ?). split; [done|]. split; [exists b; auto|]. split; [exists r; auto|auto].
Qed.

Definition is_main (e : Event) : bool := match e with EMain _ _ | ESignal _ => true | _ => false end.
Definition lingers (e : Event) : bool := match e with ELinger _ => true | _ => false end.

Lemma later_step e (p : Process) : is_main e = false -> later p (step e p).
Proof.
  intros He. unfold Process.step. destruct (exited p); [done|].
  destruct e as [c|c| |pc bc|pan|e|e|e|r|pc bc]; try done.
  - by destruct (is_up (server_task p)).
  - by destruct (is_up (server_task p)).
  - destruct (flush_task p) eqn:Ef; [|done..]. split; try done. simpl. congruence.
  - destruct (flush_task p) as [|f|b] eqn:Ef; [done| |done].
    destruct f; try (destruct (fstep _ _ _ _) as [l' f']); split; simpl; try done; congruence.
  - destruct (flush_task p) as [|f|b] eqn:Ef; [destruct (pan || shutdown p)|destruct pan|]; try done;
      split; simpl; try done; congruence.
  - by destruct (metrics_task p) as [[]|].
  - destruct (bridge_task p) eqn:Eb; [|done]. split; simpl; try done. congruence.
  - destruct (server_task p) eqn:Es; [|done]. split; simpl; try done. congruence.
Qed.

Lemma main_step_final pc bc (p : Process) f :
  main_at p = FinalFlush f ->
  main_step pc bc p =
    match f with
    | FDone _ => set_main (Exited (Ok tt)) p
    | _ => set_main (FinalFlush (fstep pc bc (limiter p) f).2) (set_limiter (fstep pc bc (limiter p) f).1 p)
    end.
Proof.
  intros Hm. unfold main_step. rewrite Hm. destruct f; try done; by destruct (fstep _ _ _ _).
Qed.

Lemma joined_main_step pc bc (p : Process) : joined p -> joined (main_step pc bc p).
Proof.
  intros Hj. destruct (main_at p) as [| | | | |f|r] eqn:Em.
  - unfold main_step. by rewrite Em.
  - unfold main_step, joined in *. rewrite Em in *. destruct (flush_task p) as [| |b] eqn:Ef; simpl; try by rewrite Em.
    eauto.
  - unfold main_step, joined in *. rewrite Em in *. destruct (metrics_task p) as [[]|]; simpl; by rewrite ?Em.
  - unfold main_step, joined in *. rewrite Em in *. destruct Hj as [? ?].
    destruct (bridge_task p) as [|[r|]] eqn:Eb; simpl; [by rewrite Em| |done]. eauto.
  - unfold main_step, joined in *. rewrite Em in *. destruct Hj as (? & ? & ?).
    destruct (server_task p) as [|[[[]|e]|]] eqn:Eb; simpl; [by rewrite Em|eauto|done|done].
  - rewrite (main_step_final pc bc p f Em). unfold joined in *. rewrite Em in Hj. by destruct f.
  - unfold main_step. by rewrite Em.
Qed.

Lemma joined_step e (p : Process) : joined p -> joined (step e p).
Proof.
  intros Hj. destruct (is_main e) eqn:He; [|by eapply joined_later; [apply later_step|]].
  unfold Process.step. destruct (exited p); [done|]. destruct e; try done; [|by apply joined_main_step].
  unfold joined in *. destruct (main_at p) eqn:Em; destruct r; simpl; by rewrite ?Em.
Qed.

Lemma joined_run events (p : Process) : joined p -> joined (run events p).
Proof. revert p. induction events as [|e rest IH]; intros p Hj; [done|]. by apply IH, joined_step. Qed.

(** C27: the final flush runs alone. Whatever happened before, once [main] is in it the
    shutdown was signalled, the flush task and the server with every connection are over and
    the bridge too; nothing but [main]'s own steps changes the limiter or its place any more,
    so no charge is admitted after the final flush has begun, and none is in flight, save in a
    handler that was aborted in the middle of a poll. *)
Theorem final_flush_alone events shard_count st s f e :
  let p := run events (started shard_count st s) in
  main_at p = FinalFlush f ->
  (shutdown p = true /\ (exists b, flush_task p = FlushEnded b) /\
   (exists r, bridge_task p = Down (Finished r)) /\ server_task p = Down (Finished (Ok tt))) /\
  (is_main e = false -> main_at (step e p) = FinalFlush f /\ (lingers e = false -> limiter (step e p) = limiter p)).
Proof.
  intros p Hm. assert (joined p) as Hj by (by apply joined_run). unfold joined in Hj. rewrite Hm in Hj.
  split; [done|]. intros He. destruct Hj as (_ & [b Hf] & _ & Hs).
  split; [rewrite (la_main _ _ (later_step e p He)); exact Hm|]. intros Hli.
  unfold Process.step. destruct (exited p); [done|].
  destruct e as [c|c| |pc bc|pan|e|e|e|r|pc bc]; try done; rewrite ?Hf, ?Hs; try done.
  - by destruct (metrics_task p) as [[]|].
  - by destruct (is_up (bridge_task p)).
Qed.

(** ** A flush that runs alone leaves nothing dirty *)

(** Every write is accepted. *)
Definition accepting : Prop := forall k bs (s : St), bytes_ok bs -> (upsert k bs s).1 = Ok tt.

(** A snapshot of a row as it is. *)
Definition snapped (k : UsageKey) (r : UsageRecord) (ss : list UsageSnapshot) : Prop :=
  exists s, s ∈ ss /\ snap_key s = k /\ snap_version s = version r.

(** Each dirty row that can be encoded is still to be collected, or to be written. *)
Definition covered (l : RateLimiter St) (f : Flusher) : Prop := forall k r,
  find_row l k = Some r -> version r < U64_MAX -> (exists bs, CreditsBlob.encode (routes r) = Ok bs) ->
  is_clean r = false ->
  match f with
  | FCollect i acc =>
      Aggregation.company_id k <> PLATFORM_AGGREGATE_COMPANY_ID ->
      (shard_of l (Aggregation.company_id k) < i)%nat -> snapped k r acc
  | FWrite todo _ => snapped k r todo
  | FMark s todo _ => snapped k r (s :: todo)
  | _ => False
  end.

Lemma snapped_app_l k r ss ss' : snapped k r ss -> snapped k r (ss ++ ss').
Proof. intros (s & ? & ?). exists s. split; [|done]. apply elem_of_app. by left. Qed.

Lemma covered_begin (l : RateLimiter St) : covered l flush_begin.
Proof. intros k r _ _ _ _ _. lia. Qed.

Lemma snapped_fresh k r m ss : m !! k = Some r -> is_clean r = false -> snapped k r (ss ++ map_snapshots m).
Proof.
  intros Hk Hc. exists (mkUsageSnapshot k (routes r) (version r)). split; [|done].
  apply elem_of_app. right. apply map_snapshots_elem. by exists r.
Qed.

Lemma find_row_in_shard (l : RateLimiter St) k r :
  find_row l k = Some r -> Aggregation.company_id k <> PLATFORM_AGGREGATE_COMPANY_ID ->
  exists sh, shards l !! shard_of l (Aggregation.company_id k) = Some sh /\ usage sh !! k = Some r.
Proof. unfold find_row. intros E Hne. rewrite (proj2 (Z.eqb_neq _ _)) in E by done. by apply bind_Some in E. Qed.

Lemma covered_collect (l : RateLimiter St) i acc sh :
  shards l !! i = Some sh -> covered l (FCollect i acc) -> covered l (FCollect (S i) (acc ++ map_snapshots (usage sh))).
Proof.
  intros Hi C k r Hk Hv He Hc Hne Hlt. destruct (decide (shard_of l (Aggregation.company_id k) = i)) as [E|].
  - destruct (find_row_in_shard l k r Hk Hne) as (sh' & Hsh & Hu). rewrite E, Hi in Hsh. injection Hsh as <-.
    by apply snapped_fresh.
  - apply snapped_app_l. apply (C k r); try done. lia.
Qed.

Lemma covered_collected (l : RateLimiter St) i acc w :
  shards l !! i = None -> covered l (FCollect i acc) -> covered l (FWrite (acc ++ map_snapshots (platform_usage l)) w).
Proof.
  intros Hi C k r Hk Hv He Hc.
  destruct (decide (Aggregation.company_id k = PLATFORM_AGGREGATE_COMPANY_ID)) as [E|Hne].
  - apply snapped_fresh; [|done]. unfold find_row in Hk. by rewrite E, Z.eqb_refl in Hk.
  - apply snapped_app_l. destruct (find_row_in_shard l k r Hk Hne) as (sh & Hsh & _).
    apply (C k r); try done. apply lookup_lt_Some in Hsh. apply lookup_ge_None in Hi. lia.
Qed.

Lemma flush_snapshot_accepted s (st : St) bs :
  accepting -> CreditsBlob.encode (snap_routes s) = Ok bs -> (flush_snapshot s st).1 = Ok tt.
Proof.
  intros Ha He. unfold flush_snapshot, mbind, SE_bind, se_lift, ok_or. rewrite He. simpl.
  by apply Ha, (encode_bytes_ok (snap_routes s)).
Qed.

Lemma covered_write (l : RateLimiter St) s todo w :
  accepting -> FInv l (Some (FWrite (s :: todo) w)) -> covered l (FWrite (s :: todo) w) ->
  covered (with_store (flush_snapshot s (limiter_store l)).2 l)
    (match (flush_snapshot s (limiter_store l)).1 with Ok _ => FMark s todo w | Err _ => FWrite todo w end).
Proof.
  intros Ha I C. pose proof (fun bs => flush_snapshot_accepted s (limiter_store l) bs Ha) as Hacc.
  destruct (flush_snapshot s (limiter_store l)) as [[[]|e] st]; [exact C|].
  intros k r Hk Hv [bs He] Hc. change (find_row l k = Some r) in Hk.
  destruct (C k r Hk Hv ltac:(by exists bs) Hc) as (s' & [->|Hin]%elem_of_cons & Ek & Ev); [|by exists s'].
  destruct (fi_pending _ _ I s ltac:(by left)) as (r0 & Hr0 & _ & Heq).
  rewrite Ek, Hk in Hr0. injection Hr0 as <-. rewrite (Heq ltac:(done) Hv) in He.
  by specialize (Hacc bs He).
Qed.

Lemma covered_mark (l : RateLimiter St) s todo w :
  covered l (FMark s todo w) -> covered (limiter_mark_flushed s l) (FWrite todo (S w)).
Proof.
  intros C k r'. rewrite find_row_mark. case_decide as D.
  - intros (r & Hr & ->)%fmap_Some. rewrite routes_mark. unfold Aggregation.mark_flushed.
    destruct (Z.eqb_spec (version r) (snap_version s)) as [Ev|Ev]; intros Hv He Hc.
    { unfold is_clean in Hc. simpl in Hc. apply Z.eqb_neq in Hc. congruence. }
    destruct (C k r Hr Hv He Hc) as (s' & [->|Hin]%elem_of_cons & Ek & Ev'); [congruence|by exists s'].
  - intros Hk Hv He Hc. destruct (C k r' Hk Hv He Hc) as (s' & [->|Hin]%elem_of_cons & Ek & Ev'); [congruence|by exists s'].
Qed.

Lemma covered_fstep pc bc (l : RateLimiter St) f :
  accepting -> FInv l (Some f) -> covered l f -> covered (fstep pc bc l f).1 (fstep pc bc l f).2.
Proof.
  intros Ha I C.
  assert (Hstay : forall (l' : RateLimiter St) g,
    match f with FCollect _ _ | FWrite (_ :: _) _ | FMark _ _ _ => False | _ => True end ->
    (forall k r, find_row l' k = Some r -> find_row l k = Some r) -> covered l' g).
  { intros l' g Hf Hsub k r Hk%Hsub Hv He Hc. exfalso. specialize (C k r Hk Hv He Hc).
    destruct f as [| [|s todo] w| | | | | | |]; try done. by destruct C as (s & ?%not_elem_of_nil & _). }
  destruct f as [i acc|[|s todo] w|s todo w|i five day w|w|i wall u acc w|[|[u v] todo] w|u v todo w|w]; simpl.
  - destruct (shards l !! i) as [sh|] eqn:Hi; [by apply covered_collect|].
    pose proof (covered_collected l i acc 0 Hi C) as C'.
    destruct (acc ++ map_snapshots (platform_usage l)) as [|s ss]; [|exact C'].
    intros k r Hk Hv He Hc. by destruct (C' k r Hk Hv He Hc) as (s & ?%not_elem_of_nil & _).
  - destruct (prune_frames pc) as [[five day]|]; by apply Hstay.
  - pose proof (covered_write l s todo w Ha I C) as C'. by destruct (flush_snapshot s (limiter_store l)).
  - by apply covered_mark.
  - destruct (shards l !! i); apply Hstay; try done; [apply retain_shard_rows|apply retain_platform_rows].
  - destruct (mbind _ bc) as [[u wall]|]; by apply Hstay.
  - destruct (shards l !! i); by apply Hstay.
  - by apply Hstay.
  - destruct (upsert_budget_usage u (limiter_store l)). by apply Hstay.
  - destruct (mark_budget_rows u v l) as (_ & Hmf & _). apply Hstay; [done|]. intros k r. by rewrite Hmf.
  - exact C.
Qed.

(** ** The invariant of the process *)

Definition event_ok (e : Event) : Prop := match e with ECall c | ELinger c => call_ok c | _ => True end.

(** No handler that was aborted goes on into the final flush. *)
Definition settled (e : Event) (p : Process) : Prop := lingers e = true -> forall f, main_at p <> FinalFlush f.

Fixpoint all_settled (events : list Event) (p : Process) : Prop :=
  match events with [] => True | e :: rest => settled e p /\ all_settled rest (step e p) end.

Record Inv (p : Process) : Prop := {
  inv_joined : joined p;
  inv_rows : FInv (limiter p) (current_flush p);
  inv_covered : accepting -> match main_at p with
    | FinalFlush f => covered (limiter p) f
    | Exited (Ok _) => covered (limiter p) (FDone 0)
    | _ => True
    end;
}.

Lemma finv_none (l : RateLimiter St) f : FInv l f -> FInv l None.
Proof. intros I. by eapply finv_quiet; [exact I|done|done|intros k|..]. Qed.

Lemma finv_begin (l : RateLimiter St) f : FInv l f -> FInv l (Some flush_begin).
Proof.
  intros I. exact (finv_sys_step policy access_cache_seconds (mkSystem l None) (mkSystem l (Some flush_begin))
    (finv_none l f I) (sys_begin policy access_cache_seconds l)).
Qed.

Lemma finv_step pc bc (l : RateLimiter St) f :
  FInv l (Some f) -> FInv (fstep pc bc l f).1 (Some (fstep pc bc l f).2).
Proof. intros I. eapply finv_fstep; [exact I|apply surjective_pairing]. Qed.

(** Where [main] is, the running flush is the flush task's. *)
Definition task_flush (p : Process) : option Flusher :=
  match flush_task p with Flushing f => Some f | _ => None end.

Lemma rows_task (p : Process) :
  match main_at p with FinalFlush _ => False | _ => True end -> current_flush p = task_flush p.
Proof. intros Hm. unfold current_flush, task_flush. by destruct (main_at p). Qed.

(** Steps of the tasks: the rows and the running flush, while [main] has not begun its own. *)
Lemma finv_task_step e (p : Process) :
  event_ok e -> is_main e = false -> FInv (limiter p) (task_flush p) -> FInv (limiter (step e p)) (task_flush (step e p)).
Proof.
  intros Hok He I. unfold Process.step. destruct (exited p); [done|]. unfold task_flush in *.
  destruct e as [c|c| |pc bc|pan|e|e|e|r|pc bc]; try done.
  - destruct (is_up (server_task p)); [|done]. by apply finv_call.
  - destruct (is_up (server_task p)); [done|]. by apply finv_call.
  - destruct (flush_task p) eqn:Ef; simpl; rewrite ?Ef; try done. by eapply finv_begin.
  - destruct (flush_task p) as [|f|b] eqn:Ef; simpl; rewrite ?Ef; try done.
    pose proof (finv_step pc bc (limiter p) f I) as I'.
    destruct f; try (by eapply finv_none); by destruct (fstep _ _ _ _).
  - destruct (flush_task p) as [|f|b] eqn:Ef; [destruct (pan || shutdown p)|destruct pan|]; simpl; rewrite ?Ef; try done.
    by eapply finv_none.
  - by destruct (metrics_task p) as [[]|].
  - by destruct (is_up (bridge_task p)).
  - by destruct (is_up (server_task p)).
Qed.

(** Once [main] flushes, the tasks are still. *)
Lemma still_step e (p : Process) :
  joined p -> is_main e = false -> lingers e = false -> match main_at p with FinalFlush _ => True | _ => False end ->
  limiter (step e p) = limiter p.
Proof.
  intros Hj He Hli Hm. unfold joined in Hj. unfold Process.step, exited.
  destruct (main_at p) as [| | | | |f|r0] eqn:Em; try done. destruct Hj as (_ & [b Hf] & _ & Hs).
  destruct e as [c|c| |pc bc|pan|e|e|e|r|pc bc]; try done; rewrite ?Hf, ?Hs; try done.
  - by destruct (metrics_task p) as [[]|].
  - by destruct (is_up (bridge_task p)).
Qed.

Lemma inv_task_step e (p : Process) : event_ok e -> settled e p -> is_main e = false -> Inv p -> Inv (step e p).
Proof.
  intros Hok Hset He I. destruct (exited p) eqn:Hex; [by rewrite exited_step|]. destruct I as [I1 I2 I3].
  pose proof (later_step e p He) as Hl. pose proof (la_main _ _ Hl) as Em.
  assert (Hstill : forall f, main_at p = FinalFlush f -> limiter (step e p) = limiter p).
  { intros f E. apply still_step; [done|done| |by rewrite E]. apply not_true_iff_false. intros Hli. by apply (Hset Hli f). }
  split; [by apply joined_step| |].
  - destruct (main_at p) as [| | | | |f|r] eqn:E.
    6: { unfold current_flush in *. rewrite Em. rewrite E in I2. by rewrite (Hstill f). }
    all: rewrite rows_task in I2 |- * by (by rewrite ?Em, ?E); by apply finv_task_step.
  - rewrite Em. intros Ha. specialize (I3 Ha).
    destruct (main_at p) as [| | | | |f|[u|x]] eqn:E; try done; [by rewrite (Hstill f)|].
    unfold exited in Hex. by rewrite E in Hex.
Qed.

Lemma inv_main_step pc bc (p : Process) : Inv p -> Inv (main_step pc bc p).
Proof.
  intros [I1 I2 I3]. split; [by apply joined_main_step| |].
  - destruct (main_at p) as [| | | | |f|r] eqn:E.
    6: { rewrite (main_step_final pc bc p f E). unfold joined in I1. rewrite E in I1.
         destruct I1 as (_ & [b Hf] & _). unfold current_flush in *. rewrite E in I2.
         pose proof (finv_step pc bc (limiter p) f I2). destruct f; simpl in *; try done.
         rewrite Hf. by eapply finv_none. }
    all: unfold main_step, current_flush in *; rewrite E in *; try done.
    all: repeat (case_match; simpl in *; simplify_eq; rewrite ?E; try done).
    all: by eapply finv_begin.
  - intros Ha. specialize (I3 Ha). destruct (main_at p) as [| | | | |f|r] eqn:E.
    6: { rewrite (main_step_final pc bc p f E). unfold current_flush in I2. rewrite E in I2.
         pose proof (covered_fstep pc bc (limiter p) f Ha I2 I3). by destruct f. }
    all: unfold main_step; rewrite E in *; try done.
    all: repeat (case_match; simpl in *; simplify_eq; rewrite ?E; try done; try congruence).
    apply covered_begin.
Qed.

Lemma process_inv_step e (p : Process) : event_ok e -> settled e p -> Inv p -> Inv (step e p).
Proof.
  intros Hok Hset I. destruct (is_main e) eqn:He; [|by apply inv_task_step].
  unfold Process.step. destruct (exited p) eqn:Ex; [done|]. destruct e; try done; [|by apply inv_main_step].
  destruct I as [I1 I2 I3]. unfold joined, current_flush in *.
  split; unfold joined, current_flush; destruct (main_at p) eqn:E; destruct r; simpl; rewrite ?E; done.
Qed.

Lemma process_inv_run events (p : Process) : Forall event_ok events -> all_settled events p -> Inv p -> Inv (run events p).
Proof.
  intros He. revert p. induction He as [|e rest Hok _ IH]; intros p Hs I; [done|]. destruct Hs as [Hset Hs].
  by apply IH; [|apply process_inv_step].
Qed.

Lemma inv_started shard_count (st : St) s : Inv (started shard_count st s).
Proof. split; [done|apply finv_new|done]. Qed.

(** C9: a clean exit loses no charge. When [main] returns [Ok], whatever the connections
    called, however often and however far the periodic flush ran and whatever it failed to
    write, whether it panicked, whatever the clocks said, every row of usage in memory is in
    the usage table with its totals, given that the final flush's writes are accepted: what the
    process takes with it is stored, provided that no handler that was aborted is still in a
    poll when the final flush runs. Left out: a row that cannot be encoded, and one whose
    version reached the 64-bit limit. *)
Theorem clean_exit_durable events shard_count st s p k r :
  accepting -> Forall event_ok events -> all_settled events (started shard_count st s) ->
  p = run events (started shard_count st s) ->
  main_at p = Exited (Ok tt) -> find_row (limiter p) k = Some r ->
  version r < U64_MAX -> (exists bs, CreditsBlob.encode (routes r) = Ok bs) ->
  row_durable (limiter_store (limiter p)) k r.
Proof.
  intros Ha He Hset -> Hm Hk Hv Henc. pose proof (process_inv_run events _ He Hset (inv_started shard_count st s)) as I. set (p := run _ _) in *.
  destruct (fi_rows _ _ (inv_rows _ I) k r Hk) as (_ & _ & Hd). destruct (is_clean r) eqn:Hc; [by apply Hd|].
  pose proof (inv_covered _ I Ha) as C. rewrite Hm in C. by destruct (C k r Hk Hv Henc Hc).
Qed.

Lemma run_main n pc bc (q : Process) :
  exited q = false -> run (replicate (S n) (EMain pc bc)) q = run (replicate n (EMain pc bc)) (main_step pc bc q).
Proof. intros He. simpl. f_equal. unfold Process.step. by rewrite He. Qed.

(** The final flush, stepped by [main] alone, ends the process with what it made. *)
Lemma final_alone pc bc (x y : RateLimiter St * Flusher) (q : Process) w :
  alone pc bc x y -> y.2 = FDone w -> main_at q = FinalFlush x.2 -> limiter q = x.1 ->
  exists n, let p' := run (replicate n (EMain pc bc)) q in main_at p' = Exited (Ok tt) /\ limiter p' = y.1.
Proof.
  intros Hxy. revert q w. induction Hxy as [x|x z y Hz _ IH]; intros q w Hy Hq Hl.
  all: assert (exited q = false) as He by (unfold exited; by rewrite Hq).
  - exists 1%nat. cbv zeta. rewrite (run_main 0), (main_step_final pc bc q x.2 Hq), Hy by done. by split.
  - assert (Hd : (exists w', x.2 = FDone w') \/ forall w', x.2 <> FDone w') by (destruct x.2; eauto; by right).
    destruct Hd as [[w' Hw]|Hd].
    + assert (z = x) as -> by (rewrite <- Hz; destruct x as [lx fx]; simpl in *; by subst fx). by apply (IH q w).
    + assert (main_step pc bc q = set_main (FinalFlush z.2) (set_limiter z.1 q)) as Eq.
      { rewrite (main_step_final pc bc q x.2 Hq), Hl, Hz. destruct x.2 as [| | | | | | | |w'] eqn:Ex; try done. by destruct (Hd w'). }
      destruct (IH (main_step pc bc q) w Hy) as [n Hn]; [by rewrite Eq..|].
      exists (S n). cbv zeta. by rewrite run_main.
Qed.

(** With every task over, the four joins. *)
Lemma joins_done pc bc n (p : Process) b r :
  main_at p = JoinFlush -> flush_task p = FlushEnded b -> metrics_task p <> Some Up ->
  bridge_task p = Down (Finished r) -> server_task p = Down (Finished (Ok tt)) ->
  run (replicate (4 + n) (EMain pc bc)) p = run (replicate n (EMain pc bc)) (set_main (FinalFlush flush_begin) p).
Proof.
  intros Hm Hf Hmt Hb Hs. simpl plus.
  rewrite run_main by (unfold exited; by rewrite Hm).
  replace (main_step pc bc p) with (set_main JoinMetrics p) by (unfold main_step; by rewrite Hm, Hf).
  rewrite run_main by done.
  replace (main_step pc bc (set_main JoinMetrics p)) with (set_main JoinBridge p)
    by (unfold main_step; simpl; by destruct (metrics_task p) as [[]|]).
  rewrite run_main by done.
  replace (main_step pc bc (set_main JoinBridge p)) with (set_main JoinServer p)
    by (unfold main_step; simpl; by rewrite Hb).
  rewrite run_main by done.
  by replace (main_step pc bc (set_main JoinServer p)) with (set_main (FinalFlush flush_begin) p)
    by (unfold main_step; simpl; by rewrite Hs).
Qed.

(** C28: once every task has ended well, the stop completes. From the signal on, with the flush
    and the metrics task over, the bridge over with or without an error and the server's
    [run] returned [Ok], finitely many steps of [main] alone take it to [Exited (Ok)], and what they
    did to the limiter is exactly one [flush_dirty]. *)
Theorem stop_completes pc bc (p : Process) :
  main_at p = JoinFlush -> (exists b, flush_task p = FlushEnded b) -> metrics_task p <> Some Up ->
  (exists r, bridge_task p = Down (Finished r)) -> server_task p = Down (Finished (Ok tt)) ->
  exists n, let p' := run (replicate n (EMain pc bc)) p in
    main_at p' = Exited (Ok tt) /\ limiter p' = (flush_dirty pc bc (limiter p)).2.
Proof.
  intros Hm [b Hf] Hmt [r Hb] Hs.
  pose proof (flush_alone pc bc (limiter p)) as Ha. destruct (flush_dirty pc bc (limiter p)) as [w l'].
  destruct (final_alone pc bc _ _ (set_main (FinalFlush flush_begin) p) w Ha) as [n Hn]; [done..|].
  exists (4 + n)%nat. cbv zeta. rewrite (joins_done pc bc n p b r Hm Hf Hmt Hb Hs). exact Hn.
Qed.

End Laws.

(** ** A day with one charge, over the store that keeps what is written *)

Module Stopping.
Import Kept.

Abbreviation Process := (@Process.Process T).

Definition launch : Process := started 4 (∅ : T) (mkServices false false false).
Definition go (events : list Event) (p : Process) : Process := Process.run late_policy 60 events p.

Definition signalled : list Event :=
  [ECall charge; ESignal (Ok tt); EFlushStops false].
Definition all_over : list Event :=
  signalled ++ [EBridgeEnd (Finished (Ok tt)); EServerEnd (Finished (Ok tt))].
Definition mains (n : nat) : list Event := replicate n (EMain (Ok late_time) (Ok late_time)).
Definition to_final : list Event := all_over ++ mains 4.
Definition to_exit : list Event := all_over ++ mains 40.

Definition stopping : Process := go all_over launch.
Abbreviation in_final := (Process.run late_policy 60 to_final (started 4 (∅ : T) (mkServices false false false))).
Abbreviation over := (Process.run late_policy 60 to_exit (started 4 (∅ : T) (mkServices false false false))).
Definition stored_row : UsageRecord := mkUsageRecord [(103, mkCredits 3 0)] 1 1.
Definition lost_row : UsageRecord := mkUsageRecord [(103, mkCredits 3 0)] 1 0.

Lemma all_ok : Forall event_ok to_exit.
Proof.
  unfold to_exit. apply Forall_app. split; [|by apply Forall_replicate].
  constructor; [exact charge_ok|]. by repeat constructor.
Qed.

Lemma kept_accepts : @accepting T _.
Proof. intros k bs s Hb. simpl. by destruct (decide (bytes_ok bs)). Qed.

Lemma all_settled_ok : all_settled late_policy 60 to_exit (started 4 (∅ : T) (mkServices false false false)).
Proof.
  assert (Hno : forall events (p : Process), Forall (fun e => lingers e = false) events -> all_settled late_policy 60 events p).
  { intros events p He. revert p. induction He as [|e rest Hl _ IH]; intros p; [exact I|]. split; [|apply IH].
    intros Hli. congruence. }
  apply Hno. unfold to_exit. apply Forall_app. split; [by repeat constructor|by apply Forall_replicate].
Qed.

(** A charge that asks for the final flush's attention finds no server. *)
Lemma final_flush_alone_witness :
  shutdown in_final = true /\ limiter (Process.step late_policy 60 (ECall charge) in_final) = limiter in_final.
Proof.
  assert (main_at in_final = FinalFlush flush_begin) as Hm by (vm_compute; reflexivity).
  pose proof (final_flush_alone late_policy 60 to_final 4 (∅ : T) (mkServices false false false) flush_begin
    (ECall charge)) as Ha. cbv zeta in Ha. destruct (Ha Hm) as [[Hs _] Hk].
  destruct (Hk eq_refl) as [_ Hl]. split; [exact Hs|exact (Hl eq_refl)].
Defined.

Lemma clean_exit_durable_witness :
  main_at over = Exited (Ok tt) /\ row_durable (limiter_store (limiter over)) raced_key stored_row.
Proof.
  assert (main_at over = Exited (Ok tt)) as Hm by (vm_compute; reflexivity).
  assert (find_row (limiter over) raced_key = Some stored_row) as Hk by (vm_compute; reflexivity).
  assert (version stored_row < U64_MAX) as Hv by (vm_compute; reflexivity).
  assert (exists bs, CreditsBlob.encode (routes stored_row) = Ok bs) as He by (eexists; vm_compute; reflexivity).
  split; [exact Hm|].
  exact (clean_exit_durable late_policy 60 to_exit 4 (∅ : T) (mkServices false false false) over raced_key stored_row
    kept_accepts all_ok all_settled_ok (eq_refl over) Hm Hk Hv He).
Defined.

Lemma stop_completes_witness :
  main_at stopping = JoinFlush /\
  exists n, let p' := go (mains n) stopping in
    main_at p' = Exited (Ok tt) /\
    limiter p' = (flush_dirty (Ok late_time) (Ok late_time) (limiter stopping)).2.
Proof.
  assert (main_at stopping = JoinFlush) as Hm by (vm_compute; reflexivity).
  assert (flush_task stopping = FlushEnded false) as Hf by (vm_compute; reflexivity).
  assert (metrics_task stopping = None) as Hmt by (vm_compute; reflexivity).
  assert (bridge_task stopping = Down (Finished (Ok tt))) as Hb by (vm_compute; reflexivity).
  assert (server_task stopping = Down (Finished (Ok tt))) as Hs by (vm_compute; reflexivity).
  assert (metrics_task stopping <> Some Up) as Hmt' by (rewrite Hmt; discriminate).
  split; [exact Hm|].
  exact (stop_completes late_policy 60 (Ok late_time) (Ok late_time) stopping Hm
    (ex_intro _ false Hf) Hmt' (ex_intro _ (Ok tt) Hb) Hs).
Defined.

(** What the abort does not wait for: a handler still in its poll when the final flush has
    collected its rows. The charge is admitted, the process exits cleanly, and the row it
    dirtied was never written. *)
Theorem lingering_charge_is_lost :
  let p := go ([ESignal (Ok tt); EFlushStops false; EBridgeEnd (Finished (Ok tt)); EServerEnd (Finished (Ok tt))] ++
               mains 9 ++ [ELinger charge] ++ mains 30) launch in
  main_at p = Exited (Ok tt) /\ find_row (limiter p) raced_key = Some lost_row /\ is_clean lost_row = false /\
  usage_view (limiter_store (limiter p)) raced_key = None.
Proof. vm_compute. split_and!; reflexivity. Qed.

(** The order of the joins has a price: [main] leaves with an error as soon as it joins a
    bridge that panicked, before the final flush. The flush task is over, the server too, and
    the charge it admitted is in memory only. *)
Theorem bridge_panic_skips_final_flush :
  let p := go (signalled ++ [EBridgeEnd Panicked_; EServerEnd (Finished (Ok tt))] ++ mains 3) launch in
  main_at p = Exited (Err (Msg "bridge task failed")) /\
  find_row (limiter p) raced_key = Some lost_row /\ is_clean lost_row = false /\
  usage_view (limiter_store (limiter p)) raced_key = None.
Proof. vm_compute. split_and!; reflexivity. Qed.

(** And it waits for a bridge that stays up: however often [main] is polled, the periodic
    flush is over and the final one has not begun. *)
Theorem bridge_up_holds_final_flush n :
  main_at (go (signalled ++ [EServerEnd (Finished (Ok tt))] ++ mains (2 + n)) launch) = JoinBridge.
Proof.
  set (p := go (signalled ++ [EServerEnd (Finished (Ok tt))] ++ mains 2) launch).
  assert (forall q : Process, main_at q = JoinBridge -> bridge_task q = Up -> main_at (go (mains n) q) = JoinBridge) as Hstay.
  { intros q Hm Hb. revert q Hm Hb. induction n as [|k IH]; intros q Hm Hb; [exact Hm|].
    change (main_at (go (mains k) (Process.step late_policy 60 (EMain (Ok late_time) (Ok late_time)) q)) = JoinBridge).
    assert (Process.step late_policy 60 (EMain (Ok late_time) (Ok late_time)) q = q) as ->
      by (unfold Process.step, exited, main_step; by rewrite Hm, Hb).
    by apply IH. }
  assert (main_at p = JoinBridge) as Hm by (vm_compute; reflexivity).
  assert (bridge_task p = Up) as Hb by (vm_compute; reflexivity).
  exact (Hstay p Hm Hb).
Qed.

End Stopping.
