(* ===== verification/BridgeToken.v ===== *)
(** * BridgeToken: the bridge's token codecs, src/src/bridge/token.rs

    The channel token, a pair of LEB128 varints and six bytes of entropy in base64url, and the
    shape of the session token. A [&str] is the list of its characters, as scalar values.

    The base64 crate is the class [Base64], with the two laws its strict engines document (no
    padding, no trailing bits); [Rfc4648] is an implementation of it over any alphabet, in which
    the cross-language vectors of the unit tests are checked. The colbin decoder is a
    parameter. *)

From Stdlib Require Import Ascii String.
From S2P Require Import Prelude.

(** ** Text *)

Abbreviation str := (list Z).

Definition is_char (c : Z) : bool :=
  ((0 <=? c) && (c <=? 0xD7FF)) || ((0xE000 <=? c) && (c <=? 0x10FFFF)).
Definition str_ok (s : str) : Prop := Forall (fun c => is_char c = true) s.

(** A literal of the source. *)
Fixpoint lit (s : string) : str :=
  match s with
  | EmptyString => []
  | String c r => Z.of_N (N_of_ascii c) :: lit r
  end.

(** [str::as_bytes]: UTF-8. *)
Definition utf8_char (c : Z) : bytes :=
  if c <? 0x80 then [c]
  else if c <? 0x800 then [0xC0 + c / 64; 0x80 + c mod 64]
  else if c <? 0x10000 then [0xE0 + c / 4096; 0x80 + c / 64 mod 64; 0x80 + c mod 64]
  else [0xF0 + c / 262144; 0x80 + c / 4096 mod 64; 0x80 + c / 64 mod 64; 0x80 + c mod 64].
Definition as_bytes (s : str) : bytes := flat_map utf8_char s.

(** [char::is_whitespace], and [str::trim] over it. *)
Definition is_whitespace (c : Z) : bool :=
  ((9 <=? c) && (c <=? 13)) || (c =? 0x20) || (c =? 0x85) || (c =? 0xA0) || (c =? 0x1680)
  || ((0x2000 <=? c) && (c <=? 0x200A)) || (c =? 0x2028) || (c =? 0x2029) || (c =? 0x202F)
  || (c =? 0x205F) || (c =? 0x3000).

Fixpoint trim_start (s : str) : str :=
  match s with c :: r => if is_whitespace c then trim_start r else s | [] => [] end.
Definition trim (s : str) : str := reverse (trim_start (reverse (trim_start s))).

(** ** Varints *)

Fixpoint read_uvarint_from (bs : bytes) (value shift : Z) (index : nat) : option (Z * nat) :=
  match bs with
  | [] => None
  | byte :: rest =>
      if 63 <? shift then None
      else
        let value := Z.lor value (wrap 64 (Z.shiftl (Z.land byte 0x7F) shift)) in
        if Z.land byte 0x80 =? 0 then Some (value, S index)
        else read_uvarint_from rest value (shift + 7) (S index)
  end.

Definition read_uvarint (bs : bytes) : option (Z * nat) := read_uvarint_from bs 0 0 0.

(** The loop of [append_uvarint]: a [u64] takes at most ten turns. *)
Fixpoint uvarint_loop (fuel : nat) (value : Z) : bytes :=
  match fuel with
  | O => []
  | S k =>
      if 0x80 <=? value then Z.lor (wrap 8 value) 0x80 :: uvarint_loop k (Z.shiftr value 7)
      else [wrap 8 value]
  end.

Definition append_uvarint (output : bytes) (value : Z) : bytes := output ++ uvarint_loop 10 value.

(** ** Base64 *)

Class Base64 := { b64_encode : bytes -> str; b64_decode : str -> option bytes }.

Class Base64Laws `{Base64} : Prop := {
  b64_decode_encode bs : bytes_ok bs -> b64_decode (b64_encode bs) = Some bs;
  b64_encode_decode s bs : b64_decode s = Some bs -> bytes_ok bs /\ b64_encode bs = s;
}.

(** ** Tokens *)

Inductive TokenError :=
| SessionBase64
| Session (error : string)
| SessionHashWidth
| ChannelBase64
| ChannelCompanyID
| ChannelUserID
| ChannelTabID
| ChannelRange
| ChannelNotCanonical.

#[export] Instance TokenError_eq_dec : EqDecision TokenError.
Proof. solve_decision. Defined.

Record UserToken := mkUserToken {
  company_id : Z;
  id : Z;
  created : Z;
  hash : bytes;
  user : str;
}.

(** The session token as colbin carries it: the same fields, the hash of any width. *)
Record SessionMessage := mkSessionMessage {
  sm_company_id : Z;
  sm_id : Z;
  sm_created : Z;
  sm_hash : bytes;
  sm_user : str;
}.

Definition decode_session_token (decode : bytes -> result string SessionMessage) (payload : bytes) :
    result TokenError UserToken :=
  message ← map_err Session (decode payload);
  if (length (sm_hash message) =? 16)%nat
  then Ok (mkUserToken (sm_company_id message) (sm_id message) (sm_created message)
             (sm_hash message) (sm_user message))
  else Err SessionHashWidth.

Definition decode_session_base64 (decode : str -> option bytes) (encoded_token : str) :
    result TokenError bytes := ok_or SessionBase64 (decode encoded_token).

Definition TAB_RANDOM_BYTES : nat := 6.

Section ChannelToken.
Context `{B : Base64}.

Definition encode_channel_token (company_id user_id : Z) (tab_id : str) : option str :=
  tab_bytes ← b64_decode tab_id;
  if negb (length tab_bytes =? TAB_RANDOM_BYTES)%nat || (company_id <=? 0) || (user_id <=? 0)
  then None
  else
    let token_bytes := append_uvarint (append_uvarint [] (wrap 64 company_id)) (wrap 64 user_id) in
    Some (b64_encode (token_bytes ++ tab_bytes)).

Definition decode_channel_token (channel_token : str) : result TokenError (Z * Z * str) :=
  token_bytes ← ok_or ChannelBase64 (b64_decode channel_token);
  '(company_value, company_byte_count) ← ok_or ChannelCompanyID (read_uvarint token_bytes);
  '(user_value, user_byte_count) ←
    ok_or ChannelUserID (read_uvarint (drop company_byte_count token_bytes));
  let tab_bytes := drop (company_byte_count + user_byte_count) token_bytes in
  if negb (length tab_bytes =? TAB_RANDOM_BYTES)%nat then Err ChannelTabID
  else if (company_value =? 0) || (user_value =? 0) || (I32_MAX <? company_value)
          || (I32_MAX <? user_value)
  then Err ChannelRange
  else
    let company_id := swrap 32 company_value in
    let user_id := swrap 32 user_value in
    let tab_id := b64_encode tab_bytes in
    if bool_decide (encode_channel_token company_id user_id tab_id = Some channel_token)
    then Ok (company_id, user_id, tab_id)
    else Err ChannelNotCanonical.

End ChannelToken.

(** ** An implementation of base64 *)

Section Rfc4648.
(** The 64 characters, as code points. *)
Variable alphabet : str.

Definition digit (n : Z) : Z := default 0 (alphabet !! Z.to_nat n).
Definition digit_value (c : Z) : option Z :=
  (fun '(i, _) => Z.of_nat i) <$> list_find (fun x => x = c) alphabet.

Fixpoint rfc_encode (bs : bytes) : str :=
  match bs with
  | a :: b :: c :: rest =>
      digit (a / 4) :: digit (a mod 4 * 16 + b / 16) :: digit (b mod 16 * 4 + c / 64)
      :: digit (c mod 64) :: rfc_encode rest
  | [a; b] => [digit (a / 4); digit (a mod 4 * 16 + b / 16); digit (b mod 16 * 4)]
  | [a] => [digit (a / 4); digit (a mod 4 * 16)]
  | [] => []
  end.

Fixpoint rfc_decode (s : str) : option bytes :=
  match s with
  | w :: x :: y :: z :: rest =>
      w ← digit_value w; x ← digit_value x; y ← digit_value y; z ← digit_value z;
      tail ← rfc_decode rest;
      Some (w * 4 + x / 16 :: x mod 16 * 16 + y / 4 :: y mod 4 * 64 + z :: tail)
  | [w; x; y] =>
      w ← digit_value w; x ← digit_value x; y ← digit_value y;
      if y mod 4 =? 0 then Some [w * 4 + x / 16; x mod 16 * 16 + y / 4] else None
  | [w; x] =>
      w ← digit_value w; x ← digit_value x;
      if x mod 16 =? 0 then Some [w * 4 + x / 16] else None
  | [_] => None
  | [] => Some []
  end.

End Rfc4648.

Definition URL_SAFE : str :=
  lit "ABCDEFGHIJKLMNOPQRSTUVWXYZabcdefghijklmnopqrstuvwxyz0123456789-_".
Definition SORTABLE_ALPHABET : str :=
  lit "-0123456789ABCDEFGHIJKLMNOPQRSTUVWXYZ_abcdefghijklmnopqrstuvwxyz".

Definition url_safe : Base64 := {|
  b64_encode := rfc_encode URL_SAFE; b64_decode := rfc_decode URL_SAFE |}.
