(* ===== verification/BridgeTokenLaws.v ===== *)
(** * BridgeTokenLaws: the channel token is a bijection

    The varint and base64 round trips, and what the channel registry relies on: an accepted
    token and the triple it names determine each other. *)

From Stdlib Require Import Ascii String.
From S2P Require Import Prelude BridgeToken.

(** ** Varints *)

(** Facts of one byte, by enumeration. *)
Lemma byte_facts (P : Z -> bool) :
  forallb (fun n => P (Z.of_nat n)) (seq 0 256) = true -> forall b, in_u8 b -> P b = true.
Proof.
  intros Hall b Hb. rewrite forallb_forall in Hall.
  specialize (Hall (Z.to_nat b)). rewrite Z2Nat.id in Hall by bounds. apply Hall.
  apply in_seq. widths. lia.
Qed.

Lemma group_more v :
  0 <= v -> let b := Z.lor (wrap 8 v) 0x80 in
  Z.land b 0x7F = v mod 128 /\ Z.land b 0x80 =? 0 = false /\ in_u8 b.
Proof.
  intros Hv. pose proof (wrap_bound 8 v).
  pose proof (byte_facts (fun b => let c := Z.lor b 0x80 in
    (Z.land c 0x7F =? b mod 128) && negb (Z.land c 0x80 =? 0) && is_byte c)
    ltac:(vm_compute; reflexivity) (wrap 8 v) ltac:(bounds)) as E.
  cbv zeta in *. unfold is_byte in E. fw_bool. split_and!; [|by apply Z.eqb_neq|bounds].
  replace (v mod 128) with (wrap 8 v mod 128); [done|]. unfold wrap.
  symmetry. apply (Znumtheory.Zmod_div_mod 128); [lia..|]. by exists 2.
Qed.

Lemma group_last v : 0 <= v < 128 -> Z.land v 0x7F = v /\ (Z.land v 0x80 =? 0) = true.
Proof.
  intros Hv. pose proof (byte_facts (fun b => negb (b <? 128) ||
    (Z.land b 0x7F =? b) && (Z.land b 0x80 =? 0)) ltac:(vm_compute; reflexivity) v ltac:(bounds)) as E.
  rewrite orb_true_iff in E. destruct E as [E|E]; fw_bool; [lia|]. by rewrite Z.eqb_eq.
Qed.

(** One group lands above the ones already read. *)
Lemma group_lor acc x shift :
  0 <= shift -> 0 <= acc < 2 ^ shift -> 0 <= x * 2 ^ shift < 2 ^ 64 ->
  Z.lor acc (wrap 64 (Z.shiftl x shift)) = acc + x * 2 ^ shift.
Proof.
  intros Hs Ha Hx. rewrite wrap_small; [by apply lor_shifted|].
  rewrite Z.shiftl_mul_pow2 by done. lia.
Qed.

Lemma read_loop fuel v acc j k rest :
  0 <= v < 2 ^ (7 * Z.of_nat fuel) -> 0 <= acc < 2 ^ (7 * Z.of_nat j) ->
  0 <= v * 2 ^ (7 * Z.of_nat j) < 2 ^ 64 -> (j + fuel <= 10)%nat ->
  read_uvarint_from (uvarint_loop fuel v ++ rest) acc (7 * Z.of_nat j) k =
    Some (acc + v * 2 ^ (7 * Z.of_nat j), (k + length (uvarint_loop fuel v))%nat) \/ fuel = O.
Proof.
  revert v acc j k. induction fuel as [|fuel IH]; intros v acc j k Hv Ha Hb Hj; [by right|left].
  assert (0 < 2 ^ (7 * Z.of_nat j)) by (apply Z.pow_pos_nonneg; lia).
  simpl uvarint_loop. destruct (Z.leb_spec 0x80 v).
  - pose proof (group_more v ltac:(lia)) as (E1 & E2 & _).
    rewrite <- app_comm_cons. cbn [read_uvarint_from].
    destruct (Z.ltb_spec 63 (7 * Z.of_nat j)); [lia|].
    rewrite E1, E2. pose proof (Z.mod_pos_bound v 128). pose proof (Z.div_mod v 128).
    rewrite group_lor; [|lia|done|nia].
    assert (E : 2 ^ (7 * Z.of_nat (S j)) = 128 * 2 ^ (7 * Z.of_nat j)).
    { replace (7 * Z.of_nat (S j)) with (7 + 7 * Z.of_nat j) by lia. by rewrite Z.pow_add_r by lia. }
    assert (Z.shiftr v 7 = v / 128) as -> by (by rewrite Z.shiftr_div_pow2).
    assert (2 ^ (7 * Z.of_nat (S fuel)) = 128 * 2 ^ (7 * Z.of_nat fuel)) as Ef.
    { replace (7 * Z.of_nat (S fuel)) with (7 + 7 * Z.of_nat fuel) by lia. by rewrite Z.pow_add_r by lia. }
    replace (7 * Z.of_nat j + 7) with (7 * Z.of_nat (S j)) by lia.
    destruct (IH (v / 128) (acc + v mod 128 * 2 ^ (7 * Z.of_nat j)) (S j) (S k)) as [->| ->].
    + split; [apply Z.div_pos; lia|]. apply Z.div_lt_upper_bound; lia.
    + rewrite E. nia.
    + rewrite E. split; [apply Z.mul_nonneg_nonneg; [apply Z.div_pos|]; lia|].
      assert (v / 128 * 128 <= v) by lia. nia.
    + lia.
    + rewrite E. f_equal. f_equal; [nia|]. simpl length. lia.
    + simpl in Ef, Hv. rewrite Ef in Hv. lia.
  - pose proof (group_last v ltac:(lia)) as (E1 & E2).
    rewrite (wrap_small 8) by (simpl; lia). cbn [app read_uvarint_from].
    destruct (Z.ltb_spec 63 (7 * Z.of_nat j)); [lia|].
    rewrite E1, E2, group_lor by (done || lia). f_equal. f_equal. simpl. lia.
Qed.

Lemma uvarint_roundtrip v rest :
  in_u64 v ->
  read_uvarint (uvarint_loop 10 v ++ rest) = Some (v, length (uvarint_loop 10 v)).
Proof.
  intros Hv. destruct (read_loop 10 v 0 0 0 rest) as [E|E]; [widths; simpl; lia..| |done].
  change (7 * Z.of_nat 0) with 0 in E. unfold read_uvarint. rewrite E. f_equal. f_equal. lia.
Qed.

Lemma uvarint_bytes fuel v : 0 <= v -> bytes_ok (uvarint_loop fuel v).
Proof.
  revert v. induction fuel as [|fuel IH]; intros v Hv; [by apply Forall_nil|].
  cbn [uvarint_loop]. case_match.
  - destruct (group_more v Hv) as (_ & _ & Hb). apply Forall_cons; split; [exact Hb|]. apply IH. by apply Z.shiftr_nonneg.
  - solve_bytes. pose proof (wrap_bound 8 v). bounds.
Qed.

(** ** The channel token *)

Section Token.
Context `{B : Base64, !Base64Laws}.

Lemma decode_encodes company user tab token :
  decode_channel_token token = Ok (company, user, tab) ->
  encode_channel_token company user tab = Some token.
Proof.
  unfold decode_channel_token. intros E.
  apply result_bind_ok in E as (bs & _ & E). apply result_bind_ok in E as ([cv cn] & _ & E).
  apply result_bind_ok in E as ([uv un] & _ & E). cbv zeta in E.
  repeat (case_match; try done). fw_bool. by simplify_eq.
Qed.

Lemma encode_decodes company user tab token :
  in_i32 company -> in_i32 user ->
  encode_channel_token company user tab = Some token ->
  decode_channel_token token = Ok (company, user, tab).
Proof.
  intros Hc Hu E. pose proof E as E0. unfold encode_channel_token in E.
  destruct (b64_decode tab) as [tb|] eqn:Etab; [|done]. simpl in E. case_match; [done|].
  fw_bool. injection E as <-. rewrite !wrap_small in * by (widths; simpl; lia).
  unfold append_uvarint. rewrite app_nil_l.
  assert (bytes_ok tb /\ b64_encode tb = tab) as [Htb Hte] by by apply b64_encode_decode.
  unfold decode_channel_token. rewrite b64_decode_encode.
  2: { rewrite !bytes_ok_app. split_and!; [apply uvarint_bytes; lia..|done]. }
  cbn [ok_or mbind result_bind]. rewrite <- app_assoc.
  rewrite uvarint_roundtrip by (widths; lia). cbn [ok_or mbind result_bind].
  rewrite drop_app_length, uvarint_roundtrip by (widths; lia). cbn [ok_or mbind result_bind].
  rewrite (app_assoc (uvarint_loop 10 company)), <- length_app, drop_app_length.
  rewrite Hte, !(swrap_small 32) by (widths; lia). rewrite E0, H0.
  assert ((company =? 0) || (user =? 0) || (I32_MAX <? company) || (I32_MAX <? user) = false)
    as -> by (rewrite !orb_false_iff, !Z.eqb_neq, !Z.ltb_ge; widths; lia).
  unfold append_uvarint. rewrite app_nil_l. cbn [negb]. by rewrite bool_decide_true by done.
Qed.

(** The channel token is a bijection with the triple it names: [decode_channel_token]
    accepts a string exactly when it is what [encode_channel_token] writes for the company, the
    user and the tab it returns, for every pair of 32-bit ids. So two different strings never
    name one tab, and one string never names two. *)
Theorem channel_token_bijection company user tab token :
  in_i32 company -> in_i32 user ->
  decode_channel_token token = Ok (company, user, tab) <->
  encode_channel_token company user tab = Some token.
Proof. split; [apply decode_encodes|by apply encode_decodes]. Qed.
End Token.

(** ** The base64 implementation satisfies the laws *)

Section Rfc4648Laws.
Variable alphabet : str.
Hypothesis alphabet_64 : length alphabet = 64%nat.
Hypothesis alphabet_distinct : NoDup alphabet.

Lemma digit_value_digit n : 0 <= n < 64 -> digit_value alphabet (digit alphabet n) = Some n.
Proof.
  intros Hn. unfold digit_value, digit.
  destruct (lookup_lt_is_Some_2 alphabet (Z.to_nat n) ltac:(lia)) as [c Hc]. rewrite Hc.
  cbn [default from_option]. destruct (list_find _ _) as [[i x]|] eqn:E.
  - apply list_find_Some in E as (Hi & -> & _). cbn. f_equal.
    rewrite (NoDup_lookup _ _ _ _ alphabet_distinct Hi Hc). lia.
  - apply list_find_None in E. rewrite Forall_lookup in E. by destruct (E _ _ Hc).
Qed.

Lemma digit_of_value c n : digit_value alphabet c = Some n -> 0 <= n < 64 /\ digit alphabet n = c.
Proof.
  unfold digit_value, digit. intros E. apply fmap_Some in E as ([i x] & E & ->).
  apply list_find_Some in E as (Hi & -> & _). apply lookup_lt_Some in Hi as Hl.
  split; [lia|]. rewrite Nat2Z.id. by rewrite Hi.
Qed.

Lemma group3 a b c :
  in_u8 a -> in_u8 b -> in_u8 c ->
  (0 <= a / 4 < 64 /\ 0 <= a mod 4 * 16 + b / 16 < 64 /\ 0 <= b mod 16 * 4 + c / 64 < 64 /\
   0 <= c mod 64 < 64) /\
  a / 4 * 4 + (a mod 4 * 16 + b / 16) / 16 = a /\
  (a mod 4 * 16 + b / 16) mod 16 * 16 + (b mod 16 * 4 + c / 64) / 4 = b /\
  (b mod 16 * 4 + c / 64) mod 4 * 64 + c mod 64 = c.
Proof. widths. intros. split_and!; Z.to_euclidean_division_equations; lia. Qed.

Lemma group4 w x y z :
  0 <= w < 64 -> 0 <= x < 64 -> 0 <= y < 64 -> 0 <= z < 64 ->
  let a := w * 4 + x / 16 in let b := x mod 16 * 16 + y / 4 in let c := y mod 4 * 64 + z in
  (in_u8 a /\ in_u8 b /\ in_u8 c) /\
  a / 4 = w /\ a mod 4 * 16 + b / 16 = x /\ b mod 16 * 4 + c / 64 = y /\ c mod 64 = z.
Proof. cbv zeta. widths. intros. split_and!; Z.to_euclidean_division_equations; lia. Qed.

Lemma rfc_decode_encode bs :
  bytes_ok bs -> rfc_decode alphabet (rfc_encode alphabet bs) = Some bs.
Proof.
  induction bs as [bs IH] using (induction_ltof1 _ (@length Z)). unfold ltof in IH.
  intros Hok. unfold bytes_ok in *.
  destruct bs as [|a [|b [|c r]]]; [done|..]; decompose_Forall; cbn [rfc_encode rfc_decode].
  - pose proof (group3 a 0 0) as ((? & ? & _) & ? & _); [widths; lia..|].
    rewrite Z.div_0_l, Z.add_0_r in * by lia.
    rewrite !digit_value_digit by done. cbn [mbind option_bind].
    replace (a mod 4 * 16 mod 16) with 0 by (by rewrite Z.mod_mul by lia). cbn [Z.eqb]. congruence.
  - pose proof (group3 a b 0) as ((? & ? & ? & _) & ? & ? & _); [widths; lia..|].
    rewrite Z.div_0_l, Z.add_0_r in * by lia.
    rewrite !digit_value_digit by done. cbn [mbind option_bind].
    replace (b mod 16 * 4 mod 4) with 0 by (by rewrite Z.mod_mul by lia). cbn [Z.eqb]. congruence.
  - pose proof (group3 a b c) as ((? & ? & ? & ?) & ? & ? & ?); [done..|].
    rewrite !digit_value_digit by done. cbn [mbind option_bind].
    rewrite IH by (simpl; lia || done). cbn [mbind option_bind]. congruence.
Qed.

Lemma rfc_encode_decode s bs :
  rfc_decode alphabet s = Some bs -> bytes_ok bs /\ rfc_encode alphabet bs = s.
Proof.
  revert bs. induction s as [s IH] using (induction_ltof1 _ (@length Z)). unfold ltof in IH.
  intros bs. destruct s as [|w [|x [|y [|z r]]]]; cbn [rfc_decode]; intros E; simplify_eq.
  - split; [by apply Forall_nil|done].
  - apply bind_Some in E as (w' & [? <-]%digit_of_value & E).
    apply bind_Some in E as (x' & [? <-]%digit_of_value & E). case_match; [|done]. fw_bool.
    injection E as <-.
    pose proof (group4 w' x' 0 0) as ((? & _) & ? & ? & _); [lia..|]. cbv zeta in *.
    split; [by apply Forall_singleton|]. cbn [rfc_encode].
    f_equal; f_equal; [congruence|]. f_equal. f_equal. Z.to_euclidean_division_equations; lia.
  - apply bind_Some in E as (w' & [? <-]%digit_of_value & E).
    apply bind_Some in E as (x' & [? <-]%digit_of_value & E).
    apply bind_Some in E as (y' & [? <-]%digit_of_value & E). case_match; [|done]. fw_bool.
    injection E as <-.
    pose proof (group4 w' x' y' 0) as ((? & ? & _) & ? & ? & ? & _); [lia..|]. cbv zeta in *.
    split; [by repeat apply Forall_cons_2|]. cbn [rfc_encode].
    f_equal; [congruence|]. f_equal; [congruence|]. f_equal. f_equal.
    Z.to_euclidean_division_equations; lia.
  - apply bind_Some in E as (w' & [? <-]%digit_of_value & E).
    apply bind_Some in E as (x' & [? <-]%digit_of_value & E).
    apply bind_Some in E as (y' & [? <-]%digit_of_value & E).
    apply bind_Some in E as (z' & [? <-]%digit_of_value & E).
    apply bind_Some in E as (tail & E1 & E). injection E as <-.
    apply IH in E1 as [? <-]; [|simpl; lia].
    pose proof (group4 w' x' y' z') as ((? & ? & ?) & ? & ? & ? & ?); [lia..|]. cbv zeta in *.
    split; [by repeat apply Forall_cons_2|]. cbn [rfc_encode]. congruence.
Qed.

End Rfc4648Laws.

#[export] Instance url_safe_laws : @Base64Laws url_safe.
Proof.
  assert (length URL_SAFE = 64%nat) as Hl by done.
  assert (NoDup URL_SAFE) as Hd by (apply (bool_decide_unpack _); vm_compute; exact I).
  split.
  - intros bs. by apply rfc_decode_encode.
  - intros s bs. by apply rfc_encode_decode.
Qed.

(** [matches_the_cross_language_channel_vectors] of the unit tests. *)
Definition CHANNEL_VECTORS : list (Z * Z * string * string) := [
  (1, 1, "N2xQaG8x", "AQE3bFBobzE");
  (7, 42, "N2xQaG8x", "Byo3bFBobzE");
  (127, 128, "N2xQaG8x", "f4ABN2xQaG8x");
  (128, 127, "AAAAAAAA", "gAF_AAAAAAAA");
  (999999, 1, "____buff", "v4Q9Af___27n3w");
  (2147483647, 2147483647, "-_-_-_-_", "_____wf_____B_v_v_v_vw");
  (16383, 16384, "N2xQaG8x", "_3-AgAE3bFBobzE");
  (2097151, 2097152, "dGFyZGlv", "__9_gICAAXRhcmRpbw")]%string.

Lemma channel_vectors :
  forallb (fun '(company, user, tab, token) =>
    bool_decide (encode_channel_token (B := url_safe) company user (lit tab) = Some (lit token)) &&
    bool_decide (decode_channel_token (B := url_safe) (lit token) = Ok (company, user, lit tab)))
    CHANNEL_VECTORS = true.
Proof. vm_compute. reflexivity. Qed.

Theorem channel_token_bijection_witness :
  decode_channel_token (B := url_safe) (lit "f4ABN2xQaG8x") = Ok (127, 128, lit "N2xQaG8x") <->
  encode_channel_token (B := url_safe) 127 128 (lit "N2xQaG8x") = Some (lit "f4ABN2xQaG8x").
Proof. apply (channel_token_bijection (B := url_safe)); bounds. Defined.
