(* ===== verification/BridgeAuth.v ===== *)
(** * BridgeAuth: the bridge's two authentication schemes, src/src/bridge/auth.rs, and the checks
    of src/src/bridge/http.rs that rest on them

    SHA-256, keyed BLAKE2s, the constant-time comparison, the base64 engines and the colbin
    decoder are parameters. The arithmetic on the signed timestamp is the release build's: it
    wraps at 64 bits. *)

From Stdlib Require Import String.
From S2P Require Import Prelude SipHash FrameAuth BridgeToken BridgeTokenLaws.

(** ** Decimal and hexadecimal text *)

(** The digits of a nonnegative number, most significant first; [fuel] digits at most. *)
Fixpoint digits (fuel : nat) (n : Z) : str :=
  match fuel with
  | O => []
  | S k => (if n <? 10 then [] else digits k (n / 10)) ++ [48 + n mod 10]
  end.

(** [Display] of an [i64]: at most nineteen digits. *)
Definition show_i64 (n : Z) : str := if n <? 0 then 45 :: digits 19 (- n) else digits 19 n.

Fixpoint parse_digits (s : str) (acc : Z) : option Z :=
  match s with
  | [] => Some acc
  | c :: r => if (48 <=? c) && (c <=? 57) then parse_digits r (acc * 10 + (c - 48)) else None
  end.

(** [i64::from_str]: a sign, then at least one digit; the value must fit. *)
Definition parse_i64 (s : str) : option Z :=
  match s with
  | [] => None
  | c :: r =>
      if c =? 45 then match r with [] => None | _ => n ← parse_digits r 0; try_i64 (- n) end
      else if c =? 43 then match r with [] => None | _ => n ← parse_digits r 0; try_i64 n end
      else n ← parse_digits s 0; try_i64 n
  end.

Definition hex_digit (n : Z) : Z := if n <? 10 then 48 + n else 87 + n.

(** [{:016x}]. *)
Definition hex16 (n : Z) : str :=
  flat_map (fun b => [hex_digit (b / 16); hex_digit (b mod 16)]) (be_bytes 8 n).

(** [str::split_once]. *)
Fixpoint split_once (sep : Z) (s : str) : option (str * str) :=
  match s with
  | [] => None
  | c :: r => if c =? sep then Some ([], r) else '(a, b) ← split_once sep r; Some (c :: a, b)
  end.

(** [str::strip_prefix]. *)
Fixpoint strip_prefix (p s : str) : option str :=
  match p, s with
  | [], _ => Some s
  | a :: p', b :: s' => if a =? b then strip_prefix p' s' else None
  | _ :: _, [] => None
  end.

(** ** The schemes *)

Definition SERVICE_AUTH_PREFIX : str := lit "sse-bridge:v2|".
Definition SERVICE_AUTH_MAX_SKEW_SECONDS : Z := 300.
Definition SESSION_TOKEN_DOMAIN : bytes := lit "usrToken:v3".

Inductive BridgeAuthError :=
| MissingSessionToken
| MalformedSessionToken (e : TokenError)
| NoIdentity
| InvalidSessionSignature
| MissingServiceAuth
| MalformedServiceAuth
| ExpiredServiceAuth (elapsed : Z)
| InvalidServiceSignature.

#[export] Instance BridgeAuthError_eq_dec : EqDecision BridgeAuthError.
Proof. solve_decision. Defined.

(** What the session token's tag covers, after the domain. *)
Definition identity_bytes (t : UserToken) : bytes :=
  be_bytes 4 (wrap 32 (company_id t)) ++ be_bytes 4 (wrap 32 (id t)) ++
  be_bytes 4 (wrap 32 (created t)).

Section Auth.
Context (sha256 : bytes -> bytes) (blake2s_mac : bytes -> bytes -> bytes).
Context (ct_eq : bytes -> bytes -> bool).
Context (decode_sortable : str -> option bytes).
Context (decode_session : bytes -> result string SessionMessage).

Definition compute_user_token_hash (user_token : UserToken) (secret_phrase : bytes) : bytes :=
  blake2s_mac (sha256 secret_phrase)
    (SESSION_TOKEN_DOMAIN ++ identity_bytes user_token ++ as_bytes (user user_token)).

Definition authenticate_user (authorization_header : option str) (secret_phrase : bytes) :
    result BridgeAuthError UserToken :=
  let header_value := trim (default [] authorization_header) in
  if (length (as_bytes header_value) <? 8)%nat then Err MissingSessionToken
  else
    let encoded_token := trim (default header_value (strip_prefix (lit "Bearer ") header_value)) in
    payload ← map_err MalformedSessionToken (decode_session_base64 decode_sortable encoded_token);
    user_token ← map_err MalformedSessionToken (decode_session_token decode_session payload);
    if (company_id user_token <=? 0) || (id user_token <=? 0) then Err NoIdentity
    else if ct_eq (compute_user_token_hash user_token secret_phrase) (hash user_token)
    then Ok user_token else Err InvalidSessionSignature.

Definition make_service_auth_header (internal_apikey : bytes) (unix_seconds : Z) : str :=
  let hasher := new (derive_key sha256 internal_apikey) in
  let hasher := write hasher (as_bytes (SERVICE_AUTH_PREFIX ++ show_i64 unix_seconds)) in
  show_i64 unix_seconds ++ lit "." ++ hex16 (finish hasher).

Definition verify_service_auth (header_value : option str) (internal_apikey : bytes)
    (now_unix_seconds : Z) : result BridgeAuthError unit :=
  let header_value := trim (default [] header_value) in
  if bool_decide (header_value = []) then Err MissingServiceAuth
  else
    '(timestamp_text, _) ← ok_or MalformedServiceAuth (split_once 46 header_value);
    signed_unix_seconds ← ok_or MalformedServiceAuth (parse_i64 timestamp_text);
    let elapsed_seconds := swrap 64 (Z.abs (swrap 64 (now_unix_seconds - signed_unix_seconds))) in
    if SERVICE_AUTH_MAX_SKEW_SECONDS <? elapsed_seconds then Err (ExpiredServiceAuth elapsed_seconds)
    else
      let expected_header := make_service_auth_header internal_apikey signed_unix_seconds in
      if ct_eq (as_bytes header_value) (as_bytes expected_header) then Ok tt
      else Err InvalidServiceSignature.

(** ** The checks of http.rs *)

Inductive ResolveError :=
| MissingChannel
| BadChannel (e : TokenError)
| BadAuth (e : BridgeAuthError)
| NotOwner.

Definition resolve_client_channel `{B : Base64} (secret_phrase : bytes) (authorization : option str)
    (channel_token : str) : result ResolveError str :=
  let channel_token := trim channel_token in
  if bool_decide (channel_token = []) then Err MissingChannel
  else
    '(channel_company_id, channel_user_id, _) ← map_err BadChannel (decode_channel_token channel_token);
    user_token ← map_err BadAuth (authenticate_user authorization secret_phrase);
    if negb (channel_company_id =? company_id user_token) || negb (channel_user_id =? id user_token)
    then Err NotOwner
    else Ok channel_token.

End Auth.

(** [validate_service_target]; [message_null] is [Value::is_null] of the message. *)
Inductive TargetError := TargetMissing | TargetMalformed (e : TokenError) | MessageMissing.

Definition validate_service_target `{B : Base64} (channel_token : str) (message_null : bool) :
    result TargetError str :=
  let channel_token := trim channel_token in
  if bool_decide (channel_token = []) then Err TargetMissing
  else
    _ ← map_err TargetMalformed (decode_channel_token channel_token);
    if message_null then Err MessageMissing else Ok channel_token.

(** Milliseconds. *)
Definition KEEPALIVE_INTERVAL : Z := 20000.
Definition DEFAULT_RPC_TIMEOUT : Z := 60000.
Definition MAX_RPC_TIMEOUT : Z := 600000.
Definition MAX_CHANNEL_WAIT : Z := 30000.

Definition clamp_duration (milliseconds when_unset maximum : Z) : Z :=
  if milliseconds <=? 0 then when_unset else Z.min milliseconds maximum.
