(* ===== verification/BridgeAuthLaws.v ===== *)
(** * BridgeAuthLaws: what the bridge's authentication proves

    A service header is accepted exactly when it is a signature of a fresh time; what a session
    tag covers determines the identity; a browser reaches only the channels of its own user. *)

From Stdlib Require Import String.
From S2P Require Import Prelude SipHash FrameAuth BridgeToken BridgeTokenLaws BridgeAuth.

(** ** UTF-8 is injective *)

Definition utf8_head (bs : bytes) : option (Z * bytes) :=
  match bs with
  | a :: r =>
      if a <? 0x80 then Some (a, r)
      else if a <? 0xE0 then
        match r with b :: r => Some ((a - 0xC0) * 64 + (b - 0x80), r) | _ => None end
      else if a <? 0xF0 then
        match r with
        | b :: c :: r => Some ((a - 0xE0) * 4096 + (b - 0x80) * 64 + (c - 0x80), r) | _ => None end
      else
        match r with
        | b :: c :: d :: r =>
            Some ((a - 0xF0) * 262144 + (b - 0x80) * 4096 + (c - 0x80) * 64 + (d - 0x80), r)
        | _ => None end
  | [] => None
  end.

Lemma utf8_head_char c rest :
  is_char c = true -> utf8_head (utf8_char c ++ rest) = Some (c, rest).
Proof.
  intros Hc. unfold is_char in Hc. assert (0 <= c <= 0x10FFFF) as Hr by (fw_bool; destruct Hc; fw_bool; lia).
  unfold utf8_char.
  destruct (Z.ltb_spec c 0x80); [|destruct (Z.ltb_spec c 0x800); [|destruct (Z.ltb_spec c 0x10000)]];
    cbn [app utf8_head];
    repeat match goal with |- context [?x <? ?y] => destruct (Z.ltb_spec x y) end;
    try (f_equal; f_equal); Z.to_euclidean_division_equations; lia.
Qed.

Lemma as_bytes_inj s t : str_ok s -> str_ok t -> as_bytes s = as_bytes t -> s = t.
Proof.
  intros Hs. revert t. induction Hs as [|c s Hc Hs IH]; intros t Ht E.
  - destruct Ht as [|d t Hd Ht]; [done|].
    pose proof (utf8_head_char d (as_bytes t) Hd) as E'. unfold as_bytes in *. cbn [flat_map] in E.
    by rewrite <- E in E'.
  - pose proof (utf8_head_char c (as_bytes s) Hc) as E1. unfold as_bytes in *. cbn [flat_map] in E.
    rewrite E in E1. destruct Ht as [|d t Hd Ht]; [done|].
    cbn [flat_map] in E1. rewrite (utf8_head_char d (flat_map utf8_char t) Hd) in E1.
    injection E1 as -> E1. f_equal. by apply IH.
Qed.

Lemma as_bytes_app s t : as_bytes (s ++ t) = as_bytes s ++ as_bytes t.
Proof. apply flat_map_app. Qed.

(** ** Trimming *)

Lemma trim_start_sub s : exists p, s = p ++ trim_start s.
Proof.
  induction s as [|c s [p IH]]; [by exists []|]. simpl. case_match; [|by exists []].
  exists (c :: p). simpl. congruence.
Qed.

Lemma trim_start_ok s : str_ok s -> str_ok (trim_start s).
Proof. destruct (trim_start_sub s) as [p E]. unfold str_ok. rewrite E at 1. by intros [_ ?]%Forall_app. Qed.

Lemma trim_ok s : str_ok s -> str_ok (trim s).
Proof.
  intros Hs. unfold trim, str_ok. apply Forall_reverse, trim_start_ok, Forall_reverse, trim_start_ok, Hs.
Qed.

(** ** Decimal text *)

Definition is_digit (c : Z) : Prop := 48 <= c <= 57.

Lemma digits_spec fuel n acc rest :
  0 <= n < 10 ^ Z.of_nat fuel ->
  Forall is_digit (digits fuel n) /\ (fuel <> O -> digits fuel n <> []) /\
  exists k, 0 <= k /\ parse_digits (digits fuel n ++ rest) acc = parse_digits rest (acc * 10 ^ k + n).
Proof.
  revert n rest. induction fuel as [|fuel IH]; intros n rest Hn.
  - split_and!; [constructor|done|]. exists 0. split; [done|]. simpl in *. f_equal. lia.
  - rewrite Nat2Z.inj_succ, Z.pow_succ_r in Hn by lia. cbn [digits].
    pose proof (Z.mod_pos_bound n 10). pose proof (Z.div_mod n 10).
    assert (forall acc', parse_digits (([48 + n mod 10] : str) ++ rest) acc' =
      parse_digits rest (acc' * 10 + n mod 10)) as Hd.
    { intros acc'. cbn [app parse_digits].
      destruct (Z.leb_spec 48 (48 + n mod 10)), (Z.leb_spec (48 + n mod 10) 57); [|lia..].
      simpl. f_equal. lia. }
    assert (is_digit (48 + n mod 10)) by (unfold is_digit; lia).
    destruct (Z.ltb_spec n 10).
    + split_and!; [by apply Forall_singleton|done|]. exists 1. split; [done|].
      cbn [app]. cbn [app] in Hd. rewrite Hd, Z.mod_small by lia. f_equal; lia.
    + destruct (IH (n / 10) ([48 + n mod 10] ++ rest)) as (Hf & _ & k & Hk & Hp).
      { split; [apply Z.div_pos; lia|]. apply Z.div_lt_upper_bound; lia. }
      split_and!; [apply Forall_app; split; [done|by apply Forall_singleton]| |].
      { intros _ E. by apply app_nil in E as [_ ?]. }
      exists (k + 1). split; [lia|]. rewrite <- app_assoc, Hp, Hd. f_equal.
      rewrite Z.pow_add_r by lia. nia.
Qed.

Lemma parse_show n : in_i64 n -> parse_i64 (show_i64 n) = Some n.
Proof.
  intros Hn. unfold show_i64.
  assert (forall m, 0 <= m < 10 ^ 19 -> parse_digits (digits 19 m) 0 = Some m /\
    exists c r, digits 19 m = c :: r /\ is_digit c) as Hd.
  { intros m Hm. destruct (digits_spec 19 m 0 [] Hm) as (Hf & Hne & k & _ & Hp).
    rewrite app_nil_r in Hp. split; [rewrite Hp; simpl; f_equal; lia|].
    destruct (digits 19 m) as [|c r]; [by destruct Hne|]. apply Forall_cons in Hf as [? _]. eauto. }
  destruct (Z.ltb_spec n 0).
  - destruct (Hd (- n)) as (Hp & c & r & E & _); [widths; lia|]. rewrite E in *. cbn [parse_i64].
    cbn [Z.eqb Pos.eqb]. rewrite Hp. cbn [mbind option_bind]. apply fits_Some. widths. lia.
  - destruct (Hd n) as (Hp & c & r & E & Hc); [widths; lia|]. rewrite E in *. unfold parse_i64.
    destruct (Z.eqb_spec c 45), (Z.eqb_spec c 43); [unfold is_digit in *; lia..|].
    rewrite Hp. cbn [mbind option_bind]. apply fits_Some. widths. lia.
Qed.

Lemma parse_i64_range s n : parse_i64 s = Some n -> in_i64 n.
Proof.
  unfold parse_i64. intros E. repeat case_match; try done; apply bind_Some in E as (m & _ & E);
    apply fits_Some in E as [-> ?]; widths; lia.
Qed.

Lemma show_digits n : Forall (fun c => is_digit c \/ c = 45) (show_i64 n) \/ ~ in_i64 n.
Proof.
  destruct (decide (in_i64 n)) as [Hn|]; [left|by right]. unfold show_i64.
  destruct (Z.ltb_spec n 0).
  - apply Forall_cons_2; [by right|]. destruct (digits_spec 19 (- n) 0 []) as [Hf _]; [widths; lia|].
    eapply Forall_impl; [exact Hf|]. auto.
  - destruct (digits_spec 19 n 0 []) as [Hf _]; [widths; lia|].
    eapply Forall_impl; [exact Hf|]. auto.
Qed.

Lemma split_once_app s r : ~ 46 ∈ s -> split_once 46 (s ++ 46 :: r) = Some (s, r).
Proof.
  induction s as [|c s IH]; intros Hn; [done|]. rewrite not_elem_of_cons in Hn. destruct Hn as [Hc Hn].
  cbn [app split_once]. destruct (Z.eqb_spec c 46); [congruence|]. by rewrite IH by done.
Qed.

Lemma show_no_dot n : in_i64 n -> ~ 46 ∈ show_i64 n.
Proof.
  intros Hn Hin. destruct (show_digits n) as [Hf|]; [|done].
  rewrite Forall_forall in Hf. destruct (Hf _ Hin); [unfold is_digit in *; lia|done].
Qed.

(** ** Service authentication *)

Lemma make_header_ok sha256 key ts : in_i64 ts -> str_ok (make_service_auth_header sha256 key ts).
Proof.
  intros Hts. unfold make_service_auth_header, str_ok. rewrite !Forall_app. split_and!.
  - destruct (show_digits ts) as [Hf|]; [|done]. eapply Forall_impl; [exact Hf|].
    intros c [Hc| ->]; [|done]. unfold is_char, is_digit in *. fw_bool.
    apply orb_true_iff. left. apply andb_true_iff. rewrite !Z.leb_le. lia.
  - by repeat constructor.
  - apply Forall_forall. intros c Hc%list_elem_of_In%in_flat_map. destruct Hc as (b & Hb & Hc).
    assert (in_u8 b) as Hb8.
    { pose proof (be_bytes_ok 8 (finish (write (new (derive_key sha256 key))
        (as_bytes (SERVICE_AUTH_PREFIX ++ show_i64 ts))))) as Hf. unfold bytes_ok in Hf.
      rewrite Forall_forall in Hf. by apply Hf, list_elem_of_In. }
    assert (is_char (hex_digit (b / 16)) && is_char (hex_digit (b mod 16)) = true) as Hh
      by (apply (byte_facts (fun b => is_char (hex_digit (b / 16)) && is_char (hex_digit (b mod 16))));
          [vm_compute; reflexivity|done]).
    apply andb_prop in Hh as [? ?]. by destruct Hc as [<-|[<-|[]]].
Qed.

(** The skew as the release build computes it. *)
Lemma skew_exact now ts :
  0 <= now < 2 ^ 62 -> in_i64 ts ->
  swrap 64 (Z.abs (swrap 64 (now - ts))) <= SERVICE_AUTH_MAX_SKEW_SECONDS <->
  Z.abs (now - ts) <= SERVICE_AUTH_MAX_SKEW_SECONDS \/ ts = now - 2 ^ 63.
Proof.
  intros Hn Ht. unfold SERVICE_AUTH_MAX_SKEW_SECONDS. widths.
  destruct (decide (now - ts < 2 ^ 63)) as [Hd|Hd].
  - rewrite (swrap_small 64 (now - ts)), swrap_small by lia. lia.
  - assert (swrap 64 (now - ts) = now - ts - 2 ^ 64) as ->.
    { rewrite <- (swrap_small 64 (now - ts - 2 ^ 64)) by lia. unfold swrap.
      rewrite <- (Z.mod_add (now - ts - 2 ^ 64) 1 (2 ^ 64)) by lia.
      by replace (now - ts - 2 ^ 64 + 1 * 2 ^ 64) with (now - ts) by lia. }
    destruct (decide (ts = now - 2 ^ 63)) as [->|].
    + replace (now - (now - 2 ^ 63) - 2 ^ 64) with (- 2 ^ 63) by lia. split; [by right|intros _; by vm_compute].
    + rewrite (swrap_small 64) by lia. lia.
Qed.

(** C37: the bridge accepts a service header exactly when, trimmed, it is the header that the
    holder of the key makes for a time within 300 seconds of the bridge's clock, or for the one
    time 2^63 seconds away, which the unchecked subtraction cannot tell from now. Any other
    spelling of the same time (a sign, a leading zero) and any other tag are refused. *)
Theorem verify_service_auth_exact sha256 ct_eq key now header :
  (forall a b, ct_eq a b = true <-> a = b) -> str_ok header -> 0 <= now < 2 ^ 62 ->
  verify_service_auth sha256 ct_eq (Some header) key now = Ok tt <->
  exists ts, in_i64 ts /\ trim header = make_service_auth_header sha256 key ts /\
    (Z.abs (now - ts) <= SERVICE_AUTH_MAX_SKEW_SECONDS \/ ts = now - 2 ^ 63).
Proof.
  intros Hct Hh Hnow. unfold verify_service_auth. change (default [] (Some header)) with header. cbv zeta. split.
  - intros E. case_bool_decide; [done|].
    apply result_bind_ok in E as ([text rest] & _ & E).
    apply result_bind_ok in E as (ts & Hts & E). apply ok_or_Ok, parse_i64_range in Hts. cbv zeta in E.
    destruct (_ <? _) eqn:Es; [done|]. destruct (ct_eq _ _) eqn:Ec; [|done]. fw_bool.
    apply Hct, as_bytes_inj in Ec; [|by apply trim_ok|by apply make_header_ok].
    exists ts. split_and!; [done..|]. by apply skew_exact.
  - intros (ts & Hts & Ht & Hs). rewrite Ht. case_bool_decide as Hne.
    { exfalso. unfold make_service_auth_header in Hne.
      apply app_nil in Hne as [_ Hne]. by apply app_nil in Hne as [? _]. }
    assert (split_once 46 (make_service_auth_header sha256 key ts) =
      Some (show_i64 ts, hex16 (finish (write (new (derive_key sha256 key))
        (as_bytes (SERVICE_AUTH_PREFIX ++ show_i64 ts)))))) as ->
      by (apply split_once_app; by apply show_no_dot).
    cbn [ok_or mbind result_bind]. rewrite parse_show by done. cbn [ok_or mbind result_bind].
    apply skew_exact in Hs; [|done..]. cbv zeta.
    destruct (_ <? _) eqn:Es; [fw_bool; lia|]. by rewrite (proj2 (Hct _ _)) by done.
Qed.

(** ** Session tokens *)

Definition token_ok (t : UserToken) : Prop :=
  in_i32 (company_id t) /\ in_i32 (id t) /\ in_i32 (created t) /\ str_ok (user t).

Lemma wrap_i32_inj x y : in_i32 x -> in_i32 y -> be_bytes 4 (wrap 32 x) = be_bytes 4 (wrap 32 y) -> x = y.
Proof.
  intros Hx Hy E. apply be_bytes_inj in E; [|apply wrap_bound; lia..]. unfold wrap in E.
  widths. Z.to_euclidean_division_equations. lia.
Qed.

(** What a session token's tag covers determines the identity: two identities with the same
    tagged bytes have the same company, the same user id, the same issue time and the same user
    name, so no tag the backend issued validates another identity's token as the same input of
    the MAC. *)
Theorem session_identity_inj t1 t2 :
  token_ok t1 -> token_ok t2 ->
  SESSION_TOKEN_DOMAIN ++ identity_bytes t1 ++ as_bytes (user t1) =
    SESSION_TOKEN_DOMAIN ++ identity_bytes t2 ++ as_bytes (user t2) ->
  company_id t1 = company_id t2 /\ id t1 = id t2 /\ created t1 = created t2 /\ user t1 = user t2.
Proof.
  intros (Hc1 & Hi1 & Hd1 & Hu1) (Hc2 & Hi2 & Hd2 & Hu2) E.
  apply (inj (app SESSION_TOKEN_DOMAIN)) in E. unfold identity_bytes in E. rewrite <- !app_assoc in E.
  repeat (apply app_inj_1 in E as [?%wrap_i32_inj E]; [|by rewrite ?length_be_bytes|try done..]).
  split_and!; try done. by apply as_bytes_inj.
Qed.

(** ** The channel a browser may address *)

Lemma resolve_spec sha256 mac ct_eq decode_sortable decode_session
    `{B : Base64, !Base64Laws} phrase authorization ch key :
  (forall payload m, decode_session payload = Ok m -> in_i32 (sm_company_id m) /\ in_i32 (sm_id m)) ->
  let authenticated := authenticate_user sha256 mac ct_eq decode_sortable decode_session authorization phrase in
  resolve_client_channel sha256 mac ct_eq decode_sortable decode_session phrase authorization ch = Ok key <->
  key = trim ch /\ key <> [] /\
  exists t tab, authenticated = Ok t /\ 0 < company_id t /\ 0 < id t /\
    encode_channel_token (company_id t) (id t) tab = Some key.
Proof.
  intros Hty authenticated.
  assert (forall t, authenticated = Ok t ->
    in_i32 (company_id t) /\ in_i32 (id t) /\ 0 < company_id t /\ 0 < id t) as Ht.
  { intros t E. subst authenticated. unfold authenticate_user in E. cbv zeta in E.
    destruct (_ <? _)%nat; [done|]. apply result_bind_ok in E as (payload & _ & E).
    apply result_bind_ok in E as (t' & Et & E). repeat (case_match; try done). simplify_eq. fw_bool.
    unfold decode_session_token in Et. destruct (decode_session payload) as [m|] eqn:Em; [|done].
    cbn in Et. destruct (_ =? _)%nat; [|done]. injection Et as <-. cbn in *.
    destruct (Hty _ _ Em). auto. }
  unfold resolve_client_channel. fold authenticated. split.
  - intros E. case_bool_decide as Hne; [done|].
    apply result_bind_ok in E as ([[c u] tab] & Hd & E).
    apply result_bind_ok in E as (t & Ha & E). case_match; [done|]. fw_bool. simplify_eq.
    destruct authenticated as [t'|] eqn:Et; [|done]. injection Ha as ->.
    destruct (Ht t eq_refl) as (? & ? & ? & ?). split_and!; try done. exists t, tab.
    split_and!; try done. destruct (decode_channel_token (trim ch)) as [[[c' u'] tab']|] eqn:Ed; [|done].
    injection Hd as -> -> ->. subst. by apply decode_encodes.
  - intros (-> & Hne & t & tab & Ha & _ & _ & He). rewrite Ha. case_bool_decide; [done|].
    destruct (Ht t Ha) as (Hc & Hi & _). rewrite (encode_decodes _ _ _ _ Hc Hi He).
    cbn [map_err mbind result_bind]. by rewrite !Z.eqb_refl.
Qed.

(** A browser request resolves to a channel exactly when the channel names the user its
    session token authenticates. The key it resolves to is the one canonical token of one of that
    user's tabs, as the client spelled it; so two requests that resolve to the same key were
    authenticated as the same company and user. *)
Theorem resolve_client_channel_exact sha256 mac ct_eq decode_sortable decode_session
    `{B : Base64, !Base64Laws} phrase authorization ch key :
  (forall payload m, decode_session payload = Ok m -> in_i32 (sm_company_id m) /\ in_i32 (sm_id m)) ->
  let authenticated := authenticate_user sha256 mac ct_eq decode_sortable decode_session authorization phrase in
  resolve_client_channel sha256 mac ct_eq decode_sortable decode_session phrase authorization ch = Ok key <->
  key = trim ch /\ key <> [] /\
  exists t tab, authenticated = Ok t /\ 0 < company_id t /\ 0 < id t /\
    encode_channel_token (company_id t) (id t) tab = Some key.
Proof. exact (resolve_spec sha256 mac ct_eq decode_sortable decode_session phrase authorization ch key). Qed.

(** ** At concrete inputs *)

Definition sample_header : str :=
  lit " " ++ make_service_auth_header sample_digest [1; 2] 1700000000 ++ lit " ".

Lemma sample_header_ok : str_ok sample_header.
Proof.
  unfold sample_header, str_ok. rewrite !Forall_app.
  split_and!; [by repeat constructor|apply make_header_ok; bounds|by repeat constructor].
Qed.

Theorem verify_service_auth_exact_witness :
  verify_service_auth sample_digest list_eq (Some sample_header) [1; 2] 1700000299 = Ok tt.
Proof.
  apply (verify_service_auth_exact sample_digest list_eq [1; 2] 1700000299 sample_header
    list_eq_spec sample_header_ok ltac:(lia)).
  exists 1700000000. split_and!; [bounds|vm_compute; reflexivity|left; vm_compute; discriminate].
Defined.

(** The far end of the clock: a header signed for 2^63 seconds before now passes as fresh. *)
Lemma distant_header_accepted :
  let now := 1700000000 in
  verify_service_auth sample_digest list_eq
    (Some (make_service_auth_header sample_digest [1; 2] (now - 2 ^ 63))) [1; 2] now = Ok tt.
Proof. vm_compute. reflexivity. Qed.

Definition sample_token : UserToken := mkUserToken 7 42 1234 (replicate 16 9) (lit "tester").
Definition sample_message : SessionMessage :=
  mkSessionMessage 7 42 1234 (replicate 16 9) (lit "tester").

Theorem session_identity_inj_witness :
  company_id sample_token = 7 /\ id sample_token = 42 /\ created sample_token = 1234 /\
  user sample_token = lit "tester".
Proof.
  apply (session_identity_inj sample_token (mkUserToken 7 42 1234 [] (lit "tester")));
    [repeat split; try bounds; by repeat constructor..|reflexivity].
Defined.

Theorem resolve_client_channel_exact_witness :
  resolve_client_channel (B := url_safe) sample_digest (fun _ _ => replicate 16 9) list_eq
    (fun _ => Some []) (fun _ => Ok sample_message) [5]
    (Some (lit "Bearer 0-RJ9XMH02kF")) (lit " Byo3bFBobzE ") = Ok (lit "Byo3bFBobzE").
Proof.
  assert (forall (payload : bytes) m, Ok (E := string) sample_message = Ok m ->
    in_i32 (sm_company_id m) /\ in_i32 (sm_id m)) as Hty by (intros ? ? [= <-]; cbn; split; bounds).
  apply (resolve_client_channel_exact (B := url_safe) sample_digest (fun _ _ => replicate 16 9)
    list_eq (fun _ => Some []) (fun _ => Ok sample_message) [5] (Some (lit "Bearer 0-RJ9XMH02kF"))
    (lit " Byo3bFBobzE ") _ Hty).
  split_and!; [reflexivity|discriminate|]. exists sample_token, (lit "N2xQaG8x").
  split_and!; [vm_compute; reflexivity|done..|vm_compute; reflexivity].
Defined.
