(* ===== verification/BridgeChannel.v ===== *)
(** * BridgeChannel: connected tabs, src/src/bridge/channel.rs, and the handlers of
    src/src/bridge/http.rs that use them

    The registry and its channels are shared by handler tasks; [step] runs one atomic operation
    of one task (what happens under one lock, or between two awaits), so every interleaving of
    the handlers is a list of events. A handler may also see its timer fire, its browser hang up,
    or be dropped at an await, as axum does when its caller goes away.

    A oneshot is named by the task that waits on it: its receiver is the slot in that task's
    program counter, its sender is the task's id wherever the code keeps the sender. serde_json's
    values are a parameter; the timers' lengths are the environment's choice. [log] is a ghost:
    the replies handed over, as inbound task, waiting task and envelope. *)

From Stdlib Require Import String.
From S2P Require Import Prelude BridgeToken.

Abbreviation TaskId := nat.
Abbreviation ChanId := nat.

(** serde_json, as far as the bridge builds values itself. *)
Class Json (V : Type) := {
  json_message : str -> V;  (* {"Message": reason} *)
  to_string : V -> str;
  json_type : str -> V;     (* {"Type": name} *)
}.

Definition OUTBOUND_QUEUE_SIZE : nat := 64.

Record ReplyEnvelope (V : Type) := mkReplyEnvelope { kind : str; payload : V }.
Arguments mkReplyEnvelope {V}.
Arguments kind {V}.
Arguments payload {V}.

(** A oneshot's receiving end. *)
Inductive Slot (A : Type) := Waiting | Got (a : A) | Gone.
Arguments Waiting {A}.
Arguments Got {A}.
Arguments Gone {A}.

Inductive SendFrameError := Closed | Timeout.

Record ClientChannel := mkClientChannel {
  key : str;
  frames : list str;
  receiving : bool;            (* the stream holds the receiver *)
  closed : bool;
  pending_replies : gmap Z TaskId;
}.

Definition new_channel (k : str) : ClientChannel := mkClientChannel k [] true false ∅.

(** A call of the backend: [/publish], or [/rpc] with its command id. *)
Inductive Call := Publish | Rpc (id : Z).

Record Service (V : Type) := mkService { call : Call; target : str; message : V; can_wait : bool }.
Arguments mkService {V}.
Arguments call {V}.
Arguments target {V}.
Arguments message {V}.
Arguments can_wait {V}.

(** What a call ends with. *)
Inductive Outcome (V : Type) :=
| NoChannel
| Delivered
| SendFailed (e : SendFrameError)
| Answered (e : ReplyEnvelope V)
| Disconnected
| TimedOut.
Arguments NoChannel {V}.
Arguments Delivered {V}.
Arguments SendFailed {V}.
Arguments Answered {V}.
Arguments Disconnected {V}.
Arguments TimedOut {V}.

(** A browser's post to [/in]. *)
Record Inbound (V : Type) := mkInbound { in_key : str; in_id : Z; envelope : ReplyEnvelope V }.
Arguments mkInbound {V}.
Arguments in_key {V}.
Arguments in_id {V}.
Arguments envelope {V}.

(** Where a task is; each constructor names its next operation. *)
Inductive Pc (V : Type) :=
(* await_channel *)
| AFind (sv : Service V)
| ARegister (sv : Service V)
| AParked (sv : Service V) (slot : Slot unit)
| ASweep (sv : Service V)
| AAgain (sv : Service V)
(* the call itself *)
| RRegister (sv : Service V) (c : ChanId)
| RSend (sv : Service V) (c : ChanId) (slot : Slot (ReplyEnvelope V))
| RSelect (sv : Service V) (c : ChanId) (slot : Slot (ReplyEnvelope V))
| RRelease (sv : Service V) (c : ChanId) (o : Outcome V)
| RDone (sv : Service V) (o : Outcome V)
(* a browser's stream: open_channel, the handshake, the stream *)
| SOpen (k : str)
| SEvict (c : ChanId) (previous : option ChanId) (waiters : list TaskId)
| SEvictFail (c previous : ChanId) (waiters : list TaskId)
| SFailing (c : ChanId) (drained : list TaskId) (waiters : list TaskId)
| SWake (c : ChanId) (waiters : list TaskId)
| SHandshake (c : ChanId)
| SStream (c : ChanId)
(* close_channel *)
| XRemove (c : ChanId)
| XClose (c : ChanId)
| XFail (c : ChanId)
| XFailing (c : ChanId) (drained : list TaskId)
| XDone
(* a browser's reply *)
| IFind (r : Inbound V)
| IDeliver (r : Inbound V) (c : ChanId)
| ISend (r : Inbound V) (t : TaskId)
| IDone (r : Inbound V) (delivered : bool)
(* dropped at an await *)
| Cancelled (at_ : Pc V).
Arguments AFind {V}. Arguments ARegister {V}. Arguments AParked {V}. Arguments ASweep {V}.
Arguments AAgain {V}. Arguments RRegister {V}. Arguments RSend {V}. Arguments RSelect {V}.
Arguments RRelease {V}. Arguments RDone {V}. Arguments SOpen {V}. Arguments SEvict {V}.
Arguments SEvictFail {V}. Arguments SFailing {V}. Arguments SWake {V}. Arguments SHandshake {V}.
Arguments SStream {V}. Arguments XRemove {V}. Arguments XClose {V}. Arguments XFail {V}.
Arguments XFailing {V}. Arguments XDone {V}. Arguments IFind {V}. Arguments IDeliver {V}.
Arguments ISend {V}. Arguments IDone {V}. Arguments Cancelled {V}.

Record ChannelRegistry (V : Type) := mkChannelRegistry {
  channels : gmap str ChanId;
  arrival_waiters : gmap str (list TaskId);
  heap : list ClientChannel;
  tasks : gmap TaskId (Pc V);
  log : list (TaskId * TaskId * ReplyEnvelope V);
}.
Arguments mkChannelRegistry {V}.
Arguments channels {V}.
Arguments arrival_waiters {V}.
Arguments heap {V}.
Arguments tasks {V}.
Arguments log {V}.

Section Registry.
Context {V : Type} `{J : Json V}.
Abbreviation R := (ChannelRegistry V).
Abbreviation Envelope := (ReplyEnvelope V).

Definition empty_registry : R := mkChannelRegistry ∅ ∅ [] ∅ [].

(** ** Writes *)

Definition goto (t : TaskId) (p : Pc V) (s : R) : R :=
  mkChannelRegistry (channels s) (arrival_waiters s) (heap s) (<[t := p]> (tasks s)) (log s).
Definition on_channel (c : ChanId) (f : ClientChannel -> ClientChannel) (s : R) : R :=
  mkChannelRegistry (channels s) (arrival_waiters s) (alter f c (heap s)) (tasks s) (log s).
Definition set_channels (m : gmap str ChanId) (s : R) : R :=
  mkChannelRegistry m (arrival_waiters s) (heap s) (tasks s) (log s).
Definition set_waiters (m : gmap str (list TaskId)) (s : R) : R :=
  mkChannelRegistry (channels s) m (heap s) (tasks s) (log s).
Definition log_reply (i t : TaskId) (e : Envelope) (s : R) : R :=
  mkChannelRegistry (channels s) (arrival_waiters s) (heap s) (tasks s) (log s ++ [(i, t, e)]).

Definition push_frame (payload : str) (ch : ClientChannel) : ClientChannel :=
  mkClientChannel (key ch) (frames ch ++ [payload]) (receiving ch) (closed ch) (pending_replies ch).
Definition set_pending (m : gmap Z TaskId) (ch : ClientChannel) : ClientChannel :=
  mkClientChannel (key ch) (frames ch) (receiving ch) (closed ch) m.
Definition close (ch : ClientChannel) : ClientChannel :=
  mkClientChannel (key ch) (frames ch) (receiving ch) true (pending_replies ch).
Definition drop_receiver (ch : ClientChannel) : ClientChannel :=
  mkClientChannel (key ch) [] false (closed ch) (pending_replies ch).
Definition pop_frame (ch : ClientChannel) : ClientChannel :=
  mkClientChannel (key ch) (tail (frames ch)) (receiving ch) (closed ch) (pending_replies ch).

(** ** Oneshots *)

(** [oneshot::Sender::send] of a reply: whether a receiver took it. *)
Definition send_reply (t : TaskId) (e : Envelope) (s : R) : bool * R :=
  match tasks s !! t with
  | Some (RSend sv c Waiting) => (true, goto t (RSend sv c (Got e)) s)
  | Some (RSelect sv c Waiting) => (true, goto t (RSelect sv c (Got e)) s)
  | _ => (false, s)
  end.

(** The sender is dropped unused. *)
Definition drop_reply_sender (t : TaskId) (s : R) : R :=
  match tasks s !! t with
  | Some (RSend sv c Waiting) => goto t (RSend sv c Gone) s
  | Some (RSelect sv c Waiting) => goto t (RSelect sv c Gone) s
  | _ => s
  end.

Definition set_arrival (a : Slot unit) (t : TaskId) (s : R) : R :=
  match tasks s !! t with
  | Some (AParked sv Waiting) => goto t (AParked sv a) s
  | _ => s
  end.
Definition wake (t : TaskId) (s : R) : R := set_arrival (Got ()) t s.
Definition drop_arrival (t : TaskId) (s : R) : R := set_arrival Gone t s.

(** [Sender::is_closed]: the receiver is gone, or has been used. *)
Definition arrival_open (s : R) (t : TaskId) : bool :=
  match tasks s !! t with Some (AParked _ Waiting) => true | _ => false end.

(** ** The operations of channel.rs *)

Definition find_channel (k : str) (s : R) : option ChanId := channels s !! k.

(** [try_send_payload]: a full queue drops it. *)
Definition try_send_payload (payload : str) (ch : ClientChannel) : ClientChannel :=
  if receiving ch && (length (frames ch) <? OUTBOUND_QUEUE_SIZE)%nat then push_frame payload ch else ch.

(** [send_frame], when it does not have to wait; [None] while the queue is full. *)
Definition send_frame (payload : str) (ch : ClientChannel) :
    option (result SendFrameError ClientChannel) :=
  if negb (receiving ch) then Some (Err Closed)
  else if (length (frames ch) <? OUTBOUND_QUEUE_SIZE)%nat then Some (Ok (push_frame payload ch))
  else None.

(** [await_reply]: the sender it replaces, if any, is dropped. *)
Definition await_reply (c : ChanId) (id : Z) (t : TaskId) (s : R) : R :=
  match heap s !! c with
  | Some ch =>
      let s1 := match pending_replies ch !! id with Some u => drop_reply_sender u s | None => s end in
      on_channel c (fun ch => set_pending (<[id := t]> (pending_replies ch)) ch) s1
  | None => s
  end.

Definition release_pending_reply (c : ChanId) (id : Z) (s : R) : R :=
  match heap s !! c with
  | Some ch =>
      let s1 := match pending_replies ch !! id with Some u => drop_reply_sender u s | None => s end in
      on_channel c (fun ch => set_pending (delete id (pending_replies ch)) ch) s1
  | None => s
  end.

Definition notice (reason : str) : Envelope := mkReplyEnvelope (lit "error") (json_message reason).
Definition RECONNECTED : str := lit "el cliente reconect" ++ [243].
Definition DISCONNECTED : str := lit "el cliente se desconect" ++ [243].
Definition REPLACED : str := lit "{" ++ [34] ++ lit "Type" ++ [34] ++ lit ":" ++ [34] ++ lit "replaced" ++ [34] ++ lit "}".

(** The drain of [fail_all_pending_replies], and then its sends. *)
Definition drain_pending (c : ChanId) (s : R) : list TaskId * R :=
  match heap s !! c with
  | Some ch => ((map_to_list (pending_replies ch)).*2, on_channel c (set_pending ∅) s)
  | None => ([], s)
  end.

(** The section of [open_channel] under the write lock, for a channel made before it: the one
    it replaces, and who waits for the key. *)
Definition install (k : str) (s : R) : option ChanId * list TaskId * R :=
  (channels s !! k, default [] (arrival_waiters s !! k),
   mkChannelRegistry (<[k := length (heap s)]> (channels s)) (delete k (arrival_waiters s))
     (heap s ++ [new_channel k]) (tasks s) (log s)).

(** The section of [close_channel] under the write lock. *)
Definition uninstall (c : ChanId) (s : R) : R :=
  match heap s !! c with
  | Some ch =>
      if bool_decide (channels s !! key ch = Some c) then set_channels (delete (key ch) (channels s)) s
      else s
  | None => s
  end.

(** [drop_arrival_waiters]. *)
Definition sweep (k : str) (s : R) : R :=
  match arrival_waiters s !! k with
  | Some ws =>
      match filter (fun t => arrival_open s t = true) ws with
      | [] => set_waiters (delete k (arrival_waiters s)) s
      | open => set_waiters (<[k := open]> (arrival_waiters s)) s
      end
  | None => s
  end.

(** The [Arc]s of a channel, and so the senders of its frames: the routing table's and those of
    the tasks. A stream's task has one of its own, in [DeregisterOnDrop]. *)
Definition handles (p : Pc V) : list ChanId :=
  match p with
  | RRegister _ c | RSend _ c _ | RSelect _ c _ | RRelease _ c _ | IDeliver _ c
  | SEvict c None _ | SFailing c _ _ | SWake c _ | SHandshake c | SStream c
  | XRemove c | XClose c | XFail c | XFailing c _ => [c]
  | SEvict c (Some old) _ | SEvictFail c old _ => [c; old]
  | _ => []
  end.
Definition senders (c : ChanId) (s : R) : nat :=
  length (filter (fun x => x = c)
    (flat_map (fun tp => handles tp.2) (map_to_list (tasks s)) ++ (map_to_list (channels s)).*2)).

(** ** The handlers *)

(** The channel is there: [/rpc] registers its waiter before it sends. *)
Definition start (sv : Service V) (c : ChanId) : Pc V :=
  match call sv with Publish => RSend sv c Gone | Rpc _ => RRegister sv c end.

(** The frame was handed over, or not. *)
Definition sent (sv : Service V) (c : ChanId) (slot : Slot Envelope) (e : option SendFrameError) : Pc V :=
  match call sv, e with
  | Publish, None => RDone sv Delivered
  | Publish, Some e => RDone sv (SendFailed e)
  | Rpc _, None => RSelect sv c slot
  | Rpc _, Some e => RRelease sv c (SendFailed e)
  end.

(** [await_channel]. *)
Definition run_await (t : TaskId) (p : Pc V) (s : R) : option R :=
  match p with
  | AFind sv =>
      Some (goto t (match find_channel (target sv) s with
                    | Some c => start sv c
                    | None => if can_wait sv then ARegister sv else RDone sv NoChannel
                    end) s)
  | ARegister sv =>
      Some (match channels s !! target sv with
            | Some c => goto t (start sv c) s
            | None =>
                goto t (AParked sv Waiting)
                  (set_waiters (<[target sv := default [] (arrival_waiters s !! target sv) ++ [t]]>
                     (arrival_waiters s)) s)
            end)
  | AParked sv (Got _) => Some (goto t (AAgain sv) s)
  | AParked sv Gone => Some (goto t (ASweep sv) s)
  | AParked sv Waiting => None
  | ASweep sv => Some (goto t (AAgain sv) (sweep (target sv) s))
  | AAgain sv =>
      Some (goto t (match find_channel (target sv) s with
                    | Some c => start sv c | None => RDone sv NoChannel end) s)
  | _ => None
  end.

(** [handle_service_rpc], or [handle_service_publish], once the channel is there. *)
Definition run_service (t : TaskId) (p : Pc V) (s : R) : option R :=
  match p with
  | RRegister sv c =>
      Some (match call sv with
            | Rpc id => goto t (RSend sv c Waiting) (await_reply c id t s)
            | Publish => goto t (RSend sv c Gone) s   (* not reached: [start] *)
            end)
  | RSend sv c slot =>
      ch ← heap s !! c;
      r ← send_frame (to_string (message sv)) ch;
      Some (match r with
            | Ok ch' => goto t (sent sv c slot None) (on_channel c (fun _ => ch') s)
            | Err e => goto t (sent sv c slot (Some e)) s
            end)
  | RSelect sv c (Got e) => Some (goto t (RRelease sv c (Answered e)) s)
  | RSelect sv c Gone => Some (goto t (RRelease sv c Disconnected) s)
  | RSelect sv c Waiting => None
  | RRelease sv c o =>
      Some (goto t (RDone sv o)
              (match call sv with Rpc id => release_pending_reply c id s | Publish => s end))
  | _ => None
  end.

(** [handle_client_stream] with its [open_channel], and the polls of the stream it answers with. *)
Definition run_stream (t : TaskId) (p : Pc V) (s : R) : option R :=
  match p with
  | SOpen k =>
      let '(previous, waiters, s1) := install k s in
      Some (goto t (SEvict (length (heap s)) previous waiters) s1)
  | SEvict c (Some old) ws =>
      Some (goto t (SEvictFail c old ws) (on_channel old (fun ch => close (try_send_payload REPLACED ch)) s))
  | SEvict c None ws => Some (goto t (SWake c ws) s)
  | SEvictFail c old ws => let '(ts, s1) := drain_pending old s in Some (goto t (SFailing c ts ws) s1)
  | SFailing c (u :: ts) ws =>
      Some (goto t (SFailing c ts ws) (send_reply u (notice RECONNECTED) s).2)
  | SFailing c [] ws => Some (goto t (SWake c ws) s)
  | SWake c (w :: ws) => Some (goto t (SWake c ws) (wake w s))
  | SWake c [] => Some (goto t (SHandshake c) s)
  | SHandshake c =>
      ch ← heap s !! c;
      r ← send_frame (to_string (json_type (lit "bridgeReady"))) ch;
      Some (match r with
            | Ok ch' => goto t (SStream c) (on_channel c (fun _ => ch') s)
            | Err _ => goto t (XRemove c) s
            end)
  | SStream c =>
      ch ← heap s !! c;
      match frames ch with
      | [] =>
          if (senders c s =? 0)%nat then Some (goto t (XRemove c) (on_channel c drop_receiver s))
          else None
      | _ => Some (on_channel c pop_frame s)
      end
  | _ => None
  end.

(** [close_channel]. *)
Definition run_close (t : TaskId) (p : Pc V) (s : R) : option R :=
  match p with
  | XRemove c => Some (goto t (XClose c) (uninstall c s))
  | XClose c => Some (goto t (XFail c) (on_channel c close s))
  | XFail c => let '(ts, s1) := drain_pending c s in Some (goto t (XFailing c ts) s1)
  | XFailing c (u :: ts) => Some (goto t (XFailing c ts) (send_reply u (notice DISCONNECTED) s).2)
  | XFailing c [] => Some (goto t XDone (on_channel c drop_receiver s))
  | _ => None
  end.

(** [handle_client_inbound] with its [deliver_reply]. *)
Definition run_inbound (t : TaskId) (p : Pc V) (s : R) : option R :=
  match p with
  | IFind r =>
      Some (goto t (match find_channel (in_key r) s with
                    | Some c => IDeliver r c | None => IDone r false end) s)
  | IDeliver r c =>
      ch ← heap s !! c;
      Some (match pending_replies ch !! in_id r with
            | Some u => goto t (ISend r u) (on_channel c (set_pending (delete (in_id r) (pending_replies ch))) s)
            | None => goto t (IDone r false) s
            end)
  | ISend r u =>
      let '(ok, s1) := send_reply u (envelope r) s in
      Some (goto t (IDone r ok) (if ok then log_reply t u (envelope r) s1 else s1))
  | _ => None
  end.

Definition run (t : TaskId) (s : R) : option R :=
  p ← tasks s !! t;
  match p with
  | AFind _ | ARegister _ | AParked _ _ | ASweep _ | AAgain _ => run_await t p s
  | RRegister _ _ | RSend _ _ _ | RSelect _ _ _ | RRelease _ _ _ => run_service t p s
  | SOpen _ | SEvict _ _ _ | SEvictFail _ _ _ | SFailing _ _ _ | SWake _ _ | SHandshake _ | SStream _ =>
      run_stream t p s
  | XRemove _ | XClose _ | XFail _ | XFailing _ _ => run_close t p s
  | IFind _ | IDeliver _ _ | ISend _ _ => run_inbound t p s
  | RDone _ _ | XDone | IDone _ _ | Cancelled _ => None
  end.

(** A timer fires: the wait for the tab, the send of a frame that still has no room, the wait
    for the reply. *)
Definition expire (t : TaskId) (s : R) : option R :=
  p ← tasks s !! t;
  match p with
  | AParked sv Waiting => Some (goto t (ASweep sv) s)
  | RSend sv c slot =>
      ch ← heap s !! c;
      match send_frame [] ch with None => Some (goto t (sent sv c slot (Some Timeout)) s) | Some _ => None end
  | SHandshake c =>
      ch ← heap s !! c;
      match send_frame [] ch with None => Some (goto t (XRemove c) s) | Some _ => None end
  | RSelect sv c _ => Some (goto t (RRelease sv c TimedOut) s)
  | _ => None
  end.

(** [wait_closed] resolves. *)
Definition closed_seen (t : TaskId) (s : R) : option R :=
  p ← tasks s !! t;
  match p with
  | RSelect sv c _ =>
      ch ← heap s !! c; if closed ch then Some (goto t (RRelease sv c Disconnected) s) else None
  | _ => None
  end.

(** The browser hangs up: the stream is dropped, and [DeregisterOnDrop] closes the channel. *)
Definition hang_up (t : TaskId) (s : R) : option R :=
  p ← tasks s !! t;
  match p with
  | SStream c => Some (goto t (XRemove c) (on_channel c drop_receiver s))
  | _ => None
  end.

(** The handler is dropped at an await, with what it owns. *)
Definition cancel (t : TaskId) (s : R) : option R :=
  p ← tasks s !! t;
  match p with
  | AFind _ | ARegister _ | AParked _ _ | ASweep _ | AAgain _ | RRegister _ _ | RSend _ _ _
  | RSelect _ _ _ | RRelease _ _ _ | SOpen _ | IFind _ | IDeliver _ _ => Some (goto t (Cancelled p) s)
  | SEvictFail c _ ws =>
      Some (goto t (Cancelled p) (on_channel c drop_receiver (foldr drop_arrival s ws)))
  | SHandshake c => Some (goto t (Cancelled p) (on_channel c drop_receiver s))
  | _ => None
  end.

(** A request arrives. *)
Definition is_start (p : Pc V) : bool :=
  match p with AFind _ | SOpen _ | IFind _ => true | _ => false end.
Definition spawn (t : TaskId) (p : Pc V) (s : R) : option R :=
  if is_start p && bool_decide (tasks s !! t = None) then Some (goto t p s) else None.

Inductive Event :=
| Run (t : TaskId)
| Expire (t : TaskId)
| ClosedSeen (t : TaskId)
| HangUp (t : TaskId)
| Cancel (t : TaskId)
| Spawn (t : TaskId) (p : Pc V).

Definition step (e : Event) (s : R) : option R :=
  match e with
  | Run t => run t s
  | Expire t => expire t s
  | ClosedSeen t => closed_seen t s
  | HangUp t => hang_up t s
  | Cancel t => cancel t s
  | Spawn t p => spawn t p s
  end.

Fixpoint steps (es : list Event) (s : R) : option R :=
  match es with [] => Some s | e :: rest => s' ← step e s; steps rest s' end.

Inductive reachable : R -> Prop :=
| reach_empty : reachable empty_registry
| reach_step s e s' : reachable s -> step e s = Some s' -> reachable s'.

End Registry.

Arguments Event : clear implicits.

(** ** The answers of the handlers (http.rs) *)

(** The status code, and the fields of the body that the handler writes itself. *)
Inductive Body (V : Type) := BDelivered (d : bool) | BReply (e : ReplyEnvelope V) | BError.
Arguments BDelivered {V}.
Arguments BReply {V}.
Arguments BError {V}.

Definition publish_response {V} (o : Outcome V) : Z * Body V :=
  match o with
  | Delivered => (200, BDelivered true)
  | _ => (200, BDelivered false)
  end.

Definition rpc_response {V} (o : Outcome V) : Z * Body V :=
  match o with
  | NoChannel | Disconnected => (409, BError)
  | SendFailed _ => (502, BError)
  | Answered e => (200, BReply e)
  | TimedOut => (504, BError)
  | Delivered => (200, BDelivered true)
  end.
