(* ===== verification/BridgeChannelLaws.v ===== *)
(** * BridgeChannelLaws: routing, arrivals and replies of the bridge's registry

    Invariants of [BridgeChannel.reachable], by induction on the steps: what is routed is open,
    nobody waits for a key that is connected without someone about to wake him, and a reply goes
    to one waiting call of its own channel and id. *)

From Stdlib Require Import String.
From S2P Require Import Prelude BridgeToken BridgeChannel.

(** One run of a task whose place is known. *)
Ltac run_task E Ht :=
  unfold run, run_await, run_service, run_stream, run_close, run_inbound in E; rewrite Ht in E; cbn [mbind option_bind] in E.

Section Laws.
Context {V : Type} `{J : Json V}.
Abbreviation R := (ChannelRegistry V).
Implicit Types (s : R) (p : Pc V) (t u : TaskId).

(** ** Oneshots are moves of one task *)

(** The task waits for a reply. *)
Definition is_open p : bool :=
  match p with RSend _ _ Waiting | RSelect _ _ Waiting => true | _ => false end.

Definition settle (a : Slot (ReplyEnvelope V)) p : Pc V :=
  match p with RSend sv c _ => RSend sv c a | RSelect sv c _ => RSelect sv c a | _ => p end.

Lemma send_cases t e s :
  send_reply t e s = (false, s) \/
  exists p, tasks s !! t = Some p /\ is_open p = true /\
    send_reply t e s = (true, goto t (settle (Got e) p) s).
Proof. unfold send_reply. repeat case_match; eauto. Qed.

Lemma drop_cases t s :
  drop_reply_sender t s = s \/
  exists p, tasks s !! t = Some p /\ is_open p = true /\
    drop_reply_sender t s = goto t (settle Gone p) s.
Proof. unfold drop_reply_sender. repeat case_match; eauto. Qed.

Lemma arrival_cases a t s :
  (set_arrival a t s = s /\ arrival_open s t = false) \/
  exists sv, tasks s !! t = Some (AParked sv Waiting) /\
    set_arrival a t s = goto t (AParked sv a) s.
Proof. unfold set_arrival, arrival_open. repeat case_match; eauto. Qed.

Lemma goto_self t p s : tasks (goto t p s) !! t = Some p.
Proof. unfold goto; cbn [tasks]. apply lookup_insert_eq. Qed.

Lemma goto_other t p u s : u <> t -> tasks (goto t p s) !! u = tasks s !! u.
Proof. unfold goto; cbn [tasks]. intros. by apply lookup_insert_ne. Qed.

(** A task that is not waiting for the reply is left alone. *)
Lemma send_keeps t e u p s :
  tasks s !! u = Some p -> is_open p = false -> tasks (send_reply t e s).2 !! u = Some p.
Proof.
  intros Hu Ho. destruct (send_cases t e s) as [->|(q & Hq & Hoq & ->)]; [done|].
  cbn [snd]. rewrite goto_other; [done|]. intros ->. congruence.
Qed.

Lemma drop_keeps t u p s :
  tasks s !! u = Some p -> is_open p = false -> tasks (drop_reply_sender t s) !! u = Some p.
Proof.
  intros Hu Ho. destruct (drop_cases t s) as [->|(q & Hq & Hoq & ->)]; [done|].
  rewrite goto_other; [done|]. intros ->. congruence.
Qed.

Lemma wake_keeps a t u p s :
  tasks s !! u = Some p -> (forall sv, p <> AParked sv Waiting) ->
  tasks (set_arrival a t s) !! u = Some p.
Proof.
  intros Hu Ho. destruct (arrival_cases a t s) as [[-> _]|(sv & Hq & ->)]; [done|].
  rewrite goto_other; [done|]. intros ->. by destruct (Ho sv); congruence.
Qed.

Lemma arrival_closed a t s : a <> Waiting -> arrival_open (set_arrival a t s) t = false.
Proof.
  intros Ha. destruct (arrival_cases a t s) as [[-> E]|(sv & _ & ->)]; [done|].
  unfold arrival_open. rewrite goto_self. by destruct a.
Qed.

Lemma sweep_tasks k s : tasks (sweep k s) = tasks s.
Proof. unfold sweep. by repeat case_match. Qed.
Lemma drain_tasks c s : tasks (drain_pending c s).2 = tasks s.
Proof. unfold drain_pending. by case_match. Qed.
Lemma uninstall_tasks c s : tasks (uninstall c s) = tasks s.
Proof. unfold uninstall. by repeat case_match. Qed.

Lemma await_keeps c id t u p s :
  tasks s !! u = Some p -> is_open p = false -> tasks (await_reply c id t s) !! u = Some p.
Proof.
  intros Hu Ho. unfold await_reply. case_match; [|done]. unfold on_channel; cbn [tasks].
  case_match; [by apply drop_keeps|done].
Qed.

Lemma release_keeps c id u p s :
  tasks s !! u = Some p -> is_open p = false -> tasks (release_pending_reply c id s) !! u = Some p.
Proof.
  intros Hu Ho. unfold release_pending_reply. case_match; [|done]. unfold on_channel; cbn [tasks].
  case_match; [by apply drop_keeps|done].
Qed.

(** ** Routing and arrivals *)

(** Who an opener is still to wake. *)
Definition to_wake p : list TaskId :=
  match p with
  | SEvict _ _ ws | SEvictFail _ _ ws | SFailing _ _ ws | SWake _ ws => ws
  | _ => []
  end.

(** The channel a task is about to close. *)
Definition closing p : option ChanId :=
  match p with XClose c => Some c | SEvict _ (Some old) _ => Some old | _ => None end.

(** The channels of a stream's task. *)
Definition mentions p : list ChanId :=
  match p with
  | SEvict c None _ | SFailing c _ _ | SWake c _ | SHandshake c | SStream c
  | XRemove c | XClose c | XFail c | XFailing c _ => [c]
  | SEvict c (Some old) _ | SEvictFail c old _ => [c; old]
  | _ => []
  end.

Definition routed s (c : ChanId) : Prop := exists k, channels s !! k = Some c.
Definition parked s t (k : str) : Prop :=
  exists sv, tasks s !! t = Some (AParked sv Waiting) /\ target sv = k.
Definition woken_soon s t : Prop := exists u p, tasks s !! u = Some p /\ t ∈ to_wake p.
Definition queued s t (k : str) : Prop := exists ws, arrival_waiters s !! k = Some ws /\ t ∈ ws.

Record Routes s : Prop := {
  routes_open k c : channels s !! k = Some c ->
    exists ch, heap s !! c = Some ch /\ key ch = k /\ closed ch = false;
  routes_closing t p c : tasks s !! t = Some p -> closing p = Some c -> ~ routed s c;
  routes_known t p c : tasks s !! t = Some p -> c ∈ mentions p -> (c < length (heap s))%nat;
  routes_waiters k ws : arrival_waiters s !! k = Some ws -> ws <> [] /\ channels s !! k = None;
  routes_parked t k : parked s t k -> queued s t k \/ woken_soon s t;
}.

(** A move of one task. *)
Lemma routes_goto t p p' s :
  Routes s -> tasks s !! t = Some p ->
  (forall sv, p' <> AParked sv Waiting) ->
  (forall w, w ∈ to_wake p -> w ∈ to_wake p' \/ arrival_open s w = false) ->
  (forall c, closing p' = Some c -> ~ routed s c) ->
  (forall c, c ∈ mentions p' -> c ∈ mentions p) ->
  Routes (goto t p' s).
Proof.
  intros [Ho Hc Hm Hw Hp] Ht Hnp Hwk Hcl Hms. split; [done| | |done|].
  - intros u q c Hu Hq. destruct (decide (u = t)) as [->|].
    + rewrite goto_self in Hu. injection Hu as <-. by apply Hcl.
    + rewrite goto_other in Hu by done. by eapply Hc.
  - intros u q c Hu Hq. destruct (decide (u = t)) as [->|].
    + rewrite goto_self in Hu. injection Hu as <-. eapply Hm; [exact Ht|]. by apply Hms.
    + rewrite goto_other in Hu by done. by eapply Hm.
  - intros w k (sv & Hwt & Hk). assert (w <> t) as Hne.
    { intros ->. rewrite goto_self in Hwt. injection Hwt as E. by destruct (Hnp sv). }
    rewrite goto_other in Hwt by done. destruct (Hp w k) as [?|(u & q & Hu & Hin)]; [by exists sv|by left|].
    right. destruct (decide (u = t)) as [->|].
    + assert (q = p) as -> by congruence. destruct (Hwk w Hin) as [Hin'|Hcl'].
      * exists t, p'. by rewrite goto_self.
      * unfold arrival_open in Hcl'. by rewrite Hwt in Hcl'.
    + exists u, q. by rewrite goto_other.
Qed.

(** The moves that neither wake nor close anything. *)
Definition plain p : bool :=
  match p with
  | AParked _ Waiting | SEvict _ _ _ | SEvictFail _ _ _ | SFailing _ _ _ | SWake _ _ | XClose _ => false
  | _ => true
  end.

Lemma routes_plain t p p' s :
  Routes s -> tasks s !! t = Some p -> plain p' = true -> to_wake p = [] ->
  (forall c, c ∈ mentions p' -> c ∈ mentions p) -> Routes (goto t p' s).
Proof.
  intros HR Ht Hpl Hwk Hms. apply (routes_goto t p); [done..| | | |done].
  - intros sv ->. done.
  - rewrite Hwk. intros w Hin. by apply not_elem_of_nil in Hin.
  - intros c Hc. by destruct p'.
Qed.

Lemma routes_channel c f s :
  Routes s ->
  (forall ch, heap s !! c = Some ch -> key (f ch) = key ch /\ (closed (f ch) = closed ch \/ ~ routed s c)) ->
  Routes (on_channel c f s).
Proof.
  intros [Ho Hc Hm Hw Hp] Hf. split; [|done| |done..].
  2: { intros u q c' Hu Hq. unfold on_channel. cbn [heap]. rewrite length_alter. by eapply Hm. }
  intros k c' Hk. destruct (Ho k c' Hk) as (ch & Hh & Hkey & Hcl). unfold on_channel. cbn [heap].
  destruct (decide (c' = c)) as [->|].
  - exists (f ch). destruct (Hf ch Hh) as [Ek El]. rewrite list_lookup_alter_eq, Hh.
    split_and!; [done|congruence|]. destruct El as [->|El]; [done|]. destruct El. by exists k.
  - exists ch. by rewrite list_lookup_alter_ne by done.
Qed.

Lemma routes_drop_receiver c s : Routes s -> Routes (on_channel c drop_receiver s).
Proof. intros. apply routes_channel; auto. Qed.

Lemma routes_settle t p a s :
  Routes s -> tasks s !! t = Some p -> is_open p = true -> Routes (goto t (settle a p) s).
Proof. intros HR Hp Ho. apply (routes_plain t p); try done; by destruct p. Qed.

Lemma routes_send t e s : Routes s -> Routes (send_reply t e s).2.
Proof.
  intros HR. destruct (send_cases t e s) as [->|(p & Hp & Ho & ->)]; [done|]. by apply routes_settle.
Qed.

Lemma routes_drop t s : Routes s -> Routes (drop_reply_sender t s).
Proof.
  intros HR. destruct (drop_cases t s) as [->|(p & Hp & Ho & ->)]; [done|]. by apply routes_settle.
Qed.

Lemma routes_arrival a t s : a <> Waiting -> Routes s -> Routes (set_arrival a t s).
Proof.
  intros Ha HR. destruct (arrival_cases a t s) as [[-> _]|(sv & Hp & ->)]; [done|].
  apply (routes_plain t (AParked sv Waiting)); try done. by destruct a.
Qed.

Lemma same_pending_closed m (ch : ClientChannel) : key (set_pending m ch) = key ch /\ closed (set_pending m ch) = closed ch.
Proof. done. Qed.

Lemma routes_await c id t s : Routes s -> Routes (await_reply c id t s).
Proof.
  intros HR. unfold await_reply. destruct (heap s !! c); [|done].
  apply routes_channel; [|by auto]. case_match; [by apply routes_drop|done].
Qed.

Lemma routes_release c id s : Routes s -> Routes (release_pending_reply c id s).
Proof.
  intros HR. unfold release_pending_reply. destruct (heap s !! c); [|done].
  apply routes_channel; [|by auto]. case_match; [by apply routes_drop|done].
Qed.

Lemma routes_drain c s : Routes s -> Routes (drain_pending c s).2.
Proof. intros HR. unfold drain_pending. case_match; [|done]. apply routes_channel; auto. Qed.

Lemma routes_uninstall c s : Routes s -> Routes (uninstall c s) /\ ~ routed (uninstall c s) c.
Proof.
  intros HR. pose proof HR as [Ho Hc Hm Hw Hp]. unfold uninstall.
  destruct (heap s !! c) as [ch|] eqn:Eh.
  2: { split; [done|]. intros [k Hk]. destruct (Ho k c Hk) as (ch & Hh & _). congruence. }
  case_bool_decide as Hk.
  - split; [split|].
    + intros k c' Hk'. unfold set_channels in *; cbn [channels heap] in *.
      apply lookup_delete_Some in Hk' as [_ Hk']. by apply Ho.
    + intros t p c' Ht Hcl [k Hk']. unfold set_channels in *; cbn [channels tasks] in *.
      apply lookup_delete_Some in Hk' as [_ Hk']. apply (Hc t p c' Ht Hcl). by exists k.
    + exact Hm.
    + intros k ws Hk'. destruct (Hw k ws Hk') as [? Hn]. split; [done|].
      unfold set_channels; cbn [channels]. by apply lookup_delete_None; right.
    + exact Hp.
  + intros [k Hk']. unfold set_channels in Hk'; cbn [channels] in Hk'.
    apply lookup_delete_Some in Hk' as [Hne Hk']. destruct (Ho k c Hk') as (ch' & Hh & Hkey & _).
    congruence.
  - split; [done|]. intros [k Hk']. destruct (Ho k c Hk') as (ch' & Hh & Hkey & _). congruence.
Qed.

Lemma routes_sweep k s : Routes s -> Routes (sweep k s).
Proof.
  intros [Ho Hc Hm Hw Hp]. unfold sweep. destruct (arrival_waiters s !! k) as [ws|] eqn:Ek; [|done].
  assert (forall m, (forall k' ws', m !! k' = Some ws' -> ws' <> [] /\ channels s !! k' = None) ->
    (forall t k', parked s t k' -> queued s t k' -> exists ws', m !! k' = Some ws' /\ t ∈ ws') ->
    Routes (set_waiters m s)) as Hset.
  { intros m Hwm Hq. split; [done..|]. intros t k' Ht. destruct (Hp t k' Ht) as [Hq'|?]; [left|by right].
    by apply (Hq t k'). }
  assert (forall t k', parked s t k' -> queued s t k' ->
    (k' <> k /\ queued s t k') \/ (k' = k /\ t ∈ filter (fun t => arrival_open s t = true) ws)) as Hsplit.
  { intros t k' (sv & Ht & _) (ws' & Hk' & Hin). destruct (decide (k' = k)) as [->|]; [right|left].
    - split; [done|]. apply list_elem_of_filter. unfold arrival_open. rewrite Ht. split; [done|congruence].
    - split; [done|]. by exists ws'. }
  destruct (filter _ ws) as [|w rest] eqn:Ef; apply Hset.
  - intros k' ws' [_ Hk']%lookup_delete_Some. by apply Hw.
  - intros t k' Ht Hq. destruct (Hsplit t k' Ht Hq) as [[Hne (ws' & Hk' & Hin)]|[_ Hin]].
    + exists ws'. by rewrite lookup_delete_ne by done.
    + by apply not_elem_of_nil in Hin.
  - intros k' ws' [[<- <-]|[_ Hk']]%lookup_insert_Some; [|by apply Hw].
    split; [done|]. by apply (Hw k ws).
  - intros t k' Ht Hq. destruct (Hsplit t k' Ht Hq) as [[Hne (ws' & Hk' & Hin)]|[-> Hin]].
    + exists ws'. by rewrite lookup_insert_ne by done.
    + exists (w :: rest). by rewrite lookup_insert_eq.
Qed.

(** [open_channel] takes over the key and whoever waits for it. *)
Lemma routes_open_channel t k s :
  Routes s -> tasks s !! t = Some (SOpen k) ->
  let '(previous, waiters, s1) := install k s in
  Routes (goto t (SEvict (length (heap s)) previous waiters) s1).
Proof.
  intros [Ho Hc Hm Hw Hp] Ht. unfold install.
  assert (forall k' c, channels s !! k' = Some c -> (c < length (heap s))%nat) as Hold.
  { intros k' c Hk'. destruct (Ho k' c Hk') as (ch & Hh & _). by apply lookup_lt_Some in Hh. }
  assert (forall k' c, <[k := length (heap s)]> (channels s) !! k' = Some c ->
    c = length (heap s) \/ (k' <> k /\ channels s !! k' = Some c)) as Hnew.
  { intros k' c [[_ <-]|[? ?]]%lookup_insert_Some; [by left|right; auto]. }
  split; unfold goto; cbn [channels heap tasks arrival_waiters].
  - intros k' c [[<- <-]|[_ Hk']]%lookup_insert_Some.
    + exists (new_channel k). rewrite lookup_app_r, Nat.sub_diag by lia. done.
    + destruct (Ho k' c Hk') as (ch & Hh & ?). exists ch. by rewrite lookup_app_l_Some with (x := ch).
  - intros u q c Hu Hq [k' Hk']. cbn [channels] in Hk'.
    apply lookup_insert_Some in Hu as [[<- <-]|[_ Hu]].
    + destruct (channels s !! k) as [old|] eqn:Ek; [|done]. injection Hq as <-.
      destruct (Hnew k' old Hk') as [->|[Hne Hk]]; [by apply Hold in Ek; lia|].
      destruct (Ho k old Ek) as (ch & Hh & <- & _), (Ho k' old Hk) as (ch' & Hh' & <- & _). congruence.
    + destruct (Hnew k' c Hk') as [->|[Hne Hk]]; [|by apply (Hc u q c Hu Hq); exists k'].
      assert (length (heap s) ∈ mentions q) as Hq'.
      { destruct q as [| | | | | | | | | | |? [] ?| | | | | | |?| | | | | | | |]; try done;
          injection Hq as ->; set_solver. }
      pose proof (Hm u q _ Hu Hq'). lia.
  - intros u q c Hu Hq. rewrite length_app. simpl.
    apply lookup_insert_Some in Hu as [[<- <-]|[_ Hu]]; [|pose proof (Hm u q c Hu Hq); lia].
    destruct (channels s !! k) as [old|] eqn:Ek; cbn in Hq; [pose proof (Hold k old Ek)|]; set_solver by lia.
  - intros k' ws [Hne Hk']%lookup_delete_Some. destruct (Hw k' ws Hk') as [? Hn].
    split; [done|]. by rewrite lookup_insert_ne by done.
  - intros w k' (sv & Hwt & Hk'). cbn [tasks] in Hwt.
    apply lookup_insert_Some in Hwt as [[_ [=]]|[Hne Hwt]].
    destruct (Hp w k') as [(ws & Hws & Hin)|(u & q & Hu & Hin)]; [by exists sv| |].
    + destruct (decide (k' = k)) as [->|].
      * right. eexists t, _. cbn [tasks]. rewrite lookup_insert_eq. split; [done|]. cbn. by rewrite Hws.
      * left. exists ws. cbn [arrival_waiters]. by rewrite lookup_delete_ne by done.
    + right. exists u, q. cbn [tasks]. rewrite lookup_insert_ne; [done|]. intros ->.
      assert (q = SOpen k) as -> by congruence. by apply not_elem_of_nil in Hin.
Qed.

(** [await_channel] parks only for a key that is not connected. *)
Lemma routes_park t sv s :
  Routes s -> tasks s !! t = Some (ARegister sv) -> channels s !! target sv = None ->
  Routes (goto t (AParked sv Waiting)
    (set_waiters (<[target sv := default [] (arrival_waiters s !! target sv) ++ [t]]>
       (arrival_waiters s)) s)).
Proof.
  intros [Ho Hc Hm Hw Hp] Ht Hk. split; unfold goto, set_waiters; cbn [channels heap tasks arrival_waiters].
  - done.
  - intros u q c [[<- <-]|[_ Hu]]%lookup_insert_Some Hq; [done|by eapply Hc].
  - intros u q c [[<- <-]|[_ Hu]]%lookup_insert_Some Hq; [by apply not_elem_of_nil in Hq|by eapply Hm].
  - intros k ws [[<- <-]|[_ Hk']]%lookup_insert_Some; [|by apply Hw].
    split; [|done]. by destruct (default _ _).
  - intros w k (sv' & Hwt & <-). cbn [tasks] in Hwt.
    assert (forall u q, tasks s !! u = Some q -> w ∈ to_wake q -> u <> t) as Hut.
    { intros u q Hu Hin ->. assert (q = ARegister sv) as -> by congruence. by apply not_elem_of_nil in Hin. }
    apply lookup_insert_Some in Hwt as [[<- [= <-]]|[Hne Hwt]].
    + left. eexists. cbn [arrival_waiters]. rewrite lookup_insert_eq. split; [done|]. set_solver.
    + destruct (Hp w (target sv')) as [(ws & Hws & Hin)|(u & q & Hu & Hin)]; [by exists sv'| |].
      * left. destruct (decide (target sv' = target sv)) as [E|].
        -- eexists. cbn [arrival_waiters]. rewrite <- E, lookup_insert_eq. split; [done|].
           rewrite Hws. set_solver.
        -- exists ws. cbn [arrival_waiters]. by rewrite lookup_insert_ne by done.
      * right. exists u, q. cbn [tasks]. rewrite lookup_insert_ne; [done|]. intros <-. by eapply Hut.
Qed.

Ltac plain_move := first [done | set_solver].

Lemma start_plain sv c : plain (start sv c) = true /\ mentions (start sv c) = [].
Proof. unfold start. destruct (call sv); by split. Qed.
Lemma sent_plain sv c slot e : plain (sent sv c slot e) = true /\ mentions (sent sv c slot e) = [].
Proof. unfold sent. destruct (call sv), e; by split. Qed.

(** A move to a place of a call or of a reply. *)
Lemma routes_move t p p' s :
  Routes s -> tasks s !! t = Some p -> to_wake p = [] -> plain p' = true -> mentions p' = [] ->
  Routes (goto t p' s).
Proof. intros HR Ht Hwk Hpl Hms. apply (routes_plain t p); try done. rewrite Hms. set_solver. Qed.

Lemma same_frames_key payload ch ch' :
  send_frame payload ch = Some (Ok ch') -> ch' = push_frame payload ch.
Proof. unfold send_frame. intros E. repeat case_match; by simplify_eq. Qed.

Lemma routes_frame c payload ch ch' s :
  Routes s -> heap s !! c = Some ch -> send_frame payload ch = Some (Ok ch') ->
  Routes (on_channel c (fun _ => ch') s).
Proof.
  intros HR Hc ->%same_frames_key. apply routes_channel; [done|]. intros ch2 Hc2. simplify_eq. auto.
Qed.

Lemma routes_log i t e s : Routes s -> Routes (log_reply i t e s).
Proof. by intros []. Qed.

Lemma send_snd t e s ok s1 : send_reply t e s = (ok, s1) -> s1 = (send_reply t e s).2.
Proof. by intros ->. Qed.
Lemma drain_snd c s ts s1 : drain_pending c s = (ts, s1) -> s1 = (drain_pending c s).2.
Proof. by intros ->. Qed.

(** Which handler a task is in. *)
Inductive Part := PCall | POpen | PClose | PInbound.
Definition part p : Part :=
  match p with
  | SOpen _ | SEvict _ _ _ | SEvictFail _ _ _ | SFailing _ _ _ | SWake _ _ | SHandshake _
  | SStream _ => POpen
  | XRemove _ | XClose _ | XFail _ | XFailing _ _ | XDone => PClose
  | IFind _ | IDeliver _ _ | ISend _ _ | IDone _ _ => PInbound
  | _ => PCall
  end.

Lemma routes_run_call t p s s' :
  Routes s -> tasks s !! t = Some p -> part p = PCall -> run t s = Some s' -> Routes s'.
Proof.
  intros HR Ht Hpart E. run_task E Ht. destruct p; simplify_eq; try done.
  - eapply routes_move; try done; repeat case_match; by apply start_plain || done.
  - destruct (channels s !! target sv) eqn:Ek; simplify_eq; [|by apply routes_park].
    eapply routes_move; try done; by apply start_plain.
  - case_match; simplify_eq; by eapply routes_move.
  - eapply routes_move; [by apply routes_sweep|by rewrite sweep_tasks|done..].
  - eapply routes_move; try done; repeat case_match; by apply start_plain || done.
  - case_match; simplify_eq; [by eapply routes_move|].
    eapply routes_move; [by apply routes_await|by apply await_keeps|done..].
  - apply bind_Some in E as (ch & Hc & E). apply bind_Some in E as (r & Hs & E).
    destruct r as [ch'|e]; simplify_eq.
    + eapply routes_move; [by eapply routes_frame|exact Ht|done|apply sent_plain..].
    + eapply routes_move; [done|exact Ht|done|apply sent_plain..].
  - case_match; simplify_eq; by eapply routes_move.
  - case_match; simplify_eq; [by eapply routes_move|].
    eapply routes_move; [by apply routes_release|by apply release_keeps|done..].
Qed.

Lemma routes_run_open t p s s' :
  Routes s -> tasks s !! t = Some p -> part p = POpen -> run t s = Some s' -> Routes s'.
Proof.
  intros HR Ht Hpart E. run_task E Ht. destruct p; simplify_eq; try done.
  - pose proof (routes_open_channel t k s HR Ht) as HO. destruct (install k s) as [[? ?] ?]. by simplify_eq.
  - destruct previous as [old|]; simplify_eq.
    + eapply routes_goto; [|exact Ht|done|by left|done|set_solver]. apply routes_channel; [done|].
      intros ch Hch. split; [unfold try_send_payload; by case_match|].
      right. by eapply routes_closing.
    + eapply routes_goto; [done|exact Ht|done|by left|done|set_solver].
  - destruct (drain_pending previous s) as [ts s1] eqn:Ed. apply drain_snd in Ed as ->. simplify_eq.
    eapply routes_goto; [by apply routes_drain|by rewrite drain_tasks|done|by left|done|set_solver].
  - destruct drained as [|u ts]; simplify_eq.
    + eapply routes_goto; [done|exact Ht|done|by left|done|set_solver].
    + eapply routes_goto; [by apply routes_send|by apply send_keeps|done|by left|done|set_solver].
  - destruct waiters as [|w ws]; simplify_eq.
    + by eapply routes_plain.
    + eapply routes_goto; [by apply routes_arrival|by apply wake_keeps|done| |done|set_solver].
      cbn [to_wake]. intros v [->|Hv]%elem_of_cons; [right|by left]. by apply arrival_closed.
  - apply bind_Some in E as (ch & Hc & E). apply bind_Some in E as (r & Hs & E).
    destruct r as [ch'|e]; simplify_eq; [|by eapply routes_plain].
    eapply routes_plain; [by eapply routes_frame|exact Ht|done..].
  - apply bind_Some in E as (ch & Hc & E). destruct (frames ch); simplify_eq.
    + case_match; simplify_eq. eapply routes_plain; [by apply routes_drop_receiver|exact Ht|done..].
    + by apply routes_channel; auto.
Qed.

Lemma routes_run_close t p s s' :
  Routes s -> tasks s !! t = Some p -> part p = PClose -> run t s = Some s' -> Routes s'.
Proof.
  intros HR Ht Hpart E. run_task E Ht. destruct p; simplify_eq; try done.
  - destruct (routes_uninstall c s HR) as [HR' Hn].
    eapply routes_goto; [done|by rewrite uninstall_tasks|done|by left| |done]. by intros ? [= <-].
  - eapply routes_plain; [|exact Ht|done..]. apply routes_channel; [done|]. intros ch Hch.
    split; [done|]. right. by eapply routes_closing.
  - destruct (drain_pending c s) as [ts s1] eqn:Ed. apply drain_snd in Ed as ->. simplify_eq.
    eapply routes_plain; [by apply routes_drain|by rewrite drain_tasks|done..].
  - destruct drained as [|u ts]; simplify_eq.
    + eapply routes_move; [|exact Ht|done..]. apply routes_channel; auto.
    + eapply routes_plain; [by apply routes_send|by apply send_keeps|done..].
Qed.

Lemma routes_run_inbound t p s s' :
  Routes s -> tasks s !! t = Some p -> part p = PInbound -> run t s = Some s' -> Routes s'.
Proof.
  intros HR Ht Hpart E. run_task E Ht. destruct p; simplify_eq; try done.
  - eapply routes_move; try done; by case_match.
  - apply bind_Some in E as (ch & Hc & E). case_match; simplify_eq; [|by eapply routes_move].
    eapply routes_move; [by apply routes_channel; auto|exact Ht|done..].
  - destruct (send_reply t0 (envelope r) s) as [ok s1] eqn:Es. apply send_snd in Es as ->. simplify_eq.
    destruct ok; (eapply routes_move; [|by apply send_keeps|done..]);
      [apply routes_log|]; by apply routes_send.
Qed.

Lemma routes_cancelled t p s :
  Routes s -> tasks s !! t = Some p -> to_wake p = [] -> Routes (goto t (Cancelled p) s).
Proof. intros HR Ht Hw. by eapply routes_move. Qed.

Lemma routes_drop_all ws s :
  Routes s -> Routes (foldr drop_arrival s ws) /\ (forall w, w ∈ ws -> arrival_open (foldr drop_arrival s ws) w = false).
Proof.
  intros HR. induction ws as [|w ws [IH1 IH2]]; [split; [done|set_solver]|]. cbn [foldr]. split.
  - by apply routes_arrival.
  - intros v Hv. destruct (decide (v = w)) as [->|]; [by apply arrival_closed|].
    apply elem_of_cons in Hv as [->|Hv]; [done|]. specialize (IH2 v Hv).
    change (drop_arrival w ?x) with (set_arrival Gone w x).
    destruct (arrival_cases Gone w (foldr drop_arrival s ws)) as [[-> _]|(sv & _ & ->)];
      [done|]. unfold arrival_open in *. by rewrite goto_other.
Qed.

Lemma drop_all_keeps ws u p s :
  tasks s !! u = Some p -> (forall sv, p <> AParked sv Waiting) ->
  tasks (foldr drop_arrival s ws) !! u = Some p.
Proof. intros Hu Hp. induction ws; [done|]. cbn [foldr]. by apply wake_keeps. Qed.

Lemma routes_cancel t s s' : Routes s -> cancel t s = Some s' -> Routes s'.
Proof.
  intros HR E. unfold cancel in E. destruct (tasks s !! t) as [p|] eqn:Ht; [|done].
  cbn [mbind option_bind] in E. destruct p; simplify_eq; try done; try (by apply routes_cancelled).
  - destruct (routes_drop_all waiters s HR) as [HR' Hopen].
    eapply (routes_goto t (SEvictFail c previous waiters)); [by apply routes_drop_receiver|by apply drop_all_keeps|done| |done|set_solver].
    intros w Hw. right. by apply Hopen.
  - eapply routes_move; [by apply routes_drop_receiver|done..].
Qed.

Lemma routes_spawn t p s s' : Routes s -> spawn t p s = Some s' -> Routes s'.
Proof.
  unfold spawn. intros [Ho Hc Hm Hw Hp] E. case_match; [|done]. fw_bool. injection E as <-.
  split; unfold goto; cbn [channels heap tasks arrival_waiters]; [done| | |done|].
  - intros u q c [[<- <-]|[_ Hu]]%lookup_insert_Some Hq; [by destruct p|by eapply Hc].
  - intros u q c [[<- <-]|[_ Hu]]%lookup_insert_Some Hq; [by destruct p; set_solver|by eapply Hm].
  - intros w k (sv & Hwt & Hk). cbn [tasks] in Hwt.
    apply lookup_insert_Some in Hwt as [[_ ->]|[Hne Hwt]]; [done|].
    destruct (Hp w k) as [?|(u & q & Hu & Hin)]; [by exists sv|by left|].
    right. exists u, q. cbn [tasks]. rewrite lookup_insert_ne; [done|congruence].
Qed.

Lemma routes_expire t s s' : Routes s -> expire t s = Some s' -> Routes s'.
Proof.
  intros HR E. unfold expire in E. destruct (tasks s !! t) as [p|] eqn:Ht; [|done].
  cbn [mbind option_bind] in E. destruct p; simplify_eq; try done.
  - case_match; simplify_eq. by eapply routes_move.
  - apply bind_Some in E as (ch & Hc & E). case_match; simplify_eq.
    eapply routes_move; [done|exact Ht|done|apply sent_plain..].
  - by eapply routes_move.
  - apply bind_Some in E as (ch & Hc & E). case_match; simplify_eq. by eapply routes_plain.
Qed.

Lemma routes_step e s s' : Routes s -> step e s = Some s' -> Routes s'.
Proof.
  intros HR E. destruct e as [t|t|t|t|t|t p]; cbn [step] in E.
  - unfold run in E. destruct (tasks s !! t) as [p|] eqn:Ht; [|done].
    assert (run t s = Some s') as E' by (unfold run; by rewrite Ht).
    destruct (part p) eqn:Hp; [by eapply routes_run_call|by eapply routes_run_open|
      by eapply routes_run_close|by eapply routes_run_inbound].
  - by eapply routes_expire.
  - unfold closed_seen in E. destruct (tasks s !! t) as [[]|] eqn:Ht; try done. cbn in E.
    apply bind_Some in E as (ch & Hc & E). case_match; simplify_eq. by eapply routes_move.
  - unfold hang_up in E. destruct (tasks s !! t) as [[]|] eqn:Ht; try done. cbn in E. simplify_eq.
    eapply routes_plain; [by apply routes_drop_receiver|exact Ht|done..].
  - by eapply routes_cancel.
  - by eapply routes_spawn.
Qed.

Lemma routes_reachable s : reachable s -> Routes s.
Proof.
  induction 1 as [|s e s' _ IH E]; [|by eapply routes_step].
  split; try (intros; done). intros t k (sv & Ht & _). done.
Qed.

(** ** What changes the routes *)

Lemma send_channels t e s : channels (send_reply t e s).2 = channels s.
Proof. by destruct (send_cases t e s) as [->|(p & _ & _ & ->)]. Qed.
Lemma drop_channels t s : channels (drop_reply_sender t s) = channels s.
Proof. by destruct (drop_cases t s) as [->|(p & _ & _ & ->)]. Qed.
Lemma arrival_channels a t s : channels (set_arrival a t s) = channels s.
Proof. by destruct (arrival_cases a t s) as [[-> _]|(p & _ & ->)]. Qed.
Lemma drop_all_channels ws s : channels (foldr drop_arrival s ws) = channels s.
Proof. induction ws; [done|]. cbn [foldr]. unfold drop_arrival at 1. by rewrite arrival_channels. Qed.

Lemma await_channels c id t s : channels (await_reply c id t s) = channels s.
Proof.
  unfold await_reply, on_channel. case_match; [|done]. cbv zeta. cbn [channels].
  case_match; [apply drop_channels|done].
Qed.
Lemma release_channels c id s : channels (release_pending_reply c id s) = channels s.
Proof.
  unfold release_pending_reply, on_channel. case_match; [|done]. cbv zeta. cbn [channels].
  case_match; [apply drop_channels|done].
Qed.

Ltac same_channels :=
  simplify_eq; unfold goto, on_channel, log_reply, sweep,
    drain_pending, set_waiters, wake in *; cbn [channels] in *;
  repeat (case_match; simplify_eq; cbn [channels] in * );
  rewrite ?await_channels, ?release_channels, ?send_channels, ?drop_channels, ?arrival_channels, ?drop_all_channels; done.

Lemma run_channels t p s s' :
  tasks s !! t = Some p -> run t s = Some s' ->
  (forall k, p <> SOpen k) -> (forall c, p <> XRemove c) -> channels s' = channels s.
Proof.
  intros Ht E Ho Hx. run_task E Ht. destruct p; simplify_eq; try done;
    try (by destruct (Ho k)); try (by destruct (Hx c));
    try (apply bind_Some in E as (ch & _ & E)); try (apply bind_Some in E as ([ch'|e] & _ & E));
    try (destruct (drain_pending _ _) as [ts s1] eqn:Ed; apply drain_snd in Ed as ->);
    try (destruct (send_reply _ _ _) as [ok s1] eqn:Es; apply send_snd in Es as ->);
    try destruct previous; try destruct drained; try destruct waiters; try destruct slot;
    try destruct (call sv); same_channels.
Qed.

(** A step changes the route of a key only where a stream opens for it, or where the routed
    channel itself is being closed. *)
Lemma step_channels e s s' :
  step e s = Some s' ->
  channels s' = channels s \/
  (exists t k, e = Run t /\ tasks s !! t = Some (SOpen k) /\
     channels s' = <[k := length (heap s)]> (channels s)) \/
  (exists t c, e = Run t /\ tasks s !! t = Some (XRemove c) /\ channels s' = channels (uninstall c s)).
Proof.
  intros E. destruct e as [t|t|t|t|t|t p]; cbn [step] in E.
  - pose proof E as E0. unfold run in E. destruct (tasks s !! t) as [p|] eqn:Ht; [|done].
    assert ((forall k, p <> SOpen k) /\ (forall c, p <> XRemove c) \/ (exists k, p = SOpen k) \/ (exists c, p = XRemove c))
      as [[Ho Hx]|[[k ->]|[c ->]]] by (destruct p; eauto; left; by split).
    + left. by eapply run_channels.
    + right; left. exists t, k. cbn in E. by simplify_eq.
    + right; right. exists t, c. cbn in E. by simplify_eq.
  - left. unfold expire in E. destruct (tasks s !! t) as [[]|] eqn:Ht; cbn in E; try done;
      try (apply bind_Some in E as (ch & _ & E)); repeat case_match; same_channels.
  - left. unfold closed_seen in E. destruct (tasks s !! t) as [[]|] eqn:Ht; cbn in E; try done.
    apply bind_Some in E as (ch & _ & E). case_match; same_channels.
  - left. unfold hang_up in E. destruct (tasks s !! t) as [[]|] eqn:Ht; cbn in E; try done. same_channels.
  - left. unfold cancel in E. destruct (tasks s !! t) as [[]|] eqn:Ht; cbn in E; try done; same_channels.
  - left. unfold spawn in E. case_match; [|done]. same_channels.
Qed.

(** C32: routing. In every state the bridge can reach, a key is routed to an open channel of that
    key; and whatever happens next, a route that is there stays unless a newer stream of the same
    key takes it over or the routed channel itself is closed. In particular a stream that unwinds
    late never evicts its successor: it removes the route only if it is still its own. *)
Theorem routes_are_own s e s' k c :
  reachable s -> step e s = Some s' -> channels s !! k = Some c ->
  (exists ch, heap s !! c = Some ch /\ key ch = k /\ closed ch = false) /\
  (channels s' !! k = Some c \/
   (exists t, e = Run t /\ tasks s !! t = Some (SOpen k) /\
      channels s' !! k = Some (length (heap s)) /\ c <> length (heap s)) \/
   (exists t, e = Run t /\ tasks s !! t = Some (XRemove c) /\ channels s' !! k = None)).
Proof.
  intros HR%routes_reachable E Hk. destruct (routes_open _ HR k c Hk) as (ch & Hh & Hkey & Hcl).
  split; [by exists ch|].
  destruct (step_channels _ _ _ E) as [->|[(t & k' & -> & Ht & ->)|(t & c' & -> & Ht & ->)]]; [by left| |].
  - destruct (decide (k' = k)) as [->|]; [|left; by rewrite lookup_insert_ne by done].
    right; left. exists t. rewrite lookup_insert_eq. split_and!; try done.
    apply lookup_lt_Some in Hh. lia.
  - unfold uninstall. destruct (heap s !! c') as [ch'|] eqn:Eh; [|by left].
    case_bool_decide as Hk'; [|by left]. unfold set_channels; cbn [channels].
    destruct (decide (key ch' = k)) as [<-|]; [|left; by rewrite lookup_delete_ne by done].
    right; right. exists t. rewrite lookup_delete_eq. split_and!; try done. congruence.
Qed.

(** C31: no arrival is missed. In every reachable state a caller that waits for a tab to connect
    either is in the waiter list of its key, and the key is then not connected, or a stream that
    has just connected is about to wake it; so a caller never sleeps on while its tab is there. *)
Theorem arrivals_never_missed s t k :
  reachable s -> parked s t k ->
  (queued s t k /\ channels s !! k = None) \/ woken_soon s t.
Proof.
  intros HR%routes_reachable Hp. destruct (routes_parked _ HR t k Hp) as [(ws & Hws & Hin)|?]; [left|by right].
  split; [by exists ws|]. by apply (routes_waiters _ HR k ws).
Qed.

Lemma steps_reachable es s s' : reachable s -> steps es s = Some s' -> reachable s'.
Proof.
  revert s. induction es as [|e es IH]; intros s Hs E; cbn [steps] in E; [by simplify_eq|].
  apply bind_Some in E as (s1 & E1 & E). eapply IH; [|exact E]. by eapply reach_step.
Qed.

End Laws.
