(* ===== verification/BridgeReplies.v ===== *)
(** * BridgeReplies: a reply reaches one waiting call, of its own channel and id

    The second invariant of [BridgeChannel.reachable]: every sender the bridge keeps belongs to a
    call registered for that channel and id, and a call is answered at most once. The runs at the
    end are what the code does not guard against: a released id that was registered again, and a
    call dropped by its caller. *)

From Stdlib Require Import String.
From S2P Require Import Prelude BridgeToken BridgeChannel BridgeChannelLaws.

Section Replies.
Context {V : Type} `{J : Json V}.
Abbreviation R := (ChannelRegistry V).
Implicit Types (s : R) (p : Pc V) (t u : TaskId) (e : ReplyEnvelope V).

(** ** What a task stands for, and what it never undoes *)

Fixpoint service_of p : option (Service V) :=
  match p with
  | AFind sv | ARegister sv | AParked sv _ | ASweep sv | AAgain sv | RRegister sv _ | RSend sv _ _
  | RSelect sv _ _ | RRelease sv _ _ | RDone sv _ => Some sv
  | Cancelled p => service_of p
  | _ => None
  end.

(** The call has its answer, or will have none. *)
Definition past p : bool :=
  match p with
  | RSend _ _ Waiting | RSelect _ _ Waiting => false
  | RSend _ _ _ | RSelect _ _ _ | RRelease _ _ _ | RDone _ _ | Cancelled _ => true
  | _ => false
  end.

Definition delivered p : option (Inbound V) :=
  match p with IDone r true => Some r | _ => None end.

Definition evolves p p' : Prop :=
  (forall sv, service_of p = Some sv -> service_of p' = Some sv) /\
  (past p = true -> past p' = true) /\
  (forall r, delivered p = Some r -> delivered p' = Some r).

#[local] Instance evolves_pre : PreOrder evolves.
Proof. split; [by intros p; repeat split|]. intros p q r (? & ? & ?) (? & ? & ?). repeat split; auto. Qed.

Lemma evolves_refl p : evolves p p.
Proof. reflexivity. Qed.
#[local] Hint Resolve evolves_refl : core.

(** [s'] knows at least what [s] knows. *)
Record grows s s' : Prop := {
  grows_tasks t p : tasks s !! t = Some p -> exists p', tasks s' !! t = Some p' /\ evolves p p';
  grows_heap c ch : heap s !! c = Some ch -> exists ch', heap s' !! c = Some ch' /\ key ch' = key ch;
  grows_log x : x ∈ log s -> x ∈ log s';
}.

Definition registered s u (k : str) (id : Z) : Prop :=
  exists p sv, tasks s !! u = Some p /\ service_of p = Some sv /\ call sv = Rpc id /\ target sv = k.
Definition keyed s (c : ChanId) (k : str) : Prop := exists ch, heap s !! c = Some ch /\ key ch = k.

(** Where an answer came from: a logged reply, or the notice of a closed channel. *)
Definition answered_by s t e : Prop :=
  (exists i, (i, t, e) ∈ log s) \/ e = notice RECONNECTED \/ e = notice DISCONNECTED.

Definition task_ok s t p : Prop :=
  match p with
  | RRegister sv c => keyed s c (target sv)
  | RSend sv c slot | RSelect sv c slot =>
      keyed s c (target sv) /\ forall e, slot = Got e -> answered_by s t e
  | RRelease sv c o => keyed s c (target sv) /\ forall e, o = Answered e -> answered_by s t e
  | RDone sv o => forall e, o = Answered e -> answered_by s t e
  | IDeliver r c => keyed s c (in_key r)
  | ISend r u => registered s u (in_key r) (in_id r)
  | IDone r d => d = true -> exists u, (t, u, envelope r) ∈ log s
  | _ => True
  end.

Definition pending_ok s : Prop := forall c ch id u,
  heap s !! c = Some ch -> pending_replies ch !! id = Some u -> registered s u (key ch) id.

Definition log_ok s : Prop :=
  NoDup (map (fun x => x.1.1) (log s)) /\ NoDup (map (fun x => x.1.2) (log s)) /\
  forall i u e, (i, u, e) ∈ log s ->
    exists r p, tasks s !! i = Some (IDone r true) /\ envelope r = e /\
      registered s u (in_key r) (in_id r) /\ tasks s !! u = Some p /\ past p = true.

Definition Replies s : Prop :=
  pending_ok s /\ (forall t p, tasks s !! t = Some p -> task_ok s t p) /\ log_ok s.

Lemma registered_grows s s' u k id : grows s s' -> registered s u k id -> registered s' u k id.
Proof.
  intros Hg (p & sv & Ht & Hs & ?). destruct (grows_tasks _ _ Hg u p Ht) as (p' & Ht' & He & _).
  exists p', sv. auto.
Qed.

Lemma keyed_grows s s' c k : grows s s' -> keyed s c k -> keyed s' c k.
Proof.
  intros Hg (ch & Hc & <-). destruct (grows_heap _ _ Hg c ch Hc) as (ch' & Hc' & E). by exists ch'.
Qed.

Lemma answered_grows s s' t e : grows s s' -> answered_by s t e -> answered_by s' t e.
Proof. intros Hg [[i Hi]|?]; [left|by right]. exists i. by apply (grows_log _ _ Hg). Qed.

Lemma task_ok_grows s s' t p : grows s s' -> task_ok s t p -> task_ok s' t p.
Proof.
  intros Hg. destruct p; cbn [task_ok]; try done; try (by apply keyed_grows); try (by apply registered_grows).
  - intros [? Ha]. split; [by eapply keyed_grows|]. intros e ?. by eapply answered_grows, Ha.
  - intros [? Ha]. split; [by eapply keyed_grows|]. intros e ?. by eapply answered_grows, Ha.
  - intros [? Ha]. split; [by eapply keyed_grows|]. intros e ?. by eapply answered_grows, Ha.
  - intros Ha e ?. by eapply answered_grows, Ha.
  - intros Ha Hd. destruct (Ha Hd) as [u Hu]. exists u. by apply (grows_log _ _ Hg).
Qed.

(** The invariant follows what grows without a new reply. *)
Lemma replies_intro s s' :
  Replies s -> grows s s' -> log s' = log s ->
  (forall c ch' id u, heap s' !! c = Some ch' -> pending_replies ch' !! id = Some u ->
    registered s' u (key ch') id) ->
  (forall t p', tasks s' !! t = Some p' -> tasks s !! t = Some p' \/ task_ok s' t p') ->
  Replies s'.
Proof.
  intros (_ & Ht & Hn1 & Hn2 & Hl) Hg El Hp' Ht'. split_and!; [done| |].
  - intros t p' Hp. destruct (Ht' t p' Hp) as [Ho|?]; [|done]. by eapply task_ok_grows, Ht.
  - split_and!; [by rewrite El..|]. rewrite El. intros i u e Hin.
    destruct (Hl i u e Hin) as (r & p & Hi & He & Hr & Hu & Hpast).
    destruct (grows_tasks _ _ Hg i _ Hi) as (pi & Hi' & _ & _ & Hd).
    destruct (grows_tasks _ _ Hg u _ Hu) as (pu & Hu' & _ & Hpu & _).
    specialize (Hd r eq_refl). destruct pi as [| | | | | | | | | | | | | | | | | | | | | | | | |? []|]; try done.
    injection Hd as ->. exists r, pu. split_and!; try done; [by eapply registered_grows|by apply Hpu].
Qed.

(** ** The writes *)

Lemma grows_goto t p p' s : tasks s !! t = Some p -> evolves p p' -> grows s (goto t p' s).
Proof.
  intros Ht He. split; [|eauto|done]. intros u q Hu. destruct (decide (u = t)) as [->|].
  - assert (q = p) as -> by congruence. exists p'. by rewrite goto_self.
  - exists q. by rewrite goto_other.
Qed.

Lemma replies_goto t p p' s :
  Replies s -> tasks s !! t = Some p -> evolves p p' -> task_ok s t p' -> Replies (goto t p' s).
Proof.
  intros HR Ht He Hok. pose proof (grows_goto t p p' s Ht He) as Hg.
  apply (replies_intro s); [done..| |].
  - intros c ch id u Hc Hid. eapply registered_grows; [exact Hg|]. by eapply (proj1 HR).
  - intros u q Hu. destruct (decide (u = t)) as [->|].
    + rewrite goto_self in Hu. injection Hu as <-. right. by eapply task_ok_grows.
    + rewrite goto_other in Hu by done. by left.
Qed.

Lemma grows_channel c f s :
  (forall ch, heap s !! c = Some ch -> key (f ch) = key ch) -> grows s (on_channel c f s).
Proof.
  intros Hf. split; [by eauto| |done]. intros c' ch Hc. unfold on_channel; cbn [heap].
  destruct (decide (c' = c)) as [->|].
  - exists (f ch). rewrite list_lookup_alter_eq, Hc. auto.
  - exists ch. by rewrite list_lookup_alter_ne by done.
Qed.

Lemma replies_channel c f s :
  Replies s ->
  (forall ch, heap s !! c = Some ch -> key (f ch) = key ch /\
    forall id u, pending_replies (f ch) !! id = Some u ->
      pending_replies ch !! id = Some u \/ registered s u (key ch) id) ->
  Replies (on_channel c f s).
Proof.
  intros HR Hf. assert (grows s (on_channel c f s)) as Hg by (apply grows_channel; intros; by apply Hf).
  apply (replies_intro s); [done..| |by left].
  intros c' ch' id u Hc Hid. eapply registered_grows; [exact Hg|].
  unfold on_channel in Hc; cbn [heap] in Hc. destruct (decide (c' = c)) as [->|].
  - rewrite list_lookup_alter_eq in Hc. apply fmap_Some in Hc as (ch & Hch & ->).
    destruct (Hf ch Hch) as [-> Hp]. destruct (Hp id u Hid) as [?|?]; [by eapply (proj1 HR)|done].
  - rewrite list_lookup_alter_ne in Hc by done. by eapply (proj1 HR).
Qed.

Lemma replies_same s s' :
  Replies s -> tasks s' = tasks s -> heap s' = heap s -> log s' = log s -> Replies s'.
Proof.
  intros HR Et Eh El.
  assert (grows s s') as Hg by (split; [rewrite Et|rewrite Eh|rewrite El]; eauto).
  apply (replies_intro s); [done..| |].
  - intros c ch id u Hc Hid. eapply registered_grows; [exact Hg|]. rewrite Eh in Hc. by eapply (proj1 HR).
  - intros t p. rewrite Et. by left.
Qed.

Lemma evolves_settle a p : is_open p = true -> a <> Waiting -> evolves p (settle a p).
Proof. intros Ho Ha. destruct p; try done; repeat split; try done; by destruct slot, a. Qed.

Lemma task_ok_settle a p s t :
  is_open p = true -> task_ok s t p -> (forall e, a = Got e -> answered_by s t e) ->
  task_ok s t (settle a p).
Proof. intros Ho Hok Ha. destruct p; try done; cbn in *; by destruct Hok. Qed.

Lemma replies_settle t p a s :
  Replies s -> tasks s !! t = Some p -> is_open p = true -> a <> Waiting ->
  (forall e, a = Got e -> answered_by s t e) -> Replies (goto t (settle a p) s).
Proof.
  intros HR Ht Ho Ha He. eapply replies_goto; [done|exact Ht|by apply evolves_settle|].
  apply task_ok_settle; [done| |done]. by apply HR.
Qed.

Lemma replies_notice t e s :
  Replies s -> e = notice RECONNECTED \/ e = notice DISCONNECTED -> Replies (send_reply t e s).2.
Proof.
  intros HR He. destruct (send_cases t e s) as [->|(p & Hp & Ho & ->)]; [done|].
  apply replies_settle; try done. intros e' [= <-]. by right.
Qed.

Lemma replies_drop t s : Replies s -> Replies (drop_reply_sender t s).
Proof.
  intros HR. destruct (drop_cases t s) as [->|(p & Hp & Ho & ->)]; [done|]. by apply replies_settle.
Qed.

Lemma replies_arrival a t s : a <> Waiting -> Replies s -> Replies (set_arrival a t s).
Proof.
  intros Ha HR. destruct (arrival_cases a t s) as [[-> _]|(sv & Ht & ->)]; [done|].
  by eapply replies_goto.
Qed.

Lemma heap_drop t s : heap (drop_reply_sender t s) = heap s.
Proof. by destruct (drop_cases t s) as [->|(p & Hp & Ho & ->)]. Qed.

Lemma replies_set_pending c m s :
  Replies s -> (forall ch id u, heap s !! c = Some ch -> m !! id = Some u ->
    pending_replies ch !! id = Some u \/ registered s u (key ch) id) ->
  Replies (on_channel c (set_pending m) s).
Proof. intros HR Hm. apply replies_channel; [done|]. intros ch Hc. split; [done|]. intros id u Hid. by eapply Hm. Qed.


(** [await_reply] by the task that is registering. *)
Lemma replies_await c id t sv s :
  Replies s -> tasks s !! t = Some (RRegister sv c) -> call sv = Rpc id ->
  Replies (goto t (RSend sv c Waiting) (await_reply c id t s)).
Proof.
  intros HR Ht Hc. assert (keyed s c (target sv)) as Hk by (by apply (proj1 (proj2 HR) _ _ Ht)).
  destruct Hk as (ch & Hch & Hkey). unfold await_reply. rewrite Hch. cbv zeta.
  set (s1 := match pending_replies ch !! id with Some u => drop_reply_sender u s | None => s end).
  assert (Replies s1) as HR1 by (subst s1; case_match; [by apply replies_drop|done]).
  assert (tasks s1 !! t = Some (RRegister sv c)) as Ht1 by (subst s1; case_match; [by apply drop_keeps|done]).
  assert (heap s1 = heap s) as Hh by (subst s1; case_match; [by apply heap_drop|done]).
  eapply (replies_goto t (RRegister sv c)); [|exact Ht1|by repeat split|].
  - apply replies_channel; [done|]. rewrite Hh. intros ch' Hch'. simplify_eq. split; [done|].
    cbn [set_pending pending_replies key]. intros id' u [[<- <-]|[_ Hu]]%lookup_insert_Some; [right|by left].
    by exists (RRegister sv c), sv.
  - split; [|done]. exists (set_pending (<[id := t]> (pending_replies ch)) ch). unfold on_channel; cbn [heap].
    rewrite list_lookup_alter_eq, Hh, Hch. done.
Qed.

Lemma replies_release c id s : Replies s -> Replies (release_pending_reply c id s).
Proof.
  intros HR. unfold release_pending_reply. destruct (heap s !! c) as [ch|] eqn:Hch; [|done]. cbv zeta.
  apply replies_channel; [case_match; [by apply replies_drop|done]|].
  intros ch' Hch'. split; [done|]. cbn [set_pending pending_replies]. intros id' u [_ Hu]%lookup_delete_Some. by left.
Qed.

Lemma heap_release_key c id s : grows s (release_pending_reply c id s).
Proof.
  unfold release_pending_reply. destruct (heap s !! c) as [ch|] eqn:Hch; [|by split; eauto].
  cbv zeta. assert (forall s1, grows s s1 -> grows s (on_channel c (fun ch => set_pending (delete id (pending_replies ch)) ch) s1)) as Hc.
  { intros s1 Hg. pose proof (grows_channel c (fun ch => set_pending (delete id (pending_replies ch)) ch) s1 ltac:(done)) as Hg'.
    split.
    - intros t p Ht. destruct (grows_tasks _ _ Hg t p Ht) as (p1 & Ht1 & He1).
      destruct (grows_tasks _ _ Hg' t p1 Ht1) as (p2 & Ht2 & He2). exists p2. split; [done|by etrans].
    - intros c' ch' Hc'. destruct (grows_heap _ _ Hg c' ch' Hc') as (ch1 & Hc1 & <-).
      apply (grows_heap _ _ Hg' c' ch1 Hc1).
    - intros x Hx. by apply (grows_log _ _ Hg'), (grows_log _ _ Hg). }
  apply Hc. case_match; [|by split; eauto].
  destruct (drop_cases n s) as [->|(p & Hp & Ho & ->)]; [by split; eauto|].
  eapply grows_goto; [exact Hp|]. by apply evolves_settle.
Qed.

Lemma replies_drain c s : Replies s -> Replies (drain_pending c s).2.
Proof.
  intros HR. unfold drain_pending. case_match; [|done]. apply replies_set_pending; [done|].
  intros ch id u _ Hu. by rewrite lookup_empty in Hu.
Qed.

Lemma replies_install t k s :
  Replies s -> tasks s !! t = Some (SOpen k) ->
  let '(previous, waiters, s1) := install k s in
  Replies (goto t (SEvict (length (heap s)) previous waiters) s1).
Proof.
  intros HR Ht. unfold install. eapply replies_goto; [|exact Ht|by repeat split|done].
  assert (grows s (mkChannelRegistry (<[k := length (heap s)]> (channels s))
    (delete k (arrival_waiters s)) (heap s ++ [new_channel k]) (tasks s) (log s))) as Hg.
  { split; [eauto| |done]. intros c ch Hc. exists ch. cbn [heap]. by rewrite lookup_app_l_Some with (x := ch). }
  apply (replies_intro s); [done..| |by left]. cbn [heap].
  intros c ch id u [Hc|[_ Hc]]%lookup_app_Some Hu.
  - eapply registered_grows; [exact Hg|]. by eapply (proj1 HR).
  - destruct (c - length (heap s))%nat; [|done]. injection Hc as <-. cbn in Hu. by rewrite lookup_empty in Hu.
Qed.

(** A new entry of the log. *)
Lemma log_ok_extend s s2 t u r p :
  log_ok s -> grows s s2 -> log s2 = log s ++ [(t, u, envelope r)] ->
  tasks s2 !! t = Some (IDone r true) -> tasks s2 !! u = Some p -> past p = true ->
  registered s2 u (in_key r) (in_id r) ->
  (forall u' e, (t, u', e) ∉ log s) -> (forall i e, (i, u, e) ∉ log s) -> log_ok s2.
Proof.
  intros (Hn1 & Hn2 & Hl) Hg El Ht Hu Hp Hr Hft Hfu.
  split_and!; rewrite El, ?map_app.
  - apply NoDup_app. split_and!; [done| |by apply NoDup_singleton].
    intros i Hi%list_elem_of_fmap Hi'%list_elem_of_singleton. destruct Hi as ([[i' u'] e'] & E & Hi).
    cbn in *. subst. by apply (Hft u' e').
  - apply NoDup_app. split_and!; [done| |by apply NoDup_singleton].
    intros i Hi%list_elem_of_fmap Hi'%list_elem_of_singleton. destruct Hi as ([[i' u'] e'] & E & Hi).
    cbn in *. subst. by apply (Hfu i' e').
  - intros i v e [Hin|Hin]%elem_of_app.
    + destruct (Hl i v e Hin) as (r' & q & Hi & He & Hr' & Hv & Hpast).
      destruct (grows_tasks _ _ Hg i _ Hi) as (pi & Hi' & _ & _ & Hd).
      destruct (grows_tasks _ _ Hg v _ Hv) as (pv & Hv' & _ & Hpv & _).
      specialize (Hd r' eq_refl). destruct pi as [| | | | | | | | | | | | | | | | | | | | | | | | |? []|]; try done.
      injection Hd as ->. exists r', pv. split_and!; try done; [by eapply registered_grows|by apply Hpv].
    + apply list_elem_of_singleton in Hin. simplify_eq. by exists r, p.
Qed.

(** A browser's reply is sent: the sender's call, if it still waits, has its answer. *)
Lemma replies_send t r u s :
  Replies s -> tasks s !! t = Some (ISend r u) ->
  let '(ok, s1) := send_reply u (envelope r) s in
  Replies (goto t (IDone r ok) (if ok then log_reply t u (envelope r) s1 else s1)).
Proof.
  intros HR Ht. destruct (send_cases u (envelope r) s) as [->|(p & Hu & Ho & ->)].
  { by eapply replies_goto. }
  assert (u <> t) as Hne by (intros ->; rewrite Ht in Hu; by injection Hu as <-). pose proof HR as (Hp & Hok & Hl).
  set (p' := settle (Got (envelope r)) p). set (s1 := goto u p' s).
  assert (evolves p p') as Hev by (by apply evolves_settle).
  assert (grows s s1) as Hg1 by (by eapply grows_goto).
  change (log_reply t u (envelope r) s1) with
    (mkChannelRegistry (channels s1) (arrival_waiters s1) (heap s1) (tasks s1) (log s1 ++ [(t, u, envelope r)])).
  set (s2 := mkChannelRegistry (channels s1) (arrival_waiters s1) (heap s1)
    (<[t := IDone r true]> (tasks s1)) (log s1 ++ [(t, u, envelope r)])).
  change (Replies s2).
  assert (tasks s1 !! t = Some (ISend r u)) as Ht1 by (unfold s1; by rewrite goto_other).
  assert (grows s s2) as Hg.
  { pose proof (grows_goto t _ (IDone r true) s1 Ht1 ltac:(by repeat split)) as Hg2. split.
    - intros v q Hv. destruct (grows_tasks _ _ Hg1 v q Hv) as (q1 & Hv1 & He1).
      destruct (grows_tasks _ _ Hg2 v q1 Hv1) as (q2 & Hv2 & He2). exists q2. split; [exact Hv2|by etrans].
    - apply (grows_heap _ _ Hg1).
    - intros x Hx. cbn. apply elem_of_app. by left. }
  assert (tasks s2 !! u = Some p') as Hu2 by (cbn; by rewrite lookup_insert_ne, lookup_insert_eq by done).
  assert (forall v q, v <> t -> v <> u -> tasks s2 !! v = Some q -> tasks s !! v = Some q) as Hothers.
  { intros v q Hvt Hvu Hv. cbn in Hv. by rewrite !lookup_insert_ne in Hv by done. }
  assert ((t, u, envelope r) ∈ log s2) as Hlog by (cbn; set_solver).
  split_and!.
  - intros c ch id v Hc Hv. eapply registered_grows; [exact Hg|]. by eapply Hp.
  - intros v q Hv. destruct (decide (v = t)) as [->|Hvt].
    { cbn in Hv. rewrite lookup_insert_eq in Hv. injection Hv as <-. intros _. by exists u. }
    destruct (decide (v = u)) as [->|Hvu].
    { rewrite Hu2 in Hv. injection Hv as <-. apply task_ok_settle; [done| |].
      - eapply task_ok_grows; [exact Hg|]. by apply Hok.
      - intros e [= <-]. left. by exists t. }
    eapply task_ok_grows; [exact Hg|]. apply Hok. by apply Hothers.
  - assert (forall i u' e, (i, u', e) ∈ log s -> i <> t /\ u' <> u) as Hfresh.
    { intros i u' e Hin. destruct Hl as (_ & _ & Hl). destruct (Hl i u' e Hin) as (r' & q & Hi & _ & _ & Hq & Hpast).
      split; [intros ->; congruence|]. intros ->. assert (q = p) as -> by congruence. by destruct p as [| | | | | |? ? []|? ? []| | | | | | | | | | | | | | | | | | |]. }
    eapply (log_ok_extend s s2 t u r p'); try done.
    + cbn. by rewrite lookup_insert_eq.
    + by destruct p.
    + eapply registered_grows; [exact Hg|]. exact (Hok t _ Ht).
    + intros u' e Hin. by destruct (Hfresh _ _ _ Hin).
    + intros i e Hin. by destruct (Hfresh _ _ _ Hin).
Qed.

Lemma replies_receiver c s : Replies s -> Replies (on_channel c drop_receiver s).
Proof. intros HR. apply replies_channel; [done|]. intros ch _. by split; [|left]. Qed.

(** ** The steps *)

Lemma start_ok s t sv c : keyed s c (target sv) -> evolves (AFind sv) (start sv c) /\ task_ok s t (start sv c).
Proof. intros Hk. unfold start. destruct (call sv); repeat split; done. Qed.

Lemma sent_ok s t sv c slot o :
  keyed s c (target sv) -> (forall e, slot = Got e -> answered_by s t e) ->
  evolves (RSend sv c slot) (sent sv c slot o) /\ task_ok s t (sent sv c slot o).
Proof. intros Hk Ha. unfold sent. destruct (call sv), o; repeat split; done. Qed.

(** A step from a place of the call that holds no reply yet. *)
Lemma evolves_early p p' :
  (forall sv, service_of p = Some sv -> service_of p' = Some sv) -> past p = false ->
  delivered p = None -> evolves p p'.
Proof. intros ? E1 E2. split_and!; [done|by rewrite E1|by rewrite E2]. Qed.

Lemma frame_key payload ch ch' :
  send_frame payload ch = Some (Ok ch') -> key ch' = key ch /\ pending_replies ch' = pending_replies ch.
Proof. intros ->%same_frames_key. done. Qed.

Lemma replies_frame c payload ch ch' s :
  Replies s -> heap s !! c = Some ch -> send_frame payload ch = Some (Ok ch') ->
  Replies (on_channel c (fun _ => ch') s) /\ grows s (on_channel c (fun _ => ch') s).
Proof.
  intros HR Hc [Hk Hp]%frame_key. split.
  - apply replies_channel; [done|]. intros ch2 Hc2. simplify_eq. rewrite Hp. auto.
  - apply grows_channel. intros ch2 Hc2. by simplify_eq.
Qed.

Lemma routed_keyed s k c : Routes s -> channels s !! k = Some c -> keyed s c k.
Proof. intros HR Hk. destruct (routes_open _ HR k c Hk) as (ch & ? & ? & _). by exists ch. Qed.

Lemma replies_run_call t p s s' :
  Routes s -> Replies s -> tasks s !! t = Some p -> part p = PCall -> run t s = Some s' -> Replies s'.
Proof.
  intros HRt HR Ht Hpart E. run_task E Ht. pose proof (proj1 (proj2 HR) t p Ht) as Hok.
  destruct p; simplify_eq; try done; cbn [task_ok] in Hok.
  - unfold find_channel. destruct (channels s !! target sv) as [c|] eqn:Ek.
    + destruct (start_ok s t sv c); [by eapply routed_keyed|]. by eapply replies_goto.
    + eapply replies_goto; [done|exact Ht|..]; by case_match; repeat split.
  - destruct (channels s !! target sv) as [c|] eqn:Ek; simplify_eq.
    + destruct (start_ok s t sv c); [by eapply routed_keyed|]. by eapply replies_goto.
    + eapply replies_goto; [by eapply replies_same|exact Ht|by repeat split|done].
  - destruct slot; simplify_eq; (eapply replies_goto; [done|exact Ht|by repeat split|done]).
  - eapply replies_goto; [|by rewrite sweep_tasks|by repeat split|done].
    eapply replies_same; [done|apply sweep_tasks|..]; unfold sweep; by repeat case_match.
  - unfold find_channel. destruct (channels s !! target sv) as [c|] eqn:Ek.
    + destruct (start_ok s t sv c); [by eapply routed_keyed|]. by eapply replies_goto.
    + eapply replies_goto; [done|exact Ht|..]; by repeat split.
  - destruct (call sv) eqn:Ec; simplify_eq; [|by apply replies_await].
    eapply replies_goto; [done|exact Ht|by repeat split|by split].
  - destruct Hok as [Hk Ha]. apply bind_Some in E as (ch & Hc & E). apply bind_Some in E as (r & Hs & E).
    destruct r as [ch'|e]; simplify_eq.
    + destruct (replies_frame _ _ _ _ _ HR Hc Hs) as [HR' Hg].
      destruct (sent_ok _ t sv c slot None (keyed_grows _ _ _ _ Hg Hk)) as [He Hok'];
        [intros e He; by eapply answered_grows, Ha|]. by eapply replies_goto.
    + destruct (sent_ok s t sv c slot (Some e) Hk Ha). by eapply replies_goto.
  - destruct Hok as [Hk Ha]. destruct slot; simplify_eq; (eapply replies_goto; [done|exact Ht|by repeat split|]);
      (split; [done|]); intros e' [= <-]; by apply Ha.
  - destruct Hok as [Hk Ha]. destruct (call sv) eqn:Ec; simplify_eq.
    + eapply replies_goto; [done|exact Ht|by repeat split|done].
    + eapply replies_goto; [by apply replies_release|by apply release_keeps|by repeat split|].
      intros e He. eapply answered_grows; [apply heap_release_key|by apply Ha].
Qed.

Lemma replies_run_open t p s s' :
  Replies s -> tasks s !! t = Some p -> part p = POpen -> run t s = Some s' -> Replies s'.
Proof.
  intros HR Ht Hpart E. run_task E Ht. destruct p; simplify_eq; try done.
  - pose proof (replies_install t k s HR Ht) as HO. destruct (install k s) as [[? ?] ?]. by simplify_eq.
  - destruct previous as [old|]; simplify_eq; (eapply replies_goto; [|exact Ht|by repeat split|done]); [|done].
    apply replies_channel; [done|]. intros ch Hch. unfold try_send_payload. case_match; by split; [|left].
  - destruct (drain_pending previous s) as [ts s1] eqn:Ed. apply drain_snd in Ed as ->. simplify_eq.
    eapply replies_goto; [by apply replies_drain|by rewrite drain_tasks|by repeat split|done].
  - destruct drained as [|u ts]; simplify_eq; [by eapply replies_goto|].
    eapply replies_goto; [by apply replies_notice; [done|left]|by apply send_keeps|by repeat split|done].
  - destruct waiters as [|w ws]; simplify_eq; [by eapply replies_goto|].
    eapply replies_goto; [by apply replies_arrival|by apply wake_keeps|by repeat split|done].
  - apply bind_Some in E as (ch & Hc & E). apply bind_Some in E as (r & Hs & E).
    destruct r as [ch'|e]; simplify_eq; (eapply replies_goto; [|exact Ht|by repeat split|done]); [|done].
    by eapply replies_frame.
  - apply bind_Some in E as (ch & Hc & E). destruct (frames ch); simplify_eq.
    + case_match; simplify_eq. eapply replies_goto; [by apply replies_receiver|exact Ht|by repeat split|done].
    + apply replies_channel; [done|]. intros ch' _. by split; [|left].
Qed.

Lemma replies_run_close t p s s' :
  Replies s -> tasks s !! t = Some p -> part p = PClose -> run t s = Some s' -> Replies s'.
Proof.
  intros HR Ht Hpart E. run_task E Ht. destruct p; simplify_eq; try done.
  - eapply replies_goto; [|by rewrite uninstall_tasks|by repeat split|done].
    eapply replies_same; [done|apply uninstall_tasks|..]; unfold uninstall; by repeat case_match.
  - eapply replies_goto; [|exact Ht|by repeat split|done]. apply replies_channel; [done|].
    intros ch _. by split; [|left].
  - destruct (drain_pending c s) as [ts s1] eqn:Ed. apply drain_snd in Ed as ->. simplify_eq.
    eapply replies_goto; [by apply replies_drain|by rewrite drain_tasks|by repeat split|done].
  - destruct drained as [|u ts]; simplify_eq.
    + eapply replies_goto; [|exact Ht|by repeat split|done].
      apply replies_channel; [done|]. intros ch _. by split; [|left].
    + eapply replies_goto; [by apply replies_notice; [done|right]|by apply send_keeps|by repeat split|done].
Qed.

Lemma replies_run_inbound t p s s' :
  Routes s -> Replies s -> tasks s !! t = Some p -> part p = PInbound -> run t s = Some s' -> Replies s'.
Proof.
  intros HRt HR Ht Hpart E. run_task E Ht. pose proof (proj1 (proj2 HR) t p Ht) as Hok.
  destruct p; simplify_eq; try done; cbn [task_ok] in Hok.
  - eapply replies_goto; [done|exact Ht|..]; unfold find_channel; destruct (channels s !! in_key r) eqn:Ek;
      try (by repeat split); by eapply routed_keyed.
  - apply bind_Some in E as (ch & Hc & E). destruct (pending_replies ch !! in_id r) as [u|] eqn:Eu; simplify_eq.
    + assert (Replies (on_channel c (set_pending (delete (in_id r) (pending_replies ch))) s)) as HR'.
      { apply replies_set_pending; [done|]. intros ch2 id v Hc2 [_ Hv]%lookup_delete_Some. simplify_eq. by left. }
      eapply replies_goto; [done|exact Ht|by repeat split|]. cbn [task_ok].
      destruct Hok as (ch2 & Hc2 & Hk2). simplify_eq. rewrite <- Hk2.
      eapply registered_grows; [by apply grows_channel|]. by eapply (proj1 HR).
    + by eapply replies_goto.
  - pose proof (replies_send t r t0 s HR Ht) as HS. destruct (send_reply _ _ _) as [ok s1]. by simplify_eq.
Qed.

Lemma replies_drop_all ws s : Replies s -> Replies (foldr drop_arrival s ws).
Proof. intros HR. induction ws; [done|]. cbn [foldr]. by apply replies_arrival. Qed.

Lemma evolves_cancelled p : delivered p = None -> evolves p (Cancelled p).
Proof. intros E. split_and!; [done|done|by rewrite E]. Qed.

Lemma replies_spawn t p s s' : Replies s -> spawn t p s = Some s' -> Replies s'.
Proof.
  unfold spawn. intros HR E. case_match; [|done]. fw_bool. injection E as <-.
  assert (grows s (goto t p s)) as Hg.
  { split; [|eauto|done]. intros u q Hu. exists q. rewrite goto_other; [done|congruence]. }
  apply (replies_intro s); [done..| |].
  - intros c ch id u Hc Hid. eapply registered_grows; [exact Hg|]. by eapply (proj1 HR).
  - intros u q Hu. destruct (decide (u = t)) as [->|]; [right|left].
    + rewrite goto_self in Hu. injection Hu as <-. by destruct p.
    + by rewrite goto_other in Hu.
Qed.

Lemma replies_step (e : Event V) s s' : Routes s -> Replies s -> step e s = Some s' -> Replies s'.
Proof.
  intros HRt HR E. destruct e as [t|t|t|t|t|t p]; cbn [step] in E.
  - unfold run in E. destruct (tasks s !! t) as [p|] eqn:Ht; [|done].
    assert (run t s = Some s') as E' by (unfold run; by rewrite Ht).
    destruct (part p) eqn:Hp; [by eapply replies_run_call|by eapply replies_run_open|
      by eapply replies_run_close|by eapply replies_run_inbound].
  - unfold expire in E. destruct (tasks s !! t) as [[]|] eqn:Ht; cbn in E; try done;
      pose proof (proj1 (proj2 HR) t _ Ht) as Hok; cbn [task_ok] in Hok.
    + case_match; simplify_eq. by eapply replies_goto.
    + destruct Hok as [Hk Ha]. apply bind_Some in E as (ch & _ & E). case_match; simplify_eq.
      destruct (sent_ok s t sv c slot (Some Timeout) Hk Ha). by eapply replies_goto.
    + simplify_eq. eapply replies_goto; [done|exact Ht|by repeat split|]. by destruct Hok.
    + apply bind_Some in E as (ch & _ & E). case_match; simplify_eq. by eapply replies_goto.
  - unfold closed_seen in E. destruct (tasks s !! t) as [[]|] eqn:Ht; cbn in E; try done.
    apply bind_Some in E as (ch & _ & E). case_match; simplify_eq.
    eapply replies_goto; [done|exact Ht|by repeat split|]. by destruct (proj1 (proj2 HR) t _ Ht).
  - unfold hang_up in E. destruct (tasks s !! t) as [[]|] eqn:Ht; cbn in E; try done. simplify_eq.
    eapply replies_goto; [by apply replies_receiver|exact Ht|by repeat split|done].
  - unfold cancel in E. destruct (tasks s !! t) as [p|] eqn:Ht; [|done]. cbn [mbind option_bind] in E.
    destruct p; simplify_eq; try done;
      (eapply replies_goto; [|first [exact Ht|by apply drop_all_keeps]|by apply evolves_cancelled|done]); try done.
    + by apply replies_receiver, replies_drop_all.
    + by apply replies_receiver.
  - by eapply replies_spawn.
Qed.

Lemma replies_reachable s : reachable s -> Replies s.
Proof.
  induction 1 as [|s e s' Hs IH E]; [|eapply replies_step; [by apply routes_reachable|done..]].
  split_and!; [intros c ch id u Hc _; by destruct c|done|]. split_and!; [by apply NoDup_nil..|].
  intros i u e Hin. by apply not_elem_of_nil in Hin.
Qed.

(** C30: a reply reaches at most one call, of its own channel and id, and only once. In every
    reachable state: a post to [/in] is reported delivered exactly when its envelope was handed
    to a call; that call asked on the channel the post named, under the id it named; no post is
    handed over twice and no call gets two; and a call that ends answered carries the envelope of
    such a post, or the notice that its channel was replaced or closed. *)
Theorem replies_correlated s :
  reachable s ->
  NoDup (map (fun x => x.1.1) (log s)) /\ NoDup (map (fun x => x.1.2) (log s)) /\
  (forall i u e, (i, u, e) ∈ log s -> exists r,
     tasks s !! i = Some (IDone r true) /\ envelope r = e /\ registered s u (in_key r) (in_id r)) /\
  (forall i r, tasks s !! i = Some (IDone r true) -> exists u, (i, u, envelope r) ∈ log s) /\
  (forall t sv e, tasks s !! t = Some (RDone sv (Answered e)) -> answered_by s t e).
Proof.
  intros (_ & Hok & Hn1 & Hn2 & Hl)%replies_reachable. split_and!; [done..| | |].
  - intros i u e Hin. destruct (Hl i u e Hin) as (r & p & ? & ? & ? & _). by exists r.
  - intros i r Hi. by apply (Hok i _ Hi).
  - intros t sv e Ht. by apply (Hok t _ Ht).
Qed.

(** ** Streams *)

Lemma senders_stream t c s : tasks s !! t = Some (SStream c) -> senders c s <> 0%nat.
Proof.
  intros Ht E. unfold senders in E. apply nil_length_inv in E.
  assert (c ∈ (filter (fun x => x = c)
    (flat_map (fun tp => handles tp.2) (map_to_list (tasks s)) ++ (map_to_list (channels s)).*2))) as Hin.
  { apply list_elem_of_filter. split; [done|]. apply elem_of_app. left.
    apply list_elem_of_In, in_flat_map. exists (t, SStream c). split; [|by left].
    by apply list_elem_of_In, elem_of_map_to_list. }
  rewrite E in Hin. by apply not_elem_of_nil in Hin.
Qed.

(** The server never ends a stream. The end of the frames is the drop of their last sender,
    but a stream's own guard holds the channel and with it a sender: as long as the browser does
    not hang up, a stream whose queue is drained only waits, evicted and closed or not. *)
Theorem stream_never_ends t c s s' :
  tasks s !! t = Some (SStream c) -> run t s = Some s' -> tasks s' !! t = Some (SStream c).
Proof.
  intros Ht E. run_task E Ht. apply bind_Some in E as (ch & Hc & E).
  destruct (frames ch); simplify_eq; [|done].
  case_match eqn:Es; simplify_eq. apply Nat.eqb_eq in Es. by apply senders_stream in Ht.
Qed.

End Replies.

(** ** Runs *)

Module Runs.

#[export] Instance text_json : Json str := {
  json_message reason := reason; to_string v := v; json_type name := name }.

Abbreviation State := (ChannelRegistry str).

Definition final (es : list (Event str)) : State := default empty_registry (steps es empty_registry).

Lemma run_reachable es :
  match steps es (empty_registry : State) with Some _ => true | None => false end = true ->
  reachable (final es).
Proof.
  intros E. unfold final. destruct (steps es empty_registry) as [s|] eqn:Es; [|done].
  eapply steps_reachable; [apply reach_empty|exact Es].
Qed.

Definition tab : str := lit "Byo3bFBobzE".
Definition command (id : Z) : Service str := mkService (Rpc id) tab (lit "command") true.
Definition answer (id : Z) : Inbound str := mkInbound tab id (mkReplyEnvelope (lit "result") (lit "done")).

(** A stream of [tab] up to its loop, as task [t]; a later one evicts the earlier. *)
Definition connect (t : TaskId) : list (Event str) := Spawn t (SOpen tab) :: replicate 4 (Run t).
Definition reconnect (t : TaskId) : list (Event str) := Spawn t (SOpen tab) :: replicate 6 (Run t).
(** A call up to its wait. *)
Definition ask (t : TaskId) (id : Z) : list (Event str) := Spawn t (AFind (command id)) :: replicate 3 (Run t).
Definition reply (t : TaskId) (id : Z) : list (Event str) := Spawn t (IFind (answer id)) :: replicate 3 (Run t).

Definition answered_run : list (Event str) := connect 0 ++ ask 1 9 ++ reply 2 9 ++ [Run 1; Run 1].

Theorem replies_correlated_witness :
  log (final answered_run) = [(2%nat, 1%nat, envelope (answer 9))] /\
  answered_by (final answered_run) 1 (envelope (answer 9)).
Proof.
  split; [vm_compute; reflexivity|].
  destruct (replies_correlated (final answered_run) ltac:(apply run_reachable; vm_compute; reflexivity))
    as (_ & _ & _ & _ & Ha).
  apply (Ha 1%nat (command 9)). vm_compute. reflexivity.
Defined.

Definition waiting_run : list (Event str) := [Spawn 1 (AFind (command 9)); Run 1; Run 1].

Theorem arrivals_never_missed_witness :
  parked (final waiting_run) 1 tab /\
  ((queued (final waiting_run) 1 tab /\ channels (final waiting_run) !! tab = None) \/
   woken_soon (final waiting_run) 1).
Proof.
  assert (parked (final waiting_run) 1 tab) as Hp by (exists (command 9); split; vm_compute; reflexivity).
  split; [exact Hp|].
  apply (arrivals_never_missed (final waiting_run) 1 tab
    ltac:(apply run_reachable; vm_compute; reflexivity) Hp).
Defined.

Definition late_close : list (Event str) := connect 0 ++ reconnect 1 ++ [HangUp 0].

(** The evicted stream closes late: the route of its successor stays. *)
Theorem routes_are_own_witness :
  channels (final late_close) !! tab = Some 1%nat /\
  channels (default empty_registry (step (Run 0) (final late_close))) !! tab = Some 1%nat.
Proof.
  assert (channels (final late_close) !! tab = Some 1%nat) as Hk by (vm_compute; reflexivity).
  split; [exact Hk|].
  assert (reachable (final late_close)) as Hr by (apply run_reachable; vm_compute; reflexivity).
  assert (exists s', step (Run 0) (final late_close) = Some s') as [s' E] by (eexists; vm_compute; reflexivity).
  destruct (routes_are_own (final late_close) (Run 0) s' tab 1%nat Hr E Hk) as (_ & [H|[H|H]]).
  - rewrite E. exact H.
  - exfalso. destruct H as (t & [= <-] & Ht & _). vm_compute in Ht. discriminate Ht.
  - exfalso. destruct H as (t & [= <-] & Ht & _). vm_compute in Ht. discriminate Ht.
Defined.

(** The evicted stream takes the notice of its eviction, and waits on. *)
Theorem stream_never_ends_witness :
  let s := final (connect 0 ++ reconnect 1 ++ [Run 0]) in
  let s' := default empty_registry (run 0 s) in
  run 0 s = Some s' /\ tasks s' !! 0%nat = Some (SStream 0) /\
  closed <$> heap s' !! 0%nat = Some true /\ run 0 s' = None.
Proof.
  intros s s'. assert (run 0 s = Some s') as E by (vm_compute; reflexivity).
  split_and!; [exact E| |vm_compute; reflexivity|vm_compute; reflexivity].
  apply (stream_never_ends 0%nat 0%nat s s' ltac:(vm_compute; reflexivity) E).
Defined.

(** [release_pending_reply] removes whoever is registered under the id, not the caller. A
    call that timed out and is retried under its id before it has released takes the retry's
    waiter away: the retry ends as disconnected although the stream is open and routed, and the
    browser's answer to it is reported undelivered. *)
Theorem release_removes_successor :
  let s := final (connect 0 ++ ask 1 9 ++ [Expire 1] ++ ask 2 9 ++ [Run 1; Run 2; Run 2] ++
                  Spawn 3 (IFind (answer 9)) :: replicate 2 (Run 3)) in
  tasks s !! 1%nat = Some (RDone (command 9) TimedOut) /\
  tasks s !! 2%nat = Some (RDone (command 9) Disconnected) /\
  tasks s !! 3%nat = Some (IDone (answer 9) false) /\
  channels s !! tab = Some 0%nat /\ closed <$> heap s !! 0%nat = Some false.
Proof. vm_compute. repeat split; reflexivity. Qed.

(** A call dropped by its caller is never released: its waiter stays registered, for as long
    as the channel is open, unless the browser happens to answer it. *)
Theorem cancelled_call_stays_registered :
  let s := final (connect 0 ++ ask 1 9 ++ [Cancel 1]) in
  tasks s !! 1%nat = Some (Cancelled (RSelect (command 9) 0 Waiting)) /\
  run 1 s = None /\
  (ch ← heap s !! 0%nat; pending_replies ch !! 9) = Some 1%nat.
Proof. vm_compute. repeat split; reflexivity. Qed.

End Runs.
