(* ===== verification/BridgeTermination.v ===== *)
(** * BridgeTermination: every call of the backend ends

    A call counts down: each of its own steps lowers its rank, no step of another task raises it,
    and until it is done it always has a step, if need be by its timer. *)

From Stdlib Require Import String.
From S2P Require Import Prelude BridgeToken BridgeChannel BridgeChannelLaws BridgeReplies.

Section Termination.
Context {V : Type} `{J : Json V}.
Abbreviation R := (ChannelRegistry V).
Implicit Types (s : R) (p : Pc V) (t u : TaskId).

(** How many steps of its own a call has left, at most. *)
Definition rank p : nat :=
  match p with
  | AFind _ => 9 | ARegister _ => 8 | AParked _ _ => 7 | ASweep _ => 6 | AAgain _ => 5
  | RRegister _ _ => 4 | RSend _ _ _ => 3 | RSelect _ _ _ => 2 | RRelease _ _ _ => 1
  | _ => 0
  end.

(** The step is one of [t]'s own. *)
Definition acts (e : Event V) t : Prop :=
  match e with
  | Run u | Expire u | ClosedSeen u | HangUp u | Cancel u => u = t
  | Spawn _ _ => False
  end.

(** What others do to a task: they fill the slot it waits on. *)
Definition calm p p' : Prop := part p' = part p /\ rank p' = rank p.

#[local] Instance calm_pre : PreOrder calm.
Proof. split; [by intros p|]. intros p q r [? ?] [? ?]. split; congruence. Qed.

(** Every task but [u] is left calm. *)
Definition others u s s' : Prop :=
  forall t p, t <> u -> tasks s !! t = Some p -> exists p', tasks s' !! t = Some p' /\ calm p p'.

#[local] Instance others_pre u : PreOrder (others u).
Proof.
  split; [by intros s t p _ Ht; exists p|]. intros s1 s2 s3 H12 H23 t p Hne Ht.
  destruct (H12 t p Hne Ht) as (p2 & H2 & C2). destruct (H23 t p2 Hne H2) as (p3 & H3 & C3).
  exists p3. split; [done|by transitivity p2].
Qed.

Lemma others_tasks u s s' : tasks s' = tasks s -> others u s s'.
Proof. intros E t p _ Ht. rewrite <- E in Ht. by exists p. Qed.

Lemma others_own u p s1 s : others u s s1 -> others u s (goto u p s1).
Proof. intros H. etransitivity; [exact H|]. intros t q Hne Ht. exists q. split; [by rewrite goto_other|done]. Qed.

(** A oneshot's send, seen from anyone: the receiver keeps its place. *)
Lemma others_goto u t p p' s : tasks s !! t = Some p -> calm p p' -> others u s (goto t p' s).
Proof.
  intros Ht Hc v q _ Hv. destruct (decide (v = t)) as [->|].
  - exists p'. rewrite goto_self. split; [done|]. by rewrite Hv in Ht; simplify_eq.
  - exists q. split; [by rewrite goto_other|done].
Qed.

Lemma calm_settle a p : calm p (settle a p).
Proof. by destruct p. Qed.

Lemma others_send u t e s : others u s (send_reply t e s).2.
Proof.
  destruct (send_cases t e s) as [->|(p & Hp & _ & ->)]; [done|]. eapply others_goto; [done|apply calm_settle].
Qed.

Lemma others_drop u t s : others u s (drop_reply_sender t s).
Proof.
  destruct (drop_cases t s) as [->|(p & Hp & _ & ->)]; [done|]. eapply others_goto; [done|apply calm_settle].
Qed.

Lemma others_arrival u a t s : others u s (set_arrival a t s).
Proof. destruct (arrival_cases a t s) as [[-> _]|(sv & Hp & ->)]; [done|]. by eapply others_goto. Qed.

Lemma others_channel u c f s : others u s (on_channel c f s).
Proof. by apply others_tasks. Qed.

Lemma others_await u c id t s : others u s (await_reply c id t s).
Proof.
  unfold await_reply. case_match; [|done]. etransitivity; [|apply others_channel].
  case_match; [apply others_drop|done].
Qed.

Lemma others_release u c id s : others u s (release_pending_reply c id s).
Proof.
  unfold release_pending_reply. case_match; [|done]. etransitivity; [|apply others_channel].
  case_match; [apply others_drop|done].
Qed.

#[local] Hint Resolve others_send others_drop others_arrival others_await others_release : core.
#[local] Hint Extern 1 (others _ _ _) => reflexivity : core.
#[local] Hint Extern 2 (others _ _ (on_channel _ _ _)) => by apply others_tasks : core.
#[local] Hint Extern 3 (others _ _ (goto _ _ _)) => apply others_own : core.

Lemma others_run u s s' : run u s = Some s' -> others u s s'.
Proof.
  intros E. destruct (tasks s !! u) as [p|] eqn:Hu; [|by unfold run in E; rewrite Hu in E].
  run_task E Hu. destruct p; simplify_eq; try done;
    repeat match goal with
    | H : mbind _ _ = Some _ |- _ => apply bind_Some in H as (? & ? & ?)
    end; unfold install in *; repeat case_match; simplify_eq; auto.
  all: repeat match goal with
    | H : drain_pending _ _ = (_, _) |- _ => apply drain_snd in H as ->
    | H : send_reply _ _ _ = (_, _) |- _ => apply send_snd in H as ->
    end; apply others_own.
  all: first [ done | apply others_tasks; by rewrite ?sweep_tasks, ?uninstall_tasks, ?drain_tasks
             | apply others_arrival | apply others_send
             | etransitivity; [apply others_send|by apply others_tasks] ].
Qed.

Lemma others_drop_all u ws s : others u s (foldr drop_arrival s ws).
Proof. induction ws as [|w ws IH]; [done|]. cbn [foldr]. etransitivity; [exact IH|apply others_arrival]. Qed.

(** A step of someone else. *)
Lemma others_step (e : Event V) t p s s' :
  step e s = Some s' -> ~ acts e t -> tasks s !! t = Some p -> exists p', tasks s' !! t = Some p' /\ calm p p'.
Proof.
  intros E Ha Ht.
  assert (exists u, t <> u /\ others u s s') as (u & Hu & Ho); [|by apply Ho].
  destruct e as [u|u|u|u|u|u q]; cbn [acts] in Ha; exists u; (split; [try congruence|]); cbn [step] in E.
  - by apply others_run.
  - unfold expire in E. apply bind_Some in E as (q & Hq & E). destruct q; try done; repeat case_match; try done;
      try (apply bind_Some in E as (ch & Hc & E); case_match; [done|]); simplify_eq; auto.
  - unfold closed_seen in E. apply bind_Some in E as (q & Hq & E). destruct q; try done.
    apply bind_Some in E as (ch & Hc & E). case_match; [|done]. simplify_eq. auto.
  - unfold hang_up in E. apply bind_Some in E as (q & Hq & E). destruct q; try done. simplify_eq. auto.
  - unfold cancel in E. apply bind_Some in E as (q & Hq & E). destruct q; try done; simplify_eq; auto.
    apply others_own. etransitivity; [apply others_drop_all|apply others_channel].
  - unfold spawn in E. case_match eqn:Hs; [|done]. fw_bool. intros ->. congruence.
  - unfold spawn in E. case_match eqn:Hs; [|done]. simplify_eq. auto.
Qed.

(** A step of its own takes a call down. *)
Definition lower t p s' : Prop :=
  exists p', tasks s' !! t = Some p' /\ part p' = PCall /\ (rank p' < rank p)%nat.

Lemma lower_goto t p p' s : part p' = PCall -> (rank p' < rank p)%nat -> lower t p (goto t p' s).
Proof. intros. exists p'. by rewrite goto_self. Qed.

Lemma lower_start t p sv c s : (4 < rank p)%nat -> lower t p (goto t (start sv c) s).
Proof. intros. apply lower_goto; unfold start; destruct (call sv); cbn [part rank]; done || lia. Qed.

Lemma lower_sent t sv c slot o s : lower t (RSend sv c slot) (goto t (sent sv c slot o) s).
Proof. apply lower_goto; unfold sent; destruct (call sv), o; cbn [part rank]; done || lia. Qed.

#[local] Hint Resolve lower_start lower_sent : core.
#[local] Hint Extern 3 (lower _ _ (goto _ _ _)) => (apply lower_goto; cbn [part rank]; [done|lia]) : core.
#[local] Hint Extern 1 (_ < _)%nat => (cbn [rank]; lia) : core.

Lemma own_run t p s s' :
  tasks s !! t = Some p -> part p = PCall -> run t s = Some s' -> lower t p s'.
Proof.
  intros Ht Hp E. run_task E Ht. destruct p; simplify_eq; try done;
    repeat match goal with H : mbind _ _ = Some _ |- _ => apply bind_Some in H as (? & ? & ?) end;
    repeat case_match; simplify_eq; auto.
Qed.

Lemma own_step (e : Event V) t p s s' :
  step e s = Some s' -> acts e t -> tasks s !! t = Some p -> part p = PCall -> lower t p s'.
Proof.
  intros E Ha Ht Hp. destruct e as [u|u|u|u|u|]; cbn [acts] in Ha; [subst u..|done]; cbn [step] in E.
  - by eapply own_run.
  - unfold expire in E. rewrite Ht in E. cbn [mbind option_bind] in E. destruct p; try done; repeat case_match; try done;
      try (apply bind_Some in E as (ch & Hc & E); case_match; [done|]); simplify_eq; auto.
  - unfold closed_seen in E. rewrite Ht in E. cbn [mbind option_bind] in E. destruct p; try done.
    apply bind_Some in E as (ch & Hc & E). case_match; [|done]. simplify_eq. auto.
  - unfold hang_up in E. rewrite Ht in E. cbn [mbind option_bind] in E. by destruct p.
  - unfold cancel in E. rewrite Ht in E. cbn [mbind option_bind] in E. destruct p; try done; simplify_eq; auto.
Qed.

(** Until it is done a call can take a step, by itself or by its timer. *)
Lemma own_enabled t p s :
  Replies s -> tasks s !! t = Some p -> part p = PCall -> (0 < rank p)%nat ->
  exists e s', (e = Run t \/ e = Expire t) /\ step e s = Some s'.
Proof.
  intros (_ & Hok & _) Ht Hp Hr. specialize (Hok t p Ht).
  assert (run t s <> None \/ expire t s <> None) as [H|H].
  - unfold run, expire, run_await, run_service. rewrite Ht. cbn [mbind option_bind].
    destruct p; cbn [rank part] in *; try lia; try done; try (by left).
    + destruct slot; [by right|by left..].
    + destruct Hok as [(ch & Hc & _) _]. rewrite Hc. cbn [mbind option_bind].
      unfold send_frame. destruct (negb _); [by left|]. destruct (_ <? _)%nat; [by left|by right].
    + by right.
  - destruct (run t s) as [s'|] eqn:E; [|done]. exists (Run t), s'. auto.
  - destruct (expire t s) as [s'|] eqn:E; [|done]. exists (Expire t), s'. auto.
Qed.

(** C33: every call of the backend ends. In any state the bridge reaches, a call that is not done
    can take a step, by its timer when nobody answers; whatever steps the bridge takes, each of
    the call's own strictly lowers what it has left, from at most nine, and no other task's step
    ever raises it; and a call with nothing left is done, or was dropped by its caller. *)
Theorem calls_end s t p :
  reachable s -> tasks s !! t = Some p -> part p = PCall ->
  (rank p <= 9)%nat /\
  ((0 < rank p)%nat -> exists e s', (e = Run t \/ e = Expire t) /\ step e s = Some s') /\
  (rank p = 0%nat -> (exists sv o, p = RDone sv o) \/ (exists q, p = Cancelled q)) /\
  forall e s', step e s = Some s' ->
    exists p', tasks s' !! t = Some p' /\ part p' = PCall /\ (rank p' <= rank p)%nat /\
      (acts e t -> (rank p' < rank p)%nat).
Proof.
  intros Hs Ht Hp. split_and!.
  - destruct p; cbn [rank]; lia.
  - by apply own_enabled; [apply replies_reachable| |].
  - intros Hr. destruct p; try done; eauto.
  - intros e s' E. assert (acts e t \/ ~ acts e t) as [Ha|Ha].
    { destruct e as [u|u|u|u|u|]; cbn [acts]; [destruct (decide (u = t)); auto..|]. right. by intros []. }
    + destruct (own_step e t p s s' E Ha Ht Hp) as (p' & Ht' & Hp' & Hlt). exists p'. split_and!; [done..|lia|done].
    + destruct (others_step e t p s s' E Ha Ht) as (p' & Ht' & Hpp & Hrr).
      exists p'. split_and!; [done|congruence|lia|done].
Qed.

End Termination.

(** A call that nobody answers: its timer ends it. *)
Lemma calls_end_witness :
  let s := Runs.final (Runs.connect 0 ++ Runs.ask 1 9) in
  exists e s', (e = Run 1%nat \/ e = Expire 1%nat) /\ step (J := Runs.text_json) e s = Some s'.
Proof.
  intros s.
  assert (reachable (J := Runs.text_json) s) as Hs by (apply Runs.run_reachable; vm_compute; reflexivity).
  assert (tasks s !! 1%nat = Some (RSelect (Runs.command 9) 0 Waiting)) as Ht by (vm_compute; reflexivity).
  destruct (calls_end s 1 _ Hs Ht eq_refl) as (_ & He & _). apply He. cbn. lia.
Defined.
