(* ===== verification/BridgeHttp.v ===== *)
(** * BridgeHttp: the endpoints of src/src/bridge/http.rs

    What each endpoint checks before it touches the registry, and the bridge as a whole: requests
    arrive, are refused or become tasks of [BridgeChannel], and the tasks run interleaved. The
    theorem joins the gates with the registry's invariants: an answer never crosses from one
    tenant's browser to a call for another's tab.

    serde_json's parsers, SHA-256, the MAC and the session decoder are parameters; axum's routing
    and extraction of headers and query are not modelled: a request carries what they extract. *)

From Stdlib Require Import String.
From S2P Require Import Prelude FrameAuth BridgeToken BridgeTokenLaws BridgeAuth BridgeAuthLaws.
From S2P Require Import BridgeChannel BridgeChannelLaws BridgeReplies.

Record ClientInboundMessage (V : Type) := mkClientInboundMessage {
  cm_id : Z; message_type : str; cm_payload : V }.
Record PublishRequest (V : Type) := mkPublishRequest {
  pub_channel : str; pub_message : V; pub_wait_ms : Z }.
Record RpcRequest (V : Type) := mkRpcRequest {
  rpc_channel : str; rpc_id : Z; rpc_message : V; rpc_timeout_ms : Z; rpc_wait_ms : Z }.
Arguments cm_id {V}. Arguments message_type {V}. Arguments cm_payload {V}.
Arguments pub_channel {V}. Arguments pub_message {V}. Arguments pub_wait_ms {V}.
Arguments rpc_channel {V}. Arguments rpc_id {V}. Arguments rpc_message {V}.
Arguments rpc_timeout_ms {V}. Arguments rpc_wait_ms {V}.
Arguments mkClientInboundMessage {V}. Arguments mkPublishRequest {V}. Arguments mkRpcRequest {V}.

(** serde_json, as far as requests are read. *)
Class Bodies (V : Type) := {
  parse_inbound : str -> option (ClientInboundMessage V);
  parse_publish : str -> option (PublishRequest V);
  parse_rpc : str -> option (RpcRequest V);
  is_null : V -> bool;
}.

(** The routes; [authorization] and [service_auth] are the two headers, where they are text. *)
Inductive Request :=
| GetSse (authorization : option str) (ch : str)
| PostIn (authorization : option str) (ch body : str)
| PostPublish (service_auth : option str) (body : str)
| PostRpc (service_auth : option str) (body : str)
| Preflight
| GetHealth.

(** An answer at once, or a task of the registry. *)
Inductive Reaction (V : Type) :=
| Respond (status : Z) (body : Body V)
| NoContent
| Health (connected : nat)
| Enter (p : Pc V).
Arguments Respond {V}. Arguments NoContent {V}. Arguments Health {V}. Arguments Enter {V}.

Section Http.
Context {V : Type} `{J : Json V} `{P : Bodies V} `{B : Base64}.
Context (sha256 : bytes -> bytes) (mac : bytes -> bytes -> bytes) (ct_eq : bytes -> bytes -> bool).
Context (decode_sortable : str -> option bytes) (decode_session : bytes -> result string SessionMessage).
Context (secret_phrase internal_apikey : bytes).
Abbreviation R := (ChannelRegistry V).

(** ** The handlers, up to their first operation on the registry *)

Definition resolve (authorization : option str) (ch : str) : result ResolveError str :=
  resolve_client_channel sha256 mac ct_eq decode_sortable decode_session secret_phrase authorization ch.

Definition handle_client_stream (authorization : option str) (ch : str) : Reaction V :=
  match resolve authorization ch with
  | Ok channel_key => Enter (SOpen channel_key)
  | Err _ => Respond 401 BError
  end.

Definition handle_client_inbound (authorization : option str) (ch body : str) : Reaction V :=
  match resolve authorization ch with
  | Err _ => Respond 401 BError
  | Ok channel_key =>
      match parse_inbound body with
      | None => Respond 400 BError
      | Some inbound =>
          if cm_id inbound =? 0 then Respond 200 (BDelivered false)
          else Enter (IFind (mkInbound channel_key (cm_id inbound)
                              (mkReplyEnvelope (message_type inbound) (cm_payload inbound))))
      end
  end.

Definition verify_service_call (service_auth : option str) (now : Z) : bool :=
  match verify_service_auth sha256 ct_eq service_auth internal_apikey now with Ok _ => true | Err _ => false end.

(** How long the handler waits for the tab. *)
Definition channel_wait (wait_ms : Z) : Z := clamp_duration wait_ms 0 MAX_CHANNEL_WAIT.
Definition reply_timeout (timeout_ms : Z) : Z := clamp_duration timeout_ms DEFAULT_RPC_TIMEOUT MAX_RPC_TIMEOUT.

Definition handle_service_publish (service_auth : option str) (now : Z) (body : str) : Reaction V :=
  if negb (verify_service_call service_auth now) then Respond 401 BError
  else match parse_publish body with
  | None => Respond 400 BError
  | Some publish =>
      match validate_service_target (pub_channel publish) (is_null (pub_message publish)) with
      | Err _ => Respond 400 BError
      | Ok channel_key =>
          Enter (AFind (mkService Publish channel_key (pub_message publish)
                          (negb (channel_wait (pub_wait_ms publish) =? 0))))
      end
  end.

Definition handle_service_rpc (service_auth : option str) (now : Z) (body : str) : Reaction V :=
  if negb (verify_service_call service_auth now) then Respond 401 BError
  else match parse_rpc body with
  | None => Respond 400 BError
  | Some rpc =>
      match validate_service_target (rpc_channel rpc) (is_null (rpc_message rpc)) with
      | Err _ => Respond 400 BError
      | Ok channel_key =>
          if rpc_id rpc =? 0 then Respond 400 BError
          else Enter (AFind (mkService (Rpc (rpc_id rpc)) channel_key (rpc_message rpc)
                               (negb (channel_wait (rpc_wait_ms rpc) =? 0))))
      end
  end.

Definition connected_channel_count (s : R) : nat := size (channels s).

Definition handle (now : Z) (request : Request) (s : R) : Reaction V :=
  match request with
  | GetSse authorization ch => handle_client_stream authorization ch
  | PostIn authorization ch body => handle_client_inbound authorization ch body
  | PostPublish service_auth body => handle_service_publish service_auth now body
  | PostRpc service_auth body => handle_service_rpc service_auth now body
  | Preflight => NoContent
  | GetHealth => Health (connected_channel_count s)
  end.

(** ** The bridge: requests arrive, tasks run

    [seen] remembers, for each task, the request it serves and the clock it was checked at. *)
Record Bridge := mkBridge { registry : R; seen : gmap TaskId (Z * Request) }.

Inductive BridgeEvent :=
| Arrive (t : TaskId) (now : Z) (request : Request)
| Inside (e : Event V).

Definition bridge_step (e : BridgeEvent) (b : Bridge) : option Bridge :=
  match e with
  | Arrive t now request =>
      match handle now request (registry b) with
      | Enter p =>
          s' ← spawn t p (registry b);
          Some (mkBridge s' (<[t := (now, request)]> (seen b)))
      | _ => Some b
      end
  | Inside (Spawn _ _) => None
  | Inside e => s' ← step e (registry b); Some (mkBridge s' (seen b))
  end.

Inductive bridge_reachable : Bridge -> Prop :=
| bridge_empty : bridge_reachable (mkBridge empty_registry ∅)
| bridge_next b e b' : bridge_reachable b -> bridge_step e b = Some b' -> bridge_reachable b'.

(** ** What a task was started for *)

Fixpoint origin (p : Pc V) : option (Service V + Inbound V) :=
  match p with
  | AFind sv | ARegister sv | AParked sv _ | ASweep sv | AAgain sv | RRegister sv _ | RSend sv _ _
  | RSelect sv _ _ | RRelease sv _ _ | RDone sv _ => Some (inl sv)
  | IFind r | IDeliver r _ | ISend r _ | IDone r _ => Some (inr r)
  | Cancelled p => origin p
  | _ => None
  end.

(** No task has an origin that it did not have. *)
Definition origins (s s' : R) : Prop :=
  forall i p', tasks s' !! i = Some p' -> origin p' <> None ->
    exists p, tasks s !! i = Some p /\ origin p = origin p'.

#[local] Instance origins_pre : PreOrder origins.
Proof.
  split; [intros s i p' ? _; by exists p'|].
  intros s1 s2 s3 H12 H23 i p3 H3 Ho. destruct (H23 i p3 H3 Ho) as (p2 & H2 & E2).
  rewrite <- E2 in Ho. destruct (H12 i p2 H2 Ho) as (p1 & H1 & E1). exists p1. split; [done|congruence].
Qed.

Lemma origins_tasks s s' : tasks s' = tasks s -> origins s s'.
Proof. intros E i p' Hi _. rewrite E in Hi. by exists p'. Qed.

(** A task that moves on within its handler, or into its close. *)
Lemma origins_goto t p p' s :
  tasks s !! t = Some p -> origin p' = origin p \/ origin p' = None -> origins s (goto t p' s).
Proof.
  intros Ht Ho i q Hi Hq. destruct (decide (i = t)) as [->|].
  - rewrite goto_self in Hi. injection Hi as <-. exists p. destruct Ho; [done|congruence].
  - rewrite goto_other in Hi by done. by exists q.
Qed.

Lemma origins_move t p p' s1 s :
  origins s s1 -> tasks s1 !! t = Some p -> origin p' = origin p \/ origin p' = None -> origins s (goto t p' s1).
Proof. intros. transitivity s1; [done|]. by eapply origins_goto. Qed.

Lemma origin_settle a p : origin (settle a p) = origin p.
Proof. by destruct p. Qed.

Lemma origins_send t e s : origins s (send_reply t e s).2.
Proof.
  destruct (send_cases t e s) as [->|(p & Hp & _ & ->)]; [done|].
  eapply origins_goto; [done|]. left. apply origin_settle.
Qed.

Lemma origins_drop t s : origins s (drop_reply_sender t s).
Proof.
  destruct (drop_cases t s) as [->|(p & Hp & _ & ->)]; [done|].
  eapply origins_goto; [done|]. left. apply origin_settle.
Qed.

Lemma origins_arrival a t s : origins s (set_arrival a t s).
Proof. destruct (arrival_cases a t s) as [[-> _]|(sv & Hp & ->)]; [done|]. eapply origins_goto; [done|]. by left. Qed.

Lemma origins_channel c f s : origins s (on_channel c f s).
Proof. by apply origins_tasks. Qed.

Lemma origins_await c id t s : origins s (await_reply c id t s).
Proof.
  unfold await_reply. case_match; [|done]. etransitivity; [|apply origins_channel].
  case_match; [apply origins_drop|done].
Qed.

Lemma origins_release c id s : origins s (release_pending_reply c id s).
Proof.
  unfold release_pending_reply. case_match; [|done]. etransitivity; [|apply origins_channel].
  case_match; [apply origins_drop|done].
Qed.

Lemma origin_start sv c : origin (start sv c) = Some (inl sv).
Proof. unfold start. by destruct (call sv). Qed.

Lemma origin_sent sv c slot o : origin (sent sv c slot o) = Some (inl sv).
Proof. unfold sent. by destruct (call sv), o. Qed.

Lemma origins_run_call t p s s' :
  tasks s !! t = Some p -> part p = PCall -> run t s = Some s' -> origins s s'.
Proof.
  intros Ht Hpart E. run_task E Ht. destruct p; simplify_eq; try done.
  - eapply origins_goto; [done|]. left. repeat case_match; by rewrite ?origin_start.
  - case_match; simplify_eq.
    + eapply origins_goto; [done|]. left. apply origin_start.
    + eapply origins_move; [by apply origins_tasks|done|by left].
  - case_match; simplify_eq; (eapply origins_goto; [done|by left]).
  - eapply origins_move; [by apply origins_tasks, sweep_tasks|by rewrite sweep_tasks|by left].
  - eapply origins_goto; [done|]. left. repeat case_match; by rewrite ?origin_start.
  - case_match; simplify_eq; [by eapply origins_goto; [|left]|].
    eapply origins_move; [apply origins_await|by apply await_keeps|by left].
  - apply bind_Some in E as (ch & Hc & E). apply bind_Some in E as (r & Hs & E).
    destruct r; simplify_eq; (eapply origins_move; [|done|left; apply origin_sent]);
      [apply origins_channel|done].
  - case_match; simplify_eq; (eapply origins_goto; [done|by left]).
  - case_match; simplify_eq; (eapply origins_move; [|by apply release_keeps || done|by left]);
      [done|apply origins_release].
Qed.

Lemma origins_run_open t p s s' :
  tasks s !! t = Some p -> part p = POpen -> run t s = Some s' -> origins s s'.
Proof.
  intros Ht Hpart E. run_task E Ht. destruct p; simplify_eq; try done.
  - unfold install in E. simplify_eq. eapply origins_move; [by apply origins_tasks|done|by left].
  - destruct previous; simplify_eq; (eapply origins_move; [|done|by left]); [apply origins_channel|done].
  - destruct (drain_pending previous s) as [ts s1] eqn:Ed. apply drain_snd in Ed as ->. simplify_eq.
    eapply origins_move; [by apply origins_tasks, drain_tasks|by rewrite drain_tasks|by left].
  - destruct drained as [|u ts]; simplify_eq;
      (eapply origins_move; [|by apply send_keeps || done|by left]); [done|apply origins_send].
  - destruct waiters as [|w ws]; simplify_eq;
      (eapply origins_move; [|by apply wake_keeps || done|by left]); [done|apply origins_arrival].
  - apply bind_Some in E as (ch & Hc & E). apply bind_Some in E as (r & Hs & E).
    destruct r; simplify_eq; (eapply origins_move; [|done|by left]); [apply origins_channel|done].
  - apply bind_Some in E as (ch & Hc & E). destruct (frames ch); simplify_eq; [|apply origins_channel].
    case_match; simplify_eq. eapply origins_move; [apply origins_channel|done|by left].
Qed.

Lemma origins_run_close t p s s' :
  tasks s !! t = Some p -> part p = PClose -> run t s = Some s' -> origins s s'.
Proof.
  intros Ht Hpart E. run_task E Ht. destruct p; simplify_eq; try done.
  - eapply origins_move; [by apply origins_tasks, uninstall_tasks|by rewrite uninstall_tasks|by left].
  - eapply origins_move; [apply origins_channel|done|by left].
  - destruct (drain_pending c s) as [ts s1] eqn:Ed. apply drain_snd in Ed as ->. simplify_eq.
    eapply origins_move; [by apply origins_tasks, drain_tasks|by rewrite drain_tasks|by left].
  - destruct drained as [|u ts]; simplify_eq;
      (eapply origins_move; [|by apply send_keeps || done|by left]); [apply origins_channel|apply origins_send].
Qed.

Lemma origins_run_inbound t p s s' :
  tasks s !! t = Some p -> part p = PInbound -> run t s = Some s' -> origins s s'.
Proof.
  intros Ht Hpart E. run_task E Ht. destruct p; simplify_eq; try done.
  - eapply origins_goto; [done|]. left. by case_match.
  - apply bind_Some in E as (ch & Hc & E). case_match; simplify_eq;
      (eapply origins_move; [|done|by left]); [apply origins_channel|done].
  - destruct (send_reply t0 (envelope r) s) as [ok s1] eqn:Es. apply send_snd in Es as ->. simplify_eq.
    eapply origins_move; [|by destruct ok; apply send_keeps|by left].
    etransitivity; [apply origins_send|]. by destruct ok; apply origins_tasks.
Qed.

Lemma origins_drop_all ws s : origins s (foldr drop_arrival s ws).
Proof. induction ws as [|w ws IH]; [done|]. cbn [foldr]. etransitivity; [exact IH|apply origins_arrival]. Qed.

Lemma origins_step (e : Event V) s s' :
  step e s = Some s' -> (forall t p, e <> Spawn t p) -> origins s s'.
Proof.
  intros E Hns. destruct e as [t|t|t|t|t|]; cbn [step] in E; [| | | | |by destruct (Hns t p)].
  - unfold run in E. destruct (tasks s !! t) as [p|] eqn:Ht; [|done].
    assert (run t s = Some s') as E' by (unfold run; by rewrite Ht).
    destruct (part p) eqn:Hp; eauto using origins_run_call, origins_run_open, origins_run_close, origins_run_inbound.
  - unfold expire in E. apply bind_Some in E as (p & Ht & E). destruct p; try done; repeat case_match; try done;
      try (apply bind_Some in E as (ch & Hc & E); case_match; [done|]); simplify_eq;
      (eapply origins_goto; [done|]); rewrite ?origin_sent; auto.
  - unfold closed_seen in E. apply bind_Some in E as (p & Ht & E). destruct p; try done.
    apply bind_Some in E as (ch & Hc & E). case_match; [|done]. simplify_eq. eapply origins_goto; [done|by left].
  - unfold hang_up in E. apply bind_Some in E as (p & Ht & E). destruct p; try done. simplify_eq.
    eapply origins_move; [apply origins_channel|done|by left].
  - unfold cancel in E. apply bind_Some in E as (p & Ht & E). destruct p; try done; simplify_eq;
      try (eapply origins_goto; [done|by left]).
    + eapply (origins_move t (SEvictFail c previous waiters)); [|by apply drop_all_keeps|by left].
      etransitivity; [apply origins_drop_all|apply origins_channel].
    + eapply origins_move; [apply origins_channel|done|by left].
Qed.

(** ** The bridge's invariant *)

(** The request that [t] serves made it what [p] says. *)
Definition asked (b : Bridge) (t : TaskId) (p : Pc V) : Prop :=
  exists now request s0 p0,
    seen b !! t = Some (now, request) /\ handle now request s0 = Enter p0 /\ origin p0 = origin p.

Definition Asked (b : Bridge) : Prop :=
  reachable (registry b) /\
  forall t p, tasks (registry b) !! t = Some p -> origin p <> None -> asked b t p.

Lemma asked_arrive t now request b b' :
  Asked b -> bridge_step (Arrive t now request) b = Some b' -> Asked b'.
Proof.
  intros [Hr Ha] E. cbn [bridge_step] in E. destruct (handle now request (registry b)) eqn:Eh; simplify_eq;
    try (by split). apply bind_Some in E as (s' & Es & [= <-]). split; cbn [registry seen].
  - apply (reach_step (registry b) (Spawn t p)); [done|exact Es].
  - unfold spawn in Es. case_match eqn:Hs; [|done]. fw_bool. injection Es as <-. intros i q Hi Ho.
    destruct (decide (i = t)) as [->|].
    + rewrite goto_self in Hi. injection Hi as <-. exists now, request, (registry b), p.
      cbn [seen]. by rewrite lookup_insert_eq.
    + rewrite goto_other in Hi by done. destruct (Ha i q Hi Ho) as (? & ? & ? & ? & Hseen & ?).
      do 4 eexists. cbn [seen]. rewrite lookup_insert_ne by done. eauto.
Qed.

Lemma asked_inside e b b' :
  Asked b -> bridge_step (Inside e) b = Some b' -> Asked b'.
Proof.
  intros [Hr Ha] E.
  assert (exists s', step e (registry b) = Some s' /\ (forall t p, e <> Spawn t p) /\ b' = mkBridge s' (seen b))
    as (s' & Es & Hns & ->).
  { destruct e; cbn [bridge_step] in E; try done; apply bind_Some in E as (s' & Es & [= <-]); by exists s'. }
  split; cbn [registry].
  - by eapply reach_step.
  - intros i p' Hi Ho. destruct (origins_step _ _ _ Es Hns i p' Hi Ho) as (p & Hp & Eo).
    rewrite <- Eo in Ho. destruct (Ha i p Hp Ho) as (? & ? & ? & ? & ? & ? & ?).
    do 4 eexists. split_and!; [done..|congruence].
Qed.

Lemma asked_reachable b : bridge_reachable b -> Asked b.
Proof.
  induction 1 as [|b [t now request|e] b' Hb IH E].
  - split; [apply reach_empty|]. intros t p Ht. done.
  - by eapply asked_arrive.
  - by eapply asked_inside.
Qed.

Lemma verified header now :
  verify_service_call header now = true -> verify_service_auth sha256 ct_eq header internal_apikey now = Ok tt.
Proof. unfold verify_service_call. by destruct (verify_service_auth _ _ _ _ _) as [[]|]. Qed.

Lemma target_ok ch null key :
  validate_service_target ch null = Ok key -> key = trim ch /\ null = false /\ exists d, decode_channel_token key = Ok d.
Proof.
  unfold validate_service_target. intros E. case_bool_decide; [done|].
  apply result_bind_ok in E as (d & Hd & E). destruct null; [done|]. injection E as <-.
  destruct (decode_channel_token (trim ch)); [|done]. eauto.
Qed.

(** What a posted reply and an [/rpc] call were let in with. *)
Lemma handle_inbound now request s0 p0 r :
  handle now request s0 = Enter p0 -> origin p0 = Some (inr r) ->
  exists authorization ch body m,
    request = PostIn authorization ch body /\ resolve authorization ch = Ok (in_key r) /\
    parse_inbound body = Some m /\ cm_id m = in_id r /\
    envelope r = mkReplyEnvelope (message_type m) (cm_payload m).
Proof.
  intros E Ho. destruct request; cbn [handle] in E; try done.
  - unfold handle_client_stream in E. case_match; [|done]. by simplify_eq.
  - unfold handle_client_inbound in E. repeat (case_match; try done). simplify_eq. cbn in Ho. simplify_eq. eauto 10.
  - unfold handle_service_publish in E. repeat (case_match; try done). by simplify_eq.
  - unfold handle_service_rpc in E. repeat (case_match; try done). by simplify_eq.
Qed.

Lemma handle_rpc now request s0 p0 sv id :
  handle now request s0 = Enter p0 -> origin p0 = Some (inl sv) -> call sv = Rpc id ->
  exists header body rpc,
    request = PostRpc header body /\ verify_service_auth sha256 ct_eq header internal_apikey now = Ok tt /\
    parse_rpc body = Some rpc /\ rpc_id rpc = id /\ id <> 0 /\ target sv = trim (rpc_channel rpc).
Proof.
  intros E Ho Hc. destruct request; cbn [handle] in E; try done.
  - unfold handle_client_stream in E. case_match; [|done]. by simplify_eq.
  - unfold handle_client_inbound in E. repeat (case_match; try done). by simplify_eq.
  - unfold handle_service_publish in E. repeat (case_match; try done); simplify_eq; cbn in Ho; by simplify_eq.
  - unfold handle_service_rpc in E.
    destruct (verify_service_call service_auth now) eqn:Ev; [|done]. apply verified in Ev. cbn [negb] in E.
    repeat (case_match; try done). simplify_eq. cbn in Ho. simplify_eq. cbn in Hc. simplify_eq. fw_bool.
    match goal with H : validate_service_target _ _ = _ |- _ => apply target_ok in H as (-> & _) end.
    exists service_auth, body. eauto 10.
Qed.

(** C22: no answer crosses tenants. In every state the bridge reaches, whatever the interleaving
    of its requests: a reply that was handed to a call was posted with a session token that
    authenticates a company and a user; the call is an [/rpc] of a caller that signed with the
    service key; its channel is the canonical token of a tab of exactly that company and user;
    and its command id is the one the post names. *)
Theorem replies_stay_within_tenant `{!Base64Laws} b i u e :
  (forall payload m, decode_session payload = Ok m -> in_i32 (sm_company_id m) /\ in_i32 (sm_id m)) ->
  bridge_reachable b -> (i, u, e) ∈ log (registry b) ->
  exists now_in authorization ch body m session tab now header text rpc,
    seen b !! i = Some (now_in, PostIn authorization ch body) /\ parse_inbound body = Some m /\
    e = mkReplyEnvelope (message_type m) (cm_payload m) /\
    authenticate_user sha256 mac ct_eq decode_sortable decode_session authorization secret_phrase = Ok session /\
    seen b !! u = Some (now, PostRpc header text) /\ parse_rpc text = Some rpc /\
    verify_service_auth sha256 ct_eq header internal_apikey now = Ok tt /\
    encode_channel_token (company_id session) (id session) tab = Some (trim (rpc_channel rpc)) /\
    rpc_id rpc = cm_id m /\ rpc_id rpc <> 0.
Proof.
  intros Hty Hb Hin. destruct (asked_reachable b Hb) as [Hr Ha].
  destruct (replies_reachable _ Hr) as (_ & _ & _ & _ & Hl).
  destruct (Hl i u e Hin) as (r & pu & Hi & He & (p & sv & Hu & Hsv & Hc & Hk) & _).
  assert (origin p = Some (inl sv)) as Hop.
  { clear -Hsv. induction p; cbn in *; try done; simplify_eq; auto. }
  destruct (Ha i _ Hi) as (now_in & request & s0 & p0 & Hseen & Hh & Ho); [done|].
  destruct (Ha u _ Hu) as (now & request' & s0' & p0' & Hseen' & Hh' & Ho'); [by rewrite Hop|].
  destruct (handle_inbound _ _ _ _ _ Hh Ho) as (authorization & ch & body & m & -> & Hres & Hm & Hid & Henv).
  rewrite Hop in Ho'.
  destruct (handle_rpc _ _ _ _ _ _ Hh' Ho' Hc) as (header & text & rpc & -> & Hv & Hrpc & Hrid & Hne & Ht).
  apply (resolve_spec sha256 mac ct_eq decode_sortable decode_session secret_phrase authorization ch) in Hres
    as (_ & _ & session & tab & Hs & _ & _ & Henc); [|done].
  exists now_in, authorization, ch, body, m, session, tab, now, header, text, rpc.
  split_and!; try done; congruence.
Qed.

End Http.

(** ** At concrete requests *)

Module Calls.

Import Runs.

(** Bodies are told apart by nothing: each endpoint reads one sample. *)
#[export] Instance sample_bodies : Bodies str := {
  parse_inbound _ := Some (mkClientInboundMessage 9 (lit "result") (lit "done"));
  parse_publish _ := None;
  parse_rpc _ := Some (mkRpcRequest (lit " Byo3bFBobzE ") 9 (lit "command") 0 0);
  is_null _ := false }.

Definition token_bytes : str -> option bytes := fun _ => Some [].
Definition session_of : bytes -> result string SessionMessage := fun _ => Ok sample_message.
Definition constant_mac : bytes -> bytes -> bytes := fun _ _ => replicate 16 9.

Abbreviation stepB := (bridge_step (B := url_safe) sample_digest constant_mac list_eq token_bytes session_of [5] [1; 2]).

Fixpoint play (es : list (BridgeEvent (V := str))) (b : Bridge) : option Bridge :=
  match es with [] => Some b | e :: r => b' ← stepB e b; play r b' end.

Definition bearer : option str := Some (lit "Bearer 0-RJ9XMH02kF").
Definition signed : option str := Some (make_service_auth_header sample_digest [1; 2] 1700000000).
Definition run_of (t : TaskId) : BridgeEvent (V := str) := Inside (Run t).

(** A tab connects, the backend asks it, it answers. *)
Definition conversation : list (BridgeEvent (V := str)) :=
  [Arrive 0 5 (GetSse bearer tab)] ++ replicate 4 (run_of 0) ++
  [Arrive 1 1700000000 (PostRpc signed [])] ++ replicate 3 (run_of 1) ++
  [Arrive 2 6 (PostIn bearer tab [])] ++ replicate 3 (run_of 2).

Definition after : Bridge := default (mkBridge empty_registry ∅) (play conversation (mkBridge empty_registry ∅)).

Lemma play_reachable es b b' :
  bridge_reachable (B := url_safe) sample_digest constant_mac list_eq token_bytes session_of [5] [1; 2] b ->
  play es b = Some b' ->
  bridge_reachable (B := url_safe) sample_digest constant_mac list_eq token_bytes session_of [5] [1; 2] b'.
Proof.
  revert b. induction es as [|e es IH]; intros b Hb E; cbn [play] in E; [by simplify_eq|].
  apply bind_Some in E as (b1 & E1 & E). by eapply IH; [eapply bridge_next|].
Qed.

Theorem replies_stay_within_tenant_witness :
  log (registry after) = [(2%nat, 1%nat, envelope (answer 9))] /\
  exists session tab',
    authenticate_user sample_digest constant_mac list_eq token_bytes session_of bearer [5] = Ok session /\
    encode_channel_token (B := url_safe) (company_id session) (id session) tab' = Some tab.
Proof.
  assert (log (registry after) = [(2%nat, 1%nat, envelope (answer 9))]) as Hl by (vm_compute; reflexivity).
  split; [exact Hl|].
  assert (bridge_reachable (B := url_safe) sample_digest constant_mac list_eq token_bytes session_of [5] [1; 2] after)
    as Hb.
  { apply (play_reachable conversation (mkBridge empty_registry ∅)); [apply bridge_empty|vm_compute; reflexivity]. }
  destruct (replies_stay_within_tenant (B := url_safe) sample_digest constant_mac list_eq token_bytes session_of
    [5] [1; 2] after 2 1 (envelope (answer 9)))
    as (? & auth & ? & ? & ? & session & tab' & ? & ? & ? & rpc & Hi & _ & _ & Ha & _ & Hrpc & _ & He & _).
  - intros payload m [= <-]. cbn. split; bounds.
  - exact Hb.
  - rewrite Hl. by left.
  - exists session, tab'. vm_compute in Hi. injection Hi as _ <- _ _. injection Hrpc as <-.
    split; [exact Ha|exact He].
Defined.

End Calls.
