(* ===== verification/Config.v ===== *)
(** * Config: the settings of src/src/config.rs

    The TOML tables and their override, the lookup of a setting with the environment over the
    file, and the loader with its validation. A [toml::Table] is its entries; parsing a file is
    the [toml] crate's, and the environment is a function. Which files are read is in
    ConfigFiles.v. Paths and socket addresses are not types of their own (an address is its
    octets and its port). Durations are in the unit their setting is in. *)

From Stdlib Require Import String.
From S2P Require Import Prelude BridgeToken BridgeAuth CreditsBlob Quota LockRegistry Sequence.

(** ** TOML values *)

Inductive Value :=
| VString (s : str)
| VInteger (n : Z)
| VFloat (text : str)         (* as [to_string] renders it *)
| VBoolean (b : bool)
| VDatetime (text : str)
| VArray (items : list Value)
| VTable (entries : list (str * Value)).

Abbreviation Table := (list (str * Value)).

Fixpoint table_get (k : str) (t : Table) : option Value :=
  match t with
  | [] => None
  | (k', v) :: r => if bool_decide (k' = k) then Some v else table_get k r
  end.

(** [Table::insert]: replaces, or adds. *)
Fixpoint table_insert (k : str) (v : Value) (t : Table) : Table :=
  match t with
  | [] => [(k, v)]
  | (k', v') :: r => if bool_decide (k' = k) then (k, v) :: r else (k', v') :: table_insert k v r
  end.

(** What an entry of the override leaves at a key that holds [base]. *)
Fixpoint override_value (v : Value) (base : option Value) : Value :=
  match v, base with
  | VTable entries, Some (VTable t) =>
      VTable ((fix go (es : Table) (t : Table) : Table :=
        match es with
        | [] => t
        | (k, ov) :: r => go r (table_insert k (override_value ov (table_get k t)) t)
        end) entries t)
  | _, _ => v
  end.

Fixpoint merge_config_override (override : Table) (base : Table) : Table :=
  match override with
  | [] => base
  | (k, v) :: r =>
      merge_config_override r (table_insert k (override_value v (table_get k base)) base)
  end.

(** ** Settings *)

Fixpoint split_on (sep : Z) (s : str) : list str :=
  match s with
  | [] => [[]]
  | c :: r =>
      match split_on sep r with
      | part :: parts => if c =? sep then [] :: part :: parts else (c :: part) :: parts
      | [] => [[]]
      end
  end.

Fixpoint value_at (parts : list str) (t : Table) : option Value :=
  match parts with
  | [] => None
  | [k] => table_get k t
  | k :: rest => v ← table_get k t; match v with VTable t' => value_at rest t' | _ => None end
  end.

Definition value_at_path (config : Table) (path : str) : option Value := value_at (split_on 46 path) config.

Definition lower (c : Z) : Z := if (65 <=? c) && (c <=? 90) then c + 32 else c.
(** ["1"], or ["true"] in any case. *)
Definition is_true (value : str) : bool :=
  bool_decide (value = lit "1") || bool_decide (map lower value = lit "true").

(** [u64::from_str]. *)
Definition parse_u64 (s : str) : option Z :=
  match s with
  | [] => None
  | c :: r =>
      let ds := if c =? 43 then r else s in
      match ds with [] => None | _ => n ← parse_digits ds 0; fits 0 U64_MAX n end
  end.

Inductive ConfigError :=
| Missing (toml_path env_key : str)
| NotUnsigned (toml_path env_key : str)
| NotPositive (toml_path env_key : str)
| NotU16 (toml_path env_key : str)
| TooLarge (toml_path env_key : str)
| Refused (message : string).

Record DatabaseConfig := mkDatabaseConfig {
  host : str; port : Z; keyspace : str; db_user : str; password : str }.
Record RequestLogConfig := mkRequestLogConfig {
  rl_enabled : bool; rl_row_ttl : Z; rl_flush_interval : Z; rl_max_batch : Z;
  rl_error_freshness : Z; rl_error_cache_entries : Z; rl_queue_capacity : Z }.
Record ServerMetricsConfig := mkServerMetricsConfig {
  sm_enabled : bool; sample_interval : Z; row_seconds : Z; sm_row_ttl : Z; disk_mount : str;
  network_interface : str; backend_unit : str; fareward_unit : str; scylla_unit : str }.
Record BridgeConfig := mkBridgeConfig { bridge_address : list Z * Z; verbose_logs : bool }.
Record AppConfig := mkAppConfig {
  listen_address : list Z * Z;
  unix_socket_path : option str;
  flush_interval : Z;
  frame_timeout : Z;
  max_connections : Z;
  max_inflight_per_connection : Z;
  shard_count : Z;
  access_cache_seconds : Z;
  secret_phrase : bytes;
  internal_apikey : bytes;
  bridge : BridgeConfig;
  database : DatabaseConfig;
  policy : LimitPolicy;
  locks : LockLimits;
  sequences : SequenceLimits;
  request_log : RequestLogConfig;
  server_metrics : ServerMetricsConfig;
}.

Definition DEFAULT_LISTEN_PORT : Z := 14013.
Definition DEFAULT_FLUSH_SECONDS : Z := 15.
Definition DEFAULT_ACCESS_CACHE_SECONDS : Z := 600.
Definition DEFAULT_FRAME_TIMEOUT_SECONDS : Z := 30.
Definition DEFAULT_MAX_CONNECTIONS : Z := 1024.
Definition DEFAULT_MAX_INFLIGHT_PER_CONNECTION : Z := 64.
Definition DEFAULT_LOCK_MAX_KEYS : Z := 100000.
Definition DEFAULT_LOCK_MAX_TOTAL_WAITERS : Z := 4096.
Definition DEFAULT_LOCK_MAX_LEASE_MS : Z := 60000.
Definition DEFAULT_SEQUENCE_BLOCK_SIZE : Z := 64.
Definition DEFAULT_SEQUENCE_MAX_TRACKED_NAMES : Z := 200000.
Definition DEFAULT_BRIDGE_PORT : Z := 14012.
Definition DEFAULT_REQUEST_LOG_TTL_DAYS : Z := 30.
Definition DEFAULT_REQUEST_LOG_FLUSH_MS : Z := 1000.
Definition DEFAULT_REQUEST_LOG_MAX_BATCH : Z := 128.
Definition DEFAULT_REQUEST_LOG_ERROR_CACHE_SECONDS : Z := 600.
Definition DEFAULT_REQUEST_LOG_ERROR_CACHE_ENTRIES : Z := 20000.
Definition DEFAULT_REQUEST_LOG_QUEUE_CAPACITY : Z := 8192.
Definition DEFAULT_SERVER_METRICS_SAMPLE_SECONDS : Z := 1.
Definition DEFAULT_SERVER_METRICS_ROW_SECONDS : Z := 5.
Definition DEFAULT_SERVER_METRICS_TTL_DAYS : Z := 30.
Definition MINIMUM_SERVER_METRICS_ROW_SECONDS : Z := 3.
Definition DEFAULT_SERVER_METRICS_BACKEND_UNIT : str := lit "genix.service".
Definition DEFAULT_SERVER_METRICS_FAREWARD_UNIT : str := lit "fareward.service".
Definition DEFAULT_SERVER_METRICS_SCYLLA_UNIT : str := lit "scylla-server.service".

(** [bail!] when the test holds. *)
Definition refuse_if (test : bool) (message : string) : result ConfigError unit :=
  if test then Err (Refused message) else Ok tt.

(** Days to the seconds of a ScyllaDB TTL. *)
Definition ttl_seconds (days : Z) : option Z :=
  seconds ← checked_mul_u64 days 86400; if seconds <=? I32_MAX then Some seconds else None.

Definition validate_scope (cpu inference : CreditLimits) : result ConfigError unit :=
  _ ← refuse_if (ten_seconds cpu =? 0) "limits must be positive";
  _ ← refuse_if (hour cpu <? ten_seconds cpu) "limits must be nondecreasing from 10s to 1h";
  _ ← refuse_if (ten_seconds inference =? 0) "limits must be positive";
  refuse_if (hour inference <? ten_seconds inference) "limits must be nondecreasing from 10s to 1h".

Definition validate_policy (p : LimitPolicy) : result ConfigError unit :=
  _ ← validate_scope (lim_cpu (pol_company p)) (lim_inference (pol_company p));
  _ ← validate_scope (lim_cpu (pol_user p)) (lim_inference (pol_user p));
  _ ← refuse_if (I64_MAX <? company_extra_daily_cpu p) "company_extra_credits_24h must fit";
  refuse_if ((user_daily_share_pct p =? 0) || (100 <? user_daily_share_pct p))
    "user_daily_share_pct must be between 1 and 100".

Section Load.
Context (env : str -> option str) (config : Table).

Definition value_text (env_key toml_path : string) : option str :=
  let from_toml :=
    match value_at_path config (lit toml_path) with
    | Some (VString value) => if bool_decide (trim value = []) then None else Some (trim value)
    | Some (VInteger value) => Some (show_i64 value)
    | Some (VFloat text) => Some text
    | Some (VBoolean value) => Some (if value then lit "true" else lit "false")
    | _ => None
    end in
  match env (lit env_key) with
  | Some value => if bool_decide (trim value = []) then from_toml else Some (trim value)
  | None => from_toml
  end.

Definition optional_string := value_text.

Definition optional_bool (env_key toml_path : string) : bool :=
  match value_text env_key toml_path with Some value => is_true value | None => false end.

(** [is_none_or]: on unless it is switched off. *)
Definition enabled (env_key toml_path : string) : bool :=
  match optional_string env_key toml_path with Some value => is_true value | None => true end.

Definition required_string (env_key toml_path : string) : result ConfigError str :=
  ok_or (Missing (lit toml_path) (lit env_key)) (value_text env_key toml_path).

Definition optional_u64 (env_key toml_path : string) : result ConfigError (option Z) :=
  match value_text env_key toml_path with
  | Some value =>
      n ← ok_or (NotUnsigned (lit toml_path) (lit env_key)) (parse_u64 value); Ok (Some n)
  | None => Ok None
  end.

Definition required_u64 (env_key toml_path : string) : result ConfigError Z :=
  o ← optional_u64 env_key toml_path;
  value ← ok_or (Missing (lit toml_path) (lit env_key)) o;
  if value =? 0 then Err (NotPositive (lit toml_path) (lit env_key)) else Ok value.

Definition required_u16 (env_key toml_path : string) : result ConfigError Z :=
  value ← required_u64 env_key toml_path;
  ok_or (NotU16 (lit toml_path) (lit env_key)) (fits 0 U16_MAX value).

(** On a 64-bit host [usize::try_from] never fails. *)
Definition optional_usize (env_key toml_path : string) : result ConfigError (option Z) :=
  o ← optional_u64 env_key toml_path;
  match o with
  | Some value => n ← ok_or (TooLarge (lit toml_path) (lit env_key)) (fits 0 U64_MAX value); Ok (Some n)
  | None => Ok None
  end.

Definition u64_or (env_key toml_path : string) (otherwise : Z) : result ConfigError Z :=
  o ← optional_u64 env_key toml_path; Ok (default otherwise o).
Definition usize_or (env_key toml_path : string) (otherwise : Z) : result ConfigError Z :=
  o ← optional_usize env_key toml_path; Ok (default otherwise o).

Definition rate_limit_value (env_scope toml_scope env_credit toml_credit env_window toml_window : string) :
    result ConfigError Z :=
  required_u64
    ("RATE_LIMIT_" ++ env_scope ++ "_" ++ env_credit ++ "_" ++ env_window)%string
    ("rate_limit." ++ toml_scope ++ "_" ++ toml_credit ++ "_" ++ toml_window)%string.

Definition load_scope_limits (env_scope toml_scope : string) : result ConfigError ScopeLimits :=
  cpu_10s ← rate_limit_value env_scope toml_scope "CPU" "cpu" "10S" "10s";
  cpu_1h ← rate_limit_value env_scope toml_scope "CPU" "cpu" "1H" "1h";
  inference_10s ← rate_limit_value env_scope toml_scope "INFERENCE" "inference" "10S" "10s";
  inference_1h ← rate_limit_value env_scope toml_scope "INFERENCE" "inference" "1H" "1h";
  Ok (mkScopeLimits (mkCreditLimits cpu_10s cpu_1h) (mkCreditLimits inference_10s inference_1h)).

Definition load_policy : result ConfigError LimitPolicy :=
  company ← load_scope_limits "COMPANY" "company";
  user ← load_scope_limits "USER" "user";
  extra ← u64_or "RATE_LIMIT_COMPANY_EXTRA_CREDITS_24H" "rate_limit.company_extra_credits_24h" 0;
  share ← u64_or "RATE_LIMIT_USER_DAILY_SHARE_PCT" "rate_limit.user_daily_share_pct" 100;
  let p := mkLimitPolicy company user extra share in
  _ ← validate_policy p;
  Ok p.

Definition load_locks : result ConfigError LockLimits :=
  keys ← usize_or "LOCK_MAX_KEYS" "lock.max_keys" DEFAULT_LOCK_MAX_KEYS;
  waiters ← u64_or "LOCK_MAX_TOTAL_WAITERS" "lock.max_total_waiters" DEFAULT_LOCK_MAX_TOTAL_WAITERS;
  lease ← u64_or "LOCK_MAX_LEASE_MS" "lock.max_lease_ms" DEFAULT_LOCK_MAX_LEASE_MS;
  _ ← refuse_if ((keys =? 0) || (waiters =? 0) || (lease =? 0)) "lock ceilings must be positive";
  waiters ← ok_or (Refused "lock.max_total_waiters must fit in uint32") (fits 0 U32_MAX waiters);
  Ok (mkLockLimits keys waiters lease).

Definition load_sequences : result ConfigError SequenceLimits :=
  block ← u64_or "SEQUENCE_BLOCK_SIZE" "sequence.block_size" DEFAULT_SEQUENCE_BLOCK_SIZE;
  names ← usize_or "SEQUENCE_MAX_TRACKED_NAMES" "sequence.max_tracked_names"
    DEFAULT_SEQUENCE_MAX_TRACKED_NAMES;
  _ ← refuse_if ((block =? 0) || (names =? 0)) "sequence sizes must be positive";
  block ← ok_or (Refused "sequence.block_size must fit in uint32") (fits 0 U32_MAX block);
  Ok (mkSequenceLimits block names).

Definition load_request_log : result ConfigError RequestLogConfig :=
  ttl_days ← u64_or "REQUEST_LOG_TTL_DAYS" "request_log.ttl_days" DEFAULT_REQUEST_LOG_TTL_DAYS;
  flush_ms ← u64_or "REQUEST_LOG_FLUSH_MS" "request_log.flush_ms" DEFAULT_REQUEST_LOG_FLUSH_MS;
  max_batch ← usize_or "REQUEST_LOG_MAX_BATCH" "request_log.max_batch" DEFAULT_REQUEST_LOG_MAX_BATCH;
  cache_seconds ← u64_or "REQUEST_LOG_ERROR_CACHE_SECONDS" "request_log.error_cache_seconds"
    DEFAULT_REQUEST_LOG_ERROR_CACHE_SECONDS;
  cache_entries ← usize_or "REQUEST_LOG_ERROR_CACHE_ENTRIES" "request_log.error_cache_entries"
    DEFAULT_REQUEST_LOG_ERROR_CACHE_ENTRIES;
  queue ← usize_or "REQUEST_LOG_QUEUE_CAPACITY" "request_log.queue_capacity"
    DEFAULT_REQUEST_LOG_QUEUE_CAPACITY;
  _ ← refuse_if ((ttl_days =? 0) || (flush_ms =? 0) || (max_batch =? 0) || (cache_entries =? 0)
        || (queue =? 0)) "request_log intervals, batch sizes and capacities must be positive";
  ttl ← ok_or (Refused "request_log.ttl_days is too large for a ScyllaDB TTL") (ttl_seconds ttl_days);
  Ok (mkRequestLogConfig (enabled "REQUEST_LOG_ENABLED" "request_log.enabled") ttl flush_ms
        max_batch cache_seconds cache_entries queue).

Definition unit_name (env_key toml_path : string) (otherwise : str) : str :=
  default otherwise (optional_string env_key toml_path).

Definition load_server_metrics : result ConfigError ServerMetricsConfig :=
  sample_seconds ← u64_or "SERVER_METRICS_SAMPLE_SECONDS" "server_metrics.sample_seconds"
    DEFAULT_SERVER_METRICS_SAMPLE_SECONDS;
  row_seconds ← u64_or "SERVER_METRICS_ROW_SECONDS" "server_metrics.row_seconds"
    DEFAULT_SERVER_METRICS_ROW_SECONDS;
  ttl_days ← u64_or "SERVER_METRICS_TTL_DAYS" "server_metrics.ttl_days" DEFAULT_SERVER_METRICS_TTL_DAYS;
  _ ← refuse_if ((sample_seconds =? 0) || (ttl_days =? 0))
        "server_metrics.sample_seconds and ttl_days must be positive";
  _ ← refuse_if ((row_seconds <? MINIMUM_SERVER_METRICS_ROW_SECONDS) || negb (86400 mod row_seconds =? 0))
        "server_metrics.row_seconds must divide 86400 evenly and be at least 3";
  _ ← refuse_if (negb (row_seconds mod sample_seconds =? 0) || (row_seconds <? sample_seconds))
        "server_metrics.sample_seconds must divide server_metrics.row_seconds evenly";
  ttl ← ok_or (Refused "server_metrics.ttl_days is too large for a ScyllaDB TTL") (ttl_seconds ttl_days);
  Ok (mkServerMetricsConfig (enabled "SERVER_METRICS_ENABLED" "server_metrics.enabled")
        sample_seconds (swrap 64 row_seconds) ttl
        (default (lit "/") (optional_string "SERVER_METRICS_DISK_MOUNT" "server_metrics.disk_mount"))
        (default [] (optional_string "SERVER_METRICS_NETWORK_INTERFACE" "server_metrics.network_interface"))
        (unit_name "SERVER_METRICS_BACKEND_UNIT" "server_metrics.backend_unit" DEFAULT_SERVER_METRICS_BACKEND_UNIT)
        (unit_name "SERVER_METRICS_FAREWARD_UNIT" "server_metrics.fareward_unit" DEFAULT_SERVER_METRICS_FAREWARD_UNIT)
        (unit_name "SERVER_METRICS_SCYLLA_UNIT" "server_metrics.scylla_unit" DEFAULT_SERVER_METRICS_SCYLLA_UNIT)).

(** The port the bridge listens on. *)
Definition load_bridge_port : result ConfigError Z :=
  o ← optional_u64 "SSE_BRIDGE_PORT" "sse_bridge.port";
  port ← match o with
         | Some port => ok_or (Refused "sse_bridge.port must be a valid TCP port") (fits 0 U16_MAX port)
         | None => Ok DEFAULT_BRIDGE_PORT
         end;
  _ ← refuse_if (port =? 0) "sse_bridge.port must be greater than zero";
  Ok port.

Definition load_database : result ConfigError DatabaseConfig :=
  host ← required_string "DB_HOST" "db.host";
  port ← required_u16 "DB_PORT" "db.port";
  keyspace ← required_string "DB_NAME" "db.name";
  user ← required_string "DB_USER" "db.user";
  password ← required_string "DB_PASSWORD" "db.password";
  Ok (mkDatabaseConfig host port keyspace user password).

(** [AppConfig::load], from the table on; [available_parallelism] is the host's. *)
Definition load (available_parallelism : Z) : result ConfigError AppConfig :=
  listen_port ← u64_or "FAREWARD_PORT" "fareward.port" DEFAULT_LISTEN_PORT;
  listen_port ← ok_or (Refused "fareward.port must be a port number between 1 and 65535")
    (fits 1 U16_MAX listen_port);
  let listen_octets := if optional_bool "FAREWARD_PUBLIC" "fareward.public" then [0; 0; 0; 0] else [127; 0; 0; 1] in
  flush_seconds ← u64_or "RATE_LIMIT_FLUSH_SECONDS" "rate_limit.flush_seconds" DEFAULT_FLUSH_SECONDS;
  frame_timeout ← u64_or "RATE_LIMIT_FRAME_TIMEOUT_SECONDS" "rate_limit.frame_timeout_seconds"
    DEFAULT_FRAME_TIMEOUT_SECONDS;
  max_connections ← usize_or "RATE_LIMIT_MAX_CONNECTIONS" "rate_limit.max_connections" DEFAULT_MAX_CONNECTIONS;
  configured_shards ← usize_or "RATE_LIMIT_SHARDS" "rate_limit.shards" 0;
  let shard_count := if configured_shards =? 0 then available_parallelism else configured_shards in
  max_inflight ← usize_or "RATE_LIMIT_MAX_INFLIGHT_PER_CONNECTION"
    "rate_limit.max_inflight_per_connection" DEFAULT_MAX_INFLIGHT_PER_CONNECTION;
  access_cache ← u64_or "RATE_LIMIT_ACCESS_CACHE_SECONDS" "rate_limit.access_cache_seconds"
    DEFAULT_ACCESS_CACHE_SECONDS;
  _ ← refuse_if ((flush_seconds =? 0) || (frame_timeout =? 0) || (max_connections =? 0)
        || (max_inflight =? 0) || (access_cache =? 0))
        "rate-limiter durations and connection limits must be positive";
  policy ← load_policy;
  locks ← load_locks;
  sequences ← load_sequences;
  request_log ← load_request_log;
  server_metrics ← load_server_metrics;
  bridge_port ← load_bridge_port;
  phrase ← required_string "SECRET_PHRASE" "secret_phrase";
  apikey ← required_string "INTERNAL_APIKEY" "internal_apikey";
  let bridge := mkBridgeConfig ([0; 0; 0; 0], bridge_port)
    (optional_bool "SSE_BRIDGE_VERBOSE" "sse_bridge.verbose") in
  database ← load_database;
  Ok (mkAppConfig (listen_octets, listen_port)
        (optional_string "FAREWARD_UNIX_SOCKET" "fareward.unix_socket")
        flush_seconds frame_timeout max_connections max_inflight shard_count
        (swrap 64 access_cache) (as_bytes phrase) (as_bytes apikey) bridge database policy locks
        sequences request_log server_metrics).

End Load.
