(* ===== verification/ConfigLaws.v ===== *)
(** * ConfigLaws: what a loaded configuration guarantees

    The override lies over the base path by path, and every configuration the loader accepts is
    within the bounds the components assume of it. *)

From Stdlib Require Import String.
From S2P Require Import Prelude BridgeToken BridgeAuth CreditsBlob Quota LockRegistry Sequence.
From S2P Require Import AdmissionSafe Config.

(** ** Tables *)

(** The keys of a table, and of the tables in it, are distinct: what [toml] builds. *)
Fixpoint unique (v : Value) : Prop :=
  match v with
  | VTable entries =>
      NoDup entries.*1 /\
      (fix go (es : Table) : Prop := match es with [] => True | (_, v) :: r => unique v /\ go r end) entries
  | _ => True
  end.

Lemma unique_get entries k v : unique (VTable entries) -> table_get k entries = Some v -> unique v.
Proof.
  cbn [unique]. intros [_ Hu]. revert Hu. induction entries as [|[k' v'] r IH]; [done|]. intros [Hv Hr] E.
  cbn [table_get] in E. case_bool_decide; [by simplify_eq|by apply IH].
Qed.

Lemma table_get_insert k k' v t :
  table_get k (table_insert k' v t) = if bool_decide (k' = k) then Some v else table_get k t.
Proof.
  induction t as [|[k1 v1] r IH]; [done|]. cbn [table_insert].
  destruct (decide (k1 = k')) as [->|].
  - rewrite bool_decide_true by done. cbn [table_get]. by destruct (bool_decide (k' = k)).
  - rewrite bool_decide_false by done. cbn [table_get]. rewrite IH.
    destruct (decide (k' = k)) as [->|]; [|by rewrite (bool_decide_false (k' = k))].
    by rewrite bool_decide_false, bool_decide_true by done.
Qed.

Lemma table_get_absent k (t : Table) : k ∉ t.*1 -> table_get k t = None.
Proof.
  induction t as [|[k' v] r IH]; intros Hk; [done|]. cbn in Hk |- *. apply not_elem_of_cons in Hk as [? ?].
  rewrite bool_decide_false by congruence. by apply IH.
Qed.

Lemma override_tables es t : override_value (VTable es) (Some (VTable t)) = VTable (merge_config_override es t).
Proof. reflexivity. Qed.

Lemma merge_get over base k :
  NoDup over.*1 ->
  table_get k (merge_config_override over base) =
    match table_get k over with
    | Some v => Some (override_value v (table_get k base))
    | None => table_get k base
    end.
Proof.
  revert base. induction over as [|[k' v] r IH]; intros base Hd; [done|].
  cbn in Hd. apply NoDup_cons in Hd as [Hk Hd]. cbn [merge_config_override table_get]. rewrite IH by done.
  rewrite table_get_insert. case_bool_decide as E; [|done]. subst. by rewrite table_get_absent.
Qed.

(** The override says something about the path: it has a value there, or something that is not
    a table on the way. *)
Fixpoint touches (parts : list str) (t : Table) : bool :=
  match parts with
  | [] => false
  | [k] => bool_decide (is_Some (table_get k t))
  | k :: rest =>
      match table_get k t with
      | None => false
      | Some (VTable t') => touches rest t'
      | Some _ => true
      end
  end.

Lemma value_at_cons k k' rest t :
  value_at (k :: k' :: rest) t =
    match table_get k t with Some (VTable t') => value_at (k' :: rest) t' | _ => None end.
Proof. cbn [value_at]. by destruct (table_get k t) as [[]|]. Qed.

Lemma touches_cons k k' rest t :
  touches (k :: k' :: rest) t =
    match table_get k t with None => false | Some (VTable t') => touches (k' :: rest) t' | Some _ => true end.
Proof. done. Qed.

Lemma untouched parts t : touches parts t = false -> value_at parts t = None.
Proof.
  revert t. induction parts as [|k [|k' rest] IH]; intros t E; [done| |].
  - cbn in *. apply bool_decide_eq_false, eq_None_not_Some in E. done.
  - rewrite touches_cons in E. rewrite value_at_cons. destruct (table_get k t) as [[]|]; try done. by apply IH.
Qed.

(** The value at a path after the merge. *)
Lemma merge_value_at over base parts :
  unique (VTable over) ->
  value_at parts (merge_config_override over base) =
    if touches parts over
    then match value_at parts over with
         | Some (VTable t) =>
             Some (VTable (match value_at parts base with
                           | Some (VTable b) => merge_config_override t b
                           | _ => t end))
         | v => v
         end
    else value_at parts base.
Proof.
  revert over base. induction parts as [|k [|k' rest] IH]; intros over base Hu; [done| |].
  - cbn [value_at touches]. rewrite merge_get by apply Hu. destruct (table_get k over) as [v|]; [|done].
    rewrite bool_decide_true by done. by destruct v, (table_get k base) as [[]|].
  - rewrite !value_at_cons, touches_cons, merge_get by apply Hu.
    destruct (table_get k over) as [v|] eqn:Ek; [|by destruct (table_get k base) as [[]|]].
    pose proof (unique_get _ _ _ Hu Ek) as Huv. destruct v as [| | | | | |t']; try done.
    destruct (table_get k base) as [[| | | | | |b]|] eqn:Eb; [..|rewrite override_tables; by apply IH|];
      cbn [override_value]; destruct (touches (k' :: rest) t') eqn:Et;
      try (by apply untouched); by destruct (value_at (k' :: rest) t') as [[]|].
Qed.

Lemma value_at_touched parts t v : value_at parts t = Some v -> touches parts t = true.
Proof. intros E. destruct (touches parts t) eqn:Et; [done|]. apply untouched in Et. congruence. Qed.

(** The per-host override lies over the base configuration path by path: a setting the
    override does not touch keeps its base value; a value of the override that is not a table (a
    scalar, an array) replaces whatever was there; and a table of the override is merged, by the
    same rule, into a base table at its path, and stands alone where there was none. *)
Theorem merge_config_override_exact over base parts :
  unique (VTable over) ->
  let merged := value_at parts (merge_config_override over base) in
  (touches parts over = false -> merged = value_at parts base) /\
  (forall v, value_at parts over = Some v -> (forall t, v <> VTable t) -> merged = Some v) /\
  (forall t, value_at parts over = Some (VTable t) ->
     merged = Some (VTable (match value_at parts base with
                            | Some (VTable b) => merge_config_override t b
                            | _ => t end))).
Proof.
  intros Hu merged. unfold merged. rewrite merge_value_at by done. split_and!.
  - by intros ->.
  - intros v E Hv. rewrite (value_at_touched _ _ _ E), E. by destruct v; try (destruct (Hv entries)).
  - intros t E. by rewrite (value_at_touched _ _ _ E), E.
Qed.

(** ** Settings within bounds *)

Lemma refuse_if_Ok b m u : refuse_if b m = Ok u -> b = false.
Proof. unfold refuse_if. by destruct b. Qed.

Lemma parse_u64_range s n : parse_u64 s = Some n -> in_u64 n.
Proof.
  unfold parse_u64. intros E. repeat case_match; try done; apply bind_Some in E as (m & _ & E);
    apply fits_Some in E as [-> ?]; widths; lia.
Qed.

Lemma ttl_seconds_Some days s : ttl_seconds days = Some s -> s = days * 86400 /\ s <= I32_MAX.
Proof.
  unfold ttl_seconds, checked_mul_u64. intros E. apply bind_Some in E as (x & Hx & E).
  apply fits_Some in Hx as [-> _]. case_match; [|done]. simplify_eq. fw_bool. done.
Qed.

(** Opens one monadic definition: the value of each setting and the tests that let it pass. *)
Ltac settings E :=
  repeat match type of E with
  | _ = Ok _ => let x := fresh "v" in let Hx := fresh "Hv" in apply result_bind_ok in E as (x & Hx & E)
  end;
  repeat match goal with
  | H : refuse_if _ _ = Ok _ |- _ => apply refuse_if_Ok in H
  | H : ok_or _ _ = Ok _ |- _ => apply ok_or_Ok in H
  | H : fits _ _ _ = Some _ |- _ => apply fits_Some in H as [-> ?]
  | H : ttl_seconds _ = Some _ |- _ => apply ttl_seconds_Some in H as [-> ?]
  end;
  fw_bool; simplify_eq.

Section Loaded.
Context (env : str -> option str) (config : Table).

Lemma optional_u64_range k p n : optional_u64 env config k p = Ok (Some n) -> in_u64 n.
Proof.
  unfold optional_u64. case_match; [|done]. intros E. settings E. by eapply parse_u64_range.
Qed.

Lemma u64_or_range k p d n : u64_or env config k p d = Ok n -> in_u64 d -> in_u64 n.
Proof.
  unfold u64_or. intros E Hd. apply result_bind_ok in E as ([m|] & Ho & E); injection E as <-; [|done].
  by eapply optional_u64_range.
Qed.

Lemma usize_or_range k p d n : usize_or env config k p d = Ok n -> in_u64 d -> in_u64 n.
Proof.
  unfold usize_or, optional_usize. intros E Hd. apply result_bind_ok in E as (o & Ho & E). injection E as <-.
  apply result_bind_ok in Ho as ([m|] & Hm & Ho); [|by injection Ho as <-].
  settings Ho. by eapply optional_u64_range.
Qed.

Lemma required_u64_range k p n : required_u64 env config k p = Ok n -> 1 <= n <= U64_MAX.
Proof.
  unfold required_u64. intros E. apply result_bind_ok in E as (o & Ho & E).
  apply result_bind_ok in E as (m & Hm & E). apply ok_or_Ok in Hm as ->.
  apply optional_u64_range in Ho. case_match; [done|]. fw_bool. simplify_eq. widths. lia.
Qed.

(** What each setting that was read is. *)
Ltac ranges :=
  repeat match goal with
  | H : u64_or _ _ _ _ _ = Ok _ |- _ => apply u64_or_range in H; [|vm_compute; split; discriminate]
  | H : usize_or _ _ _ _ _ = Ok _ |- _ => apply usize_or_range in H; [|vm_compute; split; discriminate]
  | H : required_u64 _ _ _ _ = Ok _ |- _ => apply required_u64_range in H
  end.

(** ** The sections *)

Definition scope_valid (l : ScopeLimits) : Prop :=
  1 <= ten_seconds (lim_cpu l) <= hour (lim_cpu l) /\
  1 <= ten_seconds (lim_inference l) <= hour (lim_inference l).

Definition policy_valid (p : LimitPolicy) : Prop :=
  scope_valid (pol_company p) /\ scope_valid (pol_user p) /\
  company_extra_daily_cpu p <= I64_MAX /\ 1 <= user_daily_share_pct p <= 100.

Lemma refuse_if_pass b m : b = false -> refuse_if b m = Ok tt.
Proof. by intros ->. Qed.

Lemma validate_scope_spec l :
  limits_ok l ->
  validate_scope (lim_cpu l) (lim_inference l) = Ok tt <-> scope_valid l.
Proof.
  intros (H1 & H2 & H3 & H4). unfold validate_scope, scope_valid. split.
  - intros E. settings E. widths. lia.
  - intros (? & ?).
    by rewrite !refuse_if_pass by (rewrite ?Z.eqb_neq, ?Z.ltb_ge; lia).
Qed.

(** [validate_policy] accepts a policy of 64-bit ceilings exactly when every burst ceiling is
    positive and not above its hourly one, the extra pool fits the signed column it is flushed
    to, and the user's share is between 1 and 100 percent. *)
Theorem validate_policy_exact p :
  policy_ok p -> validate_policy p = Ok tt <-> policy_valid p.
Proof.
  intros (Hc & Hu & He & Hs). unfold validate_policy, policy_valid. split.
  - intros E. settings E.
    match goal with H1 : validate_scope _ _ = Ok ?a, H2 : validate_scope _ _ = Ok ?b |- _ =>
      destruct a, b; apply validate_scope_spec in H1, H2; try done end.
    split_and!; try done; widths; lia.
  - intros (Hvc & Hvu & Hve & Hvs). apply validate_scope_spec in Hvc, Hvu; [|done..].
    rewrite Hvc. cbn [mbind result_bind]. rewrite Hvu. cbn [mbind result_bind].
    rewrite (refuse_if_pass (I64_MAX <? _)) by (apply Z.ltb_ge; lia). cbn [mbind result_bind].
    apply refuse_if_pass, orb_false_iff. rewrite Z.eqb_neq, Z.ltb_ge. lia.
Qed.

Lemma load_scope_limits_ok se st l : load_scope_limits env config se st = Ok l -> limits_ok l.
Proof. unfold load_scope_limits, rate_limit_value. intros E. settings E. ranges. unfold limits_ok, in_u64; cbn; widths; lia. Qed.

Lemma load_policy_ok p : load_policy env config = Ok p -> policy_ok p /\ policy_valid p.
Proof.
  unfold load_policy. intros E. settings E. ranges.
  repeat match goal with H : load_scope_limits _ _ _ _ = _ |- _ => apply load_scope_limits_ok in H end.
  assert (policy_ok (mkLimitPolicy v v0 v1 v2)) as Hp by (split_and!; done).
  split; [done|]. match goal with H : validate_policy _ = Ok ?u |- _ => destruct u end.
  by apply validate_policy_exact.
Qed.

Definition locks_valid (l : LockLimits) : Prop :=
  1 <= max_keys l <= U64_MAX /\ 1 <= max_total_waiters l <= U32_MAX /\ 1 <= max_lease l <= U64_MAX.

Lemma load_locks_ok l : load_locks env config = Ok l -> locks_valid l.
Proof. unfold load_locks. intros E. settings E. ranges. unfold locks_valid. cbn. widths. lia. Qed.

Definition sequences_valid (l : SequenceLimits) : Prop :=
  1 <= block_size l <= U32_MAX /\ 1 <= max_tracked_names l <= U64_MAX.

Lemma load_sequences_ok l : load_sequences env config = Ok l -> sequences_valid l.
Proof. unfold load_sequences. intros E. settings E. ranges. unfold sequences_valid. cbn. widths. lia. Qed.

Definition request_log_valid (r : RequestLogConfig) : Prop :=
  86400 <= rl_row_ttl r <= I32_MAX /\ 1 <= rl_flush_interval r <= U64_MAX /\
  1 <= rl_max_batch r <= U64_MAX /\ 1 <= rl_error_cache_entries r <= U64_MAX /\
  1 <= rl_queue_capacity r <= U64_MAX.

Lemma load_request_log_ok r : load_request_log env config = Ok r -> request_log_valid r.
Proof. unfold load_request_log. intros E. settings E. ranges. unfold request_log_valid. cbn. widths. lia. Qed.

Definition server_metrics_valid (m : ServerMetricsConfig) : Prop :=
  3 <= row_seconds m <= 86400 /\ (row_seconds m | 86400) /\
  1 <= sample_interval m /\ (sample_interval m | row_seconds m) /\ 86400 <= sm_row_ttl m <= I32_MAX.

Lemma load_server_metrics_ok m : load_server_metrics env config = Ok m -> server_metrics_valid m.
Proof.
  unfold load_server_metrics. intros E. settings E. ranges. unfold server_metrics_valid, MINIMUM_SERVER_METRICS_ROW_SECONDS in *.
  cbn [row_seconds sample_interval sm_row_ttl].
  repeat match goal with H : ?a mod ?b = 0 |- _ => apply Z.mod_divide in H; [|lia] end.
  match goal with H : (?r | 86400) |- _ => pose proof (Z.divide_pos_le r 86400 ltac:(lia) H) end.
  rewrite swrap_i64_small by (widths; lia). split_and!; try done; widths; lia.
Qed.

Lemma load_bridge_port_ok n : load_bridge_port env config = Ok n -> 1 <= n <= U16_MAX.
Proof.
  unfold load_bridge_port. intros E. apply result_bind_ok in E as (o & Ho & E).
  apply result_bind_ok in E as (n' & Hn & E). settings E.
  destruct o as [m|]; [apply ok_or_Ok, fits_Some in Hn as [-> ?]|injection Hn as <-; unfold DEFAULT_BRIDGE_PORT in *];
    widths; lia.
Qed.

(** A configuration the loader accepts is within the bounds the components are proved under:
    the ports are ports, durations and ceilings are positive, the policy is the one
    [validate_policy] passes and satisfies what admission assumes of it, lock waiters and sequence
    blocks fit 32 bits, the TTLs fit a ScyllaDB TTL, and a metrics row divides the day into slots
    that fit its key. *)
Theorem load_valid shards c :
  1 <= shards <= U64_MAX -> load env config shards = Ok c ->
  (1 <= (listen_address c).2 <= U16_MAX /\ 1 <= (bridge_address (bridge c)).2 <= U16_MAX) /\
  (1 <= flush_interval c <= U64_MAX /\ 1 <= frame_timeout c <= U64_MAX /\
   1 <= max_connections c <= U64_MAX /\ 1 <= max_inflight_per_connection c <= U64_MAX /\
   1 <= shard_count c <= U64_MAX) /\
  policy_ok (policy c) /\ policy_valid (policy c) /\ locks_valid (locks c) /\
  sequences_valid (sequences c) /\ request_log_valid (request_log c) /\
  server_metrics_valid (server_metrics c).
Proof.
  intros Hsh E. unfold load in E. settings E. ranges.
  repeat match goal with
  | H : load_policy _ _ = _ |- _ => apply load_policy_ok in H as [? ?]
  | H : load_locks _ _ = _ |- _ => apply load_locks_ok in H
  | H : load_sequences _ _ = _ |- _ => apply load_sequences_ok in H
  | H : load_request_log _ _ = _ |- _ => apply load_request_log_ok in H
  | H : load_server_metrics _ _ = _ |- _ => apply load_server_metrics_ok in H
  | H : load_bridge_port _ _ = _ |- _ => apply load_bridge_port_ok in H
  end.
  cbn [listen_address bridge bridge_address policy locks sequences request_log server_metrics
    flush_interval frame_timeout max_connections max_inflight_per_connection shard_count snd].
  split_and!; try done; try case_match; fw_bool; widths; lia.
Qed.
End Loaded.

(** ** At concrete settings *)

Module Settings.

Definition policy : LimitPolicy :=
  mkLimitPolicy
    (mkScopeLimits (mkCreditLimits 10 100) (mkCreditLimits 5 50))
    (mkScopeLimits (mkCreditLimits 4 40) (mkCreditLimits 2 20)) 1000 50.

Lemma validate_policy_exact_witness :
  policy_ok policy /\ (validate_policy policy = Ok tt <-> policy_valid policy).
Proof.
  assert (policy_ok policy) as Hp.
  { unfold policy_ok, limits_ok; cbn; widths; lia. }
  split; [exact Hp|]. exact (validate_policy_exact policy Hp).
Defined.

(** The ceilings in the file, and the rest of what has no default in the environment. *)
Definition file : Table :=
  [(lit "rate_limit", VTable
     [(lit "company_cpu_10s", VInteger 10); (lit "company_cpu_1h", VInteger 100);
      (lit "company_inference_10s", VInteger 5); (lit "company_inference_1h", VString (lit " 50 "));
      (lit "user_cpu_10s", VInteger 4); (lit "user_cpu_1h", VInteger 40);
      (lit "user_inference_10s", VInteger 2); (lit "user_inference_1h", VInteger 20)]);
   (lit "db", VTable [(lit "host", VString (lit "localhost")); (lit "port", VInteger 9042)])].
Definition environment : list (str * str) :=
  map (fun kv => (lit kv.1, lit kv.2))
    [("SECRET_PHRASE", "phrase"); ("INTERNAL_APIKEY", "key"); ("DB_NAME", "genix");
     ("DB_USER", "user"); ("DB_PASSWORD", "pass")]%string.
Fixpoint env_of (vars : list (str * str)) (k : str) : option str :=
  match vars with
  | [] => None
  | (k', v) :: r => if bool_decide (k' = k) then Some v else env_of r k
  end.

Definition loaded : result ConfigError AppConfig := load (env_of environment) file 8.

Lemma load_valid_witness : exists c, loaded = Ok c /\ policy_ok (Config.policy c) /\ locks_valid (locks c).
Proof.
  destruct loaded as [c|] eqn:E; [|vm_compute in E; discriminate].
  exists c. destruct (load_valid (env_of environment) file 8 c) as (_ & _ & ? & _ & ? & _); [widths; lia|exact E|].
  split; [reflexivity|split; assumption].
Defined.

(** The override moves the database and adds a port for the bridge; the ceilings stay. *)
Definition override : Table :=
  [(lit "db", VTable [(lit "host", VString (lit "10.0.0.2"))]);
   (lit "sse_bridge", VTable [(lit "port", VInteger 9000)])].

Lemma merge_config_override_exact_witness :
  unique (VTable override) /\
  value_at_path (merge_config_override override file) (lit "db.host") = Some (VString (lit "10.0.0.2")) /\
  value_at_path (merge_config_override override file) (lit "db.port") = Some (VInteger 9042).
Proof.
  assert (unique (VTable override)) as Hu.
  { cbn. repeat split; repeat (constructor; try (vm_compute; set_solver)). }
  split; [exact Hu|].
  destruct (merge_config_override_exact override file (split_on 46 (lit "db.host")) Hu) as (_ & Hset & _).
  destruct (merge_config_override_exact override file (split_on 46 (lit "db.port")) Hu) as (Hkept & _).
  split; [apply Hset; [reflexivity|discriminate]|].
  unfold value_at_path. rewrite Hkept; reflexivity.
Defined.

(** Only zero is refused of the access cache's lifetime: 2^63 seconds are accepted, and are
    negative in the signed field. *)
Lemma access_cache_wraps :
  access_cache_seconds <$>
    (match load (env_of ((lit "RATE_LIMIT_ACCESS_CACHE_SECONDS", lit "9223372036854775808") :: environment)) file 8
     with Ok c => Some c | Err _ => None end) = Some I64_MIN.
Proof. vm_compute. reflexivity. Qed.

End Settings.
