(* ===== verification/ConfigFiles.v ===== *)
(** * ConfigFiles: which files the settings come from (src/src/config.rs)

    [load_config] and [read_config_table]: the candidate paths in order, the per-host override
    next to the file that is found, and the failures. The file system is two functions of a
    path; the TOML parser is the [toml] crate's and is a parameter. *)

From Stdlib Require Import String.
From S2P Require Import Prelude BridgeToken BridgeAuth CreditsBlob Quota LockRegistry Sequence.
From S2P Require Import AdmissionSafe Config ConfigLaws.

Definition LOCAL_CONFIG_FILE_NAME : str := lit "config.local.toml".

(** [Path::with_file_name] of a path that names a file: what follows the last slash is replaced. *)
Fixpoint parent_prefix (path : str) : str :=
  match path with
  | [] => []
  | c :: r => if existsb (Z.eqb 47) path then c :: parent_prefix r else []
  end.
Definition with_file_name (path name : str) : str := parent_prefix path ++ name.

Section Files.
Context (env : str -> option str) (is_file : str -> bool).
Context (read_to_string : str -> option str) (from_str : str -> option Value).

Definition read_config_table (path : str) : result ConfigError Table :=
  text ← ok_or (Refused "failed to read config file") (read_to_string path);
  value ← ok_or (Refused "invalid TOML") (from_str text);
  match value with VTable t => Ok t | _ => Err (Refused "must contain a TOML table") end.

Definition candidates : list str :=
  match env (lit "GENIX_CONFIG_FILE") with
  | Some value => if bool_decide (trim value = []) then [] else [value]
  | None => []
  end ++ [lit "../config.toml"; lit "config.toml"].

Fixpoint load_first (paths : list str) : result ConfigError Table :=
  match paths with
  | [] => Ok []
  | path :: rest =>
      if negb (is_file path) then load_first rest
      else
        config ← read_config_table path;
        let local_path := with_file_name path LOCAL_CONFIG_FILE_NAME in
        if is_file local_path then
          override ← read_config_table local_path;
          Ok (merge_config_override override config)
        else Ok config
  end.

Definition load_config : result ConfigError Table := load_first candidates.

(** [AppConfig::load]. *)
Definition load_app (available_parallelism : Z) : result ConfigError AppConfig :=
  config ← load_config; load env config available_parallelism.

(** ** What was read *)

(** The file that counts: the first candidate that is one. *)
Definition chosen (path : str) : Prop :=
  exists before after, candidates = before ++ path :: after /\
    Forall (fun p => is_file p = false) before /\ is_file path = true.

(** The two tables a configuration is made of. *)
Definition read_as (base over : Table) : Prop :=
  (Forall (fun p => is_file p = false) candidates /\ base = [] /\ over = []) \/
  exists path, chosen path /\ read_config_table path = Ok base /\
    if is_file (with_file_name path LOCAL_CONFIG_FILE_NAME)
    then read_config_table (with_file_name path LOCAL_CONFIG_FILE_NAME) = Ok over else over = [].

Definition unreadable : Prop :=
  exists path e, chosen path /\
    (read_config_table path = Err e \/
     (is_file (with_file_name path LOCAL_CONFIG_FILE_NAME) = true /\
      read_config_table (with_file_name path LOCAL_CONFIG_FILE_NAME) = Err e)).

Lemma load_first_spec before paths :
  candidates = before ++ paths -> Forall (fun p => is_file p = false) before ->
  match load_first paths with
  | Ok config => exists base over, read_as base over /\ config = merge_config_override over base
  | Err _ => unreadable
  end.
Proof.
  revert before. induction paths as [|path rest IH]; intros before E Hb; cbn [load_first].
  { exists [], []. split; [left|done]. by rewrite E, app_nil_r. }
  destruct (is_file path) eqn:Ef; cbn [negb].
  2: { apply (IH (before ++ [path])); [by rewrite <- app_assoc|]. apply Forall_app. by split; [|constructor]. }
  assert (chosen path) as Hc by (by exists before, rest).
  unfold mbind, result_bind. destruct (read_config_table path) as [base|e] eqn:Er; [|exists path, e; auto].
  destruct (is_file (with_file_name path LOCAL_CONFIG_FILE_NAME)) eqn:El.
  - destruct (read_config_table (with_file_name path LOCAL_CONFIG_FILE_NAME)) as [over|e] eqn:Eo;
      [|exists path, e; auto].
    exists base, over. split; [|done]. right. exists path. by rewrite El.
  - exists base, []. split; [|done]. right. exists path. by rewrite El.
Qed.

Lemma read_unique path t :
  (forall text v, from_str text = Some v -> unique v) -> read_config_table path = Ok t -> unique (VTable t).
Proof.
  intros Hu. unfold read_config_table, mbind, result_bind, ok_or.
  destruct (read_to_string path) as [text|]; [|done]. destruct (from_str text) as [v|] eqn:Ev; [|done].
  specialize (Hu text v Ev). destruct v; try done. by intros [= <-].
Qed.

(** C35: where every setting comes from. The configuration is the first candidate that is a file,
    with the per-host override next to it; a file that cannot be read or parsed stops the
    start, and never makes way for the next candidate; with no file there is an empty table.
    Then a setting is, in this order: the environment's value when it is not blank, whatever
    the files say; the override's, when the override says anything about its path; the base
    file's. The [toml] crate's tables are maps: no key is there twice. *)
Theorem setting_source :
  (forall text v, from_str text = Some v -> unique v) ->
  match load_config with
  | Ok config => exists base over, read_as base over /\
      forall env_key toml_path,
        value_text env config env_key toml_path =
          match env (lit env_key) with
          | Some value =>
              if bool_decide (trim value = [])
              then value_text (fun _ => None) (if touches (split_on 46 (lit toml_path)) over then over else base)
                     env_key toml_path
              else Some (trim value)
          | None =>
              value_text (fun _ => None) (if touches (split_on 46 (lit toml_path)) over then over else base)
                env_key toml_path
          end
  | Err _ => unreadable
  end.
Proof.
  intros Hu. pose proof (load_first_spec [] candidates eq_refl (Forall_nil_2 _)) as H. unfold load_config.
  destruct (load_first candidates) as [config|e]; [|exact H]. destruct H as (base & over & Hr & ->).
  exists base, over. split; [exact Hr|]. intros env_key toml_path.
  assert (unique (VTable over)) as Ho.
  { destruct Hr as [(_ & _ & ->)|(path & _ & _ & Hl)]; [by split; [constructor|]|].
    destruct (is_file _); [by eapply read_unique|]. subst over. by split; [constructor|]. }
  unfold value_text, value_at_path. rewrite merge_value_at by done.
  destruct (touches (split_on 46 (lit toml_path)) over); [|by repeat case_match].
  by destruct (value_at (split_on 46 (lit toml_path)) over) as [[]|]; repeat case_match.
Qed.

End Files.

(** ** At a concrete host *)

Module Host.

Definition shared : str := lit "[fareward]".
Definition local : str := lit "[local]".

Definition is_file (p : str) : bool :=
  bool_decide (p ∈ [lit "/etc/genix/config.toml"; lit "/etc/genix/config.local.toml"; lit "config.toml"]).
Definition read_to_string (p : str) : option str :=
  if bool_decide (p = lit "/etc/genix/config.toml") then Some shared
  else if bool_decide (p = lit "/etc/genix/config.local.toml") then Some local else None.

Definition base : Table :=
  [(lit "fareward", VTable [(lit "port", VInteger 14013); (lit "unix_socket", VString (lit "/run/f.sock"))]);
   (lit "db", VTable [(lit "host", VString (lit "localhost"))])].
Definition over : Table := [(lit "fareward", VTable [(lit "port", VInteger 9000)])].
Definition from_str (text : str) : option Value :=
  if bool_decide (text = shared) then Some (VTable base)
  else if bool_decide (text = local) then Some (VTable over) else None.

Definition env : str -> option str :=
  Settings.env_of [(lit "GENIX_CONFIG_FILE", lit "/etc/genix/config.toml"); (lit "DB_HOST", lit "10.0.0.2")].

Definition config : result ConfigError Table := load_config env is_file read_to_string from_str.

Lemma parser_unique text v : from_str text = Some v -> unique v.
Proof.
  unfold from_str. case_bool_decide; [|case_bool_decide; [|done]]; intros [= <-]; cbn; split_and!; try done;
    repeat (constructor; try (vm_compute; set_solver)).
Qed.

(** The port from the override, the socket from the base file, the database's host from the
    environment. *)
Lemma setting_source_witness :
  exists c b o, config = Ok c /\ read_as env is_file read_to_string from_str b o /\
    value_text env c "FAREWARD_PORT" "fareward.port" = Some (lit "9000") /\
    value_text env c "FAREWARD_UNIX_SOCKET" "fareward.unix_socket" = Some (lit "/run/f.sock") /\
    value_text env c "DB_HOST" "db.host" = Some (lit "10.0.0.2").
Proof.
  pose proof (setting_source env is_file read_to_string from_str parser_unique) as H.
  fold config in H. destruct config as [c|] eqn:E; [|vm_compute in E; discriminate].
  destruct H as (b & o & Hr & Hv). exists c, b, o.
  assert (c = merge_config_override over base) as -> by (vm_compute in E |- *; congruence).
  split; [reflexivity|]. split; [exact Hr|]. rewrite (Hv "DB_HOST"%string).
  split_and!; vm_compute; reflexivity.
Defined.

(** A file that cannot be read stops the start, though a later candidate could be. *)
Example unreadable_stops :
  load_config env is_file (fun p => if bool_decide (p = lit "config.toml") then Some shared else None) from_str =
  Err (Refused "failed to read config file").
Proof. vm_compute. reflexivity. Qed.

End Host.
