(* ===== verification/Statements.v ===== *)
(** * Statements: what the stores prepare, and what a driver may retry

    [with_session] of src/src/limiter/storage.rs and src/src/sequence/store.rs, [prepare] and
    [connect_session] of src/src/reqlog/writer.rs: the statements in order, their text and
    whether they are marked idempotent. The driver is a parameter: which texts it prepares.
    A statement marked idempotent may be executed again when its answer is lost; the effects
    are those of Storage.v's tables and of the counters. *)

From Stdlib Require Import String.
From S2P Require Import Prelude CreditsBlob TimeFrame Aggregation Storage BridgeToken BridgeAuth Config.

Record PreparedStatement := mkPreparedStatement { cql : str; is_idempotent : bool }.

Section Prepare.
(** [Session::prepare]; [None] is an error of the driver or of the cluster. *)
Variable driver : str -> option unit.

Definition prepare (text : str) (idempotent : bool) (message : string) : result anyhow PreparedStatement :=
  _ ← ok_or (Msg message) (driver text);
  Ok (mkPreparedStatement text idempotent).

Record ScyllaLimiterStore := mkScyllaLimiterStore {
  select_company_range : PreparedStatement;
  upsert_company : PreparedStatement;
  select_user_range : PreparedStatement;
  upsert_user : PreparedStatement;
  select_budget : PreparedStatement;
  upsert_budget : PreparedStatement;
  upsert_budget_usage : PreparedStatement;
  select_user_access : PreparedStatement;
}.

Definition limiter_with_session : result anyhow ScyllaLimiterStore :=
  s1 ← prepare (lit "SELECT time_frame, used_credits FROM credit_usage_company WHERE company_id = ? AND time_frame >= ? AND time_frame <= ?")
         true "failed to prepare credit_usage_company range read";
  s2 ← prepare (lit "INSERT INTO credit_usage_company (company_id, time_frame, used_credits) VALUES (?, ?, ?)")
         true "failed to prepare credit_usage_company upsert";
  s3 ← prepare (lit "SELECT time_frame, used_credits FROM credit_usage_user WHERE company_id = ? AND user_id = ? AND time_frame >= ? AND time_frame <= ?")
         true "failed to prepare credit_usage_user range read";
  s4 ← prepare (lit "INSERT INTO credit_usage_user (company_id, user_id, time_frame, used_credits) VALUES (?, ?, ?, ?)")
         true "failed to prepare credit_usage_user upsert";
  s5 ← prepare (lit "SELECT daily_cpu, daily_inference, budget_month_start_day, monthly_cpu_ceiling, monthly_inference_ceiling, last_set_cpu, last_set_inference, updated, usage_day_period, day_extra_cpu_used, usage_month_start_day, month_extra_cpu_used FROM company_credit_budget WHERE company_id = ?")
         true "failed to prepare company_credit_budget read";
  s6 ← prepare (lit "INSERT INTO company_credit_budget (company_id, daily_cpu, daily_inference, budget_month_start_day, monthly_cpu_ceiling, monthly_inference_ceiling, last_set_cpu, last_set_inference, updated) VALUES (?, ?, ?, ?, ?, ?, ?, ?, ?)")
         true "failed to prepare company_credit_budget upsert";
  s7 ← prepare (lit "INSERT INTO company_credit_budget (company_id, usage_day_period, day_cpu_used, day_inference_used, usage_month_start_day, month_cpu_used, month_inference_used, day_extra_cpu_used, month_extra_cpu_used, usage_updated) VALUES (?, ?, ?, ?, ?, ?, ?, ?, ?, ?)")
         true "failed to prepare company_credit_budget usage upsert";
  s8 ← prepare (lit "SELECT accesos_computed, accesos_sub_computed, status FROM users WHERE company_id = ? AND id = ?")
         true "failed to prepare users access read";
  Ok (mkScyllaLimiterStore s1 s2 s3 s4 s5 s6 s7 s8).

Record ScyllaSequenceStore := mkScyllaSequenceStore {
  bump_counter : PreparedStatement;
  select_counter : PreparedStatement;
}.

Definition sequence_with_session : result anyhow ScyllaSequenceStore :=
  s1 ← prepare (lit "UPDATE sequences SET current_value = current_value + ? WHERE name = ?")
         false "failed to prepare the sequences counter update";
  s2 ← prepare (lit "SELECT current_value FROM sequences WHERE name = ?")
         true "failed to prepare the sequences counter read";
  Ok (mkScyllaSequenceStore s1 s2).

Record RequestLogWriter := mkRequestLogWriter {
  insert_user_log : PreparedStatement;
  insert_request_error : PreparedStatement;
  log_config : RequestLogConfig;
}.

(** The TTL is in the text: [as_secs() as i32], in decimal. *)
Definition reqlog_prepare (config : RequestLogConfig) : result anyhow RequestLogWriter :=
  s1 ← prepare (lit "INSERT INTO user_logs (date, request_id, company_id, user_id, route_id, frame_route_company_agg, elapsed_ms, error_count, error_ids) VALUES (?, ?, ?, ?, ?, ?, ?, ?, ?) USING TTL "
                ++ show_i64 (swrap 32 (rl_row_ttl config)))
         true "failed to prepare the user_logs insert";
  s2 ← prepare (lit "INSERT INTO request_errors (id, code_line, text, updated) VALUES (?, ?, ?, ?)")
         true "failed to prepare the request_errors insert";
  Ok (mkRequestLogWriter s1 s2 config).

(** [connect_session]: the session, then its keyspace. *)
Definition connect_session (build : str -> str -> str -> option unit) (use_keyspace : str -> option unit)
    (config : DatabaseConfig) : result anyhow unit :=
  let endpoint := host config ++ lit ":" ++ show_i64 (port config) in
  _ ← ok_or (Msg "failed to connect to ScyllaDB") (build endpoint (db_user config) (password config));
  ok_or (Msg "failed to use ScyllaDB keyspace") (use_keyspace (keyspace config)).

End Prepare.

(** ** Executing a write *)

Record Db := mkDb { db_tables : Tables; db_counters : gmap bytes Z }.

Inductive Write :=
| WCompany (company t : Z) (credits : bytes)
| WUser (company user t : Z) (credits : bytes)
| WBudget (b : BudgetBind)
| WBudgetUsage (u : UsageBind)
| WCounter (name : bytes) (by_ : Z).

Definition statement_of (ls : ScyllaLimiterStore) (ss : ScyllaSequenceStore) (w : Write) : PreparedStatement :=
  match w with
  | WCompany _ _ _ => upsert_company ls
  | WUser _ _ _ _ => upsert_user ls
  | WBudget _ => upsert_budget ls
  | WBudgetUsage _ => upsert_budget_usage ls
  | WCounter _ _ => bump_counter ss
  end.

(** A counter column adds, modulo 2^64. *)
Definition effect (w : Write) (db : Db) : Db :=
  match w with
  | WCompany c t bs => mkDb (put_company c t bs (db_tables db)) (db_counters db)
  | WUser c u t bs => mkDb (put_user c u t bs (db_tables db)) (db_counters db)
  | WBudget b => mkDb (put_budget (b_company_id b) (with_entitlement b) (db_tables db)) (db_counters db)
  | WBudgetUsage u => mkDb (put_budget (u_company_id u) (with_usage u) (db_tables db)) (db_counters db)
  | WCounter name by_ =>
      mkDb (db_tables db) (<[name := swrap 64 (default 0 (db_counters db !! name) + by_)]> (db_counters db))
  end.

(** An execution that was answered: once, and again only if the statement may be retried. *)
Inductive executed (p : PreparedStatement) (w : Write) (db : Db) : Db -> Prop :=
| executed_once : executed p w db (effect w db)
| executed_again db' : is_idempotent p = true -> executed p w db db' -> executed p w db (effect w db').

(** ** Facts *)

Lemma prepare_Ok driver text idem m p :
  prepare driver text idem m = Ok p <-> driver text = Some tt /\ p = mkPreparedStatement text idem.
Proof.
  unfold prepare, ok_or, mbind, result_bind. destruct (driver text) as [[]|]; split; try done.
  - by intros [= <-].
  - by intros [_ ->].
  - by intros [? _].
Qed.

Lemma put_budget_twice c f ts :
  (forall x, f (f x) = f x) -> put_budget c f (put_budget c f ts) = put_budget c f ts.
Proof. intros Hf. unfold put_budget. cbn. rewrite lookup_insert_eq, insert_insert_eq. cbn. by rewrite Hf. Qed.

Lemma effect_twice w db :
  match w with WCounter _ _ => False | _ => True end -> effect w (effect w db) = effect w db.
Proof.
  destruct w as [c t bs|c u t bs|b|u|name by_]; intros Hw; [| | | |done]; simpl.
  - unfold put_company. simpl. by rewrite insert_insert_eq.
  - unfold put_user. simpl. by rewrite insert_insert_eq.
  - by rewrite put_budget_twice.
  - by rewrite put_budget_twice.
Qed.

Lemma counter_twice name by_ db :
  in_i64 by_ -> by_ <> 0 -> effect (WCounter name by_) (effect (WCounter name by_) db) <> effect (WCounter name by_) db.
Proof.
  intros Hb Hne [= E]. apply (f_equal (fun m => m !! name)) in E. rewrite !lookup_insert_eq in E. simpl in E.
  injection E as E. set (v := swrap 64 _) in E. pose proof (swrap_i64 (default 0 (db_counters db !! name) + by_)) as Hv.
  fold v in Hv. assert (exists q, swrap 64 (v + by_) = v + by_ + q * 2 ^ 64) as [q Hq] by apply swrap_shift.
  rewrite E in Hq. widths. lia.
Qed.

(** What the driver may retry changes nothing the second time. Each store prepares all of
    its statements or none; with them, a write that was answered leaves the database as one
    execution of it does, however often the driver sent it. The counter update is the one
    statement not marked for retries, and rightly: a second execution of it never leaves what
    the first one left, for any amount but zero. *)
Theorem retries_change_nothing driver ls ss w db db' :
  limiter_with_session driver = Ok ls -> sequence_with_session driver = Ok ss ->
  executed (statement_of ls ss w) w db db' ->
  db' = effect w db /\
  (is_idempotent (statement_of ls ss w) = false <->
     exists name by_, w = WCounter name by_ /\
       (in_i64 by_ -> by_ <> 0 -> effect w (effect w db) <> effect w db)).
Proof.
  unfold limiter_with_session, sequence_with_session.
  intros (s1 & [_ ->]%prepare_Ok & (s2 & [_ ->]%prepare_Ok & (s3 & [_ ->]%prepare_Ok & (s4 & [_ ->]%prepare_Ok &
    (s5 & [_ ->]%prepare_Ok & (s6 & [_ ->]%prepare_Ok & (s7 & [_ ->]%prepare_Ok & (s8 & [_ ->]%prepare_Ok &
    [= <-])%result_bind_ok)%result_bind_ok)%result_bind_ok)%result_bind_ok)%result_bind_ok)%result_bind_ok)%result_bind_ok)%result_bind_ok.
  intros (c1 & [_ ->]%prepare_Ok & (c2 & [_ ->]%prepare_Ok & [= <-])%result_bind_ok)%result_bind_ok.
  intros Hx. split.
  - induction Hx as [|db' Hi _ IH]; [done|]. rewrite IH. destruct w; try done; by apply effect_twice.
  - destruct w; simpl; split; try done; try (by intros (? & ? & ? & _)).
    intros _. eexists _, _. split; [done|]. apply counter_twice.
Qed.

(** ** On a cluster that prepares everything *)

Module Cluster.

Definition driver (_ : str) : option unit := Some tt.
Definition ls : ScyllaLimiterStore :=
  Eval cbv in match limiter_with_session driver with Ok l => l | Err _ => mkScyllaLimiterStore (mkPreparedStatement [] true)
    (mkPreparedStatement [] true) (mkPreparedStatement [] true) (mkPreparedStatement [] true) (mkPreparedStatement [] true)
    (mkPreparedStatement [] true) (mkPreparedStatement [] true) (mkPreparedStatement [] true) end.
Definition ss : ScyllaSequenceStore :=
  Eval cbv in match sequence_with_session driver with Ok s => s
    | Err _ => mkScyllaSequenceStore (mkPreparedStatement [] true) (mkPreparedStatement [] true) end.
Definition db : Db := mkDb (mkTables ∅ ∅ ∅ ∅) ∅.
Definition write : Write := WCompany 7 20312 [1; 2; 3].

(** The company's row, sent twice. *)
Lemma retries_change_nothing_witness :
  executed (statement_of ls ss write) write db (effect write (effect write db)) /\
  effect write (effect write db) = effect write db.
Proof.
  assert (executed (statement_of ls ss write) write db (effect write (effect write db))) as Hx.
  { apply executed_again; [reflexivity|]. apply executed_once. }
  assert (limiter_with_session driver = Ok ls) as Hl by (vm_compute; reflexivity).
  assert (sequence_with_session driver = Ok ss) as Hs by (vm_compute; reflexivity).
  split; [exact Hx|].
  exact (proj1 (retries_change_nothing driver ls ss write db (effect write (effect write db)) Hl Hs Hx)).
Defined.

End Cluster.
