(* ===== verification/Float64.v ===== *)
(** * Float64: the [f64] operations of src/src/sysmetrics

    IEEE 754 binary64 by the Standard Library's [SpecFloat], with the conversions Rust adds:
    integers [as f64], [f64::round], the comparisons and the saturating cast [as i16]. The lemmas
    say when a quotient is a number and where a cast lands. *)

From Stdlib Require Import SpecFloat.
From S2P Require Import Prelude.

Abbreviation f64 := spec_float.
Abbreviation rounded := (binary_round_aux 53 1024).

Definition f64_mul : f64 -> f64 -> f64 := SFmul 53 1024.
Definition f64_div : f64 -> f64 -> f64 := SFdiv 53 1024.
Definition f64_sub : f64 -> f64 -> f64 := SFsub 53 1024.

(** An integer [as f64]: to the nearest, ties to even. *)
Definition f64_of (n : Z) : f64 := binary_normalize 53 1024 n 0 false.

Definition is_nan (x : f64) : bool := match x with S754_nan => true | _ => false end.

(** A finite number is its signed mantissa times a power of two. *)
Definition mantissa (x : f64) : Z :=
  match x with S754_finite s m _ => if s then Z.neg m else Z.pos m | _ => 0 end.
Definition exponent (x : f64) : Z := match x with S754_finite _ _ e => e | _ => 0 end.

(** The comparison of the values; [None] with a NaN. *)
Definition f64_compare (x y : f64) : option comparison :=
  match x, y with
  | S754_nan, _ | _, S754_nan => None
  | S754_infinity s, S754_infinity s' =>
      Some (if s then (if s' then Eq else Lt) else (if s' then Gt else Eq))
  | S754_infinity s, _ => Some (if s then Lt else Gt)
  | _, S754_infinity s => Some (if s then Gt else Lt)
  | _, _ =>
      let e := Z.min (exponent x) (exponent y) in
      Some (mantissa x * 2 ^ (exponent x - e) ?= mantissa y * 2 ^ (exponent y - e))
  end.

Definition f64_le (x y : f64) : bool :=
  match f64_compare x y with Some Lt | Some Eq => true | _ => false end.
Definition f64_ge (x y : f64) : bool :=
  match f64_compare x y with Some Gt | Some Eq => true | _ => false end.

(** [f64::round]: to the nearest integer, halves away from zero. *)
Definition f64_round (x : f64) : f64 :=
  match x with
  | S754_finite s m e =>
      if 0 <=? e then x
      else
        let n := (Z.pos m + 2 ^ (- e - 1)) / 2 ^ (- e) in
        if n =? 0 then S754_zero s else f64_of (if s then - n else n)
  | _ => x
  end.

(** [as i16]: towards zero, saturating, a NaN to 0. *)
Definition f64_as_i16 (x : f64) : Z :=
  match x with
  | S754_nan | S754_zero _ => 0
  | S754_infinity s => if s then I16_MIN else I16_MAX
  | S754_finite s m e =>
      let t := if 0 <=? e then Z.pos m * 2 ^ e else Z.pos m / 2 ^ (- e) in
      Z.max I16_MIN (Z.min I16_MAX (if s then - t else t))
  end.

(** ** Rounding *)

Lemma digits_bound m : 2 ^ (Z.pos (digits2_pos m) - 1) <= Z.pos m < 2 ^ Z.pos (digits2_pos m).
Proof.
  induction m as [p IH|p IH|]; cbn [digits2_pos]; [..|by vm_compute].
  all: rewrite Pos2Z.inj_succ;
    replace (Z.succ (Z.pos (digits2_pos p)) - 1) with (Z.succ (Z.pos (digits2_pos p) - 1)) by lia;
    rewrite !Z.pow_succ_r by lia; lia.
Qed.

Lemma digits_le a b : 1 <= a <= b -> Zdigits2 a <= Zdigits2 b.
Proof.
  destruct a as [|a|], b as [|b|]; intros ?; try lia. cbn [Zdigits2].
  pose proof (digits_bound a). pose proof (digits_bound b).
  destruct (Z.le_gt_cases (Z.pos (digits2_pos a)) (Z.pos (digits2_pos b))); [done|].
  assert (2 ^ Z.pos (digits2_pos b) <= 2 ^ (Z.pos (digits2_pos a) - 1)) by (apply Z.pow_le_mono_r; lia). lia.
Qed.

Lemma digits_lt n k : 1 <= n < 2 ^ k -> Zdigits2 n <= k.
Proof.
  destruct n as [|n|]; intros ?; try lia. cbn [Zdigits2]. pose proof (digits_bound n).
  destruct (Z.le_gt_cases (Z.pos (digits2_pos n)) k); [done|].
  assert (2 ^ k <= 2 ^ (Z.pos (digits2_pos n) - 1)) by (apply Z.pow_le_mono_r; lia). lia.
Qed.

Lemma shr_1_m mrs : 0 <= shr_m mrs -> shr_m (shr_1 mrs) = shr_m mrs / 2.
Proof.
  destruct mrs as [[|[p|p|]|] r s]; cbn [shr_m shr_1]; intros ?; try done; try lia.
  - rewrite (Pos2Z.inj_xI p). apply (Z.div_unique_pos _ _ _ 1); lia.
  - rewrite (Pos2Z.inj_xO p). apply (Z.div_unique_pos _ _ _ 0); lia.
Qed.

Lemma shr_iter_m p mrs : 0 <= shr_m mrs -> shr_m (SpecFloat.iter_pos shr_1 p mrs) = shr_m mrs / 2 ^ Z.pos p.
Proof.
  revert mrs. induction p as [p IH|p IH|]; intros mrs H; cbn [SpecFloat.iter_pos].
  - assert (0 <= shr_m (shr_1 mrs)) by (rewrite shr_1_m by done; apply Z.div_pos; lia).
    rewrite IH by (rewrite IH by done; apply Z.div_pos; lia). rewrite IH, shr_1_m by done.
    rewrite !Z.div_div by lia. f_equal. rewrite (Pos2Z.inj_xI p).
    replace (2 * Z.pos p + 1) with (1 + Z.pos p + Z.pos p) by lia. rewrite !Z.pow_add_r by lia. lia.
  - rewrite IH by (rewrite IH by done; apply Z.div_pos; lia). rewrite IH by done.
    rewrite Z.div_div by lia. f_equal. rewrite (Pos2Z.inj_xO p).
    replace (2 * Z.pos p) with (Z.pos p + Z.pos p) by lia. by rewrite Z.pow_add_r by lia.
  - by apply shr_1_m.
Qed.

Lemma shr_fexp_spec m e l :
  0 <= m ->
  let n := Z.max 0 (fexp 53 1024 (Zdigits2 m + e) - e) in
  shr_m (shr_fexp 53 1024 m e l).1 = m / 2 ^ n /\ (shr_fexp 53 1024 m e l).2 = e + n.
Proof.
  intros Hm n. subst n. unfold shr_fexp. set (k := fexp _ _ _ - e).
  assert (shr_m (shr_record_of_loc m l) = m) as Em by (by destruct l as [|[]]).
  unfold shr. destruct k as [|k|k]; cbn [fst snd].
  - rewrite Em, Z.div_1_r. lia.
  - rewrite shr_iter_m by lia. rewrite Em. by rewrite Z.max_r by lia.
  - rewrite Em, Z.max_l, Z.div_1_r by lia. lia.
Qed.

(** Above the subnormals only digits beyond the 53rd are shifted out. *)
Lemma shr_positive m e :
  1 <= m -> -1074 <= e -> 1 <= m / 2 ^ Z.max 0 (fexp 53 1024 (Zdigits2 m + e) - e).
Proof.
  intros Hm He. apply Z.div_le_lower_bound; [apply Z.pow_pos_nonneg; lia|].
  destruct m as [|m|]; try lia. cbn [Zdigits2] in *. pose proof (digits_bound m) as [Hd _].
  rewrite Z.mul_1_r. etransitivity; [|exact Hd]. apply Z.pow_le_mono_r; [lia|].
  unfold fexp, emin. lia.
Qed.

Lemma nearest_between m l : m <= round_nearest_even m l <= m + 1.
Proof. unfold round_nearest_even. repeat case_match; lia. Qed.

(** Rounding a nonnegative mantissa never makes a NaN; a positive one above the subnormals stays
    positive, and one of few digits stays finite. *)
Lemma rounded_spec s m e l :
  0 <= m ->
  rounded s m e l <> S754_nan /\
  (1 <= m -> -1074 <= e ->
     (exists m' e', rounded s m e l = S754_finite s m' e' /\ e <= e') \/ rounded s m e l = S754_infinity s) /\
  (Zdigits2 m <= 64 -> e <= 0 -> rounded s m e l <> S754_infinity s).
Proof.
  intros Hm. unfold binary_round_aux.
  destruct (shr_fexp 53 1024 m e l) as [mrs e1] eqn:E1.
  pose proof (shr_fexp_spec m e l Hm) as H1. cbv zeta in H1. rewrite E1 in H1. cbn [fst snd] in H1.
  set (n1 := Z.max 0 (fexp 53 1024 (Zdigits2 m + e) - e)) in *. destruct H1 as [Hm1 ->].
  set (l1 := loc_of_shr_record mrs). pose proof (nearest_between (shr_m mrs) l1) as Hr.
  set (r := round_nearest_even (shr_m mrs) l1) in *.
  assert (0 <= n1) as Hn1 by lia. assert (0 < 2 ^ n1) by (apply Z.pow_pos_nonneg; lia).
  assert (0 <= shr_m mrs <= m) as Hb.
  { rewrite Hm1. split; [apply Z.div_pos; lia|]. apply Z.div_le_upper_bound; [lia|]. nia. }
  destruct (shr_fexp 53 1024 r (e + n1) loc_Exact) as [mrs2 e2] eqn:E2.
  pose proof (shr_fexp_spec r (e + n1) loc_Exact ltac:(lia)) as H2. cbv zeta in H2. rewrite E2 in H2.
  cbn [fst snd] in H2. set (n2 := Z.max 0 (fexp 53 1024 (Zdigits2 r + (e + n1)) - (e + n1))) in *.
  destruct H2 as [Hm2 ->]. assert (0 <= shr_m mrs2) by (rewrite Hm2; apply Z.div_pos; [lia|apply Z.pow_pos_nonneg; lia]).
  split_and!.
  - destruct (shr_m mrs2); [done|by case_match|lia].
  - intros Hm' He.
    pose proof (shr_positive m e Hm' He) as Hp1. fold n1 in Hp1. rewrite <- Hm1 in Hp1.
    pose proof (shr_positive r (e + n1) ltac:(lia) ltac:(lia)) as Hp2. fold n2 in Hp2. rewrite <- Hm2 in Hp2.
    destruct (shr_m mrs2) as [|q|]; [lia| |lia]. case_match; [left|by right].
    exists q, (e + n1 + n2). split; [done|lia].
  - intros Hd He. destruct (shr_m mrs2); [done| |done]. case_match; [done|]. fw_bool.
    assert (Zdigits2 r <= 65) as Hdr.
    { destruct (Z.le_gt_cases r 1); [destruct r as [|[]|]; cbn; lia|].
      apply digits_lt. assert (m < 2 ^ 64); [|lia].
      destruct m as [|m|]; try lia. pose proof (digits_bound m). cbn [Zdigits2] in Hd.
      assert (2 ^ Z.pos (digits2_pos m) <= 2 ^ 64) by (apply Z.pow_le_mono_r; lia). lia. }
    unfold fexp, emin in *. lia.
Qed.

(** ** Integers, sums and quotients *)

(** A positive number that is not too small. *)
Definition above (k : Z) (x : f64) : Prop := exists m e, x = S754_finite false m e /\ k <= e.

Lemma iter_xO m d : Z.pos (Pos.iter xO m d) = Z.pos m * 2 ^ Z.pos d.
Proof.
  induction d as [|d IH] using Pos.peano_ind; [cbn; lia|].
  rewrite Pos.iter_succ, Pos2Z.inj_xO, IH, Pos2Z.inj_succ, Z.pow_succ_r by lia. lia.
Qed.

(** The mantissa is shifted up to 53 digits, where it has fewer. *)
Lemma align_spec m e :
  exists mz ez, shl_align m e (fexp 53 1024 (Z.pos (digits2_pos m) + e)) = (mz, ez) /\
    (mz = m /\ ez = e \/ Zdigits2 (Z.pos mz) <= 53 /\ ez < e /\ (e = 0 -> -53 < ez)).
Proof.
  unfold shl_align. destruct (fexp 53 1024 (Z.pos (digits2_pos m) + e) - e) as [|k|k] eqn:E; eauto 10.
  do 2 eexists. split; [done|]. right. split_and!; [|lia|intros ->; unfold fexp, emin; lia].
  apply digits_lt. rewrite iter_xO. pose proof (digits_bound m) as [_ Hd]. split; [lia|].
  assert (Z.pos k <= 53 - Z.pos (digits2_pos m)) as Hk by (unfold fexp, emin in E; lia).
  replace 53 with (Z.pos (digits2_pos m) + (53 - Z.pos (digits2_pos m))) by lia.
  rewrite Z.pow_add_r by lia. apply Z.lt_le_trans with (2 ^ Z.pos (digits2_pos m) * 2 ^ Z.pos k).
  - apply Z.mul_lt_mono_pos_r; lia.
  - apply Z.mul_le_mono_nonneg_l; [lia|]. apply Z.pow_le_mono_r; lia.
Qed.

Lemma rounded_number s m e l : 0 <= m -> is_nan (rounded s m e l) = false.
Proof. intros H. destruct (rounded_spec s m e l H) as (Hn & _). by destruct (rounded s m e l). Qed.

Lemma normalize_number n e s : is_nan (binary_normalize 53 1024 n e s) = false.
Proof.
  destruct n as [|m|m]; [done|..]; cbn [binary_normalize]; unfold binary_round;
    destruct (align_spec m e) as (mz & ez & -> & _); by apply rounded_number.
Qed.

Lemma f64_of_number n : is_nan (f64_of n) = false.
Proof. apply normalize_number. Qed.

Lemma f64_of_0 : f64_of 0 = S754_zero false.
Proof. reflexivity. Qed.

Lemma f64_of_positive n : 1 <= n -> above (-53) (f64_of n) \/ f64_of n = S754_infinity false.
Proof.
  intros Hn. destruct n as [|m|]; [lia| |lia]. unfold f64_of, binary_normalize, binary_round.
  destruct (align_spec m 0) as (mz & ez & -> & Hz).
  assert (-53 <= ez) as He by (destruct Hz as [[_ -> ]|(_ & _ & Hz)]; lia).
  destruct (rounded_spec false (Z.pos mz) ez loc_Exact) as (_ & [(m' & e' & -> & ?)| -> ] & _);
    [lia..|left|by right]. exists m', e'. split; [done|lia].
Qed.

Lemma f64_of_finite n : in_u64 n -> f64_of n <> S754_infinity false.
Proof.
  intros Hn. destruct n as [|m|m]; [done| |widths; lia]. unfold f64_of, binary_normalize, binary_round.
  destruct (align_spec m 0) as (mz & ez & -> & Hz).
  destruct (rounded_spec false (Z.pos mz) ez loc_Exact) as (_ & _ & Hi); [lia|].
  destruct Hz as [[-> ->]|(Hd & He & _)]; [|apply Hi; lia].
  apply Hi; [|lia]. apply digits_lt. widths. lia.
Qed.

(** What a [u64] is as a float. *)
Lemma f64_of_u64 n : in_u64 n -> n = 0 /\ f64_of n = S754_zero false \/ 1 <= n /\ above (-53) (f64_of n).
Proof.
  intros Hn. destruct (decide (n = 0)) as [->|]; [by left|]. right.
  assert (1 <= n) as H1 by (widths; lia). split; [done|].
  destruct (f64_of_positive n H1) as [?|E]; [done|]. by apply f64_of_finite in E.
Qed.

Lemma sub_number a b : in_u64 a -> in_u64 b -> is_nan (f64_sub (f64_of a) (f64_of b)) = false.
Proof.
  intros Ha Hb.
  destruct (f64_of_u64 a Ha) as [[_ -> ]|(_ & ma & ea & -> & _)],
    (f64_of_u64 b Hb) as [[_ -> ]|(_ & mb & eb & -> & _)]; try done. apply normalize_number.
Qed.

Lemma div_core_nonneg ma ea mb eb q e l :
  SFdiv_core_binary 53 1024 (Z.pos ma) ea (Z.pos mb) eb = (q, e, l) -> 0 <= q.
Proof.
  unfold SFdiv_core_binary. set (e' := Z.min _ _). set (m' := match _ with Z0 => _ | _ => _ end).
  assert (0 <= m') as Hm by (subst m'; case_match; [lia|by apply Z.shiftl_nonneg|lia]).
  destruct (Z.div_eucl m' (Z.pos mb)) as [q' r] eqn:E. intros [= <- <- <-].
  change q' with (q', r).1. rewrite <- E. by apply Z.div_pos.
Qed.

(** A number over a positive finite one. *)
Lemma div_number x k y : is_nan x = false -> above k y -> is_nan (f64_div x y) = false.
Proof.
  intros Hx (m & e & -> & _). destruct x as [| | |s mx ex]; try done. unfold f64_div, SFdiv.
  destruct (SFdiv_core_binary _ _ _ _ _ _) as [[q e'] l] eqn:E. apply rounded_number. by eapply div_core_nonneg.
Qed.

(** A [u64] over a positive number. *)
Lemma u64_div_number n y :
  in_u64 n -> (exists k, above k y) \/ y = S754_infinity false -> is_nan (f64_div (f64_of n) y) = false.
Proof.
  intros Hn [[k Hy]| ->]; [eapply div_number; [apply f64_of_number|exact Hy]|].
  by destruct (f64_of_u64 n Hn) as [[_ -> ]|(_ & m & e & -> & _)].
Qed.

(** The product of two positive integers. *)
Lemma mul_positive a b :
  1 <= a -> 1 <= b ->
  (exists k, above k (f64_mul (f64_of a) (f64_of b))) \/ f64_mul (f64_of a) (f64_of b) = S754_infinity false.
Proof.
  intros Ha Hb.
  destruct (f64_of_positive a Ha) as [(ma & ea & -> & ?)| ->], (f64_of_positive b Hb) as [(mb & eb & -> & ?)| ->];
    try by right.
  unfold f64_mul, SFmul.
  destruct (rounded_spec false (Z.pos (ma * mb)) (ea + eb) loc_Exact) as (_ & [(m & e & Em & ?)|Em] & _);
    [lia..| |]; change (xorb false false) with false; rewrite Em; [left; by exists e, m, e|by right].
Qed.

(** A positive number of either kind. *)
Definition positive (x : f64) : Prop := (exists k, above k x) \/ x = S754_infinity false.

Lemma positive_of n : 1 <= n -> positive (f64_of n).
Proof. intros Hn. destruct (f64_of_positive n Hn); [left; eauto|by right]. Qed.

Lemma div_core_positive ma ea mb eb q e l :
  -1000 <= ea - eb -> Zdigits2 (Z.pos mb) <= 64 ->
  SFdiv_core_binary 53 1024 (Z.pos ma) ea (Z.pos mb) eb = (q, e, l) -> 1 <= q /\ -1074 <= e.
Proof.
  intros He Hd E. unfold SFdiv_core_binary in E.
  set (e' := Z.min (fexp 53 1024 (Zdigits2 (Z.pos ma) + ea - (Zdigits2 (Z.pos mb) + eb))) (ea - eb)) in *.
  set (m' := match ea - eb - e' with Z0 => _ | _ => _ end) in *.
  destruct (Z.div_eucl m' (Z.pos mb)) as [q' r] eqn:Eq. injection E as <- <- <-.
  split; [|subst e'; unfold fexp, emin; lia].
  assert (m' = Z.pos ma * 2 ^ (ea - eb - e')) as Hm.
  { subst m'. destruct (ea - eb - e') eqn:Es; [by rewrite Z.mul_1_r|by rewrite Z.shiftl_mul_pow2|].
    subst e'. lia. }
  change q' with (q', r).1. rewrite <- Eq. change (1 <= m' / Z.pos mb).
  apply Z.div_le_lower_bound; [lia|]. rewrite Hm, Z.mul_1_r.
  pose proof (digits_bound ma) as [Ha _]. pose proof (digits_bound mb) as [_ Hb]. cbn [Zdigits2] in *.
  transitivity (2 ^ Z.pos (digits2_pos mb)); [lia|].
  transitivity (2 ^ (Z.pos (digits2_pos ma) - 1) * 2 ^ (ea - eb - e')).
  - rewrite <- Z.pow_add_r by (subst e'; lia). apply Z.pow_le_mono_r; [lia|].
    subst e'. unfold fexp, emin. cbn [Zdigits2]. lia.
  - apply Z.mul_le_mono_nonneg_r; [|done]. apply Z.pow_nonneg. lia.
Qed.

Lemma div_positive n c :
  1 <= n -> 1 <= c <= U64_MAX -> -700 <= exponent (f64_of c) <= 900 ->
  Zdigits2 (mantissa (f64_of c)) <= 64 -> positive (f64_div (f64_of n) (f64_of c)).
Proof.
  intros Hn Hc Hec Hdc. destruct (f64_of_u64 c) as [[? _]|(_ & mb & eb & Ec & Heb)]; [widths; lia..|].
  rewrite Ec in *. cbn [exponent mantissa] in Hec, Hdc.
  destruct (f64_of_positive n Hn) as [(ma & ea & -> & Hea)| -> ]; [|by right].
  unfold f64_div, SFdiv. destruct (SFdiv_core_binary _ _ _ _ _ _) as [[q e'] l] eqn:E.
  apply div_core_positive in E as [Hq He]; [|lia|done].
  destruct (rounded_spec false q e' l) as (_ & [(m & e & Em & ?)|Em] & _); [lia..| |];
    change (xorb false false) with false; rewrite Em; [left; by exists e, m, e|by right].
Qed.

(** ** Comparisons and casts *)

Lemma le_zero x : positive x -> f64_le x (f64_of 0) = false.
Proof.
  intros [(k & m & e & -> & _)| -> ]; [|done]. rewrite f64_of_0. unfold f64_le, f64_compare. cbn [mantissa exponent].
  assert (0 < Z.pos m * 2 ^ (e - Z.min e 0)) as Hp by (apply Z.mul_pos_pos; [lia|apply Z.pow_pos_nonneg; lia]).
  rewrite Z.mul_0_l. by apply Z.compare_gt_iff in Hp as ->.
Qed.

Lemma le_zero_of n : 0 <= n -> f64_le (f64_of n) (f64_of 0) = (n =? 0).
Proof.
  intros Hn. destruct (Z.eqb_spec n 0) as [->|]; [done|]. apply le_zero, positive_of. lia.
Qed.

(** A number that is not at or below 0 and not at or above an integer is cast below it; so is a
    NaN. *)
Lemma cast_between x c m e :
  f64_of c = S754_finite false m e -> e <= 0 -> Z.pos m = c * 2 ^ (- e) -> 0 <= c <= I16_MAX ->
  f64_le x (f64_of 0) = false -> f64_ge x (f64_of c) = false -> 0 <= f64_as_i16 x <= c.
Proof.
  intros Ec He Hc Hb Hl Hg. rewrite Ec in Hg. rewrite f64_of_0 in Hl. clear Ec.
  unfold f64_le, f64_ge, f64_compare in Hl, Hg. cbn [mantissa exponent] in Hl, Hg.
  destruct x as [s|[]| |s mx ex]; try done; cbn [f64_as_i16]; try lia.
  cbn [mantissa exponent] in Hl, Hg. destruct s.
  { exfalso. rewrite Z.mul_0_l in Hl.
    assert (Z.neg mx * 2 ^ (ex - Z.min ex 0) < 0) as Hn.
    { apply Z.mul_neg_pos; [lia|]. apply Z.pow_pos_nonneg; lia. }
    by apply Z.compare_lt_iff in Hn; rewrite Hn in Hl. }
  destruct (_ ?= _) eqn:Ecmp in Hg; try done. rewrite Z.compare_lt_iff in Ecmp. clear Hl Hg.
  assert (0 <= (if 0 <=? ex then Z.pos mx * 2 ^ ex else Z.pos mx / 2 ^ (- ex)) <= c) as Ht; [|widths; lia].
  destruct (Z.leb_spec 0 ex).
  - split; [apply Z.mul_nonneg_nonneg; [lia|apply Z.pow_nonneg; lia]|].
    rewrite Z.min_r, Z.sub_diag, Z.mul_1_r, Hc in Ecmp by lia.
    replace (ex - e) with (ex + - e) in Ecmp by lia. rewrite Z.pow_add_r, Z.mul_assoc in Ecmp by lia.
    apply Z.mul_lt_mono_pos_r in Ecmp; [lia|]. apply Z.pow_pos_nonneg; lia.
  - split; [apply Z.div_pos; [lia|apply Z.pow_pos_nonneg; lia]|].
    apply Z.div_le_upper_bound; [apply Z.pow_pos_nonneg; lia|].
    destruct (Z.le_ge_cases ex e).
    + rewrite Z.min_l, Z.sub_diag, Z.mul_1_r, Hc, <- Z.mul_assoc, <- Z.pow_add_r in Ecmp by lia.
      replace (- e + (e - ex)) with (- ex) in Ecmp by lia. lia.
    + rewrite Z.min_r, Z.sub_diag, Z.mul_1_r, Hc in Ecmp by lia.
      replace (- e) with (- ex + (ex - e)) in Ecmp by lia. rewrite Z.pow_add_r, Z.mul_assoc in Ecmp by lia.
      apply Z.mul_lt_mono_pos_r in Ecmp; [lia|]. apply Z.pow_pos_nonneg; lia.
Qed.

(** ** Signs *)

Definition unsigned (x : f64) : Prop := 0 <= mantissa x /\ x <> S754_infinity true.

Lemma rounded_unsigned m e l : unsigned (rounded false m e l).
Proof.
  unfold binary_round_aux. destruct (shr_fexp 53 1024 m e l) as [mrs e1].
  destruct (shr_fexp 53 1024 _ e1 loc_Exact) as [mrs2 e2]. repeat case_match; done.
Qed.

Lemma f64_of_unsigned n : 0 <= n -> unsigned (f64_of n).
Proof.
  intros Hn. destruct n as [|m|]; [done| |lia]. unfold f64_of, binary_normalize, binary_round.
  destruct (align_spec m 0) as (mz & ez & -> & _). apply rounded_unsigned.
Qed.

Lemma above_zero_unsigned x : is_nan x = false -> f64_le x (f64_of 0) = false -> unsigned x.
Proof.
  intros Hn Hl. rewrite f64_of_0 in Hl. unfold f64_le, f64_compare in Hl.
  destruct x as [|[]| |[] m e]; try done. cbn [mantissa exponent] in Hl. exfalso. rewrite Z.mul_0_l in Hl.
  assert (Z.neg m * 2 ^ (e - Z.min e 0) < 0) as Hm.
  { apply Z.mul_neg_pos; [lia|]. apply Z.pow_pos_nonneg; lia. }
  by apply Z.compare_lt_iff in Hm; rewrite Hm in Hl.
Qed.

Lemma div_unsigned x m e : unsigned x -> unsigned (f64_div x (S754_finite false m e)).
Proof.
  intros [Hm Hi]. destruct x as [|[]| |[] mx ex]; try done. unfold f64_div, SFdiv.
  destruct (SFdiv_core_binary _ _ _ _ _ _) as [[q e'] l]. apply rounded_unsigned.
Qed.

Lemma round_unsigned x : unsigned x -> unsigned (f64_round x).
Proof.
  intros [Hm Hi]. destruct x as [| | |[] m e]; try done. unfold f64_round.
  case_match; [done|]. cbv zeta. case_match; [done|]. apply f64_of_unsigned, Z.div_pos; [|apply Z.pow_pos_nonneg]; fw_bool; lia.
Qed.

Lemma cast_unsigned x : unsigned x -> f64_le x (f64_of 0) = true -> f64_as_i16 x = 0.
Proof.
  intros [Hm Hi] Hl. destruct x as [|[]| |[] m e]; try done.
  rewrite le_zero in Hl; [done|]. left. by exists e, m, e.
Qed.
