(* ===== verification/SysMetrics.v ===== *)
(** * SysMetrics: the host's numbers, src/src/sysmetrics/mod.rs and collector.rs

    The stored encodings of a reading, the window's peaks, the parsers of the [/proc] and cgroup
    files, and the collector, which keeps the counters of the previous sub-sample and each unit's
    directory. The machine is a [Host] per sub-sample: its clocks, the texts of its files ([None]
    when one cannot be read), [statvfs], and the cgroup tree. *)

From Stdlib Require Import String.
From Stdlib Require Import SpecFloat.
From S2P Require Import Prelude Float64 BridgeToken BridgeAuth Config.

(** ** Encodings (mod.rs) *)

Definition NOT_MEASURED : Z := -1.
Definition PERCENT_CEILING : Z := 10000.
Definition NETWORK_RATE_UNIT_BYTES : f64 := f64_of 5120.

Record ServiceSample := mkServiceSample { memory_mb : Z; service_cpu : Z }.

Record MetricsSample := mkMetricsSample {
  cpu_percent : Z;
  memory_percent : Z;
  disk_percent : Z;
  network_rx_rate : Z;
  network_tx_rate : Z;
  backend : ServiceSample;
  fareward : ServiceSample;
  scylla : ServiceSample;
}.

Definition default_service : ServiceSample := mkServiceSample NOT_MEASURED NOT_MEASURED.
Definition default_sample : MetricsSample :=
  mkMetricsSample NOT_MEASURED NOT_MEASURED NOT_MEASURED NOT_MEASURED NOT_MEASURED
    default_service default_service default_service.

Definition peak (current candidate : Z) : Z :=
  if candidate =? NOT_MEASURED then current
  else if current =? NOT_MEASURED then candidate
  else Z.max current candidate.

Definition peak_service (current candidate : ServiceSample) : ServiceSample :=
  mkServiceSample (peak (memory_mb current) (memory_mb candidate))
    (peak (service_cpu current) (service_cpu candidate)).

Definition peak_sample (current sample : MetricsSample) : MetricsSample :=
  mkMetricsSample
    (peak (cpu_percent current) (cpu_percent sample))
    (peak (memory_percent current) (memory_percent sample))
    (peak (disk_percent current) (disk_percent sample))
    (peak (network_rx_rate current) (network_rx_rate sample))
    (peak (network_tx_rate current) (network_tx_rate sample))
    (peak_service (backend current) (backend sample))
    (peak_service (fareward current) (fareward sample))
    (peak_service (scylla current) (scylla sample)).

Record WindowPeaks := mkWindowPeaks { peaks : MetricsSample; absorbed : Z }.

Definition no_peaks : WindowPeaks := mkWindowPeaks default_sample 0.

Definition absorb (w : WindowPeaks) (sample : MetricsSample) : WindowPeaks :=
  mkWindowPeaks (peak_sample (peaks w) sample) (wrap 32 (absorbed w + 1)).

Definition is_empty (w : WindowPeaks) : bool := absorbed w =? 0.

(** [take]: the peaks, and the accumulator cleared. *)
Definition take (w : WindowPeaks) : MetricsSample * WindowPeaks := (peaks w, no_peaks).

Definition percent_hundredths (ratio : f64) : Z :=
  if is_nan ratio then NOT_MEASURED
  else
    let hundredths := f64_round (f64_mul ratio (f64_of 10000)) in
    if f64_le hundredths (f64_of 0) then 0
    else if f64_ge hundredths (f64_of PERCENT_CEILING) then PERCENT_CEILING
    else f64_as_i16 hundredths.

Definition megabytes (bytes : Z) : Z := Z.min (bytes / (1024 * 1024)) I16_MAX.

Definition network_rate (bytes_per_second : f64) : Z :=
  if is_nan bytes_per_second || f64_le bytes_per_second (f64_of 0) then 0
  else
    let units := f64_round (f64_div bytes_per_second NETWORK_RATE_UNIT_BYTES) in
    if f64_ge units (f64_of I16_MAX) then I16_MAX else f64_as_i16 units.

(** ** Text *)

(** [str::lines]. *)
Definition strip_cr (line : str) : str :=
  match reverse line with c :: r => if c =? 13 then reverse r else line | [] => [] end.
Definition lines (s : str) : list str :=
  let parts := split_on 10 s in
  let rest := List.last parts [] in
  map strip_cr (removelast parts) ++ (if bool_decide (rest = []) then [] else [rest]).

(** [str::split_whitespace]. *)
Fixpoint split_spaces (s : str) : list str :=
  match s with
  | [] => [[]]
  | c :: r =>
      match split_spaces r with
      | part :: parts => if is_whitespace c then [] :: part :: parts else (c :: part) :: parts
      | [] => [[]]
      end
  end.
Definition split_whitespace (s : str) : list str := filter (fun part => part <> []) (split_spaces s).

(** [Iterator::find_map]. *)
Fixpoint find_map {A B} (f : A -> option B) (l : list A) : option B :=
  match l with
  | [] => None
  | x :: r => match f x with Some y => Some y | None => find_map f r end
  end.

(** ** Parsers (collector.rs) *)

Definition parse_keyed_field (contents field : str) : option Z :=
  find_map (fun line =>
    '(name, value) ← split_once 32 line;
    if bool_decide (trim name = field) then parse_u64 (trim value) else None) (lines contents).

Definition resident_memory_bytes (memory_stat : str) : Z :=
  let anonymous := default 0 (parse_keyed_field memory_stat (lit "anon")) in
  wrap 64 (anonymous + default 0 (parse_keyed_field memory_stat (lit "file_mapped"))).

(** The loop over the counters of the line. *)
Fixpoint add_ticks (fields : list str) (index total idle : Z) : option (Z * Z) :=
  match fields with
  | [] => Some (total, idle)
  | field :: rest =>
      ticks ← parse_u64 field;
      add_ticks rest (index + 1) (wrap 64 (total + ticks)) (if index =? 3 then ticks else idle)
  end.

Definition starts_with (prefix s : str) : bool :=
  match strip_prefix prefix s with Some _ => true | None => false end.

Definition parse_proc_stat_ticks (contents : str) : option (Z * Z) :=
  line ← find_map (fun line => if starts_with (lit "cpu ") line then Some line else None) (lines contents);
  '(total, idle) ← add_ticks (tail (split_whitespace line)) 0 0 0;
  if total =? 0 then None else Some (total, idle).

Definition parse_cpu_count (contents : str) : Z :=
  zlen (filter (fun line =>
    match strip_prefix (lit "cpu") line with
    | Some (c :: _) => (48 <=? c) && (c <=? 57)
    | _ => false
    end = true) (lines contents)).

Definition read_kilobytes (contents field : str) : option Z :=
  find_map (fun line =>
    '(name, value) ← split_once 58 line;
    if bool_decide (trim name = field) then word ← head (split_whitespace value); parse_u64 word
    else None) (lines contents).

Definition parse_memory_used_ratio (contents : str) : option f64 :=
  total ← read_kilobytes contents (lit "MemTotal");
  available ← read_kilobytes contents (lit "MemAvailable");
  if total =? 0 then None
  else Some (f64_div (f64_of (saturating_sub total available)) (f64_of total)).

(** The interface's line, when this is it: its counters, or the [?] that ends the search. *)
Definition network_line (wanted line : str) : option (option (Z * Z)) :=
  '(name, counters) ← split_once 58 line;
  let name := trim name in
  if bool_decide (name = lit "lo") || (negb (bool_decide (wanted = [])) && negb (bool_decide (name = wanted)))
  then None
  else
    let fields := split_whitespace counters in
    if (length fields <? 16)%nat then None
    else Some (received ← fields !! 0%nat ≫= parse_u64;
               transmitted ← fields !! 8%nat ≫= parse_u64;
               Some (received, transmitted)).

Definition parse_network_counters (contents requested_interface : str) : option (Z * Z) :=
  default None (find_map (network_line (trim requested_interface)) (lines contents)).

(** ** Rates *)

Definition host_cpu_percent (current previous : option (Z * Z)) : Z :=
  match current, previous with
  | Some (total, idle), Some (previous_total, previous_idle) =>
      let total_delta := f64_of (saturating_sub total previous_total) in
      if f64_le total_delta (f64_of 0) then NOT_MEASURED
      else
        let idle_delta := f64_of (saturating_sub idle previous_idle) in
        percent_hundredths (f64_div (f64_sub total_delta idle_delta) total_delta)
  | _, _ => NOT_MEASURED
  end.

Definition service_cpu_percent (current previous : option Z) (elapsed_micros cpu_count : f64) : Z :=
  match current, previous with
  | Some current, Some previous =>
      if f64_le elapsed_micros (f64_of 0) || f64_le cpu_count (f64_of 0) then NOT_MEASURED
      else percent_hundredths
             (f64_div (f64_of (saturating_sub current previous)) (f64_mul elapsed_micros cpu_count))
  | _, _ => NOT_MEASURED
  end.

Definition network_rates (current previous : option (Z * Z)) (elapsed_seconds : f64) : Z * Z :=
  match current, previous with
  | Some (received, transmitted), Some (previous_received, previous_transmitted) =>
      if f64_le elapsed_seconds (f64_of 0) then (NOT_MEASURED, NOT_MEASURED)
      else
        (network_rate (f64_div (f64_of (saturating_sub received previous_received)) elapsed_seconds),
         network_rate (f64_div (f64_of (saturating_sub transmitted previous_transmitted)) elapsed_seconds))
  | _, _ => (NOT_MEASURED, NOT_MEASURED)
  end.

(** ** The cgroup tree *)

(** What cannot be read has no contents, or no entries. A path is relative to the root. *)
Inductive Node :=
| File (contents : option str)
| Dir (entries : option (list (str * Node))).

Abbreviation Path := (list str).

Definition is_dir (n : Node) : bool := match n with Dir _ => true | File _ => false end.

Fixpoint entry_named {A} (name : str) (entries : list (str * A)) : option A :=
  match entries with
  | [] => None
  | (name', n) :: r => if bool_decide (name' = name) then Some n else entry_named name r
  end.

Fixpoint node_at (path : Path) (n : Node) : option Node :=
  match path with
  | [] => Some n
  | name :: rest =>
      match n with Dir (Some entries) => entry_named name entries ≫= node_at rest | _ => None end
  end.

Definition read_to_string (path : Path) (root : Node) : option str :=
  match node_at path root with Some (File contents) => contents | _ => None end.

Definition subdirectories (entries : list (str * Node)) : list (str * Node) :=
  filter (fun entry => is_dir entry.2 = true) entries.

Fixpoint find_cgroup_directory (root : Node) (unit_name : str) (remaining_depth : nat) : option Path :=
  match remaining_depth with
  | O => None
  | S depth =>
      match root with
      | Dir (Some entries) =>
          let dirs := subdirectories entries in
          if existsb (fun entry => bool_decide (entry.1 = unit_name)) dirs then Some [unit_name]
          else find_map (fun entry => cons entry.1 <$> find_cgroup_directory entry.2 unit_name depth) dirs
      | _ => None
      end
  end.

(** ** The collector *)

Definition CGROUP_SEARCH_DEPTH : nat := 5.
(** Nanoseconds, as the instants. *)
Definition CGROUP_SEARCH_RETRY : Z := 30 * 1000000000.
Definition SERVICE_UNIT_COUNT : nat := 3.

Record ServiceUnits := mkServiceUnits { u_backend : str; u_fareward : str; u_scylla : str }.

Record PreviousCounters := mkPreviousCounters {
  taken_at : Z;
  host_cpu_ticks : option (Z * Z);
  network_bytes : option (Z * Z);
  service_cpu_usec : list (option Z);
}.

Record SystemMetricsCollector := mkSystemMetricsCollector {
  units : ServiceUnits;
  c_disk_mount : str;
  c_network_interface : str;
  cpu_count : f64;
  previous : option PreviousCounters;
  resolved_directories : list (option Path);
  last_search_attempt : list (option Z);
}.

(** The machine as one sub-sample sees it; [searched_at] is the clock when a unit is searched. *)
Record Host := mkHost {
  instant : Z;
  searched_at : nat -> Z;
  proc_stat : option str;
  meminfo : option str;
  net_dev : option str;
  statvfs : str -> option (Z * Z);   (* f_blocks, f_bavail *)
  cgroup : Node;
}.

(** [new]; [stat] is /proc/stat at the start. *)
Definition read_cpu_count (stat : option str) : option Z :=
  contents ← stat; let count := parse_cpu_count contents in if 0 <? count then Some count else None.

Definition new_collector (stat : option str) (us : ServiceUnits) (mount interface : str) :
    SystemMetricsCollector :=
  mkSystemMetricsCollector us mount interface (f64_of (default 1 (read_cpu_count stat))) None
    (replicate SERVICE_UNIT_COUNT None) (replicate SERVICE_UNIT_COUNT None).

Definition unit_names (c : SystemMetricsCollector) : list str :=
  [u_backend (units c); u_fareward (units c); u_scylla (units c)].

Definition set_directory (i : nat) (d : option Path) (c : SystemMetricsCollector) : SystemMetricsCollector :=
  mkSystemMetricsCollector (units c) (c_disk_mount c) (c_network_interface c) (cpu_count c) (previous c)
    (<[i := d]> (resolved_directories c)) (last_search_attempt c).
Definition set_attempt (i : nat) (at_ : Z) (c : SystemMetricsCollector) : SystemMetricsCollector :=
  mkSystemMetricsCollector (units c) (c_disk_mount c) (c_network_interface c) (cpu_count c) (previous c)
    (resolved_directories c) (<[i := Some at_]> (last_search_attempt c)).
Definition set_previous (p : PreviousCounters) (c : SystemMetricsCollector) : SystemMetricsCollector :=
  mkSystemMetricsCollector (units c) (c_disk_mount c) (c_network_interface c) (cpu_count c) (Some p)
    (resolved_directories c) (last_search_attempt c).

(** The search of [unit_directory], once there is no cached directory that still exists. *)
Definition search_unit (h : Host) (i : nat) (c : SystemMetricsCollector) :
    option Path * SystemMetricsCollector :=
  let now := searched_at h i in
  let waiting :=
    match default None (last_search_attempt c !! i) with
    | Some attempted => saturating_sub now attempted <? CGROUP_SEARCH_RETRY
    | None => false
    end in
  if waiting then (None, c)
  else
    let c := set_attempt i now c in
    let unit_name := trim (default [] (unit_names c !! i)) in
    if bool_decide (unit_name = []) then (None, c)
    else match find_cgroup_directory (cgroup h) unit_name CGROUP_SEARCH_DEPTH with
    | Some found => (Some found, set_directory i (Some found) c)
    | None => (None, c)
    end.

Definition unit_directory (h : Host) (i : nat) (c : SystemMetricsCollector) :
    option Path * SystemMetricsCollector :=
  match default None (resolved_directories c !! i) with
  | Some cached =>
      if (match node_at cached (cgroup h) with Some n => is_dir n | None => false end)
      then (Some cached, c)
      else search_unit h i (set_directory i None c)
  | None => search_unit h i c
  end.

(** One turn of the loop of [read_service_counters]. *)
Definition read_unit (h : Host) (i : nat) (c : SystemMetricsCollector) :
    (option Z * option Z) * SystemMetricsCollector :=
  match unit_directory h i c with
  | (None, c) => ((None, None), c)
  | (Some directory, c) =>
      ((resident_memory_bytes <$> read_to_string (directory ++ [lit "memory.stat"]) (cgroup h),
        contents ← read_to_string (directory ++ [lit "cpu.stat"]) (cgroup h);
        parse_keyed_field contents (lit "usage_usec")), c)
  end.

Definition read_service_counters (h : Host) (c : SystemMetricsCollector) :
    (list (option Z) * list (option Z)) * SystemMetricsCollector :=
  let '((m0, u0), c) := read_unit h 0 c in
  let '((m1, u1), c) := read_unit h 1 c in
  let '((m2, u2), c) := read_unit h 2 c in
  (([m0; m1; m2], [u0; u1; u2]), c).

Definition read_memory_percent (h : Host) : Z :=
  match meminfo h ≫= parse_memory_used_ratio with
  | Some ratio => percent_hundredths ratio
  | None => NOT_MEASURED
  end.

Definition read_disk_percent (h : Host) (mount_path : str) : Z :=
  let path := trim mount_path in
  let path := if bool_decide (path = []) then lit "/" else path in
  if existsb (fun c => c =? 0) path then NOT_MEASURED
  else match statvfs h path with
  | None => NOT_MEASURED
  | Some (total_blocks, available_blocks) =>
      if total_blocks =? 0 then NOT_MEASURED
      else
        let used_blocks := saturating_sub total_blocks available_blocks in
        percent_hundredths (f64_div (f64_of used_blocks) (f64_of total_blocks))
  end.

Definition make_service (memory usec previous_usec : list (option Z)) (elapsed_micros cpus : f64) (i : nat) :
    ServiceSample :=
  mkServiceSample (default NOT_MEASURED (megabytes <$> default None (memory !! i)))
    (service_cpu_percent (default None (usec !! i)) (default None (previous_usec !! i)) elapsed_micros cpus).

(** Microseconds between two instants, as [duration_since] has them. *)
Definition micros_since (now before : Z) : Z := saturating_sub now before / 1000.

Definition sample (h : Host) (c : SystemMetricsCollector) : option MetricsSample * SystemMetricsCollector :=
  let host_cpu := proc_stat h ≫= parse_proc_stat_ticks in
  let network := net_dev h ≫= fun contents => parse_network_counters contents (c_network_interface c) in
  let '((service_memory, service_usec), c) := read_service_counters h c in
  let now := mkPreviousCounters (instant h) host_cpu network service_usec in
  match previous c with
  | None => (None, set_previous now c)
  | Some p =>
      let elapsed_micros := f64_of (micros_since (instant h) (taken_at p)) in
      let service := make_service service_memory service_usec (service_cpu_usec p) elapsed_micros (cpu_count c) in
      let '(rx, tx) := network_rates network (network_bytes p) (f64_div elapsed_micros (f64_of 1000000)) in
      (Some (mkMetricsSample (host_cpu_percent host_cpu (host_cpu_ticks p)) (read_memory_percent h)
               (read_disk_percent h (c_disk_mount c)) rx tx (service 0%nat) (service 1%nat) (service 2%nat)),
       set_previous now c)
  end.
