(* ===== verification/SysMetricsLaws.v ===== *)
(** * SysMetricsLaws: what a column of server_metrics can hold, and when

    A percentage is absent or between 0 and 100.00%, a rate or a size is absent or fits its
    column; a reading is absent exactly when what it is made of could not be read. The window
    keeps the highest of its readings, and the cgroup search finds every unit within its depth. *)

From Stdlib Require Import String.
From Stdlib Require Import SpecFloat.
From S2P Require Import Prelude Float64 BridgeToken BridgeAuth Config ConfigLaws SysMetrics.

(** ** Peaks *)

(** The columns of a sample, in the order they are bound. *)
Definition columns (s : MetricsSample) : list Z :=
  [cpu_percent s; memory_percent s; disk_percent s; network_rx_rate s; network_tx_rate s;
   memory_mb (backend s); service_cpu (backend s); memory_mb (fareward s); service_cpu (fareward s);
   memory_mb (scylla s); service_cpu (scylla s)].

(** The highest real reading; none was, [NOT_MEASURED]. *)
Definition highest (readings : list Z) : Z :=
  match filter (fun v => v <> NOT_MEASURED) readings with
  | [] => NOT_MEASURED
  | v :: rest => foldl Z.max v rest
  end.

Definition peaks_of (samples : list MetricsSample) : MetricsSample :=
  foldl peak_sample default_sample samples.

Lemma peak_columns a b : columns (peak_sample a b) = zip_with peak (columns a) (columns b).
Proof. done. Qed.

Lemma foldl_max_ge v l : v <= foldl Z.max v l.
Proof. revert v. induction l as [|x l IH]; intros v; cbn [foldl]; [lia|]. specialize (IH (Z.max v x)). lia. Qed.

Lemma foldl_peak l v :
  v <> NOT_MEASURED -> foldl peak v l = foldl Z.max v (filter (fun v => v <> NOT_MEASURED) l).
Proof.
  revert v. induction l as [|x l IH]; intros v Hv; [done|]. cbn [foldl]. unfold peak at 2.
  rewrite filter_cons. destruct (Z.eqb_spec x NOT_MEASURED) as [->|Hx].
  - rewrite decide_False by auto. by apply IH.
  - rewrite decide_True by done. destruct (Z.eqb_spec v NOT_MEASURED); [done|]. cbn [foldl]. apply IH. lia.
Qed.

Lemma highest_peak l : foldl peak NOT_MEASURED l = highest l.
Proof.
  unfold highest. induction l as [|x l IH]; [done|]. cbn [foldl]. unfold peak at 2. rewrite filter_cons.
  destruct (Z.eqb_spec x NOT_MEASURED) as [->|Hx].
  - rewrite decide_False by auto. exact IH.
  - rewrite decide_True by done. by apply foldl_peak.
Qed.

(** The columns of the peaks are the peaks of the columns. *)
Lemma peaks_columns samples s i :
  (i < 11)%nat ->
  columns (foldl peak_sample s samples) !! i =
    Some (foldl peak (default 0 (columns s !! i)) (map (fun x => default 0 (columns x !! i)) samples)).
Proof.
  intros Hi. revert s. induction samples as [|x samples IH]; intros s.
  - cbn [foldl map]. destruct (columns s !! i) eqn:E; [done|].
    apply lookup_ge_None in E. cbn in E. lia.
  - cbn [foldl map]. rewrite IH. do 2 f_equal. rewrite peak_columns, lookup_zip_with.
    destruct (columns s !! i) eqn:E; [|apply lookup_ge_None in E; cbn in E; lia].
    destruct (columns x !! i) eqn:E'; [done|]. apply lookup_ge_None in E'. cbn in E'. lia.
Qed.

Lemma absorbed_samples samples w :
  absorbed w + zlen samples < 2 ^ 32 -> 0 <= absorbed w ->
  foldl absorb w samples =
    mkWindowPeaks (foldl peak_sample (peaks w) samples) (absorbed w + zlen samples).
Proof.
  revert w. induction samples as [|x samples IH]; intros w Hl Ha.
  - cbn. rewrite Z.add_0_r. by destruct w.
  - cbn [foldl length] in *.
    assert (absorbed (absorb w x) = absorbed w + 1) as Ex by (cbn [absorb absorbed]; apply wrap_small; lia).
    rewrite IH by lia. rewrite Ex. f_equal. lia.
Qed.

Lemma foldl_max_spec v l :
  foldl Z.max v l ∈ v :: l /\ forall x, x ∈ v :: l -> x <= foldl Z.max v l.
Proof.
  revert v. induction l as [|y l IH]; intros v; cbn [foldl].
  - split; [by left|]. intros x ->%list_elem_of_singleton. done.
  - destruct (IH (Z.max v y)) as [Hin Hle]. split.
    + apply elem_of_cons in Hin as [Hin|Hin]; [|by do 2 right]. rewrite Hin at 1.
      destruct (Z.max_spec v y) as [[_ E]|[_ E]]; rewrite E; [right|]; left.
    + intros x Hx. pose proof (Hle (Z.max v y) ltac:(by left)).
      apply elem_of_cons in Hx as [->|Hx]; [lia|]. apply elem_of_cons in Hx as [->|Hx]; [lia|].
      apply Hle. by right.
Qed.

(** Either nothing real was read, or the highest real reading. *)
Lemma highest_cases l :
  (highest l = NOT_MEASURED /\ forall v, v ∈ l -> v = NOT_MEASURED) \/
  (highest l <> NOT_MEASURED /\ highest l ∈ l /\ forall v, v ∈ l -> v <> NOT_MEASURED -> v <= highest l).
Proof.
  unfold highest. destruct (filter _ l) as [|x r] eqn:E.
  - left. split; [done|]. intros v Hv. destruct (decide (v = NOT_MEASURED)) as [|Hne]; [done|].
    assert (v ∈ filter (fun v => v <> NOT_MEASURED) l) as Hf by (by apply list_elem_of_filter).
    rewrite E in Hf. by apply not_elem_of_nil in Hf.
  - right. destruct (foldl_max_spec x r) as [Hin Hle]. rewrite <- E in Hin.
    apply list_elem_of_filter in Hin as [Hne Hin]. split_and!; [done..|].
    intros v Hv Hv'. apply Hle. rewrite <- E. by apply list_elem_of_filter.
Qed.

(** A window's row is the column-wise highest of its sub-samples. For fewer than 2^32 of
    them, whatever they are: each column taken is the highest real reading of that column, and
    [NOT_MEASURED] exactly when no sub-sample read it; the window counts as empty exactly when
    nothing was absorbed; and taking the peaks leaves the accumulator as it started. *)
Theorem window_peaks_exact samples i :
  zlen samples < 2 ^ 32 -> (i < 11)%nat ->
  let w := foldl absorb no_peaks samples in
  let readings := map (fun s => default 0 (columns s !! i)) samples in
  columns (take w).1 !! i = Some (highest readings) /\
  (highest readings = NOT_MEASURED <-> forall v, v ∈ readings -> v = NOT_MEASURED) /\
  (highest readings <> NOT_MEASURED ->
     highest readings ∈ readings /\ forall v, v ∈ readings -> v <> NOT_MEASURED -> v <= highest readings) /\
  is_empty w = bool_decide (samples = []) /\ (take w).2 = no_peaks.
Proof.
  intros Hl Hi w readings. subst w. rewrite absorbed_samples by (cbn; lia). unfold take, no_peaks.
  cbn [fst snd peaks absorbed]. split_and!; [| | | |done].
  - rewrite peaks_columns by done. rewrite <- highest_peak. do 2 f_equal.
    by do 11 (destruct i as [|i]; [done|]); lia.
  - destruct (highest_cases readings) as [[E H]|(E & H & _)]; [done|]. split; [done|]. intros Hn. by apply Hn in H.
  - destruct (highest_cases readings) as [[E H]|(E & H & Hm)]; [done|]. done.
  - unfold is_empty. cbn [absorbed]. destruct samples; [done|]. cbn [length].
    rewrite bool_decide_false by done. apply Z.eqb_neq. lia.
Qed.

(** The row of the tests: a service that was absent throughout, and one that answered once. *)
Lemma window_peaks_exact_witness :
  let busy := mkMetricsSample 9500 (-1) 0 3 (-1) default_service default_service (mkServiceSample 128 0) in
  let readings := map (fun s => default 0 (columns s !! 5%nat)) [default_sample; busy; default_sample] in
  highest readings = NOT_MEASURED /\
  columns (take (foldl absorb no_peaks [default_sample; busy; default_sample])).1 !! 5%nat = Some NOT_MEASURED.
Proof.
  intros busy readings.
  destruct (window_peaks_exact [default_sample; busy; default_sample] 5 ltac:(cbn; lia) ltac:(lia))
    as (E & Hn & _).
  assert (highest readings = NOT_MEASURED) as H by (vm_compute; reflexivity).
  split; [exact H|]. rewrite E. fold readings. rewrite H. reflexivity.
Defined.

(** ** Encodings *)

Definition is_percent (v : Z) : Prop := v = NOT_MEASURED \/ 0 <= v <= PERCENT_CEILING.
Definition is_reading (v : Z) : Prop := v = NOT_MEASURED \/ 0 <= v <= I16_MAX.

Lemma percent_spec ratio :
  is_percent (percent_hundredths ratio) /\ (percent_hundredths ratio = NOT_MEASURED <-> is_nan ratio = true).
Proof.
  unfold percent_hundredths, is_percent. destruct (is_nan ratio); [split; [by left|done]|].
  assert (0 <= (let hundredths := f64_round (f64_mul ratio (f64_of 10000)) in
    if f64_le hundredths (f64_of 0) then 0
    else if f64_ge hundredths (f64_of PERCENT_CEILING) then PERCENT_CEILING
    else f64_as_i16 hundredths) <= PERCENT_CEILING) as Hr.
  { cbv zeta. destruct (f64_le _ _) eqn:El; [done|]. destruct (f64_ge _ _) eqn:Eg; [done|].
    eapply cast_between; [vm_compute; reflexivity|done|vm_compute; reflexivity|done|done|done]. }
  split; [by right|]. split; [|done]. cbv zeta in Hr |- *. intros E. rewrite E in Hr. unfold NOT_MEASURED in Hr. lia.
Qed.

Lemma network_rate_range x : 0 <= network_rate x <= I16_MAX.
Proof.
  unfold network_rate. destruct (is_nan x) eqn:Hn; [done|]. destruct (f64_le x _) eqn:Hx; [done|]. cbn [orb].
  apply above_zero_unsigned in Hx; [|done]. cbv zeta.
  assert (unsigned (f64_round (f64_div x NETWORK_RATE_UNIT_BYTES))) as Hu.
  { apply round_unsigned. unfold NETWORK_RATE_UNIT_BYTES.
    change (f64_of 5120) with (S754_finite false 5629499534213120 (-40)). by apply div_unsigned. }
  destruct (f64_ge _ _) eqn:Eg; [done|]. destruct (f64_le (f64_round (f64_div x NETWORK_RATE_UNIT_BYTES)) (f64_of 0)) eqn:El.
  - by rewrite cast_unsigned.
  - eapply cast_between; [vm_compute; reflexivity|done|vm_compute; reflexivity|done|done|done].
Qed.

(** ** Rates *)

Definition ticks_ok (o : option (Z * Z)) : Prop := forall a b, o = Some (a, b) -> in_u64 a /\ in_u64 b.
Definition counter_ok (o : option Z) : Prop := forall a, o = Some a -> in_u64 a.

Lemma sub_u64 a b : in_u64 a -> in_u64 b -> in_u64 (saturating_sub a b).
Proof. unfold saturating_sub. widths. lia. Qed.
#[local] Hint Resolve sub_u64 : core.

(** The total did not advance, or one of the two readings is missing. *)
Definition stalled (current previous : option (Z * Z)) : Prop :=
  match current, previous with
  | Some (total, _), Some (previous_total, _) => total <= previous_total
  | _, _ => True
  end.

(** No time passed, or one of the two readings is missing. *)
Definition unpaired {A} (current previous : option A) (elapsed : Z) : Prop :=
  match current, previous with Some _, Some _ => elapsed = 0 | _, _ => True end.

Lemma host_cpu_spec current previous :
  ticks_ok current -> ticks_ok previous ->
  is_percent (host_cpu_percent current previous) /\
  (host_cpu_percent current previous = NOT_MEASURED <-> stalled current previous).
Proof.
  intros Hc Hp. unfold host_cpu_percent, stalled.
  destruct current as [[t i]|]; [|split; [by left|done]].
  destruct previous as [[t' i']|]; [|split; [by left|done]].
  destruct (Hc _ _ eq_refl) as [Ht Hi]. destruct (Hp _ _ eq_refl) as [Ht' Hi'].
  assert (0 <= saturating_sub t t') by (unfold saturating_sub; lia).
  rewrite le_zero_of by done. destruct (Z.eqb_spec (saturating_sub t t') 0) as [E|E].
  - split; [by left|]. split; [|done]. unfold saturating_sub in E. lia.
  - set (ratio := f64_div _ _).
    assert (is_nan ratio = false) as Hr.
    { destruct (f64_of_u64 (saturating_sub t t')) as [[? _]|[_ Ha]]; [auto|done|].
      eapply div_number; [|exact Ha]. apply sub_number; auto. }
    destruct (percent_spec ratio) as [Hrange Hnm]. split; [done|]. rewrite Hnm, Hr.
    unfold saturating_sub in E. split; [done|lia].
Qed.

Lemma service_cpu_spec current previous micros n :
  counter_ok current -> counter_ok previous -> 0 <= micros -> 1 <= n ->
  let v := service_cpu_percent current previous (f64_of micros) (f64_of n) in
  is_percent v /\ (v = NOT_MEASURED <-> unpaired current previous micros).
Proof.
  intros Hc Hp Hm Hn v. subst v. unfold service_cpu_percent, unpaired.
  destruct current as [a|]; [|split; [by left|done]].
  destruct previous as [b|]; [|split; [by left|done]].
  rewrite !le_zero_of by lia. rewrite (proj2 (Z.eqb_neq n 0)) by lia. rewrite orb_false_r.
  destruct (Z.eqb_spec micros 0) as [|Hne]; [split; [by left|done]|].
  set (ratio := f64_div _ _).
  assert (is_nan ratio = false) as Hr.
  { apply u64_div_number; [auto|]. apply mul_positive; lia. }
  destruct (percent_spec ratio) as [Hrange Hnm]. split; [done|]. by rewrite Hnm, Hr.
Qed.

Lemma elapsed_zero micros :
  0 <= micros -> f64_le (f64_div (f64_of micros) (f64_of 1000000)) (f64_of 0) = (micros =? 0).
Proof.
  intros Hm. destruct (Z.eqb_spec micros 0) as [->|]; [done|]. apply le_zero, div_positive; [lia|..].
  - widths. lia.
  - vm_compute. split; discriminate.
  - vm_compute. discriminate.
Qed.

Lemma network_rates_spec current previous micros :
  0 <= micros ->
  let '(rx, tx) := network_rates current previous (f64_div (f64_of micros) (f64_of 1000000)) in
  (is_reading rx /\ (rx = NOT_MEASURED <-> unpaired current previous micros)) /\
  (is_reading tx /\ (tx = NOT_MEASURED <-> unpaired current previous micros)).
Proof.
  intros Hm. unfold network_rates, unpaired.
  destruct current as [[r t]|]; [|repeat split; done || by left].
  destruct previous as [[r' t']|]; [|repeat split; done || by left].
  rewrite elapsed_zero by done. destruct (Z.eqb_spec micros 0) as [|Hne]; [repeat split; done || by left|].
  assert (forall x, is_reading (network_rate x) /\ (network_rate x = NOT_MEASURED <-> micros = 0)) as Hx; [|by split].
  intros x. pose proof (network_rate_range x). split; [by right|]. unfold NOT_MEASURED. lia.
Qed.

Lemma ratio_number used total :
  in_u64 used -> in_u64 total -> total <> 0 -> is_nan (f64_div (f64_of used) (f64_of total)) = false.
Proof.
  intros Hu Ht Hne. apply u64_div_number; [done|]. left.
  destruct (f64_of_u64 total Ht) as [[? _]|[_ ?]]; [done|]. eauto.
Qed.

(** ** Parsers *)

Lemma find_map_Some {A B} (f : A -> option B) l y : find_map f l = Some y -> exists x, x ∈ l /\ f x = Some y.
Proof.
  induction l as [|x l IH]; cbn [find_map]; [done|]. case_match eqn:E; intros H.
  - simplify_eq. exists x. split; [by left|done].
  - destruct (IH H) as (z & ? & ?). exists z. split; [by right|done].
Qed.

Lemma keyed_field_range contents field n : parse_keyed_field contents field = Some n -> in_u64 n.
Proof.
  intros (line & _ & E)%find_map_Some. apply bind_Some in E as ([name value] & _ & E).
  case_bool_decide; [|done]. by apply parse_u64_range in E.
Qed.

Lemma kilobytes_range contents field n : read_kilobytes contents field = Some n -> in_u64 n.
Proof.
  intros (line & _ & E)%find_map_Some. apply bind_Some in E as ([name value] & _ & E).
  case_bool_decide; [|done]. apply bind_Some in E as (w & _ & E). by apply parse_u64_range in E.
Qed.

Lemma memory_ratio_number contents r : parse_memory_used_ratio contents = Some r -> is_nan r = false.
Proof.
  unfold parse_memory_used_ratio. intros E. apply bind_Some in E as (t & Ht & E).
  apply bind_Some in E as (a & Ha & E). apply kilobytes_range in Ht, Ha.
  destruct (Z.eqb_spec t 0); [done|]. injection E as <-. by apply ratio_number; auto.
Qed.

Lemma add_ticks_range fields index total idle t i :
  in_u64 total -> in_u64 idle -> add_ticks fields index total idle = Some (t, i) -> in_u64 t /\ in_u64 i.
Proof.
  revert index total idle. induction fields as [|f fields IH]; intros index total idle Ht Hi E.
  - cbn in E. by simplify_eq.
  - cbn [add_ticks] in E. apply bind_Some in E as (n & Hn & E). apply parse_u64_range in Hn.
    apply IH in E; [done| |by case_match]. pose proof (wrap_bound 64 (total + n) ltac:(lia)). widths. lia.
Qed.

Lemma proc_stat_ok contents : ticks_ok (parse_proc_stat_ticks contents).
Proof.
  intros a b E. unfold parse_proc_stat_ticks in E. apply bind_Some in E as (line & _ & E).
  apply bind_Some in E as ([t i] & Hadd & E). case_match; [done|]. simplify_eq.
  eapply add_ticks_range; [..|exact Hadd]; bounds.
Qed.

Lemma network_counters_ok contents interface : ticks_ok (parse_network_counters contents interface).
Proof.
  intros a b E. unfold parse_network_counters in E.
  destruct (find_map _ _) as [o|] eqn:Ef; cbn in E; [|done]. subst.
  apply find_map_Some in Ef as (line & _ & E). unfold network_line in E.
  apply bind_Some in E as ([name counters] & _ & E). case_bool_decide; cbn [orb] in E; [done|].
  case_match; [done|]. case_match; [done|]. injection E as E.
  apply bind_Some in E as (r & Hr & E). apply bind_Some in E as (t & Ht & E). simplify_eq.
  apply bind_Some in Hr as (? & _ & Hr). apply bind_Some in Ht as (? & _ & Ht).
  by apply parse_u64_range in Hr, Ht.
Qed.

(** ** The collector *)

Definition counters_ok (p : PreviousCounters) : Prop :=
  ticks_ok (host_cpu_ticks p) /\ ticks_ok (network_bytes p) /\
  forall i, counter_ok (default None (service_cpu_usec p !! i)).

Definition collector_ok (c : SystemMetricsCollector) : Prop :=
  (exists n, 1 <= n /\ cpu_count c = f64_of n) /\ forall p, previous c = Some p -> counters_ok p.

(** What the search of directories leaves alone. *)
Definition same_counters (c c' : SystemMetricsCollector) : Prop :=
  cpu_count c' = cpu_count c /\ previous c' = previous c /\ c_disk_mount c' = c_disk_mount c.

#[local] Instance same_counters_trans : Transitive same_counters.
Proof. intros a b c (? & ? & ?) (? & ? & ?). unfold same_counters. split_and!; congruence. Qed.

Lemma search_same h i c : same_counters c (search_unit h i c).2.
Proof. unfold search_unit. cbv zeta. repeat case_match; done. Qed.

Lemma directory_same h i c : same_counters c (unit_directory h i c).2.
Proof.
  unfold unit_directory. case_match; [|apply search_same]. case_match; [done|].
  etransitivity; [|apply search_same]. done.
Qed.

Lemma read_unit_spec h i c m u c' :
  read_unit h i c = ((m, u), c') ->
  same_counters c c' /\ (forall b, m = Some b -> 0 <= b) /\ counter_ok u.
Proof.
  unfold read_unit. pose proof (directory_same h i c) as Hs.
  destruct (unit_directory h i c) as [[d|] c1]; intros [= <- <- <-]; split_and!; try done.
  - intros b E. apply fmap_Some in E as (contents & _ & ->). apply wrap_bound. lia.
  - intros b E. apply bind_Some in E as (contents & _ & E). by apply keyed_field_range in E.
Qed.

Lemma read_service_spec h c :
  let r := read_service_counters h c in
  same_counters c r.2 /\
  forall i, (forall b, default None (r.1.1 !! i) = Some b -> 0 <= b) /\ counter_ok (default None (r.1.2 !! i)).
Proof.
  unfold read_service_counters.
  destruct (read_unit h 0 c) as [[m0 u0] c0] eqn:E0. apply read_unit_spec in E0 as (S0 & M0 & U0).
  destruct (read_unit h 1 c0) as [[m1 u1] c1] eqn:E1. apply read_unit_spec in E1 as (S1 & M1 & U1).
  destruct (read_unit h 2 c1) as [[m2 u2] c2] eqn:E2. apply read_unit_spec in E2 as (S2 & M2 & U2).
  cbn [fst snd]. split; [by transitivity c1; [transitivity c0|]|].
  intros [|[|[|i]]]; cbn; try done. all: split; intros ? ?; simplify_eq; eauto.
Qed.

Lemma sample_collector_ok h c : collector_ok c -> collector_ok (sample h c).2.
Proof.
  intros [[n [Hn Ec]] _]. unfold sample. pose proof (read_service_spec h c) as Hr. cbv zeta in Hr.
  destruct (read_service_counters h c) as [[ms us] c'] eqn:E. destruct Hr as [(Ecpu & Eprev & _) Hu].
  cbn [fst snd] in *.
  set (now := mkPreviousCounters _ _ _ us).
  assert (counters_ok now) as Hnow.
  { split_and!; cbn [now host_cpu_ticks network_bytes service_cpu_usec]; [..|apply Hu].
    - destruct (proc_stat h); [apply proc_stat_ok|done].
    - destruct (net_dev h); [apply network_counters_ok|done]. }
  assert (collector_ok (set_previous now c')) as Hok.
  { split; [exists n; split; [done|]; cbn; congruence|]. by intros p [= <-]. }
  destruct (previous c'); [|exact Hok]. by destruct (network_rates _ _ _).
Qed.

Definition collect (c : SystemMetricsCollector) (hosts : list Host) : SystemMetricsCollector :=
  foldl (fun c h => (sample h c).2) c hosts.

Lemma collect_ok stat us mount interface hosts : collector_ok (collect (new_collector stat us mount interface) hosts).
Proof.
  assert (collector_ok (new_collector stat us mount interface)) as H.
  { split; [|done]. exists (default 1 (read_cpu_count stat)). split; [|done].
    unfold read_cpu_count. destruct stat; cbn; [|done]. destruct (0 <? _) eqn:E; cbn; [fw_bool; lia|done]. }
  unfold collect. revert H. generalize (new_collector stat us mount interface).
  induction hosts as [|h hosts IH]; intros c H; [done|]. cbn [foldl]. by apply IH, sample_collector_ok.
Qed.

(** [statvfs] counts blocks in unsigned 64-bit words. *)
Definition host_ok (h : Host) : Prop := forall path b a, statvfs h path = Some (b, a) -> in_u64 b /\ in_u64 a.

(** The blocks of a mount that can be read and has any. *)
Definition disk_blocks (h : Host) (mount_path : str) : option (Z * Z) :=
  let path := if bool_decide (trim mount_path = []) then lit "/" else trim mount_path in
  if existsb (fun c => c =? 0) path then None
  else '(total, available) ← statvfs h path; if total =? 0 then None else Some (total, available).

Lemma memory_spec h :
  is_percent (read_memory_percent h) /\
  (read_memory_percent h = NOT_MEASURED <-> meminfo h ≫= parse_memory_used_ratio = None).
Proof.
  unfold read_memory_percent. destruct (meminfo h ≫= parse_memory_used_ratio) as [r|] eqn:E; [|split; [by left|done]].
  apply bind_Some in E as (contents & _ & E). apply memory_ratio_number in E.
  destruct (percent_spec r) as [? Hn]. split; [done|]. by rewrite Hn, E.
Qed.

Lemma disk_spec h mount :
  host_ok h ->
  is_percent (read_disk_percent h mount) /\ (read_disk_percent h mount = NOT_MEASURED <-> disk_blocks h mount = None).
Proof.
  intros Hh. unfold read_disk_percent, disk_blocks. cbv zeta.
  destruct (existsb _ _); [split; [by left|done]|].
  destruct (statvfs h _) as [[total available]|] eqn:E; [|split; [by left|done]]. apply Hh in E as [Ht Ha].
  cbn [mbind option_bind]. destruct (Z.eqb_spec total 0); [split; [by left|done]|].
  destruct (percent_spec (f64_div (f64_of (saturating_sub total available)) (f64_of total))) as [? Hn].
  split; [done|]. rewrite Hn, ratio_number by auto. done.
Qed.

(** The two columns of the service at [i]. *)
Definition service_columns (memory usec previous_usec : list (option Z)) (micros : Z) (i : nat) (s : ServiceSample) : Prop :=
  (is_reading (memory_mb s) /\ (memory_mb s = NOT_MEASURED <-> default None (memory !! i) = None)) /\
  (is_percent (service_cpu s) /\
   (service_cpu s = NOT_MEASURED <->
      unpaired (default None (usec !! i)) (default None (previous_usec !! i)) micros)).

(** What a sub-sample stores. For a collector started on any machine, after any sub-samples:
    the first stores nothing, and each later one stores, in every column, either
    [NOT_MEASURED] or a reading that fits it, a percentage within 0 and 100.00%; and the
    sentinel stands exactly where the machine gave no answer: a file that could not be read or
    parsed now or at the sub-sample before, a total that did not advance, no time between the
    two. An idle service is never stored as absent, nor an absent one as idle. *)
Theorem sample_columns stat us mount interface hosts h :
  host_ok h ->
  let c := collect (new_collector stat us mount interface) hosts in
  match previous c, (sample h c).1 with
  | None, r => r = None
  | Some _, None => False
  | Some p, Some s =>
      let micros := micros_since (instant h) (taken_at p) in
      let network := net_dev h ≫= fun contents => parse_network_counters contents (c_network_interface c) in
      let '(memory, usec) := (read_service_counters h c).1 in
      (is_percent (cpu_percent s) /\
       (cpu_percent s = NOT_MEASURED <-> stalled (proc_stat h ≫= parse_proc_stat_ticks) (host_cpu_ticks p))) /\
      (is_percent (memory_percent s) /\
       (memory_percent s = NOT_MEASURED <-> meminfo h ≫= parse_memory_used_ratio = None)) /\
      (is_percent (disk_percent s) /\ (disk_percent s = NOT_MEASURED <-> disk_blocks h (c_disk_mount c) = None)) /\
      (is_reading (network_rx_rate s) /\
       (network_rx_rate s = NOT_MEASURED <-> unpaired network (network_bytes p) micros)) /\
      (is_reading (network_tx_rate s) /\
       (network_tx_rate s = NOT_MEASURED <-> unpaired network (network_bytes p) micros)) /\
      service_columns memory usec (service_cpu_usec p) micros 0 (backend s) /\
      service_columns memory usec (service_cpu_usec p) micros 1 (fareward s) /\
      service_columns memory usec (service_cpu_usec p) micros 2 (scylla s)
  end.
Proof.
  intros Hh c. destruct (collect_ok stat us mount interface hosts) as [[n [Hn Ec]] Hp]. fold c in Ec, Hp.
  unfold sample. pose proof (read_service_spec h c) as Hr. cbv zeta in Hr.
  destruct (read_service_counters h c) as [[ms us'] c'] eqn:E. destruct Hr as [(Ecpu & Eprev & Emount) Hu].
  cbn [fst snd] in *. rewrite Eprev. destruct (previous c) as [p|] eqn:Epc; [|done].
  destruct (Hp p eq_refl) as (Htk & _ & Hus). cbv zeta.
  set (micros := micros_since (instant h) (taken_at p)).
  assert (0 <= micros) as Hmicros by (apply Z.div_pos; [unfold saturating_sub; lia|lia]).
  set (network := net_dev h ≫= _).
  pose proof (network_rates_spec network (network_bytes p) micros Hmicros) as Hnet.
  destruct (network_rates _ _ _) as [rx tx]. destruct Hnet as [Hrx Htx].
  cbn [fst cpu_percent memory_percent disk_percent network_rx_rate network_tx_rate backend fareward scylla].
  assert (forall i, service_columns ms us' (service_cpu_usec p) micros i
    (make_service ms us' (service_cpu_usec p) (f64_of micros) (cpu_count c') i)) as Hsv.
  { intros i. destruct (Hu i) as [Hm Hc]. rewrite Ecpu, Ec. split; cbn [make_service memory_mb service_cpu].
    - destruct (default None (ms !! i)) as [b|]; cbn; [|split; [by left|done]]. specialize (Hm b eq_refl).
      assert (0 <= megabytes b <= I16_MAX) as Hmb.
      { unfold megabytes. pose proof (Z.div_pos b (1024 * 1024) Hm ltac:(lia)). widths. lia. }
      split; [by right|]. split; [|done]. unfold NOT_MEASURED. lia.
    - by apply service_cpu_spec. }
  split_and!; try apply Hsv; try apply Hrx; try apply Htx; try apply memory_spec.
  - apply host_cpu_spec; [|done]. destruct (proc_stat h); [apply proc_stat_ok|done].
  - apply host_cpu_spec; [|done]. destruct (proc_stat h); [apply proc_stat_ok|done].
  - rewrite Emount. by apply disk_spec.
  - rewrite Emount. by apply disk_spec.
Qed.

(** ** The search for a unit *)

(** A directory at the path below [n]. *)
Fixpoint dir_below (path : Path) (n : Node) : Prop :=
  match path with
  | [] => True
  | name :: rest =>
      exists entries sub, n = Dir (Some entries) /\ (name, sub) ∈ entries /\ is_dir sub = true /\ dir_below rest sub
  end.

Lemma find_map_None {A B} (f : A -> option B) l : find_map f l = None <-> forall x, x ∈ l -> f x = None.
Proof.
  induction l as [|x l IH]; cbn [find_map]; [split; [by intros _ x Hx%not_elem_of_nil|done]|].
  split.
  - intros E y Hy. destruct (f x) eqn:Ex; [done|]. apply elem_of_cons in Hy as [->|Hy]; [done|]. by apply IH.
  - intros H. rewrite (H x) by (by left). apply IH. intros y Hy. apply H. by right.
Qed.

Lemma elem_subdirectories entries name sub :
  (name, sub) ∈ subdirectories entries <-> (name, sub) ∈ entries /\ is_dir sub = true.
Proof. unfold subdirectories. rewrite list_elem_of_filter. cbn. tauto. Qed.

Lemma named_spec u (dirs : list (str * Node)) :
  existsb (fun entry => bool_decide (entry.1 = u)) dirs = true <-> exists sub, (u, sub) ∈ dirs.
Proof.
  rewrite existsb_exists. split.
  - intros ([name sub] & Hin & E). apply bool_decide_eq_true in E. cbn in E. subst.
    exists sub. by apply list_elem_of_In.
  - intros [sub Hin]. exists (u, sub). split; [by apply list_elem_of_In|]. by apply bool_decide_eq_true.
Qed.

Lemma find_sound d root u path :
  find_cgroup_directory root u d = Some path ->
  dir_below path root /\ List.last path [] = u /\ path <> [] /\ (length path <= d)%nat.
Proof.
  revert root path. induction d as [|d IH]; intros root path E; cbn [find_cgroup_directory] in E; [done|].
  destruct root as [|[entries|]]; try done. cbv zeta in E. destruct (existsb _ _) eqn:En.
  - injection E as <-. apply named_spec in En as [sub Hin]. apply elem_subdirectories in Hin as [? ?].
    split_and!; [|done|done|cbn; lia]. by exists entries, sub.
  - apply find_map_Some in E as ([name sub] & Hin & E). apply elem_subdirectories in Hin as [Hin Hd].
    apply fmap_Some in E as (rest & E & ->). apply IH in E as (Hb & Hl & Hne & Hlen).
    split_and!; [by exists entries, sub| |done|cbn; lia]. by destruct rest.
Qed.

Lemma find_complete d root u path :
  dir_below path root -> List.last path [] = u -> path <> [] -> (length path <= d)%nat ->
  find_cgroup_directory root u d <> None.
Proof.
  revert root path. induction d as [|d IH]; intros root path Hb Hl Hne Hlen; [by destruct path; cbn in Hlen; [|lia]|].
  destruct path as [|name rest]; [done|]. destruct Hb as (entries & sub & -> & Hin & Hd & Hb).
  cbn [find_cgroup_directory]. cbv zeta. destruct (existsb _ _) eqn:En; [done|].
  rewrite find_map_None. intros Hnone.
  specialize (Hnone (name, sub) ltac:(by apply elem_subdirectories)). cbn [fst snd] in Hnone.
  destruct rest as [|name' rest].
  - cbn in Hl. subst. apply not_true_iff_false in En. apply En, named_spec. exists sub. by apply elem_subdirectories.
  - apply (IH sub (name' :: rest)); [done| |done|cbn in *; lia|].
    + cbn in Hl |- *. exact Hl.
    + by apply fmap_None in Hnone.
Qed.

(** The cgroup search is exact. It answers a path exactly when a directory of the unit's name
    lies at most [remaining_depth] levels below the root, through directories that can be read,
    and the path it answers is one of these: every slice of the packaging is found, files and
    deeper namesakes never are. *)
Theorem find_cgroup_directory_exact root u d :
  (forall path, find_cgroup_directory root u d = Some path ->
     dir_below path root /\ List.last path [] = u /\ path <> [] /\ (length path <= d)%nat) /\
  (find_cgroup_directory root u d = None <->
     forall path, dir_below path root -> path <> [] -> (length path <= d)%nat -> List.last path [] <> u).
Proof.
  split; [intros path; apply find_sound|]. split.
  - intros E path Hb Hne Hlen Hl. by apply (find_complete d root u path).
  - intros H. destruct (find_cgroup_directory root u d) as [path|] eqn:E; [|done].
    apply find_sound in E as (? & Hl & ? & ?). by destruct (H path).
Qed.

(** ** At concrete machines *)

Module Machine.

(** The files of the unit tests. *)
Definition line (s : string) : str := lit s ++ [10].
Definition stat_at (total idle : string) : str :=
  line ("cpu  " ++ total ++ " 0 0 " ++ idle ++ " 0 0") ++ line "cpu0 50 10" ++ line "cpu1 50 10".
Definition meminfo_file : str :=
  line "MemTotal:       16000000 kB" ++ line "MemFree:         1000000 kB" ++ line "MemAvailable:    4000000 kB".
Definition net_file (received transmitted : string) : str :=
  line "Inter-|   Receive" ++ line "    lo: 9 1 0 0 0 0 0 0 9 1 0 0 0 0 0 0" ++
  line ("  eth0: " ++ received ++ " 1 0 0 0 0 0 0 " ++ transmitted ++ " 1 0 0 0 0 0 0").
Definition scylla_unit : Node := Dir (Some
  [(lit "memory.stat", File (Some (line "anon 12308480" ++ line "file 56344576" ++ line "file_mapped 29622272")));
   (lit "cpu.stat", File (Some (line "usage_usec 2000000")))]).
Definition tree : Node := Dir (Some
  [(lit "cgroup.procs", File None);
   (lit "scylla.slice", Dir (Some [(lit "scylla-server.slice", Dir (Some [(lit "scylla-server.service", scylla_unit)]))]))]).

Definition machine (at_ : Z) (total idle received transmitted : string) : Host :=
  mkHost at_ (fun _ => at_) (Some (stat_at total idle)) (Some meminfo_file) (Some (net_file received transmitted))
    (fun _ => Some (1000, 250)) tree.

Definition units_of_tests : ServiceUnits :=
  mkServiceUnits (lit "genix.service") (lit "fareward.service") (lit "scylla-server.service").
Definition before : Host := machine 0 "400200" "599800" "294880000" "297440000".
Definition now : Host := machine 1000000000 "401000" "600000" "300000000" "300000000".
Definition collecting : SystemMetricsCollector :=
  new_collector (Some (stat_at "1" "1")) units_of_tests (lit "/") [].

(** The second just passed: 80.00% busy, 75.00% of the memory and the disk used, 5.12 MB received
    and half of it transmitted; the backend is not on this box. *)
Lemma sample_columns_witness :
  exists s, (sample now (collect collecting [before])).1 = Some s /\
    columns s = [8000; 7500; 7500; 1000; 500; -1; -1; -1; -1; 39; 0] /\
    memory_mb (backend s) = NOT_MEASURED.
Proof.
  assert (host_ok now) as Hok by (intros path b a [= <- <-]; split; bounds).
  pose proof (sample_columns (Some (stat_at "1" "1")) units_of_tests (lit "/") [] [before] now Hok) as Hs.
  cbv zeta in Hs. fold collecting in Hs.
  destruct (previous (collect collecting [before])) as [p|] eqn:Ep; [|vm_compute in Ep; discriminate Ep].
  destruct (sample now (collect collecting [before])).1 as [s|] eqn:Es; [|destruct Hs].
  exists s. split; [reflexivity|].
  assert (columns s = [8000; 7500; 7500; 1000; 500; -1; -1; -1; -1; 39; 0]) as Hc.
  { vm_compute in Es. injection Es as <-. vm_compute. reflexivity. }
  split; [exact Hc|].
  destruct (read_service_counters now (collect collecting [before])).1 as [memory usec] eqn:Er.
  destruct Hs as (_ & _ & _ & _ & _ & [[_ Hb] _] & _). apply Hb.
  vm_compute in Er. injection Er as <- <-. reflexivity.
Defined.

(** The vectors of the unit tests. *)
Lemma encodings_of_the_tests :
  map (fun n => percent_hundredths (f64_div (f64_of n) (f64_of 10000))) [2345; 0; 10000; 35000; -5000] =
    [2345; 0; 10000; 10000; 0] /\
  percent_hundredths S754_nan = NOT_MEASURED /\
  map megabytes [0; 32 * 1024 * 1024; U64_MAX] = [0; 32; I16_MAX] /\
  map (fun n => network_rate (f64_of n)) [0; 3000; 5120; 51200; 1000000000] = [0; 1; 1; 10; I16_MAX] /\
  parse_proc_stat_ticks (line "cpu  100 20 30 400 5 0 0 0 0 0" ++ line "intr 999") = Some (555, 400) /\
  parse_keyed_field (line "usage_usec 1234567" ++ line "user_usec 9") (lit "usage_usec") = Some 1234567 /\
  parse_network_counters (net_file "500000" "250000") (lit "wlan0") = None.
Proof. vm_compute. repeat split; reflexivity. Qed.

End Machine.
