(* ===== verification/MetricsWriter.v ===== *)
(** * MetricsWriter: sub-samples into rows, src/src/sysmetrics/writer.rs

    The writer's loop as a fold over its ticks. A tick carries the wall clock, the machine the
    collector reads, and what the database would answer; the table is the map of its keys to the
    values bound. [taken] and [prepares] are ghosts: the windows whose peaks were taken for a
    row, with their index, and the instants of the prepares. Not modelled: the CQL text, the TTL,
    and the timers that make the ticks. *)

From S2P Require Import Prelude Float64 BridgeToken BridgeAuth Config SysMetrics.

Definition SECONDS_PER_DAY : Z := 86400.
(** Nanoseconds. *)
Definition PREPARE_RETRY_INTERVAL : Z := 60 * 1000000000.

(** What comes of an insert: it may have been applied although it failed. *)
Inductive Insert := Applied | FailedApplied | FailedLost.

Record Tick := mkTick {
  wall_clock : Z;        (* unix_seconds() *)
  host : Host;
  clock : Z;             (* Instant::now() in ensure_prepared *)
  prepare_works : bool;
  insert_ends : Insert;
}.

Record ServerMetricsWriter := mkServerMetricsWriter {
  insert_row : bool;
  last_prepare_attempt : option Z;
  collector : SystemMetricsCollector;
  window : WindowPeaks;
  pending_row_index : option Z;
  rows_written : Z;
  write_failures : Z;
  server_metrics : gmap (Z * Z) (list Z);
  taken : list (Z * MetricsSample);
  prepares : list Z;
}.

(** [new] and the start of [spawn]; [table] is what the database holds. *)
Definition start (c : SystemMetricsCollector) (table : gmap (Z * Z) (list Z)) : ServerMetricsWriter :=
  mkServerMetricsWriter false None c no_peaks None 0 0 table [] [].

Definition count_failure (w : ServerMetricsWriter) : ServerMetricsWriter :=
  mkServerMetricsWriter (insert_row w) (last_prepare_attempt w) (collector w) (window w) (pending_row_index w)
    (rows_written w) (wrap 64 (write_failures w + 1)) (server_metrics w) (taken w) (prepares w).
Definition count_written (w : ServerMetricsWriter) : ServerMetricsWriter :=
  mkServerMetricsWriter (insert_row w) (last_prepare_attempt w) (collector w) (window w) (pending_row_index w)
    (wrap 64 (rows_written w + 1)) (write_failures w) (server_metrics w) (taken w) (prepares w).
Definition set_row (k : Z * Z) (values : list Z) (w : ServerMetricsWriter) : ServerMetricsWriter :=
  mkServerMetricsWriter (insert_row w) (last_prepare_attempt w) (collector w) (window w) (pending_row_index w)
    (rows_written w) (write_failures w) (<[k := values]> (server_metrics w)) (taken w) (prepares w).
Definition clear_window (row_index : Z) (w : ServerMetricsWriter) : ServerMetricsWriter :=
  mkServerMetricsWriter (insert_row w) (last_prepare_attempt w) (collector w) (take (window w)).2
    (pending_row_index w) (rows_written w) (write_failures w) (server_metrics w)
    (taken w ++ [(row_index, (take (window w)).1)]) (prepares w).
Definition attempt_prepare (now : Z) (works : bool) (w : ServerMetricsWriter) : ServerMetricsWriter :=
  mkServerMetricsWriter works (Some now) (collector w) (window w) (pending_row_index w)
    (rows_written w) (write_failures w) (server_metrics w) (taken w) (prepares w ++ [now]).
Definition take_sample (reading : option MetricsSample) (c : SystemMetricsCollector) (row_index : Z)
    (w : ServerMetricsWriter) : ServerMetricsWriter :=
  mkServerMetricsWriter (insert_row w) (last_prepare_attempt w) c
    (match reading with Some s => absorb (window w) s | None => window w end) (Some row_index)
    (rows_written w) (write_failures w) (server_metrics w) (taken w) (prepares w).

Definition ensure_prepared (e : Tick) (w : ServerMetricsWriter) : bool * ServerMetricsWriter :=
  if insert_row w then (true, w)
  else
    let waiting := match last_prepare_attempt w with
                   | Some attempted => saturating_sub (clock e) attempted <? PREPARE_RETRY_INTERVAL
                   | None => false end in
    if waiting then (false, w) else (prepare_works e, attempt_prepare (clock e) (prepare_works e) w).

(** The day and the slot in it of a window. *)
Definition row_key (row_index row_seconds : Z) : Z * Z :=
  let window_start := swrap 64 (row_index * row_seconds) in
  (swrap 16 (Z.quot window_start SECONDS_PER_DAY),
   swrap 16 (Z.quot (Z.rem window_start SECONDS_PER_DAY) row_seconds)).

Definition row_values (key : Z * Z) (s : MetricsSample) : list Z :=
  [key.1; key.2; cpu_percent s; memory_percent s; disk_percent s; network_rx_rate s; network_tx_rate s;
   memory_mb (backend s); service_cpu (backend s); memory_mb (fareward s); service_cpu (fareward s);
   memory_mb (scylla s); service_cpu (scylla s)].

Definition write_window (row_index row_seconds : Z) (e : Tick) (w : ServerMetricsWriter) : ServerMetricsWriter :=
  if is_empty (window w) then w
  else
    let s := (take (window w)).1 in
    let w := clear_window row_index w in
    match ensure_prepared e w with
    | (false, w) => count_failure w
    | (true, w) =>
        let key := row_key row_index row_seconds in
        let values := row_values key s in
        match insert_ends e with
        | Applied => count_written (set_row key values w)
        | FailedApplied => count_failure (set_row key values w)
        | FailedLost => count_failure w
        end
    end.

(** The index of the window a tick falls in. *)
Definition row_index_of (row_seconds : Z) (e : Tick) : Z := Z.quot (wall_clock e) row_seconds.

(** The branch of [ticker.tick()]. *)
Definition tick (row_seconds : Z) (w : ServerMetricsWriter) (e : Tick) : ServerMetricsWriter :=
  let row_index := row_index_of row_seconds e in
  let w := match pending_row_index w with
           | Some pending => if pending =? row_index then w else write_window pending row_seconds e w
           | None => w
           end in
  let '(reading, c) := sample (host e) (collector w) in
  take_sample reading c row_index w.

(** After the loop: the window in progress is written as it stands. *)
Definition shutdown (row_seconds : Z) (e : Tick) (w : ServerMetricsWriter) : ServerMetricsWriter :=
  match pending_row_index w with
  | Some pending => write_window pending row_seconds e w
  | None => w
  end.

Definition run_writer (row_seconds : Z) (ticks : list Tick) (last : Tick) (w : ServerMetricsWriter) :
    ServerMetricsWriter :=
  shutdown row_seconds last (foldl (tick row_seconds) w ticks).
