(* ===== verification/MetricsWriterLaws.v ===== *)
(** * MetricsWriterLaws: every sub-sample in one row, every row of one window

    The loop's rows are the reference grouping of its sub-samples by window; a row's key names
    its window; and the table is prepared for at most once a minute. *)

From Stdlib Require Import String.
From S2P Require Import Prelude Float64 BridgeToken BridgeAuth Config ConfigLaws SysMetrics SysMetricsLaws.
From S2P Require Import MetricsWriter.

(** ** The reference: sub-samples grouped by window *)

Abbreviation Readings := (list (Z * option MetricsSample)).

(** What the ticks read, each with the index of its window. *)
Fixpoint readings (rs : Z) (c : SystemMetricsCollector) (ticks : list Tick) : Readings :=
  match ticks with
  | [] => []
  | e :: rest => (row_index_of rs e, (sample (host e) c).1) :: readings rs (sample (host e) c).2 rest
  end.

Definition opt (r : option MetricsSample) : list MetricsSample := match r with Some s => [s] | None => [] end.

(** Sub-samples before the first window of [ws]: of the same window, or of one of their own. *)
Definition merge (i : Z) (samples : list MetricsSample) (ws : list (Z * list MetricsSample)) :
    list (Z * list MetricsSample) :=
  match ws with
  | (j, more) :: rest => if i =? j then (j, samples ++ more) :: rest else (i, samples) :: ws
  | [] => [(i, samples)]
  end.

Fixpoint windows (l : Readings) : list (Z * list MetricsSample) :=
  match l with
  | [] => []
  | (i, reading) :: rest => merge i (opt reading) (windows rest)
  end.

(** The rows to write: the windows that were observed. *)
Definition rows (ws : list (Z * list MetricsSample)) : list (Z * MetricsSample) :=
  map (fun x => (x.1, peaks_of x.2)) (filter (fun x => x.2 <> []) ws).

Lemma merge_same i a b ws : merge i a (merge i b ws) = merge i (a ++ b) ws.
Proof.
  destruct ws as [|[j more] ws]; cbn [merge]; [by rewrite Z.eqb_refl|].
  destruct (Z.eqb_spec i j) as [->|]; cbn [merge]; rewrite Z.eqb_refl; [by rewrite app_assoc|done].
Qed.

Lemma merge_other i j a b ws : i <> j -> merge i a (merge j b ws) = (i, a) :: merge j b ws.
Proof.
  intros Hne. destruct ws as [|[k more] ws]; cbn [merge].
  - by apply Z.eqb_neq in Hne as ->.
  - destruct (Z.eqb_spec j k) as [->|]; cbn [merge]; by apply Z.eqb_neq in Hne as ->.
Qed.

Lemma rows_cons i samples ws :
  rows ((i, samples) :: ws) = (if bool_decide (samples = []) then [] else [(i, peaks_of samples)]) ++ rows ws.
Proof.
  unfold rows. rewrite filter_cons. case_bool_decide; [by rewrite decide_False by auto|by rewrite decide_True].
Qed.

Lemma windows_concat l : concat (windows l).*2 = omap snd l.
Proof.
  induction l as [|[i r] l IH]; [done|]. cbn [windows omap list_omap snd]. rewrite <- IH. clear IH.
  destruct (windows l) as [|[j more] ws]; cbn [merge].
  - destruct r; cbn; by rewrite ?app_nil_r.
  - destruct (i =? j); destruct r; done.
Qed.

(** ** One window *)

Definition accumulated (w : ServerMetricsWriter) (samples : list MetricsSample) : Prop :=
  window w = mkWindowPeaks (peaks_of samples) (zlen samples).

(** What the table gained comes from windows that were taken. *)
Definition grown (rs : Z) (w w' : ServerMetricsWriter) : Prop :=
  (forall x, x ∈ taken w -> x ∈ taken w') /\
  forall k v, server_metrics w' !! k = Some v ->
    server_metrics w !! k = Some v \/
    exists i s, (i, s) ∈ taken w' /\ k = row_key i rs /\ v = row_values k s.

#[local] Instance grown_pre rs : PreOrder (grown rs).
Proof.
  split; [by split; auto|]. intros w1 w2 w3 [Ht12 H12] [Ht23 H23]. split; [auto|].
  intros k v [H|?]%H23; [|by right]. destruct (H12 k v H) as [?|(i & s & ? & ?)]; [by left|].
  right. exists i, s. split; [by apply Ht23|done].
Qed.

Lemma prepare_same e w b w' :
  ensure_prepared e w = (b, w') ->
  collector w' = collector w /\ window w' = window w /\ pending_row_index w' = pending_row_index w /\
  rows_written w' = rows_written w /\ write_failures w' = write_failures w /\
  taken w' = taken w /\ server_metrics w' = server_metrics w.
Proof. unfold ensure_prepared. repeat case_match; intros; by simplify_eq. Qed.

Definition counted (w : ServerMetricsWriter) : Prop :=
  0 <= rows_written w /\ 0 <= write_failures w /\ rows_written w + write_failures w = zlen (taken w).

Lemma write_window_spec i rs e w samples :
  accumulated w samples -> counted w -> zlen (taken w) + 1 < 2 ^ 64 ->
  let w' := write_window i rs e w in
  taken w' = taken w ++ (if bool_decide (samples = []) then [] else [(i, peaks_of samples)]) /\
  window w' = no_peaks /\ collector w' = collector w /\ pending_row_index w' = pending_row_index w /\
  counted w' /\ grown rs w w'.
Proof.
  intros Ha (Hr & Hf & Hn) Hl. unfold accumulated in Ha. unfold write_window. rewrite Ha. unfold is_empty, absorbed.
  destruct samples as [|s samples]; [cbn; rewrite app_nil_r; by split_and!|].
  destruct (Z.eqb_spec (zlen (s :: samples)) 0); [done|]. cbv zeta. rewrite bool_decide_false by done.
  destruct (ensure_prepared e (clear_window i w)) as [b w1] eqn:E. apply prepare_same in E.
  cbn [clear_window collector window pending_row_index rows_written write_failures taken server_metrics] in E.
  rewrite Ha in E. cbn [take fst snd peaks] in *. destruct E as (Ec & Ew & Ep & Er & Ef & Et & Em).
  assert (zlen (taken w1) = zlen (taken w) + 1) as Elen by (rewrite Et, length_app; cbn; lia).
  assert (grown rs w w1) as Hg1.
  { split; [intros x Hx; rewrite Et; apply elem_of_app; by left|]. rewrite Em. by left. }
  assert (forall v, v = row_values (row_key i rs) (peaks_of (s :: samples)) ->
    grown rs w (set_row (row_key i rs) v w1)) as Hg2.
  { intros v ->. split; [intros x Hx; cbn; rewrite Et; apply elem_of_app; by left|].
    cbn [set_row server_metrics taken]. intros k v' Hk. destruct (decide (k = row_key i rs)) as [->|].
    - rewrite lookup_insert_eq in Hk. right. exists i, (peaks_of (s :: samples)). split; [|by simplify_eq].
      rewrite Et. apply elem_of_app. right. by left.
    - rewrite lookup_insert_ne in Hk by done. by apply Hg1. }
  assert (peaks (window w) = peaks_of (s :: samples)) as Ep' by (by rewrite Ha). rewrite ?Ep'.
  destruct b; [destruct (insert_ends e)|];
    (split_and!; [done..|unfold counted; cbn [count_written count_failure set_row rows_written write_failures taken];
      rewrite ?Elen, wrap_small by lia; lia|]); first [exact (Hg2 _ eq_refl)|exact Hg1].
Qed.

(** ** The loop *)

Lemma absorb_accumulated w samples reading c i :
  accumulated w samples -> zlen samples + 1 < 2 ^ 32 ->
  accumulated (take_sample reading c i w) (samples ++ opt reading).
Proof.
  unfold accumulated, peaks_of. intros Ha Hl. cbn [take_sample window]. rewrite Ha.
  destruct reading as [s|]; cbn [opt]; [|by rewrite app_nil_r].
  unfold absorb. cbn [peaks absorbed]. rewrite wrap_small by lia.
  rewrite foldl_app, length_app. cbn. f_equal. lia.
Qed.

Lemma loop_spec rs ticks last w p samples :
  pending_row_index w = Some p -> accumulated w samples -> counted w ->
  zlen samples + zlen ticks < 2 ^ 32 -> zlen (taken w) + zlen ticks + 1 < 2 ^ 63 ->
  let w' := run_writer rs ticks last w in
  taken w' = taken w ++ rows (merge p samples (windows (readings rs (collector w) ticks))) /\
  window w' = no_peaks /\ counted w' /\ grown rs w w'.
Proof.
  revert w p samples. induction ticks as [|e ticks IH]; intros w p samples Hp Ha Hc Hs Ht; cbv zeta; unfold run_writer.
  - cbn [foldl readings windows merge length] in *. unfold shutdown. rewrite Hp.
    destruct (write_window_spec p rs last w samples Ha Hc ltac:(lia)) as (Et & Ew & _ & _ & Hc' & Hg).
    rewrite rows_cons. cbn [rows filter map]. rewrite Et. cbn. by rewrite app_nil_r.
  - cbn [foldl readings windows length] in *. fold (run_writer rs ticks last (tick rs w e)).
    unfold tick. rewrite Hp. destruct (Z.eqb_spec p (row_index_of rs e)) as [->|Hne].
    + destruct (sample (host e) (collector w)) as [reading c]. cbn [fst snd]. rewrite merge_same.
      assert (zlen (opt reading) <= 1) by (destruct reading; cbn; lia).
      apply (IH (take_sample reading c (row_index_of rs e) w)); [done| |done|rewrite length_app; lia|cbn [taken take_sample]; lia].
      apply absorb_accumulated; [done|lia].
    + destruct (write_window_spec p rs e w samples Ha Hc ltac:(lia)) as (Et & Ew & Ec & Ep & Hc' & Hg).
      rewrite Ec. destruct (sample (host e) (collector w)) as [reading c]. cbn [fst snd].
      assert (zlen (opt reading) <= 1) by (destruct reading; cbn; lia).
      assert (zlen (taken (write_window p rs e w)) <= zlen (taken w) + 1) as Hlt
        by (rewrite Et, length_app; case_bool_decide; cbn; lia).
      destruct (IH (take_sample reading c (row_index_of rs e) (write_window p rs e w)) (row_index_of rs e)
        (opt reading)) as (Et' & Ew' & Hc'' & Hg'); [done| |done|lia|cbn [taken take_sample]; lia|].
      { apply (absorb_accumulated _ []); [exact Ew|cbn; lia]. }
      rewrite merge_other, rows_cons by done. split_and!; try done.
      * rewrite Et'. cbn [taken take_sample collector]. by rewrite Et, <- app_assoc.
      * transitivity (write_window p rs e w); [done|exact Hg'].
Qed.

(** C36: the writer's rows are the windows of its sub-samples. Grouping the sub-samples in order by
    the window their tick fell in, each group is taken for one row, under its own index, with
    its peaks; a window that observed nothing is taken for none; the groups together are all the
    sub-samples, each once; what is taken is either written or counted as failed; and whatever
    the table gained is the row of a window that was taken, at that window's key. *)
Theorem rows_are_windows rs ticks last c table :
  zlen ticks < 2 ^ 32 ->
  let w := run_writer rs ticks last (start c table) in
  let l := readings rs c ticks in
  taken w = rows (windows l) /\ concat (windows l).*2 = omap snd l /\
  rows_written w + write_failures w = zlen (taken w) /\ window w = no_peaks /\
  forall k v, server_metrics w !! k = Some v ->
    table !! k = Some v \/ exists i s, (i, s) ∈ taken w /\ k = row_key i rs /\ v = row_values k s.
Proof.
  intros Hl. destruct ticks as [|e ticks]; cbn zeta; [split_and!; try done; by left|].
  unfold run_writer. cbn [foldl]. fold (run_writer rs ticks last (tick rs (start c table) e)).
  unfold tick. cbn [start pending_row_index collector].
  cbn [readings windows]. destruct (sample (host e) c) as [reading c'] eqn:Es. cbn [fst snd].
  assert (zlen (opt reading) <= 1) by (destruct reading; cbn; lia). cbn [length] in Hl.
  destruct (loop_spec rs ticks last (take_sample reading c' (row_index_of rs e) (start c table))
    (row_index_of rs e) (opt reading)) as (Et & Ew & (_ & _ & Hc) & _ & Hg); [done| |by unfold counted|lia|cbn; lia|].
  { apply (absorb_accumulated (start c table) []); [done|cbn; lia]. }
  split_and!; try done. rewrite <- windows_concat. cbn [windows]. done.
Qed.

(** ** Keys *)

(** The day and the slot of a window, by its index, where a day has [k] slots of [rs] seconds. *)
Lemma slot_of t rs k :
  0 < rs -> 0 < k -> (t mod (rs * k)) / rs = (t / rs) mod k.
Proof.
  intros Hr Hk. rewrite Z.rem_mul_r by lia.
  replace (t mod rs + rs * ((t / rs) mod k)) with ((t / rs) mod k * rs + t mod rs) by lia.
  rewrite Z.div_add_l by lia. rewrite (Z.div_small (t mod rs)) by (apply Z.mod_pos_bound; lia). lia.
Qed.

Lemma row_key_window t rs k :
  3 <= rs -> 0 < k -> rs * k = 86400 -> 0 <= t < 2 ^ 15 * 86400 ->
  row_key (Z.quot t rs) rs = ((t / rs) / k, (t / rs) mod k) /\
  0 <= (t / rs) / k <= I16_MAX /\ 0 <= (t / rs) mod k < k /\ k <= I16_MAX.
Proof.
  intros Hr Hk Hrk Ht. rewrite Z.quot_div_nonneg by lia.
  assert (0 <= t / rs) as H0 by (apply Z.div_pos; lia).
  assert (t / rs * rs <= t) as H1 by (rewrite Z.mul_comm; apply Z.mul_div_le; lia).
  pose proof (Z.mod_pos_bound (t / rs) k Hk) as Hm.
  assert (0 <= (t / rs) / k <= I16_MAX) as Hd.
  { rewrite Z.div_div, Hrk by lia. split; [apply Z.div_pos; lia|].
    apply Z.lt_succ_r, Z.div_lt_upper_bound; [lia|]. widths. lia. }
  assert (k <= I16_MAX) as Hki by (widths; nia).
  split_and!; try lia. unfold row_key, SECONDS_PER_DAY. rewrite swrap_i64_small by (widths; nia).
  rewrite Z.quot_div_nonneg, Z.rem_mod_nonneg by nia. rewrite <- Hrk at 1 2.
  rewrite (Z.mul_comm (t / rs) rs), Z.div_mul_cancel_l by lia.
  rewrite Z.mul_mod_distr_l by lia. rewrite (Z.mul_comm rs), Z.quot_mul by lia.
  rewrite !(swrap_small 16) by (widths; lia). done.
Qed.

(** A row's key names its window. With the row widths the configuration accepts and a clock
    before September 2059: the key of the window of a second is that second's day and slot in the
    day, both within their columns, the slot below the number of slots of a day; and two seconds
    have the same key exactly when they fall in the same window. *)
Theorem row_key_exact m t t' :
  server_metrics_valid m -> 0 <= t < 2 ^ 15 * 86400 -> 0 <= t' < 2 ^ 15 * 86400 ->
  let rs := row_seconds m in
  row_key (Z.quot t rs) rs = (t / 86400, (t mod 86400) / rs) /\
  0 <= t / 86400 <= I16_MAX /\ 0 <= (t mod 86400) / rs /\ (t mod 86400) / rs < 86400 / rs /\
  86400 / rs <= I16_MAX /\
  (row_key (Z.quot t rs) rs = row_key (Z.quot t' rs) rs <-> Z.quot t rs = Z.quot t' rs).
Proof.
  intros ([Hr _] & [k Hk] & _) Ht Ht' rs. fold rs in Hr, Hk.
  assert (0 < k) as Hk0 by nia. assert (rs * k = 86400) as Hrk by lia.
  destruct (row_key_window t rs k Hr Hk0 Hrk Ht) as (E & Hd & Hs & Hki).
  destruct (row_key_window t' rs k Hr Hk0 Hrk Ht') as (E' & _).
  rewrite E, E', <- Hrk, slot_of, <- Z.div_div, (Z.mul_comm rs k), Z.div_mul by lia.
  rewrite !Z.quot_div_nonneg by lia.
  split_and!; try done; try lia. split; [|by intros ->]. intros [= Hd' Hs'].
  rewrite (Z.div_mod (t / rs) k), (Z.div_mod (t' / rs) k), Hd', Hs' by lia. done.
Qed.

(** ** Prepares *)

(** Each prepare at least a minute after the one before. *)
Fixpoint spaced (l : list Z) : Prop :=
  match l with
  | a :: ((b :: _) as rest) => a + PREPARE_RETRY_INTERVAL <= b /\ spaced rest
  | _ => True
  end.

Definition prepares_ok (w : ServerMetricsWriter) : Prop :=
  spaced (prepares w) /\ last_prepare_attempt w = last (prepares w).

Lemma spaced_snoc l a :
  spaced l -> (forall b, last l = Some b -> b + PREPARE_RETRY_INTERVAL <= a) -> spaced (l ++ [a]).
Proof.
  induction l as [|x [|y l] IH]; intros Hs Hl; [done|by split; [apply Hl|]|].
  destruct Hs as [? Hs]. split; [done|]. apply IH; [done|exact Hl].
Qed.

Lemma write_window_prepares i rs e w : prepares_ok w -> prepares_ok (write_window i rs e w).
Proof.
  intros Hp. unfold write_window. case_match; [done|]. cbv zeta.
  assert (prepares_ok (ensure_prepared e (clear_window i w)).2) as Hok.
  { unfold ensure_prepared. cbn [clear_window insert_row last_prepare_attempt]. case_match; [done|].
    destruct Hp as [Hs Hl]. case_match eqn:E; [done|]. cbn. split; cbn; [|by rewrite last_snoc].
    apply spaced_snoc; [done|]. intros b Hb. rewrite Hl, Hb in E. unfold saturating_sub in E.
    fw_bool. unfold PREPARE_RETRY_INTERVAL in *. lia. }
  destruct (ensure_prepared e (clear_window i w)) as [[] w1]; cbn [snd] in Hok; [by destruct (insert_ends e)|done].
Qed.

Lemma tick_prepares rs w e : prepares_ok w -> prepares_ok (tick rs w e).
Proof.
  intros Hp. unfold tick. destruct (sample _ _) as [reading c] eqn:E.
  destruct (pending_row_index w); [case_match|]; try done. exact (write_window_prepares _ _ _ _ Hp).
Qed.

Lemma run_prepares rs ticks end_tick w :
  prepares_ok w -> prepares_ok (run_writer rs ticks end_tick w).
Proof.
  unfold run_writer. revert w. induction ticks as [|e ticks IH]; intros w Hp; cbn [foldl].
  - unfold shutdown. case_match; [by apply write_window_prepares|done].
  - by apply IH, tick_prepares.
Qed.

(** A missing table costs one query a minute. Whatever the ticks and the database's answers,
    each prepare of the insert comes at least [PREPARE_RETRY_INTERVAL] after the one before. *)
Theorem prepares_spaced rs ticks end_tick c table : spaced (prepares (run_writer rs ticks end_tick (start c table))).
Proof. by apply run_prepares. Qed.

(** ** At a concrete machine *)

Module Rows.

Import Machine.

(** Four seconds over two windows of five, the table missing until the second write. *)
Definition at_second (t : Z) (works : bool) (ends : Insert) : Tick :=
  mkTick t (if t =? 1000000003 then before else now) ((t - 1000000000) * 60 * 1000000000) works ends.
Definition ticks : list Tick :=
  [at_second 1000000003 false Applied; at_second 1000000004 false Applied;
   at_second 1000000005 false Applied; at_second 1000000006 true Applied].
Definition stop : Tick := at_second 1000000007 true Applied.
Definition final : ServerMetricsWriter := run_writer 5 ticks stop (start collecting ∅).

Lemma rows_are_windows_witness :
  map fst (taken final) = [200000000; 200000001] /\ rows_written final = 1 /\ write_failures final = 1 /\
  taken final = rows (windows (readings 5 collecting ticks)).
Proof.
  destruct (rows_are_windows 5 ticks stop collecting ∅ ltac:(cbn; lia)) as (E & _).
  split_and!; [vm_compute; reflexivity|vm_compute; reflexivity|vm_compute; reflexivity|exact E].
Defined.

Definition five : ServerMetricsConfig :=
  mkServerMetricsConfig true 1 5 (30 * 86400) (lit "/") [] [] [] [].

Lemma row_key_exact_witness :
  server_metrics_valid five /\ row_key (Z.quot 1767225604 5) 5 = (20454, 0) /\
  row_key (Z.quot 1767225604 5) 5 <> row_key (Z.quot 1767225605 5) 5.
Proof.
  assert (server_metrics_valid five) as Hv.
  { unfold server_metrics_valid; cbn. split_and!; try (widths; lia); [by exists 17280|by exists 5]. }
  destruct (row_key_exact five 1767225604 1767225605 Hv ltac:(lia) ltac:(lia)) as (E & _ & _ & _ & _ & Hi).
  split; [exact Hv|]. split; [exact E|]. intros Hk. apply Hi in Hk. vm_compute in Hk. discriminate Hk.
Defined.

(** A daemon stopped and started within a window writes its row twice: the second, which saw
    only the end of the window, replaces the peak the first one kept. *)
Definition quiet (t : Z) : Tick := mkTick t now 0 true Applied.
Definition busy (t : Z) : Tick := mkTick t (if t =? 1000000000 then before else now) 0 true Applied.
Definition first_daemon : ServerMetricsWriter :=
  run_writer 5 [busy 1000000000; busy 1000000001] (busy 1000000002) (start collecting ∅).
Definition second_daemon : ServerMetricsWriter :=
  run_writer 5 [quiet 1000000003; quiet 1000000004] (quiet 1000000005)
    (start collecting (server_metrics first_daemon)).

(** The peak of a window does not survive a restart inside it: the row the stopping daemon
    wrote for the window in progress is overwritten by the new daemon's first row, at the same
    key, with the peaks of the rest of the window alone. *)
Theorem restart_overwrites_peak :
  let key := row_key 200000000 5 in
  (v ← server_metrics first_daemon !! key; v !! 2%nat) = Some 8000 /\
  (v ← server_metrics second_daemon !! key; v !! 2%nat) = Some NOT_MEASURED.
Proof. vm_compute. split; reflexivity. Qed.

End Rows.
